(* ===== verification/_CoqProject ===== *)
-Q . S2P
Prelude.v
Text.v
Program.v
Double.v
WriteQueue.v
Protocol.v
Crc32.v
ErrorCode.v
ServiceManager.v
Framing.v
Connection.v
Executor.v
ThreadPool.v
PackagedTask.v
ConnectionManager.v
MessageCycle.v
AsyncCycle.v
RpcServer.v
RpcClient.v
Wire.v
EndToEnd.v
RpcSystem.v
RpcProgress.v
RpcLiveness.v
RpcCompletion.v
RpcWork.v
Balancer.v
ZkProto.v
ZkClient.v
ServiceRegistry.v
Dialogue.v
ZooKeeper.v
NodeManager.v
Directory.v
Config.v
LogInit.v
Console.v
CreateSocket.v
Compress.v
Encrypt.v
Serializer.v
ServerMain.v
Shutdown.v
ClientMain.v
ServedClient.v
ClientSystem.v
