(* ===== verification/Prelude.v ===== *)
(** * JHRPC: a verified model of the RPC framework

    JHRPC is a C++ remote-procedure-call framework.  A server program registers
    services and answers framed requests over TCP, one [Connection] per peer,
    processing them on its io thread or on a thread pool; a client library sends
    requests from any thread over one connection and hands the responses back
    through futures; services are published and found through ZooKeeper, with a
    client of its own, and a balancer picks the instance to call.  This library
    models the sources under [src/src] and the ZooKeeper headers under
    [src/include/zk_client], and proves what makes the parts and their
    composition correct.  The files, in dependency order:

    Foundations
    - [Prelude]: byte strings, machine integers with their wrap-around, the
      outcomes of C++ code (a value, an exception, undefined behaviour), buffers
      whose stores and loads out of range are undefined, step functions and their
      runs, string searching, automation.
    - [Text], [Program], [Double]: numbers as text ([std::to_string], [std::stoi]),
      state-passing programs, and binary64 arithmetic with stream formatting.
    - [WriteQueue]: the discipline of a queue with one writer, shared by the
      server's connections and the client, as an abstract system and an interface
      ([WriteQueueImpl]) that both implementations are proved to refine.

    Wire protocol (protocol/rpc_protocol)
    - [Protocol]: header, request and response codecs, function by function with
      their bounds checks.  Theorems: the encoders produce the reference layout,
      decoding inverts encoding, the decoders accept exactly the encodings and
      never read out of bounds, and fields too long for their length prefix are
      lost.
    - [Crc32]: the table-driven checksum with its lazily built static table;
      equal to the bitwise definition, and different on different words of up to
      32 bits.
    - [Framing]: a byte stream as a sequence of frames, the reference for both
      readers.

    Server (service, network, thread_pool, core/rpc_service)
    - [ErrorCode], [ServiceManager]: the error codes; the map of services, refining
      the history of registrations.
    - [Connection]: read loop, write queue, close flag, callbacks.  Every Asio
      operation is an outstanding activity that the environment completes, each
      critical section one step.  Theorems: the read loop delivers exactly the
      frames of the stream up to its first error, what is sent goes out in order
      by one writer at a time, the close callback runs at most once.
    - [ConnectionManager], [MessageCycle], [AsyncCycle]: the connection table, the
      accept loop with its close callbacks and [stop], and the loop in a
      background thread.  [start_listen] takes the port and the call on the acceptor
      that fails, if one does.  Theorems: the table holds exactly the live
      connections under unique ids; [stop] waits for the handler the worker is
      inside, which is a bounded number of steps away from its end but for the
      message callback, and then joins the worker.
    - [Executor], [ThreadPool]: what the server needs of a pool, and the pool:
      workers, [enqueue], [drain], destructor and condition variables, interleaved
      at critical sections and atomic operations, and the singleton around it.
      Theorems: tasks run once, in order; none is lost, also by the destructor;
      the counters count; where [drain] goes wrong.
    - [PackagedTask]: the template [enqueue] over that pool, with its packaged
      tasks and their futures.  Theorem: a future is ready exactly when its task
      has run, with what its function returned or threw.
    - [RpcServer]: request processing as functions, and the server as a step
      relation over the message cycle and any [Executor].  Theorems: every branch
      of [process_request]; each request is answered at most once and only with
      its own response; when the executor has finished, all are answered.

    Client (core/rpc_client)
    - [RpcClient]: [connect], [call], read loop, write queue, rejection,
      [disconnect], destruction.  Theorems: a response settles the call with its
      sequence number and no other, a call settles once, only a second [connect]
      can terminate the program, the writer finishes, and the step that ends the
      read loop settles every registered call.
    - [EndToEnd]: the client's frames through a server connection and back; a call
      returns what the service computed.

    The system
    - [Wire]: one direction of a TCP connection between an outstanding
      [async_write] and an outstanding [async_read], with what each end has put in
      and taken out tied to its history of frames.
    - [RpcSystem]: any number of clients, their connections and the server as one
      step relation.  Theorems: the server executes a call at most once, on the
      caller's request, and a ready future holds that execution's response or the
      connection-closed error; the wire carries well-formed frames of calls and
      responses only.
    - [RpcProgress], [RpcLiveness], [RpcCompletion]: when nothing is left to do for
      a client whose connection is intact, its calls are all executed and
      answered; the work always ends, by a lexicographic measure of its stages
      (callers, client queue, bytes up, requests read, pool, senders, server
      queue, bytes down and responses read), also with any finite number of other
      steps in between; so calls complete.  [ExecutorRests] is what this needs of a
      pool, and [ThreadPool] provides it.
    - [RpcWork]: the work on one client from its connection and acceptance on, its
      end, and a scheduler that picks its steps while a thread waits.

    Registry (zk_client, registry, conn_balancer)
    - [ZkProto], [ZkClient]: the ZooKeeper wire format and the client's handshake,
      table of pending requests and replies.
    - [ServiceRegistry], [NodeManager]: registration and discovery as computations
      that poll the io context; selection on top of the balancer.  An io context
      without a work guard is stopped as soon as it has no work, and nothing
      restarts it: [bare_context_stops] shows what that means.
    - [Dialogue]: such a computation run against a server that answers each of its
      requests, and the lemmas that compose the answers.
    - [ZooKeeper]: the server as a class: the results that its documentation
      states for creating, deleting, reading and listing the nodes of a data tree,
      and a concrete server that satisfies them.
    - [Directory]: with such a server, the node manager implements a finite map
      from names to addresses, operation by operation; what a new manager
      registers its selections find, each instance once, if the caller keeps the io
      context at work.
    - [Balancer]: the three strategies and the node list.  Theorems: round robin
      takes turns, weighted selection is proportional, list operations.

    Utilities and programs
    - [Config], [LogInit], [Compress], [Encrypt], [Serializer]: load_config,
      compress_data, encrypt and serializer, each over its library as a class of
      operations with the laws its manual states, and a concrete instance that
      satisfies them.
    - [Console], [ServerMain], [ClientMain]: server_main.cpp and client_main.cpp:
      command lines, start-up, sessions and what they print.  The server program
      reaches a state of [RpcServer]'s system, so everything proved of reachable
      servers holds of the running program, unless it cannot listen, which ends it;
      the client program is proved against an interface to the client library,
      [Serves].
    - [Shutdown]: the end of the server program, where [main] destroys the server
      before the pool.  Theorem: a task not run to its end by then leads to a use
      of the destroyed server, and without one the end is safe.
    - [ServedClient]: a client at work with the server program: until its work is
      done nothing fails, and a ready future holds what the service computes.
    - [ClientSystem]: [Serves] implemented by the system of [RpcSystem]: while the
      client program waits, a scheduler picks the steps of client, network, server
      and pool, and decides when the program goes on; so the session of the client
      program is proved of client library, network, server program and pool
      together.
    - [CreateSocket]: network/create_socket, which no other part calls.  Theorems:
      the promise of a client socket is settled exactly once; a failing acceptor
      leaks no socket.

    How the models correspond to the code.  A class is a [Record] of its members
    (their names kept) followed by fields for the environment (outstanding
    operations, threads and where they stand) and histories, which no operation
    reads; a member function is a [Definition]; where it gives up a mutex or ends
    with an asynchronous operation, its parts are separate definitions, composed
    by the component's [..._step] function, whose events carry what the
    environment chooses.  [..._reachable] are the states some schedule reaches;
    theorems quantify over all of them.  [None] of a step means that it is not
    possible in that state.  Shared pointers are indices into a heap of objects.
    Synchronous code is a [Program.prog]; when it ends with an exception, the state
    is the one the code has left.

    Bounds and fuel.  Lengths are 64-bit; [max_size] is the largest string.
    [digits] has fuel 20, enough for 64 bits; [decimal_exponent] starts at
    [10 ^ 309] with fuel 640, enough for every positive double; the fuel of
    [Connection.feed_iter] is bounded by the length of the stream, and the
    termination of the loop within it is part of the theorem.  [ClientSystem]
    waits by recursion on the proof that the work ends, without fuel.
    [Dialogue.online] takes fuel for the answers of one operation; listing needs
    one more than the directory has entries, and the theorems of [Directory] state
    what is enough and that the operations return.  Sequence numbers and ids wrap
    at their widths, and theorems that need them distinct say so.

    Taken as one step.  [process_request] and the test of [closed_] in [send]
    ([RpcServer.process_and_send] says why nothing is lost); [stop] as a whole in
    [AsyncCycle], its parts being steps in [MessageCycle]; the start of the server's
    thread up to its loop, before [main] goes on ([ServerMain]).

    Not modelled.  Memory exhaustion ([std::bad_alloc]); the third-party libraries
    themselves, which are parameters with their documented laws; generated
    protobuf code and the tests; the lines written to the log; what other static
    objects do after [main] has returned; the ensemble behind a ZooKeeper server,
    its sessions' expiry and its watches; addresses and name resolution below
    [RpcClient.connect], whose outcome is an event.  Asio and the kernel are the
    environment: their completions are events of the step functions. *)
From Stdlib Require Export ZArith Lia Ascii String.
From stdpp Require Export base list strings numbers gmap sorting relations.

#[global] Open Scope Z_scope.
#[export] Set Warnings "-clear-no-such-hyp".

(** ** Byte strings

    [std::string], [std::vector<char>] and raw buffers are lists of 8-bit
    characters. *)

Abbreviation str := (list ascii).

Definition bs (s : string) : str := list_ascii_of_string s.

(** [size()] as the 64-bit [size_t] the x86-64 build uses. *)
Definition len {A} (s : list A) : Z := Z.of_nat (length s).

(** [std::string::max_size()] of the 64-bit standard libraries. *)
Definition max_size : Z := 2 ^ 63 - 1.

(** ** Machine integers *)

Definition wrap (w z : Z) : Z := z mod 2 ^ w.
Definition swrap (w z : Z) : Z := (z + 2 ^ (w - 1)) mod 2 ^ w - 2 ^ (w - 1).

Abbreviation u8 := (wrap 8).
Abbreviation u16 := (wrap 16).
Abbreviation u32 := (wrap 32).
Abbreviation u64 := (wrap 64).
Abbreviation i32 := (swrap 32).
Abbreviation i64 := (swrap 64).

(** [size_t] addition. *)
Definition size_add (a b : Z) : Z := u64 (a + b).

(** [static_cast<char>] of an integer, and [static_cast<uint8_t>] of a char. *)
Definition chr (z : Z) : ascii := ascii_of_N (Z.to_N (u8 z)).
Definition ord (c : ascii) : Z := Z.of_N (N_of_ascii c).

(** ** Outcomes of C++ code: a value, an exception, or undefined behaviour *)

Inductive exn :=
  | runtime_error (what : str)     (* std::runtime_error *)
  | other_std_exception (what : str) (* std::exception, not a runtime_error *)
  | unknown_exception.             (* not derived from std::exception *)

Inductive outcome (A : Type) :=
  | Ok (a : A)
  | Throw (e : exn)
  | UB.
Arguments Ok {A} a.
Arguments Throw {A} e.
Arguments UB {A}.

#[export] Instance outcome_ret : MRet outcome := fun A a => Ok a.
#[export] Instance outcome_bind : MBind outcome := fun A B f m =>
  match m with Ok a => f a | Throw e => Throw e | UB => UB end.

Lemma bind_ok {A B} (m : outcome A) (k : A -> outcome B) a : m = Ok a -> (m ≫= k) = k a.
Proof. by intros ->. Qed.

Lemma bind_ok_inv {A B} (m : outcome A) (k : A -> outcome B) b :
  (m ≫= k) = Ok b -> exists a, m = Ok a /\ k a = Ok b.
Proof. destruct m; [eauto|done..]. Qed.

Definition throw {A} (msg : string) : outcome A := Throw (runtime_error (bs msg)).

(** [yields P m]: [m] has defined behaviour, its value satisfies [P], and any
    exception it throws is a [std::runtime_error]. *)
Definition yields {A} (P : A -> Prop) (m : outcome A) : Prop :=
  match m with
  | Ok a => P a
  | Throw (runtime_error _) => True
  | Throw _ => False
  | UB => False
  end.

(** ** Step functions

    A component that reacts to events is a partial step function; its runs are
    the reflexive transitive closure of the transitions. *)
Section steps.
Context {S E : Type} (step : S -> E -> option S).

Definition steps_to (s s' : S) : Prop := exists ev, step s ev = Some s'.

Fixpoint run (evs : list E) (s : S) : option S :=
  match evs with
  | [] => Some s
  | ev :: evs => s' ← step s ev; run evs s'
  end.

Lemma run_steps evs s s' : run evs s = Some s' -> rtc steps_to s s'.
Proof.
  revert s. induction evs as [|ev evs IH]; intros s E1; cbn in E1.
  - simplify_eq. constructor.
  - destruct (step s ev) as [s1|] eqn:E2; [|done].
    eapply rtc_l; [by exists ev|]. by apply IH.
Qed.

Lemma run_reachable evs s : rtc steps_to s (default s (run evs s)).
Proof.
  destruct (run evs s) as [s'|] eqn:E1; cbn; [by eapply run_steps|constructor].
Qed.

Lemma steps_invariant (P : S -> Prop) :
  (forall s ev s', P s -> step s ev = Some s' -> P s') ->
  forall s s', rtc steps_to s s' -> P s -> P s'.
Proof. intros Hs s s' Hr. induction Hr as [|a b c [ev Hev] _ IH]; eauto. Qed.
End steps.

(** ** Buffers

    A store past the end of a buffer and a load past the last character are
    undefined behaviour. *)

(** [std::memcpy(&buf[pos], bytes, n)] and stores of single characters. *)
Definition buf_write (buf : str) (pos : Z) (bytes : str) : outcome str :=
  if bool_decide (0 <= pos /\ pos + len bytes <= len buf)
  then Ok (take (Z.to_nat pos) buf ++ bytes ++
           drop (Z.to_nat (pos + len bytes)) buf)
  else UB.

(** [assign(&buf[pos], n)] and loads of [n] characters from [&buf[pos]]. *)
Definition buf_read (buf : str) (pos n : Z) : outcome str :=
  if bool_decide (0 <= pos /\ 0 <= n /\ pos + n <= len buf)
  then Ok (take (Z.to_nat n) (drop (Z.to_nat pos) buf))
  else UB.

(** [std::string(n, '\0')] *)
Definition zeros (n : Z) : str := replicate (Z.to_nat n) (chr 0).

(** The same for an [n] that may be too large for a string. *)
Definition new_string (n : Z) : outcome str :=
  if max_size <? n then Throw (other_std_exception (bs "basic_string::_M_create")) else Ok (zeros n).

(** [s.resize(n)] *)
Definition resize (n : Z) (s : str) : str := take (Z.to_nat n) s ++ zeros (n - len s).

(** ** Big-endian reference encoding *)

Fixpoint be_bytes (n : nat) (z : Z) : str :=
  match n with
  | O => []
  | S k => chr (z / 2 ^ (8 * Z.of_nat k)) :: be_bytes k z
  end.

Fixpoint be_val (l : str) : Z :=
  match l with
  | [] => 0
  | c :: r => ord c * 2 ^ (8 * len r) + be_val r
  end.

(** ** Searching strings *)

Fixpoint starts_with (pat s : str) : bool :=
  match pat, s with
  | [], _ => true
  | _ :: _, [] => false
  | p :: pat, c :: s => (ord p =? ord c) && starts_with pat s
  end.

(** [s.find(pat) != std::string::npos] *)
Fixpoint contains (pat s : str) : bool :=
  starts_with pat s || match s with [] => false | _ :: r => contains pat r end.

(** [s.rfind(c)]; [None] is [npos]. *)
Fixpoint rfind (c : ascii) (s : str) : option nat :=
  match s with
  | [] => None
  | d :: r => match rfind c r with
              | Some i => Some (S i)
              | None => if ord d =? ord c then Some O else None
              end
  end.

(** ** Automation *)

Create HintDb rpc.
Create Rewrite HintDb rpc_len.

(** Case analysis on every [bool_decide] and boolean comparison in sight, with
    the arithmetic reading of the test in the context. *)
Ltac dec_step :=
  match goal with
  | |- context [bool_decide ?P] => destruct (bool_decide_reflect P)
  | H : context [bool_decide ?P] |- _ => destruct (bool_decide_reflect P)
  | |- context [?a <? ?b] => destruct (Z.ltb_spec a b)
  | H : context [?a <? ?b] |- _ => destruct (Z.ltb_spec a b)
  | |- context [?a <=? ?b] => destruct (Z.leb_spec a b)
  | H : context [?a <=? ?b] |- _ => destruct (Z.leb_spec a b)
  | |- context [?a >? ?b] => rewrite (Z.gtb_ltb a b)
  | H : context [?a >? ?b] |- _ => rewrite (Z.gtb_ltb a b) in H
  | |- context [?a =? ?b] => destruct (Z.eqb_spec a b)
  | H : context [?a =? ?b] |- _ => destruct (Z.eqb_spec a b)
  end.
Ltac dec := repeat dec_step.

(** Follow one branch of the code through hypothesis [E]. *)
Ltac split_match E :=
  repeat match type of E with
  | context [match ?x with _ => _ end] => let H := fresh "Hm" in destruct x eqn:H
  end.

(** ** Lemmas on lists *)

Lemma filter_submseteq {A} (P : A -> Prop) `{forall x, Decision (P x)} (l k : list A) :
  l ⊆+ k -> filter P l ⊆+ filter P k.
Proof.
  intros [r ->]%submseteq_Permutation. rewrite filter_app. by apply submseteq_inserts_r.
Qed.

Lemma filter_fmap_comm {A B} (P : B -> Prop) `{forall x, Decision (P x)} (f : A -> B) (l : list A) :
  filter P (f <$> l) = f <$> filter (fun a => P (f a)) l.
Proof.
  induction l as [|a l IH]; [done|]. rewrite fmap_cons, !filter_cons.
  destruct (decide (P (f a))); cbn; by rewrite IH.
Qed.

(** ** Lemmas on lengths *)

Lemma len_app {A} (a b : list A) : len (a ++ b) = len a + len b.
Proof. unfold len. rewrite length_app. lia. Qed.

Lemma len_nil {A} : len (@nil A) = 0.
Proof. reflexivity. Qed.

Lemma len_cons {A} (x : A) l : len (x :: l) = 1 + len l.
Proof. unfold len. cbn. lia. Qed.

Lemma len_nonneg {A} (l : list A) : 0 <= len l.
Proof. unfold len. lia. Qed.

Lemma len_zeros n : 0 <= n -> len (zeros n) = n.
Proof. intros. unfold zeros, len. rewrite length_replicate. lia. Qed.

Lemma len_be_bytes n z : len (be_bytes n z) = Z.of_nat n.
Proof. induction n as [|n IH]; [reflexivity|]. cbn [be_bytes]. rewrite len_cons, IH. lia. Qed.

Lemma len_to_nat {A} (l : list A) : Z.to_nat (len l) = length l.
Proof. unfold len. lia. Qed.

#[export] Hint Rewrite @len_app @len_nil @len_cons len_be_bytes @len_to_nat : rpc_len.
#[export] Hint Resolve len_nonneg : rpc.

Lemma len_0_nil {A} (l : list A) : len l = 0 -> l = [].
Proof. destruct l; [done|]. rewrite len_cons. pose proof (len_nonneg l). lia. Qed.

Lemma split_at {A} (l : list A) (n : Z) :
  0 <= n <= len l -> exists a b, l = a ++ b /\ len a = n.
Proof.
  intros Hn. exists (take (Z.to_nat n) l), (drop (Z.to_nat n) l).
  split; [by rewrite take_drop|]. unfold len in *. rewrite length_take. lia.
Qed.

Lemma new_string_ok n s : 0 <= n -> new_string n = Ok s -> s = zeros n /\ len s = n.
Proof. intros Hn. unfold new_string. dec; [done|]. intros [= <-]. split; [done|by apply len_zeros]. Qed.

Lemma new_string_small n : 0 <= n <= max_size -> new_string n = Ok (zeros n).
Proof. intros Hn. unfold new_string. by dec; [lia|]. Qed.

(** Shrinking a buffer to what was written at its front. *)
Lemma resize_front (out rest : str) : resize (len out) (out ++ rest) = out.
Proof.
  unfold resize. rewrite len_to_nat, take_app_length.
  pose proof (len_nonneg rest). unfold zeros.
  replace (Z.to_nat _) with O by (rewrite len_app; lia). apply app_nil_r.
Qed.

(** ** Lemmas on machine integers *)

Lemma wrap_range w z : 0 <= w -> 0 <= wrap w z < 2 ^ w.
Proof. intros. apply Z.mod_pos_bound. apply Z.pow_pos_nonneg; lia. Qed.

Lemma wrap_small w z : 0 <= z < 2 ^ w -> wrap w z = z.
Proof. apply Z.mod_small. Qed.

Lemma swrap_range w z : 0 < w -> - 2 ^ (w - 1) <= swrap w z < 2 ^ (w - 1).
Proof.
  intros. unfold swrap.
  assert (2 ^ w = 2 * 2 ^ (w - 1)) as E by (rewrite <- Z.pow_succ_r by lia; f_equal; lia).
  assert (0 < 2 ^ (w - 1)) by (apply Z.pow_pos_nonneg; lia).
  pose proof (Z.mod_pos_bound (z + 2 ^ (w - 1)) (2 ^ w)). lia.
Qed.

Lemma swrap_small w z : 0 < w -> - 2 ^ (w - 1) <= z < 2 ^ (w - 1) -> swrap w z = z.
Proof.
  intros. unfold swrap.
  assert (2 ^ w = 2 * 2 ^ (w - 1)) as E by (rewrite <- Z.pow_succ_r by lia; f_equal; lia).
  rewrite Z.mod_small; lia.
Qed.

(** Casting a signed value to unsigned and back is the identity. *)
Lemma swrap_wrap w z :
  0 < w -> - 2 ^ (w - 1) <= z < 2 ^ (w - 1) -> swrap w (wrap w z) = z.
Proof.
  intros Hw Hz. transitivity (swrap w z); [|by apply swrap_small].
  unfold swrap, wrap. rewrite Z.add_mod_idemp_l; [done|].
  apply Z.pow_nonzero; lia.
Qed.

(** Casting an unsigned value to signed and back is the identity. *)
Lemma swrap_unsigned w z : 0 < w -> 0 <= z < 2 ^ w -> swrap w z mod 2 ^ w = z.
Proof.
  intros Hw Hz. unfold swrap. rewrite Zminus_mod_idemp_l.
  replace (z + 2 ^ (w - 1) - 2 ^ (w - 1)) with z by lia. by apply Z.mod_small.
Qed.

Lemma size_add_small a b : 0 <= a + b < 2 ^ 64 -> size_add a b = a + b.
Proof. apply wrap_small. Qed.

Lemma ord_range c : 0 <= ord c < 256.
Proof. unfold ord. pose proof (N_ascii_bounded c). lia. Qed.

Lemma ord_chr z : ord (chr z) = z mod 256.
Proof.
  unfold ord, chr, wrap. change (2 ^ 8) with 256.
  pose proof (Z.mod_pos_bound z 256 eq_refl).
  rewrite N_ascii_embedding by lia. lia.
Qed.

Lemma chr_ord c : chr (ord c) = c.
Proof.
  unfold ord, chr, wrap. pose proof (N_ascii_bounded c).
  change (2 ^ 8) with 256. rewrite Z.mod_small by lia.
  rewrite N2Z.id. apply ascii_N_embedding.
Qed.

Lemma ord_inj c d : ord c = ord d -> c = d.
Proof. intros E. rewrite <- (chr_ord c), <- (chr_ord d). by rewrite E. Qed.

Lemma chr_mod z : chr (z mod 256) = chr z.
Proof. apply ord_inj. rewrite !ord_chr. apply Z.mod_mod. lia. Qed.


(** ** Lemmas on the big-endian encoding *)

Lemma be_val_range l : 0 <= be_val l < 2 ^ (8 * len l).
Proof.
  induction l as [|c l IH]; [by vm_compute|]. cbn [be_val]. rewrite len_cons.
  replace (8 * (1 + len l)) with (8 + 8 * len l) by lia.
  pose proof (len_nonneg l). rewrite Z.pow_add_r by lia.
  pose proof (ord_range c). change (2 ^ 8) with 256.
  set (P := 2 ^ (8 * len l)) in *. nia.
Qed.

Lemma be_bytes_mod n z : be_bytes n (z mod 2 ^ (8 * Z.of_nat n)) = be_bytes n z.
Proof.
  assert (forall m, (n <= m)%nat ->
            be_bytes n (z mod 2 ^ (8 * Z.of_nat m)) = be_bytes n z) as H; [|by apply H].
  intros m. induction n as [|n IH]; intros Hm; [done|]. cbn [be_bytes].
  rewrite IH by lia. f_equal. apply ord_inj. rewrite !ord_chr.
  replace (8 * Z.of_nat m) with (8 * Z.of_nat n + (8 + 8 * (Z.of_nat m - Z.of_nat n - 1))) by lia.
  set (p := 8 * Z.of_nat n). set (q := 8 * (Z.of_nat m - Z.of_nat n - 1)).
  rewrite Z.pow_add_r, Z.rem_mul_r by (try apply Z.pow_nonzero; try apply Z.pow_pos_nonneg; lia).
  rewrite Z.mul_comm, Z.div_add by (apply Z.pow_nonzero; lia).
  rewrite (Z.div_small (z mod _)) by (apply Z.mod_pos_bound, Z.pow_pos_nonneg; lia).
  rewrite Z.add_0_l, Z.pow_add_r by lia. change (2 ^ 8) with 256.
  rewrite Z.rem_mul_r by (try apply Z.pow_pos_nonneg; lia).
  rewrite Z.mul_comm, Z.mod_add by lia. apply Z.mod_mod. lia.
Qed.

Lemma be_val_bytes n z : be_val (be_bytes n z) = z mod 2 ^ (8 * Z.of_nat n).
Proof.
  induction n as [|n IH]; [cbn; by rewrite Z.mod_1_r|].
  cbn [be_bytes be_val]. rewrite IH, len_be_bytes, ord_chr.
  replace (8 * Z.of_nat (S n)) with (8 * Z.of_nat n + 8) by lia.
  rewrite Z.pow_add_r by lia.
  rewrite (Z.rem_mul_r z (2 ^ (8 * Z.of_nat n)) (2 ^ 8)) by (try apply Z.pow_nonzero; lia).
  change (2 ^ 8) with 256. lia.
Qed.

Lemma be_bytes_val l : be_bytes (length l) (be_val l) = l.
Proof.
  induction l as [|c l IH]; [done|]. cbn [length be_bytes be_val].
  pose proof (be_val_range l) as Hr. pose proof (len_nonneg l). f_equal.
  - apply ord_inj. fold (len l). rewrite ord_chr, Z.div_add_l by (apply Z.pow_nonzero; lia).
    rewrite (Z.div_small (be_val l)), Z.add_0_r by done.
    apply Z.mod_small, ord_range.
  - rewrite <- be_bytes_mod. fold (len l).
    rewrite Z.add_comm, Z.mod_add by (apply Z.pow_nonzero; lia).
    rewrite Z.mod_small by done. exact IH.
Qed.

(** Concatenating disjoint bit fields is addition. *)
Lemma lor_shiftl_add a b n :
  0 <= n -> 0 <= b < 2 ^ n -> Z.lor (Z.shiftl a n) b = a * 2 ^ n + b.
Proof.
  intros Hn Hb. rewrite <- Z.shiftl_mul_pow2 by done.
  rewrite <- Z.add_lor_land. enough (Z.land (Z.shiftl a n) b = 0) by lia.
  apply Z.bits_inj'. intros i Hi.
  rewrite Z.land_spec, Z.shiftl_spec, Z.bits_0 by done.
  destruct (Z.lt_ge_cases i n).
  - by rewrite Z.testbit_neg_r by lia.
  - rewrite <- (Z.mod_small b (2 ^ n)) by done.
    rewrite Z.mod_pow2_bits_high by lia. apply andb_false_r.
Qed.

(** ** Lemmas on buffers *)

Lemma buf_read_app pre mid post p n :
  p = len pre -> n = len mid -> buf_read (pre ++ mid ++ post) p n = Ok mid.
Proof.
  intros -> ->. unfold buf_read. rewrite !len_app.
  pose proof (len_nonneg pre). pose proof (len_nonneg mid). pose proof (len_nonneg post).
  rewrite bool_decide_true by lia. rewrite !len_to_nat.
  by rewrite drop_app_length, take_app_length.
Qed.

Lemma buf_read_inv buf p n r :
  buf_read buf p n = Ok r ->
  exists pre post, buf = pre ++ r ++ post /\ len pre = p /\ len r = n.
Proof.
  unfold buf_read. dec; [|done]. intros [= <-].
  exists (take (Z.to_nat p) buf), (drop (Z.to_nat n) (drop (Z.to_nat p) buf)).
  rewrite take_drop, take_drop. unfold len in *.
  rewrite !length_take, length_drop. split_and!; [done|lia|lia].
Qed.

Lemma buf_read_in_range buf p n :
  0 <= p -> 0 <= n -> p + n <= len buf -> exists r, buf_read buf p n = Ok r /\ len r = n.
Proof.
  intros. unfold buf_read. rewrite bool_decide_true by lia. eexists; split; [done|].
  unfold len in *. rewrite length_take, length_drop. lia.
Qed.

(** Filling a zeroed buffer from the left appends to the written prefix. *)
Lemma buf_write_fill pre bytes p n :
  p = len pre -> len bytes <= n ->
  buf_write (pre ++ zeros n) p bytes = Ok ((pre ++ bytes) ++ zeros (n - len bytes)).
Proof.
  intros -> Hb. unfold buf_write. pose proof (len_nonneg pre). pose proof (len_nonneg bytes).
  rewrite len_app, len_zeros, bool_decide_true by lia.
  f_equal. rewrite len_to_nat, take_app_length, <- app_assoc. do 2 f_equal.
  unfold zeros, len in *. rewrite drop_app_ge by lia.
  rewrite drop_replicate. f_equal. lia.
Qed.

Lemma buf_write_front buf out :
  len out <= len buf -> exists rest, buf_write buf 0 out = Ok (out ++ rest).
Proof.
  intros Hl. unfold buf_write. pose proof (len_nonneg out).
  rewrite bool_decide_true by lia. eexists. by cbn.
Qed.

Lemma buf_write_len buf pos bytes buf' : buf_write buf pos bytes = Ok buf' -> len buf' = len buf.
Proof.
  unfold buf_write. case_bool_decide; [|done]. intros [= <-]. pose proof (len_nonneg bytes).
  unfold len in *. rewrite !length_app, length_take, length_drop. lia.
Qed.

Lemma buf_fill_done (pre : str) n : n = 0 -> pre ++ zeros n = pre.
Proof. intros ->. apply app_nil_r. Qed.

(** ** Lemmas on searching *)

Lemma starts_with_app pat s : starts_with pat (pat ++ s) = true.
Proof. induction pat as [|c pat IH]; cbn; [done|]. by rewrite Z.eqb_refl, IH. Qed.

Lemma starts_with_iff pat s : starts_with pat s = true <-> exists r, s = pat ++ r.
Proof.
  split; [|intros [r ->]; apply starts_with_app].
  revert s. induction pat as [|p pat IH]; intros s; cbn; [by exists s|].
  destruct s as [|c s]; [done|]. rewrite andb_true_iff, Z.eqb_eq. intros [Hc Hs].
  apply ord_inj in Hc as ->. destruct (IH s Hs) as [r ->]. by exists r.
Qed.

(** [contains] is the search of [std::string::find]. *)
Lemma contains_iff pat s : contains pat s = true <-> exists l r, s = l ++ pat ++ r.
Proof.
  induction s as [|c s IH]; cbn; rewrite orb_true_iff, starts_with_iff.
  - split; [intros [[r Hr]|?]; [by exists [], r|done]|].
    intros (l & r & E). left. destruct l; [by exists r|done].
  - rewrite IH. split.
    + intros [[r ->]|(l & r & ->)]; [by exists [], r|by exists (c :: l), r].
    + intros (l & r & E). destruct l as [|d l]; cbn in E; [left; by exists r|right].
      injection E as -> ->. by exists l, r.
Qed.

Lemma contains_app_l pat s : contains pat (pat ++ s) = true.
Proof. apply contains_iff. by exists [], s. Qed.

Lemma rfind_none c s : rfind c s = None <-> c ∉ s.
Proof.
  induction s as [|d s IH]; cbn; [split; [intros _; apply not_elem_of_nil|done]|].
  destruct (rfind c s) as [i|].
  - split; [done|]. intros Hn. exfalso. assert (c ∉ s) as Hs by set_solver. by apply IH in Hs.
  - destruct (Z.eqb_spec (ord d) (ord c)) as [E%ord_inj|E].
    + split; [done|]. intros Hn. set_solver.
    + split; [|done]. intros _ [->|?]%elem_of_cons; [done|]. by apply IH.
Qed.

Lemma rfind_app c a b : c ∉ b -> rfind c (a ++ c :: b) = Some (length a).
Proof.
  intros Hb. induction a as [|d a IH]; cbn; [|by rewrite IH].
  apply rfind_none in Hb as ->. by rewrite Z.eqb_refl.
Qed.

(** ** Lists without duplicate keys *)

Lemma filter_key_at_most_one {A B} `{EqDecision B} (f : A -> B) v (l : list A) :
  NoDup (f <$> l) -> (length (filter (fun x => f x = v) l) <= 1)%nat.
Proof.
  induction l as [|x l IH]; [cbn; lia|]. rewrite fmap_cons, NoDup_cons. intros [Hx Hn].
  rewrite filter_cons. case_decide as Hv; [|auto]. cbn.
  assert (filter (fun x => f x = v) l = []) as ->; [|done].
  destruct (filter _ l) as [|y r] eqn:E; [done|]. exfalso. apply Hx.
  assert (y ∈ filter (fun x => f x = v) l) as [Hy Hin]%list_elem_of_filter by (rewrite E; set_solver).
  apply list_elem_of_fmap. exists y. split; congruence.
Qed.
