(* ===== verification/Text.v ===== *)
(** * Numbers as text

    [std::to_string], [std::stoi] and the stream formatting that the programs
    and the configuration summary use. *)
From S2P Require Import Prelude.

(** ** [std::to_string] and [std::stoi] *)

Fixpoint digits (fuel : nat) (n : Z) : str :=
  match fuel with
  | O => []
  | S k => (if n <? 10 then [] else digits k (n / 10)) ++ [chr (48 + n mod 10)]
  end.
(** Of a [size_t]: twenty digits are enough for 64 bits. *)
Definition to_string (n : Z) : str := digits 20 n.

(** An [int] as a stream prints it. *)
Definition int_string (n : Z) : str := if n <? 0 then chr 45 :: to_string (- n) else to_string n.

(** [std::left << std::setw(n)]: padded on the right, never truncated. *)
Definition pad_right (n : Z) (s : str) : str := s ++ replicate (Z.to_nat (n - len s)) (chr 32).

Definition is_space (c : ascii) : bool := (ord c =? 32) || ((9 <=? ord c) && (ord c <=? 13)).
Definition is_digit (c : ascii) : bool := (48 <=? ord c) && (ord c <=? 57).

Fixpoint skip_spaces (s : str) : str :=
  match s with c :: r => if is_space c then skip_spaces r else s | [] => [] end.

(** The value of the longest prefix of digits, if there is one. *)
Fixpoint read_digits (acc : option Z) (s : str) : option Z :=
  match s with
  | c :: r => if is_digit c then read_digits (Some (10 * default 0 acc + (ord c - 48))) r else acc
  | [] => acc
  end.

(** [std::invalid_argument] without digits, [std::out_of_range] outside [int]. *)
Definition stoi (s : str) : outcome Z :=
  let s := skip_spaces s in
  let '(sign, s) :=
    match s with
    | c :: r => if ord c =? 45 then (-1, r) else if ord c =? 43 then (1, r) else (1, s)
    | [] => (1, s)
    end in
  match read_digits None s with
  | None => Throw (other_std_exception (bs "stoi"))
  | Some v => if bool_decide (- 2 ^ 31 <= sign * v < 2 ^ 31) then Ok (sign * v)
              else Throw (other_std_exception (bs "stoi"))
  end.

(** ** Lemmas *)

Lemma read_digits_snoc a c acc :
  Forall (fun c => is_digit c = true) a -> is_digit c = true ->
  read_digits acc (a ++ [c]) = Some (10 * default 0 (read_digits acc a) + (ord c - 48)).
Proof.
  intros Ha Hc. revert acc. induction Ha as [|d a Hd _ IH]; intros acc; cbn.
  - by rewrite Hc.
  - by rewrite Hd, IH.
Qed.

Lemma digit_chr d : 0 <= d < 10 -> is_digit (chr (48 + d)) = true /\ ord (chr (48 + d)) = 48 + d.
Proof.
  intros Hd. assert (ord (chr (48 + d)) = 48 + d) as E.
  { rewrite ord_chr, Z.mod_small; lia. }
  unfold is_digit. rewrite E. split; [|done]. apply andb_true_iff. split; apply Z.leb_le; lia.
Qed.

Lemma digits_digit k n : 0 <= n -> Forall (fun c => is_digit c = true) (digits k n).
Proof.
  revert n. induction k as [|k IH]; intros n Hn; cbn; [constructor|]. apply Forall_app. split.
  - dec; [constructor|]. apply IH. apply Z.div_pos; lia.
  - constructor; [|constructor]. apply digit_chr. apply Z.mod_pos_bound. lia.
Qed.

(** Printing then reading is the identity. *)
Lemma read_digits_digits k n :
  0 <= n < 10 ^ Z.of_nat (S k) -> read_digits None (digits (S k) n) = Some n.
Proof.
  revert n. induction k as [|k IH]; intros n Hn.
  - cbn in Hn |- *. destruct (Z.ltb_spec n 10); [|lia]. rewrite Z.mod_small by lia. cbn.
    destruct (digit_chr n) as [-> ->]; [lia|]. f_equal. lia.
  - cbn [digits]. fold (digits (S k)). change ((if n / 10 <? 10 then [] else digits k (n / 10 / 10)) ++
      [chr (48 + (n / 10) mod 10)]) with (digits (S k) (n / 10)).
    pose proof (Z.mod_pos_bound n 10). destruct (digit_chr (n mod 10)) as [Hd Ho]; [lia|].
    rewrite read_digits_snoc, Ho; [|dec; [constructor|apply digits_digit, Z.div_pos; lia]|done].
    destruct (Z.ltb_spec n 10).
    + cbn. f_equal. rewrite Z.mod_small; lia.
    + rewrite IH; [cbn [default]|]. { f_equal. unfold id. pose proof (Z.div_mod n 10 ltac:(done)). lia. }
      split; [apply Z.div_pos; lia|]. apply Z.div_lt_upper_bound; [lia|].
      rewrite <- Z.pow_succ_r by lia. rewrite <- Nat2Z.inj_succ. lia.
Qed.

Lemma to_string_head n :
  0 <= n -> exists c r, to_string n = c :: r /\ is_digit c = true.
Proof.
  intros Hn. pose proof (digits_digit 20 n Hn) as Hf. unfold to_string.
  destruct (digits 20 n) as [|c r] eqn:E; [|inversion_clear Hf; eauto].
  cbn [digits] in E. by apply app_eq_nil in E as [_ ?].
Qed.

Lemma stoi_to_string n : 0 <= n < 2 ^ 31 -> stoi (to_string n) = Ok n.
Proof.
  intros Hn. destruct (to_string_head n) as (c & r & E & Hc); [lia|].
  assert (read_digits None (to_string n) = Some n) as Hr by (apply read_digits_digits; lia).
  unfold stoi. rewrite E in *. unfold is_digit in Hc. apply andb_true_iff in Hc as [H1%Z.leb_le H2%Z.leb_le].
  cbn [skip_spaces]. assert (is_space c = false) as ->.
  { unfold is_space. apply orb_false_iff. split; [apply Z.eqb_neq; lia|]. apply andb_false_iff. right.
    apply Z.leb_gt. lia. }
  destruct (Z.eqb_spec (ord c) 45); [lia|]. destruct (Z.eqb_spec (ord c) 43); [lia|].
  rewrite Hr, bool_decide_true by lia. f_equal. lia.
Qed.

(** A printed [int] reads back. *)
Lemma stoi_int_string n : - 2 ^ 31 <= n < 2 ^ 31 -> stoi (int_string n) = Ok n.
Proof.
  intros Hn. unfold int_string. destruct (Z.ltb_spec n 0); [|by apply stoi_to_string; lia].
  unfold stoi. cbn [skip_spaces]. change (is_space (chr 45)) with false. cbn iota.
  change (ord (chr 45) =? 45) with true. cbn iota.
  unfold to_string. rewrite read_digits_digits by lia.
  rewrite bool_decide_true by lia. f_equal. lia.
Qed.

Lemma pad_right_len n s : len (pad_right n s) = Z.max n (len s).
Proof.
  unfold pad_right. rewrite len_app. unfold len at 2. rewrite length_replicate.
  pose proof (len_nonneg s). lia.
Qed.

Lemma len_digits k n : len (digits k n) <= Z.of_nat k.
Proof.
  revert n. induction k as [|k IH]; intros n; [done|]. cbn [digits]. rewrite len_app, len_cons, len_nil.
  destruct (n <? 10); [rewrite len_nil; lia|]. specialize (IH (n / 10)). lia.
Qed.

Lemma len_to_string n : len (to_string n) <= 20.
Proof. apply (len_digits 20). Qed.
