(* ===== verification/Program.v ===== *)
(** * State-passing programs

    Synchronous code that owns a state: it returns, waits for something that will
    never happen, ends with an exception, or is undefined.  An exception leaves the
    state as the code had changed it. *)
From S2P Require Import Prelude.

Inductive sync (W A : Type) :=
  | Returned (a : A) (w : W)
  | Polling (w : W)      (* a wait goes on and nothing will end it *)
  | Raised (e : exn) (w : W)
  | Undefined.
Arguments Returned {W A}. Arguments Polling {W A}. Arguments Raised {W A}. Arguments Undefined {W A}.

Definition prog (W A : Type) : Type := W -> sync W A.

#[export] Instance prog_ret {W} : MRet (prog W) := fun A a w => Returned a w.
#[export] Instance prog_bind {W} : MBind (prog W) := fun A B k m w =>
  match m w with
  | Returned a w => k a w
  | Polling w => Polling w
  | Raised e w => Raised e w
  | Undefined => Undefined
  end.

(** Pure code that may throw. *)
Definition attempt {W A} (o : outcome A) : prog W A := fun w =>
  match o with Ok a => Returned a w | Throw e => Raised e w | UB => Undefined end.

(** ** Lemmas *)

Lemma bind_returned {W A B} (m : prog W A) (k : A -> prog W B) w a w' :
  m w = Returned a w' -> (m ≫= k) w = k a w'.
Proof. intros E. unfold mbind, prog_bind. by rewrite E. Qed.

Lemma bind_returned_inv {W A B} (m : prog W A) (k : A -> prog W B) w b w' :
  (m ≫= k) w = Returned b w' -> exists a w1, m w = Returned a w1 /\ k a w1 = Returned b w'.
Proof. unfold mbind, prog_bind. destruct (m w); [eauto|done..]. Qed.
