(* ===== verification/Double.v ===== *)
(** * The programs' floating-point numbers

    [double] is IEEE 754 binary64: Rocq's executable specification of it, with 53
    bits of precision and exponents below 1024, and the text that a stream prints
    for one by default ([%g] with six significant digits). *)
From Stdlib Require Import SpecFloat.
From S2P Require Import Prelude Text.

Abbreviation double := spec_float.

(** Conversion of an integer: to nearest, ties to even. *)
Definition of_int (z : Z) : double := binary_normalize 53 1024 z 0 false.

Definition dadd (x y : double) : double := SFadd 53 1024 x y.
Definition dmul (x y : double) : double := SFmul 53 1024 x y.
Definition ddiv (x y : double) : double := SFdiv 53 1024 x y.

(** The order [std::sort] puts numbers in. *)
Definition not_after (x y : double) : Prop := SFltb y x = false.
#[export] Instance not_after_dec : RelDecision not_after.
Proof. intros x y. unfold not_after. solve_decision. Defined.
Definition sorted (l : list double) : list double := merge_sort not_after l.

(** ** Printing *)

(** [a / b] to the nearest integer, ties to even. *)
Definition round_div (a b : Z) : Z :=
  let q := a / b in
  let r := a mod b in
  if 2 * r <? b then q else if b <? 2 * r then q + 1 else if Z.even q then q else q + 1.

(** [a / b * 10 ^ k] as a fraction. *)
Definition scaled (a b k : Z) : Z * Z := if 0 <=? k then (a * 10 ^ k, b) else (a, b * 10 ^ (- k)).

(** The exponent of the first decimal digit of [a / b]; [10 ^ 309] and
    [10 ^ -324] enclose the positive doubles. *)
Fixpoint decimal_exponent (fuel : nat) (k a b : Z) : Z :=
  match fuel with
  | O => k
  | S f => let '(n, d) := scaled a b (- k) in if d <=? n then k else decimal_exponent f (k - 1) a b
  end.

(** The first six significant digits, and the exponent after rounding. *)
Definition six_digits (a b : Z) : Z * Z :=
  let x := decimal_exponent 640 309 a b in
  let '(n, d) := scaled a b (5 - x) in
  let r := round_div n d in
  if r =? 10 ^ 6 then (10 ^ 5, x + 1) else (r, x).

Definition strip_zeros (s : str) : str :=
  let fix go (r : str) := match r with c :: r' => if ord c =? 48 then go r' else r | [] => [] end in
  reverse (go (reverse s)).

(** Digits after the point, and the point only when some are left. *)
Definition with_fraction (whole frac : str) : str :=
  match strip_zeros frac with [] => whole | f => whole ++ bs "." ++ f end.

Definition exponent_string (x : Z) : str :=
  bs "e" ++ (if x <? 0 then bs "-" else bs "+") ++
  (if Z.abs x <? 10 then bs "0" else []) ++ to_string (Z.abs x).

Definition positive_string (a b : Z) : str :=
  let '(r, x) := six_digits a b in
  let s := to_string r in
  if (x <? -4) || (6 <=? x) then with_fraction (take 1 s) (drop 1 s) ++ exponent_string x
  else if 0 <=? x then with_fraction (take (S (Z.to_nat x)) s) (drop (S (Z.to_nat x)) s)
  else with_fraction (bs "0") (replicate (Z.to_nat (- x - 1)) (chr 48) ++ s).

(** [os << x] *)
Definition double_string (x : double) : str :=
  match x with
  | S754_zero s => if s then bs "-0" else bs "0"
  | S754_infinity s => if s then bs "-inf" else bs "inf"
  | S754_nan => bs "nan"
  | S754_finite s m e =>
      (if s then bs "-" else []) ++
      (if 0 <=? e then positive_string (Zpos m * 2 ^ e) 1 else positive_string (Zpos m) (2 ^ (- e)))
  end.

(** ** Examples: what C++ prints *)

Example print_tenth : double_string (ddiv (of_int 1) (of_int 10)) = bs "0.1".
Proof. by vm_compute. Qed.
Example print_third : double_string (ddiv (of_int 1000) (of_int 3)) = bs "333.333".
Proof. by vm_compute. Qed.
Example print_large : double_string (of_int 1234567) = bs "1.23457e+06".
Proof. by vm_compute. Qed.
Example print_small : double_string (ddiv (of_int 7) (of_int 1000000)) = bs "7e-06".
Proof. by vm_compute. Qed.
Example print_millis : double_string (ddiv (of_int 1250) (of_int 1000)) = bs "1.25".
Proof. by vm_compute. Qed.
Example print_rounds_up : double_string (ddiv (of_int 9999995) (of_int 10)) = bs "1e+06".
Proof. by vm_compute. Qed.
