(* ===== verification/WriteQueue.v ===== *)
(** * The write-queue discipline shared by [Connection] and [RpcClient]

    Both classes serialise concurrent writers the same way: producers push
    under a mutex and start a writer only when the [writing] flag was clear;
    the writer pops under the mutex, issues one [async_write], and runs again
    from its completion handler.  This file states that discipline as an
    abstract machine, proves its invariant once, and gives the interface
    ([WriteQueueImpl]) through which the two components inherit it.

    [Connection::do_write] abandons the queue after a failed write,
    [RpcClient::do_write] goes on: the machine has that choice as
    [stop_on_error]. *)
From S2P Require Import Prelude.

Section machine.
Context {I : Type} (stop_on_error : bool).

(** What a thread or an outstanding operation is doing for the writer. *)
Inductive activity :=
  | DoWrite            (* about to enter the critical section of do_write *)
  | Issue (x : I)      (* popped [x], about to call async_write *)
  | InFlight (x : I).  (* async_write of [x] outstanding *)

Record wq := {
  wq_queue : list I;
  wq_writing : bool;
  wq_active : list activity;
  wq_pushed : list I;           (* history: items pushed, in order *)
  wq_handled : list (I * bool)  (* history: items completed, with success *)
}.

Definition wq_init : wq :=
  {| wq_queue := []; wq_writing := false; wq_active := []; wq_pushed := []; wq_handled := [] |}.

Inductive wq_event :=
  | WPush (x : I)
  | WPop (i : nat)
  | WIssue (i : nat)
  | WDone (i : nat) (ok : bool).

Definition wq_push (x : I) (q : wq) : wq :=
  {| wq_queue := wq_queue q ++ [x];
     wq_writing := true;
     wq_active := if wq_writing q then wq_active q else wq_active q ++ [DoWrite];
     wq_pushed := wq_pushed q ++ [x]; wq_handled := wq_handled q |}.

Definition wq_step (q : wq) (ev : wq_event) : option wq :=
  match ev with
  | WPush x => Some (wq_push x q)
  | WPop i =>
      match wq_active q !! i with
      | Some DoWrite =>
          Some match wq_queue q with
          | [] => {| wq_queue := []; wq_writing := false; wq_active := delete i (wq_active q);
                     wq_pushed := wq_pushed q; wq_handled := wq_handled q |}
          | x :: r => {| wq_queue := r; wq_writing := wq_writing q;
                         wq_active := <[i := Issue x]> (wq_active q);
                         wq_pushed := wq_pushed q; wq_handled := wq_handled q |}
          end
      | _ => None
      end
  | WIssue i =>
      match wq_active q !! i with
      | Some (Issue x) =>
          Some {| wq_queue := wq_queue q; wq_writing := wq_writing q;
                  wq_active := <[i := InFlight x]> (wq_active q);
                  wq_pushed := wq_pushed q; wq_handled := wq_handled q |}
      | _ => None
      end
  | WDone i ok =>
      match wq_active q !! i with
      | Some (InFlight x) =>
          Some {| wq_queue := wq_queue q; wq_writing := wq_writing q;
                  wq_active := if negb ok && stop_on_error then delete i (wq_active q)
                               else <[i := DoWrite]> (wq_active q);
                  wq_pushed := wq_pushed q; wq_handled := wq_handled q ++ [(x, ok)] |}
      | _ => None
      end
  end.

Definition wq_trans : wq -> wq -> Prop := steps_to wq_step.

(** Items that have left the queue and whose write has not completed. *)
Definition act_items (l : list activity) : list I :=
  l ≫= fun a => match a with DoWrite => [] | Issue x | InFlight x => [x] end.

(** A write has failed, so no writer will run again. *)
Definition wq_dead (q : wq) : Prop :=
  stop_on_error = true /\ exists x, last (wq_handled q) = Some (x, false).

Record wq_inv (q : wq) : Prop := {
  inv_single : (length (wq_active q) <= 1)%nat;
  inv_flag : wq_active q <> [] -> wq_writing q = true;
  inv_idle : wq_active q = [] -> wq_writing q = true -> wq_dead q;
  inv_quiet : wq_active q = [] -> wq_writing q = false -> wq_queue q = [];
  inv_fifo : wq_pushed q = (wq_handled q).*1 ++ act_items (wq_active q) ++ wq_queue q;
  inv_prefix : stop_on_error = true ->
    Forall (fun p => p.2 = true) (wq_handled q) \/
    wq_active q = [] /\ wq_writing q = true /\
    exists h x, wq_handled q = h ++ [(x, false)] /\ Forall (fun p => p.2 = true) h
}.
End machine.

Arguments act_items : simpl never.
Arguments activity I : clear implicits.
Arguments wq I : clear implicits.
Arguments wq_event I : clear implicits.

Section invariant.
Context {I : Type} (stop : bool).

Lemma wq_init_inv : wq_inv stop (wq_init (I := I)).
Proof. split; cbn; auto; try done; try lia. Qed.

(** With at most one activity, the selected one is the whole list. *)
Lemma single_lookup {A} (l : list A) i a :
  (length l <= 1)%nat -> l !! i = Some a -> l = [a] /\ i = O.
Proof. destruct l as [|b [|c l]], i; cbn; intros; try done; try lia. by simplify_eq. Qed.

(** The shape of a state in which the selected activity is [a]. *)
Lemma wq_active_single (q : wq I) i a :
  wq_inv stop q -> wq_active q !! i = Some a ->
  wq_active q = [a] /\ i = O /\ wq_writing q = true /\
  wq_pushed q = (wq_handled q).*1 ++ act_items [a] ++ wq_queue q /\
  (stop = true -> Forall (fun p => p.2 = true) (wq_handled q)).
Proof.
  intros [Hs Hf Hi Hq Hfi Hp] Ea. apply single_lookup in Ea as [Ea ->]; [|done].
  rewrite Ea in *. split_and!; auto. intros Hst. destruct (Hp Hst) as [|[? _]]; done.
Qed.

Lemma wq_push_inv (q : wq I) x : wq_inv stop q -> wq_inv stop (wq_push x q).
Proof.
  intros [Hs Hf Hi Hq Hfi Hp]. unfold wq_push. destruct (wq_writing q) eqn:Ew.
  - split; cbn; auto; try done. by rewrite Hfi, <- !app_assoc.
  - assert (wq_active q = []) as Ea
      by (destruct (wq_active q); [done|]; exfalso; by discriminate Hf).
    specialize (Hq Ea eq_refl). rewrite Ea in *.
    split; cbn; auto; try done.
    + rewrite Hfi, Hq. cbn. by rewrite !app_nil_r.
    + intros Hst. destruct (Hp Hst) as [|(_ & ? & _)]; [auto|done].
Qed.

Lemma wq_step_inv (q q' : wq I) ev :
  wq_inv stop q -> wq_step stop q ev = Some q' -> wq_inv stop q'.
Proof.
  intros Hinv E. destruct ev as [x|i|i|i ok]; cbn in E.
  - injection E as <-. by apply wq_push_inv.
  - destruct (wq_active q !! i) as [[| |]|] eqn:Ea; try done.
    destruct (wq_active_single q i _ Hinv Ea) as (El & -> & Ew & Ep & Hok).
    rewrite El in E. destruct (wq_queue q) as [|x r] eqn:Eq; injection E as <-.
    + split; cbn; auto; try done.
    + split; cbn; auto; try done; lia.
  - destruct (wq_active q !! i) as [[|x|]|] eqn:Ea; try done.
    destruct (wq_active_single q i _ Hinv Ea) as (El & -> & Ew & Ep & Hok).
    rewrite El in E. injection E as <-. split; cbn; auto; try done; lia.
  - destruct (wq_active q !! i) as [[| |x]|] eqn:Ea; try done.
    destruct (wq_active_single q i _ Hinv Ea) as (El & -> & Ew & Ep & Hok).
    rewrite El in E. injection E as <-.
    assert (wq_pushed q = (wq_handled q ++ [(x, ok)]).*1 ++ wq_queue q) as Ep'
      by (rewrite Ep, fmap_app, <- app_assoc; done).
    destruct ok; cbn; [|destruct stop eqn:Est; cbn].
    + split; cbn; auto; try done; try lia. intros Hst. left.
      apply Forall_app. auto.
    + split; cbn; auto; try done; try lia.
      * intros _ _. split; [done|]. exists x. apply last_snoc.
      * by rewrite Ew.
      * intros _. right. eauto 10.
    + split; cbn; auto; try done; lia.
Qed.

Lemma wq_reachable_inv (q : wq I) : rtc (wq_trans stop) wq_init q -> wq_inv stop q.
Proof.
  intros Hr. eapply (steps_invariant (wq_step stop)); [|exact Hr|apply wq_init_inv].
  eauto using wq_step_inv.
Qed.

(** ** Progress

    The steps of the writer itself, pushes excluded. *)
Definition is_writer_event (ev : wq_event I) : Prop :=
  match ev with WPush _ => False | _ => True end.

Definition activity_weight (a : activity I) : nat :=
  match a with DoWrite => 1 | InFlight _ => 2 | Issue _ => 3 end.

Definition wq_measure (q : wq I) : nat :=
  (3 * length (wq_queue q) + sum_list (activity_weight <$> wq_active q))%nat.

Lemma wq_writer_decreases (q q' : wq I) ev :
  wq_inv stop q -> is_writer_event ev -> wq_step stop q ev = Some q' ->
  (wq_measure q' < wq_measure q)%nat.
Proof.
  intros Hinv Hev E. destruct ev as [x|i|i|i ok]; [done|..]; cbn in E;
    destruct (wq_active q !! i) as [[|x|x]|] eqn:Ea; try done;
    destruct (wq_active_single q i _ Hinv Ea) as (El & -> & _);
    rewrite El in E; unfold wq_measure; rewrite El.
  - destruct (wq_queue q); injection E as <-; cbn; lia.
  - injection E as <-. cbn. lia.
  - injection E as <-. destruct (negb ok && stop); cbn; lia.
Qed.

(** A writer that cannot move has written everything, or a write failed. *)
Lemma wq_stuck_done (q : wq I) :
  wq_inv stop q -> (forall ev, is_writer_event ev -> wq_step stop q ev = None) ->
  wq_queue q = [] /\ wq_pushed q = (wq_handled q).*1 /\ wq_writing q = false \/
  wq_dead stop q.
Proof.
  intros Hinv Hstuck. destruct (wq_active q) as [|a l] eqn:Ea.
  - destruct Hinv as [_ _ Hi Hq Hfi _]. rewrite Ea in *.
    destruct (wq_writing q); [right; auto|left].
    specialize (Hq eq_refl eq_refl). rewrite Hq in Hfi. cbn in Hfi.
    unfold act_items in Hfi. by rewrite app_nil_r in Hfi.
  - exfalso. destruct a as [|x|x].
    + specialize (Hstuck (WPop 0) Logic.I). cbn in Hstuck. by rewrite Ea in Hstuck.
    + specialize (Hstuck (WIssue 0) Logic.I). cbn in Hstuck. by rewrite Ea in Hstuck.
    + specialize (Hstuck (WDone 0 true) Logic.I). cbn in Hstuck. by rewrite Ea in Hstuck.
Qed.
End invariant.

(** ** The interface

    A component implements the discipline when each of its events is an event
    of the machine or leaves the machine's state alone, and when the machine's
    writer can move only if the component's writer can, at least in the [live]
    states, those in which its threads run. *)
Class WriteQueueImpl {I S E : Type} (stop : bool) (step : S -> E -> option S) (init : S)
    (view : S -> wq I) (event : S -> E -> option (wq_event I)) (live : S -> Prop) := {
  impl_init : view init = wq_init;
  impl_step s ev s' :
    step s ev = Some s' ->
    match event s ev with
    | Some we => wq_step stop (view s) we = Some (view s')
    | None => view s' = view s
    end;
  impl_writer s we q :
    live s -> is_writer_event we -> wq_step stop (view s) we = Some q ->
    exists ev s', event s ev = Some we /\ step s ev = Some s' /\ view s' = q
}.

Section interface.
Context {I S E : Type} {stop : bool} {step : S -> E -> option S} {init : S}
  {view : S -> wq I} {event : S -> E -> option (wq_event I)} {live : S -> Prop}
  {HI : WriteQueueImpl stop step init view event live}.

Definition impl_trans : S -> S -> Prop := steps_to step.

Lemma impl_inv s : rtc impl_trans init s -> wq_inv stop (view s).
Proof.
  intros Hr. eapply (steps_invariant step (fun a => wq_inv stop (view a)));
    [|exact Hr|rewrite impl_init; apply wq_init_inv].
  intros a ev b Ha Hev. pose proof (impl_step a ev b Hev) as Hs.
  destruct (event a ev) as [we|]; [by eapply wq_step_inv|by rewrite Hs].
Qed.

(** Writer steps of the component consume the measure... *)
Lemma impl_writer_decreases s ev s' we :
  rtc impl_trans init s -> event s ev = Some we -> is_writer_event we ->
  step s ev = Some s' -> (wq_measure (view s') < wq_measure (view s))%nat.
Proof.
  intros Hr Hev Hw Hs. pose proof (impl_step s ev s' Hs) as H. rewrite Hev in H.
  eapply wq_writer_decreases; eauto using impl_inv.
Qed.

(** ... and when none is possible the work is done. *)
Lemma impl_stuck_done s :
  rtc impl_trans init s -> live s ->
  (forall ev we, event s ev = Some we -> is_writer_event we -> step s ev = None) ->
  wq_queue (view s) = [] /\ wq_pushed (view s) = (wq_handled (view s)).*1 /\
    wq_writing (view s) = false \/
  wq_dead stop (view s).
Proof.
  intros Hr Hl Hstuck. apply wq_stuck_done; [by apply impl_inv|].
  intros we Hw. destruct (wq_step stop (view s) we) as [q|] eqn:Eq; [|done].
  destruct (impl_writer s we q Hl Hw Eq) as (ev & s' & Hev & Hs & _).
  by rewrite (Hstuck ev we Hev Hw) in Hs.
Qed.
End interface.
