(* ===== verification/Protocol.v ===== *)
(** * The wire protocol: [src/protocol/rpc_protocol.h] and [rpc_protocol.cpp]

    Frame headers, request bodies and response bodies, encoded into a
    zero-filled buffer by positional stores and decoded by bounds-checked
    loads.  The reference encodings ([header_bytes], [request_bytes],
    [response_bytes]) are plain concatenations of big-endian fields; the
    theorems relate the buffer code to them. *)
From S2P Require Import Prelude.

(** ** Enumerations *)

Inductive MsgType := REQUEST | RESPONSE | RPC_ERROR | HEARTBEAT.

Definition MsgType_value (t : MsgType) : Z :=
  match t with REQUEST => 0x01 | RESPONSE => 0x02 | RPC_ERROR => 0x03 | HEARTBEAT => 0x04 end.

Inductive SerType := SER_PROTOBUF | SER_JSON.

Definition SerType_value (t : SerType) : Z :=
  match t with SER_PROTOBUF => 0 | SER_JSON => 1 end.

Definition FLAG_NONE : Z := 0x00.
Definition FLAG_COMPRESS : Z := 0x01.
Definition FLAG_ENCRYPT : Z := 0x02.

(** ** Structures *)

Definition MAGIC : Z := 0x52504301.
Definition VERSION : Z := 1.

Record RpcHeader := {
  magic : Z;       (* uint32_t *)
  version : Z;     (* uint8_t *)
  msg_type : Z;    (* uint8_t *)
  serializer : Z;  (* uint8_t *)
  flags : Z;       (* uint8_t *)
  seq_id : Z;      (* uint32_t *)
  body_size : Z;   (* uint32_t *)
  checksum : Z     (* uint32_t *)
}.

Record RpcRequest := {
  service_name : str;
  method_name : str;
  timeout_ms : Z;  (* uint32_t *)
  params : str
}.

Record RpcResponse := {
  error_code : Z;  (* int32_t *)
  error_msg : str;
  result : str
}.

#[export] Instance RpcHeader_eq_dec : EqDecision RpcHeader.
Proof. solve_decision. Defined.
#[export] Instance RpcRequest_eq_dec : EqDecision RpcRequest.
Proof. solve_decision. Defined.
#[export] Instance RpcResponse_eq_dec : EqDecision RpcResponse.
Proof. solve_decision. Defined.

(** ** Big-endian stores and loads *)

Definition write_u32 (buf : str) (pos val : Z) : outcome str :=
  buf_write buf pos
    [chr (Z.land (Z.shiftr val 24) 0xFF); chr (Z.land (Z.shiftr val 16) 0xFF);
     chr (Z.land (Z.shiftr val 8) 0xFF); chr (Z.land val 0xFF)].

Definition read_u32 (buf : str) (pos : Z) : outcome Z :=
  b ← buf_read buf pos 4;
  match b with
  | [b0; b1; b2; b3] =>
      Ok (Z.lor (Z.lor (Z.lor (u32 (Z.shiftl (ord b0) 24)) (u32 (Z.shiftl (ord b1) 16)))
            (u32 (Z.shiftl (ord b2) 8))) (ord b3))
  | _ => UB
  end.

Definition write_u16 (buf : str) (pos val : Z) : outcome str :=
  buf_write buf pos [chr (Z.land (Z.shiftr val 8) 0xFF); chr (Z.land val 0xFF)].

Definition read_u16 (buf : str) (pos : Z) : outcome Z :=
  b ← buf_read buf pos 2;
  match b with
  | [b0; b1] => Ok (u16 (Z.lor (Z.shiftl (ord b0) 8) (ord b1)))
  | _ => UB
  end.

(** [data[i] = static_cast<char>(v)] and [static_cast<uint8_t>(data[i])]. *)
Definition write_u8 (buf : str) (pos val : Z) : outcome str := buf_write buf pos [chr val].

Definition read_u8 (buf : str) (pos : Z) : outcome Z :=
  b ← buf_read buf pos 1;
  match b with [c] => Ok (ord c) | _ => UB end.

(** ** Frame header *)

Definition serialize_header (h : RpcHeader) : outcome str :=
  let data := zeros 20 in
  data ← write_u32 data 0 (magic h);
  data ← write_u8 data 4 (version h);
  data ← write_u8 data 5 (msg_type h);
  data ← write_u8 data 6 (serializer h);
  data ← write_u8 data 7 (flags h);
  data ← write_u32 data 8 (seq_id h);
  data ← write_u32 data 12 (body_size h);
  data ← write_u32 data 16 (checksum h);
  Ok data.

Definition deserialize_header (data : str) : outcome RpcHeader :=
  if len data <? 20 then throw "protocol: header too short"
  else
    magic ← read_u32 data 0;
    version ← read_u8 data 4;
    msg_type ← read_u8 data 5;
    serializer ← read_u8 data 6;
    flags ← read_u8 data 7;
    seq_id ← read_u32 data 8;
    body_size ← read_u32 data 12;
    checksum ← read_u32 data 16;
    Ok {| magic := magic; version := version; msg_type := msg_type;
          serializer := serializer; flags := flags; seq_id := seq_id;
          body_size := body_size; checksum := checksum |}.

(** ** Request body *)

Definition request_serialize (r : RpcRequest) : outcome str :=
  let total :=
    size_add (size_add (size_add (size_add (size_add (size_add 2 (len (service_name r))) 2)
      (len (method_name r))) 4) 4) (len (params r)) in
  let data := zeros total in
  let pos := 0 in
  data ← write_u16 data pos (u16 (len (service_name r)));
  let pos := size_add pos 2 in
  data ← buf_write data pos (service_name r);
  let pos := size_add pos (len (service_name r)) in
  data ← write_u16 data pos (u16 (len (method_name r)));
  let pos := size_add pos 2 in
  data ← buf_write data pos (method_name r);
  let pos := size_add pos (len (method_name r)) in
  data ← write_u32 data pos (timeout_ms r);
  let pos := size_add pos 4 in
  data ← write_u32 data pos (u32 (len (params r)));
  let pos := size_add pos 4 in
  data ← buf_write data pos (params r);
  Ok data.

Definition request_deserialize (data : str) : outcome RpcRequest :=
  if len data <? 4 then throw "protocol: invalid request" else
  let pos := 0 in
  srv_len ← read_u16 data pos;
  let pos := size_add pos 2 in
  if size_add pos srv_len >? len data
  then throw "protocol: request truncated (service_name)" else
  service_name ← buf_read data pos srv_len;
  let pos := size_add pos srv_len in
  if size_add pos 2 >? len data
  then throw "protocol: request truncated (method_name)" else
  method_len ← read_u16 data pos;
  let pos := size_add pos 2 in
  if size_add pos method_len >? len data
  then throw "protocol: request truncated (method_name)" else
  method_name ← buf_read data pos method_len;
  let pos := size_add pos method_len in
  if size_add pos 4 >? len data
  then throw "protocol: request truncated (timeout)" else
  timeout_ms ← read_u32 data pos;
  let pos := size_add pos 4 in
  if size_add pos 4 >? len data
  then throw "protocol: request truncated (params_len)" else
  params_len ← read_u32 data pos;
  let pos := size_add pos 4 in
  if size_add pos params_len >? len data
  then throw "protocol: request truncated (params)" else
  params ← buf_read data pos params_len;
  Ok {| service_name := service_name; method_name := method_name;
        timeout_ms := timeout_ms; params := params |}.

(** ** Response body *)

Definition response_serialize (r : RpcResponse) : outcome str :=
  let total :=
    size_add (size_add (size_add (size_add 4 2) (len (error_msg r))) 4) (len (result r)) in
  let data := zeros total in
  let pos := 0 in
  data ← write_u32 data pos (u32 (error_code r));
  let pos := size_add pos 4 in
  data ← write_u16 data pos (u16 (len (error_msg r)));
  let pos := size_add pos 2 in
  data ← buf_write data pos (error_msg r);
  let pos := size_add pos (len (error_msg r)) in
  data ← write_u32 data pos (u32 (len (result r)));
  let pos := size_add pos 4 in
  data ← buf_write data pos (result r);
  Ok data.

Definition response_deserialize (data : str) : outcome RpcResponse :=
  if len data <? 6 then throw "protocol: invalid response" else
  let pos := 0 in
  code ← read_u32 data pos;
  let error_code := i32 code in
  let pos := size_add pos 4 in
  errmsg_len ← read_u16 data pos;
  let pos := size_add pos 2 in
  if size_add pos errmsg_len >? len data
  then throw "protocol: response truncated (error_msg)" else
  error_msg ← buf_read data pos errmsg_len;
  let pos := size_add pos errmsg_len in
  if size_add pos 4 >? len data
  then throw "protocol: response truncated (result_len)" else
  result_len ← read_u32 data pos;
  let pos := size_add pos 4 in
  if size_add pos result_len >? len data
  then throw "protocol: response truncated (result)" else
  result ← buf_read data pos result_len;
  Ok {| error_code := error_code; error_msg := error_msg; result := result |}.

(** ** Reference encodings *)

Definition header_bytes (h : RpcHeader) : str :=
  be_bytes 4 (magic h) ++ be_bytes 1 (version h) ++ be_bytes 1 (msg_type h) ++
  be_bytes 1 (serializer h) ++ be_bytes 1 (flags h) ++ be_bytes 4 (seq_id h) ++
  be_bytes 4 (body_size h) ++ be_bytes 4 (checksum h).

Definition request_bytes (r : RpcRequest) : str :=
  be_bytes 2 (len (service_name r)) ++ service_name r ++
  be_bytes 2 (len (method_name r)) ++ method_name r ++
  be_bytes 4 (timeout_ms r) ++ be_bytes 4 (len (params r)) ++ params r.

Definition response_bytes (r : RpcResponse) : str :=
  be_bytes 4 (error_code r) ++ be_bytes 2 (len (error_msg r)) ++ error_msg r ++
  be_bytes 4 (len (result r)) ++ result r.

(** The values the C++ types can hold, with string sizes that fit their
    length prefix. *)
Definition in_u (w z : Z) : Prop := 0 <= z < 2 ^ w.

Definition header_wf (h : RpcHeader) : Prop :=
  in_u 32 (magic h) /\ in_u 8 (version h) /\ in_u 8 (msg_type h) /\
  in_u 8 (serializer h) /\ in_u 8 (flags h) /\ in_u 32 (seq_id h) /\
  in_u 32 (body_size h) /\ in_u 32 (checksum h).

Definition request_wf (r : RpcRequest) : Prop :=
  len (service_name r) < 2 ^ 16 /\ len (method_name r) < 2 ^ 16 /\
  in_u 32 (timeout_ms r) /\ len (params r) < 2 ^ 32.

Definition response_wf (r : RpcResponse) : Prop :=
  - 2 ^ 31 <= error_code r < 2 ^ 31 /\
  len (error_msg r) < 2 ^ 16 /\ len (result r) < 2 ^ 32.

#[export] Instance in_u_dec w z : Decision (in_u w z).
Proof. unfold in_u. apply _. Defined.
#[export] Instance header_wf_dec h : Decision (header_wf h).
Proof. unfold header_wf. apply _. Defined.
#[export] Instance request_wf_dec r : Decision (request_wf r).
Proof. unfold request_wf. apply _. Defined.
#[export] Instance response_wf_dec r : Decision (response_wf r).
Proof. unfold response_wf. apply _. Defined.

(** ** The big-endian stores and loads against the reference *)

Lemma land_ff z : Z.land z 255 = z mod 256.
Proof. change 255 with (Z.ones 8). by rewrite Z.land_ones by lia. Qed.

Lemma write_u32_be buf pos v : write_u32 buf pos v = buf_write buf pos (be_bytes 4 v).
Proof.
  unfold write_u32. f_equal. cbn [be_bytes]. rewrite !land_ff, !chr_mod.
  rewrite !Z.shiftr_div_pow2 by lia. change (2 ^ (8 * Z.of_nat 0)) with 1.
  by rewrite Z.div_1_r.
Qed.

Lemma write_u16_be buf pos v : write_u16 buf pos v = buf_write buf pos (be_bytes 2 v).
Proof.
  unfold write_u16. f_equal. cbn [be_bytes]. rewrite !land_ff, !chr_mod.
  rewrite !Z.shiftr_div_pow2 by lia. change (2 ^ (8 * Z.of_nat 0)) with 1.
  by rewrite Z.div_1_r.
Qed.

Lemma write_u8_be buf pos v : write_u8 buf pos v = buf_write buf pos (be_bytes 1 v).
Proof.
  unfold write_u8. cbn [be_bytes]. change (2 ^ (8 * Z.of_nat 0)) with 1.
  by rewrite Z.div_1_r.
Qed.

(** Loading at the end of a prefix decodes the field that follows it. *)
Lemma read_be_field (n : nat) k data pre v post p :
  data = pre ++ be_bytes n v ++ post -> p = len pre -> k = Z.of_nat n ->
  buf_read data p k = Ok (be_bytes n v).
Proof. intros -> -> ->. apply buf_read_app; [done|]. by rewrite len_be_bytes. Qed.

Lemma read_u32_field data pre v post p :
  data = pre ++ be_bytes 4 v ++ post -> p = len pre -> in_u 32 v -> read_u32 data p = Ok v.
Proof.
  intros Hd Hp Hv. unfold read_u32.
  erewrite (read_be_field 4) by done. cbn [mbind outcome_bind].
  transitivity (Ok (be_val (be_bytes 4 v)));
    [|rewrite be_val_bytes; f_equal; by apply Z.mod_small].
  destruct (be_bytes 4 v) as [|b0 [|b1 [|b2 [|b3 [|]]]]] eqn:Eb;
    try (apply (f_equal length) in Eb; cbn in Eb; lia).
  f_equal. cbn [be_val]. pose proof (ord_range b0); pose proof (ord_range b1).
  pose proof (ord_range b2); pose proof (ord_range b3).
  rewrite !wrap_small by (rewrite Z.shiftl_mul_pow2; lia).
  rewrite <- !Z.lor_assoc.
  rewrite (lor_shiftl_add (ord b2) (ord b3) 8) by lia.
  rewrite (lor_shiftl_add (ord b1) _ 16) by lia.
  rewrite (lor_shiftl_add (ord b0) _ 24) by lia.
  rewrite !len_cons, len_nil.
  change (2 ^ (8 * (1 + (1 + (1 + 0))))) with (2 ^ 24).
  change (2 ^ (8 * (1 + (1 + 0)))) with (2 ^ 16).
  change (2 ^ (8 * (1 + 0))) with (2 ^ 8). change (2 ^ (8 * 0)) with 1. lia.
Qed.

Lemma read_u16_field data pre v post p :
  data = pre ++ be_bytes 2 v ++ post -> p = len pre -> in_u 16 v -> read_u16 data p = Ok v.
Proof.
  intros Hd Hp Hv. unfold read_u16.
  erewrite (read_be_field 2) by done. cbn [mbind outcome_bind].
  transitivity (Ok (be_val (be_bytes 2 v)));
    [|rewrite be_val_bytes; f_equal; by apply Z.mod_small].
  destruct (be_bytes 2 v) as [|b0 [|b1 [|]]] eqn:Eb;
    try (apply (f_equal length) in Eb; cbn in Eb; lia).
  f_equal. cbn [be_val]. pose proof (ord_range b0); pose proof (ord_range b1).
  rewrite lor_shiftl_add by lia. rewrite wrap_small by lia.
  rewrite !len_cons, len_nil.
  change (2 ^ (8 * (1 + 0))) with (2 ^ 8). change (2 ^ (8 * 0)) with 1. lia.
Qed.

Lemma read_u8_field data pre v post p :
  data = pre ++ be_bytes 1 v ++ post -> p = len pre -> in_u 8 v -> read_u8 data p = Ok v.
Proof.
  intros Hd Hp Hv. unfold read_u8. erewrite (read_be_field 1) by done.
  cbn. f_equal. rewrite ord_chr. change (2 ^ (8 * 0)) with 1.
  rewrite Z.div_1_r. by apply Z.mod_small.
Qed.

Lemma buf_read_field data pre mid post p n :
  data = pre ++ mid ++ post -> p = len pre -> n = len mid -> buf_read data p n = Ok mid.
Proof. intros -> -> ->. by apply buf_read_app. Qed.

(** ** Walking a buffer: every in-range load consumes one field *)

Lemma split_field (n : nat) (data pre rest : str) :
  data = pre ++ rest -> Z.of_nat n <= len rest ->
  exists v rest', data = pre ++ be_bytes n v ++ rest' /\ 0 <= v < 2 ^ (8 * Z.of_nat n).
Proof.
  intros -> H. destruct (split_at rest (Z.of_nat n)) as (a & b & -> & Ha); [lia|].
  assert (length a = n) as <- by (unfold len in Ha; lia).
  exists (be_val a), b. rewrite be_bytes_val. split; [done|]. apply be_val_range.
Qed.

Lemma read_u16_split data pre rest p :
  data = pre ++ rest -> p = len pre -> 2 <= len rest ->
  exists v rest', data = (pre ++ be_bytes 2 v) ++ rest' /\ in_u 16 v /\ read_u16 data p = Ok v.
Proof.
  intros Hd Hp H. destruct (split_field 2 data pre rest) as (v & r & E & Hv); [done|lia|].
  exists v, r. rewrite <- app_assoc. eauto using read_u16_field.
Qed.

Lemma read_u32_split data pre rest p :
  data = pre ++ rest -> p = len pre -> 4 <= len rest ->
  exists v rest', data = (pre ++ be_bytes 4 v) ++ rest' /\ in_u 32 v /\ read_u32 data p = Ok v.
Proof.
  intros Hd Hp H. destruct (split_field 4 data pre rest) as (v & r & E & Hv); [done|lia|].
  exists v, r. rewrite <- app_assoc. eauto using read_u32_field.
Qed.

Lemma read_u8_split data pre rest p :
  data = pre ++ rest -> p = len pre -> 1 <= len rest ->
  exists v rest', data = (pre ++ be_bytes 1 v) ++ rest' /\ in_u 8 v /\ read_u8 data p = Ok v.
Proof.
  intros Hd Hp H. destruct (split_field 1 data pre rest) as (v & r & E & Hv); [done|lia|].
  exists v, r. rewrite <- app_assoc. eauto using read_u8_field.
Qed.

Lemma buf_read_split data pre rest p n :
  data = pre ++ rest -> p = len pre -> 0 <= n <= len rest ->
  exists a rest', data = (pre ++ a) ++ rest' /\ len a = n /\ buf_read data p n = Ok a.
Proof.
  intros -> Hp H. destruct (split_at rest n) as (a & b & -> & Ha); [lia|].
  exists a, b. rewrite <- app_assoc. split_and!; [done..|]. by apply buf_read_app.
Qed.

(** Arithmetic side conditions on positions and lengths. *)
Ltac side :=
  repeat match goal with H : _ = ?a ++ ?b |- _ => apply (f_equal len) in H end;
  autorewrite with rpc_len in *;
  unfold in_u, max_size in *; cbn [Z.of_nat Pos.of_succ_nat Pos.succ] in *;
  first [done | lia].
(** Position arithmetic does not wrap: innermost [size_add] first. *)
Ltac size_simpl :=
  repeat match goal with
  | |- context [size_add ?a ?b] =>
      lazymatch a with
      | context [size_add] => fail
      | _ => rewrite (size_add_small a b) by side
      end
  end.

(** Storing fields one after the other fills the zeroed buffer from the left. *)
Ltac store :=
  rewrite ?write_u32_be, ?write_u16_be, ?write_u8_be;
  rewrite buf_write_fill by side; cbn [mbind outcome_bind].

(** Loading the next field of a buffer whose layout is known: [Ed] is its
    layout, consumed prefix first. *)
Ltac load_known lem :=
  match goal with
  | Ed : ?data = _ ++ _ |- context [?data] =>
      erewrite bind_ok; [|eapply lem; [exact Ed|side|side]];
      rewrite app_assoc in Ed
  end.

(** Discharge the bounds check at the head of the decoder: it succeeds on a
    known layout, and on an arbitrary buffer it either throws or lets us on. *)
Ltac pass_check :=
  match goal with
  | |- (if ?a >? ?b then _ else _) = _ =>
      rewrite (Z.gtb_ltb a b); destruct (Z.ltb_spec b a); [exfalso; side|]
  end.
Ltac try_check :=
  match goal with
  | |- yields _ (if ?a >? ?b then _ else _) =>
      rewrite (Z.gtb_ltb a b); destruct (Z.ltb_spec b a); [exact I|]
  end.

(** ** The header codec *)

Lemma header_serialize_bytes h : serialize_header h = Ok (header_bytes h).
Proof.
  unfold serialize_header. change (zeros 20) with ([] ++ zeros 20). cbv zeta.
  do 8 store. unfold header_bytes. rewrite <- !app_assoc. do 10 f_equal.
Qed.

Lemma len_header_bytes h : len (header_bytes h) = 20.
Proof. unfold header_bytes. rewrite !len_app, !len_be_bytes. lia. Qed.

Lemma header_deserialize_bytes h tail :
  header_wf h -> deserialize_header (header_bytes h ++ tail) = Ok h.
Proof.
  intros (?&?&?&?&?&?&?&?). unfold deserialize_header.
  rewrite len_app, len_header_bytes. pose proof (len_nonneg tail).
  destruct (Z.ltb_spec (20 + len tail) 20); [lia|].
  remember (header_bytes h ++ tail) as data eqn:Ed.
  unfold header_bytes in Ed. rewrite <- !app_assoc in Ed.
  rewrite <- (app_nil_l (be_bytes 4 (magic h) ++ _)) in Ed.
  load_known read_u32_field. do 4 load_known read_u8_field. do 3 load_known read_u32_field.
  by destruct h.
Qed.

(** Loading the next field of an arbitrary buffer: [Ed] splits it into the
    consumed prefix and the rest, and the load moves a field across. *)
Ltac load_next lem :=
  match goal with
  | Ed : ?data = ?pre ++ ?rest |- _ =>
      let v := fresh "v" in let r := fresh "rest" in let Hr := fresh "Hr" in
      let E := fresh "E" in let Hv := fresh "Hv" in
      edestruct (lem data pre rest) as (v & r & E & Hv & Hr);
      [exact Ed| | |erewrite bind_ok; [|exact Hr]; clear Hr Ed]; [side..|]
  end.

Lemma header_deserialize_split data :
  20 <= len data ->
  exists h tail, deserialize_header data = Ok h /\ header_wf h /\ data = header_bytes h ++ tail.
Proof.
  intros Hl. unfold deserialize_header. destruct (Z.ltb_spec (len data) 20); [lia|].
  assert (data = [] ++ data) as Ed by done.
  load_next read_u32_split. load_next read_u8_split. load_next read_u8_split.
  load_next read_u8_split. load_next read_u8_split. load_next read_u32_split.
  load_next read_u32_split. load_next read_u32_split.
  eexists _, _. split_and!; [reflexivity|..].
  - by unfold header_wf.
  - unfold header_bytes. cbn [magic version msg_type serializer flags seq_id body_size checksum].
    match goal with E : data = _ |- _ => rewrite E at 1 end. by rewrite <- !app_assoc.
Qed.

(** ** The request codec *)

Lemma request_serialize_bytes r :
  len (service_name r) + len (method_name r) + len (params r) + 12 <= max_size ->
  request_serialize r = Ok (
    be_bytes 2 (u16 (len (service_name r))) ++ service_name r ++
    be_bytes 2 (u16 (len (method_name r))) ++ method_name r ++
    be_bytes 4 (timeout_ms r) ++ be_bytes 4 (u32 (len (params r))) ++ params r).
Proof.
  intros Hs. unfold request_serialize. cbv zeta.
  pose proof (len_nonneg (service_name r)); pose proof (len_nonneg (method_name r)).
  pose proof (len_nonneg (params r)).
  size_simpl. rewrite <- (app_nil_l (zeros _)).
  do 7 store. rewrite buf_fill_done by side. by rewrite <- !app_assoc.
Qed.

Lemma request_bytes_serialize r : request_wf r -> request_serialize r = Ok (request_bytes r).
Proof.
  intros (?&?&?&?). pose proof (len_nonneg (service_name r)).
  pose proof (len_nonneg (method_name r)). pose proof (len_nonneg (params r)).
  rewrite request_serialize_bytes by side. rewrite !wrap_small by lia. done.
Qed.

Lemma request_deserialize_bytes r tail :
  request_wf r -> len (request_bytes r ++ tail) <= max_size ->
  request_deserialize (request_bytes r ++ tail) = Ok r.
Proof.
  intros (?&?&?&?) Hmax. unfold request_deserialize.
  pose proof (len_nonneg (service_name r)). pose proof (len_nonneg (method_name r)).
  pose proof (len_nonneg (params r)). pose proof (len_nonneg tail).
  remember (request_bytes r ++ tail) as data eqn:Ed.
  unfold request_bytes in Ed. rewrite <- !app_assoc in Ed.
  rewrite <- (app_nil_l (be_bytes 2 (len (service_name r)) ++ _)) in Ed.
  destruct (Z.ltb_spec (len data) 4); [side|]. cbv zeta.
  load_known read_u16_field. size_simpl. pass_check.
  load_known buf_read_field. size_simpl. pass_check.
  load_known read_u16_field. size_simpl. pass_check.
  load_known buf_read_field. size_simpl. pass_check.
  load_known read_u32_field. size_simpl. pass_check.
  load_known read_u32_field. size_simpl. pass_check.
  load_known buf_read_field. by destruct r.
Qed.

Lemma request_deserialize_cases data :
  len data <= max_size ->
  yields (fun r => request_wf r /\ exists tail, data = request_bytes r ++ tail)
    (request_deserialize data).
Proof.
  intros Hmax. unfold request_deserialize.
  destruct (Z.ltb_spec (len data) 4); [done|]. cbv zeta.
  assert (data = [] ++ data) as Ed by done.
  load_next read_u16_split. size_simpl. try_check.
  load_next buf_read_split. size_simpl. try_check.
  load_next read_u16_split. size_simpl. try_check.
  load_next buf_read_split. size_simpl. try_check.
  load_next read_u32_split. size_simpl. try_check.
  load_next read_u32_split. size_simpl. try_check.
  load_next buf_read_split. cbn [yields]. split.
  - unfold request_wf, in_u in *. cbn. lia.
  - match goal with E : data = _ ++ ?t |- _ => exists t; rewrite E end.
    unfold request_bytes. cbn [service_name method_name timeout_ms params].
    subst. by rewrite <- !app_assoc.
Qed.

(** A successful decode is the decode of some well-formed request followed by
    ignored bytes, and conversely. *)
Lemma request_deserialize_iff data r :
  len data <= max_size ->
  request_deserialize data = Ok r <->
  request_wf r /\ exists tail, data = request_bytes r ++ tail.
Proof.
  intros Hmax. split.
  - intros E. pose proof (request_deserialize_cases data Hmax) as H. by rewrite E in H.
  - intros (Hwf & tail & ->). by apply request_deserialize_bytes.
Qed.

(** ** The response codec *)

Lemma response_serialize_bytes r :
  len (error_msg r) + len (result r) + 10 <= max_size ->
  response_serialize r = Ok (
    be_bytes 4 (error_code r) ++ be_bytes 2 (u16 (len (error_msg r))) ++ error_msg r ++
    be_bytes 4 (u32 (len (result r))) ++ result r).
Proof.
  intros Hs. unfold response_serialize. cbv zeta.
  pose proof (len_nonneg (error_msg r)); pose proof (len_nonneg (result r)).
  size_simpl. rewrite <- (app_nil_l (zeros _)).
  do 5 store. rewrite buf_fill_done by side. rewrite <- !app_assoc.
  f_equal. cbn [app]. f_equal.
  rewrite <- (be_bytes_mod 4 (error_code r)). reflexivity.
Qed.

Lemma response_bytes_serialize r : response_wf r -> response_serialize r = Ok (response_bytes r).
Proof.
  intros (?&?&?). pose proof (len_nonneg (error_msg r)); pose proof (len_nonneg (result r)).
  rewrite response_serialize_bytes by side. rewrite !wrap_small by lia. done.
Qed.

Lemma response_deserialize_bytes r tail :
  response_wf r -> len (response_bytes r ++ tail) <= max_size ->
  response_deserialize (response_bytes r ++ tail) = Ok r.
Proof.
  intros (?&?&?) Hmax. unfold response_deserialize.
  pose proof (len_nonneg (error_msg r)). pose proof (len_nonneg (result r)).
  pose proof (len_nonneg tail). pose proof (wrap_range 32 (error_code r)).
  remember (response_bytes r ++ tail) as data eqn:Ed.
  unfold response_bytes in Ed. rewrite <- !app_assoc in Ed.
  rewrite <- (be_bytes_mod 4 (error_code r)) in Ed.
  change (error_code r mod 2 ^ (8 * Z.of_nat 4)) with (u32 (error_code r)) in Ed.
  rewrite <- (app_nil_l (be_bytes 4 _ ++ _)) in Ed.
  destruct (Z.ltb_spec (len data) 6); [side|]. cbv zeta.
  load_known read_u32_field. size_simpl.
  load_known read_u16_field. size_simpl. pass_check.
  load_known buf_read_field. size_simpl. pass_check.
  load_known read_u32_field. size_simpl. pass_check.
  load_known buf_read_field. rewrite swrap_wrap by lia. by destruct r.
Qed.

Lemma response_deserialize_cases data :
  len data <= max_size ->
  yields (fun r => response_wf r /\ exists tail, data = response_bytes r ++ tail)
    (response_deserialize data).
Proof.
  intros Hmax. unfold response_deserialize.
  destruct (Z.ltb_spec (len data) 6); [done|]. cbv zeta.
  assert (data = [] ++ data) as Ed by done.
  load_next read_u32_split. size_simpl.
  load_next read_u16_split. size_simpl. try_check.
  load_next buf_read_split. size_simpl. try_check.
  load_next read_u32_split. size_simpl. try_check.
  load_next buf_read_split. cbn [yields]. pose proof (swrap_range 32 v). split.
  - unfold response_wf, in_u in *. cbn. lia.
  - match goal with E : data = _ ++ ?t |- _ => exists t; rewrite E end.
    unfold response_bytes. cbn [error_code error_msg result]. subst.
    rewrite <- (be_bytes_mod 4 (i32 v)), <- !app_assoc. cbn [app]. do 2 f_equal.
    symmetry. apply (swrap_unsigned 32); [lia|done].
Qed.

Lemma response_deserialize_iff data r :
  len data <= max_size ->
  response_deserialize data = Ok r <->
  response_wf r /\ exists tail, data = response_bytes r ++ tail.
Proof.
  intros Hmax. split.
  - intros E. pose proof (response_deserialize_cases data Hmax) as H. by rewrite E in H.
  - intros (Hwf & tail & ->). by apply response_deserialize_bytes.
Qed.

(** ** Sizes of the encodings *)

Lemma len_request_bytes r :
  len (request_bytes r) = 12 + len (service_name r) + len (method_name r) + len (params r).
Proof. unfold request_bytes. autorewrite with rpc_len. lia. Qed.

Lemma len_response_bytes r :
  len (response_bytes r) = 10 + len (error_msg r) + len (result r).
Proof. unfold response_bytes. autorewrite with rpc_len. lia. Qed.

Lemma request_bytes_fit r : request_wf r -> len (request_bytes r) <= max_size.
Proof. intros (?&?&?&?). rewrite len_request_bytes. unfold max_size. lia. Qed.

Lemma response_bytes_fit r : response_wf r -> len (response_bytes r) <= max_size.
Proof. intros (?&?&?). rewrite len_response_bytes. unfold max_size. lia. Qed.

Lemma request_decode_own r : request_wf r -> request_deserialize (request_bytes r) = Ok r.
Proof.
  intros H. rewrite <- (app_nil_r (request_bytes r)).
  apply request_deserialize_bytes; [done|]. rewrite app_nil_r. by apply request_bytes_fit.
Qed.

Lemma response_decode_own r : response_wf r -> response_deserialize (response_bytes r) = Ok r.
Proof.
  intros H. rewrite <- (app_nil_r (response_bytes r)).
  apply response_deserialize_bytes; [done|]. rewrite app_nil_r. by apply response_bytes_fit.
Qed.

(** A decoder that accepts exactly the encodings followed by ignored bytes
    rejects every proper prefix of an encoding. *)
Lemma prefix_rejected {A} (dec : str -> outcome A) (enc : A -> str) (wf : A -> Prop) r p s :
  (forall a, wf a -> dec (enc a) = Ok a) ->
  (forall d a, len d <= max_size -> dec d = Ok a <-> wf a /\ exists t, d = enc a ++ t) ->
  (forall d, len d <= max_size -> yields (fun _ => True) (dec d)) ->
  wf r -> len (enc r) <= max_size -> enc r = p ++ s -> s <> [] ->
  exists msg, dec p = Throw (runtime_error msg).
Proof.
  intros Hown Hiff Hsafe Hr Hmax E Hs.
  assert (len p <= max_size) as Hp.
  { apply (f_equal len) in E. rewrite len_app in E. pose proof (len_nonneg s). lia. }
  specialize (Hsafe p Hp). destruct (dec p) as [a|[m| |]|] eqn:Ea; [|eauto|done..].
  exfalso. apply Hiff in Ea as (Ha & t & ->); [|done].
  assert (dec (enc r) = Ok a) as E2.
  { apply Hiff; [done|]. split; [done|]. exists (t ++ s). by rewrite E, <- app_assoc. }
  rewrite Hown in E2 by done. injection E2 as ->.
  rewrite <- app_assoc in E. apply (f_equal len) in E. rewrite !len_app in E.
  pose proof (len_nonneg t). assert (len s = 0) by (pose proof (len_nonneg s); lia).
  by apply Hs, len_0_nil.
Qed.

Lemma yields_impl {A} (P Q : A -> Prop) m :
  (forall a, P a -> Q a) -> yields P m -> yields Q m.
Proof. destruct m as [|[]|]; cbn; auto. Qed.

(** ** Theorems *)

Definition header_example : RpcHeader :=
  {| magic := MAGIC; version := VERSION; msg_type := 1; serializer := 0; flags := 0;
     seq_id := 42; body_size := 12; checksum := 0 |}.
Definition request_example : RpcRequest :=
  {| service_name := bs "PingService"; method_name := bs "Ping"; timeout_ms := 5000;
     params := bs "stress_0" |}.
Definition response_example : RpcResponse :=
  {| error_code := -1; error_msg := bs "service not found: X"; result := [] |}.

(** Header codec.  Encoding a frame header performs no out-of-bounds store
    and yields exactly 20 bytes; decoding those bytes, whatever follows them in
    the stream, gives the header back. *)
Theorem header_roundtrip h :
  header_wf h ->
  exists b, serialize_header h = Ok b /\ len b = 20 /\
    forall tail, deserialize_header (b ++ tail) = Ok h.
Proof.
  intros H. exists (header_bytes h).
  rewrite header_serialize_bytes, len_header_bytes. auto using header_deserialize_bytes.
Qed.

Lemma header_roundtrip_witness :
  exists b, serialize_header header_example = Ok b /\ len b = 20 /\
    forall tail, deserialize_header (b ++ tail) = Ok header_example.
Proof. apply (header_roundtrip header_example). apply (bool_decide_unpack _). by vm_compute. Defined.

(** Header decoding is total.  Fewer than 20 bytes throw
    "protocol: header too short"; any 20 bytes or more decode, without an
    out-of-bounds load, to the header whose encoding is their first 20 bytes. *)
Theorem header_decode_total data :
  if bool_decide (len data < 20)
  then deserialize_header data = throw "protocol: header too short"
  else exists h, deserialize_header data = Ok h /\ header_wf h /\
         serialize_header h = Ok (take 20 data).
Proof.
  case_bool_decide.
  - unfold deserialize_header. by destruct (Z.ltb_spec (len data) 20); [|lia].
  - destruct (header_deserialize_split data) as (h & t & E & Hwf & ->); [lia|].
    exists h. split_and!; [done..|]. by rewrite header_serialize_bytes.
Qed.

(** C16: request codec round trip.  Encoding a request whose names fit the
    16-bit and whose parameters fit the 32-bit length prefix performs no
    out-of-bounds store, and the decoder returns the same request. *)
Theorem request_roundtrip r :
  request_wf r -> (data ← request_serialize r; request_deserialize data) = Ok r.
Proof.
  intros H. rewrite request_bytes_serialize by done. by apply request_decode_own.
Qed.

Lemma request_roundtrip_witness :
  (data ← request_serialize request_example; request_deserialize data) = Ok request_example.
Proof. apply (request_roundtrip request_example). apply (bool_decide_unpack _). by vm_compute. Defined.

(** C17: request decoder, full specification.  On any input the decoder performs
    no out-of-bounds load and throws nothing but [std::runtime_error]; it
    accepts precisely the encodings of well-formed requests, followed by
    arbitrary bytes it ignores. *)
Theorem request_decode_spec data :
  len data <= max_size ->
  yields (fun r => request_wf r /\ exists tail, data = request_bytes r ++ tail)
    (request_deserialize data) /\
  forall r tail, request_wf r -> data = request_bytes r ++ tail -> request_deserialize data = Ok r.
Proof.
  intros Hmax. split; [by apply request_deserialize_cases|].
  intros r tail Hr Hd. apply request_deserialize_iff; eauto.
Qed.

Lemma request_decode_spec_witness :
  request_deserialize (request_bytes request_example ++ bs "trailing") = Ok request_example.
Proof.
  refine (proj2 (request_decode_spec (request_bytes request_example ++ bs "trailing") _)
            request_example (bs "trailing") _ eq_refl).
  - apply (bool_decide_unpack _). by vm_compute.
  - apply (bool_decide_unpack _). by vm_compute.
Defined.

(** Truncation is detected.  Every proper prefix of the encoding of a
    well-formed request, and every proper prefix of the encoding of a
    well-formed response, is rejected with a [std::runtime_error]. *)
Theorem truncated_body_rejected :
  (forall r p s, request_wf r -> request_bytes r = p ++ s -> s <> [] ->
     exists msg, request_deserialize p = Throw (runtime_error msg)) /\
  (forall r p s, response_wf r -> response_bytes r = p ++ s -> s <> [] ->
     exists msg, response_deserialize p = Throw (runtime_error msg)).
Proof.
  split; intros r p s Hr E Hs.
  - eapply (prefix_rejected request_deserialize request_bytes request_wf r p s);
      eauto using request_decode_own, request_deserialize_iff, request_bytes_fit.
    intros d Hd. eapply yields_impl, request_deserialize_cases; done.
  - eapply (prefix_rejected response_deserialize response_bytes response_wf r p s);
      eauto using response_decode_own, response_deserialize_iff, response_bytes_fit.
    intros d Hd. eapply yields_impl, response_deserialize_cases; done.
Qed.

(** Response codec round trip, for every 32-bit signed error code. *)
Theorem response_roundtrip r :
  response_wf r -> (data ← response_serialize r; response_deserialize data) = Ok r.
Proof.
  intros H. rewrite response_bytes_serialize by done. by apply response_decode_own.
Qed.

Lemma response_roundtrip_witness :
  (data ← response_serialize response_example; response_deserialize data) = Ok response_example.
Proof. apply (response_roundtrip response_example). apply (bool_decide_unpack _). by vm_compute. Defined.

(** C18: response decoder, full specification (as for requests). *)
Theorem response_decode_spec data :
  len data <= max_size ->
  yields (fun r => response_wf r /\ exists tail, data = response_bytes r ++ tail)
    (response_deserialize data) /\
  forall r tail, response_wf r -> data = response_bytes r ++ tail -> response_deserialize data = Ok r.
Proof.
  intros Hmax. split; [by apply response_deserialize_cases|].
  intros r tail Hr Hd. apply response_deserialize_iff; eauto.
Qed.

Lemma response_decode_spec_witness :
  response_deserialize (response_bytes response_example ++ bs "..") = Ok response_example.
Proof.
  refine (proj2 (response_decode_spec (response_bytes response_example ++ bs "..") _)
            response_example (bs "..") _ eq_refl).
  - apply (bool_decide_unpack _). by vm_compute.
  - apply (bool_decide_unpack _). by vm_compute.
Defined.

(** C40: overlong fields are lost.  The length prefixes are silently reduced
    modulo 2^16 (names, error messages) and 2^32 (parameters, results): a
    request or response with a field beyond its prefix is still encoded, without
    any error, and never decodes to the original. *)
Theorem overlong_fields_lost :
  (forall r, 2 ^ 16 <= len (service_name r) \/ 2 ^ 16 <= len (method_name r) \/
        2 ^ 32 <= len (params r) ->
     len (request_bytes r) <= max_size ->
     exists b, request_serialize r = Ok b /\ request_deserialize b <> Ok r) /\
  (forall r, 2 ^ 16 <= len (error_msg r) \/ 2 ^ 32 <= len (result r) ->
     len (response_bytes r) <= max_size ->
     exists b, response_serialize r = Ok b /\ response_deserialize b <> Ok r).
Proof.
  split; intros r Hbig Hmax.
  - rewrite len_request_bytes in Hmax. rewrite request_serialize_bytes by lia.
    eexists; split; [done|]. rewrite request_deserialize_iff by side.
    intros ((?&?&?&?)&_). lia.
  - rewrite len_response_bytes in Hmax. rewrite response_serialize_bytes by lia.
    eexists; split; [done|]. rewrite response_deserialize_iff by side.
    intros ((?&?&?)&_). lia.
Qed.

Definition overlong_response : RpcResponse :=
  {| error_code := -1; error_msg := replicate (Z.to_nat (2 ^ 16)) (chr 65); result := [] |}.

Lemma overlong_fields_lost_witness :
  exists b, response_serialize overlong_response = Ok b /\
    response_deserialize b <> Ok overlong_response.
Proof.
  apply (proj2 overlong_fields_lost overlong_response).
  - left. apply (bool_decide_unpack _). by vm_compute.
  - apply (bool_decide_unpack _). by vm_compute.
Defined.

Lemma truncated_body_rejected_witness :
  exists msg, request_deserialize (take 20 (request_bytes request_example))
                = Throw (runtime_error msg).
Proof.
  apply (proj1 truncated_body_rejected request_example _
           (drop 20 (request_bytes request_example))).
  - apply (bool_decide_unpack _). by vm_compute.
  - by vm_compute.
  - by vm_compute.
Defined.
