(* ===== verification/Crc32.v ===== *)
(** * CRC-32: [crc32_checksum] of [src/protocol/rpc_protocol.cpp]

    The function keeps a static table and an [initialized] flag; both are
    explicit state here.  The table-driven loop is proved equal to the bitwise
    definition of the ISO-HDLC CRC (reflected polynomial 0xEDB88320), and the
    checksum is shown to detect every error burst of up to four bytes. *)
From S2P Require Import Prelude.

(** ** The code *)

Record crc_static := { crc_table : list Z; initialized : bool }.

(** The zero-initialised function statics before the first call. *)
Definition crc_static_init : crc_static :=
  {| crc_table := replicate 256 0; initialized := false |}.

Definition POLY : Z := 0xEDB88320.

(** Body of the inner loop: [crc = (crc >> 1) ^ ((crc & 1) ? POLY : 0)]. *)
Definition crc_bit (crc : Z) : Z :=
  Z.lxor (Z.shiftr crc 1) (if Z.land crc 1 =? 0 then 0 else POLY).

(** [table[i]]: eight rounds of the inner loop. *)
Definition crc_entry (i : Z) : Z := Nat.iter 8 crc_bit i.

Definition crc_build : list Z := map (fun i => crc_entry (Z.of_nat i)) (seq 0 256).

Definition crc_init (st : crc_static) : crc_static :=
  if initialized st then st
  else {| crc_table := crc_build; initialized := true |}.

(** One iteration of the main loop; an index past the table is undefined. *)
Definition crc_step (table : list Z) (crc : Z) (c : ascii) : outcome Z :=
  match table !! Z.to_nat (Z.land (Z.lxor crc (ord c)) 0xFF) with
  | Some t => Ok (Z.lxor t (Z.shiftr crc 8))
  | None => UB
  end.

Fixpoint crc_loop (table : list Z) (crc : Z) (data : str) : outcome Z :=
  match data with
  | [] => Ok crc
  | c :: r => crc ← crc_step table crc c; crc_loop table crc r
  end.

Definition crc32_checksum (st : crc_static) (data : str) : outcome (Z * crc_static) :=
  let st := crc_init st in
  crc ← crc_loop (crc_table st) 0xFFFFFFFF data;
  Ok (Z.lxor crc 0xFFFFFFFF, st).

(** ** Bitwise reference *)

(** Feeding one byte into the shift register bit by bit. *)
Definition crc_ref_byte (crc : Z) (c : ascii) : Z := Nat.iter 8 crc_bit (Z.lxor crc (ord c)).

Definition crc_ref (data : str) : Z :=
  Z.lxor (fold_left crc_ref_byte data 0xFFFFFFFF) 0xFFFFFFFF.

(** The statics are either untouched or hold the finished table. *)
Definition crc_static_ok (st : crc_static) : Prop :=
  initialized st = true -> crc_table st = crc_build.

Lemma fold_left_cons {A B} (f : A -> B -> A) x l a :
  fold_left f (x :: l) a = fold_left f l (f a x).
Proof. reflexivity. Qed.

Lemma crc_loop_cons table crc c r :
  crc_loop table crc (c :: r) = (crc ← crc_step table crc c; crc_loop table crc r).
Proof. reflexivity. Qed.

(** ** Linearity of the shift register *)

Lemma lxor_range n a b :
  0 <= n -> 0 <= a < 2 ^ n -> 0 <= b < 2 ^ n -> 0 <= Z.lxor a b < 2 ^ n.
Proof.
  intros Hn Ha Hb. split; [by apply Z.lxor_nonneg; lia|].
  rewrite <- (Z.mod_small a (2 ^ n)), <- (Z.mod_small b (2 ^ n)) by lia.
  rewrite <- !Z.land_ones by done.
  replace (Z.lxor (Z.land a (Z.ones n)) (Z.land b (Z.ones n)))
    with (Z.land (Z.lxor a b) (Z.ones n)).
  - rewrite Z.land_ones by done. apply Z.mod_pos_bound, Z.pow_pos_nonneg; lia.
  - apply Z.bits_inj'. intros i Hi.
    rewrite !Z.land_spec, !Z.lxor_spec, !Z.land_spec.
    destruct (Z.testbit a i), (Z.testbit b i), (Z.testbit (Z.ones n) i); done.
Qed.

Lemma land_1 z : (Z.land z 1 =? 0) = negb (Z.testbit z 0).
Proof.
  change 1 with (Z.ones 1). rewrite Z.land_ones by lia. change (2 ^ 1) with 2.
  rewrite <- Z.bit0_mod. by destruct (Z.testbit z 0).
Qed.

Lemma crc_bit_alt z :
  crc_bit z = Z.lxor (Z.shiftr z 1) (if Z.testbit z 0 then POLY else 0).
Proof. unfold crc_bit. rewrite land_1. by destruct (Z.testbit z 0). Qed.

Lemma crc_bit_lxor a b : crc_bit (Z.lxor a b) = Z.lxor (crc_bit a) (crc_bit b).
Proof.
  rewrite !crc_bit_alt, Z.lxor_spec, Z.shiftr_lxor.
  set (x := Z.shiftr a 1). set (y := Z.shiftr b 1).
  apply Z.bits_inj'. intros i Hi. rewrite !Z.lxor_spec.
  destruct (Z.testbit a 0), (Z.testbit b 0); cbn;
    rewrite ?Z.bits_0; destruct (Z.testbit x i), (Z.testbit y i), (Z.testbit POLY i); done.
Qed.

Lemma crc_iter_lxor n a b :
  Nat.iter n crc_bit (Z.lxor a b) = Z.lxor (Nat.iter n crc_bit a) (Nat.iter n crc_bit b).
Proof. induction n as [|n IH]; [done|]. by rewrite !Nat.iter_succ, IH, crc_bit_lxor. Qed.

Lemma crc_bit_shiftl z n : 0 <= n -> crc_bit (Z.shiftl z (n + 1)) = Z.shiftl z n.
Proof.
  intros Hn. rewrite crc_bit_alt, Z.shiftl_spec_low, Z.lxor_0_r by lia.
  rewrite Z.shiftr_shiftl_l by lia. f_equal. lia.
Qed.

Lemma crc_iter_shiftl z n k :
  0 <= k -> Nat.iter n crc_bit (Z.shiftl z (Z.of_nat n + k)) = Z.shiftl z k.
Proof.
  revert k. induction n as [|n IH]; intros k Hk; [done|].
  rewrite Nat.iter_succ. replace (Z.of_nat (S n) + k) with (Z.of_nat n + (k + 1)) by lia.
  rewrite IH by lia. by apply crc_bit_shiftl.
Qed.

Lemma crc_iter_shiftl_0 z n : Nat.iter n crc_bit (Z.shiftl z (Z.of_nat n)) = z.
Proof.
  pose proof (crc_iter_shiftl z n 0) as H. rewrite Z.add_0_r, Z.shiftl_0_r in H. by apply H.
Qed.

Lemma crc_iter8 z : Nat.iter 8 crc_bit (Z.shiftl z 8) = z.
Proof. exact (crc_iter_shiftl_0 z 8). Qed.

(** ** The table-driven step is the bitwise step *)

Lemma crc_build_lookup i : 0 <= i < 256 -> crc_build !! Z.to_nat i = Some (crc_entry i).
Proof.
  intros Hi. unfold crc_build. rewrite list_lookup_fmap, lookup_seq_lt by lia.
  change (Some (crc_entry (Z.of_nat (0 + Z.to_nat i))) = Some (crc_entry i)).
  do 2 f_equal. lia.
Qed.

Lemma low_byte_range z : 0 <= Z.land z 255 < 256.
Proof. change 255 with (Z.ones 8). rewrite Z.land_ones by lia. by apply Z.mod_pos_bound. Qed.

Lemma split_low_byte z : z = Z.lxor (Z.land z 255) (Z.shiftl (Z.shiftr z 8) 8).
Proof.
  apply Z.bits_inj'. intros i Hi. change 255 with (Z.ones 8).
  rewrite Z.lxor_spec, Z.land_spec, Z.shiftl_spec by done.
  destruct (Z.lt_ge_cases i 8).
  - rewrite Z.ones_spec_low by lia. rewrite (Z.testbit_neg_r _ (i - 8)) by lia.
    by destruct (Z.testbit z i).
  - rewrite Z.ones_spec_high by lia. rewrite Z.shiftr_spec by lia.
    replace (i - 8 + 8) with i by lia. by destruct (Z.testbit z i).
Qed.

Lemma shiftr_ord c : Z.shiftr (ord c) 8 = 0.
Proof.
  pose proof (ord_range c). rewrite Z.shiftr_div_pow2 by lia.
  apply Z.div_small. change (2 ^ 8) with 256. lia.
Qed.

Lemma crc_step_ref crc c : crc_step crc_build crc c = Ok (crc_ref_byte crc c).
Proof.
  unfold crc_step, crc_ref_byte. rewrite crc_build_lookup by apply low_byte_range.
  f_equal. rewrite (split_low_byte (Z.lxor crc (ord c))) at 2.
  rewrite crc_iter_lxor, (crc_iter_shiftl_0 _ 8), Z.shiftr_lxor, shiftr_ord, Z.lxor_0_r. done.
Qed.

Lemma crc_loop_ref data crc :
  crc_loop crc_build crc data = Ok (fold_left crc_ref_byte data crc).
Proof.
  revert crc. induction data as [|c data IH]; intros crc; [done|].
  rewrite crc_loop_cons, fold_left_cons. rewrite (bind_ok _ _ _ (crc_step_ref crc c)). apply IH.
Qed.

Lemma crc_init_table st : crc_static_ok st -> crc_table (crc_init st) = crc_build.
Proof. unfold crc_static_ok, crc_init. destruct (initialized st) eqn:E; auto. Qed.

Lemma crc_init_ok st : crc_static_ok (crc_init st) \/ initialized st = true.
Proof. unfold crc_static_ok, crc_init. destruct (initialized st); auto. Qed.

(** ** The shift register loses nothing *)

Lemma POLY_range : 0 <= POLY < 2 ^ 32.
Proof. unfold POLY. lia. Qed.

Lemma crc_bit_range z : 0 <= z < 2 ^ 32 -> 0 <= crc_bit z < 2 ^ 32.
Proof.
  intros Hz. rewrite crc_bit_alt. apply lxor_range; [lia|..].
  - rewrite Z.shiftr_div_pow2 by lia. change (2 ^ 1) with 2. split; [apply Z.div_pos; lia|].
    apply Z.div_lt_upper_bound; lia.
  - pose proof POLY_range. destruct (Z.testbit z 0); lia.
Qed.

Lemma crc_iter_range n z : 0 <= z < 2 ^ 32 -> 0 <= Nat.iter n crc_bit z < 2 ^ 32.
Proof. intros Hz. induction n as [|n IH]; [done|]. rewrite Nat.iter_succ. by apply crc_bit_range. Qed.

(** The top bit of the polynomial records the bit shifted out. *)
Lemma crc_bit_top z : 0 <= z < 2 ^ 32 -> Z.testbit (crc_bit z) 31 = Z.testbit z 0.
Proof.
  intros Hz. rewrite crc_bit_alt, Z.lxor_spec, Z.shiftr_spec by lia.
  rewrite <- (Z.mod_small z (2 ^ 32)) at 1 by done.
  rewrite Z.mod_pow2_bits_high by lia. by destruct (Z.testbit z 0).
Qed.

Lemma crc_bit_zero z : 0 <= z < 2 ^ 32 -> crc_bit z = 0 -> z = 0.
Proof.
  intros Hz E. pose proof (crc_bit_top z Hz) as Ht. rewrite E, Z.bits_0 in Ht.
  rewrite crc_bit_alt, <- Ht, Z.lxor_0_r in E.
  apply Z.bits_inj'. intros i Hi. rewrite Z.bits_0.
  destruct (Z.eq_dec i 0) as [->|]; [done|].
  assert (Z.testbit (Z.shiftr z 1) (i - 1) = false) as Hb by (rewrite E; apply Z.bits_0).
  rewrite Z.shiftr_spec in Hb by lia. by replace (i - 1 + 1) with i in Hb by lia.
Qed.

Lemma crc_iter_zero n z : 0 <= z < 2 ^ 32 -> Nat.iter n crc_bit z = 0 -> z = 0.
Proof.
  intros Hz. induction n as [|n IH]; [done|]. rewrite Nat.iter_succ. intros E.
  apply IH, crc_bit_zero; [by apply crc_iter_range|done].
Qed.

Lemma crc_iter_inj n a b :
  0 <= a < 2 ^ 32 -> 0 <= b < 2 ^ 32 ->
  Nat.iter n crc_bit a = Nat.iter n crc_bit b -> a = b.
Proof.
  intros Ha Hb E. apply Z.lxor_eq. eapply (crc_iter_zero n); [by apply lxor_range|].
  by rewrite crc_iter_lxor, E, Z.lxor_nilpotent.
Qed.

Lemma ord_range32 c : 0 <= ord c < 2 ^ 32.
Proof. pose proof (ord_range c). lia. Qed.

Lemma crc_ref_byte_range crc c : 0 <= crc < 2 ^ 32 -> 0 <= crc_ref_byte crc c < 2 ^ 32.
Proof. intros. by apply crc_iter_range, lxor_range, ord_range32. Qed.

Lemma crc_fold_range data crc :
  0 <= crc < 2 ^ 32 -> 0 <= fold_left crc_ref_byte data crc < 2 ^ 32.
Proof.
  revert crc. induction data as [|c data IH]; intros crc H; [done|].
  rewrite fold_left_cons. apply IH. by apply crc_ref_byte_range.
Qed.

Lemma crc_ref_byte_eq crc c : crc_ref_byte crc c = Nat.iter 8 crc_bit (Z.lxor crc (ord c)).
Proof. unfold crc_ref_byte. reflexivity. Qed.

Lemma crc_ref_byte_inj a b c :
  0 <= a < 2 ^ 32 -> 0 <= b < 2 ^ 32 -> crc_ref_byte a c = crc_ref_byte b c -> a = b.
Proof.
  intros Ha Hb. rewrite !crc_ref_byte_eq. intros E.
  apply crc_iter_inj in E; [|by apply lxor_range, ord_range32..].
  rewrite <- (Z.lxor_0_r a), <- (Z.lxor_0_r b), <- (Z.lxor_nilpotent (ord c)).
  by rewrite <- !Z.lxor_assoc, E.
Qed.

(** Processing fixed bytes is injective in the register. *)
Lemma crc_fold_inj data a b :
  0 <= a < 2 ^ 32 -> 0 <= b < 2 ^ 32 ->
  fold_left crc_ref_byte data a = fold_left crc_ref_byte data b -> a = b.
Proof.
  revert a b. induction data as [|c data IH]; intros a b Ha Hb E; [done|].
  rewrite !fold_left_cons in E. apply IH in E; [|by apply crc_ref_byte_range..].
  by eapply crc_ref_byte_inj.
Qed.

(** ** Short blocks: the register absorbs them as one little-endian word *)

Fixpoint le_val (l : str) : Z :=
  match l with
  | [] => 0
  | c :: r => Z.lxor (ord c) (Z.shiftl (le_val r) 8)
  end.

Lemma crc_ref_byte_absorb crc c v :
  Z.lxor (crc_ref_byte crc c) v =
  Nat.iter 8 crc_bit (Z.lxor crc (Z.lxor (ord c) (Z.shiftl v 8))).
Proof.
  rewrite <- Z.lxor_assoc, (crc_iter_lxor 8 (Z.lxor crc (ord c))), crc_iter8. reflexivity.
Qed.

Lemma crc_fold_block data crc :
  fold_left crc_ref_byte data crc = Nat.iter (8 * length data) crc_bit (Z.lxor crc (le_val data)).
Proof.
  revert crc. induction data as [|c data IH]; intros crc.
  - cbn. by rewrite Z.lxor_0_r.
  - rewrite fold_left_cons, IH, crc_ref_byte_absorb, <- Nat.iter_add.
    cbn [le_val]. set (x := Z.lxor _ _). clearbody x.
    replace (8 * length (c :: data))%nat with (8 * length data + 8)%nat by (cbn [length]; lia).
    reflexivity.
Qed.

Lemma le_val_range l : 0 <= le_val l < 2 ^ (8 * len l).
Proof.
  induction l as [|c l IH]; [by vm_compute|]. cbn [le_val]. rewrite len_cons.
  pose proof (len_nonneg l). pose proof (ord_range c).
  assert (256 <= 2 ^ (8 * (1 + len l))) by (change 256 with (2 ^ 8); apply Z.pow_le_mono_r; lia).
  apply lxor_range; [lia|lia|]. rewrite Z.shiftl_mul_pow2 by lia.
  replace (8 * (1 + len l)) with (8 * len l + 8) by lia. rewrite Z.pow_add_r by lia. lia.
Qed.

Lemma le_val_inj l l' : length l = length l' -> le_val l = le_val l' -> l = l'.
Proof.
  revert l'. induction l as [|c l IH]; intros [|d l'] Hl E; try done.
  cbn [le_val] in E. injection Hl as Hl.
  assert (forall e r, Z.land (Z.lxor (ord e) (Z.shiftl r 8)) 255 = ord e /\
                      Z.shiftr (Z.lxor (ord e) (Z.shiftl r 8)) 8 = r) as Hsplit.
  { intros e r. split.
    - change 255 with (Z.ones 8). apply Z.bits_inj'. intros i Hi.
      rewrite Z.land_spec, Z.lxor_spec, Z.shiftl_spec by done. pose proof (ord_range e).
      destruct (Z.lt_ge_cases i 8).
      + rewrite Z.ones_spec_low, (Z.testbit_neg_r _ (i - 8)) by lia.
        by destruct (Z.testbit (ord e) i).
      + rewrite Z.ones_spec_high, andb_false_r by lia.
        rewrite <- (Z.mod_small (ord e) (2 ^ 8)) by lia. by rewrite Z.mod_pow2_bits_high by lia.
    - rewrite Z.shiftr_lxor, shiftr_ord, Z.lxor_0_l, Z.shiftr_shiftl_l by lia.
      by rewrite Z.shiftl_0_r. }
  destruct (Hsplit c (le_val l)) as [Hc Hr], (Hsplit d (le_val l')) as [Hd Hr'].
  rewrite E in Hc, Hr. f_equal; [apply ord_inj; congruence|apply IH; congruence].
Qed.

Lemma all_ones_range : 0 <= 0xFFFFFFFF < 2 ^ 32.
Proof. lia. Qed.

Lemma crc_block_inj crc x y :
  0 <= crc < 2 ^ 32 -> length x = length y -> len x <= 4 ->
  fold_left crc_ref_byte x crc = fold_left crc_ref_byte y crc -> x = y.
Proof.
  intros Hc Hl H4 E. rewrite !crc_fold_block, Hl in E.
  assert (forall l, len l <= 4 -> 0 <= le_val l < 2 ^ 32) as Hr.
  { intros l Hl4. pose proof (le_val_range l).
    pose proof (Z.pow_le_mono_r 2 (8 * len l) 32). lia. }
  assert (len y <= 4) by (unfold len in *; lia).
  apply crc_iter_inj in E; [|by apply lxor_range; auto..].
  apply (f_equal (Z.lxor crc)) in E.
  rewrite <- !Z.lxor_assoc, Z.lxor_nilpotent, !Z.lxor_0_l in E. by apply le_val_inj.
Qed.

(** ** Theorems *)

(** C39: the table-driven checksum is the bitwise CRC-32.  On the first call and
    on every later one, the table lookup stays in range and the result equals
    the ISO-HDLC CRC computed one bit at a time; the statics it leaves behind
    are again good for the next call. *)
Theorem crc32_is_bitwise st data :
  crc_static_ok st ->
  exists st', crc32_checksum st data = Ok (crc_ref data, st') /\ crc_static_ok st'.
Proof.
  intros Hst. exists (crc_init st). unfold crc32_checksum.
  rewrite (crc_init_table st Hst), crc_loop_ref. split; [done|].
  intros _. by apply crc_init_table.
Qed.

Lemma crc32_is_bitwise_witness :
  exists st', crc32_checksum crc_static_init (bs "123456789") = Ok (0xCBF43926, st') /\
    crc_static_ok st'.
Proof.
  assert (crc_ref (bs "123456789") = 0xCBF43926) as E by by vm_compute.
  rewrite <- E. apply (crc32_is_bitwise crc_static_init (bs "123456789")).
  intros [=].
Defined.

(** Burst detection.  Two messages that agree outside a window of at most
    four consecutive bytes, and differ inside it, have different checksums. *)
Theorem crc32_detects_bursts st st' p x y q vx vy sx sy :
  crc_static_ok st -> crc_static_ok st' ->
  length x = length y -> len x <= 4 -> x <> y ->
  crc32_checksum st (p ++ x ++ q) = Ok (vx, sx) ->
  crc32_checksum st' (p ++ y ++ q) = Ok (vy, sy) -> vx <> vy.
Proof.
  intros Hst Hst' Hl H4 Hne Ex Ey Hv. unfold crc32_checksum in Ex, Ey.
  rewrite crc_init_table, crc_loop_ref in Ex, Ey by done.
  cbn in Ex, Ey. injection Ex as <- _. injection Ey as <- _. apply Hne.
  apply (f_equal (fun z => Z.lxor z 0xFFFFFFFF)) in Hv.
  rewrite !Z.lxor_assoc, Z.lxor_nilpotent, !Z.lxor_0_r, !fold_left_app in Hv.
  pose proof (crc_fold_range p _ all_ones_range).
  apply crc_fold_inj in Hv; [|by apply crc_fold_range..].
  by eapply crc_block_inj.
Qed.

Lemma crc32_detects_bursts_witness :
  0xCBF43926 <> 0x9EE1EC18.
Proof.
  refine (crc32_detects_bursts crc_static_init crc_static_init
            (bs "1234") (bs "56") (bs "65") (bs "789") 0xCBF43926 0x9EE1EC18
            (crc_init crc_static_init) (crc_init crc_static_init) _ _ eq_refl _ _ _ _).
  - intros [=].
  - intros [=].
  - by vm_compute.
  - intros [=].
  - vm_compute. reflexivity.
  - vm_compute. reflexivity.
Defined.
