(* ===== verification/ErrorCode.v ===== *)
(** * Error codes: [src/core/error_code.h] *)
From S2P Require Import Prelude.

Inductive ErrorCode :=
  | OK
  | SERVICE_NOT_FOUND
  | METHOD_NOT_FOUND
  | TIMEOUT
  | SERIALIZE_ERROR
  | DESERIALIZE_ERROR
  | COMPRESS_ERROR
  | DECOMPRESS_ERROR
  | ENCRYPT_ERROR
  | DECRYPT_ERROR
  | CONNECTION_CLOSED
  | CONNECTION_REFUSED
  | INTERNAL_ERROR.

#[export] Instance ErrorCode_eq_dec : EqDecision ErrorCode.
Proof. solve_decision. Defined.

(** [static_cast<int32_t>(ec)] *)
Definition ErrorCode_value (ec : ErrorCode) : Z :=
  match ec with
  | OK => 0
  | SERVICE_NOT_FOUND => -1
  | METHOD_NOT_FOUND => -2
  | TIMEOUT => -3
  | SERIALIZE_ERROR => -4
  | DESERIALIZE_ERROR => -5
  | COMPRESS_ERROR => -6
  | DECOMPRESS_ERROR => -7
  | ENCRYPT_ERROR => -8
  | DECRYPT_ERROR => -9
  | CONNECTION_CLOSED => -10
  | CONNECTION_REFUSED => -11
  | INTERNAL_ERROR => -99
  end.

(** [error_code_str] switches on the underlying [int32_t]: an [ErrorCode]
    obtained by a cast may hold any value. *)
Definition error_code_str (ec : Z) : str :=
  if ec =? 0 then bs "OK"
  else if ec =? -1 then bs "service not found"
  else if ec =? -2 then bs "method not found"
  else if ec =? -3 then bs "timeout"
  else if ec =? -4 then bs "serialize error"
  else if ec =? -5 then bs "deserialize error"
  else if ec =? -6 then bs "compress error"
  else if ec =? -7 then bs "decompress error"
  else if ec =? -8 then bs "encrypt error"
  else if ec =? -9 then bs "decrypt error"
  else if ec =? -10 then bs "connection closed"
  else if ec =? -11 then bs "connection refused"
  else if ec =? -99 then bs "internal error"
  else bs "unknown error".

(** ** Lemmas *)

Lemma ErrorCode_value_inj a b : ErrorCode_value a = ErrorCode_value b -> a = b.
Proof. by destruct a, b. Qed.

Lemma ErrorCode_value_range ec : - 2 ^ 31 <= ErrorCode_value ec < 2 ^ 31.
Proof. destruct ec; cbn; lia. Qed.

#[export] Hint Resolve ErrorCode_value_range : rpc.

(** Error codes.  Every framework code is 0 or lies in the reserved range
    -99..-1, the numeric codes are pairwise distinct, and so are their
    descriptions; a code outside the enumeration, in particular every positive
    application code, is described as "unknown error", which no framework code
    is. *)
Theorem error_codes_distinguished :
  (forall ec, ErrorCode_value ec = 0 \/ -99 <= ErrorCode_value ec <= -1) /\
  (forall a b, ErrorCode_value a = ErrorCode_value b \/
     error_code_str (ErrorCode_value a) = error_code_str (ErrorCode_value b) -> a = b) /\
  (forall z, (exists ec, z = ErrorCode_value ec) <-> error_code_str z <> bs "unknown error").
Proof.
  split_and!.
  - intros []; cbn; lia.
  - intros a b [E|E]; [by apply ErrorCode_value_inj|].
    destruct a, b; try done; by vm_compute in E.
  - intros z. split.
    + intros [[] ->]; by vm_compute.
    + intros Hz. unfold error_code_str in Hz.
      repeat match type of Hz with
      | context [z =? ?k] => destruct (Z.eqb_spec z k);
          [subst z; clear Hz;
           first [by exists OK | by exists SERVICE_NOT_FOUND | by exists METHOD_NOT_FOUND
                 | by exists TIMEOUT | by exists SERIALIZE_ERROR | by exists DESERIALIZE_ERROR
                 | by exists COMPRESS_ERROR | by exists DECOMPRESS_ERROR | by exists ENCRYPT_ERROR
                 | by exists DECRYPT_ERROR | by exists CONNECTION_CLOSED
                 | by exists CONNECTION_REFUSED | by exists INTERNAL_ERROR]|]
      end. done.
Qed.

Lemma error_codes_distinguished_witness : exists ec, -99 = ErrorCode_value ec.
Proof. apply (proj2 (proj2 error_codes_distinguished) (-99)). by vm_compute. Defined.
