(* ===== verification/ServiceManager.v ===== *)
(** * Service registry of one process: [src/service/service_manager.h/.cpp]

    A [Service] is a record of its three virtual functions; the manager's
    state is the map [services_].  Every operation is one critical section of
    [mutex_], so a run of the manager is a sequence of operations. *)
From S2P Require Import Prelude.

(** ** Services *)

Record Service := {
  svc_name : str;
  svc_methods : list str;
  svc_handle : str -> str -> outcome str   (* method, params *)
}.

(** ** The manager *)

Record ServiceManager := { services_ : gmap str Service }.

Definition ServiceManager_init : ServiceManager := {| services_ := ∅ |}.

(** [register_service]: a null pointer is ignored, a known name is replaced. *)
Definition register_service (service : option Service) (m : ServiceManager) : ServiceManager :=
  match service with
  | None => m
  | Some s => {| services_ := <[svc_name s := s]> (services_ m) |}
  end.

Definition unregister_service (name : str) (m : ServiceManager) : ServiceManager :=
  {| services_ := delete name (services_ m) |}.

Definition get_service (name : str) (m : ServiceManager) : option Service :=
  match services_ m !! name with
  | None => None
  | Some s => Some s
  end.

Definition has_service (name : str) (m : ServiceManager) : bool :=
  match services_ m !! name with None => false | Some _ => true end.

(** [std::string::operator<=]: lexicographic on unsigned characters. *)
Fixpoint str_leb (a b : str) : bool :=
  match a, b with
  | [], _ => true
  | _ :: _, [] => false
  | x :: a', y :: b' => (ord x <? ord y) || ((ord x =? ord y) && str_leb a' b')
  end.
Definition str_le (a b : str) : Prop := str_leb a b = true.
#[export] Instance str_le_dec : RelDecision str_le.
Proof. intros a b. unfold str_le. apply _. Defined.

Definition list_services (m : ServiceManager) : list str :=
  merge_sort str_le (map fst (map_to_list (services_ m))).

Definition dispatch (service_name method_name params : str) (m : ServiceManager) : outcome str :=
  match get_service service_name m with
  | None => Throw (runtime_error (bs "service not found: " ++ service_name))
  | Some svc =>
      if bool_decide (method_name ∈ svc_methods svc)
      then svc_handle svc method_name params
      else Throw (runtime_error
             (bs "method not found: " ++ service_name ++ bs "." ++ method_name))
  end.

(** ** Histories

    A run of the manager, and what it promises: the binding of a name is
    decided by the last operation that touched the name. *)

Inductive sm_op :=
  | Register (service : option Service)
  | Unregister (name : str).

Definition sm_step (m : ServiceManager) (op : sm_op) : ServiceManager :=
  match op with
  | Register s => register_service s m
  | Unregister n => unregister_service n m
  end.

Definition sm_run (ops : list sm_op) : ServiceManager := fold_left sm_step ops ServiceManager_init.

(** The effect of an operation on one name: [Some b] sets its binding to [b]. *)
Definition touches (name : str) (op : sm_op) : option (option Service) :=
  match op with
  | Register (Some s) => if bool_decide (svc_name s = name) then Some (Some s) else None
  | Register None => None
  | Unregister n => if bool_decide (n = name) then Some None else None
  end.

(** The latest binding in a history, most recent operation last. *)
Definition binding (name : str) (ops : list sm_op) : option Service :=
  fold_left (fun b op => match touches name op with Some b' => b' | None => b end) ops None.

(** ** Lemmas *)

#[export] Instance str_le_total : Total str_le.
Proof.
  intros a. unfold str_le. induction a as [|x a IH]; intros [|y b]; cbn; auto.
  destruct (Z.ltb_spec (ord x) (ord y)), (Z.ltb_spec (ord y) (ord x)),
    (Z.eqb_spec (ord x) (ord y)), (Z.eqb_spec (ord y) (ord x)); cbn; auto; lia.
Qed.

#[export] Instance str_le_trans : Transitive str_le.
Proof.
  intros a. unfold str_le. induction a as [|x a IH]; intros [|y b] [|z c]; cbn; try done.
  rewrite !orb_true_iff, !andb_true_iff, !Z.ltb_lt, !Z.eqb_eq.
  intros [?|[? ?]] [?|[? ?]]; try (left; lia). right. split; [lia|eauto].
Qed.

#[export] Instance str_le_antisym : AntiSymm (=) str_le.
Proof.
  intros a. unfold str_le. induction a as [|x a IH]; intros [|y b]; cbn; try done.
  rewrite !orb_true_iff, !andb_true_iff, !Z.ltb_lt, !Z.eqb_eq.
  intros [?|[? ?]] [?|[? ?]]; try lia. f_equal; [by apply ord_inj|auto].
Qed.

Lemma sm_step_lookup m op name :
  services_ (sm_step m op) !! name =
  match touches name op with Some b => b | None => services_ m !! name end.
Proof.
  destruct op as [[s|]|n]; cbn; [|done|].
  - rewrite lookup_insert. repeat case_decide; try done; by case_bool_decide.
  - rewrite lookup_delete. repeat case_decide; try done; by case_bool_decide.
Qed.

Lemma sm_run_lookup ops name : services_ (sm_run ops) !! name = binding name ops.
Proof.
  unfold sm_run, binding.
  assert (forall m b, services_ m !! name = b ->
    services_ (fold_left sm_step ops m) !! name =
    fold_left (fun b op => match touches name op with Some b' => b' | None => b end) ops b) as H.
  { induction ops as [|op ops IH]; intros m b E; [done|]. cbn. apply IH.
    rewrite sm_step_lookup. by rewrite E. }
  apply H. apply lookup_empty.
Qed.

Lemma get_service_lookup name m : get_service name m = services_ m !! name.
Proof. unfold get_service. by destruct (services_ m !! name). Qed.

Lemma is_Some_bool {A} (o : option A) :
  is_Some o <-> (match o with None => false | Some _ => true end) = true.
Proof. destruct o; split; done. Qed.

Lemma list_services_elem name m : name ∈ list_services m <-> is_Some (services_ m !! name).
Proof.
  unfold list_services. rewrite merge_sort_Permutation, list_elem_of_fmap. split.
  - intros ([n s] & -> & Hin). apply elem_of_map_to_list in Hin. eauto.
  - intros [s Hs]. exists (name, s). split; [done|]. by apply elem_of_map_to_list.
Qed.

Lemma list_services_NoDup m : NoDup (list_services m).
Proof. unfold list_services. rewrite merge_sort_Permutation. apply NoDup_fst_map_to_list. Qed.

Lemma list_services_sorted m : StronglySorted str_le (list_services m).
Proof. apply StronglySorted_merge_sort; apply _. Qed.

(** ** Theorems *)

(** C25: the manager implements its history.  After any sequence of
    registrations (null pointers included) and removals, lookup, the existence
    test, the listing and dispatch all answer from the latest binding of the
    name: a later registration of the same name replaces the earlier one, and a
    removal undoes it. *)
Theorem service_manager_refines_history ops name :
  get_service name (sm_run ops) = binding name ops /\
  (has_service name (sm_run ops) = true <-> is_Some (binding name ops)) /\
  (name ∈ list_services (sm_run ops) <-> is_Some (binding name ops)) /\
  (forall method params,
     dispatch name method params (sm_run ops) =
     match binding name ops with
     | None => Throw (runtime_error (bs "service not found: " ++ name))
     | Some s =>
         if bool_decide (method ∈ svc_methods s) then svc_handle s method params
         else Throw (runtime_error (bs "method not found: " ++ name ++ bs "." ++ method))
     end).
Proof.
  rewrite list_services_elem, get_service_lookup, sm_run_lookup. split_and!; [done| |done|].
  - unfold has_service. rewrite sm_run_lookup. symmetry. apply is_Some_bool.
  - intros. unfold dispatch. by rewrite get_service_lookup, sm_run_lookup.
Qed.

(** The service listing is sorted, without duplicates, and lists exactly
    the registered names. *)
Theorem list_services_spec m :
  StronglySorted str_le (list_services m) /\ NoDup (list_services m) /\
  forall name, name ∈ list_services m <-> has_service name m = true.
Proof.
  split_and!; [apply list_services_sorted|apply list_services_NoDup|].
  intros name. rewrite list_services_elem. unfold has_service.
  apply is_Some_bool.
Qed.
