(* ===== verification/Framing.v ===== *)
(** * The framing of the byte stream

    Client and server read a TCP stream the same way: 20 bytes of header, then
    [body_size] bytes of body, for ever, and they stop at the first header whose
    magic is wrong.  This file says what such a reader must see in a stream,
    independently of either implementation. *)
From S2P Require Import Prelude Protocol.

#[global] Arguments header_bytes : simpl never.

Abbreviation frame := (RpcHeader * str)%type.

Definition frame_bytes (m : frame) : str := header_bytes m.1 ++ m.2.

Definition stream (ms : list frame) : str := concat (frame_bytes <$> ms).
#[global] Arguments stream : simpl never.

(** A frame the readers accept. *)
Definition frame_wf (m : frame) : Prop :=
  header_wf m.1 /\ magic m.1 = MAGIC /\ body_size m.1 = len m.2.

#[export] Instance frame_wf_dec m : Decision (frame_wf m).
Proof. unfold frame_wf. apply _. Defined.

(** What can follow the last complete frame of a stream. *)
Inductive tail_kind :=
  | PartHeader                   (* fewer than 20 bytes *)
  | PartBody (h : RpcHeader)     (* a good header, too few bytes of body *)
  | BadHeader (h : RpcHeader).   (* a header with the wrong magic *)

(** [tail_of k rest r]: [rest] is of kind [k] and [r] is what a reader leaves
    unread of it. *)
Definition tail_of (k : tail_kind) (rest r : str) : Prop :=
  match k with
  | PartHeader => rest = r /\ len r < 20
  | PartBody h =>
      rest = header_bytes h ++ r /\ header_wf h /\ magic h = MAGIC /\ len r < body_size h
  | BadHeader h => rest = header_bytes h ++ r /\ header_wf h /\ magic h <> MAGIC
  end.

Lemma len_frame_bytes m : len (frame_bytes m) = 20 + len m.2.
Proof. unfold frame_bytes. by rewrite len_app, len_header_bytes. Qed.

Lemma stream_cons m ms rest :
  stream (m :: ms) ++ rest = header_bytes m.1 ++ m.2 ++ stream ms ++ rest.
Proof. unfold stream, frame_bytes. cbn. by rewrite <- !app_assoc. Qed.

Lemma stream_app a b : stream (a ++ b) = stream a ++ stream b.
Proof. unfold stream. by rewrite fmap_app, concat_app. Qed.

(** Every stream is frames followed by a tail. *)
Lemma stream_decompose i :
  exists ms rest k r, i = stream ms ++ rest /\ Forall frame_wf ms /\ tail_of k rest r.
Proof.
  remember (length i) as n eqn:En. revert i En.
  induction n as [n IH] using lt_wf_ind. intros i ->.
  destruct (Z.lt_ge_cases (len i) 20) as [Hl|Hl].
  { exists [], i, PartHeader, i. by split_and!. }
  destruct (header_deserialize_split i Hl) as (h & t & _ & Hw & Ei).
  destruct (decide (magic h = MAGIC)) as [Hm|Hm].
  2:{ exists [], i, (BadHeader h), t. by split_and!. }
  destruct (Z.lt_ge_cases (len t) (body_size h)) as [Hb|Hb].
  { exists [], i, (PartBody h), t. by split_and!. }
  assert (0 <= body_size h) by apply Hw.
  destruct (split_at t (body_size h)) as (body & t' & -> & Hbody); [lia|].
  destruct (IH (length t')) with (i := t') as (ms & rest & k & r & -> & Hms & Hk); [|done|].
  { rewrite Ei, !length_app. pose proof (len_header_bytes h). unfold len in *. lia. }
  exists ((h, body) :: ms), rest, k, r. split_and!; [|by constructor|done].
  by rewrite stream_cons.
Qed.

Lemma header_bytes_inj h h' r r' :
  header_wf h -> header_wf h' -> header_bytes h ++ r = header_bytes h' ++ r' -> h = h' /\ r = r'.
Proof.
  intros Hw Hw' E. pose proof (header_deserialize_bytes h r Hw) as E1.
  rewrite E, (header_deserialize_bytes h' r' Hw') in E1. injection E1 as ->.
  split; [done|]. by apply app_inv_head in E.
Qed.

(** ... in exactly one way. *)
Lemma stream_unique ms ms' rest rest' k k' r r' :
  Forall frame_wf ms -> Forall frame_wf ms' -> tail_of k rest r -> tail_of k' rest' r' ->
  stream ms ++ rest = stream ms' ++ rest' -> ms = ms' /\ k = k' /\ r = r'.
Proof.
  assert (forall h body t k rest r, frame_wf (h, body) -> tail_of k rest r ->
    header_bytes h ++ body ++ t = rest -> False) as Hft.
  { clear. intros h body t k rest r (Hw & Hm & Hs) Hk E. cbn in *.
    destruct k as [|h'|h']; cbn in Hk.
    - destruct Hk as [-> Hl]. rewrite <- E, !len_app, len_header_bytes in Hl.
      pose proof (len_nonneg body). pose proof (len_nonneg t). lia.
    - destruct Hk as (-> & Hw' & _ & Hl). apply header_bytes_inj in E as [-> <-]; [|done..].
      rewrite len_app in Hl. pose proof (len_nonneg t). lia.
    - destruct Hk as (-> & Hw' & Hm'). apply header_bytes_inj in E as [-> _]; done. }
  intros Hms. revert ms'. induction Hms as [|[h b] ms Hm Hms IH]; intros ms' Hms' Hk Hk' E.
  - destruct Hms' as [|[h' b'] ms' Hm' Hms'].
    + unfold stream in E. cbn in E. subst rest'.
      destruct k as [|h|h], k' as [|h'|h']; cbn in Hk, Hk'; destruct_and?; subst;
        try (match goal with H : header_bytes _ ++ _ = header_bytes _ ++ _ |- _ =>
               apply header_bytes_inj in H as [-> ->] end; done); try done;
        match goal with H : len (header_bytes _ ++ ?r) < 20 |- _ =>
          rewrite len_app, len_header_bytes in H; pose proof (len_nonneg r); lia end.
    + rewrite stream_cons in E. exfalso. exact (Hft h' b' _ _ _ _ Hm' Hk (eq_sym E)).
  - destruct Hms' as [|[h' b'] ms' Hm' Hms'].
    + rewrite stream_cons in E. exfalso. exact (Hft h b _ _ _ _ Hm Hk' E).
    + rewrite !stream_cons in E. cbn in E.
      apply header_bytes_inj in E as [-> E]; [|apply Hm|apply Hm'].
      destruct Hm as (_ & _ & Hs), Hm' as (_ & _ & Hs'). cbn in *.
      apply app_inj_1 in E as [-> E]; [|unfold len in *; lia].
      by destruct (IH ms' Hms' Hk Hk' E) as (-> & -> & ->).
Qed.

(** Whole frames at the beginning of whole frames. *)
Lemma stream_prefix ms fs :
  Forall frame_wf ms -> Forall frame_wf fs -> stream ms `prefix_of` stream fs -> ms `prefix_of` fs.
Proof.
  intros Hms Hfs [r Hr]. destruct (stream_decompose r) as (ms' & rest & k & r' & -> & Hms' & Hk).
  destruct (stream_unique fs (ms ++ ms') [] rest PartHeader k [] r') as (-> & _); try done.
  - by apply Forall_app.
  - by rewrite app_nil_r, Hr, stream_app, app_assoc.
  - by exists ms'.
Qed.
