(* ===== verification/Connection.v ===== *)
(** * One TCP connection of the server: [src/network/connection.h/.cpp]

    The object's fields, the asynchronous operations outstanding on its socket
    and the threads inside [send] form one state; every critical section and
    every completion handler is one step.  An event is an input of the
    environment: a completion of an [async_read] or [async_write], the return of
    the message callback, a call of [send] or [close], or a thread reaching its
    next critical section. *)
From S2P Require Import Prelude WriteQueue Protocol Framing.

(** ** State *)

(** The outstanding part of the read loop. *)
Inductive read_op :=
  | NotReading                       (* start_read not called yet *)
  | ReadingHeader                    (* async_read of 20 bytes outstanding *)
  | ReadingBody (h : RpcHeader)      (* async_read of body_size bytes outstanding *)
  | InCallback (h : RpcHeader) (body : str)  (* inside on_message_ *)
  | ReadStopped.                     (* a handler returned without reading on *)

Record Connection := {
  socket_is_open : bool;
  conn_id_ : Z;
  write_queue_ : list str;
  writing_ : bool;
  on_message_ : bool;   (* callback set *)
  on_close_ : bool;     (* callback set *)
  closed_ : bool;
  (* the environment *)
  reading : read_op;
  senders : list str;             (* threads in send, past the closed_ test *)
  writers : list (activity str);  (* threads and operations inside do_write *)
  (* histories *)
  pushed : list str;
  handled : list (str * bool);
  delivered : list (RpcHeader * str);
  close_calls : nat
}.

Definition Connection_init : Connection :=
  {| socket_is_open := true; conn_id_ := 0; write_queue_ := []; writing_ := false;
     on_message_ := false; on_close_ := false; closed_ := false;
     reading := NotReading; senders := []; writers := [];
     pushed := []; handled := []; delivered := []; close_calls := 0 |}.

(** Field updates. *)
Definition set_reading (r : read_op) (c : Connection) : Connection :=
  {| socket_is_open := socket_is_open c; conn_id_ := conn_id_ c;
     write_queue_ := write_queue_ c; writing_ := writing_ c;
     on_message_ := on_message_ c; on_close_ := on_close_ c; closed_ := closed_ c;
     reading := r; senders := senders c; writers := writers c;
     pushed := pushed c; handled := handled c; delivered := delivered c;
     close_calls := close_calls c |}.

Definition set_closed (sock : bool) (calls : nat) (c : Connection) : Connection :=
  {| socket_is_open := sock; conn_id_ := conn_id_ c;
     write_queue_ := write_queue_ c; writing_ := writing_ c;
     on_message_ := on_message_ c; on_close_ := on_close_ c; closed_ := true;
     reading := reading c; senders := senders c; writers := writers c;
     pushed := pushed c; handled := handled c; delivered := delivered c;
     close_calls := calls |}.

Definition set_handlers (msg close : bool) (c : Connection) : Connection :=
  {| socket_is_open := socket_is_open c; conn_id_ := conn_id_ c;
     write_queue_ := write_queue_ c; writing_ := writing_ c;
     on_message_ := msg; on_close_ := close; closed_ := closed_ c;
     reading := reading c; senders := senders c; writers := writers c;
     pushed := pushed c; handled := handled c; delivered := delivered c;
     close_calls := close_calls c |}.

Definition set_senders (l : list str) (c : Connection) : Connection :=
  {| socket_is_open := socket_is_open c; conn_id_ := conn_id_ c;
     write_queue_ := write_queue_ c; writing_ := writing_ c;
     on_message_ := on_message_ c; on_close_ := on_close_ c; closed_ := closed_ c;
     reading := reading c; senders := l; writers := writers c;
     pushed := pushed c; handled := handled c; delivered := delivered c;
     close_calls := close_calls c |}.

Definition set_delivered (l : list (RpcHeader * str)) (c : Connection) : Connection :=
  {| socket_is_open := socket_is_open c; conn_id_ := conn_id_ c;
     write_queue_ := write_queue_ c; writing_ := writing_ c;
     on_message_ := on_message_ c; on_close_ := on_close_ c; closed_ := closed_ c;
     reading := reading c; senders := senders c; writers := writers c;
     pushed := pushed c; handled := handled c; delivered := l;
     close_calls := close_calls c |}.

Definition set_writing (q : list str) (w : bool) (ws : list (activity str))
    (ps : list str) (hs : list (str * bool)) (c : Connection) : Connection :=
  {| socket_is_open := socket_is_open c; conn_id_ := conn_id_ c;
     write_queue_ := q; writing_ := w;
     on_message_ := on_message_ c; on_close_ := on_close_ c; closed_ := closed_ c;
     reading := reading c; senders := senders c; writers := ws;
     pushed := ps; handled := hs; delivered := delivered c;
     close_calls := close_calls c |}.

Definition set_conn_id (id : Z) (c : Connection) : Connection :=
  {| socket_is_open := socket_is_open c; conn_id_ := id;
     write_queue_ := write_queue_ c; writing_ := writing_ c;
     on_message_ := on_message_ c; on_close_ := on_close_ c; closed_ := closed_ c;
     reading := reading c; senders := senders c; writers := writers c;
     pushed := pushed c; handled := handled c; delivered := delivered c;
     close_calls := close_calls c |}.

(** ** Operations *)

Definition is_open (c : Connection) : bool := socket_is_open c && negb (closed_ c).

(** The block every failing handler runs: win the exchange on [closed_], then
    notify. *)
Definition cas_close (c : Connection) : Connection :=
  if closed_ c then c
  else set_closed (socket_is_open c) (if on_close_ c then S (close_calls c) else close_calls c) c.

Definition do_read_header (c : Connection) : Connection := set_reading ReadingHeader c.

Definition do_read_body (h : RpcHeader) (c : Connection) : Connection :=
  set_reading (ReadingBody h) c.

Definition start_read (on_message on_close : bool) (c : Connection) : Connection :=
  do_read_header (set_handlers on_message on_close c).

(** Completion of the header read: [None] is an error code. *)
Definition header_done (r : option str) (c : Connection) : option Connection :=
  match r with
  | None => Some (set_reading ReadStopped (cas_close c))
  | Some hdr_data =>
      match deserialize_header hdr_data with
      | Ok header =>
          if magic header =? MAGIC then Some (do_read_body header c)
          else Some (set_reading ReadStopped (cas_close c))
      | Throw _ => Some (set_reading ReadStopped (cas_close c))
      | UB => None
      end
  end.

(** Completion of the body read, up to the call of [on_message_]. *)
Definition body_done (h : RpcHeader) (r : option str) (c : Connection) : Connection :=
  match r with
  | None => set_reading ReadStopped (cas_close c)
  | Some body =>
      if on_message_ c
      then set_reading (InCallback h body) (set_delivered (delivered c ++ [(h, body)]) c)
      else do_read_header c
  end.

(** [on_message_] returned: read on; it threw: the handler is abandoned. *)
Definition callback_done (returned : bool) (c : Connection) : Connection :=
  if returned then do_read_header c else set_reading ReadStopped c.

(** [send] up to the acquisition of [write_mux_]. *)
Definition send_begin (h : RpcHeader) (body : str) (c : Connection) : option Connection :=
  if closed_ c then Some c
  else match serialize_header h with
       | Ok data => Some (set_senders (senders c ++ [data ++ body]) c)
       | _ => None
       end.

(** The critical section of [send]. *)
Definition send_push (i : nat) (c : Connection) : option Connection :=
  match senders c !! i with
  | None => None
  | Some data =>
      Some (set_writing (write_queue_ c ++ [data]) true
              (if writing_ c then writers c else writers c ++ [DoWrite])
              (pushed c ++ [data]) (handled c)
              (set_senders (delete i (senders c)) c))
  end.

(** The critical section of [do_write]. *)
Definition do_write (i : nat) (c : Connection) : option Connection :=
  match writers c !! i with
  | Some DoWrite =>
      Some match write_queue_ c with
      | [] => set_writing [] false (delete i (writers c)) (pushed c) (handled c) c
      | data :: q => set_writing q (writing_ c) (<[i := Issue data]> (writers c))
                       (pushed c) (handled c) c
      end
  | _ => None
  end.

(** The call of [async_write] that follows it. *)
Definition issue_write (i : nat) (c : Connection) : option Connection :=
  match writers c !! i with
  | Some (Issue data) =>
      Some (set_writing (write_queue_ c) (writing_ c) (<[i := InFlight data]> (writers c))
              (pushed c) (handled c) c)
  | _ => None
  end.

(** Completion of the write. *)
Definition write_done (i : nat) (ok : bool) (c : Connection) : option Connection :=
  match writers c !! i with
  | Some (InFlight data) =>
      Some (if ok
            then set_writing (write_queue_ c) (writing_ c) (<[i := DoWrite]> (writers c))
                   (pushed c) (handled c ++ [(data, ok)]) c
            else cas_close
                   (set_writing (write_queue_ c) (writing_ c) (delete i (writers c))
                      (pushed c) (handled c ++ [(data, ok)]) c))
  | _ => None
  end.

Definition close (c : Connection) : Connection :=
  if closed_ c then c else set_closed false (close_calls c) c.

(** ** Steps *)

Inductive conn_event :=
  | EvStartRead (on_message on_close : bool)
  | EvHeader (r : option str)
  | EvBody (r : option str)
  | EvCallback (returned : bool)
  | EvSend (h : RpcHeader) (body : str)
  | EvPush (i : nat)
  | EvDoWrite (i : nat)
  | EvIssue (i : nat)
  | EvWritten (i : nat) (ok : bool)
  | EvClose.

(** A successful [async_read] delivers exactly the number of bytes asked for. *)
Definition read_fits (n : Z) (r : option str) : bool :=
  match r with None => true | Some b => len b =? n end.

Definition conn_step (c : Connection) (ev : conn_event) : option Connection :=
  match ev with
  | EvStartRead m k =>
      match reading c with NotReading => Some (start_read m k c) | _ => None end
  | EvHeader r =>
      match reading c with
      | ReadingHeader => if read_fits 20 r then header_done r c else None
      | _ => None
      end
  | EvBody r =>
      match reading c with
      | ReadingBody h => if read_fits (body_size h) r then Some (body_done h r c) else None
      | _ => None
      end
  | EvCallback b =>
      match reading c with InCallback _ _ => Some (callback_done b c) | _ => None end
  | EvSend h body => send_begin h body c
  | EvPush i => send_push i c
  | EvDoWrite i => do_write i c
  | EvIssue i => issue_write i c
  | EvWritten i ok => write_done i ok c
  | EvClose => Some (close c)
  end.

Definition conn_trans : Connection -> Connection -> Prop := steps_to conn_step.

Definition conn_reachable (c : Connection) : Prop := rtc conn_trans Connection_init c.

(** ** The byte stream

    Bytes received from the peer and not yet consumed are fed to the read loop:
    an outstanding [async_read] completes as soon as enough of them are there,
    and the message callback returns. *)
Definition feed_step (s : Connection * str) : option (Connection * str) :=
  let '(c, input) := s in
  match reading c with
  | ReadingHeader =>
      if 20 <=? len input
      then c' ← conn_step c (EvHeader (Some (take 20 input))); Some (c', drop 20 input)
      else None
  | ReadingBody h =>
      if body_size h <=? len input
      then c' ← conn_step c (EvBody (Some (take (Z.to_nat (body_size h)) input)));
           Some (c', drop (Z.to_nat (body_size h)) input)
      else None
  | InCallback _ _ => c' ← conn_step c (EvCallback true); Some (c', input)
  | NotReading | ReadStopped => None
  end.

Fixpoint feed_iter (fuel : nat) (s : Connection * str) : Connection * str :=
  match fuel with
  | O => s
  | S k => match feed_step s with Some s' => feed_iter k s' | None => s end
  end.

(** Steps still possible: every header takes 20 bytes. *)
Definition feed_bound (s : Connection * str) : nat :=
  3 * length s.2 +
  match reading s.1 with ReadingBody _ => 3 | InCallback _ _ => 2 | ReadingHeader => 1 | _ => 0 end.

Definition conn_feed (c : Connection) (input : str) : Connection * str :=
  feed_iter (feed_bound (c, input)) (c, input).

(** ** The write queue is the shared discipline *)

Definition conn_wq (c : Connection) : wq str :=
  {| wq_queue := write_queue_ c; wq_writing := writing_ c; wq_active := writers c;
     wq_pushed := pushed c; wq_handled := handled c |}.

Definition conn_wq_event (c : Connection) (ev : conn_event) : option (wq_event str) :=
  match ev with
  | EvPush i => WPush <$> senders c !! i
  | EvDoWrite i => Some (WPop i)
  | EvIssue i => Some (WIssue i)
  | EvWritten i ok => Some (WDone i ok)
  | _ => None
  end.

Lemma cas_close_wq c : conn_wq (cas_close c) = conn_wq c.
Proof. unfold cas_close. by destruct (closed_ c). Qed.

(** Every way a step can go, one goal each. *)
Ltac conn_cases ev E :=
  destruct ev; cbn in E;
  unfold header_done, body_done, send_begin, send_push, do_write, issue_write, write_done,
    callback_done, close in E;
  split_match E; simplify_eq; try done.

Lemma conn_step_wq c ev c' :
  conn_step c ev = Some c' ->
  match conn_wq_event c ev with
  | Some we => wq_step true (conn_wq c) we = Some (conn_wq c')
  | None => conn_wq c' = conn_wq c
  end.
Proof.
  intros E. conn_cases ev E; cbn [conn_wq_event]; try exact (cas_close_wq c);
    rewrite ?cas_close_wq; try done;
    unfold wq_step, wq_push, conn_wq; cbn;
    repeat match goal with H : ?x = _ |- context [?x] => rewrite H; cbn end; done.
Qed.

#[export] Instance conn_write_queue :
  WriteQueueImpl true conn_step Connection_init conn_wq conn_wq_event (fun _ => True).
Proof.
  split; [done|exact conn_step_wq|].
  intros c we q _ Hw E. destruct we as [x|i|i|i ok]; [done|..]; cbn in E.
  - destruct (writers c !! i) as [[]|] eqn:Ei; try done.
    eexists (EvDoWrite i), _. split; [done|]. cbn. unfold do_write. rewrite Ei.
    split; [done|]. simplify_eq. by destruct (write_queue_ c).
  - destruct (writers c !! i) as [[]|] eqn:Ei; try done.
    eexists (EvIssue i), _. split; [done|]. cbn. unfold issue_write. rewrite Ei.
    split; [done|]. by simplify_eq.
  - destruct (writers c !! i) as [[]|] eqn:Ei; try done.
    eexists (EvWritten i ok), _. split; [done|]. cbn. unfold write_done. rewrite Ei.
    split; [done|]. simplify_eq. destruct ok; [done|]. by rewrite cas_close_wq.
Qed.

(** ** Closing *)

Record close_inv (c : Connection) : Prop := {
  ci_open : closed_ c = false -> close_calls c = O;
  ci_once : (close_calls c <= 1)%nat;
  ci_failed : (exists x, (x, false) ∈ handled c) -> closed_ c = true
}.

Lemma cas_close_closed c : closed_ (cas_close c) = true.
Proof. unfold cas_close. by destruct (closed_ c) eqn:E. Qed.

Lemma cas_close_io d :
  delivered (cas_close d) = delivered d /\ pushed (cas_close d) = pushed d /\
  senders (cas_close d) = senders d /\ reading (cas_close d) = reading d /\
  on_message_ (cas_close d) = on_message_ d.
Proof. unfold cas_close. by destruct (closed_ d). Qed.

(** Every step either leaves the closing state alone or performs the first
    close, with at most one notification. *)
Lemma conn_step_closing c ev c' :
  conn_step c ev = Some c' ->
  closed_ c' = closed_ c /\ close_calls c' = close_calls c \/
  closed_ c = false /\ closed_ c' = true /\ (close_calls c' <= S (close_calls c))%nat.
Proof.
  assert (forall d, closed_ d = closed_ c -> close_calls d = close_calls c ->
    closed_ (cas_close d) = closed_ c /\ close_calls (cas_close d) = close_calls c \/
    closed_ c = false /\ closed_ (cas_close d) = true /\
      (close_calls (cas_close d) <= S (close_calls c))%nat) as Hcas.
  { intros d Hd Hn. unfold cas_close. destruct (closed_ d) eqn:E; [left; by rewrite E|right].
    cbn. rewrite <- Hd, Hn. destruct (on_close_ d); auto with lia. }
  intros E. conn_cases ev E; auto with lia; by apply Hcas.
Qed.

Lemma conn_step_handled c ev c' :
  conn_step c ev = Some c' ->
  handled c' = handled c \/ (exists x, handled c' = handled c ++ [(x, true)]) \/
  closed_ c' = true.
Proof.
  assert (forall d, handled d = handled c -> handled (cas_close d) = handled c) as Hh.
  { intros d Hd. unfold cas_close. by destruct (closed_ d). }
  intros E. conn_cases ev E; auto; try (left; by apply Hh); right; eauto.
  right. apply cas_close_closed.
Qed.

(** Once closed, no frame enters the connection any more. *)
Definition frames_in (c : Connection) : nat := (length (pushed c) + length (senders c))%nat.

Lemma cas_close_frames c : frames_in (cas_close c) = frames_in c.
Proof. unfold cas_close. by destruct (closed_ c). Qed.

Lemma conn_step_no_new_frames c ev c' :
  conn_step c ev = Some c' -> closed_ c = true -> frames_in c' = frames_in c.
Proof.
  intros E Hc. conn_cases ev E; try congruence; try exact (cas_close_frames c);
    try (etransitivity; [apply cas_close_frames|done]);
    match goal with H : senders c !! _ = Some _ |- _ =>
      unfold frames_in; cbn; rewrite length_app, length_delete by eauto;
      apply lookup_lt_Some in H; cbn; lia end.
Qed.

Lemma close_inv_step c ev c' : close_inv c -> conn_step c ev = Some c' -> close_inv c'.
Proof.
  intros [H1 H2 H3] E.
  destruct (conn_step_closing c ev c' E) as [[Hc Hn]|(Hc & Hc' & Hn)].
  - split; rewrite ?Hc, ?Hn; auto. intros [x Hx].
    destruct (conn_step_handled c ev c' E) as [Eh|[[y Eh]|?]]; [..|congruence];
      rewrite Eh in Hx; [eauto|].
    apply elem_of_app in Hx as [?|Hx]; [eauto|]. by apply list_elem_of_singleton in Hx.
  - specialize (H1 Hc). split; [congruence|lia|done].
Qed.

Lemma conn_reachable_inv c :
  conn_reachable c -> close_inv c /\ wq_inv true (conn_wq c).
Proof.
  intros Hr. split.
  - eapply (steps_invariant conn_step close_inv); [|exact Hr|].
    + eauto using close_inv_step.
    + split; cbn; auto. intros [x Hx]. by apply elem_of_nil in Hx.
  - exact (impl_inv c Hr).
Qed.

(** Frames written completely, in the order of completion. *)
Definition on_wire (c : Connection) : list str := (filter (fun p => p.2 = true) (handled c)).*1.

Lemma filter_all_true {A} (l : list (A * bool)) :
  Forall (fun p => p.2 = true) l -> filter (fun p => p.2 = true) l = l.
Proof. induction 1; [done|]. by rewrite filter_cons_True, IHForall. Qed.

Lemma wq_written_prefix (q : wq str) :
  wq_inv true q -> (filter (fun p => p.2 = true) (wq_handled q)).*1 `prefix_of` wq_pushed q.
Proof.
  intros [_ _ _ _ Hf Hp]. rewrite Hf. destruct (Hp eq_refl) as [Ha|(_ & _ & h & x & Eh & Ha)].
  - rewrite (filter_all_true _ Ha). by eexists.
  - rewrite Eh, filter_app, (filter_all_true h Ha), !fmap_app, <- !app_assoc. cbn.
    rewrite app_nil_r. by eexists.
Qed.

(** Frames entered but not on the wire: in a writer's hands or queued. *)
Definition in_transit (c : Connection) : list str := act_items (writers c) ++ write_queue_ c.

Definition is_writer_step (ev : conn_event) : Prop :=
  match ev with EvDoWrite _ | EvIssue _ | EvWritten _ _ => True | _ => False end.

(** ** Theorems: writing *)

(** C19: ordered, exclusive writes.  However senders, writers and completion
    handlers interleave, at most one [async_write] is ever outstanding or about
    to be issued on the socket, and the frames completely written are a prefix
    of the frames in the order [send] queued them: nothing is reordered,
    duplicated or skipped.  As long as the connection has not been closed,
    written frames, frames in transit and nothing else make up that order. *)
Theorem connection_writes_in_order c :
  conn_reachable c ->
  (length (writers c) <= 1)%nat /\
  on_wire c `prefix_of` pushed c /\
  (closed_ c = false -> pushed c = on_wire c ++ in_transit c).
Proof.
  intros Hr. destruct (conn_reachable_inv c Hr) as [[_ _ Hfail] Hq]. split_and!.
  - apply Hq.
  - apply (wq_written_prefix _ Hq).
  - intros Hc. pose proof (inv_fifo _ _ Hq) as Hf. cbn in Hf. unfold on_wire.
    destruct (inv_prefix _ _ Hq eq_refl) as [Ha|(_ & _ & h & x & Eh & _)]; cbn in *.
    + by rewrite (filter_all_true _ Ha).
    + rewrite Hfail in Hc; [done|]. exists x. rewrite Eh. set_solver.
Qed.

(** A run: two senders race, the second only queues; both frames go out. *)
Definition conn_race_events : list conn_event :=
  let h := header_example in
  [EvStartRead true true; EvSend h (bs "first"); EvSend h (bs "second");
   EvPush 1; EvPush 0; EvDoWrite 0; EvIssue 0; EvWritten 0 true; EvDoWrite 0; EvIssue 0].

Definition conn_raced : Connection :=
  default Connection_init (run conn_step conn_race_events Connection_init).

Lemma conn_raced_reachable : conn_reachable conn_raced.
Proof. apply run_reachable. Qed.

Lemma connection_writes_in_order_witness :
  on_wire conn_raced = [header_bytes header_example ++ bs "second"] /\
  pushed conn_raced = on_wire conn_raced ++ in_transit conn_raced /\
  in_transit conn_raced = [header_bytes header_example ++ bs "first"].
Proof.
  split_and!; [by vm_compute| |by vm_compute].
  apply (connection_writes_in_order conn_raced conn_raced_reachable). by vm_compute.
Defined.

(** No lost wake-up.  Every step of the writer (entering [do_write], issuing
    the write, completing it) brings it strictly closer to the end, and when no
    writer step is possible every queued frame has been written, in order, and
    the [writing_] flag is clear, unless a write failed; then the connection is
    closed. *)
Theorem connection_writer_finishes c :
  conn_reachable c ->
  (forall ev c', is_writer_step ev -> conn_step c ev = Some c' ->
     (wq_measure (conn_wq c') < wq_measure (conn_wq c))%nat) /\
  ((forall ev, is_writer_step ev -> conn_step c ev = None) ->
     (on_wire c = pushed c /\ write_queue_ c = [] /\ writing_ c = false) \/ closed_ c = true).
Proof.
  intros Hr. split.
  - intros ev c' Hev Hs.
    destruct (conn_wq_event c ev) as [we|] eqn:Ew; [|by destruct ev].
    eapply (impl_writer_decreases (event := conn_wq_event) c ev c' we); eauto.
    by destruct ev; cbn in Ew; simplify_eq.
  - intros Hstuck. destruct (conn_reachable_inv c Hr) as [[_ _ Hfail] Hq].
    destruct (impl_stuck_done (event := conn_wq_event) c Hr I) as [(Eq & Ep & Ew)|[_ [x Hx]]].
    + intros ev we Hev Hw. apply Hstuck. destruct ev; try done. cbn in Hev.
      destruct (senders c !! i); cbn in Hev; [|done]. by simplify_eq.
    + destruct (inv_prefix _ _ Hq eq_refl) as [Ha|(_ & Ew' & _)]; [|cbn in *; congruence].
      left. unfold on_wire. cbn in *. by rewrite (filter_all_true _ Ha).
    + right. apply Hfail. exists x. cbn in Hx. apply last_Some in Hx as [l ->]. set_solver.
Qed.

Lemma connection_writer_finishes_witness : exists ev c',
  conn_step conn_raced ev = Some c' /\
  (wq_measure (conn_wq c') < wq_measure (conn_wq conn_raced))%nat.
Proof.
  exists (EvWritten 0 true). eexists. split; [by vm_compute|].
  eapply (proj1 (connection_writer_finishes conn_raced
    conn_raced_reachable) (EvWritten 0 true));
    [done|by vm_compute].
Defined.

(** Closing.  The close callback fires at most once, and never while the
    connection still counts as open; [closed_] is never reset; and from the
    moment it is set no frame enters the connection and no further notification
    is made, whatever happens. *)
Theorem connection_closes_once c c' :
  conn_reachable c -> rtc conn_trans c c' ->
  (close_calls c <= 1)%nat /\ (closed_ c = false -> close_calls c = O) /\
  (closed_ c = true ->
     closed_ c' = true /\ close_calls c' = close_calls c /\ frames_in c' = frames_in c).
Proof.
  intros Hr Hcc. destruct (conn_reachable_inv c Hr) as [[H1 H2 _] _].
  split_and!; [done..|]. clear Hr H1 H2.
  induction Hcc as [c|a b d [ev Hev] _ IH]; intros Hc; [done|].
  pose proof (conn_step_no_new_frames a ev b Hev Hc) as Hf.
  destruct (conn_step_closing a ev b Hev) as [[Hb Hn]|[? _]]; [|congruence].
  rewrite Hc in Hb. destruct (IH Hb) as (? & ? & ?). split_and!; congruence.
Qed.

Lemma connection_closes_once_witness :
  closed_ (cas_close conn_raced) = true /\ close_calls (close (cas_close conn_raced)) = 1%nat.
Proof.
  split; [by vm_compute|].
  assert (rtc conn_trans conn_raced (set_reading ReadStopped (cas_close conn_raced))) as H
    by (apply rtc_once; exists (EvHeader None); by vm_compute).
  apply (connection_closes_once (set_reading ReadStopped (cas_close conn_raced))
    (close (set_reading ReadStopped (cas_close conn_raced)))).
  - unfold conn_reachable. transitivity conn_raced; [exact conn_raced_reachable|exact H].
  - apply rtc_once. by exists EvClose.
  - by vm_compute.
Defined.

(** ** The read loop as a function of the byte stream *)

(** The connection after [ms] has been handed to the callback and the loop waits
    at [r]. *)
Definition fed (c : Connection) (ms : list (RpcHeader * str)) (r : read_op) : Connection :=
  set_reading r (set_delivered (delivered c ++ ms) c).

Definition feeding (c : Connection) : Prop :=
  match reading c with
  | ReadingHeader => True
  | ReadingBody h | InCallback h _ => header_wf h
  | _ => False
  end.

Lemma fed_nil c : reading c = ReadingHeader -> fed c [] ReadingHeader = c.
Proof. intros E. destruct c. cbn in E. subst. unfold fed, set_reading, set_delivered. cbn. by rewrite app_nil_r. Qed.

Lemma fed_fed c ms r ms' r' : fed (fed c ms r) ms' r' = fed c (ms ++ ms') r'.
Proof. unfold fed, set_reading, set_delivered. cbn. by rewrite app_assoc. Qed.

Lemma take_drop_app {A} (l x : list A) n :
  (n <= length l)%nat -> take n (l ++ x) = take n l /\ drop n (l ++ x) = drop n l ++ x.
Proof. intros. by rewrite take_app_le, drop_app_le by lia. Qed.

(** Bytes that arrive later do not change a step that is possible now. *)
Lemma feed_step_app c i c' r x :
  feed_step (c, i) = Some (c', r) -> feed_step (c, i ++ x) = Some (c', r ++ x).
Proof.
  unfold feed_step. destruct (reading c) as [| |h|h b|]; try done; pose proof (len_nonneg x).
  - destruct (Z.leb_spec 20 (len i)); [|done].
    destruct (Z.leb_spec 20 (len (i ++ x))); [|rewrite len_app in *; lia].
    destruct (take_drop_app i x 20) as [-> ->]; [unfold len in *; lia|].
    destruct (conn_step c _); cbn; [|done]. intros. by simplify_eq.
  - destruct (Z.leb_spec (body_size h) (len i)); [|done].
    destruct (Z.leb_spec (body_size h) (len (i ++ x))); [|rewrite len_app in *; lia].
    destruct (take_drop_app i x (Z.to_nat (body_size h))) as [-> ->]; [unfold len in *; lia|].
    destruct (conn_step c _); cbn; [|done]. intros. by simplify_eq.
  - destruct (conn_step c _); cbn; [|done]. intros. by simplify_eq.
Qed.

Lemma feed_step_bound s s' : feed_step s = Some s' -> (feed_bound s' < feed_bound s)%nat.
Proof.
  destruct s as [c i]. unfold feed_step, feed_bound. cbn [fst snd].
  destruct (reading c) as [| |h|h b|] eqn:Er; try done.
  - destruct (Z.leb_spec 20 (len i)); [|done].
    destruct (conn_step c _) as [c'|]; cbn; [|done]. intros. simplify_eq. cbn [fst snd].
    rewrite length_drop. unfold len in *. destruct (reading c'); lia.
  - destruct (Z.leb_spec (body_size h) (len i)); [|done].
    destruct (conn_step c _) as [c'|] eqn:Es; cbn; [|done]. intros. simplify_eq. cbn [fst snd].
    rewrite length_drop. cbn in Es. rewrite Er in Es.
    destruct (_ =? _) in Es; [|done].
    injection Es as <-. destruct (on_message_ c); cbn; lia.
  - cbn. rewrite Er. cbn. intros. simplify_eq. cbn. lia.
Qed.

Lemma feed_iter_done n s : (feed_bound s <= n)%nat -> feed_step (feed_iter n s) = None.
Proof.
  revert s. induction n as [|n IH]; intros s Hn; cbn.
  - destruct (feed_step s) as [s'|] eqn:E; [|done]. apply feed_step_bound in E. lia.
  - destruct (feed_step s) as [s'|] eqn:E; [|done]. apply IH.
    pose proof (feed_step_bound _ _ E). lia.
Qed.

Definition feeds (s s' : Connection * str) : Prop := feed_step s = Some s'.

Lemma feed_iter_feeds n s : rtc feeds s (feed_iter n s).
Proof.
  revert s. induction n as [|n IH]; intros s; cbn; [constructor|].
  destruct (feed_step s) eqn:E; [|constructor]. eapply rtc_l; eauto.
Qed.

(** Feeding reaches the one state from which no further step is possible. *)
Lemma conn_feed_iff c i s :
  rtc feeds (c, i) s /\ feed_step s = None <-> conn_feed c i = s.
Proof.
  split.
  - intros [Hr Hs]. pose proof (feed_iter_feeds (feed_bound (c, i)) (c, i)) as Hf.
    pose proof (feed_iter_done _ (c, i) (le_n _)) as Hd. fold (conn_feed c i) in *.
    revert Hf. generalize (conn_feed c i) Hd. clear Hd. intros t Hd.
    induction Hr as [a|a b d Hab _ IH]; intros Hf.
    + inversion Hf as [|? ? ? Hx]; [done|]. unfold feeds in Hx. congruence.
    + inversion Hf as [|? ? ? Hx Hy]; subst; unfold feeds in *; [congruence|].
      rewrite Hab in Hx. simplify_eq. auto.
  - intros <-. split; [apply feed_iter_feeds|]. by apply feed_iter_done.
Qed.

Lemma feeds_app c i c' r x : rtc feeds (c, i) (c', r) -> rtc feeds (c, i ++ x) (c', r ++ x).
Proof.
  assert (forall s s', rtc feeds s s' -> rtc feeds (s.1, s.2 ++ x) (s'.1, s'.2 ++ x)) as H.
  { induction 1 as [s|s t u Hst _ IH]; [constructor|]. eapply rtc_l; [|exact IH].
    destruct s, t. by apply feed_step_app. }
  intros Hr. exact (H _ _ Hr).
Qed.

(** Where the loop stands after a tail of each kind. *)
Definition loop_end (c : Connection) (k : tail_kind) : Connection :=
  match k with
  | PartHeader => c
  | PartBody h => set_reading (ReadingBody h) c
  | BadHeader _ => set_reading ReadStopped (cas_close c)
  end.

Lemma feed_header c h i :
  reading c = ReadingHeader -> header_wf h ->
  feed_step (c, header_bytes h ++ i) =
    Some (set_reading (if magic h =? MAGIC then ReadingBody h else ReadStopped)
            (if magic h =? MAGIC then c else cas_close c), i).
Proof.
  intros Er Hw. unfold feed_step. rewrite Er.
  pose proof (len_header_bytes h) as Hl. pose proof (len_nonneg i).
  destruct (Z.leb_spec 20 (len (header_bytes h ++ i))); [|rewrite len_app in *; lia].
  assert (length (header_bytes h) = 20)%nat as Hn by (unfold len in Hl; lia).
  rewrite take_app_length', drop_app_length' by done. unfold conn_step. rewrite Er.
  unfold read_fits. rewrite Hl. cbn. rewrite <- (app_nil_r (header_bytes h)) at 1.
  rewrite header_deserialize_bytes by done. by destruct (magic h =? MAGIC).
Qed.

Lemma feed_body c h b i :
  reading c = ReadingBody h -> on_message_ c = true -> body_size h = len b ->
  rtc feeds (c, b ++ i) (fed c [(h, b)] ReadingHeader, i).
Proof.
  intros Er Hm Hs. apply rtc_l with (set_reading (InCallback h b)
    (set_delivered (delivered c ++ [(h, b)]) c), i).
  - unfold feeds, feed_step. rewrite Er, Hs. pose proof (len_nonneg i).
    destruct (Z.leb_spec (len b) (len (b ++ i))); [|rewrite len_app in *; lia].
    rewrite len_to_nat, take_app_length, drop_app_length. unfold conn_step.
    rewrite Er. unfold read_fits. rewrite Hs, Z.eqb_refl. cbn. by rewrite Hm.
  - by apply rtc_once.
Qed.

Lemma feed_frames ms c rest :
  reading c = ReadingHeader -> on_message_ c = true -> Forall frame_wf ms ->
  rtc feeds (c, stream ms ++ rest) (fed c ms ReadingHeader, rest).
Proof.
  intros Er Hm Hms. revert c Er Hm.
  induction Hms as [|[h b] ms (Hw & Hmg & Hs) _ IH]; intros c Er Hm; cbn in *.
  - rewrite fed_nil by done. constructor.
  - rewrite stream_cons. eapply rtc_l; [by apply feed_header|]. cbn.
    rewrite Hmg, Z.eqb_refl. etransitivity; [by apply feed_body|].
    specialize (IH (fed (set_reading (ReadingBody h) c) [(h, b)] ReadingHeader) eq_refl Hm).
    rewrite fed_fed in IH. exact IH.
Qed.

Lemma conn_feed_framed c ms k rest r :
  reading c = ReadingHeader -> on_message_ c = true -> Forall frame_wf ms -> tail_of k rest r ->
  conn_feed c (stream ms ++ rest) = (loop_end (fed c ms ReadingHeader) k, r).
Proof.
  intros Er Hm Hms Hk. apply conn_feed_iff.
  destruct k as [|h|h]; cbn in Hk; cbn [loop_end].
  - destruct Hk as [-> Hl]. split; [by apply feed_frames|]. cbn.
    by destruct (Z.leb_spec 20 (len r)); [lia|].
  - destruct Hk as (-> & Hw & Hmg & Hl). split.
    + etransitivity; [by apply feed_frames|]. apply rtc_once. unfold feeds.
      rewrite feed_header by done. by rewrite Hmg.
    + cbn. by destruct (Z.leb_spec (body_size h) (len r)); [lia|].
  - destruct Hk as (-> & Hw & Hmg). split; [|done].
    etransitivity; [by apply feed_frames|]. apply rtc_once. unfold feeds.
    rewrite feed_header by done. apply Z.eqb_neq in Hmg. by rewrite Hmg.
Qed.

(** ** Theorems: reading *)

(** C9: framing.  On a connection waiting for a header, any sequence of bytes
    from the peer is handed to the message callback as exactly the maximal
    sequence of well-formed frames it starts with: each complete frame once, in
    order, with the header and body that were sent.  What follows the last
    complete frame decides where the loop stands: waiting for more of a header,
    waiting for more of a body, or, at a header with the wrong magic, closed
    and stopped.  The decomposition is unique, so this determines the result. *)
Theorem connection_frames_stream c input s :
  reading c = ReadingHeader -> on_message_ c = true ->
  (conn_feed c input = s <->
   exists ms k rest r, input = stream ms ++ rest /\ Forall frame_wf ms /\ tail_of k rest r /\
     s = (loop_end (fed c ms ReadingHeader) k, r)).
Proof.
  intros Er Hm. split.
  - intros <-. destruct (stream_decompose input) as (ms & rest & k & r & -> & Hms & Hk).
    exists ms, k, rest, r. split_and!; auto. by apply conn_feed_framed.
  - intros (ms & k & rest & r & -> & Hms & Hk & ->). by apply conn_feed_framed.
Qed.

Definition conn_started : Connection := start_read true true Connection_init.

Definition two_frames : list frame :=
  [(header_example, bs "0123456789ab"); (header_example, bs "abcdefghijkl")].

Lemma connection_frames_stream_witness :
  conn_feed conn_started (stream two_frames ++ take 7 (header_bytes header_example)) =
  (fed conn_started two_frames ReadingHeader, take 7 (header_bytes header_example)).
Proof.
  apply (connection_frames_stream conn_started); [done..|].
  eexists two_frames, PartHeader, _, _. split_and!; [reflexivity| |by vm_compute|reflexivity].
  apply (bool_decide_unpack _). by vm_compute.
Defined.

(** Independence of packet boundaries.  Delivering a byte stream in two
    pieces, cut anywhere, leaves the connection in the same state and with the
    same unread bytes as delivering it at once; the read loop always comes to
    rest on the input it has, within the fuel [feed_bound]. *)
Theorem connection_chunks c a b :
  conn_feed c (a ++ b) = conn_feed (conn_feed c a).1 ((conn_feed c a).2 ++ b) /\
  feed_step (conn_feed c a) = None.
Proof.
  split; [|by apply (feed_iter_done _ (c, a))].
  destruct (conn_feed c a) as [c1 r] eqn:E. apply conn_feed_iff in E as [Hr _]. cbn.
  apply conn_feed_iff. split; [|by apply (feed_iter_done _ (c1, r ++ b))].
  etransitivity; [by apply feeds_app|]. apply feed_iter_feeds.
Qed.
