(* ===== verification/Executor.v ===== *)
(** * The interface between the server and its thread pool

    What [RpcServer] relies on when it submits work: a submission either is
    refused or is remembered, the executor's own steps run remembered tasks, and
    no task is run more often than it was submitted.  [ThreadPool] implements
    it; [RpcServer]'s theorems are proved against it. *)
From S2P Require Import Prelude.

Class Executor (T X E : Type) := {
  ex_init : X;
  ex_submit : T -> X -> option X;        (* [None]: enqueue throws *)
  ex_step : X -> E -> option X;          (* a step of the executor's threads *)
  ex_runs : X -> E -> option T;          (* the task the step finishes, if any *)
  ex_accepted : X -> list T;
  ex_ran : X -> list T;
  ex_init_spec : ex_accepted ex_init = [] /\ ex_ran ex_init = [];
  ex_submit_spec t x x' :
    ex_submit t x = Some x' ->
    ex_accepted x' = ex_accepted x ++ [t] /\ ex_ran x' = ex_ran x;
  ex_step_spec x ev x' :
    ex_step x ev = Some x' ->
    ex_accepted x' = ex_accepted x /\
    ex_ran x' = ex_ran x ++ match ex_runs x ev with Some t => [t] | None => [] end;
  (* what the executor guarantees of every state it can reach *)
  ex_ok : X -> Prop;
  ex_ok_init : ex_ok ex_init;
  ex_ok_submit t x x' : ex_ok x -> ex_submit t x = Some x' -> ex_ok x';
  ex_ok_step x ev x' : ex_ok x -> ex_step x ev = Some x' -> ex_ok x';
  ex_at_most_once x : ex_ok x -> ex_ran x ⊆+ ex_accepted x
}.

(** An executor whose threads come to rest: their own steps consume work, and when
    none of those to try is possible every accepted task has run.  While it is
    open, and its own steps leave it so, it refuses nothing. *)
Class ExecutorRests (T X E : Type) `{!Executor T X E} := {
  ex_work : X -> nat;
  ex_internal : E -> bool;               (* steps of the executor's own threads *)
  ex_next : X -> list E;                 (* those to try *)
  ex_next_internal x : Forall (fun ev => ex_internal ev = true) (ex_next x);
  ex_work_decreases x ev x' :
    ex_ok x -> ex_internal ev = true -> ex_step x ev = Some x' -> (ex_work x' < ex_work x)%nat;
  ex_open : X -> Prop;
  ex_open_init : ex_open ex_init;
  ex_open_submit t x : ex_open x -> exists x', ex_submit t x = Some x' /\ ex_open x';
  ex_open_step x ev x' : ex_open x -> ex_internal ev = true -> ex_step x ev = Some x' -> ex_open x';
  ex_rest x : ex_ok x -> Forall (fun ev => ex_step x ev = None) (ex_next x) -> ex_ran x ≡ₚ ex_accepted x
}.
