(* ===== verification/ThreadPool.v ===== *)
(** * The thread pool: [src/thread_pool/thread_pool.h/.cpp] and the singleton
    [src/thread_pool/thread_pool_singleton.h/.cpp]

    Workers, callers of [enqueue] and [drain], and the destructor are threads
    interleaved at the granularity of critical sections of [mux_] and of single
    atomic operations.  A condition variable is the set of threads blocked on
    it; a notification wakes one of them, chosen by the environment, or nobody
    when nobody is blocked; spurious wake-ups can happen at any time. *)
From S2P Require Import Prelude Executor.

(** The constructor's choice of the number of threads;
    [hardware_concurrency] is what the standard library reports. *)
Definition pool_threads (num_threads hardware_concurrency : Z) : Z :=
  let n := if num_threads =? 0 then hardware_concurrency else num_threads in
  if n =? 0 then 4 else n.

Section pool.
Context {T : Type}.

(** ** State *)

(** Where a worker stands in [worker_loop]. *)
Inductive worker :=
  | Top                (* about to take mux_ *)
  | Blocked            (* inside cv_.wait *)
  | Popped (t : T)     (* released mux_ with a task *)
  | InTask (t : T)     (* active_tasks_ incremented, running the task *)
  | AfterTask          (* task returned *)
  | AfterActive        (* active_tasks_ decremented *)
  | AfterCompleted     (* completed_ incremented *)
  | AfterPending       (* pending_count_ decremented *)
  | Exited.

(** Where a caller of [drain] stands. *)
Inductive drainer :=
  | DTop               (* about to take mux_ *)
  | DChecked           (* holds mux_, the predicate was false *)
  | DBlocked           (* inside drain_cv_.wait *)
  | DReturned.

Inductive dtor_phase := Alive | StopSet | Notified | Joined.

Record ThreadPool := {
  tasks_ : list T;
  stop_ : bool;
  pending_count_ : Z;
  active_tasks_ : Z;
  completed_ : Z;
  num_threads_ : Z;
  (* the threads *)
  workers : list worker;
  notifiers : nat;             (* enqueue between mux_ and notify_one *)
  drainers : list drainer;
  dtor : dtor_phase;
  (* histories *)
  accepted : list T;
  started : list T;
  ran : list T
}.

Definition ThreadPool_init (num_threads hardware_concurrency : Z) : ThreadPool :=
  let n := pool_threads num_threads hardware_concurrency in
  {| tasks_ := []; stop_ := false; pending_count_ := 0; active_tasks_ := 0; completed_ := 0;
     num_threads_ := n; workers := replicate (Z.to_nat n) Top; notifiers := 0;
     drainers := []; dtor := Alive; accepted := []; started := []; ran := [] |}.

(** Field updates. *)
Definition with_workers (ws : list worker) (p : ThreadPool) : ThreadPool :=
  {| tasks_ := tasks_ p; stop_ := stop_ p; pending_count_ := pending_count_ p;
     active_tasks_ := active_tasks_ p; completed_ := completed_ p;
     num_threads_ := num_threads_ p; workers := ws; notifiers := notifiers p;
     drainers := drainers p; dtor := dtor p; accepted := accepted p; started := started p;
     ran := ran p |}.
Definition with_drainers (ds : list drainer) (p : ThreadPool) : ThreadPool :=
  {| tasks_ := tasks_ p; stop_ := stop_ p; pending_count_ := pending_count_ p;
     active_tasks_ := active_tasks_ p; completed_ := completed_ p;
     num_threads_ := num_threads_ p; workers := workers p; notifiers := notifiers p;
     drainers := ds; dtor := dtor p; accepted := accepted p; started := started p;
     ran := ran p |}.
Definition with_counters (pending active completed : Z) (p : ThreadPool) : ThreadPool :=
  {| tasks_ := tasks_ p; stop_ := stop_ p; pending_count_ := pending;
     active_tasks_ := active; completed_ := completed;
     num_threads_ := num_threads_ p; workers := workers p; notifiers := notifiers p;
     drainers := drainers p; dtor := dtor p; accepted := accepted p; started := started p;
     ran := ran p |}.
Definition with_queue (ts acc st : list T) (n : nat) (p : ThreadPool) : ThreadPool :=
  {| tasks_ := ts; stop_ := stop_ p; pending_count_ := pending_count_ p;
     active_tasks_ := active_tasks_ p; completed_ := completed_ p;
     num_threads_ := num_threads_ p; workers := workers p; notifiers := n;
     drainers := drainers p; dtor := dtor p; accepted := acc; started := st;
     ran := ran p |}.
Definition with_ran (r : list T) (p : ThreadPool) : ThreadPool :=
  {| tasks_ := tasks_ p; stop_ := stop_ p; pending_count_ := pending_count_ p;
     active_tasks_ := active_tasks_ p; completed_ := completed_ p;
     num_threads_ := num_threads_ p; workers := workers p; notifiers := notifiers p;
     drainers := drainers p; dtor := dtor p; accepted := accepted p; started := started p;
     ran := r |}.
Definition with_dtor (s : bool) (d : dtor_phase) (p : ThreadPool) : ThreadPool :=
  {| tasks_ := tasks_ p; stop_ := s; pending_count_ := pending_count_ p;
     active_tasks_ := active_tasks_ p; completed_ := completed_ p;
     num_threads_ := num_threads_ p; workers := workers p; notifiers := notifiers p;
     drainers := drainers p; dtor := d; accepted := accepted p; started := started p;
     ran := ran p |}.

(** ** Operations *)

(** [mux_] is free unless a caller of [drain] has evaluated its predicate and
    is about to block; all other critical sections are single steps. *)
Definition mux_free (p : ThreadPool) : bool :=
  forallb (fun d => match d with DChecked => false | _ => true end) (drainers p).

(** The critical section of [enqueue]; [None] when it throws. *)
Definition enqueue (t : T) (p : ThreadPool) : option ThreadPool :=
  if stop_ p then None
  else Some (with_counters (u64 (pending_count_ p + 1)) (active_tasks_ p) (completed_ p)
         (with_queue (tasks_ p ++ [t]) (accepted p ++ [t]) (started p) (S (notifiers p)) p)).

Definition is_blocked (w : worker) : bool := match w with Blocked => true | _ => false end.
Definition is_dblocked (d : drainer) : bool := match d with DBlocked => true | _ => false end.

(** [cv_.notify_one()]: [who] is the worker the implementation picks. *)
Definition notify_one (who : option nat) (ws : list worker) : option (list worker) :=
  match who with
  | Some i => match ws !! i with Some Blocked => Some (<[i := Top]> ws) | _ => None end
  | None => if existsb is_blocked ws then None else Some ws
  end.
Definition notify_one_drain (who : option nat) (ds : list drainer) : option (list drainer) :=
  match who with
  | Some i => match ds !! i with Some DBlocked => Some (<[i := DTop]> ds) | _ => None end
  | None => if existsb is_dblocked ds then None else Some ds
  end.

(** The rest of [enqueue]. *)
Definition enqueue_notify (who : option nat) (p : ThreadPool) : option ThreadPool :=
  match notifiers p with
  | O => None
  | S n => ws ← notify_one who (workers p);
           Some (with_workers ws (with_queue (tasks_ p) (accepted p) (started p) n p))
  end.

(** The critical section of [worker_loop], the test of [cv_.wait] included. *)
Definition worker_lock (i : nat) (p : ThreadPool) : option ThreadPool :=
  match workers p !! i with
  | Some Top =>
      match tasks_ p with
      | t :: r => Some (with_workers (<[i := Popped t]> (workers p))
                    (with_queue r (accepted p) (started p ++ [t]) (notifiers p) p))
      | [] => if stop_ p then Some (with_workers (<[i := Exited]> (workers p)) p)
              else Some (with_workers (<[i := Blocked]> (workers p)) p)
      end
  | _ => None
  end.

(** The unlocked steps of [worker_loop], one atomic operation each. *)
Definition worker_next (i : nat) (who : option nat) (p : ThreadPool) : option ThreadPool :=
  match workers p !! i with
  | Some (Popped t) =>
      Some (with_workers (<[i := InTask t]> (workers p))
        (with_counters (pending_count_ p) (u64 (active_tasks_ p + 1)) (completed_ p) p))
  | Some (InTask t) =>
      Some (with_workers (<[i := AfterTask]> (workers p)) (with_ran (ran p ++ [t]) p))
  | Some AfterTask =>
      Some (with_workers (<[i := AfterActive]> (workers p))
        (with_counters (pending_count_ p) (u64 (active_tasks_ p - 1)) (completed_ p) p))
  | Some AfterActive =>
      Some (with_workers (<[i := AfterCompleted]> (workers p))
        (with_counters (pending_count_ p) (active_tasks_ p) (u64 (completed_ p + 1)) p))
  | Some AfterCompleted =>
      Some (with_workers (<[i := AfterPending]> (workers p))
        (with_counters (u64 (pending_count_ p - 1)) (active_tasks_ p) (completed_ p) p))
  | Some AfterPending =>
      ds ← notify_one_drain who (drainers p);
      Some (with_workers (<[i := Top]> (workers p)) (with_drainers ds p))
  | _ => None
  end.

(** [drain]: the predicate, evaluated under [mux_]. *)
Definition drained (p : ThreadPool) : bool :=
  match tasks_ p with [] => active_tasks_ p =? 0 | _ => false end.

Definition drain_check (j : nat) (p : ThreadPool) : option ThreadPool :=
  match drainers p !! j with
  | Some DTop =>
      Some (with_drainers (<[j := if drained p then DReturned else DChecked]> (drainers p)) p)
  | _ => None
  end.
Definition drain_block (j : nat) (p : ThreadPool) : option ThreadPool :=
  match drainers p !! j with
  | Some DChecked => Some (with_drainers (<[j := DBlocked]> (drainers p)) p)
  | _ => None
  end.

(** The destructor. *)
Definition dtor_stop (p : ThreadPool) : option ThreadPool :=
  match dtor p with Alive => Some (with_dtor true StopSet p) | _ => None end.
Definition dtor_notify_all (p : ThreadPool) : option ThreadPool :=
  match dtor p with
  | StopSet => Some (with_workers ((fun w => if is_blocked w then Top else w) <$> workers p)
                       (with_dtor (stop_ p) Notified p))
  | _ => None
  end.
Definition dtor_join (p : ThreadPool) : option ThreadPool :=
  match dtor p with
  | Notified => if forallb (fun w => match w with Exited => true | _ => false end) (workers p)
                then Some (with_dtor (stop_ p) Joined p) else None
  | _ => None
  end.

(** ** Steps *)

Inductive pool_event :=
  | EvEnqueue (t : T)
  | EvNotify (who : option nat)
  | EvLock (i : nat)
  | EvNext (i : nat) (who : option nat)
  | EvSpurious (i : nat)
  | EvDrain                        (* a thread calls drain *)
  | EvDrainCheck (j : nat)
  | EvDrainBlock (j : nat)
  | EvDrainSpurious (j : nat)
  | EvStop
  | EvNotifyAll
  | EvJoin.

Definition pool_step (p : ThreadPool) (ev : pool_event) : option ThreadPool :=
  match ev with
  | EvEnqueue t => if mux_free p then enqueue t p else None
  | EvNotify who => enqueue_notify who p
  | EvLock i => if mux_free p then worker_lock i p else None
  | EvNext i who => worker_next i who p
  | EvSpurious i =>
      match workers p !! i with
      | Some Blocked => Some (with_workers (<[i := Top]> (workers p)) p)
      | _ => None
      end
  | EvDrain => Some (with_drainers (drainers p ++ [DTop]) p)
  | EvDrainCheck j => if mux_free p then drain_check j p else None
  | EvDrainBlock j => drain_block j p
  | EvDrainSpurious j =>
      match drainers p !! j with
      | Some DBlocked => Some (with_drainers (<[j := DTop]> (drainers p)) p)
      | _ => None
      end
  | EvStop => if mux_free p then dtor_stop p else None
  | EvNotifyAll => dtor_notify_all p
  | EvJoin => dtor_join p
  end.

Definition pool_trans : ThreadPool -> ThreadPool -> Prop := steps_to pool_step.

(** The observers. *)
Definition active_count (p : ThreadPool) : Z := num_threads_ p.
Definition pending_count (p : ThreadPool) : Z := pending_count_ p.
Definition total_completed (p : ThreadPool) : Z := completed_ p.
End pool.

Arguments worker T : clear implicits.
Arguments ThreadPool T : clear implicits.
Arguments pool_event T : clear implicits.

(** ** Counting workers *)

Fixpoint wsum {A} (f : A -> Z) (ws : list A) : Z :=
  match ws with
  | [] => 0
  | w :: ws => f w + wsum f ws
  end.

Lemma wsum_app {A} (f : A -> Z) a b : wsum f (a ++ b) = wsum f a + wsum f b.
Proof. induction a; cbn; lia. Qed.

Lemma wsum_insert {A} (f : A -> Z) ws i w v :
  ws !! i = Some w -> wsum f (<[i := v]> ws) = wsum f ws - f w + f v.
Proof.
  intros Hi. rewrite insert_take_drop by (by eapply lookup_lt_Some).
  rewrite <- (take_drop_middle ws i w Hi) at 3. rewrite !wsum_app. cbn. lia.
Qed.

Lemma wsum_nonneg {A} (f : A -> Z) ws : (forall w, 0 <= f w) -> 0 <= wsum f ws.
Proof. intros Hf. induction ws as [|w ws IH]; cbn; [lia|]. specialize (Hf w). lia. Qed.

Lemma wsum_const {A} (f : A -> Z) ws z : Forall (fun w => f w = z) ws -> wsum f ws = z * len ws.
Proof.
  induction 1 as [|w ws Hw _ IH]; cbn; [unfold len; cbn; lia|].
  rewrite IH, Hw, len_cons. ring.
Qed.

Section invariant.
Context {T : Type}.
Implicit Types (p : ThreadPool T) (w : worker T).

Definition hand w : list T := match w with Popped t | InTask t => [t] | _ => [] end.
Definition in_hand (ws : list (worker T)) : list T := ws ≫= hand.

(** Does the worker count in [active_tasks_], in [pending_count_], as one that
    has finished a task not yet in [completed_], as one that still moves? *)
Definition counts_active w : Z := match w with InTask _ | AfterTask => 1 | _ => 0 end.
Definition counts_pending w : Z :=
  match w with Popped _ | InTask _ | AfterTask | AfterActive | AfterCompleted => 1 | _ => 0 end.
Definition counts_late w : Z := match w with AfterTask | AfterActive => 1 | _ => 0 end.
Definition awake w : bool := match w with Blocked | Exited => false | _ => true end.

Record pool_inv p : Prop := {
  pi_fifo : accepted p = started p ++ tasks_ p;
  pi_ran : started p ≡ₚ ran p ++ in_hand (workers p);
  pi_pending : pending_count_ p = u64 (len (tasks_ p) + wsum counts_pending (workers p));
  pi_active : active_tasks_ p = u64 (wsum counts_active (workers p));
  pi_completed : completed_ p = u64 (len (ran p) - wsum counts_late (workers p));
  pi_threads : len (workers p) = num_threads_ p;
  pi_positive : 0 < num_threads_ p;
  pi_awake : tasks_ p <> [] -> (0 < notifiers p)%nat \/ exists i w, workers p !! i = Some w /\ awake w = true;
  pi_exited : Exited ∈ workers p -> stop_ p = true /\ tasks_ p = [];
  pi_stop : stop_ p = true <-> dtor p <> Alive;
  pi_notified : dtor p = Notified \/ dtor p = Joined -> Blocked ∉ workers p;
  pi_joined : dtor p = Joined -> Forall (eq Exited) (workers p)
}.

Lemma in_hand_insert ws i w v :
  ws !! i = Some w -> in_hand (<[i := v]> ws) ++ hand w ≡ₚ in_hand ws ++ hand v.
Proof.
  intros Hi. rewrite insert_take_drop by (by eapply lookup_lt_Some).
  rewrite <- (take_drop_middle ws i w Hi) at 3. unfold in_hand.
  rewrite !bind_app. cbn. rewrite <- !app_assoc. apply Permutation_app_head.
  rewrite (Permutation_app_comm (hand v)), (app_assoc (hand w)).
  by apply Permutation_app_tail, Permutation_app_comm.
Qed.

(** Replacing a worker that holds the same tasks leaves the hands alone. *)
Lemma in_hand_same ws i w v :
  ws !! i = Some w -> hand w = hand v -> in_hand (<[i := v]> ws) ≡ₚ in_hand ws.
Proof.
  intros Hi Hh. pose proof (in_hand_insert ws i w v Hi) as H. rewrite Hh in H.
  by apply Permutation_app_inv_r in H.
Qed.

Lemma elem_of_insert_inv (ws : list (worker T)) i v x :
  x ∈ <[i := v]> ws -> x = v \/ x ∈ ws.
Proof.
  intros [j [(_ & -> & _)|[_ Hj]]%list_lookup_insert_Some]%list_elem_of_lookup_1; [by left|].
  right. by eapply list_elem_of_lookup_2.
Qed.

Lemma u64_mod z z' : z mod 2 ^ 64 = z' mod 2 ^ 64 -> u64 z = u64 z'.
Proof. done. Qed.

Lemma u64_step a b : u64 (u64 a + b) = u64 (a + b).
Proof. unfold u64, wrap. by rewrite Zplus_mod_idemp_l. Qed.

Lemma u64_step_minus a b : u64 (u64 a - b) = u64 (a - b).
Proof. unfold u64, wrap. by rewrite Zminus_mod_idemp_l. Qed.

(** The initial number of workers is positive. *)
Lemma pool_threads_pos n h : 0 <= n -> 0 <= h -> 0 < pool_threads n h.
Proof. unfold pool_threads. dec; lia. Qed.
Lemma pool_init_inv n h : 0 <= n -> 0 <= h -> pool_inv (ThreadPool_init (T := T) n h).
Proof.
  intros Hn Hh. unfold ThreadPool_init.
  assert (forall f : worker T -> Z, f Top = 0 -> forall k, wsum f (replicate k Top) = 0) as Hw.
  { intros f Hf k. induction k as [|k IH]; cbn; [done|]. rewrite Hf. exact IH. }
  assert (forall k x, x ∈ replicate k (@Top T) -> x = Top) as Hr.
  { intros k x Hx. by apply elem_of_replicate in Hx as [-> _]. }
  split; cbn; rewrite ?Hw by done; try done.
  - clear. induction (Z.to_nat _) as [|k IH]; [done|exact IH].
  - unfold len. rewrite length_replicate. unfold pool_threads. dec; lia.
  - by apply pool_threads_pos.
  - intros Hx. by apply Hr in Hx.
  - intros [?|?]; done.
Qed.

(** A worker moves on and stays awake: what is left to show is the counters
    and the tasks in hand. *)
Lemma pool_inv_move p p' i w v :
  pool_inv p -> workers p !! i = Some w -> w <> Exited -> awake v = true ->
  workers p' = <[i := v]> (workers p) -> accepted p' = accepted p -> stop_ p' = stop_ p ->
  dtor p' = dtor p -> num_threads_ p' = num_threads_ p ->
  started p' ++ tasks_ p' = started p ++ tasks_ p -> (tasks_ p = [] -> tasks_ p' = []) ->
  (started p' ≡ₚ ran p' ++ in_hand (workers p') /\
   pending_count_ p' = u64 (len (tasks_ p') + wsum counts_pending (workers p')) /\
   active_tasks_ p' = u64 (wsum counts_active (workers p')) /\
   completed_ p' = u64 (len (ran p') - wsum counts_late (workers p'))) ->
  pool_inv p'.
Proof.
  intros [] Hi Hw Hv Ew Ea Es Ed En Ef Et (H1 & H2 & H3 & H4).
  assert (forall x, x ∈ workers p' -> awake x = false -> x ∈ workers p) as Hx.
  { rewrite Ew. intros x [->|?]%elem_of_insert_inv; [congruence|done]. }
  split; auto.
  - congruence.
  - rewrite Ew, En. unfold len. by rewrite length_insert.
  - by rewrite En.
  - intros _. right. exists i, v. rewrite Ew. split; [|done].
    apply list_lookup_insert_eq. by eapply lookup_lt_Some.
  - intros He. rewrite Es. destruct (pi_exited0 (Hx _ He eq_refl)); auto.
  - by rewrite Es, Ed.
  - rewrite Ed. intros Hd He. by apply (pi_notified0 Hd), Hx.
  - rewrite Ed. intros Hd. specialize (pi_joined0 Hd). rewrite Forall_lookup in pi_joined0.
    by specialize (pi_joined0 _ _ Hi).
Qed.

(** A worker leaves for the condition variable or for good: it held nothing. *)
Lemma pool_inv_leave p i v :
  pool_inv p -> workers p !! i = Some Top -> tasks_ p = [] ->
  v = Blocked /\ stop_ p = false \/ v = Exited /\ stop_ p = true ->
  pool_inv (with_workers (<[i := v]> (workers p)) p).
Proof.
  intros [] Hi Et Hv.
  assert (hand v = [] /\ counts_active v = 0 /\ counts_pending v = 0 /\ counts_late v = 0)
    as (Hh & Ha & Hp & Hl) by (by destruct Hv as [[-> _]|[-> _]]).
  split; cbn; auto; rewrite ?(wsum_insert _ _ _ _ _ Hi), ?Ha, ?Hp, ?Hl, ?Z.sub_0_r, ?Z.add_0_r;
    auto; try done.
  - by rewrite (in_hand_same _ _ _ _ Hi) by (by rewrite Hh).
  - unfold len in *. by rewrite length_insert.
  - intros He. apply elem_of_insert_inv in He as [<-|He]; [|auto].
    by destruct Hv as [[? _]|[_ ?]].
  - intros Hd He. apply elem_of_insert_inv in He as [<-|He]; [|by apply (pi_notified0 Hd)].
    destruct Hv as [[_ Hs]|[? _]]; [|done].
    assert (stop_ p = true) by (apply pi_stop0; destruct Hd as [-> | ->]; done). congruence.
  - intros Hd. specialize (pi_joined0 Hd). rewrite Forall_lookup in pi_joined0.
    by specialize (pi_joined0 _ _ Hi).
Qed.

(** Close the four remaining obligations of [pool_inv_move]. *)
Local Ltac counters Hinv Hi :=
  destruct Hinv; cbn; rewrite ?(wsum_insert _ _ _ _ _ Hi); cbn;
  split_and!;
  [|match goal with H : pending_count_ _ = _ |- _ => rewrite ?H end
   |match goal with H : active_tasks_ _ = _ |- _ => rewrite ?H end
   |match goal with H : completed_ _ = _ |- _ => rewrite ?H end];
  rewrite ?u64_step, ?u64_step_minus; unfold len; rewrite ?length_app; cbn;
  try (f_equal; lia).

Lemma worker_lock_inv p i p' : pool_inv p -> worker_lock i p = Some p' -> pool_inv p'.
Proof.
  intros Hinv E. unfold worker_lock in E.
  destruct (workers p !! i) as [[]|] eqn:Hi; try done.
  destruct (tasks_ p) as [|t r] eqn:Et.
  - destruct (stop_ p) eqn:Es; simplify_eq; apply pool_inv_leave; auto.
  - simplify_eq. eapply (pool_inv_move p _ i Top (Popped t)); try done.
    + cbn. by rewrite Et, <- app_assoc.
    + congruence.
    + counters Hinv Hi.
      * pose proof (in_hand_insert _ _ _ (Popped t) Hi) as H. cbn in H.
        rewrite app_nil_r in H. by rewrite H, app_assoc, <- pi_ran0.
      * rewrite Et. cbn. f_equal. lia.
Qed.

Lemma worker_next_inv p i who p' : pool_inv p -> worker_next i who p = Some p' -> pool_inv p'.
Proof.
  intros Hinv E. unfold worker_next in E.
  destruct (workers p !! i) as [w|] eqn:Hi; [|done].
  destruct w as [| |t|t| | | | |]; try done.
  1-5: injection E as <-; eapply (pool_inv_move p _ i _ _ Hinv Hi); try done; [done|];
    counters Hinv Hi.
  - by rewrite (in_hand_same _ _ _ _ Hi).
  - pose proof (in_hand_insert _ _ _ AfterTask Hi) as H. cbn in H. rewrite app_nil_r in H.
    by rewrite <- app_assoc, (Permutation_app_comm [t]), H.
  - by rewrite (in_hand_same _ _ _ _ Hi).
  - by rewrite (in_hand_same _ _ _ _ Hi).
  - by rewrite (in_hand_same _ _ _ _ Hi).
  - destruct (notify_one_drain who (drainers p)) as [ds|]; [|done]. injection E as <-.
    eapply (pool_inv_move p _ i _ _ Hinv Hi); try done; [done|]. counters Hinv Hi.
    by rewrite (in_hand_same _ _ _ _ Hi).
Qed.

Lemma wake_inv p i : pool_inv p -> workers p !! i = Some Blocked ->
  pool_inv (with_workers (<[i := Top]> (workers p)) p).
Proof.
  intros Hinv Hi. eapply (pool_inv_move p _ i _ _ Hinv Hi); try done; [done|]. counters Hinv Hi.
  by rewrite (in_hand_same _ _ _ _ Hi).
Qed.

Lemma enqueue_inv t p p' : pool_inv p -> enqueue t p = Some p' -> pool_inv p'.
Proof.
  intros [] E. unfold enqueue in E. destruct (stop_ p) eqn:Es; [done|]. injection E as <-.
  split; cbn; auto; try done.
  - by rewrite app_assoc, pi_fifo0.
  - rewrite pi_pending0, u64_step, len_app. f_equal. unfold len. cbn. lia.
  - intros _. left. lia.
  - intros He. destruct (pi_exited0 He). congruence.
  - by rewrite Es.
Qed.

Lemma enqueue_notify_inv p who p' : pool_inv p -> enqueue_notify who p = Some p' -> pool_inv p'.
Proof.
  intros Hinv E. unfold enqueue_notify in E.
  destruct (notifiers p) as [|n]; [done|]. destruct who as [i|]; cbn in E.
  - destruct (workers p !! i) as [[]|] eqn:Hi; try done. injection E as <-.
    destruct (wake_inv p i Hinv Hi). split; auto. intros _. right. exists i, Top. cbn.
    split; [|done]. apply list_lookup_insert_eq. by eapply lookup_lt_Some.
  - destruct (existsb is_blocked (workers p)) eqn:Eb; [done|]. injection E as <-.
    destruct Hinv. split; auto. cbn. intros Ht. right.
    destruct (lookup_lt_is_Some_2 (workers p) 0) as [w Hw]; [unfold len in *; lia|].
    exists O, w. split; [done|]. destruct w; try done.
    + exfalso. rewrite <- not_true_iff_false, existsb_exists in Eb. apply Eb.
      exists Blocked. split; [|done]. apply list_elem_of_In. by eapply list_elem_of_lookup_2.
    + apply list_elem_of_lookup_2 in Hw. by destruct (pi_exited0 Hw).
Qed.

Lemma dtor_notify_all_inv p p' : pool_inv p -> dtor_notify_all p = Some p' -> pool_inv p'.
Proof.
  intros [] E. unfold dtor_notify_all in E. destruct (dtor p) eqn:Ed; try done. injection E as <-.
  set (wake := fun w : worker T => if is_blocked w then Top else w).
  assert (forall f : worker T -> Z, f Blocked = 0 -> f Top = 0 ->
    wsum f (wake <$> workers p) = wsum f (workers p)) as Hs.
  { intros f Hb Ht. clear -Hb Ht. induction (workers p) as [|w ws IH]; cbn; [done|].
    rewrite IH. destruct w; cbn; lia. }
  assert (in_hand (wake <$> workers p) = in_hand (workers p)) as Hh.
  { clear. unfold in_hand. induction (workers p) as [|w ws IH]; cbn; [done|].
    rewrite IH. by destruct w. }
  split; cbn; rewrite ?Hs, ?Hh by done; auto; try done.
  - unfold in_hand in Hh. by rewrite Hh.
  - rewrite <- pi_threads0. unfold len. f_equal. apply length_fmap.
  - intros Ht. destruct (pi_awake0 Ht) as [|(i & w & Hi & Hw)]; [by left|right].
    exists i, (wake w). rewrite list_lookup_fmap, Hi. split; [done|]. by destruct w.
  - intros (w & Ew & Hw)%list_elem_of_fmap_1. destruct w; try done. auto.
  - rewrite pi_stop0. by split.
  - intros _ (w & Ew & Hw)%list_elem_of_fmap_1. by destruct w.
Qed.

Lemma dtor_join_inv p p' : pool_inv p -> dtor_join p = Some p' -> pool_inv p'.
Proof.
  intros [] E. unfold dtor_join in E. destruct (dtor p) eqn:Ed; try done.
  destruct (forallb _ _) eqn:Ef; [|done]. injection E as <-. split; cbn; auto.
  - rewrite pi_stop0. by split.
  - intros _. rewrite forallb_forall in Ef. apply Forall_forall. intros w Hw.
    apply list_elem_of_In in Hw. specialize (Ef _ Hw). by destruct w.
Qed.

Lemma pool_step_inv p ev p' : pool_inv p -> pool_step p ev = Some p' -> pool_inv p'.
Proof.
  intros Hinv E. destruct ev; cbn in E.
  - destruct (mux_free p); [|done]. by eapply enqueue_inv.
  - by eapply enqueue_notify_inv.
  - destruct (mux_free p); [|done]. by eapply worker_lock_inv.
  - by eapply worker_next_inv.
  - destruct (workers p !! i) as [[]|] eqn:Hi; try done. injection E as <-. by apply wake_inv.
  - injection E as <-. by destruct Hinv.
  - destruct (mux_free p); [|done]. unfold drain_check in E. split_match E; try done.
    all: injection E as <-; by destruct Hinv.
  - unfold drain_block in E. split_match E; try done. injection E as <-. by destruct Hinv.
  - split_match E; try done. injection E as <-. by destruct Hinv.
  - destruct (mux_free p); [|done]. unfold dtor_stop in E. destruct (dtor p) eqn:Ed; try done.
    injection E as <-. destruct Hinv. split; auto; cbn; try done.
    + intros He. by destruct (pi_exited0 He).
    + by intros [|].
  - by eapply dtor_notify_all_inv.
  - by eapply dtor_join_inv.
Qed.
End invariant.

(** ** Progress *)

Section progress.
Context {T : Type}.
Implicit Types (p : ThreadPool T) (w : worker T).

Definition worker_weight w : Z :=
  match w with
  | Blocked | Exited => 0 | Top => 1 | AfterPending => 4 | AfterCompleted => 5
  | AfterActive => 6 | AfterTask => 7 | InTask _ => 8 | Popped _ => 9
  end.
Definition drainer_weight (d : drainer) : Z :=
  match d with DTop => 2 | DChecked => 1 | DBlocked | DReturned => 0 end.

Definition pool_work p : Z :=
  10 * len (tasks_ p) + 2 * Z.of_nat (notifiers p) +
  wsum worker_weight (workers p) + wsum drainer_weight (drainers p).

(** The steps of the threads already inside the pool: not new calls, not the
    destructor, and not spurious wake-ups. *)
Definition is_internal (ev : pool_event T) : Prop :=
  match ev with
  | EvNotify _ | EvLock _ | EvNext _ _ | EvDrainCheck _ | EvDrainBlock _ => True
  | _ => False
  end.

Lemma pool_work_nonneg p : 0 <= pool_work p.
Proof.
  unfold pool_work. pose proof (len_nonneg (tasks_ p)).
  pose proof (wsum_nonneg worker_weight (workers p)) as Hw.
  pose proof (wsum_nonneg drainer_weight (drainers p)) as Hd.
  enough (0 <= wsum worker_weight (workers p) /\ 0 <= wsum drainer_weight (drainers p)) by lia.
  split; [apply Hw|apply Hd]; intros []; cbn; lia.
Qed.

Lemma notify_one_drain_weight who ds ds' :
  notify_one_drain who ds = Some ds' -> wsum drainer_weight ds' <= wsum drainer_weight ds + 2.
Proof.
  unfold notify_one_drain. destruct who as [j|].
  - destruct (ds !! j) as [[]|] eqn:Hj; try done. intros E. simplify_eq.
    rewrite (wsum_insert _ _ _ _ _ Hj). cbn. lia.
  - destruct (existsb _ _); [done|]. intros E. simplify_eq. lia.
Qed.

Lemma pool_work_decreases p ev p' :
  is_internal ev -> pool_step p ev = Some p' -> pool_work p' < pool_work p.
Proof.
  intros Hi E. destruct ev as [|who|i|i who| | |j|j| | | |]; try done; cbn in E; unfold pool_work.
  - unfold enqueue_notify in E. destruct (notifiers p) as [|n]; [done|].
    destruct who as [i|]; cbn in E.
    + destruct (workers p !! i) as [[]|] eqn:Hw; try done. cbn in E. simplify_eq. cbn.
      rewrite (wsum_insert _ _ _ _ _ Hw). cbn. lia.
    + destruct (existsb _ _); [done|]. cbn in E. simplify_eq. cbn. lia.
  - destruct (mux_free p); [|done]. unfold worker_lock in E.
    destruct (workers p !! i) as [[]|] eqn:Hw; try done.
    destruct (tasks_ p) as [|t r] eqn:Et; [destruct (stop_ p)|]; simplify_eq; cbn;
      rewrite (wsum_insert _ _ _ _ _ Hw), ?Et; cbn; rewrite ?len_cons; lia.
  - unfold worker_next in E. destruct (workers p !! i) as [[]|] eqn:Hw; try done.
    6: destruct (notify_one_drain who (drainers p)) as [ds|] eqn:Ed; [|done];
       apply notify_one_drain_weight in Ed.
    all: cbn in E; simplify_eq; cbn; rewrite (wsum_insert _ _ _ _ _ Hw); cbn; lia.
  - destruct (mux_free p); [|done]. unfold drain_check in E.
    destruct (drainers p !! j) as [[]|] eqn:Hd; try done. simplify_eq. cbn.
    rewrite (wsum_insert _ _ _ _ _ Hd). destruct (drained p); cbn; lia.
  - unfold drain_block in E. destruct (drainers p !! j) as [[]|] eqn:Hd; try done.
    simplify_eq. cbn. rewrite (wsum_insert _ _ _ _ _ Hd). cbn. lia.
Qed.

Definition stuck p : Prop := forall ev, is_internal ev -> pool_step p ev = None.

Lemma forallb_false_lookup {A} (f : A -> bool) l :
  forallb f l = false -> exists i x, l !! i = Some x /\ f x = false.
Proof.
  induction l as [|x l IH]; cbn; [done|]. rewrite andb_false_iff. intros [?|H].
  - by exists O, x.
  - destruct (IH H) as (i & y & ? & ?). by exists (S i), y.
Qed.

(** A condition variable always has a legal choice for [notify_one]. *)
Lemma notify_choice (ws : list (worker T)) : exists who ws', notify_one who ws = Some ws'.
Proof.
  destruct (existsb is_blocked ws) eqn:E.
  - apply existsb_exists in E as (w & Hw & Hb). destruct w; try done.
    apply list_elem_of_In, list_elem_of_lookup_1 in Hw as [i Hi].
    exists (Some i). cbn. rewrite Hi. eauto.
  - exists None. cbn. rewrite E. eauto.
Qed.

Lemma notify_drain_choice ds : exists who ds', notify_one_drain who ds = Some ds'.
Proof.
  destruct (existsb is_dblocked ds) eqn:E.
  - apply existsb_exists in E as (d & Hd & Hb). destruct d; try done.
    apply list_elem_of_In, list_elem_of_lookup_1 in Hd as [j Hj].
    exists (Some j). cbn. rewrite Hj. eauto.
  - exists None. cbn. rewrite E. eauto.
Qed.

Lemma stuck_mux p : stuck p -> mux_free p = true.
Proof.
  intros Hs. destruct (mux_free p) eqn:E; [done|]. exfalso.
  apply forallb_false_lookup in E as (j & d & Hj & Hd). destruct d; try done.
  specialize (Hs (EvDrainBlock j) I). cbn in Hs. unfold drain_block in Hs. by rewrite Hj in Hs.
Qed.

(** Stuck workers are asleep or gone. *)
Lemma stuck_workers p i w : stuck p -> workers p !! i = Some w -> w = Blocked \/ w = Exited.
Proof.
  intros Hs Hi. pose proof (stuck_mux p Hs) as Hm.
  destruct w; auto; exfalso.
  - specialize (Hs (EvLock i) I). cbn in Hs. unfold worker_lock in Hs.
    rewrite Hm, Hi in Hs. destruct (tasks_ p); [destruct (stop_ p)|]; done.
  - specialize (Hs (EvNext i None) I). cbn in Hs. unfold worker_next in Hs. by rewrite Hi in Hs.
  - specialize (Hs (EvNext i None) I). cbn in Hs. unfold worker_next in Hs. by rewrite Hi in Hs.
  - specialize (Hs (EvNext i None) I). cbn in Hs. unfold worker_next in Hs. by rewrite Hi in Hs.
  - specialize (Hs (EvNext i None) I). cbn in Hs. unfold worker_next in Hs. by rewrite Hi in Hs.
  - specialize (Hs (EvNext i None) I). cbn in Hs. unfold worker_next in Hs. by rewrite Hi in Hs.
  - destruct (notify_drain_choice (drainers p)) as (who & ds & Hd).
    specialize (Hs (EvNext i who) I). cbn in Hs. unfold worker_next in Hs.
    by rewrite Hi, Hd in Hs.
Qed.

(** No worker between two iterations of its loop: nothing is in hand and the
    counters are exact. *)
Lemma idle_counts p :
  pool_inv p -> Forall (fun w => w = Blocked \/ w = Exited) (workers p) ->
  started p ≡ₚ ran p /\ pending_count_ p = u64 (len (tasks_ p)) /\ active_tasks_ p = 0 /\
  completed_ p = u64 (len (ran p)).
Proof.
  intros [] Hw.
  assert (forall f : worker T -> Z, f Blocked = 0 -> f Exited = 0 -> wsum f (workers p) = 0) as Hz.
  { intros f Hb He. rewrite (wsum_const f _ 0); [lia|].
    eapply Forall_impl; [exact Hw|]. by intros w [-> | ->]. }
  assert (in_hand (workers p) = []) as Hh.
  { clear -Hw. unfold in_hand. induction Hw as [|w ws [-> | ->] _ IH]; done. }
  rewrite Hz in pi_pending0, pi_active0, pi_completed0 by done.
  rewrite Hh, app_nil_r in pi_ran0. rewrite Z.add_0_r in pi_pending0.
  rewrite Z.sub_0_r in pi_completed0. by split_and!.
Qed.

Lemma stuck_done p :
  pool_inv p -> stuck p ->
  Forall (fun w => w = Blocked \/ w = Exited) (workers p) /\ tasks_ p = [] /\ notifiers p = O.
Proof.
  intros Hinv Hs.
  assert (notifiers p = O) as Hn.
  { destruct (notifiers p) as [|n] eqn:En; [done|]. exfalso.
    destruct (notify_choice (workers p)) as (who & ws & Hw).
    specialize (Hs (EvNotify who) I). cbn in Hs. unfold enqueue_notify in Hs.
    rewrite En, Hw in Hs. done. }
  split_and!; [|destruct (tasks_ p) eqn:Et; [done|exfalso]|done].
  - apply Forall_lookup. intros i w Hi. by eapply stuck_workers.
  - destruct (pi_awake p Hinv) as [?|(i & w & Hi & Hw)]; [by rewrite Et|lia|].
    destruct (stuck_workers p i w Hs Hi) as [-> | ->]; done.
Qed.
End progress.

(** ** Theorems *)

Definition pool_reachable {T} (p : ThreadPool T) : Prop :=
  exists n h, 0 <= n /\ 0 <= h /\ rtc pool_trans (ThreadPool_init n h) p.

Lemma pool_reachable_inv {T} (p : ThreadPool T) : pool_reachable p -> pool_inv p.
Proof.
  intros (n & h & Hn & Hh & Hr).
  eapply (steps_invariant pool_step pool_inv); [|exact Hr|by apply pool_init_inv].
  eauto using pool_step_inv.
Qed.

Lemma pool_run_reachable {T} n h evs :
  0 <= n -> 0 <= h ->
  pool_reachable (default (ThreadPool_init (T := T) n h) (run pool_step evs (ThreadPool_init n h))).
Proof. intros. exists n, h. split_and!; [done..|]. apply run_reachable. Qed.

(** A pool of two threads working on two tasks. *)
Definition pool_busy : ThreadPool Z :=
  default (ThreadPool_init 2 8) (run pool_step
    [EvLock 0; EvEnqueue 10; EvEnqueue 11; EvNotify (Some 0%nat); EvNotify None; EvLock 0; EvNext 0 None;
     EvNext 0 None; EvNext 0 None; EvLock 1] (ThreadPool_init 2 8)).

Lemma pool_busy_reachable : pool_reachable pool_busy.
Proof. by apply pool_run_reachable. Qed.

(** C11: each task runs at most once, in FIFO order, and the statistics are
    exact.  Tasks are started in the order in which [enqueue] accepted them; a
    started task has run or is in the hands of exactly one worker; [active_tasks_]
    is the number of workers inside a task's bracket, and once no worker is in
    the middle of an iteration [total_completed] is the number of tasks run and
    [pending_count] the number queued. *)
Theorem pool_runs_fifo_once {T} (p : ThreadPool T) :
  pool_reachable p ->
  started p `prefix_of` accepted p /\
  accepted p = started p ++ tasks_ p /\
  started p ≡ₚ ran p ++ in_hand (workers p) /\
  ran p ⊆+ accepted p /\
  (num_threads_ p < 2 ^ 64 -> active_tasks_ p = wsum counts_active (workers p)) /\
  (Forall (fun w => w = Blocked \/ w = Exited) (workers p) ->
   pending_count p = u64 (len (tasks_ p)) /\ total_completed p = u64 (len (ran p))).
Proof.
  intros Hr. pose proof (pool_reachable_inv p Hr) as Hinv.
  pose proof (idle_counts p Hinv) as Hidle. destruct Hinv. split_and!.
  - rewrite pi_fifo0. by eexists.
  - done.
  - done.
  - rewrite pi_fifo0, pi_ran0. rewrite <- app_assoc. by apply submseteq_inserts_r.
  - intros Hn. rewrite pi_active0. apply wrap_small. rewrite <- pi_threads0 in Hn. clear -Hn.
    assert (0 <= wsum counts_active (workers p) <= len (workers p)); [|lia].
    clear Hn. induction (workers p) as [|w ws IH]; cbn; [unfold len; cbn; lia|].
    rewrite len_cons. destruct w; cbn; lia.
  - intros Hw. unfold pending_count, total_completed. destruct (Hidle Hw) as (_ & ? & _ & ?). done.
Qed.

Lemma pool_runs_fifo_once_witness :
  accepted pool_busy = started pool_busy ++ tasks_ pool_busy /\
  ran pool_busy = [10] /\ active_tasks_ pool_busy = 0 /\ workers pool_busy = [AfterActive; Popped 11].
Proof.
  split_and!; [apply (pool_runs_fifo_once pool_busy pool_busy_reachable)|by vm_compute..].
Defined.

(** C10: no task is forgotten.  Every step a thread inside the pool can take
    consumes a bounded amount of work, so between two calls from outside the
    pool comes to rest; and it is at rest only when the queue is empty, every
    accepted task has run exactly once, [pending_count] is 0 and
    [total_completed] counts every task ever accepted.  No wake-up of a worker
    is ever lost. *)
Theorem pool_completes_all {T} (p : ThreadPool T) :
  pool_reachable p ->
  (forall ev p', is_internal ev -> pool_step p ev = Some p' ->
     0 <= pool_work p' < pool_work p) /\
  (stuck p ->
     tasks_ p = [] /\ ran p ≡ₚ accepted p /\ pending_count p = 0 /\
     total_completed p = u64 (len (accepted p))).
Proof.
  intros Hr. pose proof (pool_reachable_inv p Hr) as Hinv. split.
  - intros ev p' Hi E. split; [apply pool_work_nonneg|by eapply pool_work_decreases].
  - intros Hs. destruct (stuck_done p Hinv Hs) as (Hw & Ht & _).
    destruct (idle_counts p Hinv Hw) as (Hrun & Hp & _ & Hc).
    pose proof (pi_fifo p Hinv) as Hf. rewrite Ht, app_nil_r in Hf.
    split_and!; [done|by rewrite Hf, Hrun|by rewrite Ht in Hp|].
    unfold total_completed. rewrite Hc, Hf. unfold len. by rewrite Hrun.
Qed.

Lemma pool_completes_all_witness :
  pool_work (default pool_busy (pool_step pool_busy (EvNext 1 None))) < pool_work pool_busy.
Proof.
  apply (pool_completes_all pool_busy pool_busy_reachable) with (EvNext 1 None); [exact I|].
  by vm_compute.
Defined.

(** C27: graceful shutdown.  When the destructor has joined its workers, every
    task accepted before the stop has run exactly once and none is left; from
    the moment [stop_] is set every [enqueue] throws; and while the destructor
    waits, the workers can always move until all have exited. *)
Theorem pool_shutdown_drains {T} (p : ThreadPool T) :
  pool_reachable p ->
  (dtor p = Joined -> tasks_ p = [] /\ ran p ≡ₚ accepted p) /\
  (dtor p <> Alive -> forall t, enqueue t p = None) /\
  (dtor p = Notified -> stuck p -> exists p', dtor_join p = Some p').
Proof.
  intros Hr. pose proof (pool_reachable_inv p Hr) as Hinv. split_and!.
  - intros Hd. pose proof (pi_joined p Hinv Hd) as Hw.
    assert (Forall (fun w => w = Blocked \/ w = Exited) (workers p)) as Hw'.
    { eapply Forall_impl; [exact Hw|]. intros w <-. by right. }
    destruct (idle_counts p Hinv Hw') as (Hrun & _).
    pose proof (pi_threads p Hinv). pose proof (pi_positive p Hinv).
    assert (Exited ∈ workers p) as He.
    { destruct Hw as [|w ws <- _]; [unfold len in *; cbn in *; lia|]. set_solver. }
    destruct (pi_exited p Hinv He) as [_ Ht]. split; [done|].
    by rewrite (pi_fifo p Hinv), Ht, app_nil_r, Hrun.
  - intros Hd t. apply (pi_stop p Hinv) in Hd. unfold enqueue. by rewrite Hd.
  - intros Hd Hs. destruct (stuck_done p Hinv Hs) as (Hw & _).
    unfold dtor_join. rewrite Hd.
    rewrite (proj2 (forallb_forall _ _)); [eauto|]. intros w Hin.
    apply list_elem_of_In in Hin. rewrite Forall_forall in Hw.
    destruct (Hw w Hin) as [-> | ->]; [|done].
    exfalso. by apply (pi_notified p Hinv); [left|].
Qed.

Definition pool_stopped : ThreadPool Z :=
  default (ThreadPool_init 1 8) (run pool_step
    ([EvEnqueue 10; EvNotify None; EvStop; EvNotifyAll; EvLock 0] ++
     replicate 6 (EvNext 0 None) ++ [EvLock 0; EvJoin]) (ThreadPool_init 1 8)).

Lemma pool_shutdown_drains_witness :
  dtor pool_stopped = Joined /\ ran pool_stopped ≡ₚ accepted pool_stopped /\
  accepted pool_stopped = [10].
Proof.
  split_and!; [by vm_compute| |by vm_compute].
  apply (pool_shutdown_drains pool_stopped); [by apply pool_run_reachable|by vm_compute].
Defined.

(** ** [drain] *)

(** What [drain] may conclude when it returns: its predicate does not see a
    task between [tasks_.pop()] and [active_tasks_.fetch_add(1)]. *)
Lemma drain_return {T} (p p' : ThreadPool T) j :
  pool_inv p -> num_threads_ p < 2 ^ 64 ->
  pool_step p (EvDrainCheck j) = Some p' -> drainers p' !! j = Some DReturned ->
  tasks_ p = [] /\ wsum counts_active (workers p) = 0.
Proof.
  intros Hinv Hn E Hd. cbn in E. destruct (mux_free p); [|done]. unfold drain_check in E.
  destruct (drainers p !! j) as [[]|] eqn:Hj; try done. injection E as <-. cbn in Hd.
  rewrite list_lookup_insert_eq in Hd by (by eapply lookup_lt_Some).
  destruct (drained p) eqn:Ed; [|done]. unfold drained in Ed.
  destruct (tasks_ p) eqn:Et; [|done]. split; [done|]. apply Z.eqb_eq in Ed.
  rewrite (pi_active p Hinv) in Ed. rewrite wrap_small in Ed; [done|].
  rewrite <- (pi_threads p Hinv) in Hn. clear -Hn.
  assert (0 <= wsum counts_active (workers p) <= len (workers p)); [|lia].
  clear Hn. induction (workers p) as [|w ws IH]; cbn; [unfold len; cbn; lia|].
  rewrite len_cons. destruct w; cbn; lia.
Qed.

(** What [drain] guarantees.  When a caller of [drain] returns, the queue is
    empty and every accepted task has run except those a worker has popped but
    not begun: there is at most one such task per worker. *)
Theorem drain_leaves_only_popped {T} (p p' : ThreadPool T) j :
  pool_reachable p -> num_threads_ p < 2 ^ 64 ->
  pool_step p (EvDrainCheck j) = Some p' -> drainers p' !! j = Some DReturned ->
  tasks_ p' = [] /\ accepted p' ≡ₚ ran p' ++ in_hand (workers p') /\
  (forall i t, workers p' !! i <> Some (InTask t)) /\
  len (in_hand (workers p')) <= num_threads_ p'.
Proof.
  intros Hr Hn E Hd. pose proof (pool_reachable_inv p Hr) as Hinv.
  destruct (drain_return p p' j Hinv Hn E Hd) as [Ht Ha].
  pose proof (pool_step_inv p _ p' Hinv E) as Hinv'.
  assert (tasks_ p' = tasks_ p /\ workers p' = workers p) as [Et Ew].
  { cbn in E. unfold drain_check in E. split_match E; by simplify_eq. }
  rewrite Et. split_and!; [done|..].
  - by rewrite (pi_fifo p' Hinv'), Et, Ht, app_nil_r, (pi_ran p' Hinv').
  - rewrite Ew. intros i t Hi.
    assert (forall ws : list (worker T), 0 <= wsum counts_active ws) as Hpos.
    { intros ws. apply wsum_nonneg. intros []; cbn; lia. }
    rewrite <- (take_drop_middle _ _ _ Hi), wsum_app in Ha. cbn in Ha.
    pose proof (Hpos (take i (workers p))). pose proof (Hpos (drop (S i) (workers p))). lia.
  - rewrite <- (pi_threads p' Hinv'). clear. induction (workers p') as [|w ws IH]; [done|].
    unfold in_hand in *. cbn [mbind list_bind]. rewrite len_app, len_cons.
    assert (len (hand w) <= 1) by (by destruct w). lia.
Qed.

(** The window: the worker has popped task 10, then a thread calls [drain]. *)
Definition pool_early : ThreadPool Z :=
  default (ThreadPool_init 1 8) (run pool_step
    [EvEnqueue 10; EvNotify None; EvLock 0; EvDrain] (ThreadPool_init 1 8)).
Definition pool_early' : ThreadPool Z :=
  default (ThreadPool_init 1 8) (run pool_step
    [EvEnqueue 10; EvNotify None; EvLock 0; EvDrain; EvDrainCheck 0] (ThreadPool_init 1 8)).

Lemma drain_leaves_only_popped_witness :
  drainers pool_early' !! 0%nat = Some DReturned /\
  accepted pool_early' ≡ₚ ran pool_early' ++ in_hand (workers pool_early') /\
  ran pool_early' = [] /\ in_hand (workers pool_early') = [10].
Proof.
  split_and!; [by vm_compute| |by vm_compute..].
  apply (drain_leaves_only_popped pool_early pool_early' 0);
    [by apply pool_run_reachable|by vm_compute..].
Defined.

(** The other window: a thread calls [drain] while the task runs, and the worker
    finishes between the caller's test and its sleep. *)
Definition pool_asleep : ThreadPool Z :=
  default (ThreadPool_init 1 8) (run pool_step
    ([EvEnqueue 10; EvNotify None; EvLock 0; EvNext 0 None; EvDrain; EvDrainCheck 0] ++
     replicate 5 (EvNext 0 None) ++ [EvDrainBlock 0; EvLock 0]) (ThreadPool_init 1 8)).

Lemma pool_asleep_stuck : stuck pool_asleep.
Proof.
  intros [|who|i|i who| | |j|j| | | |]; intros; try done; vm_compute.
  - by destruct i as [|[|]].
  - by destruct i as [|[|]].
  - by destruct j as [|[|]].
  - by destruct j as [|[|]].
Qed.

(** [drain] can return before a task submitted earlier has run, and it can
    also sleep for ever although everything has run.  In the first state a
    caller of [drain] has returned and the only task, accepted before the call,
    has not begun.  In the second the only task has run, the caller is asleep,
    and no thread inside the pool can ever wake it: the last worker notified
    [drain_cv_] without [mux_], between the caller's test and its sleep. *)
Theorem drain_is_unreliable :
  (exists p : ThreadPool Z, pool_reachable p /\ accepted p = [10] /\
     drainers p = [DReturned] /\ ran p = [] /\ workers p = [Popped 10]) /\
  (exists p : ThreadPool Z, pool_reachable p /\ accepted p = [10] /\
     drainers p = [DBlocked] /\ ran p = [10] /\ drained p = true /\ stuck p).
Proof.
  split.
  - exists pool_early'. split_and!; [by apply pool_run_reachable|by vm_compute..].
  - exists pool_asleep. split_and!; [by apply pool_run_reachable|by vm_compute..|].
    exact pool_asleep_stuck.
Qed.

(** ** The pool as an executor

    The server's pool is given tasks and is destroyed; nobody drains it. *)

Lemma pool_step_drainers {T} (p : ThreadPool T) ev p' :
  pool_step p ev = Some p' -> ev <> EvDrain -> drainers p = [] -> drainers p' = [].
Proof.
  intros E Hne Hd. destruct ev as [t|who|i|i who|i| |j|j|j| | |]; try done; cbn in E.
  - destruct (mux_free p); [|done]. unfold enqueue in E. destruct (stop_ p); by simplify_eq.
  - unfold enqueue_notify in E. destruct (notifiers p); [done|].
    destruct (notify_one _ _); [|done]. cbn in E. by simplify_eq.
  - destruct (mux_free p); [|done]. unfold worker_lock in E. split_match E; by simplify_eq.
  - unfold worker_next in E. rewrite Hd in E. split_match E; try done.
    all: try (by simplify_eq). destruct who as [j|]; [done|]. cbn in E. by simplify_eq.
  - split_match E; by simplify_eq.
  - destruct (mux_free p); [|done]. unfold drain_check in E. by rewrite Hd in E.
  - unfold drain_block in E. by rewrite Hd in E.
  - rewrite Hd in E. done.
  - destruct (mux_free p); [|done]. unfold dtor_stop in E. split_match E; by simplify_eq.
  - unfold dtor_notify_all in E. split_match E; by simplify_eq.
  - unfold dtor_join in E. split_match E; by simplify_eq.
Qed.

#[export] Instance pool_executor {T} (n h : Z) (Hn : 0 <= n) (Hh : 0 <= h) :
  Executor T (ThreadPool T) (pool_event T).
Proof.
  refine {|
    ex_init := ThreadPool_init n h;
    ex_submit := enqueue;
    ex_step p ev := match ev with EvEnqueue _ | EvDrain => None | _ => pool_step p ev end;
    ex_runs p ev := match ev with
                    | EvNext i _ => match workers p !! i with Some (InTask t) => Some t | _ => None end
                    | _ => None
                    end;
    ex_accepted := accepted; ex_ran := ran; ex_ok p := pool_inv p /\ drainers p = [] |}.
  - done.
  - intros t x x' E. unfold enqueue in E. destruct (stop_ x); [done|]. by simplify_eq.
  - intros x ev x' E. destruct ev; try done; cbn in E;
      unfold enqueue_notify, worker_lock, worker_next, drain_check, drain_block, dtor_stop,
        dtor_notify_all, dtor_join in E;
      split_match E; try done;
      try (destruct (notify_one _ _); [|done]); try (destruct (notify_one_drain _ _); [|done]);
      cbn in E; simplify_eq; cbn; by rewrite ?app_nil_r.
  - split; [by apply pool_init_inv|done].
  - intros t x x' [Hi Hd] E. split; [by eapply enqueue_inv|].
    unfold enqueue in E. destruct (stop_ x); by simplify_eq.
  - intros x ev x' [Hi Hd] E.
    assert (ev <> EvDrain /\ pool_step x ev = Some x') as [Hne E'] by by destruct ev.
    split; [by eapply pool_step_inv|by eapply pool_step_drainers].
  - intros x [[] _]. rewrite pi_fifo0, pi_ran0, <- app_assoc. by apply submseteq_inserts_r.
Defined.

(** What its threads may do next. *)
Definition pool_next {T} (p : ThreadPool T) : list (pool_event T) :=
  let ids := seq 0 (length (workers p)) in
  EvNotify None :: ((fun i => EvNotify (Some i)) <$> ids) ++ (EvLock <$> ids) ++ ((fun i => EvNext i None) <$> ids).

Lemma pool_next_worker {T} (p : ThreadPool T) i w :
  workers p !! i = Some w ->
  EvNotify (Some i) ∈ pool_next p /\ EvLock i ∈ pool_next p /\ EvNext i None ∈ pool_next p.
Proof.
  intros Hw%lookup_lt_Some. assert (i ∈ seq 0 (length (workers p))) as Hi by (apply elem_of_seq; lia).
  unfold pool_next. split_and!; apply list_elem_of_further; rewrite !elem_of_app, !list_elem_of_fmap; eauto 6.
Qed.

Lemma pool_next_stuck {T} (p : ThreadPool T) :
  drainers p = [] -> (forall ev, ev ∈ pool_next p -> pool_step p ev = None) -> stuck p.
Proof.
  intros Hd Hs ev Hi. destruct ev as [|[i|]|i|i who| | |j|j| | | |]; try done; cbn.
  - destruct (workers p !! i) as [w|] eqn:Hw; [by apply (Hs (EvNotify (Some i))), (pool_next_worker p i w)|].
    unfold enqueue_notify. destruct (notifiers p); [done|]. cbn. by rewrite Hw.
  - apply (Hs (EvNotify None)). by left.
  - destruct (workers p !! i) as [w|] eqn:Hw; [by apply (Hs (EvLock i)), (pool_next_worker p i w)|].
    destruct (mux_free p); [|done]. unfold worker_lock. by rewrite Hw.
  - destruct (workers p !! i) as [w|] eqn:Hw; [|unfold worker_next; by rewrite Hw].
    assert (pool_step p (EvNext i None) = None) as E0 by (by apply Hs, (pool_next_worker p i w)).
    cbn in E0. unfold worker_next in *. rewrite Hw, Hd in *. by destruct w.
  - destruct (mux_free p); [|done]. unfold drain_check. by rewrite Hd.
  - unfold drain_block. by rewrite Hd.
Qed.

Definition pool_internal {T} (ev : pool_event T) : bool :=
  match ev with EvNotify _ | EvLock _ | EvNext _ _ => true | _ => false end.

#[export] Instance pool_rests {T} n h Hn Hh :
  ExecutorRests T (ThreadPool T) (pool_event T) (Executor0 := pool_executor n h Hn Hh).
Proof.
  refine {| ex_work p := Z.to_nat (pool_work p); ex_internal := pool_internal; ex_next := pool_next;
    ex_open p := stop_ p = false |}.
  - intros p. unfold pool_next. constructor; [done|].
    rewrite !Forall_app, !Forall_fmap. split_and!; by apply Forall_forall.
  - intros p ev p' _ Hi E. assert (pool_step p ev = Some p') as E' by by destruct ev.
    assert (is_internal ev) as Hin by by destruct ev.
    pose proof (pool_work_decreases p ev p' Hin E'). pose proof (pool_work_nonneg p'). lia.
  - done.
  - intros t p Hs. unfold ex_submit, pool_executor, enqueue. rewrite Hs. eexists. by split.
  - intros p ev p' Hs Hi E. rewrite <- Hs. destruct ev as [|who|i|i who| | | | | | | |]; try done; cbn in E.
    + unfold enqueue_notify in E. destruct (notifiers p); [done|]. destruct (notify_one _ _); [|done].
      cbn in E. by simplify_eq.
    + destruct (mux_free p); [|done]. unfold worker_lock in E. split_match E; by simplify_eq.
    + unfold worker_next in E. split_match E; try done; try (by simplify_eq).
      destruct (notify_one_drain _ _); [|done]. cbn in E. by simplify_eq.
  - intros p [Hinv Hd] Hs. rewrite Forall_forall in Hs.
    assert (stuck p) as Hst.
    { apply pool_next_stuck; [done|]. intros ev Hev. specialize (Hs ev Hev).
      unfold pool_next in Hev. cbn in Hs. destruct ev; try done.
      all: exfalso; set_solver. }
    destruct (stuck_done p Hinv Hst) as (Hw & Ht & _).
    destruct (idle_counts p Hinv Hw) as (Hrun & _). pose proof (pi_fifo p Hinv) as Hf.
    rewrite Ht, app_nil_r in Hf. cbn. by rewrite Hf, Hrun.
Defined.

(** ** The singleton *)

Section singleton.
Context {T : Type} (hardware_concurrency : Z).

Record ThreadPoolSingleton := { pool_ : option (ThreadPool T); init_flag_ : bool }.

Definition ThreadPoolSingleton_init : ThreadPoolSingleton :=
  {| pool_ := None; init_flag_ := false |}.

(** [std::call_once] on [init_flag_]. *)
Definition singleton_init (num_threads : Z) (s : ThreadPoolSingleton) : ThreadPoolSingleton :=
  if init_flag_ s then s
  else {| pool_ := Some (ThreadPool_init num_threads hardware_concurrency); init_flag_ := true |}.

(** [*pool_] on a null pointer is undefined. *)
Definition singleton_instance (s : ThreadPoolSingleton)
    : outcome (ThreadPool T) * ThreadPoolSingleton :=
  let s := singleton_init 0 s in
  (match pool_ s with Some p => Ok p | None => UB end, s).

Definition singleton_shutdown (s : ThreadPoolSingleton) : ThreadPoolSingleton :=
  {| pool_ := None; init_flag_ := init_flag_ s |}.

Inductive singleton_op := SInit (num_threads : Z) | SInstance | SShutdown.

Definition singleton_step (s : ThreadPoolSingleton) (op : singleton_op) : ThreadPoolSingleton :=
  match op with
  | SInit n => singleton_init n s
  | SInstance => (singleton_instance s).2
  | SShutdown => singleton_shutdown s
  end.

Definition singleton_run (ops : list singleton_op) : ThreadPoolSingleton :=
  fold_left singleton_step ops ThreadPoolSingleton_init.

(** The number of threads the first initialising operation asks for. *)
Fixpoint first_size (ops : list singleton_op) : option Z :=
  match ops with
  | [] => None
  | SInit n :: _ => Some n
  | SInstance :: _ => Some 0
  | SShutdown :: ops => first_size ops
  end.

Lemma singleton_initialised ops s :
  init_flag_ s = true -> SShutdown ∉ ops -> fold_left singleton_step ops s = s.
Proof.
  intros Hf. induction ops as [|op ops IH]; intros Hn; [done|]. cbn.
  assert (singleton_step s op = s) as ->; [|apply IH; set_solver].
  destruct op; cbn; unfold singleton_init; rewrite ?Hf; try done. set_solver.
Qed.

Lemma singleton_dead ops s :
  init_flag_ s = true -> pool_ s = None ->
  (singleton_instance (fold_left singleton_step ops s)).1 = UB.
Proof.
  revert s. induction ops as [|op ops IH]; intros s Hf Hp; cbn.
  - unfold singleton_instance, singleton_init. by rewrite Hf, Hp.
  - apply IH; destruct op; cbn; unfold singleton_init; by rewrite ?Hf.
Qed.

(** Life cycle of the singleton.  Until [shutdown] is called, the first
    call of [init] or [instance] decides the number of threads and every later
    call sees that one pool; after [shutdown] of an initialised singleton,
    [instance] dereferences a null pointer for ever, whatever is called in
    between: [call_once] never runs again. *)
Theorem singleton_lifecycle ops ops' :
  SShutdown ∉ ops ->
  (singleton_instance (singleton_run ops)).1 =
    Ok (ThreadPool_init (default 0 (first_size ops)) hardware_concurrency) /\
  (ops <> [] -> (singleton_instance (singleton_run (ops ++ SShutdown :: ops'))).1 = UB).
Proof.
  intros Hn. assert (forall op, SShutdown <> op -> exists n,
    singleton_step ThreadPoolSingleton_init op = singleton_init n ThreadPoolSingleton_init /\
    forall r, first_size (op :: r) = Some n) as Hop.
  { intros [n| |] Hop; [by exists n|by exists 0|done]. }
  unfold singleton_run. destruct ops as [|op ops]; [done|].
  destruct (Hop op) as (n & E & Ef); [set_solver|]. rewrite Ef.
  rewrite fold_left_app. cbn [fold_left]. rewrite E, singleton_initialised by set_solver.
  split; [done|]. intros _. by apply singleton_dead.
Qed.
End singleton.

Lemma singleton_lifecycle_witness :
  (singleton_instance (T := Z) 8 (singleton_run 8 [SInit 3; SInstance; SShutdown; SInit 2])).1 = UB.
Proof.
  apply (singleton_lifecycle 8 [SInit 3; SInstance] [SInit 2]); [|done].
  rewrite !not_elem_of_cons. by split_and!; [..|apply not_elem_of_nil].
Defined.
