(* ===== verification/PackagedTask.v ===== *)
(** * Tasks with results: the template [ThreadPool::enqueue] of
    [src/thread_pool/thread_pool.h]

    [enqueue] wraps a function and its arguments in a shared [packaged_task],
    submits a closure that invokes it and hands its future to the caller.  The
    packaged tasks live in a store; the pool of [ThreadPool] runs their indices.
    Running one makes its future ready with what the function returned or threw. *)
From S2P Require Import Prelude Executor ThreadPool.

Section packaged.
Context {A R : Type}.

(** [std::packaged_task<R()>] around [func(params...)]; [shared_state] is what its
    future sees. *)
Record packaged_task := {
  func : A -> outcome R;
  params : A;
  shared_state : option (outcome R)
}.

Record futures := { task_pool : ThreadPool nat; task_heap : list packaged_task }.

Definition futures_init (num_threads hardware_concurrency : Z) : futures :=
  {| task_pool := ThreadPool_init num_threads hardware_concurrency; task_heap := [] |}.

(** [enqueue]: the future's index, or the exception of a stopped pool, with which
    the task and its future are gone. *)
Definition enqueue_task (f : A -> outcome R) (args : A) (s : futures) : outcome (nat * futures) :=
  let i := length (task_heap s) in
  match enqueue i (task_pool s) with
  | None => throw "ThreadPool: enqueue on stopped pool"
  | Some p =>
      Ok (i, {| task_pool := p;
                task_heap := task_heap s ++ [{| func := f; params := args; shared_state := None |}] |})
  end.

(** [( *task)()]: an exception of the function goes to the future; a second
    invocation throws. *)
Definition invoke (i : nat) (heap : list packaged_task) : outcome (list packaged_task) :=
  match heap !! i with
  | None => UB
  | Some t =>
      match shared_state t with
      | Some _ => Throw (other_std_exception (bs "std::future_error: Promise already satisfied"))
      | None =>
          match func t (params t) with
          | UB => UB
          | r => Ok (<[i := {| func := func t; params := params t; shared_state := Some r |}]> heap)
          end
      end
  end.

(** The task whose body the step runs. *)
Definition runs_task (p : ThreadPool nat) (ev : pool_event nat) : option nat :=
  match ev with
  | EvNext i _ => match workers p !! i with Some (InTask t) => Some t | _ => None end
  | _ => None
  end.

Inductive task_event :=
  | TEnqueue (f : A -> outcome R) (args : A)
  | TPool (ev : pool_event nat).   (* a thread of the pool, [drain], the destructor *)

(** An exception that leaves a worker, as [Throw], terminates the program; one
    of [enqueue] is the caller's. *)
Definition futures_step (s : futures) (ev : task_event) : option (outcome futures) :=
  match ev with
  | TEnqueue f args =>
      if mux_free (task_pool s) then
        Some match enqueue_task f args s with Ok (_, s') => Ok s' | _ => Ok s end
      else None
  | TPool (EvEnqueue _) => None
  | TPool ev =>
      p ← pool_step (task_pool s) ev;
      Some match runs_task (task_pool s) ev with
           | Some t => h ← invoke t (task_heap s); Ok {| task_pool := p; task_heap := h |}
           | None => Ok {| task_pool := p; task_heap := task_heap s |}
           end
  end.

Definition futures_next (s : futures) (ev : task_event) : option futures :=
  match futures_step s ev with Some (Ok s') => Some s' | _ => None end.

Definition futures_reachable (s : futures) : Prop :=
  exists n h, 0 <= n /\ 0 <= h /\ rtc (steps_to futures_next) (futures_init n h) s.

(** ** Lemmas *)

Record futures_inv (s : futures) : Prop := {
  fi_pool : pool_inv (task_pool s);
  fi_accepted : accepted (task_pool s) = seq 0 (length (task_heap s));
  fi_shared i t : task_heap s !! i = Some t ->
    if decide (i ∈ ran (task_pool s)) then shared_state t = Some (func t (params t)) else shared_state t = None
}.

(** What a step of the pool does to its histories. *)
Lemma pool_step_histories (p p' : ThreadPool nat) ev :
  pool_step p ev = Some p' -> (forall t, ev <> EvEnqueue t) ->
  accepted p' = accepted p /\ ran p' = ran p ++ match runs_task p ev with Some t => [t] | None => [] end.
Proof.
  intros E Hne. destruct ev as [t| | | | | | | | | | |]; try (by destruct (Hne t)).
  5: { cbn in E. injection E as <-. split; [done|]. cbn. by rewrite app_nil_r. }
  all: match goal with H : pool_step ?q ?e = Some ?q' |- _ =>
    exact (ex_step_spec (Executor := pool_executor 0 0 (Z.le_refl 0) (Z.le_refl 0)) q e q' H) end.
Qed.

(** The task a worker runs was accepted and has not been run before. *)
Lemma runs_task_fresh s ev t :
  futures_inv s -> runs_task (task_pool s) ev = Some t ->
  (t < length (task_heap s))%nat /\ t ∉ ran (task_pool s).
Proof.
  intros [Hp Ha _] Hr. destruct ev as [| | |i who| | | | | | | |]; try done. cbn in Hr.
  destruct (workers (task_pool s) !! i) as [[]|] eqn:Hw; try done. injection Hr as ->.
  assert (t ∈ in_hand (workers (task_pool s))) as Hin.
  { unfold in_hand. apply list_elem_of_bind. exists (InTask t). split; [by left|by eapply list_elem_of_lookup_2]. }
  assert (NoDup (ran (task_pool s) ++ in_hand (workers (task_pool s)))) as Hnd.
  { rewrite <- (pi_ran _ Hp). pose proof (pi_fifo _ Hp) as Hf. rewrite Ha in Hf.
    assert (NoDup (seq 0 (length (task_heap s)))) as Hs by apply NoDup_seq. rewrite Hf in Hs.
    by apply NoDup_app in Hs as []. }
  split.
  - assert (t ∈ seq 0 (length (task_heap s))) as Hs; [|apply elem_of_seq in Hs; lia].
    rewrite <- Ha, (pi_fifo _ Hp). apply elem_of_app. left. rewrite (pi_ran _ Hp). apply elem_of_app. by right.
  - apply NoDup_app in Hnd as (_ & Hd & _). intros Hr. by apply (Hd t).
Qed.

Lemma futures_step_inv s ev s' : futures_inv s -> futures_next s ev = Some s' -> futures_inv s'.
Proof.
  intros Hinv E. unfold futures_next in E. destruct (futures_step s ev) as [[q| |]|] eqn:Es; try done.
  injection E as ->. pose proof Hinv as [Hp Ha Hs]. destruct ev as [f args|ev]; cbn [futures_step] in Es.
  - destruct (mux_free _); [|done]. unfold enqueue_task in Es.
    destruct (enqueue _ (task_pool s)) as [p|] eqn:Ee; injection Es as <-; [|done].
    pose proof (enqueue_inv _ _ _ Hp Ee) as Hp'. unfold enqueue in Ee. destruct (stop_ _); [done|]. injection Ee as <-.
    split; [done| |].
    + cbn. rewrite length_app, seq_app, Ha. done.
    + cbn [task_heap task_pool ran with_counters with_queue]. intros i t [Hi|[Hi Ht]]%lookup_app_Some; [by apply Hs|].
      destruct (i - length (task_heap s))%nat eqn:Ei; [|done]. injection Ht as <-. rewrite decide_False; [done|].
      intros Hr. assert (i ∈ seq 0 (length (task_heap s))) as Hin; [|apply elem_of_seq in Hin; lia].
      rewrite <- Ha, (pi_fifo _ Hp), elem_of_app, (pi_ran _ Hp), elem_of_app. auto.
  - assert (forall t, ev <> EvEnqueue t) as Hne by (intros t ->; done).
    assert (exists p, pool_step (task_pool s) ev = Some p /\ Some (Ok s') = Some
      match runs_task (task_pool s) ev with
      | Some t => h ← invoke t (task_heap s); Ok {| task_pool := p; task_heap := h |}
      | None => Ok {| task_pool := p; task_heap := task_heap s |}
      end) as (p & Ep & Eq).
    { destruct ev; [done|..]; apply bind_Some in Es as (p & Ep & Es); exists p; by rewrite <- Es. }
    clear Es. destruct (pool_step_histories _ _ _ Ep Hne) as [Ea Er]. pose proof (pool_step_inv _ _ _ Hp Ep) as Hp'.
    destruct (runs_task (task_pool s) ev) as [t|] eqn:Ht.
    + destruct (runs_task_fresh s ev t Hinv Ht) as [Hl Hnr]. unfold invoke in Eq.
      destruct (lookup_lt_is_Some_2 _ _ Hl) as [pt Hpt]. rewrite Hpt in Eq.
      pose proof (Hs t pt Hpt) as Hst. rewrite decide_False in Hst by done. rewrite Hst in Eq.
      assert (s' = {| task_pool := p; task_heap :=
        <[t := {| func := func pt; params := params pt; shared_state := Some (func pt (params pt)) |}]> (task_heap s) |}) as ->.
      { destruct (func pt (params pt)); try done; by injection Eq. }
      split; [done|cbn; by rewrite length_insert, Ea|]. cbn. intros i t' Hi.
      rewrite Er. destruct (decide (i = t)) as [->|Hit].
      * rewrite list_lookup_insert_eq in Hi by done. injection Hi as <-. cbn. rewrite decide_True; [done|].
        apply elem_of_app. right. by left.
      * rewrite list_lookup_insert_ne in Hi by done. specialize (Hs i t' Hi).
        destruct (decide (i ∈ ran (task_pool s))) as [Hir|Hir].
        -- rewrite decide_True; [done|]. apply elem_of_app. by left.
        -- rewrite decide_False; [done|]. rewrite elem_of_app, list_elem_of_singleton. naive_solver.
    + injection Eq as ->. split; [done|cbn; by rewrite Ea|]. cbn. rewrite Er, app_nil_r. exact Hs.
Qed.

Lemma futures_reachable_inv s : futures_reachable s -> futures_inv s.
Proof.
  intros (n & h & Hn & Hh & Hr). refine (steps_invariant futures_next futures_inv _ _ _ Hr _).
  - eauto using futures_step_inv.
  - split; [by apply pool_init_inv|done|]. intros i t Hi. cbn in Hi. by rewrite lookup_nil in Hi.
Qed.
End packaged.

(** ** Theorem *)

(** C12: a future receives exactly what its task did.  In every reachable state the
    pool has accepted the submitted tasks in the order of [enqueue], and the future
    of a task is ready exactly when the task has run, with the value its function
    returned or the exception it threw, which therefore never leaves the worker: no
    step of the pool throws.  When the pool's threads are at rest every future is
    ready.  On a stopped pool [enqueue] throws and leaves nothing behind. *)
Theorem futures_receive_results {A R} (s : @futures A R) :
  futures_reachable s ->
  accepted (task_pool s) = seq 0 (length (task_heap s)) /\
  (forall i t, task_heap s !! i = Some t ->
     (i ∈ ran (task_pool s) -> shared_state t = Some (func t (params t))) /\
     (i ∉ ran (task_pool s) -> shared_state t = None)) /\
  (forall ev e, futures_step s ev <> Some (Throw e)) /\
  (stuck (task_pool s) -> forall i t, task_heap s !! i = Some t -> shared_state t = Some (func t (params t))) /\
  (forall f args, stop_ (task_pool s) = true ->
     enqueue_task f args s = throw "ThreadPool: enqueue on stopped pool" /\
     forall s', futures_step s (TEnqueue f args) = Some s' -> s' = Ok s).
Proof.
  intros Hr. pose proof (futures_reachable_inv s Hr) as Hinv. pose proof Hinv as [Hp Ha Hs]. split_and!.
  - done.
  - intros i t Hi. specialize (Hs i t Hi). by case_decide.
  - intros ev e E. destruct ev as [f args|ev]; cbn [futures_step] in E.
    + destruct (mux_free _); [|done]. unfold enqueue_task in E. by destruct (enqueue _ _).
    + assert (exists p, Some (Throw e) = Some
        match runs_task (task_pool s) ev with
        | Some t => h ← invoke t (task_heap s); Ok {| task_pool := p; task_heap := h |}
        | None => Ok {| task_pool := p; task_heap := task_heap s |}
        end) as (p & Eq).
      { destruct ev; [done|..]; apply bind_Some in E as (p & _ & E); exists p; by rewrite <- E. }
      destruct (runs_task (task_pool s) ev) as [t|] eqn:Ht; [|done].
      destruct (runs_task_fresh s ev t Hinv Ht) as [Hl Hnr]. unfold invoke in Eq.
      destruct (lookup_lt_is_Some_2 _ _ Hl) as [pt Hpt]. rewrite Hpt in Eq.
      pose proof (Hs t pt Hpt) as Hst. rewrite decide_False in Hst by done. rewrite Hst in Eq.
      by destruct (func pt (params pt)).
  - intros Hst i t Hi. specialize (Hs i t Hi). rewrite decide_True in Hs; [done|].
    destruct (stuck_done _ Hp Hst) as (Hw & Ht & _). destruct (idle_counts _ Hp Hw) as (Hrun & _).
    rewrite <- Hrun. pose proof (pi_fifo _ Hp) as Hf. rewrite Ht, app_nil_r in Hf. rewrite <- Hf, Ha.
    apply elem_of_seq. apply lookup_lt_Some in Hi. lia.
  - intros f args Hstop. assert (enqueue_task f args s = throw "ThreadPool: enqueue on stopped pool") as E
      by (unfold enqueue_task, enqueue; by rewrite Hstop). split; [done|].
    intros s' Es. cbn [futures_step] in Es. destruct (mux_free _); [|done]. rewrite E in Es. by injection Es.
Qed.

(** Two tasks on one worker; the second function throws. *)
Definition two_futures : @futures Z Z :=
  default (futures_init 1 8) (run futures_next
    [TEnqueue (fun n => Ok (n * n)) 7; TEnqueue (fun _ => throw "no result") 0; TPool (EvLock 0);
     TPool (EvNext 0 None); TPool (EvNext 0 None); TPool (EvNext 0 None); TPool (EvNext 0 None);
     TPool (EvNext 0 None); TPool (EvNext 0 None); TPool (EvLock 0); TPool (EvNext 0 None);
     TPool (EvNext 0 None)] (futures_init 1 8)).

Lemma futures_receive_results_witness :
  (fun t => shared_state t) <$> task_heap two_futures = [Some (Ok 49); Some (throw "no result")] /\
  forall t, task_heap two_futures !! 1%nat = Some t -> shared_state t = Some (func t (params t)).
Proof.
  split; [vm_compute; reflexivity|]. intros t Ht.
  assert (futures_reachable two_futures) as Hr.
  { exists 1, 8. split_and!; [lia|lia|apply run_reachable]. }
  assert (ran (task_pool two_futures) !! 1%nat = Some 1%nat) as Hran by (vm_compute; reflexivity).
  destruct (futures_receive_results two_futures Hr) as (_ & Hs & _).
  apply (Hs 1%nat t Ht). exact (list_elem_of_lookup_2 _ _ _ Hran).
Defined.
