(* ===== verification/ConnectionManager.v ===== *)
(** * The table of live connections: [src/network/connection_manager.h/.cpp]

    Connections are shared objects: the table, the asynchronous operations and
    the close callback hold pointers to the same [Connection].  The objects live
    in a heap, a list of connection states, and a [shared_ptr] is an index. *)
From S2P Require Import Prelude Protocol Framing Connection.

Abbreviation conn_ptr := nat.

Record ConnectionManager := {
  conns_ : gmap Z conn_ptr;
  next_id_ : Z
}.

Definition ConnectionManager_init : ConnectionManager := {| conns_ := ∅; next_id_ := 1 |}.

(** [add], first half: [next_id_++] and [set_conn_id]; nobody else holds the
    pointer yet. *)
Definition add_id (p : conn_ptr) (heap : list Connection) (m : ConnectionManager)
    : Z * list Connection * ConnectionManager :=
  (next_id_ m, alter (set_conn_id (next_id_ m)) p heap,
   {| conns_ := conns_ m; next_id_ := u64 (next_id_ m + 1) |}).

(** [add], second half: the critical section. *)
Definition add_insert (id : Z) (p : conn_ptr) (m : ConnectionManager) : ConnectionManager :=
  {| conns_ := <[id := p]> (conns_ m); next_id_ := next_id_ m |}.

Definition add (p : conn_ptr) (heap : list Connection) (m : ConnectionManager)
    : Z * list Connection * ConnectionManager :=
  let '(id, heap, m) := add_id p heap m in (id, heap, add_insert id p m).

Definition remove (conn_id : Z) (m : ConnectionManager) : ConnectionManager :=
  {| conns_ := delete conn_id (conns_ m); next_id_ := next_id_ m |}.

Definition get (conn_id : Z) (m : ConnectionManager) : option conn_ptr :=
  match conns_ m !! conn_id with
  | None => None
  | Some p => Some p
  end.

Definition count (m : ConnectionManager) : Z := Z.of_nat (size (conns_ m)).

Definition all_connections (m : ConnectionManager) : list conn_ptr :=
  (map_to_list (conns_ m)).*2.

(** [close_all]: the critical section takes a snapshot and clears the table,
    then every connection of the snapshot is closed. *)
Definition close_all_take (m : ConnectionManager) : list conn_ptr * ConnectionManager :=
  (all_connections m, {| conns_ := ∅; next_id_ := next_id_ m |}).

Definition close_all (heap : list Connection) (m : ConnectionManager)
    : list Connection * ConnectionManager :=
  let '(snapshot, m) := close_all_take m in
  (foldl (fun h p => alter close p h) heap snapshot, m).

(** ** Lemmas *)

Lemma all_connections_iff m p :
  p ∈ all_connections m <-> exists id, get id m = Some p.
Proof.
  unfold all_connections, get. rewrite list_elem_of_fmap. split.
  - intros ([id q] & -> & Hq). apply elem_of_map_to_list in Hq. exists id. cbn. by rewrite Hq.
  - intros [id Hid]. exists (id, p). split; [done|]. apply elem_of_map_to_list.
    by destruct (conns_ m !! id).
Qed.

Lemma close_closed c : closed_ (close c) = true.
Proof. unfold close. by destruct (closed_ c) eqn:E. Qed.

Lemma close_idemp c : close (close c) = close c.
Proof. unfold close at 1. by rewrite close_closed. Qed.

Lemma close_all_heap (ps : list conn_ptr) (h : list Connection) (p : conn_ptr) :
  foldl (fun h p => alter close p h) h ps !! p =
  if bool_decide (p ∈ ps) then close <$> h !! p else h !! p.
Proof.
  revert h. induction ps as [|q ps IH]; intros h; [done|]. cbn. rewrite IH.
  destruct (decide (p = q)) as [->|Hne].
  - rewrite list_lookup_alter_eq. rewrite (bool_decide_eq_true_2 (q ∈ q :: ps)) by set_solver.
    destruct (bool_decide_reflect (q ∈ ps)); [|done].
    destruct (h !! q); cbn; [|done]. by rewrite close_idemp.
  - rewrite list_lookup_alter_ne by done.
    by rewrite (bool_decide_ext (p ∈ q :: ps) (p ∈ ps)) by (rewrite elem_of_cons; tauto).
Qed.

(** ** Theorems *)

(** The table's operations.  [add] hands out the next id and makes the
    connection reachable under it, and only under it changes the table; the
    object itself learns its id; [remove] forgets exactly its id; [count] is the
    number of ids that [get] finds, [all_connections] their objects; [close_all]
    empties the table and closes exactly the connections that were in it. *)
Theorem connection_manager_spec (heap : list Connection) m (p : conn_ptr) :
  let '(id, heap', m') := add p heap m in
  let '(heap'', m'') := close_all heap m in
  id = next_id_ m /\
  (forall j, get j m' = if bool_decide (j = id) then Some p else get j m) /\
  (forall q, heap' !! q = if bool_decide (q = p) then set_conn_id id <$> heap !! q else heap !! q) /\
  (get id m = None -> count m' = count m + 1) /\
  (forall i j, get j (remove i m) = if bool_decide (j = i) then None else get j m) /\
  len (all_connections m) = count m /\
  (forall q, q ∈ all_connections m <-> exists i, get i m = Some q) /\
  count m'' = 0 /\
  (forall i q, get i m = Some q -> heap'' !! q = close <$> heap !! q) /\
  (forall q, (forall i, get i m <> Some q) -> heap'' !! q = heap !! q).
Proof.
  assert (forall i m, get i m = conns_ m !! i) as Hg
    by (intros; unfold get; by destruct (_ !! _)).
  cbn. setoid_rewrite Hg. cbn. split_and!; try done.
  - intros j. destruct (bool_decide_reflect (j = next_id_ m)) as [->|];
      [apply lookup_insert_eq|by apply lookup_insert_ne].
  - intros q. destruct (bool_decide_reflect (q = p)) as [->|];
      [apply list_lookup_alter_eq|by apply list_lookup_alter_ne].
  - intros Hn. unfold count. cbn. rewrite map_size_insert_None by done. lia.
  - intros i j. destruct (bool_decide_reflect (j = i)) as [->|];
      [apply lookup_delete_eq|by apply lookup_delete_ne].
  - unfold all_connections, count, len. by rewrite length_fmap, length_map_to_list.
  - intros q. rewrite all_connections_iff. by setoid_rewrite Hg.
  - intros i q Hi. rewrite close_all_heap, bool_decide_eq_true_2; [done|].
    apply all_connections_iff. exists i. by rewrite Hg.
  - intros q Hq. rewrite close_all_heap, bool_decide_eq_false_2; [done|].
    intros [i Hi]%all_connections_iff. apply (Hq i). by rewrite <- Hg.
Qed.
