(* ===== verification/MessageCycle.v ===== *)
(** * The event loop of the server: [src/network/message_cycle.h/.cpp]

    One state holds the loop, the connection table and the heap of connections.
    The accept chain, the close callbacks of connections and [stop] (called from
    another thread or from the signal handler) are interleaved at the
    granularity of the critical sections of the table; the operations of a
    connection are the steps of [Connection]. *)
From S2P Require Import Prelude WriteQueue Protocol Framing Connection ConnectionManager.

(** Where the accept chain stands: at most one [async_accept] or handler is
    alive. *)
Inductive accept_chain :=
  | NoAccept                        (* none outstanding *)
  | Accepting                       (* async_accept outstanding *)
  | Identified (p : conn_ptr) (id : Z) (* handler: id taken, not in the table yet *)
  | Inserted (p : conn_ptr)         (* handler: in the table, not reading yet *)
  | Served.                         (* handler: about to accept again *)

Record MessageCycle := {
  heap : list Connection;
  conn_mgr_ : ConnectionManager;
  running_ : bool;
  acceptor_is_open : bool;
  acceptor_on : option Z;     (* the port it listens on; 0: one the system chose *)
  (* the environment *)
  chain : accept_chain;
  removing : list conn_ptr;   (* inside close_cb, before the table's mutex *)
  closing : list conn_ptr;    (* snapshot of close_all, not closed yet *)
  (* histories *)
  inserted : list conn_ptr;
  removed : list conn_ptr;    (* forgotten by close_cb *)
  dropped : list conn_ptr     (* taken out by close_all *)
}.

Definition MessageCycle_init : MessageCycle :=
  {| heap := []; conn_mgr_ := ConnectionManager_init; running_ := false;
     acceptor_is_open := false; acceptor_on := None; chain := NoAccept; removing := []; closing := [];
     inserted := []; removed := []; dropped := [] |}.

(** Field updates. *)
Definition set_heap (h : list Connection) (c : MessageCycle) : MessageCycle :=
  {| heap := h; conn_mgr_ := conn_mgr_ c; running_ := running_ c;
     acceptor_is_open := acceptor_is_open c; acceptor_on := acceptor_on c; chain := chain c; removing := removing c;
     closing := closing c; inserted := inserted c; removed := removed c; dropped := dropped c |}.
Definition set_mgr (m : ConnectionManager) (c : MessageCycle) : MessageCycle :=
  {| heap := heap c; conn_mgr_ := m; running_ := running_ c;
     acceptor_is_open := acceptor_is_open c; acceptor_on := acceptor_on c; chain := chain c; removing := removing c;
     closing := closing c; inserted := inserted c; removed := removed c; dropped := dropped c |}.
Definition set_loop (r a : bool) (ch : accept_chain) (c : MessageCycle) : MessageCycle :=
  {| heap := heap c; conn_mgr_ := conn_mgr_ c; running_ := r;
     acceptor_is_open := a; acceptor_on := acceptor_on c; chain := ch; removing := removing c;
     closing := closing c; inserted := inserted c; removed := removed c; dropped := dropped c |}.
Definition set_bound (on : option Z) (c : MessageCycle) : MessageCycle :=
  {| heap := heap c; conn_mgr_ := conn_mgr_ c; running_ := running_ c;
     acceptor_is_open := acceptor_is_open c; acceptor_on := on; chain := chain c; removing := removing c;
     closing := closing c; inserted := inserted c; removed := removed c; dropped := dropped c |}.
Definition set_pending (rm cl : list conn_ptr) (c : MessageCycle) : MessageCycle :=
  {| heap := heap c; conn_mgr_ := conn_mgr_ c; running_ := running_ c;
     acceptor_is_open := acceptor_is_open c; acceptor_on := acceptor_on c; chain := chain c; removing := rm;
     closing := cl; inserted := inserted c; removed := removed c; dropped := dropped c |}.
Definition set_history (i r d : list conn_ptr) (c : MessageCycle) : MessageCycle :=
  {| heap := heap c; conn_mgr_ := conn_mgr_ c; running_ := running_ c;
     acceptor_is_open := acceptor_is_open c; acceptor_on := acceptor_on c; chain := chain c; removing := removing c;
     closing := closing c; inserted := i; removed := r; dropped := d |}.

(** ** Operations *)

(** [do_accept] *)
Definition do_accept (c : MessageCycle) : MessageCycle :=
  set_loop (running_ c) (acceptor_is_open c) Accepting c.

(** The calls of [start_listen] on the acceptor, which throw when they fail.  An
    acceptor that is open cannot be opened again; for what else fails, the
    operating system decides. *)
Inductive listen_call := OpenCall | SetOptionCall | BindCall | ListenCall.

Definition system_error (call : listen_call) : exn :=
  runtime_error match call with
    | OpenCall => bs "open" | SetOptionCall => bs "set_option" | BindCall => bs "bind" | ListenCall => bs "listen"
    end.

(** [failing] is the call that fails, if one does.  (The exception's text is
    the call's name and the operating system's reason, left out here.) *)
Definition start_listen (port : Z) (failing : option listen_call) (c : MessageCycle) :
    outcome unit * MessageCycle :=
  let opened := set_loop (running_ c) true (chain c) c in
  match (if acceptor_is_open c then Some OpenCall else failing) with
  | Some OpenCall => (Throw (system_error OpenCall), c)
  | Some call => (Throw (system_error call), opened)
  | None => (Ok tt, do_accept (set_bound (Some port) opened))
  end.

(** The accept handler up to [conn_mgr_.add]'s critical section: a new object,
    its id. *)
Definition accept_done (ok : bool) (c : MessageCycle) : MessageCycle :=
  if ok then
    let p := length (heap c) in
    let '(id, h, m) := add_id p (heap c ++ [Connection_init]) (conn_mgr_ c) in
    set_loop (running_ c) (acceptor_is_open c) (Identified p id) (set_heap h (set_mgr m c))
  else if running_ c then do_accept c
  else set_loop (running_ c) (acceptor_is_open c) NoAccept c.

Definition accept_insert (c : MessageCycle) : option MessageCycle :=
  match chain c with
  | Identified p id =>
      Some (set_loop (running_ c) (acceptor_is_open c) (Inserted p)
        (set_mgr (add_insert id p (conn_mgr_ c))
        (set_history (inserted c ++ [p]) (removed c) (dropped c) c)))
  | _ => None
  end.

(** [conn->start_read(on_message_, close_cb)] *)
Definition accept_start (c : MessageCycle) : option MessageCycle :=
  match chain c with
  | Inserted p =>
      Some (set_loop (running_ c) (acceptor_is_open c) Served
        (set_heap (alter (start_read true true) p (heap c)) c))
  | _ => None
  end.

Definition accept_again (c : MessageCycle) : option MessageCycle :=
  match chain c with
  | Served => Some (if running_ c then do_accept c
                    else set_loop (running_ c) (acceptor_is_open c) NoAccept c)
  | _ => None
  end.

(** The entry of [run]; [ios_.run()] is the interleaving itself. *)
Definition run_loop (c : MessageCycle) : MessageCycle :=
  set_loop true (acceptor_is_open c) (chain c) c.

(** An operation or completion on connection [p].  When it fires [on_close_],
    the callback [close_cb] runs. *)
Definition conn_event_on (p : conn_ptr) (ev : conn_event) (c : MessageCycle) : option MessageCycle :=
  match heap c !! p with
  | None => None
  | Some k =>
      k' ← conn_step k ev;
      Some (set_pending
              (if (close_calls k' =? close_calls k)%nat then removing c else removing c ++ [p])
              (closing c) (set_heap (<[p := k']> (heap c)) c))
  end.

(** The body of [close_cb]: [conn_mgr_.remove(c->conn_id())]. *)
Definition close_cb (i : nat) (c : MessageCycle) : option MessageCycle :=
  match removing c !! i with
  | None => None
  | Some p =>
      k ← heap c !! p;
      Some (set_pending (delete i (removing c)) (closing c)
             (set_mgr (remove (conn_id_ k) (conn_mgr_ c))
             (set_history (inserted c) (removed c ++ [p]) (dropped c) c)))
  end.

(** [stop]: the flag and the acceptor, then the critical section of
    [close_all], then the snapshot one connection at a time. *)
Definition stop_begin (c : MessageCycle) : MessageCycle :=
  set_bound None (set_loop false false (chain c) c).

Definition stop_take (c : MessageCycle) : MessageCycle :=
  let '(snapshot, m) := close_all_take (conn_mgr_ c) in
  set_pending (removing c) (closing c ++ snapshot)
    (set_mgr m (set_history (inserted c) (removed c) (dropped c ++ snapshot) c)).

Definition stop_close (i : nat) (c : MessageCycle) : option MessageCycle :=
  match closing c !! i with
  | None => None
  | Some p => Some (set_pending (removing c) (delete i (closing c))
                     (set_heap (alter close p (heap c)) c))
  end.

(** ** Steps *)

Inductive cycle_event :=
  | CListen (port : Z) (failing : option listen_call)
  | CRun
  | CAccept (ok : bool)
  | CInsert
  | CStart
  | CAgain
  | CConn (p : conn_ptr) (ev : conn_event)
  | CCloseCb (i : nat)
  | CStop
  | CTake
  | CClose (i : nat).

(** [start_read] is called by the accept handler only. *)
Definition is_start (ev : conn_event) : bool :=
  match ev with EvStartRead _ _ => true | _ => false end.

Definition cycle_step (c : MessageCycle) (ev : cycle_event) : option MessageCycle :=
  match ev with
  | CListen port failing =>
      match start_listen port failing c, chain c with
      | (Ok _, c), NoAccept => Some c
      | (Ok _, _), _ => None
      | (_, c), _ => Some c
      end
  | CRun => Some (run_loop c)
  | CAccept ok => match chain c with Accepting => Some (accept_done ok c) | _ => None end
  | CInsert => accept_insert c
  | CStart => accept_start c
  | CAgain => accept_again c
  | CConn p ev => if is_start ev then None else conn_event_on p ev c
  | CCloseCb i => close_cb i c
  | CStop => Some (stop_begin c)
  | CTake => Some (stop_take c)
  | CClose i => stop_close i c
  end.

Definition cycle_trans : MessageCycle -> MessageCycle -> Prop := steps_to cycle_step.

Definition cycle_reachable (c : MessageCycle) : Prop := rtc cycle_trans MessageCycle_init c.

(** The observers used by [RpcServer]. *)
Definition connection_count (c : MessageCycle) : Z := count (conn_mgr_ c).
Definition is_running (c : MessageCycle) : bool := running_ c.

(** ** Invariant *)


Record conn_inv (c : MessageCycle) (p : conn_ptr) (k : Connection) : Prop := {
  co_id : conn_id_ k = u64 (Z.of_nat p + 1);
  co_close : close_inv k;
  co_called : (0 < close_calls k)%nat <-> p ∈ removing c ++ removed c;
  co_dropped : p ∈ dropped c -> closed_ k = true \/ p ∈ closing c;
  co_started : on_close_ k = true -> p ∈ inserted c
}.

Record cycle_inv (c : MessageCycle) : Prop := {
  cy_next : next_id_ (conn_mgr_ c) = u64 (len (heap c) + 1);
  cy_conn p k : heap c !! p = Some k -> conn_inv c p k;
  cy_inserted p : p ∈ inserted c -> (p < length (heap c))%nat;
  cy_chain : match chain c with
             | Identified p id =>
                 S p = length (heap c) /\ id = u64 (Z.of_nat p + 1) /\ p ∉ inserted c
             | Inserted p => p ∈ inserted c
             | _ => True
             end;
  cy_removing p : p ∈ removing c ++ removed c -> p ∈ inserted c;
  cy_nodup : NoDup (removing c ++ removed c);
  cy_dropped p : p ∈ dropped c -> p ∈ inserted c;
  cy_known id p : conns_ (conn_mgr_ c) !! id = Some p -> p ∈ inserted c;
  cy_table : len (heap c) < 2 ^ 64 - 1 -> forall id p,
    conns_ (conn_mgr_ c) !! id = Some p <->
    id = Z.of_nat p + 1 /\ p ∈ inserted c /\ (p ∉ removed c) /\ (p ∉ dropped c)
}.

(** The invariant does not look at the loop's flags. *)
Lemma cycle_inv_bound c on : cycle_inv c -> cycle_inv (set_bound on c).
Proof. intros []. split; auto. intros p k E. destruct (cy_conn0 p k E). by split. Qed.

(** What [start_listen] changes, whether or not it throws. *)
Lemma listen_step c port failing c' :
  cycle_step c (CListen port failing) = Some c' ->
  exists on a ch, c' = set_bound on (set_loop (running_ c) a ch c) /\ (ch = chain c \/ ch = Accepting).
Proof.
  assert (forall ch, ch = chain c -> c = set_bound (acceptor_on c) (set_loop (running_ c) (acceptor_is_open c) ch c))
    as Hid by (intros ? ->; by destruct c).
  cbn. unfold start_listen. intros E.
  destruct (if acceptor_is_open c then Some OpenCall else failing) as [[]|];
    [injection E as <-; eexists _, _, _; split; [by apply Hid|by left]| | | |destruct (chain c); try done];
    injection E as <-; eexists _, _, _; (split; [done|auto]).
Qed.

Lemma cycle_inv_loop c r a ch :
  cycle_inv c ->
  ch = chain c \/
    match ch with Identified _ _ => False | Inserted p => p ∈ inserted c | _ => True end ->
  cycle_inv (set_loop r a ch c).
Proof.
  intros [] Hch. split; auto.
  - intros p k E. destruct (cy_conn0 p k E). by split.
  - destruct Hch as [->|Hch]; [done|]. by destruct ch.
Qed.

(** A connection step keeps the id and the callbacks; if it notifies, the
    callback was set and had not been called. *)
Lemma conn_step_frame k ev k' :
  conn_step k ev = Some k' -> is_start ev = false ->
  conn_id_ k' = conn_id_ k /\ on_close_ k' = on_close_ k /\
  (close_calls k' = close_calls k \/
   closed_ k = false /\ close_calls k' = S (close_calls k) /\ on_close_ k = true).
Proof.
  assert (forall d, conn_id_ d = conn_id_ k -> on_close_ d = on_close_ k ->
    close_calls d = close_calls k -> closed_ d = closed_ k ->
    conn_id_ (cas_close d) = conn_id_ k /\ on_close_ (cas_close d) = on_close_ k /\
    (close_calls (cas_close d) = close_calls k \/
     closed_ k = false /\ close_calls (cas_close d) = S (close_calls k) /\ on_close_ k = true)) as Hc.
  { intros d Hi Ho Hn Hd. unfold cas_close. destruct (closed_ d) eqn:Ed; [auto|]. cbn.
    destruct (on_close_ d) eqn:Eo; rewrite ?Hn; split_and!; auto; try congruence; right; congruence. }
  intros E Hs. conn_cases ev E; auto; by apply Hc.
Qed.

Lemma accept_done_inv ok c :
  chain c = Accepting -> cycle_inv c -> cycle_inv (accept_done ok c).
Proof.
  intros Hch Hinv. unfold accept_done. destruct ok; [|destruct (running_ c); apply cycle_inv_loop; auto].
  destruct Hinv. cbn. set (n := length (heap c)) in *.
  assert (forall p, p ∈ inserted c -> p <> n) as Hlt by (intros p Hp; specialize (cy_inserted0 p Hp); lia).
  set (h := alter _ n (heap c ++ [Connection_init])).
  assert (forall p, h !! p = (if decide (p = n)
    then Some (set_conn_id (next_id_ (conn_mgr_ c)) Connection_init) else heap c !! p)) as Hh.
  { intros p. unfold h. destruct (decide (p = n)) as [->|Hne].
    - rewrite list_lookup_alter_eq, lookup_app_r, Nat.sub_diag by done. done.
    - rewrite list_lookup_alter_ne by done. destruct (decide (p < n)%nat).
      + by rewrite lookup_app_l.
      + rewrite !lookup_ge_None_2; [done|lia|rewrite length_app; cbn; lia]. }
  assert (length h = S n) as Hl by (unfold h; rewrite length_alter, length_app; cbn; lia).
  split; cbn; rewrite ?Hl; auto.
  - rewrite cy_next0. unfold len. fold n. rewrite Hl. unfold wrap.
    rewrite Zplus_mod_idemp_l. f_equal. lia.
  - intros p k. rewrite Hh. destruct (decide (p = n)) as [->|Hne].
    + intros E. injection E as <-. split; cbn; try done.
      * split; cbn; auto; intros [x Hx]; by apply elem_of_nil in Hx.
      * split; [lia|]. intros Hp. by destruct (Hlt n (cy_removing0 n Hp)).
      * intros Hp. by destruct (Hlt n (cy_dropped0 n Hp)).
    + intros E. destruct (cy_conn0 p k E). by split.
  - intros p Hp. specialize (cy_inserted0 p Hp). lia.
  - rewrite cy_next0. split_and!; [done|done|]. intros Hp. by apply (Hlt n Hp).
  - intros Hb. apply cy_table0. unfold len in *. lia.
Qed.

Lemma wrapped_id p (c : MessageCycle) :
  (p < length (heap c))%nat -> len (heap c) < 2 ^ 64 - 1 -> u64 (Z.of_nat p + 1) = Z.of_nat p + 1.
Proof. unfold len. intros. apply wrap_small. lia. Qed.

Lemma accept_insert_inv c c' : cycle_inv c -> accept_insert c = Some c' -> cycle_inv c'.
Proof.
  intros [] E. unfold accept_insert in E. destruct (chain c) as [| |p id| |]; try done.
  destruct cy_chain0 as (Hp & -> & Hni). injection E as <-.
  split; cbn; auto; try (intros; apply elem_of_app; auto; fail).
  - intros q k Hq. destruct (cy_conn0 q k Hq). split; auto. cbn. set_solver.
  - intros q [Hq | ->%list_elem_of_singleton]%elem_of_app; [auto|lia].
  - set_solver.
  - intros id' q Hq. apply elem_of_app. apply lookup_insert_Some in Hq as [[_ <-]|[_ Hq]]; [|eauto].
    right. by apply list_elem_of_singleton.
  - intros Hb id q. rewrite (wrapped_id p c) by (done || lia).
    assert (p ∉ removed c) as Hr by (intros Hr; apply Hni, cy_removing0; set_solver).
    assert (p ∉ dropped c) as Hd by auto.
    destruct (decide (id = Z.of_nat p + 1)) as [->|Hne].
    + rewrite lookup_insert_eq. split.
      * intros Eq. simplify_eq. set_solver.
      * intros [Eq _]. f_equal. lia.
    + rewrite lookup_insert_ne by done. rewrite (cy_table0 Hb).
      split; intros (-> & Hi & ?); (split; [done|split; [|done]]).
      * set_solver.
      * apply elem_of_app in Hi as [?| ->%list_elem_of_singleton]; [done|lia].
Qed.

Lemma elem_of_snoc {A} (l : list A) x y : x ∈ l ++ [y] <-> x ∈ l \/ x = y.
Proof. by rewrite elem_of_app, list_elem_of_singleton. Qed.

(** Replacing one connection by a later state of it. *)
Lemma cycle_inv_update c p k k' rm ch :
  cycle_inv c -> heap c !! p = Some k ->
  match ch with Identified _ _ => chain c = ch | Inserted p => p ∈ inserted c | _ => True end ->
  conn_inv (set_pending rm (closing c) c) p k' ->
  (rm = removing c \/ rm = removing c ++ [p] /\ p ∈ inserted c /\ p ∉ removing c ++ removed c) ->
  cycle_inv (set_pending rm (closing c) (set_heap (<[p := k']> (heap c))
    (set_loop (running_ c) (acceptor_is_open c) ch c))).
Proof.
  intros [] Hp Hch Hk Hrm.
  assert (forall q, q ∈ rm ++ removed c <->
    q ∈ removing c ++ removed c \/ rm = removing c ++ [p] /\ q = p) as Hq.
  { intros q. destruct Hrm as [->|(-> & _)]; rewrite !elem_of_app; [|rewrite list_elem_of_singleton; tauto].
    split; [auto|]. intros [?|[Eq _]]; [done|]. exfalso.
    apply (f_equal length) in Eq. rewrite length_app in Eq. cbn in Eq. lia. }
  split; cbn; auto.
  - rewrite cy_next0. unfold len. by rewrite length_insert.
  - intros q kq Eq. destruct (decide (p = q)) as [<-|Hne].
    + rewrite list_lookup_insert_eq in Eq by (by eapply lookup_lt_Some). simplify_eq.
      destruct Hk. by split.
    + rewrite list_lookup_insert_ne in Eq by done. destruct (cy_conn0 q kq Eq).
      split; auto. cbn. rewrite Hq, co_called0. split; [auto|]. by intros [?|[_ ->]].
  - intros q. rewrite length_insert. auto.
  - destruct ch; auto. rewrite Hch in cy_chain0. by rewrite length_insert.
  - intros q [?|[Erm ->]]%Hq; [auto|]. destruct Hrm as [Eq|(_ & ? & _)]; [|done]. exfalso.
    rewrite Erm in Eq. apply (f_equal length) in Eq. rewrite length_app in Eq. cbn in Eq. lia.
  - destruct Hrm as [->|(-> & _ & Hn)]; [done|].
    rewrite <- app_assoc, (Permutation_app_comm [p]), app_assoc. apply NoDup_app.
    split_and!; [done| |apply NoDup_singleton]. set_solver.
  - intros Hb. unfold len in *. rewrite length_insert in Hb. auto.
Qed.

Lemma alter_insert {A} (f : A -> A) (l : list A) i x :
  l !! i = Some x -> alter f i l = <[i := f x]> l.
Proof.
  revert i. induction l as [|y l IH]; intros [|i] E; try done; cbn in *; [by simplify_eq|].
  f_equal. by apply IH.
Qed.

Lemma accept_start_inv c c' : cycle_inv c -> accept_start c = Some c' -> cycle_inv c'.
Proof.
  intros Hinv E. pose proof (cy_chain c Hinv) as Hch. unfold accept_start in E.
  destruct (chain c) as [| |p id|p|] eqn:Ec; try done. injection E as <-.
  destruct (lookup_lt_is_Some_2 (heap c) p) as [k Hk]; [by apply (cy_inserted c Hinv)|].
  rewrite (alter_insert _ _ _ k Hk).
  apply (cycle_inv_update c p k _ (removing c) Served); auto.
  destruct (cy_conn c Hinv p k Hk) as [? [] ? ? ?]. by split; [|split|..].
Qed.

Lemma conn_event_on_inv p ev c c' :
  cycle_inv c -> is_start ev = false -> conn_event_on p ev c = Some c' -> cycle_inv c'.
Proof.
  intros Hinv Hs E. unfold conn_event_on in E. destruct (heap c !! p) as [k|] eqn:Hk; [|done].
  destruct (conn_step k ev) as [k'|] eqn:Ek; [|done]. cbn in E. injection E as <-.
  destruct (conn_step_frame k ev k' Ek Hs) as (Hid & Hon & Hcalls).
  destruct (cy_conn c Hinv p k Hk) as [Ci Cc Cn Cd Cs].
  pose proof (close_inv_step k ev k' Cc Ek) as Cc'.
  apply (cycle_inv_update c p k k' _ (chain c)); auto.
  - destruct (chain c) as [| | |q|] eqn:Ec; auto. pose proof (cy_chain c Hinv) as H. by rewrite Ec in H.
  - destruct (conn_step_closing k ev k' Ek) as [[Hc' Hn]|(Hc' & Hc'' & _)].
    + rewrite Hn, Nat.eqb_refl. split; cbn; rewrite ?Hid, ?Hon, ?Hn; auto.
      rewrite Hc'. auto.
    + split; cbn; rewrite ?Hid, ?Hon; auto.
      destruct Hcalls as [Hn|(_ & Hn & _)]; rewrite Hn.
      * by rewrite Nat.eqb_refl.
      * destruct (Nat.eqb_spec (S (close_calls k)) (close_calls k)); [lia|].
        split; [|lia]. intros _. set_solver.
  - destruct Hcalls as [Hn|(Hc & Hn & Ho)]; rewrite Hn; [rewrite Nat.eqb_refl; auto|].
    destruct (Nat.eqb_spec (S (close_calls k)) (close_calls k)); [lia|]. right.
    split_and!; auto. rewrite <- Cn, (ci_open k Cc Hc). lia.
Qed.

Lemma delete_permutation {A} (l : list A) i x : l !! i = Some x -> l ≡ₚ x :: delete i l.
Proof. apply delete_Permutation. Qed.

Lemma close_cb_inv i c c' : cycle_inv c -> close_cb i c = Some c' -> cycle_inv c'.
Proof.
  intros Hinv E. unfold close_cb in E. destruct (removing c !! i) as [p|] eqn:Hi; [|done].
  destruct (heap c !! p) as [k|] eqn:Hk; [|done]. cbn in E. injection E as <-.
  pose proof (co_id _ _ _ (cy_conn c Hinv p k Hk)) as Hid.
  assert (removing c ++ removed c ≡ₚ delete i (removing c) ++ (removed c ++ [p])) as Hperm.
  { rewrite (delete_permutation _ _ _ Hi) at 1. rewrite app_assoc.
    by rewrite (Permutation_app_comm _ [p]). }
  destruct Hinv. split; cbn; auto.
  - intros q kq Hq. destruct (cy_conn0 q kq Hq). split; auto. cbn. by rewrite <- Hperm.
  - intros q. rewrite <- Hperm. auto.
  - by rewrite <- Hperm.
  - intros id q [_ Hq]%lookup_delete_Some. eauto.
  - intros Hb id q. rewrite Hid, (wrapped_id p c) by (done || by eapply lookup_lt_Some).
    rewrite elem_of_snoc.
    destruct (decide (id = Z.of_nat p + 1)) as [->|Hne].
    + rewrite lookup_delete_eq. split; [done|]. intros (Eq & _ & Hn & _). exfalso. apply Hn. right. lia.
    + rewrite lookup_delete_ne by done. rewrite (cy_table0 Hb).
      split; intros (-> & ? & Hn & ?); split_and!; auto.
      intros [?| ->]; [done|]. by apply Hne.
Qed.

Lemma stop_take_inv c : cycle_inv c -> cycle_inv (stop_take c).
Proof.
  intros []. unfold stop_take. cbn. split; cbn; auto.
  - intros p k Hp. destruct (cy_conn0 p k Hp). split; auto. cbn. set_solver.
  - intros p [?|Hp]%elem_of_app; [auto|]. apply all_connections_iff in Hp as [id Hid].
    unfold get in Hid. destruct (conns_ (conn_mgr_ c) !! id) as [q|] eqn:Eq; simplify_eq. eauto.
  - intros id p Hp. by rewrite lookup_empty in Hp.
  - intros Hb id p. rewrite lookup_empty. split; [done|]. intros (-> & Hi & Hr & Hd). exfalso.
    apply Hd. apply elem_of_app. right. apply all_connections_iff. exists (Z.of_nat p + 1).
    unfold get. rewrite (proj2 (cy_table0 Hb _ p)); [done|].
    split_and!; auto. intros ?. apply Hd, elem_of_app. auto.
Qed.

Lemma stop_close_inv i c c' : cycle_inv c -> stop_close i c = Some c' -> cycle_inv c'.
Proof.
  intros [] E. unfold stop_close in E. destruct (closing c !! i) as [p|] eqn:Hi; [|done].
  injection E as <-. split; cbn; auto.
  - rewrite cy_next0. unfold len. by rewrite length_alter.
  - intros q kq Hq. destruct (decide (p = q)) as [<-|Hne].
    + rewrite list_lookup_alter_eq in Hq. destruct (heap c !! p) as [k|] eqn:Hk; [|done].
      injection Hq as <-. destruct (cy_conn0 p k Hk) as [? [H1 H2 H3] ? ? ?].
      split; cbn; unfold close; destruct (closed_ k) eqn:Ec; cbn; auto; try done.
      by split; [rewrite Ec| |].
    + rewrite list_lookup_alter_ne in Hq by done. destruct (cy_conn0 q kq Hq). split; auto. cbn.
      intros Hd. destruct (co_dropped0 Hd) as [|Hc]; [auto|right].
      rewrite (delete_permutation _ _ _ Hi) in Hc. apply elem_of_cons in Hc as [<-|?]; done.
  - intros q. rewrite length_alter. auto.
  - destruct (chain c); auto. by rewrite length_alter.
  - intros Hb. unfold len in Hb. rewrite length_alter in Hb. auto.
Qed.

Lemma cycle_step_inv c ev c' : cycle_inv c -> cycle_step c ev = Some c' -> cycle_inv c'.
Proof.
  intros Hinv E.
  assert (forall r a, cycle_inv (set_loop r a (chain c) c)) as Hloop
    by (intros; apply cycle_inv_loop; auto).
  destruct ev as [port failing| |ok| | | |p ev|i| | |i]; cbn in E.
  - apply listen_step in E as (on & a & ch & -> & Hch). apply cycle_inv_bound, cycle_inv_loop; [done|].
    destruct Hch as [->| ->]; auto.
  - injection E as <-. apply Hloop.
  - destruct (chain c) eqn:Ec; try done. injection E as <-. by apply accept_done_inv.
  - by eapply accept_insert_inv.
  - by eapply accept_start_inv.
  - unfold accept_again in E. destruct (chain c) eqn:Ec; try done. injection E as <-.
    destruct (running_ c); apply cycle_inv_loop; auto.
  - destruct (is_start ev) eqn:Es; [done|]. by eapply conn_event_on_inv.
  - by eapply close_cb_inv.
  - injection E as <-. apply cycle_inv_bound, Hloop.
  - injection E as <-. by apply stop_take_inv.
  - by eapply stop_close_inv.
Qed.

Lemma cycle_init_inv : cycle_inv MessageCycle_init.
Proof.
  assert (forall p : conn_ptr, p ∈ [] -> False) as Hn by (intros p; apply not_elem_of_nil).
  split; cbn; try done; try (intros p Hp; by destruct (Hn p)).
  - apply NoDup_nil_2.
  - intros _ id p. rewrite lookup_empty. split; [done|]. intros (_ & Hp & _). by destruct (Hn p).
Qed.

Lemma cycle_reachable_inv c : cycle_reachable c -> cycle_inv c.
Proof.
  intros Hr. eapply (steps_invariant cycle_step cycle_inv); [|exact Hr|apply cycle_init_inv].
  eauto using cycle_step_inv.
Qed.

(** A connection still on its way through the accept handler is not reading. *)
Definition unstarted (c : MessageCycle) : Prop :=
  match chain c with
  | Identified p _ | Inserted p => forall k, heap c !! p = Some k -> reading k = NotReading
  | _ => True
  end.

Lemma conn_step_not_reading k ev k' :
  conn_step k ev = Some k' -> is_start ev = false -> reading k = NotReading ->
  reading k' = NotReading.
Proof.
  intros E Hs Hr.
  assert (forall d, reading d = NotReading -> reading (cas_close d) = NotReading) as Hc
    by (intros d Hd; unfold cas_close; by destruct (closed_ d)).
  conn_cases ev E; auto; by apply Hc.
Qed.

Lemma unstarted_step c ev c' : cycle_inv c -> unstarted c -> cycle_step c ev = Some c' -> unstarted c'.
Proof.
  intros Hinv Hu E. unfold unstarted in *. destruct ev as [port failing| |ok| | | |q ev|i| | |i]; cbn in E.
  - apply listen_step in E as (on & a & ch & -> & Hch). cbn. by destruct Hch as [->| ->].
  - by simplify_eq.
  - destruct (chain c); try done. injection E as <-. unfold accept_done.
    destruct ok; [|by destruct (running_ c)]. cbn. intros k.
    rewrite list_lookup_alter_eq, lookup_app_r, Nat.sub_diag by done. cbn. intros Ek. by injection Ek as <-.
  - unfold accept_insert in E. destruct (chain c); by simplify_eq.
  - unfold accept_start in E. destruct (chain c); by simplify_eq.
  - unfold accept_again in E. destruct (chain c); simplify_eq. by destruct (running_ c).
  - destruct (is_start ev) eqn:Es; [done|]. unfold conn_event_on in E.
    destruct (heap c !! q) as [k|] eqn:Hk; [|done].
    destruct (conn_step k ev) as [k'|] eqn:Ek; [|done]. cbn in E. simplify_eq. cbn.
    destruct (chain c) as [| |p id|p|]; try done; intros d [(<- & <- & _)|[_ Hd]]%list_lookup_insert_Some;
      auto; eapply conn_step_not_reading; eauto.
  - unfold close_cb in E. destruct (removing c !! i) as [q|]; [|done].
    destruct (heap c !! q); [|done]. cbn in E. by simplify_eq.
  - by simplify_eq.
  - by simplify_eq.
  - unfold stop_close in E. destruct (closing c !! i) as [q|]; simplify_eq. cbn.
    destruct (chain c) as [| |p id|p|]; try done; intros d Hd;
      (destruct (decide (q = p)) as [->|Hne];
       [rewrite list_lookup_alter_eq in Hd|rewrite list_lookup_alter_ne in Hd by done; auto]);
      destruct (heap c !! p) as [k|]; cbn in Hd; try done; simplify_eq;
      unfold close; destruct (closed_ k); cbn; auto.
Qed.

Lemma cycle_reachable_unstarted c : cycle_reachable c -> unstarted c.
Proof.
  intros Hr. apply (steps_invariant cycle_step (fun c => cycle_inv c /\ unstarted c)) in Hr;
    [apply Hr| |split; [apply cycle_init_inv|done]].
  intros a ev b [Ha Hu] E. split; [by eapply cycle_step_inv|by eapply unstarted_step].
Qed.

(** What one step of the loop does to one connection: it creates it, makes one
    connection step on it, or changes nothing a client of the loop can see. *)
Definition same_io (k k' : Connection) : Prop :=
  delivered k' = delivered k /\ conn_wq k' = conn_wq k /\ senders k' = senders k /\
  (closed_ k = true -> closed_ k' = true) /\
  (reading k' = reading k /\ on_message_ k' = on_message_ k \/
   reading k = NotReading /\ reading k' = ReadingHeader /\ on_message_ k' = true).

Lemma cycle_step_conn c ev c' p k' :
  cycle_reachable c -> cycle_step c ev = Some c' -> heap c' !! p = Some k' ->
  (p = length (heap c) /\ same_io Connection_init k') \/
  exists k, heap c !! p = Some k /\
    (same_io k k' \/ exists cev, ev = CConn p cev /\ is_start cev = false /\ conn_step k cev = Some k').
Proof.
  intros Hr E Hk'. pose proof (cycle_reachable_unstarted c Hr) as Hu. unfold unstarted in Hu.
  assert (forall k, same_io k k) as Hrefl by (intros k; split_and!; auto).
  assert (heap c !! p = Some k' -> exists k, heap c !! p = Some k /\
    (same_io k k' \/ exists cev, ev = CConn p cev /\ is_start cev = false /\ conn_step k cev = Some k'))
    as Hsame by (intros H; exists k'; auto).
  assert (forall f q, (forall k, heap c !! q = Some k -> same_io k (f k)) ->
    alter f q (heap c) !! p = Some k' -> exists k, heap c !! p = Some k /\ same_io k k') as Halter.
  { intros f q Hf. destruct (decide (q = p)) as [->|Hne].
    - rewrite list_lookup_alter_eq. destruct (heap c !! p) as [k|] eqn:Hk; [|done]. cbn.
      intros Ek. injection Ek as <-. exists k. auto.
    - rewrite list_lookup_alter_ne by done. exists k'. auto. }
  destruct ev as [port failing| |ok| | | |q ev|i| | |i]; cbn in E.
  - apply listen_step in E as (on & a & ch & -> & Hch). right. by apply Hsame.
  - simplify_eq. auto.
  - destruct (chain c); try done. injection E as <-. unfold accept_done in Hk'.
    destruct ok; [|destruct (running_ c); auto]. cbn in Hk'.
    destruct (decide (p = length (heap c))) as [->|Hne].
    + rewrite list_lookup_alter_eq, lookup_app_r, Nat.sub_diag in Hk' by done. cbn in Hk'.
      injection Hk' as <-. left. split; [done|]. split_and!; auto.
    + rewrite list_lookup_alter_ne in Hk' by done. right. apply Hsame.
      rewrite lookup_app_l in Hk'; [done|]. apply lookup_lt_Some in Hk'.
      rewrite length_app in Hk'. cbn in Hk'. lia.
  - unfold accept_insert in E. destruct (chain c); simplify_eq; auto.
  - right. unfold accept_start in E. destruct (chain c) as [| | |q|]; simplify_eq. cbn in Hk'.
    apply Halter in Hk' as (k & Hk & Hs); [exists k; auto|].
    intros d Hd. specialize (Hu d Hd). split_and!; auto.
  - unfold accept_again in E. destruct (chain c); simplify_eq. destruct (running_ c); auto.
  - right. destruct (is_start ev) eqn:Es; [done|]. unfold conn_event_on in E.
    destruct (heap c !! q) as [k|] eqn:Hk; [|done].
    destruct (conn_step k ev) as [k1|] eqn:Ek; [|done]. cbn in E. simplify_eq. cbn in Hk'.
    apply list_lookup_insert_Some in Hk' as [(<- & <- & _)|[Hne Hk']]; [|auto].
    exists k. split; [done|]. right. by exists ev.
  - unfold close_cb in E. destruct (removing c !! i) as [q|]; [|done].
    destruct (heap c !! q); [|done]. cbn in E. simplify_eq; auto.
  - simplify_eq. auto.
  - simplify_eq. auto.
  - right. unfold stop_close in E. destruct (closing c !! i) as [q|]; simplify_eq. cbn in Hk'.
    apply Halter in Hk' as (k & Hk & Hs); [exists k; auto|].
    intros d _. unfold close. destruct (closed_ d) eqn:Ed; [done|]. split_and!; auto; congruence.
Qed.

(** The write queues of all connections keep the discipline. *)
Lemma cycle_conn_wq c p k :
  cycle_reachable c -> heap c !! p = Some k -> wq_inv true (conn_wq k).
Proof.
  intros Hr. revert p k.
  refine (proj2 (steps_invariant cycle_step (fun c => cycle_reachable c /\
    forall p k, heap c !! p = Some k -> wq_inv true (conn_wq k)) _ _ _ Hr _)); [|split; [apply rtc_refl|done]].
  intros a ev b [Ha IH] E. split; [eapply rtc_r; [exact Ha|by exists ev]|]. intros p k Hk.
  destruct (cycle_step_conn _ _ _ _ _ Ha E Hk) as [[_ Hs]|(k0 & Hk0 & [Hs|(cev & _ & _ & Hs)])].
  - destruct Hs as (_ & -> & _). apply wq_init_inv.
  - destruct Hs as (_ & -> & _). eauto.
  - specialize (IH _ _ Hk0). pose proof (conn_step_wq _ _ _ Hs) as Hq.
    destruct (conn_wq_event k0 cev); [by eapply wq_step_inv|congruence].
Qed.

(** ** Theorems *)

(** C21: the table tracks the live connections.  However accepts, connection
    events, close callbacks and [stop] interleave, two connections never share an
    id, the table maps an id to a connection exactly when that connection has
    been inserted and neither its close callback nor [close_all] has taken it
    out, the callback has been started exactly for the connections that notified
    their close, and [close_all] closes, or is about to close, everything it
    takes out. *)
Theorem cycle_tracks_connections c :
  cycle_reachable c -> len (heap c) < 2 ^ 64 - 1 ->
  (forall p q k k', heap c !! p = Some k -> heap c !! q = Some k' -> conn_id_ k = conn_id_ k' ->
     p = q) /\
  (forall p k, heap c !! p = Some k ->
     (get (conn_id_ k) (conn_mgr_ c) = Some p <->
      p ∈ inserted c /\ (p ∉ removed c) /\ (p ∉ dropped c)) /\
     ((0 < close_calls k)%nat <-> p ∈ removing c ++ removed c) /\
     (p ∈ dropped c -> closed_ k = true \/ p ∈ closing c)) /\
  (forall id p, get id (conn_mgr_ c) = Some p ->
     exists k, heap c !! p = Some k /\ conn_id_ k = id).
Proof.
  intros Hr Hb. pose proof (cycle_reachable_inv c Hr) as Hinv.
  assert (forall id, get id (conn_mgr_ c) = conns_ (conn_mgr_ c) !! id) as Hg
    by (intros; unfold get; by destruct (_ !! _)).
  assert (forall p k, heap c !! p = Some k -> conn_id_ k = Z.of_nat p + 1) as Hid.
  { intros p k Hk. rewrite (co_id _ _ _ (cy_conn c Hinv p k Hk)).
    apply (wrapped_id p c); [by eapply lookup_lt_Some|done]. }
  setoid_rewrite Hg. split_and!.
  - intros p q k k' Hp Hq. rewrite (Hid p k Hp), (Hid q k' Hq). lia.
  - intros p k Hp. rewrite (Hid p k Hp). destruct (cy_conn c Hinv p k Hp). split_and!; auto.
    rewrite (cy_table c Hinv Hb). tauto.
  - intros id p Hp. apply (cy_table c Hinv Hb) in Hp as (-> & Hi & _).
    destruct (lookup_lt_is_Some_2 (heap c) p) as [k Hk]; [by apply (cy_inserted c Hinv)|]. eauto.
Qed.

(** Two connections are accepted; the first breaks, the second is closed by the
    application. *)
Definition cycle_two : MessageCycle :=
  default MessageCycle_init (run cycle_step
    [CListen 9000 None; CRun; CAccept true; CInsert; CStart; CAgain; CAccept true; CInsert; CStart; CAgain;
     CConn 0 (EvHeader None); CCloseCb 0; CConn 1 EvClose] MessageCycle_init).

Lemma cycle_two_reachable : cycle_reachable cycle_two.
Proof. apply run_reachable. Qed.

Lemma cycle_tracks_connections_witness :
  inserted cycle_two = [0; 1]%nat /\ removed cycle_two = [0]%nat /\
  forall k, heap cycle_two !! 0%nat = Some k -> get (conn_id_ k) (conn_mgr_ cycle_two) <> Some 0%nat.
Proof.
  split_and!; [by vm_compute..|]. intros k Hk Hg.
  destruct (cycle_tracks_connections cycle_two cycle_two_reachable) as (_ & H & _); [by vm_compute|].
  apply (proj1 (proj1 (H 0%nat k Hk))) in Hg as (_ & Hr & _). apply Hr.
  apply (bool_decide_unpack _). by vm_compute.
Defined.

(** A closed connection that has not notified stays so, whoever touches it. *)
Definition silently_closed (id : Z) (k : Connection) : Prop :=
  conn_id_ k = id /\ closed_ k = true /\ close_calls k = O.

Lemma silently_closed_step c ev c' p k id :
  cycle_step c ev = Some c' -> ev <> CTake ->
  heap c !! p = Some k -> silently_closed id k ->
  (exists k', heap c' !! p = Some k' /\ silently_closed id k') /\
  (p ∈ inserted c -> p ∈ inserted c') /\ dropped c' = dropped c.
Proof.
  intros E Hev Hk (Hid & Hc & Hn).
  assert (forall q f, (forall k, silently_closed id k -> silently_closed id (f k)) ->
    exists k', alter f q (heap c) !! p = Some k' /\ silently_closed id k') as Halter.
  { intros q f Hf. destruct (decide (q = p)) as [->|Hne].
    - rewrite list_lookup_alter_eq, Hk. eexists. split; [done|]. by apply Hf.
    - rewrite list_lookup_alter_ne by done. by exists k. }
  destruct ev as [port failing| |ok| | | |q ev|i| | |i]; cbn in E; try done.
  - apply listen_step in E as (on & a & ch & -> & Hch). split_and!; [|done..]. by exists k.
  - injection E as <-. split_and!; [|done..]. by exists k.
  - destruct (chain c); try done. injection E as <-. unfold accept_done.
    destruct ok; [cbn|destruct (running_ c); cbn; split_and!; try done; by exists k].
    split_and!; [|done..]. exists k. split; [|done].
    pose proof (lookup_lt_Some _ _ _ Hk).
    rewrite list_lookup_alter_ne by lia. by rewrite lookup_app_l.
  - unfold accept_insert in E. destruct (chain c); try done. injection E as <-. cbn.
    split_and!; [by exists k| |done]. intros ?. apply elem_of_app. auto.
  - unfold accept_start in E. destruct (chain c); try done. injection E as <-. cbn.
    split_and!; [|done..]. by apply Halter.
  - unfold accept_again in E. destruct (chain c); try done. injection E as <-.
    destruct (running_ c); cbn; split_and!; try done; by exists k.
  - destruct (is_start ev) eqn:Es; [done|]. unfold conn_event_on in E.
    destruct (heap c !! q) as [kq|] eqn:Hq; [|done].
    destruct (conn_step kq ev) as [k'|] eqn:Ek; [|done]. cbn in E. injection E as <-. cbn.
    split_and!; [|done..]. destruct (decide (q = p)) as [->|Hne].
    + rewrite Hk in Hq. injection Hq as <-.
      rewrite list_lookup_insert_eq by (by eapply lookup_lt_Some). eexists. split; [done|].
      destruct (conn_step_frame k ev k' Ek Es) as (Hid' & _ & Hcalls).
      destruct (conn_step_closing k ev k' Ek) as [[Hc' Hn']|[? _]]; [|congruence].
      split_and!; congruence.
    + rewrite list_lookup_insert_ne by done. by exists k.
  - unfold close_cb in E. destruct (removing c !! i) as [q|]; [|done].
    destruct (heap c !! q); [|done]. cbn in E. injection E as <-. split_and!; [|done..]. by exists k.
  - injection E as <-. split_and!; [|done..]. by exists k.
  - unfold stop_close in E. destruct (closing c !! i) as [q|]; [|done]. injection E as <-. cbn.
    split_and!; [|done..]. apply Halter. intros d (Hd & Hd' & Hd''). unfold close. by rewrite Hd'.
Qed.

Lemma cycle_step_heap c ev c' :
  cycle_step c ev = Some c' -> (length (heap c) <= length (heap c'))%nat.
Proof.
  intros E. destruct ev as [port failing| |ok| | | |q ev|i| | |i]; cbn in E.
  - apply listen_step in E as (on & a & ch & -> & Hch). cbn. lia.
  - by simplify_eq.
  - destruct (chain c); try done. injection E as <-. unfold accept_done.
    destruct ok; [cbn; rewrite length_alter, length_app; lia|by destruct (running_ c)].
  - unfold accept_insert in E. destruct (chain c); by simplify_eq.
  - unfold accept_start in E. destruct (chain c); simplify_eq. cbn. by rewrite length_alter.
  - unfold accept_again in E. destruct (chain c); simplify_eq. by destruct (running_ c).
  - destruct (is_start ev); [done|]. unfold conn_event_on in E. destruct (heap c !! q); [|done].
    destruct (conn_step _ ev); [|done]. cbn in E. simplify_eq. cbn. by rewrite length_insert.
  - unfold close_cb in E. destruct (removing c !! i) as [q|]; [|done].
    destruct (heap c !! q); [|done]. cbn in E. by simplify_eq.
  - by simplify_eq.
  - by simplify_eq.
  - unfold stop_close in E. destruct (closing c !! i); simplify_eq. cbn. by rewrite length_alter.
Qed.

(** Runs in which [close_all] does not take its snapshot. *)
Definition cycle_trans_no_stop (a b : MessageCycle) : Prop :=
  exists ev, ev <> CTake /\ cycle_step a ev = Some b.

Lemma no_stop_keeps c c' p k id :
  rtc cycle_trans_no_stop c c' -> heap c !! p = Some k -> silently_closed id k ->
  (length (heap c) <= length (heap c'))%nat /\ rtc cycle_trans c c' /\
  (exists k', heap c' !! p = Some k' /\ silently_closed id k') /\
  (p ∈ inserted c -> p ∈ inserted c') /\ dropped c' = dropped c.
Proof.
  intros Hr. revert k. induction Hr as [c|a b d (ev & Hev & E) _ IH]; intros k Hk Hs.
  - split_and!; auto; [constructor|by exists k].
  - destruct (silently_closed_step a ev b p k id E Hev Hk Hs) as ((k1 & Hk1 & Hs1) & Hi & Hd).
    destruct (IH k1 Hk1 Hs1) as (Hl & Hr' & Hk' & Hi' & Hd').
    pose proof (cycle_step_heap a ev b E). split_and!; auto; [lia| |congruence].
    eapply rtc_l; [by exists ev|done].
Qed.

(** A connection closed through [Connection::close] is never forgotten.
    The close callback runs only when a handler wins the exchange on [closed_],
    so a connection of the table that was closed by a direct call stays in the
    table, and is counted by [connection_count], until [close_all]. *)
Theorem closed_connection_stays c c' p k :
  cycle_reachable c -> heap c !! p = Some k -> closed_ k = true -> close_calls k = O ->
  get (conn_id_ k) (conn_mgr_ c) = Some p ->
  rtc cycle_trans_no_stop c c' -> len (heap c') < 2 ^ 64 - 1 ->
  get (conn_id_ k) (conn_mgr_ c') = Some p /\ 1 <= connection_count c'.
Proof.
  intros Hr Hk Hc Hn Hg Hcc Hb.
  destruct (no_stop_keeps c c' p k (conn_id_ k) Hcc Hk) as (Hl & Hr' & (k' & Hk' & Hid & _ & Hn') & Hi & Hd);
    [done|].
  pose proof (cycle_reachable_inv c Hr) as Hinv.
  assert (cycle_inv c') as Hinv'.
  { apply cycle_reachable_inv. unfold cycle_reachable. transitivity c; [exact Hr|exact Hr']. }
  assert (conns_ (conn_mgr_ c) !! conn_id_ k = Some p) as Hg'
    by (unfold get in Hg; destruct (conns_ (conn_mgr_ c) !! conn_id_ k); by simplify_eq).
  apply (cy_table c Hinv) in Hg' as (_ & Hi0 & _ & Hd0); [|unfold len in *; lia].
  destruct (cy_conn c' Hinv' p k' Hk').
  assert (conns_ (conn_mgr_ c') !! conn_id_ k = Some p) as Hlook.
  { apply (cy_table c' Hinv' Hb). rewrite <- Hid, co_id0, Hd. split_and!; auto.
    - apply (wrapped_id p c'); [by eapply lookup_lt_Some|done].
    - intros Hrm. assert (0 < close_calls k')%nat; [|lia]. apply co_called0, elem_of_app. auto. }
  split; [unfold get; by rewrite Hlook|]. unfold connection_count, count.
  assert (size (conns_ (conn_mgr_ c')) <> O); [|lia].
  intros Hz. apply map_size_empty_inv in Hz. by rewrite Hz, lookup_empty in Hlook.
Qed.

Definition cycle_two' : MessageCycle :=
  default cycle_two (run cycle_step [CConn 1 (EvHeader None)] cycle_two).

Lemma closed_connection_stays_witness :
  get 2 (conn_mgr_ cycle_two') = Some 1%nat /\ 1 <= connection_count cycle_two'.
Proof.
  destruct (heap cycle_two !! 1%nat) as [k|] eqn:Hk; [|by vm_compute in Hk].
  assert (conn_id_ k = 2 /\ closed_ k = true /\ close_calls k = O) as (Hid & Hc & Hn).
  { vm_compute in Hk. by injection Hk as <-. }
  rewrite <- Hid. apply (closed_connection_stays cycle_two cycle_two' 1%nat k);
    [exact cycle_two_reachable|done..|rewrite Hid; by vm_compute| |by vm_compute].
  apply rtc_once. exists (CConn 1 (EvHeader None)). split; [done|by vm_compute].
Defined.
