(* ===== verification/AsyncCycle.v ===== *)
(** * The event loop in a background thread: [src/network/message_cycle.cpp]

    [run_async], [stop] and the destructor around the thread [worker_], which runs
    the completion handlers one at a time: a handler begins with a completion and
    ends when it has done what follows from it, and [ios_.run()] returns between
    handlers only.  [stop] is taken as a whole here: its effect on the connections
    is that of [MessageCycle]'s steps, one after the other. *)
From S2P Require Import Prelude WriteQueue Protocol Framing Connection ConnectionManager MessageCycle.

(** [worker_]: where the thread stands until it is joined. *)
Inductive worker_state :=
  | NoWorker          (* not joinable *)
  | Spawned           (* before the first line of [run] *)
  | InRun             (* inside [ios_.run()] *)
  | Finished.         (* returned, not joined *)

Inductive thread_id := Outside | Worker.

(** The completion handlers: of [async_accept], and of a connection's reads, writes
    and failed writes. *)
Inductive handler_id := HAccept | HRead (p : conn_ptr) | HWrite (p : conn_ptr) | HClose (p : conn_ptr).

Record async_cycle := {
  ac_cycle : MessageCycle;
  worker_ : worker_state;
  handler : option handler_id; (* the handler the worker is inside *)
  ios_stopped : bool;
  joining : bool;              (* a thread is inside [worker_.join()] *)
  ac_terminated : bool         (* std::terminate *)
}.

Definition async_init : async_cycle :=
  {| ac_cycle := MessageCycle_init; worker_ := NoWorker; handler := None; ios_stopped := false;
     joining := false; ac_terminated := false |}.

Definition joinable (a : async_cycle) : bool :=
  match worker_ a with NoWorker => false | _ => true end.

Definition with_worker (w : worker_state) (j t : bool) (a : async_cycle) : async_cycle :=
  {| ac_cycle := ac_cycle a; worker_ := w; handler := handler a; ios_stopped := ios_stopped a;
     joining := j; ac_terminated := t |}.
Definition with_cycle (c : MessageCycle) (stopped : bool) (a : async_cycle) : async_cycle :=
  {| ac_cycle := c; worker_ := worker_ a; handler := handler a; ios_stopped := stopped;
     joining := joining a; ac_terminated := ac_terminated a |}.
Definition with_handler (h : option handler_id) (a : async_cycle) : async_cycle :=
  {| ac_cycle := ac_cycle a; worker_ := worker_ a; handler := h; ios_stopped := ios_stopped a;
     joining := joining a; ac_terminated := ac_terminated a |}.

(** ** Handlers *)

(** The completions begin one. *)
Definition begins (ev : cycle_event) : option handler_id :=
  match ev with
  | CAccept _ => Some HAccept
  | CConn p (EvHeader _ | EvBody _) => Some (HRead p)
  | CConn p (EvWritten _ ok) => Some (if ok then HWrite p else HClose p)
  | _ => None
  end.

(** How much a handler still has to do: the accept handler inserts the
    connection, starts its read loop and accepts again; the read handler waits for
    the message callback to return, or calls the close callback; the write handler
    pops and issues the next write, or after a failure calls the close callback. *)
Definition writer_weight (x : activity str) : nat :=
  match x with DoWrite => 2 | Issue _ => 1 | InFlight _ => 0 end.

Definition close_weight (p : conn_ptr) (c : MessageCycle) : nat :=
  if bool_decide (p ∈ removing c) then 1 else 0.

Definition handler_work (h : handler_id) (c : MessageCycle) : nat :=
  match h with
  | HAccept => match chain c with Identified _ _ => 3 | Inserted _ => 2 | Served => 1 | _ => 0 end
  | HRead p =>
      match heap c !! p with
      | Some k => match reading k with InCallback _ _ => 1 | _ => 0 end
      | None => 0
      end + close_weight p c
  | HWrite p =>
      match heap c !! p with Some k => sum_list (writer_weight <$> writers k) | None => 0 end
  | HClose p => close_weight p c
  end.

(** The handler goes on, or has ended. *)
Definition in_handler (h : option handler_id) (a : async_cycle) : async_cycle :=
  with_handler (h ← h; if (handler_work h (ac_cycle a) =? 0)%nat then None else Some h) a.

(** What is not a completion: the rest of a handler happens inside it, the parts of
    [stop] and the entry of [run] are other events, and everything else is done by
    any thread. *)
Definition permitted (a : async_cycle) (ev : cycle_event) : bool :=
  match ev with
  | CInsert | CStart | CAgain => match handler a with Some HAccept => true | _ => false end
  | CConn p (EvCallback _) => match handler a with Some (HRead q) => bool_decide (p = q) | _ => false end
  | CCloseCb i =>
      match handler a with
      | Some (HRead q | HClose q) => bool_decide (removing (ac_cycle a) !! i = Some q)
      | _ => false
      end
  | CRun | CStop | CTake | CClose _ => false
  | _ => true
  end.

(** ** Operations *)

(** [worker_ = std::thread(...)]: assigning over a joinable thread terminates. *)
Definition run_async (a : async_cycle) : async_cycle :=
  if joinable a then with_worker (worker_ a) (joining a) true a
  else with_worker Spawned (joining a) (ac_terminated a) a.

(** The thread enters [run]; a stopped [io_context] returns at once. *)
Definition worker_enters (a : async_cycle) : option async_cycle :=
  match worker_ a with
  | Spawned => Some (with_worker InRun (joining a) (ac_terminated a)
                      (with_cycle (run_loop (ac_cycle a)) (ios_stopped a) a))
  | _ => None
  end.

(** [ios_.run()] of a stopped [io_context] returns after the handler in progress. *)
Definition worker_returns (a : async_cycle) : option async_cycle :=
  match worker_ a, handler a with
  | InRun, None => if ios_stopped a then Some (with_worker Finished (joining a) (ac_terminated a) a) else None
  | _, _ => None
  end.

(** The message callback throws: nothing catches it in [ios_.run()], in [run] or in
    the thread's function. *)
Definition escapes (ev : cycle_event) : bool :=
  match ev with CConn _ (EvCallback false) => true | _ => false end.

(** A step of the loop or of a connection: a completion is taken by a worker that is
    inside no handler and whose [io_context] is not stopped. *)
Definition loop_step (ev : cycle_event) (a : async_cycle) : option async_cycle :=
  match begins ev with
  | Some h =>
      match worker_ a, handler a with
      | InRun, None =>
          if ios_stopped a then None
          else c ← cycle_step (ac_cycle a) ev; Some (in_handler (Some h) (with_cycle c false a))
      | _, _ => None
      end
  | None =>
      if permitted a ev
      then c ← cycle_step (ac_cycle a) ev;
           Some (in_handler (handler a) (with_worker (worker_ a) (joining a) (ac_terminated a || escapes ev)
                   (with_cycle c (ios_stopped a) a)))
      else None
  end.

(** [running_ = false], the acceptor, and [conn_mgr_.close_all()]. *)
Definition stop_cycle (c : MessageCycle) : MessageCycle :=
  let c := stop_take (stop_begin c) in
  set_pending (removing c) [] (set_heap (foldl (fun h p => alter close p h) (heap c) (closing c)) c).

(** [stop], then [ios_.stop()] and the join.  A thread that joins itself gets
    [std::system_error]; on the worker nothing catches it. *)
Definition stop (who : thread_id) (a : async_cycle) : async_cycle :=
  let a := with_cycle (stop_cycle (ac_cycle a)) true a in
  if joinable a then
    match who with
    | Outside => with_worker (worker_ a) true (ac_terminated a) a
    | Worker => with_worker (worker_ a) (joining a) true a
    end
  else a.

(** The worker calls [stop] in the signal handler of [run], or in the message
    callback. *)
Definition stops_itself (a : async_cycle) : bool :=
  match worker_ a, handler a with
  | InRun, None => negb (ios_stopped a)
  | InRun, Some (HRead p) =>
      match heap (ac_cycle a) !! p with
      | Some k => match reading k with InCallback _ _ => true | _ => false end
      | None => false
      end
  | _, _ => false
  end.

(** [join] returns when the thread has. *)
Definition join_returns (a : async_cycle) : option async_cycle :=
  match worker_ a with
  | Finished => if joining a then Some (with_worker NoWorker false (ac_terminated a) a) else None
  | _ => None
  end.

(** ** Steps *)

Inductive async_event :=
  | ARunAsync
  | AEnter
  | AReturn
  | AStop (who : thread_id)
  | AJoin
  | ACycle (ev : cycle_event).   (* the loop's other steps, on the worker or outside *)

Definition async_step (a : async_cycle) (ev : async_event) : option async_cycle :=
  if ac_terminated a then None else
  match ev with
  | ARunAsync => if joining a then None else Some (run_async a)
  | AEnter => worker_enters a
  | AReturn => worker_returns a
  | AStop Outside => if joining a then None else Some (stop Outside a)
  | AStop Worker => if stops_itself a then Some (stop Worker a) else None
  | AJoin => join_returns a
  | ACycle ev => loop_step ev a
  end.

Definition async_reachable (a : async_cycle) : Prop := rtc (steps_to async_step) async_init a.

(** What the worker does by itself, and the return of the join: the rest of its
    handler, which for the read handler includes the return of the message
    callback, and leaving [run]. *)
Definition own (a : async_cycle) (ev : async_event) : bool :=
  match ev with
  | AEnter | AReturn | AJoin => true
  | ACycle (CInsert | CStart | CAgain | CCloseCb _ | CConn _ (EvCallback _)) => true
  | ACycle (CConn p (EvDoWrite _ | EvIssue _)) =>
      match handler a with Some (HWrite q) => bool_decide (p = q) | _ => false end
  | _ => false
  end.

Fixpoint own_steps (evs : list async_event) (a : async_cycle) : nat :=
  match evs with
  | [] => 0
  | ev :: evs => (if own a ev then 1 else 0) + match async_step a ev with Some a' => own_steps evs a' | None => 0 end
  end.

(** The worker is inside the message callback of connection [p]. *)
Definition in_callback (p : conn_ptr) (a : async_cycle) : Prop :=
  handler a = Some (HRead p) /\ exists k h b, heap (ac_cycle a) !! p = Some k /\ reading k = InCallback h b.

(** ** Lemmas *)

(** Every connection of a snapshot is closed. *)
Lemma stop_cycle_spec c :
  acceptor_is_open (stop_cycle c) = false /\ running_ (stop_cycle c) = false /\
  closing (stop_cycle c) = [] /\ conns_ (conn_mgr_ (stop_cycle c)) = ∅ /\
  (forall p k, heap c !! p = Some k ->
     heap (stop_cycle c) !! p =
       Some (if bool_decide (p ∈ closing c \/ p ∈ all_connections (conn_mgr_ c)) then close k else k)).
Proof.
  split_and!; try done. intros p k Hk. unfold stop_cycle. cbn. rewrite close_all_heap, Hk. cbn.
  rewrite (bool_decide_ext (p ∈ closing c ++ all_connections (conn_mgr_ c)) _ (elem_of_app _ _ _)).
  by destruct (bool_decide_reflect (p ∈ closing c \/ p ∈ all_connections (conn_mgr_ c))).
Qed.

Lemma close_all_steps l c :
  closing c = l -> rtc cycle_trans c (set_pending (removing c) [] (set_heap (foldl (fun h p => alter close p h) (heap c) l) c)).
Proof.
  revert c. induction l as [|p l IH]; intros c Hl.
  - destruct c. cbn in *. subst. apply rtc_refl.
  - eapply rtc_l; [exists (CClose 0); cbn; unfold stop_close; by rewrite Hl|].
    specialize (IH (set_pending (removing c) l (set_heap (alter close p (heap c)) c)) eq_refl).
    exact IH.
Qed.

Lemma stop_cycle_reachable c : cycle_reachable c -> cycle_reachable (stop_cycle c).
Proof.
  intros Hr. unfold cycle_reachable, stop_cycle in *. etransitivity; [exact Hr|].
  eapply rtc_l; [by exists CStop|]. eapply rtc_l; [by exists CTake|]. by apply close_all_steps.
Qed.

(** Closing connections takes nothing from a handler and gives it nothing. *)
Lemma stop_cycle_conn c p :
  match heap c !! p, heap (stop_cycle c) !! p with
  | Some k, Some k' => reading k' = reading k /\ writers k' = writers k
  | None, None => True
  | _, _ => False
  end.
Proof.
  unfold stop_cycle. cbn. rewrite close_all_heap.
  destruct (bool_decide _), (heap c !! p) as [k|]; cbn; try done. unfold close. by destruct (closed_ k).
Qed.

Lemma stop_cycle_work h c : handler_work h (stop_cycle c) = handler_work h c.
Proof.
  destruct h as [|p|p|p]; cbn [handler_work]; try done; pose proof (stop_cycle_conn c p) as Hk;
    destruct (heap c !! p) as [k|], (heap (stop_cycle c) !! p) as [k'|]; try done;
    destruct Hk as [Hr Hw]; by rewrite ?Hr, ?Hw.
Qed.

(** ** Invariant *)

Record async_inv (a : async_cycle) : Prop := {
  as_cycle : cycle_reachable (ac_cycle a);
  as_joining : joining a = true -> ios_stopped a = true /\ worker_ a <> NoWorker;
  as_finished : worker_ a = Finished -> ios_stopped a = true;
  as_handler h : handler a = Some h -> worker_ a = InRun /\ (0 < handler_work h (ac_cycle a))%nat
}.

Lemma in_handler_inv h a :
  cycle_reachable (ac_cycle a) -> (joining a = true -> ios_stopped a = true /\ worker_ a <> NoWorker) ->
  (worker_ a = Finished -> ios_stopped a = true) -> (h <> None -> worker_ a = InRun) -> async_inv (in_handler h a).
Proof.
  intros Hc Hj Hf Hw. split; cbn; try done. intros h' Eh. destruct h as [h0|]; [|done]. cbn in Eh.
  destruct (Nat.eqb_spec (handler_work h0 (ac_cycle a)) 0); [done|]. injection Eh as <-. split; [by apply Hw|lia].
Qed.

Lemma loop_step_inv a ev d : async_inv a -> loop_step ev a = Some d -> async_inv d.
Proof.
  intros [Hc Hj Hf Hh] E. unfold loop_step in E. destruct (begins ev) as [h|].
  - destruct (worker_ a) eqn:Ew, (handler a) eqn:Eh; try done. destruct (ios_stopped a) eqn:Es; [done|].
    destruct (cycle_step (ac_cycle a) ev) as [c|] eqn:Ec; [|done]. injection E as <-.
    apply in_handler_inv; cbn; rewrite ?Ew; try done. eapply rtc_r; [exact Hc|by exists ev].
  - destruct (permitted a ev); [|done]. destruct (cycle_step (ac_cycle a) ev) as [c|] eqn:Ec; [|done]. injection E as <-.
    apply in_handler_inv; cbn; try done; [eapply rtc_r; [exact Hc|by exists ev]|].
    intros Hne. destruct (handler a) as [h|] eqn:Eh; [|done]. by apply (Hh h).
Qed.

Lemma stop_inv who a : async_inv a -> async_inv (stop who a).
Proof.
  intros [Hc Hj Hf Hh].
  assert (forall j t, (j = true -> worker_ a <> NoWorker) ->
    async_inv (with_worker (worker_ a) j t (with_cycle (stop_cycle (ac_cycle a)) true a))) as Hstop.
  { intros j t Hw. split; cbn; try done; [by apply stop_cycle_reachable|by auto|].
    intros h Eh. destruct (Hh h Eh) as [? Hlt]. by rewrite stop_cycle_work. }
  assert (joining a = true -> worker_ a <> NoWorker) as Hn by (intros Ej; by apply Hj).
  pose proof (Hstop (joining a) (ac_terminated a) Hn) as Hplain.
  unfold stop, joinable. destruct a as [c w h s j t]. cbn in *.
  destruct w; [exact Hplain|destruct who; apply Hstop; by auto..].
Qed.

Lemma async_step_inv a ev d : async_inv a -> async_step a ev = Some d -> async_inv d.
Proof.
  intros Hinv E. unfold async_step in E. destruct (ac_terminated a); [done|].
  destruct ev as [| | |who| |ev]; [..|by eapply loop_step_inv]; pose proof Hinv as [Hc Hj Hf Hh].
  - destruct (joining a) eqn:Ej; [done|]. injection E as <-. unfold run_async, joinable.
    destruct (worker_ a) eqn:Ew; split; cbn; rewrite ?Ew, ?Ej; try done; intros h Eh; by destruct (Hh h Eh).
  - unfold worker_enters in E. destruct (worker_ a) eqn:Ew; try done. injection E as <-. split; cbn; try done.
    + eapply rtc_r; [exact Hc|by exists CRun].
    + intros Ej. by destruct (Hj Ej).
    + intros h Eh. by destruct (Hh h Eh).
  - unfold worker_returns in E. destruct (worker_ a) eqn:Ew, (handler a) eqn:Eh, (ios_stopped a) eqn:Es; try done.
    injection E as <-. split; cbn; rewrite ?Es, ?Eh; by auto.
  - assert (d = stop who a) as -> by (destruct who; [by destruct (joining a); simplify_eq|
      by destruct (stops_itself a); simplify_eq]).
    by apply stop_inv.
  - unfold join_returns in E. destruct (worker_ a) eqn:Ew; try done. destruct (joining a) eqn:Ej; [|done]. injection E as <-.
    split; cbn; try done. intros h Eh. by destruct (Hh h Eh).
Qed.

Lemma async_inv_reachable a : async_reachable a -> async_inv a.
Proof.
  intros Hr. refine (steps_invariant async_step async_inv _ _ _ Hr _); [exact async_step_inv|].
  split; cbn; try done. apply rtc_refl.
Qed.

(** ** The rest of a handler *)

(** Outside completions, a connection step notifies no close; only the return of the
    callback ends the callback. *)
Lemma quiet_conn_step p k ev k' :
  conn_step k ev = Some k' -> begins (CConn p ev) = None -> is_start ev = false ->
  close_calls k' = close_calls k /\
  match ev with
  | EvCallback _ => (exists h b, reading k = InCallback h b) /\ forall h b, reading k' <> InCallback h b
  | _ => reading k' = reading k
  end.
Proof.
  intros E Hb Hs. destruct ev; try done; cbn in E;
    unfold send_begin, send_push, do_write, issue_write, callback_done, close in E; split_match E; simplify_eq;
    cbn; naive_solver.
Qed.

(** A writer that has begun is alone: nobody starts another, and its next step
    brings it nearer to the issue of its write. *)
Lemma writer_work p k ev k' :
  wq_inv true (conn_wq k) -> conn_step k ev = Some k' -> begins (CConn p ev) = None ->
  (0 < sum_list (writer_weight <$> writers k))%nat ->
  (match ev with EvDoWrite _ | EvIssue _ => 1 | _ => 0 end + sum_list (writer_weight <$> writers k') <=
   sum_list (writer_weight <$> writers k))%nat.
Proof.
  intros Hq E Hb Hlt. pose proof (inv_single _ _ Hq) as H1. pose proof (inv_flag _ _ Hq) as Hf. cbn in H1, Hf.
  assert (writing_ k = true) as Hw by (apply Hf; intros En; rewrite En in Hlt; cbn in Hlt; lia).
  destruct (writers k) as [|x [|? ?]] eqn:Ew; cbn in *; [lia| |lia].
  destruct ev; try done; cbn in E;
    unfold send_begin, send_push, do_write, issue_write, callback_done, start_read, close in E; rewrite ?Ew, ?Hw in E.
  5,6: destruct i as [|[|i]]; try done; destruct x; try done.
  all: split_match E; simplify_eq; cbn; rewrite ?Ew; cbn; lia.
Qed.

(** The step of a loop that is no completion, on the rest of handler [h]. *)
Definition rest (a : async_cycle) : nat :=
  match handler a with Some h => handler_work h (ac_cycle a) | None => 0 end.

Lemma rest_in_handler h a : rest (in_handler (Some h) a) = handler_work h (ac_cycle a).
Proof. unfold rest, in_handler. cbn. by destruct (Nat.eqb_spec (handler_work h (ac_cycle a)) 0). Qed.

Lemma close_cb_weight i c c' p :
  cycle_inv c -> close_cb i c = Some c' -> removing c !! i = Some p ->
  heap c' = heap c /\ close_weight p c = 1%nat /\ close_weight p c' = 0%nat.
Proof.
  intros Hinv E Hi. unfold close_cb in E. rewrite Hi in E. apply bind_Some in E as (k & _ & E). injection E as <-.
  destruct (proj1 (NoDup_app _ _) (cy_nodup c Hinv)) as [Hnd _].
  split; [done|]. unfold close_weight. cbn. rewrite bool_decide_eq_true_2 by (by eapply list_elem_of_lookup_2).
  rewrite bool_decide_eq_false_2; [done|]. rewrite (delete_permutation _ _ _ Hi) in Hnd. by apply NoDup_cons in Hnd as [? _].
Qed.

(** What a step that begins no handler does to the parts a handler waits for. *)
Lemma conn_event_rest h p ev c c' :
  cycle_reachable c -> conn_event_on p ev c = Some c' -> begins (CConn p ev) = None -> is_start ev = false ->
  (match ev with EvCallback _ => h = HRead p | _ => True end) -> (0 < handler_work h c)%nat ->
  (match ev with
   | EvCallback _ => 1
   | EvDoWrite _ | EvIssue _ => match h with HWrite q => if bool_decide (p = q) then 1 else 0 | _ => 0 end
   | _ => 0
   end + handler_work h c' <= handler_work h c)%nat.
Proof.
  intros Hr E Hb Hs Hh Hlt. unfold conn_event_on in E. destruct (heap c !! p) as [k|] eqn:Hk; [|done].
  apply bind_Some in E as (k' & Ek & E). destruct (quiet_conn_step p _ _ _ Ek Hb Hs) as [Hn Hrd].
  rewrite Hn, Nat.eqb_refl in E. injection E as <-. destruct h as [|q|q|q]; cbn in *.
  - destruct ev; try done; cbn; lia.
  - unfold close_weight. cbn. destruct (decide (p = q)) as [<-|Hne].
    + rewrite list_lookup_insert_eq by (by eapply lookup_lt_Some). rewrite Hk in *.
      destruct ev; try (rewrite Hrd; lia). destruct Hrd as [(h & b & ->) Hno].
      destruct (reading k'); try lia. by destruct (Hno h0 body).
    + rewrite list_lookup_insert_ne by done. destruct ev; try lia. by injection Hh.
  - destruct (decide (p = q)) as [<-|Hne].
    + rewrite list_lookup_insert_eq by (by eapply lookup_lt_Some). rewrite Hk in *.
      rewrite bool_decide_eq_true_2 by done.
      pose proof (writer_work p _ _ _ (cycle_conn_wq c p k Hr Hk) Ek Hb Hlt). by destruct ev.
    + rewrite list_lookup_insert_ne by done. rewrite bool_decide_eq_false_2 by done. by destruct ev.
  - unfold close_weight. cbn. by destruct ev.
Qed.

(** A handler only goes on: a step of its own uses up some of what is left of it,
    and nobody else gives it more to do. *)
Lemma loop_step_rest a ev d :
  async_inv a -> loop_step ev a = Some d -> ios_stopped a = true ->
  (handler d = None \/ handler d = handler a) /\ worker_ d = worker_ a /\ joining d = joining a /\
  ((if own a (ACycle ev) then 1 else 0) + rest d <= rest a)%nat.
Proof.
  intros Hinv E Hst. unfold loop_step in E. destruct (begins ev) eqn:Hb.
  { destruct (worker_ a), (handler a); try done. by rewrite Hst in E. }
  destruct (permitted a ev) eqn:Hp; [|done]. apply bind_Some in E as (c' & Ec & E).
  destruct Hinv as [Hc _ _ Hh]. destruct (handler a) as [h|] eqn:Eh.
  2: { injection E as <-. cbn. rewrite Eh. unfold own, permitted in *. rewrite Eh in Hp.
       split_and!; auto. destruct ev as [| | | | | |p []|i| | |]; cbn in *; rewrite ?Eh; try done; lia. }
  destruct (Hh h eq_refl) as [Hw Hlt]. injection E as <-. rewrite rest_in_handler. unfold rest at 1. rewrite Eh.
  split_and!; [cbn; destruct (_ =? 0)%nat; auto|done|done|]. cbn [ac_cycle with_worker with_cycle].
  pose proof (cycle_reachable_inv _ Hc) as Hci. unfold permitted in Hp. rewrite Eh in Hp.
  destruct ev as [port failing| |ok| | | |p ev|i| | |]; try done; cbn in Ec.
  - apply listen_step in Ec as (on & ac & ch & -> & Hch). cbn [own]. destruct h; try done; cbn.
    by destruct Hch as [->| ->]; cbn; lia.
  - destruct h; try done. unfold accept_insert in Ec. cbn in *. destruct (chain (ac_cycle a)); try done.
    injection Ec as <-. cbn. lia.
  - destruct h; try done. unfold accept_start in Ec. cbn in *. destruct (chain (ac_cycle a)); try done.
    injection Ec as <-. cbn. lia.
  - destruct h; try done. unfold accept_again in Ec. cbn in *. destruct (chain (ac_cycle a)); try done.
    injection Ec as <-. by destruct (running_ _).
  - destruct (is_start ev) eqn:Es; [done|].
    assert (match ev with EvCallback _ => h = HRead p | _ => True end) as Hcb.
    { destruct ev; try done. destruct h; try done. by apply bool_decide_eq_true_1 in Hp as ->. }
    pose proof (conn_event_rest h p ev _ _ Hc Ec Hb Es Hcb Hlt) as Hle.
    etransitivity; [|exact Hle]. apply Nat.add_le_mono_r. destruct ev; cbn; rewrite ?Eh; try done; destruct h; lia.
  - destruct h as [|p|p|p]; try done; apply bool_decide_eq_true_1 in Hp;
      destruct (close_cb_weight _ _ _ p Hci Ec Hp) as (Hheap & H1 & H2); cbn [own handler_work] in *;
      rewrite ?Hheap, H1, H2; lia.
Qed.

(** What is left before the join returns. *)
Definition join_work (a : async_cycle) : nat :=
  match worker_ a with Spawned => 3 | InRun => 2 | Finished => 1 | NoWorker => 0 end.

Definition left_work (a : async_cycle) : nat := join_work a + rest a.

Lemma stopping_step a ev d :
  async_inv a -> joining a = true -> ev <> AJoin -> async_step a ev = Some d -> ac_terminated d = false ->
  joining d = true /\ (handler d = None \/ handler d = handler a) /\
  ((if own a ev then 1 else 0) + left_work d <= left_work a)%nat.
Proof.
  intros Hinv Hj Hne E Hal. destruct (as_joining a Hinv Hj) as [Hst _]. pose proof (as_handler a Hinv) as Hh.
  unfold async_step in E. destruct (ac_terminated a); [done|]. rewrite Hj in E.
  destruct ev as [| | |[]| |ev]; try done.
  - unfold worker_enters in E. unfold left_work, join_work, rest. destruct (worker_ a); try done.
    injection E as <-. cbn. destruct (handler a) as [h|]; [by destruct (Hh h eq_refl)|]. auto.
  - unfold worker_returns in E. unfold left_work, join_work, rest.
    destruct (worker_ a), (handler a) eqn:Eh, (ios_stopped a); try done. injection E as <-. cbn. rewrite Eh. auto.
  - destruct (stops_itself a) eqn:Es; [|done]. injection E as <-. unfold stops_itself in Es.
    unfold stop, joinable in Hal. cbn in Hal. by destruct (worker_ a).
  - destruct (loop_step_rest a ev d Hinv E Hst) as (H1 & H2 & H3 & H4). split_and!; [congruence|done|].
    unfold left_work, join_work. rewrite H2. lia.
Qed.

(** As long as the join waits, it is for a step that the worker can do. *)
Lemma handler_goes_on a h :
  async_inv a -> ac_terminated a = false -> handler a = Some h ->
  exists ev d, own a ev = true /\ async_step a ev = Some d /\ ac_terminated d = false.
Proof.
  intros Hinv Hal Eh. destruct Hinv as [Hc _ _ Hh]. destruct (Hh h Eh) as [Hw Hlt].
  pose proof (cycle_reachable_inv _ Hc) as Hci.
  assert (forall ev c', own a (ACycle ev) = true -> begins ev = None -> permitted a ev = true -> escapes ev = false ->
    cycle_step (ac_cycle a) ev = Some c' ->
    exists ev d, own a ev = true /\ async_step a ev = Some d /\ ac_terminated d = false) as Hgo.
  { intros ev c' Ho Hb Hp He Ec. exists (ACycle ev). eexists. split; [done|]. unfold async_step. rewrite Hal.
    unfold loop_step. rewrite Hb, Hp, Ec. cbn. split; [done|]. cbn. by rewrite Hal, He. }
  assert (forall p, (h = HRead p \/ h = HClose p) -> (0 < close_weight p (ac_cycle a))%nat ->
    exists ev d, own a ev = true /\ async_step a ev = Some d /\ ac_terminated d = false) as Hclose.
  { intros p Hp Hcl. unfold close_weight in Hcl.
    destruct (bool_decide_reflect (p ∈ removing (ac_cycle a))) as [Hin|]; [|lia].
    pose proof Hin as [i Hi]%list_elem_of_lookup.
    destruct (lookup_lt_is_Some_2 (heap (ac_cycle a)) p) as [k Hk].
    { apply (cy_inserted _ Hci), (cy_removing _ Hci), elem_of_app. auto. }
    eapply (Hgo (CCloseCb i)); [done|done| |done|cbn; unfold close_cb; rewrite Hi, Hk; done].
    unfold permitted. rewrite Eh. by destruct Hp as [-> | ->]; apply bool_decide_eq_true_2. }
  destruct h as [|p|p|p]; cbn in Hlt.
  - destruct (chain (ac_cycle a)) eqn:Ech; try lia;
      [eapply (Hgo CInsert)|eapply (Hgo CStart)|eapply (Hgo CAgain)]; try done;
      cbn; rewrite ?Eh; try done; unfold accept_insert, accept_start, accept_again; by rewrite Ech.
  - destruct (decide (0 < close_weight p (ac_cycle a))%nat) as [Hcl|]; [by apply (Hclose p); auto|].
    destruct (heap (ac_cycle a) !! p) as [k|] eqn:Hk; [|lia]. destruct (reading k) eqn:Er; try lia.
    eapply (Hgo (CConn p (EvCallback true))); try done; cbn; rewrite ?Eh; [by apply bool_decide_eq_true_2|].
    unfold conn_event_on. rewrite Hk. cbn. by rewrite Er.
  - destruct (heap (ac_cycle a) !! p) as [k|] eqn:Hk; [|lia].
    destruct (writers k) as [|x ws] eqn:Ewr; cbn in Hlt; [lia|].
    pose proof (inv_single _ _ (cycle_conn_wq _ p k Hc Hk)) as H1. cbn in H1. rewrite Ewr in H1.
    destruct ws; cbn in *; [|lia]. destruct x; cbn in Hlt; [| |lia].
    + eapply (Hgo (CConn p (EvDoWrite 0))); try done; cbn; rewrite ?Eh; [by apply bool_decide_eq_true_2|].
      unfold conn_event_on. rewrite Hk. cbn. unfold do_write. by rewrite Ewr.
    + eapply (Hgo (CConn p (EvIssue 0))); try done; cbn; rewrite ?Eh; [by apply bool_decide_eq_true_2|].
      unfold conn_event_on. rewrite Hk. cbn. unfold issue_write. by rewrite Ewr.
  - apply (Hclose p); auto.
Qed.

Lemma joining_progress a :
  async_inv a -> ac_terminated a = false -> joining a = true ->
  exists ev d, own a ev = true /\ async_step a ev = Some d /\ ac_terminated d = false.
Proof.
  intros Hinv Hal Hj. destruct (as_joining a Hinv Hj) as [Hst Hw].
  destruct (handler a) as [h|] eqn:Eh; [by eapply handler_goes_on|].
  destruct (worker_ a) eqn:Ew; [done|exists AEnter|exists AReturn|exists AJoin];
    unfold async_step, worker_enters, worker_returns, join_returns; rewrite Hal, Ew, ?Eh, ?Hst, ?Hj; eauto.
Qed.

Lemma left_work_bound a : async_inv a -> (left_work a <= 5)%nat.
Proof.
  intros [Hc _ _ Hh]. unfold left_work, rest. destruct (handler a) as [h|].
  2: unfold join_work; destruct (worker_ a); lia.
  destruct (Hh h eq_refl) as [Hw _]. unfold join_work. rewrite Hw.
  assert (forall p, (close_weight p (ac_cycle a) <= 1)%nat) as Hcl
    by (intros p; unfold close_weight; destruct (bool_decide _); lia).
  destruct h as [|p|p|p]; cbn.
  - destruct (chain _); lia.
  - specialize (Hcl p). destruct (heap _ !! p) as [k|]; [destruct (reading k)|]; lia.
  - destruct (heap (ac_cycle a) !! p) as [k|] eqn:Hk; [|lia].
    pose proof (inv_single _ _ (cycle_conn_wq _ p k Hc Hk)) as H1. cbn in H1.
    destruct (writers k) as [|x [|? ?]]; cbn in *; [lia|destruct x; cbn; lia|lia].
  - specialize (Hcl p). lia.
Qed.

Lemma terminated_stays ev evs a b c :
  async_step a ev = Some b -> run async_step evs b = Some c -> ac_terminated c = false -> ac_terminated b = false.
Proof.
  intros _ E Hal. destruct (ac_terminated b) eqn:Eb; [|done]. destruct evs as [|ev' evs]; cbn in E; [congruence|].
  unfold async_step in E. by rewrite Eb in E.
Qed.

(** A run until the join returns. *)
Lemma stopping_run evs a c :
  async_inv a -> joining a = true -> AJoin ∉ evs -> run async_step evs a = Some c -> ac_terminated c = false ->
  async_inv c /\ joining c = true /\ (handler c = None \/ handler c = handler a) /\
  (own_steps evs a + left_work c <= left_work a)%nat.
Proof.
  revert a. induction evs as [|ev evs IH]; intros a Hinv Hj Hn E Hal; cbn in E.
  - injection E as <-. auto.
  - apply bind_Some in E as (b & Eb & E). apply not_elem_of_cons in Hn as [Hne Hn].
    pose proof (terminated_stays _ _ _ _ _ Eb E Hal) as Hb.
    destruct (stopping_step a ev b Hinv Hj (not_eq_sym Hne) Eb Hb) as (Hjb & Hhb & Hw).
    destruct (IH b (async_step_inv _ _ _ Hinv Eb) Hjb Hn E Hal) as (H1 & H2 & H3 & H4).
    split_and!; [done|done|destruct H3 as [?|H3]; [auto|rewrite H3; auto]|]. cbn [own_steps]. rewrite Eb. lia.
Qed.

(** The message callback ends by its own return only. *)
Lemma in_callback_step p a ev d :
  async_inv a -> joining a = true -> in_callback p a -> (forall r, ev <> ACycle (CConn p (EvCallback r))) ->
  async_step a ev = Some d -> ac_terminated d = false -> in_callback p d /\ joining d = true /\ ev <> AJoin.
Proof.
  intros Hinv Hj [Eh (k & h & b & Hk & Er)] Hne E Hal. destruct (as_handler a Hinv _ Eh) as [Hw _].
  assert (ev <> AJoin) as Hnj.
  { intros ->. unfold async_step, join_returns in E. rewrite Hw in E. by destruct (ac_terminated a). }
  destruct (stopping_step a ev d Hinv Hj Hnj E Hal) as (Hjd & _ & _). split_and!; [|done|done].
  unfold async_step in E. destruct (ac_terminated a); [done|]. rewrite Hj in E.
  destruct ev as [| | |[]| |ev]; try done.
  - unfold worker_enters in E. by rewrite Hw in E.
  - unfold worker_returns in E. by rewrite Hw, Eh in E.
  - destruct (stops_itself a); [|done]. injection E as <-. unfold stop, joinable in Hal. cbn in Hal.
    by rewrite Hw in Hal.
  - unfold loop_step in E. rewrite Hw, Eh in E. destruct (begins ev) eqn:Hb; [done|].
    destruct (permitted a ev) eqn:Hp; [|done]. apply bind_Some in E as (c & Ec & E). injection E as <-.
    assert (exists k', heap c !! p = Some k' /\ reading k' = InCallback h b) as (k' & Hk' & Er').
    { unfold permitted in Hp. rewrite Eh in Hp. destruct ev as [port failing| | | | | |q ev|i| | |]; try done; cbn in Ec.
      - apply listen_step in Ec as (on & ac & ch & -> & _). eauto.
      - destruct (is_start ev) eqn:Es; [done|]. unfold conn_event_on in Ec.
        destruct (heap (ac_cycle a) !! q) as [kq|] eqn:Hq; [|done].
        apply bind_Some in Ec as (kq' & Ek & Ec). destruct (quiet_conn_step q _ _ _ Ek Hb Es) as [_ Hrd].
        injection Ec as <-. cbn. destruct (decide (q = p)) as [->|Hqp].
        + rewrite list_lookup_insert_eq by (by eapply lookup_lt_Some). exists kq'. split; [done|].
          assert (kq = k) as -> by congruence. destruct ev as [| | |r| | | | | |]; congruence.
        + rewrite list_lookup_insert_ne by done. eauto.
      - unfold close_cb in Ec. destruct (removing _ !! i); [|done]. apply bind_Some in Ec as (kq & _ & Ec).
        injection Ec as <-. eauto. }
    split; [|by eauto 10]. unfold in_handler. cbn. by rewrite Hk', Er'.
Qed.

Lemma in_callback_run p evs a c :
  async_inv a -> joining a = true -> in_callback p a -> (forall r, ACycle (CConn p (EvCallback r)) ∉ evs) ->
  run async_step evs a = Some c -> ac_terminated c = false -> in_callback p c /\ joining c = true.
Proof.
  revert a. induction evs as [|ev evs IH]; intros a Hinv Hj Hcb Hn E Hal; cbn in E.
  - injection E as <-. auto.
  - apply bind_Some in E as (b & Eb & E). pose proof (terminated_stays _ _ _ _ _ Eb E Hal) as Hb.
    destruct (in_callback_step p a ev b Hinv Hj Hcb) as (Hcb' & Hj' & _); [|done|done|].
    { intros r ->. apply (Hn r), list_elem_of_here. }
    eapply (IH b); eauto using async_step_inv. intros r Hr. by apply (Hn r), list_elem_of_further.
Qed.

(** [stop] from another thread leaves the worker, and what it is inside, alone. *)
Lemma stop_outside a :
  joining a = false ->
  let b := stop Outside a in
  ac_cycle b = stop_cycle (ac_cycle a) /\ worker_ b = worker_ a /\ handler b = handler a /\
  joining b = joinable a.
Proof. intros Hj. unfold stop, joinable. destruct a as [c w h s j t]. cbn in *. subst j. by destruct w. Qed.

(** ** Theorems *)

(** C26: [stop] from another thread ends the loop, and its join returns unless a
    message callback does not.  In any reachable state, a [stop] from outside closes
    the acceptor, empties the table and closes every connection that was in it.  If
    there is no worker, [stop] has returned.  If there is one, [stop] is inside
    [join], and whatever the worker, connections' threads and the application do in
    whatever order, until the join returns: the worker enters no other handler than
    the one it was inside, at most four steps are its own (leaving [run], and the
    rest of that handler), and there always is a next one, ending in the return of
    the join, after which there is no worker any more.  The one such step that is
    not the library's is the return of the message callback: as long as the callback
    the worker was inside has not returned, neither has the join. *)
Theorem stop_joins_worker a b :
  async_reachable a -> async_step a (AStop Outside) = Some b ->
  acceptor_is_open (ac_cycle b) = false /\ conns_ (conn_mgr_ (ac_cycle b)) = ∅ /\
  (forall p k, heap (ac_cycle a) !! p = Some k -> p ∈ all_connections (conn_mgr_ (ac_cycle a)) ->
     exists k', heap (ac_cycle b) !! p = Some k' /\ closed_ k' = true) /\
  (worker_ a = NoWorker -> worker_ b = NoWorker /\ joining b = false) /\
  (worker_ a <> NoWorker ->
     (forall evs c, AJoin ∉ evs -> run async_step evs b = Some c -> ac_terminated c = false ->
        joining c = true /\ (handler c = None \/ handler c = handler a) /\ (own_steps evs b <= 4)%nat /\
        (exists ev d, own c ev = true /\ async_step c ev = Some d /\ ac_terminated d = false) /\
        (forall d, async_step c AJoin = Some d -> worker_ d = NoWorker /\ joining d = false)) /\
     (forall p evs c, in_callback p a -> (forall r, ACycle (CConn p (EvCallback r)) ∉ evs) ->
        run async_step evs b = Some c -> ac_terminated c = false -> in_callback p c /\ joining c = true)).
Proof.
  intros Hr E. pose proof (async_step_inv a _ b (async_inv_reachable a Hr) E) as Hinv.
  unfold async_step in E. destruct (ac_terminated a); [done|]. destruct (joining a) eqn:Ej; [done|].
  injection E as <-. destruct (stop_outside a Ej) as (Ec & Ew & Eh & Ejo). set (b := stop Outside a) in *.
  destruct (stop_cycle_spec (ac_cycle a)) as (S1 & S2 & S3 & S4 & S5).
  split_and!; [by rewrite Ec|by rewrite Ec| | |].
  - intros p k Hk Hp. rewrite Ec, (S5 p k Hk), bool_decide_eq_true_2 by auto. eexists. split; [done|].
    apply close_closed.
  - intros En. split; [by rewrite Ew|]. rewrite Ejo. unfold joinable. by rewrite En.
  - intros Hn. assert (joining b = true) as Hj by (rewrite Ejo; unfold joinable; by destruct (worker_ a)).
    split.
    + intros evs c Hnj Er Hal. destruct (stopping_run evs b c Hinv Hj Hnj Er Hal) as (Hc & Hjc & Hhc & Hw).
      pose proof (left_work_bound b Hinv) as H5. destruct (as_joining c Hc Hjc) as [_ Hwc].
      rewrite Eh in Hhc. split_and!; [done|done| |by apply joining_progress|].
      * unfold left_work at 1, join_work in Hw. destruct (worker_ c); [done|lia..].
      * intros d Ed. unfold async_step, join_returns in Ed. rewrite Hal, Hjc in Ed.
        destruct (worker_ c); try done. by injection Ed as <-.
    + intros p evs c [Hhp (k & h & body & Hk & Erd)]. apply in_callback_run; [done|done|]. split; [by rewrite Eh|].
      pose proof (stop_cycle_conn (ac_cycle a) p) as Hs. rewrite Hk, <- Ec in Hs.
      destruct (heap (ac_cycle b) !! p) as [k'|]; [|done]. destruct Hs as [Hs _]. rewrite Erd in Hs. eauto.
Qed.

(** The signal handler of [run] calls [stop] on the thread that runs the loop.
    After [run_async] that thread is the worker, which then joins itself: the
    program terminates instead of stopping.  So does a message callback that
    throws.  And a [stop] that comes before the worker has entered [run] is
    forgotten: the flag it cleared is set again, and the stopped loop reports that
    it is running. *)
Theorem stop_on_worker_terminates :
  (forall a b, async_step a (AStop Worker) = Some b -> ac_terminated b = true) /\
  (exists a b, async_reachable a /\ async_step a (AStop Worker) = Some b) /\
  (forall a p b, async_step a (ACycle (CConn p (EvCallback false))) = Some b -> ac_terminated b = true) /\
  (exists a, async_reachable a /\ ios_stopped a = true /\ worker_ a = NoWorker /\
     is_running (ac_cycle a) = true).
Proof.
  split_and!.
  - intros a b E. unfold async_step in E. destruct (ac_terminated a); [done|].
    destruct (stops_itself a) eqn:Es; [|done]. injection E as <-. unfold stops_itself in Es.
    unfold stop, joinable. cbn. by destruct (worker_ a).
  - eexists (default async_init (run async_step [ARunAsync; AEnter] async_init)), _.
    split; [apply run_reachable|reflexivity].
  - intros a p b E. unfold async_step in E. destruct (ac_terminated a); [done|]. unfold loop_step in E. cbn [begins] in E.
    destruct (permitted _ _); [|done]. apply bind_Some in E as (c & _ & E). injection E as <-. cbn.
    by rewrite orb_true_r.
  - exists (default async_init (run async_step [ARunAsync; AStop Outside; AEnter; AReturn; AJoin] async_init)).
    split; [apply run_reachable|done].
Qed.

(** A worker inside the message callback of the connection it accepted, and the
    stop that waits for it. *)
Definition empty_message : RpcHeader :=
  {| magic := MAGIC; version := VERSION; msg_type := 0; serializer := 0; flags := 0; seq_id := 1;
     body_size := 0; checksum := 0 |}.
Definition async_running : async_cycle :=
  default async_init (run async_step
    ([ACycle (CListen 9000 None); ARunAsync; AEnter; ACycle (CAccept true); ACycle CInsert; ACycle CStart;
      ACycle CAgain; ACycle (CConn 0 (EvHeader (Some (header_bytes empty_message))));
      ACycle (CConn 0 (EvBody (Some [])))]) async_init).
Lemma async_running_reachable : async_reachable async_running.
Proof. apply run_reachable. Qed.

(** The application closes the connection meanwhile. *)
Definition async_waiting : async_cycle :=
  default async_init (run async_step [ACycle (CConn 0 EvClose)] (stop Outside async_running)).

Lemma stop_joins_worker_witness :
  (in_callback 0 async_waiting /\ joining async_waiting = true) /\
  worker_ <$> run async_step [ACycle (CConn 0 (EvCallback true)); AReturn; AJoin] async_waiting = Some NoWorker.
Proof.
  split; [|by vm_compute].
  destruct (stop_joins_worker async_running (stop Outside async_running)) as (_ & _ & _ & _ & H);
    [exact async_running_reachable|by vm_compute|].
  destruct H as [_ H]; [by vm_compute|]. apply (H 0%nat [ACycle (CConn 0 EvClose)]).
  - split; [by vm_compute|]. eexists _, _, _. split; by vm_compute.
  - intros r Hr. by apply list_elem_of_singleton in Hr.
  - by vm_compute.
  - by vm_compute.
Defined.
