(* ===== verification/RpcServer.v ===== *)
(** * The server: [src/core/rpc_service.h/.cpp]

    First the functions that turn one request into one response, then the
    server as a whole: the event loop, the service registry and the thread pool,
    which is any [Executor]. *)
From S2P Require Import Prelude Protocol ErrorCode ServiceManager Framing Connection.
From S2P Require Import ConnectionManager MessageCycle Executor ThreadPool.

(** ** One request *)

(** [std::string(e.what())]: the characters before the first NUL. *)
Fixpoint c_str (s : str) : str :=
  match s with
  | [] => []
  | c :: r => if ord c =? 0 then [] else c :: c_str r
  end.

Definition RpcResponse_init : RpcResponse := {| error_code := 0; error_msg := []; result := [] |}.

Definition with_error (ec : ErrorCode) (msg : str) (resp : RpcResponse) : RpcResponse :=
  {| error_code := ErrorCode_value ec; error_msg := msg; result := result resp |}.

(** The second [try] block: [catch (const std::runtime_error&)] only. *)
Definition process_dispatch (req : RpcRequest) (m : ServiceManager) (resp : RpcResponse)
    : outcome RpcResponse :=
  match dispatch (service_name req) (method_name req) (params req) m with
  | Ok res => Ok {| error_code := 0; error_msg := error_msg resp; result := res |}
  | Throw (runtime_error what) =>
      let err := c_str what in
      Ok (with_error
            (if contains (bs "service not found") err then SERVICE_NOT_FOUND
             else if contains (bs "method not found") err then METHOD_NOT_FOUND
             else INTERNAL_ERROR) err resp)
  | Throw e => Throw e
  | UB => UB
  end.

Definition process_request (header : RpcHeader) (body : str) (m : ServiceManager)
    : outcome RpcResponse :=
  let resp := RpcResponse_init in
  if negb (msg_type header =? MsgType_value REQUEST)
  then Ok (with_error INTERNAL_ERROR (bs "unexpected message type") resp)
  else
    match request_deserialize body with
    | Throw (runtime_error what) | Throw (other_std_exception what) =>
        Ok (with_error DESERIALIZE_ERROR (bs "deserialize failed: " ++ c_str what) resp)
    | Throw e => Throw e
    | UB => UB
    | Ok req => process_dispatch req m resp
    end.

(** The header and body [send_response] passes to [Connection::send]. *)
Definition response_message (req_header : RpcHeader) (resp : RpcResponse)
    : outcome (RpcHeader * str) :=
  resp_body ← response_serialize resp;
  Ok ({| magic := MAGIC; version := VERSION;
         msg_type := if error_code resp =? 0 then MsgType_value RESPONSE
                     else MsgType_value RPC_ERROR;
         serializer := serializer req_header; flags := FLAG_NONE;
         seq_id := seq_id req_header; body_size := u32 (len resp_body); checksum := 0 |},
      resp_body).

(** ** Lemmas on requests *)

Lemma c_str_app_no_nul a b : Forall (fun c => ord c <> 0) a -> c_str (a ++ b) = a ++ c_str b.
Proof.
  induction 1 as [|c a Hc _ IH]; cbn; [done|].
  destruct (Z.eqb_spec (ord c) 0); [done|]. by rewrite IH.
Qed.

Lemma c_str_no_nul a : Forall (fun c => ord c <> 0) a -> c_str a = a.
Proof. intros Ha. rewrite <- (app_nil_r a) at 1. rewrite c_str_app_no_nul by done. apply app_nil_r. Qed.

Lemma dispatch_unknown name method ps m :
  get_service name m = None ->
  dispatch name method ps m = Throw (runtime_error (bs "service not found: " ++ name)).
Proof. intros E. unfold dispatch. by rewrite E. Qed.

Lemma response_message_spec h resp :
  len (error_msg resp) + len (result resp) + 10 <= max_size ->
  exists b, response_serialize resp = Ok b /\
    response_message h resp = Ok (
      {| magic := MAGIC; version := VERSION;
         msg_type := if error_code resp =? 0 then 2 else 3;
         serializer := serializer h; flags := 0; seq_id := seq_id h;
         body_size := u32 (len b); checksum := 0 |}, b).
Proof.
  intros Hs. eexists. split; [by apply response_serialize_bytes|].
  unfold response_message. rewrite response_serialize_bytes by done. done.
Qed.

(** ** Theorems on one request *)

(** The handler of the method a request names, when there is one. *)
Definition handler_of (req : RpcRequest) (m : ServiceManager) : option (str -> str -> outcome str) :=
  match get_service (service_name req) m with
  | Some svc => if bool_decide (method_name req ∈ svc_methods svc) then Some (svc_handle svc) else None
  | None => None
  end.

(** C13: every branch of [process_request].  A frame that is not a REQUEST and a
    body that does not decode are answered with their error codes; a request for
    an unknown service or method with its own, and with the name in the message;
    otherwise the handler runs once on the request's method and parameters, its
    value becomes the result with code 0 and a [runtime_error] becomes an error
    response.  The classification holds for texts without NUL in which the
    searched phrases do not occur by accident. *)
Theorem process_request_spec h body m :
  len body <= max_size ->
  (msg_type h <> 1 ->
     process_request h body m =
       Ok {| error_code := -99; error_msg := bs "unexpected message type"; result := [] |}) /\
  (msg_type h = 1 -> (forall req, request_deserialize body <> Ok req) ->
     exists why, process_request h body m =
       Ok {| error_code := -5; error_msg := bs "deserialize failed: " ++ why; result := [] |}) /\
  (forall req, msg_type h = 1 -> request_deserialize body = Ok req ->
     let name := service_name req in
     let full := bs "method not found: " ++ name ++ bs "." ++ method_name req in
     (get_service name m = None -> Forall (fun c => ord c <> 0) name ->
        process_request h body m =
          Ok {| error_code := -1; error_msg := bs "service not found: " ++ name; result := [] |}) /\
     (forall svc, get_service name m = Some svc -> method_name req ∉ svc_methods svc ->
        Forall (fun c => ord c <> 0) full -> contains (bs "service not found") full = false ->
        process_request h body m = Ok {| error_code := -2; error_msg := full; result := [] |}) /\
     (forall f, handler_of req m = Some f ->
        process_request h body m =
          match f (method_name req) (params req) with
          | Ok res => Ok {| error_code := 0; error_msg := []; result := res |}
          | Throw (runtime_error what) =>
              Ok {| error_code := if contains (bs "service not found") (c_str what) then -1
                                  else if contains (bs "method not found") (c_str what) then -2
                                  else -99;
                    error_msg := c_str what; result := [] |}
          | Throw e => Throw e
          | UB => UB
          end)).
Proof.
  intros Hb. unfold process_request. change (MsgType_value REQUEST) with 1. split_and!.
  - intros Ht. apply Z.eqb_neq in Ht. by rewrite Ht.
  - intros Ht Hn. rewrite Ht. cbn.
    pose proof (request_deserialize_cases body Hb) as Hc.
    destruct (request_deserialize body) as [r|[w|w|]|]; cbn in Hc; try done; [by destruct (Hn r)|].
    by eexists.
  - intros req Ht Hd. rewrite Ht, Hd. cbn -[bs contains]. unfold process_dispatch. split_and!.
    + intros Hs Hz. rewrite dispatch_unknown by done.
      assert (c_str (bs "service not found: " ++ service_name req)
              = bs "service not found: " ++ service_name req) as Ec.
      { apply c_str_no_nul, Forall_app. split; [|done].
        apply (bool_decide_unpack _). by vm_compute. }
      rewrite Ec. assert (contains (bs "service not found")
        (bs "service not found: " ++ service_name req) = true) as ->; [|done].
      apply contains_iff. by exists [], (bs ": " ++ service_name req).
    + intros svc Hs Hm Hz Hc. unfold dispatch. rewrite Hs, bool_decide_eq_false_2 by done.
      rewrite (c_str_no_nul _ Hz), Hc.
      assert (contains (bs "method not found")
        (bs "method not found: " ++ service_name req ++ bs "." ++ method_name req) = true) as ->; [|done].
      apply contains_iff. by exists [], (bs ": " ++ service_name req ++ bs "." ++ method_name req).
    + intros f Hf. unfold handler_of in Hf. unfold dispatch.
      destruct (get_service (service_name req) m) as [svc|]; [|done].
      destruct (bool_decide _); [|done]. injection Hf as <-.
      destruct (svc_handle svc _ _) as [res|[w|w|]|]; try done.
      by destruct (contains (bs "service not found") (c_str w)),
        (contains (bs "method not found") (c_str w)).
Qed.

(** A registry with one service, whose method [Echo] returns its parameters and
    whose method [Bad] fails in a way that mentions an unknown service. *)
Definition echo_service : Service :=
  {| svc_name := bs "EchoService"; svc_methods := [bs "Echo"; bs "Bad"; bs "Crash"];
     svc_handle := fun method ps =>
       if bool_decide (method = bs "Echo") then Ok ps
       else if bool_decide (method = bs "Bad") then throw "backend: service not found"
       else Throw unknown_exception |}.
Definition echo_manager : ServiceManager := register_service (Some echo_service) ServiceManager_init.

Definition echo_request (method : string) : RpcRequest :=
  {| service_name := bs "EchoService"; method_name := bs method; timeout_ms := 5000;
     params := bs "ping" |}.
Definition echo_header (seq : Z) (body : str) : RpcHeader :=
  {| magic := MAGIC; version := VERSION; msg_type := 1; serializer := 0; flags := 0;
     seq_id := seq; body_size := len body; checksum := 0 |}.

Lemma process_request_spec_witness :
  let body := request_bytes (echo_request "Echo") in
  process_request (echo_header 7 body) body echo_manager =
    Ok {| error_code := 0; error_msg := []; result := bs "ping" |}.
Proof.
  cbn zeta. set (body := request_bytes (echo_request "Echo")).
  destruct (process_request_spec (echo_header 7 body) body echo_manager) as (_ & _ & H);
    [by vm_compute|].
  assert (request_deserialize body = Ok (echo_request "Echo")) as Hd by (by vm_compute).
  destruct (H (echo_request "Echo") eq_refl Hd) as (_ & _ & Hf).
  rewrite (Hf (svc_handle echo_service)); by vm_compute.
Defined.

(** What a request can cost.  [process_request] gives a response for every
    frame and body whatsoever, except when the handler the request names fails
    with something that is not a [std::runtime_error]: then no response exists.
    And a handler's own [runtime_error] is reported as an unknown service, or an
    unknown method, when its text contains the phrase the server searches for,
    although service and method are registered. *)
Theorem process_request_failures :
  (forall h body m, len body <= max_size ->
     (exists resp, process_request h body m = Ok resp) \/
     exists req f, request_deserialize body = Ok req /\ handler_of req m = Some f /\
       let out := f (method_name req) (params req) in
       (exists e, out = Throw e /\ (forall what, e <> runtime_error what) /\
          process_request h body m = Throw e) \/
       (out = UB /\ process_request h body m = UB)) /\
  (exists h body req f msg, request_deserialize body = Ok req /\
     handler_of req echo_manager = Some f /\
     f (method_name req) (params req) = Throw (runtime_error msg) /\
     process_request h body echo_manager =
       Ok {| error_code := -1; error_msg := msg; result := [] |}) /\
  (exists h body, forall resp, process_request h body echo_manager <> Ok resp).
Proof.
  split_and!.
  - intros h body m Hb. unfold process_request. destruct (negb _); [eauto|].
    pose proof (request_deserialize_cases body Hb) as Hc.
    destruct (request_deserialize body) as [req|[w|w|]|] eqn:Hd; cbn in Hc; try done; [|eauto].
    unfold process_dispatch, dispatch, handler_of.
    destruct (get_service (service_name req) m) as [svc|] eqn:Hs; [|eauto].
    destruct (bool_decide (method_name req ∈ svc_methods svc)) eqn:Hm; [|eauto].
    destruct (svc_handle svc (method_name req) (params req)) as [res|[w|w|]|] eqn:Hf; [eauto..| | |];
      right; exists req, (svc_handle svc); rewrite Hs, Hm; cbn zeta; rewrite Hf; split_and!; eauto.
  - set (body := request_bytes (echo_request "Bad")).
    exists (echo_header 7 body), body, (echo_request "Bad"), (svc_handle echo_service),
      (bs "backend: service not found"). by vm_compute.
  - set (body := request_bytes (echo_request "Crash")).
    exists (echo_header 7 body), body. intros resp. by vm_compute.
Qed.

(** ** The server *)

Abbreviation task := (conn_ptr * frame)%type.

(** A request that has been processed: the task, the registry it saw, what came
    out, and whether a response was handed to the connection. *)
Record answer := {
  an_task : task;
  an_manager : ServiceManager;
  an_out : outcome RpcResponse;
  an_sent : bool
}.

Section server.
Context {X E : Type} {HX : Executor task X E}.

Record RpcServer := {
  cycle_ : MessageCycle;
  thread_pool_ : option X;
  srv_running : bool;                 (* running_ *)
  service_manager : ServiceManager;   (* the process-wide singleton *)
  (* the environment *)
  replying : list conn_ptr;   (* synchronous callbacks inside send *)
  (* histories *)
  received : list task;       (* calls of on_message *)
  refused : list task;        (* enqueue threw *)
  answers : list answer
}.

Definition RpcServer_init : RpcServer :=
  {| cycle_ := MessageCycle_init; thread_pool_ := None; srv_running := false; service_manager := ServiceManager_init;
     replying := []; received := []; refused := []; answers := [] |}.

Definition set_cycle (c : MessageCycle) (s : RpcServer) : RpcServer :=
  {| cycle_ := c; thread_pool_ := thread_pool_ s; srv_running := srv_running s; service_manager := service_manager s;
     replying := replying s; received := received s; refused := refused s; answers := answers s |}.
Definition set_pool (x : option X) (s : RpcServer) : RpcServer :=
  {| cycle_ := cycle_ s; thread_pool_ := x; srv_running := srv_running s; service_manager := service_manager s;
     replying := replying s; received := received s; refused := refused s; answers := answers s |}.
Definition set_manager (m : ServiceManager) (s : RpcServer) : RpcServer :=
  {| cycle_ := cycle_ s; thread_pool_ := thread_pool_ s; srv_running := srv_running s; service_manager := m;
     replying := replying s; received := received s; refused := refused s; answers := answers s |}.
Definition set_running (b : bool) (s : RpcServer) : RpcServer :=
  {| cycle_ := cycle_ s; thread_pool_ := thread_pool_ s; srv_running := b; service_manager := service_manager s;
     replying := replying s; received := received s; refused := refused s; answers := answers s |}.
Definition set_log (rp : list conn_ptr) (rc rf : list task) (an : list answer) (s : RpcServer)
    : RpcServer :=
  {| cycle_ := cycle_ s; thread_pool_ := thread_pool_ s; srv_running := srv_running s; service_manager := service_manager s;
     replying := rp; received := rc; refused := rf; answers := an |}.

(** The frame [send_response] makes of the outcome of [process_request]. *)
Definition response_to (h : RpcHeader) (out : outcome RpcResponse) : outcome (RpcHeader * str) :=
  resp ← out; response_message h resp.
#[global] Arguments response_to : simpl never.

(** [process_request] followed by [send_response], up to the mutex inside
    [Connection::send].  In the code time passes between the look-up of the service
    and [send]'s test of [closed_]; taking both at once loses nothing that can be
    sent, for a connection that is open at the test was open before, and one closed
    in between is as one closed at the look-up.  A handler whose outcome is undefined
    is logged as such and sends nothing: what the program does after it is not
    modelled. *)
Definition process_and_send (t : task) (s : RpcServer) : option RpcServer :=
  let '(p, (h, body)) := t in
  k ← heap (cycle_ s) !! p;
  let out := process_request h body (service_manager s) in
  let log sent s' :=
    set_log (replying s) (received s) (refused s)
      (answers s ++ [{| an_task := t; an_manager := service_manager s; an_out := out;
                        an_sent := sent |}]) s' in
  match response_to h out with
  | Ok (rh, rb) =>
      c ← conn_event_on p (EvSend rh rb) (cycle_ s);
      Some (log (negb (closed_ k)) (set_cycle c s))
  | _ => Some (log false s)
  end.

#[global] Arguments process_and_send : simpl never.

(** The message callback of connection [p] returns or throws. *)
Definition callback_ends (p : conn_ptr) (returned : bool) (s : RpcServer) : option RpcServer :=
  c ← conn_event_on p (EvCallback returned) (cycle_ s);
  Some (set_cycle c s).

(** [on_message]: with a pool, enqueue and return; an exception of [enqueue]
    leaves the handler.  Without, process the request; an exception leaves
    the handler, otherwise the thread goes on inside [send]. *)
Definition on_message (p : conn_ptr) (s : RpcServer) : option RpcServer :=
  k ← heap (cycle_ s) !! p;
  match reading k with
  | InCallback h body =>
      if bool_decide (p ∈ replying s) then None else
      let t := (p, (h, body)) in
      let s := set_log (replying s) (received s ++ [t]) (refused s) (answers s) s in
      match thread_pool_ s with
      | Some x =>
          match ex_submit t x with
          | Some x' => callback_ends p true (set_pool (Some x') s)
          | None =>
              callback_ends p false
                (set_log (replying s) (received s) (refused s ++ [t]) (answers s) s)
          end
      | None =>
          s' ← process_and_send t s;
          match response_to h (process_request h body (service_manager s)) with
          | Ok _ => Some (set_log (p :: replying s') (received s') (refused s') (answers s') s')
          | _ => callback_ends p false s'
          end
      end
  | _ => None
  end.

(** A synchronous callback returns once its response is queued. *)
Definition reply_done (i : nat) (s : RpcServer) : option RpcServer :=
  p ← replying s !! i;
  k ← heap (cycle_ s) !! p;
  match senders k with
  | [] => callback_ends p true
            (set_log (delete i (replying s)) (received s) (refused s) (answers s) s)
  | _ => None
  end.

(** ** Steps *)

Inductive server_event :=
  | SvSetPool                       (* set_thread_pool, before start *)
  | SvManager (op : sm_op)          (* register_service, and the singleton's other users *)
  | SvStart (port : Z) (failing : option listen_call) (* start, up to [cycle_.run()] *)
  | SvStop                          (* stop, up to the end of the first step of [cycle_.stop()] *)
  | SvCycle (ev : cycle_event)
  | SvMessage (p : conn_ptr)
  | SvReplied (i : nat)
  | SvPool (ev : E).

(** Events that only the server causes. *)
Definition server_only (ev : cycle_event) : bool :=
  match ev with CListen _ _ | CConn _ (EvCallback _) | CConn _ (EvSend _ _) => true | _ => false end.

(** [start] up to [cycle_.run()]: [running_] is set first, and stays set when
    [start_listen] throws; the exception leaves [start]. *)
Definition start (port : Z) (failing : option listen_call) (s : RpcServer) : option (outcome unit * RpcServer) :=
  let r := (start_listen port failing (cycle_ s)).1 in
  c ← cycle_step (cycle_ s) (CListen port failing); Some (r, set_cycle c (set_running true s)).

(** [stop]: [running_ = false; cycle_.stop()]. *)
Definition stop (s : RpcServer) : option RpcServer :=
  c ← cycle_step (cycle_ s) CStop; Some (set_cycle c (set_running false s)).

Definition server_step (s : RpcServer) (ev : server_event) : option RpcServer :=
  match ev with
  | SvSetPool =>
      match heap (cycle_ s), thread_pool_ s with
      | [], None => Some (set_pool (Some ex_init) s)
      | _, _ => None
      end
  | SvManager op => Some (set_manager (sm_step (service_manager s) op) s)
  | SvStart port failing => r ← start port failing s; Some r.2
  | SvStop => stop s
  | SvCycle ev =>
      if server_only ev then None
      else c ← cycle_step (cycle_ s) ev; Some (set_cycle c s)
  | SvMessage p => on_message p s
  | SvReplied i => reply_done i s
  | SvPool ev =>
      x ← thread_pool_ s;
      x' ← ex_step x ev;
      let s' := set_pool (Some x') s in
      match ex_runs x ev with
      | Some t => process_and_send t s'
      | None => Some s'
      end
  end.

Definition server_trans : RpcServer -> RpcServer -> Prop := steps_to server_step.
Definition server_reachable (s : RpcServer) : Prop := rtc server_trans RpcServer_init s.

Definition connection_count (s : RpcServer) : Z := MessageCycle.connection_count (cycle_ s).
Definition is_running (s : RpcServer) : bool := srv_running s.

(** ** What was received and answered on one connection *)

Definition on_conn (p : conn_ptr) (ts : list task) : list frame :=
  (filter (fun t => t.1 = p) ts).*2.

(** The bytes an answer put on its way. *)
Definition answer_bytes (a : answer) : list str :=
  if an_sent a then
    match response_to (an_task a).2.1 (an_out a) with
    | Ok (rh, rb) => [header_bytes rh ++ rb]
    | _ => []
    end
  else [].

Definition answers_on (p : conn_ptr) (l : list answer) : list answer :=
  filter (fun a => (an_task a).1 = p) l.

#[global] Arguments answers_on : simpl never.
#[global] Arguments on_conn : simpl never.
#[global] Arguments answer_bytes : simpl never.

Definition sent_on (p : conn_ptr) (s : RpcServer) : list str :=
  answers_on p (answers s) ≫= answer_bytes.

(** ** Invariant *)

(** The request connection [p] is being called back with, as long as
    [on_message] has not taken it. *)
Definition untaken (p : conn_ptr) (k : Connection) (s : RpcServer) : list frame :=
  match reading k with
  | InCallback h b => if bool_decide (p ∈ replying s) then [] else [(h, b)]
  | _ => []
  end.

Definition answer_ok (a : answer) : Prop :=
  an_out a = process_request (an_task a).2.1 (an_task a).2.2 (an_manager a).

(** No response was possible. *)
Definition unanswerable (a : answer) : Prop :=
  forall m, response_to (an_task a).2.1 (an_out a) <> Ok m.

Record conn_srv (p : conn_ptr) (k : Connection) (s : RpcServer) : Prop := {
  cs_received : delivered k = on_conn p (received s) ++ untaken p k s;
  cs_sent : pushed k ++ senders k ≡ₚ sent_on p s;
  cs_sync : thread_pool_ s = None ->
    pushed k ++ senders k = sent_on p s /\ (length (senders k) <= 1)%nat /\
    (p ∉ replying s -> senders k = []);
  cs_replying : p ∈ replying s -> exists h b, reading k = InCallback h b;
  cs_unsent : closed_ k = false ->
    Forall (fun a => an_sent a = false -> unanswerable a) (answers_on p (answers s))
}.

Record server_inv (s : RpcServer) : Prop := {
  si_cycle : cycle_reachable (cycle_ s);
  si_conn p k : heap (cycle_ s) !! p = Some k -> conn_srv p k s;
  si_known p : (length (heap (cycle_ s)) <= p)%nat ->
    on_conn p (received s) = [] /\ answers_on p (answers s) = [] /\ p ∉ replying s;
  si_pool : match thread_pool_ s with
            | Some x =>
                ex_ok x /\ received s ≡ₚ ex_accepted x ++ refused s /\
                (an_task <$> answers s) = ex_ran x /\ replying s = []
            | None => (an_task <$> answers s) = received s /\ refused s = []
            end;
  si_nodup : NoDup (replying s);
  si_answers : Forall answer_ok (answers s)
}.

Lemma on_conn_app p a b : on_conn p (a ++ b) = on_conn p a ++ on_conn p b.
Proof. unfold on_conn. by rewrite filter_app, fmap_app. Qed.
Lemma answers_on_app p a b : answers_on p (a ++ b) = answers_on p a ++ answers_on p b.
Proof. apply filter_app. Qed.

Lemma on_conn_one p q m : on_conn p [(q, m)] = if bool_decide (p = q) then [m] else [].
Proof.
  unfold on_conn. rewrite filter_cons, filter_nil.
  destruct (bool_decide_reflect (p = q)) as [->|Hne]; [by rewrite decide_True|].
  rewrite decide_False; [done|]. cbn. congruence.
Qed.
Lemma answers_on_one p a : answers_on p [a] = if bool_decide (p = (an_task a).1) then [a] else [].
Proof.
  unfold answers_on. rewrite filter_cons, filter_nil.
  destruct (bool_decide_reflect (p = (an_task a).1)) as [->|Hne]; [by rewrite decide_True|].
  by rewrite decide_False.
Qed.

(** A connection step the environment may take. *)
Definition env_step (ev : conn_event) : bool :=
  match ev with EvStartRead _ _ | EvCallback _ | EvSend _ _ => false | _ => true end.

(** What such a step can do to what was delivered and what was sent. *)
Definition io_step (k k' : Connection) : Prop :=
  (closed_ k = true -> closed_ k' = true) /\
  (delivered k' = delivered k /\
     (reading k' = reading k \/
      (forall h b, reading k <> InCallback h b) /\ (forall h b, reading k' <> InCallback h b)) \/
   exists h b, delivered k' = delivered k ++ [(h, b)] /\ reading k = ReadingBody h /\
     reading k' = InCallback h b) /\
  (pushed k' ++ senders k' ≡ₚ pushed k ++ senders k) /\
  (length (senders k') <= length (senders k))%nat /\
  ((length (senders k) <= 1)%nat -> pushed k' ++ senders k' = pushed k ++ senders k).

Lemma io_step_quiet k k' :
  delivered k' = delivered k -> pushed k' = pushed k -> senders k' = senders k ->
  (closed_ k = true -> closed_ k' = true) ->
  (reading k' = reading k \/
   (forall h b, reading k <> InCallback h b) /\ (forall h b, reading k' <> InCallback h b)) ->
  io_step k k'.
Proof. intros Hd Hp Hs Hc Hr. unfold io_step. rewrite Hp, Hs. auto 6. Qed.

Lemma env_step_io k ev k' : conn_step k ev = Some k' -> env_step ev = true -> io_step k k'.
Proof.
  intros Est Hs. destruct ev as [| | | | |i| | | |]; try done.
  3: { cbn in Est. unfold send_push in Est. destruct (senders k !! i) as [d|] eqn:Hi; [|done].
    injection Est as <-. unfold io_step. cbn. split_and!; auto.
    - rewrite <- app_assoc. apply Permutation_app_head. symmetry. by apply delete_Permutation.
    - rewrite length_delete by eauto. lia.
    - intros Hl. destruct (senders k) as [|d' [|? ?]]; [done| |cbn in Hl; lia].
      destruct i; cbn in *; [|done]. simplify_eq. by rewrite app_nil_r. }
  all: cbn in Est; unfold header_done, body_done, do_write, issue_write, write_done, close in Est;
    split_match Est; simplify_eq.
  all: try match goal with |- context [cas_close ?d] =>
    pose proof (cas_close_io d); pose proof (cas_close_closed d); destruct_and? end.
  all: try (apply io_step_quiet; cbn in *; auto; try congruence;
            right; split; intros; congruence).
  unfold io_step. cbn. split_and!; eauto 10.
Qed.

(** [conn_srv] looks at the server through what concerns the connection. *)
Lemma conn_srv_ext p k s s' :
  conn_srv p k s -> on_conn p (received s') = on_conn p (received s) ->
  answers_on p (answers s') = answers_on p (answers s) ->
  (p ∈ replying s' <-> p ∈ replying s) -> (thread_pool_ s' = None -> thread_pool_ s = None) ->
  conn_srv p k s'.
Proof.
  intros [Hr Hs Hy Hp Hu] Er Ea Erp Et. unfold sent_on in *.
  split; unfold sent_on; rewrite ?Er, ?Ea, ?Erp; auto.
  unfold untaken in *. destruct (reading k); auto.
  by rewrite (bool_decide_ext _ _ Erp).
Qed.

Lemma conn_srv_env p k k' s : conn_srv p k s -> io_step k k' -> conn_srv p k' s.
Proof.
  intros [Hr Hs Hy Hp Hu] (Hc & Hd & Hperm & Hlen & Heq). split.
  - rewrite Hr in Hd. destruct Hd as [[-> Hrd]|(h & b & -> & Hrd & Hrd')].
    + f_equal. unfold untaken. destruct Hrd as [->|[Hn Hn']]; [done|].
      destruct (reading k) eqn:E1, (reading k') eqn:E2; try done; naive_solver.
    + unfold untaken. rewrite Hrd, Hrd', app_nil_r, bool_decide_eq_false_2; [done|].
      intros Hin. destruct (Hp Hin) as (h' & b' & E'). congruence.
  - by rewrite Hperm.
  - intros Ht. destruct (Hy Ht) as (Hy1 & Hy2 & Hy3). rewrite (Heq Hy2). split_and!; [done|lia|].
    intros Hn. specialize (Hy3 Hn). rewrite Hy3 in Hlen. destruct (senders k'); [done|].
    cbn in Hlen. lia.
  - intros Hin. destruct (Hp Hin) as (h & b & E1).
    destruct Hd as [[_ [->|[Hn _]]]|(h' & b' & _ & E2 & _)]; [eauto| |congruence].
    by destruct (Hn h b).
  - intros Hcl. apply Hu. destruct (closed_ k) eqn:Ek; [|done]. by rewrite Hc in Hcl.
Qed.

Lemma same_io_step k k' : same_io k k' -> io_step k k'.
Proof.
  intros (Hd & [=] & Hs & Hc & Hr). apply io_step_quiet; auto.
  destruct Hr as [[]|(-> & -> & _)]; [auto|right]. by split.
Qed.

Lemma conn_srv_fresh p s :
  on_conn p (received s) = [] -> answers_on p (answers s) = [] -> p ∉ replying s ->
  conn_srv p Connection_init s.
Proof.
  intros Hr Ha Hn. split; unfold sent_on; rewrite ?Hr, ?Ha; cbn; auto; done.
Qed.

Lemma callback_ends_spec p r s s' :
  cycle_reachable (cycle_ s) -> callback_ends p r s = Some s' ->
  exists k c, heap (cycle_ s) !! p = Some k /\ (exists h b, reading k = InCallback h b) /\
    s' = set_cycle c s /\ heap c = <[p := callback_done r k]> (heap (cycle_ s)) /\
    cycle_reachable c.
Proof.
  intros Hr Hst. unfold callback_ends in Hst.
  destruct (conn_event_on p (EvCallback r) (cycle_ s)) as [c|] eqn:Ec; [|done].
  cbn in Hst. injection Hst as <-.
  assert (cycle_reachable c) as Hrc.
  { eapply rtc_r; [exact Hr|]. by exists (CConn p (EvCallback r)). }
  unfold conn_event_on in Ec. destruct (heap (cycle_ s) !! p) as [k|] eqn:Hk; [|done].
  cbn in Ec. destruct (reading k) eqn:Er; try done. cbn in Ec. injection Ec as <-.
  eexists k, _. split_and!; eauto.
Qed.

Lemma process_and_send_spec p h b s s' :
  cycle_reachable (cycle_ s) -> process_and_send (p, (h, b)) s = Some s' ->
  exists k k' c a, heap (cycle_ s) !! p = Some k /\ cycle_reachable c /\
    heap c = <[p := k']> (heap (cycle_ s)) /\
    s' = set_log (replying s) (received s) (refused s) (answers s ++ [a]) (set_cycle c s) /\
    an_task a = (p, (h, b)) /\ answer_ok a /\
    an_out a = process_request h b (service_manager s) /\
    (reading k', delivered k', pushed k', closed_ k') = (reading k, delivered k, pushed k, closed_ k) /\
    senders k' = senders k ++ answer_bytes a /\
    (an_sent a = false -> closed_ k = true \/ unanswerable a).
Proof.
  intros Hr Hst. unfold process_and_send in Hst.
  destruct (heap (cycle_ s) !! p) as [k|] eqn:Hk; [|done]. cbn [mbind option_bind] in Hst.
  destruct (response_to h (process_request h b (service_manager s))) as [[rh rb]| |] eqn:Ero.
  1: destruct (conn_event_on p (EvSend rh rb) (cycle_ s)) as [c|] eqn:Ec; [|done];
    assert (cycle_reachable c) as Hrc
      by (eapply rtc_r; [exact Hr|]; by exists (CConn p (EvSend rh rb)));
    unfold conn_event_on in Ec; rewrite Hk in Ec;
    destruct (conn_step k (EvSend rh rb)) as [k'|] eqn:Ek; [|done];
    cbn in Ec, Ek, Hst; simplify_eq;
    unfold send_begin in Ek; rewrite header_serialize_bytes in Ek;
    destruct (closed_ k) eqn:Ecl; simplify_eq.
  3,4: cbn in Hst; injection Hst as <-;
    eexists k, k, (cycle_ s), _; split_and!;
    [done|done|by rewrite list_insert_id|reflexivity|done|done|done|done|by rewrite app_nil_r|];
    intros _; right; intros m; unfold unanswerable; cbn; by rewrite Ero.
  - eexists k', k', _, _. split_and!; [done|exact Hrc|reflexivity|reflexivity|done|done|done|done| |auto].
    by rewrite app_nil_r.
  - eexists k, _, _, _. split_and!; [done|exact Hrc|reflexivity|reflexivity|done|done|done|done| |done].
    unfold answer_bytes. cbn. by rewrite Ero.
Qed.

Lemma heap_insert_cases (h : list Connection) p k q kq :
  <[p := k]> h !! q = Some kq -> q = p /\ kq = k \/ q <> p /\ h !! q = Some kq.
Proof. intros [(-> & -> & _)|[? ?]]%list_lookup_insert_Some; auto. Qed.

Lemma server_cycle_inv ev c s :
  server_inv s -> server_only ev = false \/ (exists port failing, ev = CListen port failing) -> cycle_step (cycle_ s) ev = Some c ->
  server_inv (set_cycle c s).
Proof.
  intros [Hcy Hco Hkn Hpo Hnd Han] Hev Ec. pose proof (cycle_step_heap _ _ _ Ec) as Hlen.
  split; cbn; auto.
  - eapply rtc_r; [exact Hcy|by exists ev].
  - intros p k' Hk'. apply conn_srv_ext with s; auto.
    destruct (cycle_step_conn _ _ _ _ _ Hcy Ec Hk') as [[-> Hs]|(k & Hk & Hs)].
    + destruct (Hkn (length (heap (cycle_ s)))) as (? & ? & ?); [lia|].
      eapply conn_srv_env; [by apply conn_srv_fresh|by apply same_io_step].
    + eapply conn_srv_env; [by apply Hco|].
      destruct Hs as [Hs|(cev & -> & Hst & Hs)]; [by apply same_io_step|].
      eapply env_step_io; [exact Hs|]. by destruct Hev as [Hev|(? & ? & Hev)]; [destruct cev|].
  - intros p Hp. apply Hkn. lia.
Qed.

(** What [start] changes, whether or not it throws. *)
Lemma start_step s port failing s' :
  server_step s (SvStart port failing) = Some s' ->
  exists on a ch, s' = set_cycle (set_bound on (set_loop (MessageCycle.running_ (cycle_ s)) a ch (cycle_ s))) (set_running true s) /\
    (ch = chain (cycle_ s) \/ ch = Accepting).
Proof.
  cbn [server_step]. unfold start. intros Es.
  destruct (cycle_step (cycle_ s) (CListen port failing)) as [c|] eqn:Ec; [|done]. cbn [mbind option_bind] in Es.
  injection Es as <-. apply listen_step in Ec as (on & a & ch & -> & Hch). by exists on, a, ch.
Qed.

Lemma server_manager_inv m s : server_inv s -> server_inv (set_manager m s).
Proof.
  intros [Hcy Hco Hkn Hpo Hnd Han]. split; auto.
  intros p k Hk. by apply conn_srv_ext with s; auto.
Qed.

Lemma server_running_inv b s : server_inv s -> server_inv (set_running b s).
Proof.
  intros [Hcy Hco Hkn Hpo Hnd Han]. split; auto.
  intros p k Hk. by apply conn_srv_ext with s; auto.
Qed.

(** The task a pool finishes was received, so its connection exists. *)
Lemma pool_task_known p m s x :
  server_inv s -> thread_pool_ s = Some x -> (p, m) ∈ ex_accepted x ->
  (p < length (heap (cycle_ s)))%nat.
Proof.
  intros Hinv Hx Hin. destruct (decide (p < length (heap (cycle_ s)))%nat) as [|Hge]; [done|exfalso].
  destruct (si_known s Hinv p) as (Hr & _); [lia|].
  pose proof (si_pool s Hinv) as Hpool. rewrite Hx in Hpool. destruct Hpool as (_ & Hperm & _).
  assert ((p, m) ∈ received s) as Hin' by (rewrite Hperm; apply elem_of_app; auto).
  assert (m ∈ on_conn p (received s)) as Hm; [|rewrite Hr in Hm; by apply elem_of_nil in Hm].
  unfold on_conn. apply list_elem_of_fmap. exists (p, m). split; [done|].
  apply list_elem_of_filter. by split.
Qed.

Lemma server_pool_inv x ev x' s s' :
  server_inv s -> thread_pool_ s = Some x -> ex_step x ev = Some x' ->
  match ex_runs x ev with
  | Some t => process_and_send t (set_pool (Some x') s)
  | None => Some (set_pool (Some x') s)
  end = Some s' ->
  server_inv s'.
Proof.
  intros Hinv Hx Hst Hs. pose proof Hinv as [Hcy Hco Hkn Hpo Hnd Han]. rewrite Hx in Hpo.
  destruct Hpo as (Hok & Hperm & Hran & Hrep).
  destruct (ex_step_spec x ev x' Hst) as [Hacc Hran'].
  pose proof (ex_ok_step x ev x' Hok Hst) as Hok'.
  destruct (ex_runs x ev) as [[p [h b]]|].
  2: { injection Hs as <-. rewrite app_nil_r in Hran'. split; cbn; auto.
    - intros q k Hk. apply conn_srv_ext with s; auto. by rewrite Hx.
    - by rewrite Hacc, Hran'. }
  apply process_and_send_spec in Hs as (k & k' & c & a & Hk & Hrc & Hheap & -> & Hta & Hao & _ & Hsame & Hsend & Hun);
    [|done].
  cbn in Hk, Hheap. injection Hsame as Hr Hd Hp Hcl.
  split; cbn; auto.
  - intros q kq. rewrite Hheap. intros [[-> ->]|[Hne Hq]]%heap_insert_cases.
    + destruct (Hco p k Hk) as [C1 C2 C3 C4 C5]. split; unfold sent_on, untaken in *; cbn.
      * by rewrite Hr, Hd.
      * rewrite answers_on_app, answers_on_one, Hta, bool_decide_eq_true_2, bind_app by done.
        cbn. by rewrite Hp, Hsend, app_nil_r, app_assoc, C2.
      * done.
      * by rewrite Hr.
      * rewrite Hcl. intros Hc. rewrite answers_on_app, answers_on_one, Hta, bool_decide_eq_true_2 by done.
        apply Forall_app. split; [auto|]. constructor; [|done].
        intros Hns. destruct (Hun Hns); congruence.
    + apply conn_srv_ext with s; cbn; auto; [|by rewrite Hx].
      by rewrite answers_on_app, answers_on_one, Hta, bool_decide_eq_false_2, app_nil_r.
  - intros q. rewrite Hheap, length_insert. intros Hq. destruct (Hkn q Hq) as (? & Ha & ?).
    split_and!; auto. apply lookup_lt_Some in Hk.
    by rewrite answers_on_app, Ha, answers_on_one, Hta, bool_decide_eq_false_2 by (cbn; lia).
  - rewrite fmap_app, Hran, Hacc, Hran'. cbn. by rewrite Hta.
  - apply Forall_app. auto.
Qed.

Lemma on_conn_snoc p ts q m :
  on_conn p (ts ++ [(q, m)]) = if bool_decide (p = q) then on_conn p ts ++ [m] else on_conn p ts.
Proof. rewrite on_conn_app, on_conn_one. destruct (bool_decide _); [done|apply app_nil_r]. Qed.

(** A callback that is over: [received] has the request it was called with. *)
Lemma conn_srv_taken p k s s' r h b :
  conn_srv p k s -> reading k = InCallback h b -> p ∉ replying s ->
  on_conn p (received s') = on_conn p (received s) ++ [(h, b)] ->
  answers_on p (answers s') = answers_on p (answers s) ->
  p ∉ replying s' -> thread_pool_ s <> None -> thread_pool_ s' <> None ->
  conn_srv p (callback_done r k) s'.
Proof.
  intros [C1 C2 C3 C4 C5] Hr Hn Er Ea Hn' Ht Ht'.
  assert (closed_ (callback_done r k) = closed_ k /\ delivered (callback_done r k) = delivered k /\
    pushed (callback_done r k) = pushed k /\ senders (callback_done r k) = senders k)
    as (Hc & Hd & Hp & Hs) by (by destruct r).
  split; unfold sent_on in *; rewrite ?Hc, ?Hd, ?Hp, ?Hs, ?Er, ?Ea; auto; [|done..].
  rewrite C1. unfold untaken. rewrite Hr, bool_decide_eq_false_2 by done. destruct r; cbn;
    by rewrite app_nil_r.
Qed.

(** The callback of [p] ends with its request taken, by the pool or by its
    refusal. *)
Lemma pool_taken_inv p x x' s s' h b k r :
  server_inv s -> thread_pool_ s = Some x -> heap (cycle_ s) !! p = Some k ->
  reading k = InCallback h b -> cycle_reachable (cycle_ s') ->
  heap (cycle_ s') = <[p := callback_done r k]> (heap (cycle_ s)) ->
  thread_pool_ s' = Some x' -> ex_ok x' -> ex_ran x' = ex_ran x ->
  received s' = received s ++ [(p, (h, b))] -> received s' ≡ₚ ex_accepted x' ++ refused s' ->
  answers s' = answers s -> replying s' = replying s -> server_inv s'.
Proof.
  intros [Hcy Hco Hkn Hpo Hnd Han] Hx Hk Hr Hrc Hheap Hx' Hok' Hran' Hrec Hperm' Ha' Hrp.
  rewrite Hx in Hpo. destruct Hpo as (Hok & Hperm & Hran & Hrep). split; rewrite ?Ha', ?Hrp; auto.
  - intros q kq. rewrite Hheap. intros [[-> ->]|[Hne Hq]]%heap_insert_cases.
    + apply (conn_srv_taken p k s s' r h b); rewrite ?Hrp, ?Hrep, ?Hx, ?Hx', ?Ha', ?Hrec; auto;
        try done; try apply not_elem_of_nil. by rewrite on_conn_snoc, bool_decide_eq_true_2.
    + apply conn_srv_ext with s; rewrite ?Hrp, ?Hrep, ?Hx, ?Hx', ?Ha', ?Hrec; auto; try done.
      by rewrite on_conn_snoc, bool_decide_eq_false_2.
  - intros q. rewrite Hheap, length_insert, Hrec. intros Hq. destruct (Hkn q Hq) as (Hrq & ? & ?).
    split_and!; auto. apply lookup_lt_Some in Hk.
    by rewrite on_conn_snoc, bool_decide_eq_false_2 by lia.
  - rewrite Hx', Hran'. by split_and!.
Qed.

Lemma on_message_pool_inv p x s s' :
  server_inv s -> thread_pool_ s = Some x -> on_message p s = Some s' -> server_inv s'.
Proof.
  intros Hinv Hx Hst. pose proof Hinv as [Hcy Hco Hkn Hpo Hnd Han]. rewrite Hx in Hpo.
  destruct Hpo as (Hok & Hperm & Hran & Hrep). unfold on_message in Hst.
  destruct (heap (cycle_ s) !! p) as [k0|] eqn:Hk0; [|done]. cbn in Hst.
  destruct (reading k0) as [| | |h b|] eqn:Hr; try done.
  destruct (bool_decide (p ∈ replying s)); [done|]. rewrite Hx in Hst.
  destruct (ex_submit (p, (h, b)) x) as [x'|] eqn:Esub;
    apply callback_ends_spec in Hst as (k & c & Hk & _ & -> & Hheap & Hrc); auto; cbn in *;
    rewrite Hk0 in Hk; injection Hk as <-.
  - destruct (ex_submit_spec _ _ _ Esub) as [Hacc Hran'].
    apply (pool_taken_inv p x x' s _ h b k0 true); auto; [by eapply ex_ok_submit|]. cbn.
    rewrite Hacc, Hperm, <- !app_assoc. apply Permutation_app_head, Permutation_app_comm.
  - apply (pool_taken_inv p x x s _ h b k0 false); auto. cbn. by rewrite Hperm, app_assoc.
Qed.

Lemma answer_bytes_short a : (length (answer_bytes a) <= 1)%nat.
Proof.
  unfold answer_bytes. destruct (an_sent a); [|cbn; lia].
  destruct (response_to _ _) as [[]| |]; cbn; lia.
Qed.

Lemma answer_bytes_none a : unanswerable a -> answer_bytes a = [].
Proof.
  intros Hu. unfold answer_bytes. destruct (an_sent a); [|done].
  destruct (response_to _ _) as [m| |] eqn:Er; [by destruct (Hu m)|done..].
Qed.

(** [p]'s request has been processed on the io thread: [k'] is the connection
    after the response was handed to it, [a] the answer, [synced_state] the server
    with [rp] inside [send]. *)
Record synced (p : conn_ptr) (h : RpcHeader) (b : str) (k k' : Connection) (a : answer)
    (s : RpcServer) : Prop := {
  sy_conn : heap (cycle_ s) !! p = Some k;
  sy_reading : reading k = InCallback h b;
  sy_new : p ∉ replying s;
  sy_task : an_task a = (p, (h, b));
  sy_senders : senders k' = senders k ++ answer_bytes a;
  sy_unsent : an_sent a = false -> closed_ k = true \/ unanswerable a
}.

Definition synced_state p h b a rp c (s : RpcServer) : RpcServer :=
  set_log rp (received s ++ [(p, (h, b))]) (refused s) (answers s ++ [a]) (set_cycle c s).

Lemma synced_answers p h b k k' a s q :
  synced p h b k k' a s ->
  answers_on q (answers s ++ [a]) = answers_on q (answers s) ++ if bool_decide (p = q) then [a] else [].
Proof.
  intros Hs. rewrite answers_on_app, answers_on_one, (sy_task _ _ _ _ _ _ _ Hs). cbn.
  f_equal. by rewrite (bool_decide_ext (q = p) (p = q)) by done.
Qed.

(** The connection itself: the request is taken and answered. *)
Lemma synced_here p h b k k' a s k1 rp c :
  server_inv s -> thread_pool_ s = None -> synced p h b k k' a s ->
  delivered k1 = delivered k -> pushed k1 = pushed k -> senders k1 = senders k' ->
  closed_ k1 = closed_ k ->
  (if bool_decide (p ∈ rp) then reading k1 = InCallback h b
   else senders k' = [] /\ forall h b, reading k1 <> InCallback h b) ->
  conn_srv p k1 (synced_state p h b a rp c s).
Proof.
  intros Hinv Hx Hs H2 H3 H4 H5 Hrp. pose proof (synced_answers _ _ _ _ _ _ _ p Hs) as Hans.
  rewrite bool_decide_eq_true_2 in Hans by done. destruct Hs as [Hk Hr Hnr Hta Hsend Hun].
  destruct (si_conn s Hinv p k Hk) as [C1 C2 C3 C4 C5]. destruct (C3 Hx) as (Y1 & Y2 & Y3).
  specialize (Y3 Hnr). unfold untaken in C1. rewrite Hr, bool_decide_eq_false_2 in C1 by done.
  split; cbn; unfold sent_on; cbn; rewrite ?H2, ?H3, ?H4, ?H5, ?Hans, ?bind_app, ?Hsend, ?Y3, ?app_nil_l.
  - rewrite on_conn_snoc, bool_decide_eq_true_2, C1 by done. unfold untaken. cbn.
    destruct (bool_decide_reflect (p ∈ rp)) as [Hin|Hin].
    + rewrite Hrp. cbn. by rewrite app_nil_r.
    + destruct Hrp as [_ Hrp]. destruct (reading k1) as [| | |h1 b1|]; cbn; try by rewrite !app_nil_r.
      by destruct (Hrp h1 b1).
  - cbn. rewrite app_nil_r. rewrite Y3, app_nil_r in C2. by rewrite C2.
  - intros _. rewrite Y3, app_nil_r in Y1. cbn. rewrite app_nil_r, Y1. split_and!; [done| |].
    + apply answer_bytes_short.
    + intros Hin. rewrite bool_decide_eq_false_2 in Hrp by done. destruct Hrp as [Hrp _].
      by rewrite Hsend, Y3 in Hrp.
  - intros Hin. rewrite bool_decide_eq_true_2 in Hrp by done. rewrite Hrp. eauto.
  - intros Hc. apply Forall_app. split; [auto|]. constructor; [|done].
    intros Hns. destruct (Hun Hns); congruence.
Qed.

(** Every other connection. *)
Lemma synced_elsewhere p h b k k' a s q kq rp c :
  server_inv s -> synced p h b k k' a s -> q <> p -> heap (cycle_ s) !! q = Some kq ->
  (q ∈ rp <-> q ∈ replying s) -> conn_srv q kq (synced_state p h b a rp c s).
Proof.
  intros Hinv Hs Hne Hq Hrp. apply conn_srv_ext with s; cbn; auto; [by apply si_conn|..].
  - by rewrite on_conn_snoc, bool_decide_eq_false_2.
  - by rewrite (synced_answers _ _ _ _ _ _ _ q Hs), bool_decide_eq_false_2, app_nil_r.
Qed.

(** What the invariant says of the whole, with [k1] for [p]. *)
Lemma synced_inv p h b k k' a s k1 rp c :
  server_inv s -> thread_pool_ s = None -> synced p h b k k' a s -> answer_ok a ->
  cycle_reachable c -> heap c = <[p := k1]> (heap (cycle_ s)) ->
  conn_srv p k1 (synced_state p h b a rp c s) ->
  (forall q, q <> p -> q ∈ rp <-> q ∈ replying s) -> NoDup rp ->
  server_inv (synced_state p h b a rp c s).
Proof.
  intros Hinv Hx Hs Hao Hrc Hheap Hk1 Hrp Hnd. pose proof Hinv as [Hcy Hco Hkn Hpo _ Han].
  rewrite Hx in Hpo. destruct Hpo as [Htasks Href].
  split; cbn; auto.
  - intros q kq. rewrite Hheap. intros [[-> ->]|[Hne Hq]]%heap_insert_cases; [done|].
    eapply synced_elsewhere; eauto.
  - intros q. rewrite Hheap, length_insert. intros Hq. destruct (Hkn q Hq) as (? & Ea & ?).
    pose proof (lookup_lt_Some _ _ _ (sy_conn _ _ _ _ _ _ _ Hs)).
    rewrite on_conn_snoc, bool_decide_eq_false_2, (synced_answers _ _ _ _ _ _ _ q Hs), Ea,
      bool_decide_eq_false_2 by lia.
    split_and!; [done|done|]. rewrite Hrp by lia. done.
  - rewrite Hx, fmap_app, Htasks. cbn. by rewrite (sy_task _ _ _ _ _ _ _ Hs).
  - apply Forall_app. auto.
Qed.

(** A handler that throws stops the read loop. *)
Lemma synced_failed p h b k k' a s c s' :
  server_inv s -> thread_pool_ s = None -> synced p h b k k' a s -> answer_ok a ->
  cycle_reachable c -> heap c = <[p := k']> (heap (cycle_ s)) ->
  (delivered k', pushed k', closed_ k') = (delivered k, pushed k, closed_ k) ->
  unanswerable a -> callback_ends p false (synced_state p h b a (replying s) c s) = Some s' ->
  server_inv s'.
Proof.
  intros Hinv Hx Hs Hao Hrc Hheap Hsame Hno Hst. injection Hsame as Hd Hp Hcl.
  pose proof (lookup_lt_Some _ _ _ (sy_conn _ _ _ _ _ _ _ Hs)) as Hplt.
  apply callback_ends_spec in Hst as (k1 & c1 & Hk1 & _ & -> & Hheap1 & Hrc1); [|done].
  cbn in Hk1, Hheap1. rewrite Hheap, list_lookup_insert_eq in Hk1 by done. injection Hk1 as <-.
  rewrite Hheap, list_insert_insert_eq in Hheap1.
  eapply (synced_inv p h b k k' a s _ (replying s) c1); eauto; [|by apply si_nodup].
  eapply synced_here; eauto. rewrite bool_decide_eq_false_2 by apply (sy_new _ _ _ _ _ _ _ Hs).
  split; [|done]. rewrite (sy_senders _ _ _ _ _ _ _ Hs), (answer_bytes_none a Hno), app_nil_r.
  destruct (si_conn s Hinv p k (sy_conn _ _ _ _ _ _ _ Hs)) as [_ _ C3 _ _].
  apply C3; [done|]. apply (sy_new _ _ _ _ _ _ _ Hs).
Qed.

Lemma on_message_sync_inv p s s' :
  server_inv s -> thread_pool_ s = None -> on_message p s = Some s' -> server_inv s'.
Proof.
  intros Hinv Hx Hst. unfold on_message in Hst.
  destruct (heap (cycle_ s) !! p) as [k|] eqn:Hk; [|done]. cbn in Hst.
  destruct (reading k) as [| | |h b|] eqn:Hr; try done.
  destruct (bool_decide_reflect (p ∈ replying s)) as [|Hnr]; [done|]. rewrite Hx in Hst.
  destruct (process_and_send (p, (h, b)) _) as [s1|] eqn:Eps; [|done]. cbn in Hst.
  apply process_and_send_spec in Eps
    as (k0 & k' & c & a & Hk0 & Hrc & Hheap & -> & Hta & Hao & Hout & Hsame & Hsend & Hun);
    [|exact (si_cycle s Hinv)].
  cbn in *. rewrite Hk in Hk0. injection Hk0 as <-. injection Hsame as Hr' Hd Hp Hcl.
  assert (synced p h b k k' a s) as Hs by by split.
  destruct (response_to h (process_request h b (service_manager s))) as [m|e|] eqn:Ero.
  - injection Hst as <-. change (server_inv (synced_state p h b a (p :: replying s) c s)).
    eapply (synced_inv p h b k k'); eauto; [|set_solver|constructor; [done|by apply si_nodup]].
    eapply synced_here; eauto. rewrite bool_decide_eq_true_2 by set_solver. congruence.
  - eapply (synced_failed p h b k k' a s c); eauto; [congruence|].
    intros m. rewrite Hta, Hout. cbn. by rewrite Ero.
  - eapply (synced_failed p h b k k' a s c); eauto; [congruence|].
    intros m. rewrite Hta, Hout. cbn. by rewrite Ero.
Qed.

Lemma reply_done_inv i s s' : server_inv s -> reply_done i s = Some s' -> server_inv s'.
Proof.
  intros Hinv Hst. pose proof Hinv as [Hcy Hco Hkn Hpo Hnd Han]. unfold reply_done in Hst.
  destruct (replying s !! i) as [p|] eqn:Hi; [|done]. cbn in Hst.
  destruct (heap (cycle_ s) !! p) as [k|] eqn:Hk; [|done]. cbn in Hst.
  destruct (senders k) eqn:Hsend; [|done].
  assert (thread_pool_ s = None) as Hx.
  { destruct (thread_pool_ s); [|done]. destruct Hpo as (_ & _ & _ & Hrep). by rewrite Hrep in Hi. }
  rewrite Hx in Hpo.
  apply callback_ends_spec in Hst as (k1 & c & Hk1 & (h & b & Hr) & -> & Hheap & Hrc); [|done].
  cbn in Hk1, Hheap. rewrite Hk in Hk1. injection Hk1 as <-.
  pose proof (delete_permutation _ _ _ Hi) as Hperm.
  assert (forall q, q ∈ replying s <-> q = p \/ q ∈ delete i (replying s)) as Hmem
    by (intros q; rewrite Hperm at 1; apply elem_of_cons).
  assert ((p ∉ delete i (replying s)) /\ NoDup (delete i (replying s))) as [Hnp Hnd'].
  { rewrite Hperm in Hnd. by apply NoDup_cons in Hnd. }
  assert (p ∈ replying s) as Hin by (apply Hmem; auto).
  destruct (Hco p k Hk) as [C1 C2 C3 C4 C5].
  split; cbn; auto.
  - intros q kq. rewrite Hheap. intros [[-> ->]|[Hne Hq]]%heap_insert_cases.
    + unfold untaken in C1. rewrite Hr, bool_decide_eq_true_2, app_nil_r in C1 by done.
      split; cbn; auto; try done.
      * unfold untaken. cbn. by rewrite app_nil_r.
      * intros _. destruct (C3 Hx) as (Y1 & Y2 & _). auto.
    + apply conn_srv_ext with s; cbn; auto. rewrite Hmem. tauto.
  - intros q. rewrite Hheap, length_insert. intros Hq. destruct (Hkn q Hq) as (? & ? & Hn).
    split_and!; auto. rewrite Hmem in Hn. tauto.
  - by rewrite Hx.
Qed.

Lemma server_set_pool_inv s :
  server_inv s -> heap (cycle_ s) = [] -> thread_pool_ s = None ->
  server_inv (set_pool (Some ex_init) s).
Proof.
  intros [Hcy Hco Hkn Hpo Hnd Han] Hh Hx. rewrite Hx in Hpo. destruct Hpo as [Ht Hrf].
  assert (forall p, on_conn p (received s) = [] /\ (p ∉ replying s)) as Hnone.
  { intros p. destruct (Hkn p) as (? & _ & ?); [rewrite Hh; cbn; lia|done]. }
  assert (received s = []) as Hr.
  { destruct (received s) as [|[p m] l] eqn:Er; [done|]. destruct (Hnone p) as [Hp _].
    change ((p, m) :: l) with ([(p, m)] ++ l) in Hp.
    by rewrite on_conn_app, on_conn_one, bool_decide_eq_true_2 in Hp. }
  split; cbn; auto.
  - intros p k Hk. by rewrite Hh in Hk.
  - destruct ex_init_spec as [-> ->]. rewrite Ht, Hr, Hrf. split_and!; [apply ex_ok_init|done..|].
    destruct (replying s) as [|p l]; [done|]. destruct (Hnone p) as [_ Hp]. set_solver.
Qed.

Lemma server_step_inv s ev s' : server_inv s -> server_step s ev = Some s' -> server_inv s'.
Proof.
  intros Hinv Hst. destruct ev as [|op|port failing| |ev|p|i|ev]; cbn [server_step] in Hst.
  - destruct (heap (cycle_ s)) eqn:Hh, (thread_pool_ s) eqn:Hx; try done. injection Hst as <-.
    by apply server_set_pool_inv.
  - injection Hst as <-. by apply server_manager_inv.
  - unfold start in Hst. destruct (cycle_step (cycle_ s) (CListen port failing)) as [c|] eqn:Ec; [|done]. cbn [mbind option_bind] in Hst.
    injection Hst as <-. apply (server_cycle_inv (CListen port failing) c (set_running true s)); [by apply server_running_inv| |exact Ec].
    right. by exists port, failing.
  - unfold stop in Hst. destruct (cycle_step (cycle_ s) CStop) as [c|] eqn:Ec; [|done]. cbn in Hst.
    injection Hst as <-. apply (server_cycle_inv CStop c (set_running false s)); [by apply server_running_inv| |exact Ec].
    by left.
  - destruct (server_only ev) eqn:Ho; [done|].
    destruct (cycle_step (cycle_ s) ev) as [c|] eqn:Ec; [|done]. cbn in Hst. injection Hst as <-.
    apply (server_cycle_inv ev c s Hinv); [by left|done].
  - destruct (thread_pool_ s) as [x|] eqn:Hx.
    + by eapply on_message_pool_inv.
    + by eapply on_message_sync_inv.
  - by eapply reply_done_inv.
  - destruct (thread_pool_ s) as [x|] eqn:Hx; [|done]. cbn in Hst.
    destruct (ex_step x ev) as [x'|] eqn:Ex; [|done]. cbn in Hst. by eapply server_pool_inv.
Qed.

Lemma server_reachable_inv s : server_reachable s -> server_inv s.
Proof.
  intros Hr. eapply (steps_invariant server_step server_inv); [|exact Hr|].
  - eauto using server_step_inv.
  - split; cbn; try done; try apply NoDup_nil_2; try apply Forall_nil_2; try apply rtc_refl.
    intros p Hp. split_and!; [done..|apply not_elem_of_nil].
Qed.

Lemma answers_tasks p l :
  (fun a => (an_task a).2) <$> answers_on p l = on_conn p (an_task <$> l).
Proof. unfold answers_on, on_conn. by rewrite filter_fmap_comm, <- list_fmap_compose. Qed.

(** The requests processed for a connection are among those delivered on it. *)
Lemma answered_delivered s p k :
  server_inv s -> heap (cycle_ s) !! p = Some k ->
  (fun a => (an_task a).2) <$> answers_on p (answers s) ⊆+ delivered k.
Proof.
  intros Hinv Hk. rewrite (cs_received _ _ _ (si_conn s Hinv p k Hk)).
  apply submseteq_inserts_r. rewrite answers_tasks. unfold on_conn. apply fmap_submseteq, filter_submseteq.
  pose proof (si_pool s Hinv) as Hp. destruct (thread_pool_ s) as [x|].
  - destruct Hp as (Hok & -> & -> & _). apply submseteq_inserts_r. by apply ex_at_most_once.
  - by destruct Hp as [-> _].
Qed.

Lemma answers_on_ok s p : server_inv s -> Forall answer_ok (answers_on p (answers s)).
Proof.
  intros Hinv. pose proof (si_answers s Hinv) as Ha. rewrite Forall_forall in Ha.
  apply Forall_forall. intros a [_ Hin]%list_elem_of_filter. auto.
Qed.

(** Nothing the executor accepted is left to do, and it refused nothing; without
    a pool there is nothing to wait for. *)
Definition pool_done (s : RpcServer) : Prop :=
  match thread_pool_ s with
  | Some x => ex_ran x ≡ₚ ex_accepted x /\ refused s = []
  | None => True
  end.

Lemma answered_all s p k :
  server_inv s -> heap (cycle_ s) !! p = Some k -> pool_done s -> untaken p k s = [] ->
  (fun a => (an_task a).2) <$> answers_on p (answers s) ≡ₚ delivered k.
Proof.
  intros Hinv Hk Hdone Hun. rewrite (cs_received _ _ _ (si_conn s Hinv p k Hk)).
  rewrite Hun, app_nil_r, answers_tasks. unfold on_conn. f_equiv. unfold pool_done in Hdone.
  pose proof (si_pool s Hinv) as Hp. destruct (thread_pool_ s) as [x|]; [|by destruct Hp as [-> _]].
  destruct Hp as (_ & -> & -> & _), Hdone as [Hran ->]. by rewrite app_nil_r, Hran.
Qed.

(** A task the pool finishes is for a connection the server has. *)
Lemma pool_runs_known s x ev x' t :
  server_inv s -> thread_pool_ s = Some x -> ex_step x ev = Some x' -> ex_runs x ev = Some t ->
  is_Some (heap (cycle_ s) !! t.1).
Proof.
  intros Hinv Hx Es Et. destruct t as [p m]. apply lookup_lt_is_Some, (pool_task_known p m s x Hinv Hx).
  pose proof (si_pool s Hinv) as Hp. rewrite Hx in Hp. destruct Hp as [Hok _].
  destruct (ex_step_spec _ _ _ Es) as [Hacc Hran]. rewrite Et in Hran. rewrite <- Hacc.
  eapply elem_of_submseteq; [|apply ex_at_most_once; by eapply ex_ok_step].
  rewrite Hran. apply elem_of_app. right. by left.
Qed.

(** ** Theorems on the server *)

(** C4: every request is answered at most once, and what goes out on a
    connection is exactly the answers to what came in on it.  Whatever the
    schedule of connections, callbacks and pool threads, and whatever executor
    the pool is: the requests processed for a connection are among those
    delivered on it, each no more often than it was delivered; each was
    processed by [process_request]; the frames queued on the connection are,
    up to order, the response frames of these requests and nothing else; and a
    response is missing only if none was possible or the connection had been
    closed. *)
Theorem server_answers_once s p k :
  server_reachable s -> heap (cycle_ s) !! p = Some k ->
  (fun a => (an_task a).2) <$> answers_on p (answers s) ⊆+ delivered k /\
  pushed k ++ senders k ≡ₚ sent_on p s /\
  Forall (fun a => answer_ok a /\
    (an_sent a = false -> closed_ k = true \/ unanswerable a)) (answers_on p (answers s)).
Proof.
  intros Hr Hk. pose proof (server_reachable_inv s Hr) as Hinv.
  destruct (si_conn s Hinv p k Hk) as [C1 C2 C3 C4 C5]. split_and!; [by apply answered_delivered|done|].
  pose proof (answers_on_ok s p Hinv) as Ho. destruct (closed_ k) eqn:Ec.
  - eapply Forall_impl; [exact Ho|]. auto.
  - eapply Forall_impl; [apply Forall_and; split; [exact Ho|exact (C5 eq_refl)]|].
    cbn. intros a [? Ha]. auto.
Qed.

(** A pool that has finished has answered everything.  When the executor
    has run every task it accepted and refused none, and no callback is waiting
    to be taken, the requests answered on a connection are exactly, up to
    order, those delivered on it. *)
Theorem server_answers_all s p k x :
  server_reachable s -> heap (cycle_ s) !! p = Some k -> thread_pool_ s = Some x ->
  ex_ran x ≡ₚ ex_accepted x -> refused s = [] -> untaken p k s = [] ->
  (fun a => (an_task a).2) <$> answers_on p (answers s) ≡ₚ delivered k.
Proof.
  intros Hr Hk Hx Hran Href Hun. apply answered_all; [by apply server_reachable_inv|done| |done].
  unfold pool_done. by rewrite Hx.
Qed.

(** Without a pool, responses keep the order of requests.  The requests
    processed on a connection are, in order, all those delivered except one
    that the callback may just be starting on, and the frames queued on the
    connection are their responses in that order. *)
Theorem server_sync_in_order s p k :
  server_reachable s -> thread_pool_ s = None -> heap (cycle_ s) !! p = Some k ->
  delivered k = ((fun a => (an_task a).2) <$> answers_on p (answers s)) ++ untaken p k s /\
  pushed k ++ senders k = sent_on p s /\ (length (senders k) <= 1)%nat.
Proof.
  intros Hr Hx Hk. pose proof (server_reachable_inv s Hr) as Hinv.
  destruct (si_conn s Hinv p k Hk) as [C1 _ C3 _ _]. destruct (C3 Hx) as (Y1 & Y2 & _).
  pose proof (si_pool s Hinv) as Hp. rewrite Hx in Hp. destruct Hp as [Ht _].
  by rewrite answers_tasks, Ht.
Qed.
End server.

(** ** Runs of a server with the [ThreadPool] of two threads *)

Definition two_threads : Executor task (ThreadPool task) (pool_event task) :=
  pool_executor 2 8 ltac:(lia) ltac:(lia).
#[local] Existing Instance two_threads | 0.
Definition two_threads_rest : ExecutorRests task (ThreadPool task) (pool_event task) :=
  pool_rests 2 8 ltac:(lia) ltac:(lia).

Definition echo_body : str := request_bytes (echo_request "Echo").

(** A connection is accepted and a request for [Echo] with id 7 arrives. *)
Definition echo_arrives : list (server_event (E := pool_event task)) :=
  [SvManager (Register (Some echo_service)); SvStart 9000 None; SvCycle CRun;
   SvCycle (CAccept true); SvCycle CInsert; SvCycle CStart; SvCycle CAgain;
   SvCycle (CConn 0 (EvHeader (Some (header_bytes (echo_header 7 echo_body)))));
   SvCycle (CConn 0 (EvBody (Some echo_body)));
   SvMessage 0].

Definition server_run (evs : list (server_event (E := pool_event task))) : RpcServer (X := ThreadPool task) :=
  default RpcServer_init (run server_step evs RpcServer_init).

Lemma server_run_reachable evs : server_reachable (server_run evs).
Proof. apply run_reachable. Qed.

Definition echo_sync : RpcServer (X := ThreadPool task) :=
  server_run (echo_arrives ++ [SvCycle (CConn 0 (EvPush 0)); SvReplied 0]).

Definition echo_pooled : RpcServer (X := ThreadPool task) :=
  server_run ([SvSetPool] ++ echo_arrives ++
    [SvPool (EvNotify None); SvPool (EvLock 1); SvPool (EvNext 1 None); SvPool (EvNext 1 None);
     SvCycle (CConn 0 (EvPush 0))]).

Definition the_conn (s : RpcServer (X := ThreadPool task)) : Connection :=
  default Connection_init (heap (cycle_ s) !! 0%nat).

Lemma server_answers_once_witness :
  pushed (the_conn echo_pooled) ++ senders (the_conn echo_pooled) ≡ₚ sent_on 0 echo_pooled /\
  length (sent_on 0 echo_pooled) = 1%nat.
Proof.
  split; [|by vm_compute].
  apply (server_answers_once echo_pooled 0 (the_conn echo_pooled)).
  - apply server_run_reachable.
  - by vm_compute.
Defined.

Lemma server_answers_all_witness :
  (fun a => (an_task a).2) <$> answers_on 0 (answers echo_pooled) ≡ₚ delivered (the_conn echo_pooled).
Proof.
  destruct (thread_pool_ echo_pooled) as [x|] eqn:Hx; [|by vm_compute in Hx].
  apply (server_answers_all echo_pooled 0 (the_conn echo_pooled) x);
    [apply server_run_reachable|by vm_compute|exact Hx| |by vm_compute..].
  vm_compute in Hx. injection Hx as <-. by vm_compute.
Defined.

Lemma server_sync_in_order_witness :
  pushed (the_conn echo_sync) ++ senders (the_conn echo_sync) = sent_on 0 echo_sync /\
  length (sent_on 0 echo_sync) = 1%nat /\ reading (the_conn echo_sync) = ReadingHeader.
Proof.
  split_and!; [|by vm_compute..].
  apply (server_sync_in_order echo_sync 0 (the_conn echo_sync));
    [apply server_run_reachable|by vm_compute..].
Defined.
