(* ===== verification/RpcClient.v ===== *)
(** * The client: [src/core/rpc_client.h/.cpp]

    Threads inside [call], the completion handlers of the io thread and
    [disconnect] are interleaved at the granularity of critical sections and
    atomic operations.  A [PendingRequest] is a shared object; its promise lives
    in a store, and the table, a caller or the reader hold its index. *)
From S2P Require Import Prelude WriteQueue Protocol ErrorCode Framing.

(** ** State *)

(** What the future of a call sees. *)
Inductive promise :=
  | Waiting
  | Ready (r : RpcResponse)
  | Broken.                    (* destroyed without a value *)

Abbreviation promise_ptr := nat.

Record WriteItem := { frame_data : str; item_seq_id : Z }.

(** A thread inside [call]. *)
Inductive caller :=
  | HasSeq (p : promise_ptr) (seq_id : Z) (req : RpcRequest)   (* before pending_mux_ *)
  | Registered (seq_id : Z) (req : RpcRequest).                (* before write_mux_ *)

(** The read loop. *)
Inductive reader_op :=
  | RNotStarted
  | RHeader                                       (* header read outstanding *)
  | RBody (h : RpcHeader)                         (* body read outstanding *)
  | RMatched (p : promise_ptr) (resp : RpcResponse) (* erased, before set_value *)
  | RStopped.

Inductive connect_op := NotConnecting | Connecting | ConnectDone (ok : bool).

Record RpcClient := {
  next_seq_id_ : Z;
  connected_ : bool;
  pending_ : gmap Z promise_ptr;
  write_queue_ : list WriteItem;
  writing_ : bool;
  io_thread_joinable : bool;
  (* the environment *)
  promises : list promise;
  callers : list caller;
  writers : list (activity WriteItem);
  reader : reader_op;
  connecting : connect_op;
  ios_stopped : bool;
  terminated : bool;          (* an exception left a thread: std::terminate *)
  (* histories *)
  requests : list RpcRequest; (* of every call, in the order of their ids *)
  pushed : list WriteItem;
  handled : list (WriteItem * bool);
  got : list frame            (* frames read, bodies that decode *)
}.

Definition RpcClient_init : RpcClient :=
  {| next_seq_id_ := 1; connected_ := false; pending_ := ∅; write_queue_ := []; writing_ := false;
     io_thread_joinable := false; promises := []; callers := []; writers := [];
     reader := RNotStarted; connecting := NotConnecting; ios_stopped := false;
     terminated := false; requests := []; pushed := []; handled := []; got := [] |}.

(** Field updates. *)
Definition set_calls (next : Z) (pend : gmap Z promise_ptr) (prom : list promise)
    (cs : list caller) (rq : list RpcRequest) (c : RpcClient) : RpcClient :=
  {| next_seq_id_ := next; connected_ := connected_ c; pending_ := pend;
     write_queue_ := write_queue_ c; writing_ := writing_ c;
     io_thread_joinable := io_thread_joinable c; promises := prom; callers := cs;
     writers := writers c; reader := reader c; connecting := connecting c;
     ios_stopped := ios_stopped c; terminated := terminated c; requests := rq;
     pushed := pushed c; handled := handled c; got := got c |}.
Definition set_write (q : list WriteItem) (w : bool) (ws : list (activity WriteItem))
    (ps : list WriteItem) (hs : list (WriteItem * bool)) (c : RpcClient) : RpcClient :=
  {| next_seq_id_ := next_seq_id_ c; connected_ := connected_ c; pending_ := pending_ c;
     write_queue_ := q; writing_ := w;
     io_thread_joinable := io_thread_joinable c; promises := promises c; callers := callers c;
     writers := ws; reader := reader c; connecting := connecting c;
     ios_stopped := ios_stopped c; terminated := terminated c; requests := requests c;
     pushed := ps; handled := hs; got := got c |}.
Definition set_reader (r : reader_op) (g : list frame) (c : RpcClient) : RpcClient :=
  {| next_seq_id_ := next_seq_id_ c; connected_ := connected_ c; pending_ := pending_ c;
     write_queue_ := write_queue_ c; writing_ := writing_ c;
     io_thread_joinable := io_thread_joinable c; promises := promises c; callers := callers c;
     writers := writers c; reader := r; connecting := connecting c;
     ios_stopped := ios_stopped c; terminated := terminated c; requests := requests c;
     pushed := pushed c; handled := handled c; got := g |}.
Definition set_connection (con thread : bool) (op : connect_op) (stop term : bool) (c : RpcClient)
    : RpcClient :=
  {| next_seq_id_ := next_seq_id_ c; connected_ := con; pending_ := pending_ c;
     write_queue_ := write_queue_ c; writing_ := writing_ c;
     io_thread_joinable := thread; promises := promises c; callers := callers c;
     writers := writers c; reader := reader c; connecting := op;
     ios_stopped := stop; terminated := term; requests := requests c;
     pushed := pushed c; handled := handled c; got := got c |}.

(** Replacing the table and the promises only. *)
Definition set_pending (pend : gmap Z promise_ptr) (prom : list promise) (c : RpcClient) : RpcClient :=
  set_calls (next_seq_id_ c) pend prom (callers c) (requests c) c.

Definition terminate (c : RpcClient) : RpcClient :=
  set_connection (connected_ c) (io_thread_joinable c) (connecting c) (ios_stopped c) true c.

(** ** Promises *)

(** [promise.set_value(resp)]: a second value throws [future_error], which no
    caller of this program catches. *)
Definition set_value (p : promise_ptr) (resp : RpcResponse) (c : RpcClient) : RpcClient :=
  match promises c !! p with
  | Some Waiting => set_pending (pending_ c) (<[p := Ready resp]> (promises c)) c
  | _ => terminate c
  end.

(** The last owner of a [PendingRequest] lets go of it. *)
Definition abandon (p : promise_ptr) (prom : list promise) : list promise :=
  match prom !! p with
  | Some Waiting => <[p := Broken]> prom
  | _ => prom
  end.

Definition closed_response (reason : str) : RpcResponse :=
  {| error_code := ErrorCode_value CONNECTION_CLOSED; error_msg := reason; result := [] |}.

(** The loop over [pending_] in [reject_all_pending], then [clear]. *)
Definition reject_all_pending (reason : str) (c : RpcClient) : RpcClient :=
  let c' := foldl (fun c p => set_value p (closed_response reason) c) c (map_to_list (pending_ c)).*2 in
  set_pending ∅ (promises c') c'.

(** ** connect *)

(** [io_thread_ = std::thread(...)] terminates the program when a thread is
    already there. *)
Definition connect (c : RpcClient) : RpcClient :=
  if io_thread_joinable c then terminate c
  else set_connection (connected_ c) true Connecting (ios_stopped c) (terminated c) c.

(** The handlers of resolve and connect. *)
Definition connect_done (ok : bool) (c : RpcClient) : RpcClient :=
  if ok then
    set_reader RHeader (got c)
      (set_connection true (io_thread_joinable c) (ConnectDone true) (ios_stopped c) (terminated c) c)
  else
    set_connection (connected_ c) (io_thread_joinable c) (ConnectDone false) (ios_stopped c)
      (terminated c) c.

(** ** call *)

(** [next_seq_id_++], with the new [PendingRequest]. *)
Definition call_begin (req : RpcRequest) (c : RpcClient) : RpcClient :=
  set_calls (u32 (next_seq_id_ c + 1)) (pending_ c) (promises c ++ [Waiting])
    (callers c ++ [HasSeq (length (promises c)) (next_seq_id_ c) req]) (requests c ++ [req]) c.

(** [pending_[seq_id] = pending], under [pending_mux_]. *)
Definition call_register (i : nat) (c : RpcClient) : option RpcClient :=
  match callers c !! i with
  | Some (HasSeq p seq_id req) =>
      let prom := match pending_ c !! seq_id with
                  | Some old => abandon old (promises c)
                  | None => promises c
                  end in
      Some (set_calls (next_seq_id_ c) (<[seq_id := p]> (pending_ c)) prom
              (<[i := Registered seq_id req]> (callers c)) (requests c) c)
  | _ => None
  end.

Definition call_header (seq_id : Z) (req_body : str) : RpcHeader :=
  {| magic := MAGIC; version := VERSION; msg_type := MsgType_value REQUEST;
     serializer := SerType_value SER_PROTOBUF; flags := FLAG_NONE; seq_id := seq_id;
     body_size := u32 (len req_body); checksum := 0 |}.

(** The frame [call] builds. *)
Definition call_frame (seq_id : Z) (req : RpcRequest) : outcome str :=
  req_body ← request_serialize req;
  hdr ← serialize_header (call_header seq_id req_body);
  Ok (hdr ++ req_body).

(** The critical section of [enqueue_write]. *)
Definition enqueue_write (item : WriteItem) (c : RpcClient) : RpcClient :=
  set_write (write_queue_ c ++ [item]) true
    (if writing_ c then writers c else writers c ++ [DoWrite]) (pushed c ++ [item]) (handled c) c.

Definition call_enqueue (i : nat) (c : RpcClient) : option RpcClient :=
  match callers c !! i with
  | Some (Registered seq_id req) =>
      match call_frame seq_id req with
      | Ok data =>
          Some (enqueue_write {| frame_data := data; item_seq_id := seq_id |}
            (set_calls (next_seq_id_ c) (pending_ c) (promises c) (delete i (callers c))
               (requests c) c))
      | _ => None
      end
  | _ => None
  end.

(** ** Writing *)

Definition do_write (i : nat) (c : RpcClient) : option RpcClient :=
  match writers c !! i with
  | Some DoWrite =>
      Some match write_queue_ c with
      | [] => set_write [] false (delete i (writers c)) (pushed c) (handled c) c
      | item :: q => set_write q (writing_ c) (<[i := Issue item]> (writers c))
                       (pushed c) (handled c) c
      end
  | _ => None
  end.

Definition issue_write (i : nat) (c : RpcClient) : option RpcClient :=
  match writers c !! i with
  | Some (Issue item) =>
      Some (set_write (write_queue_ c) (writing_ c) (<[i := InFlight item]> (writers c))
              (pushed c) (handled c) c)
  | _ => None
  end.

(** A failed write gives the pending request, if still there, an error. *)
Definition fail_write (seq_id : Z) (reason : str) (c : RpcClient) : RpcClient :=
  match pending_ c !! seq_id with
  | Some p =>
      let c := set_value p (closed_response reason) c in
      set_pending (delete seq_id (pending_ c)) (promises c) c
  | None => c
  end.

(** Completion of the write; [ec] is the message of the error, if any. *)
Definition write_done (i : nat) (ec : option str) (c : RpcClient) : option RpcClient :=
  match writers c !! i with
  | Some (InFlight item) =>
      let ok := match ec with None => true | Some _ => false end in
      let c := match ec with Some reason => fail_write (item_seq_id item) reason c | None => c end in
      Some (set_write (write_queue_ c) (writing_ c) (<[i := DoWrite]> (writers c))
              (pushed c) (handled c ++ [(item, ok)]) c)
  | _ => None
  end.

(** ** Reading *)

Definition stop_reading (reason : str) (c : RpcClient) : RpcClient :=
  reject_all_pending reason (set_reader RStopped (got c) c).

(** Completion of the header read: the message of an error, or 20 bytes. *)
Definition header_done (r : str + str) (c : RpcClient) : option RpcClient :=
  match r with
  | inl reason => Some (stop_reading reason c)
  | inr hdr_data =>
      match deserialize_header hdr_data with
      | Ok header =>
          if magic header =? MAGIC then Some (set_reader (RBody header) (got c) c)
          else Some (stop_reading (bs "bad magic") c)
      | Throw _ => Some (stop_reading (bs "bad header") c)
      | UB => None
      end
  end.

(** Completion of the body read, up to [set_value]. *)
Definition body_done (h : RpcHeader) (r : str + str) (c : RpcClient) : option RpcClient :=
  match r with
  | inl reason => Some (stop_reading reason c)
  | inr body =>
      match response_deserialize body with
      | Ok resp =>
          let g := got c ++ [(h, body)] in
          match pending_ c !! seq_id h with
          | Some p => Some (set_reader (RMatched p resp) g
                        (set_pending (delete (seq_id h) (pending_ c)) (promises c) c))
          | None => Some (set_reader RHeader g c)
          end
      | Throw _ => Some (stop_reading (bs "bad response") c)
      | UB => None
      end
  end.

Definition match_done (c : RpcClient) : option RpcClient :=
  match reader c with
  | RMatched p resp => Some (set_value p resp (set_reader RHeader (got c) c))
  | _ => None
  end.

(** ** disconnect and destruction *)

Definition disconnect (c : RpcClient) : RpcClient :=
  set_connection false false (connecting c) true (terminated c) c.

Definition is_connected (c : RpcClient) : bool := connected_ c.

(** The destructor disconnects, then destroys the table. *)
Definition destroy (c : RpcClient) : RpcClient :=
  let c := disconnect c in
  set_pending ∅ (foldl (fun prom p => abandon p prom) (promises c) (map_to_list (pending_ c)).*2) c.

(** ** Steps *)

Inductive client_event :=
  | KConnect
  | KConnected (ok : bool)
  | KCall (req : RpcRequest)
  | KRegister (i : nat)
  | KEnqueue (i : nat)
  | KDoWrite (i : nat)
  | KIssue (i : nat)
  | KWritten (i : nat) (ec : option str)
  | KHeader (r : str + str)
  | KBody (r : str + str)
  | KMatch
  | KDisconnect
  | KDestroy.

Definition read_fits (n : Z) (r : str + str) : bool :=
  match r with inl _ => true | inr b => len b =? n end.

(** Handlers run only while the io thread does. *)
Definition io_runs (c : RpcClient) : bool := io_thread_joinable c && negb (ios_stopped c).

Definition client_step (c : RpcClient) (ev : client_event) : option RpcClient :=
  if terminated c then None else
  match ev with
  | KConnect => Some (connect c)
  | KConnected ok =>
      match connecting c with
      | Connecting => if io_runs c then Some (connect_done ok c) else None
      | _ => None
      end
  | KCall req => Some (call_begin req c)
  | KRegister i => call_register i c
  | KEnqueue i => call_enqueue i c
  | KDoWrite i => do_write i c
  | KIssue i => issue_write i c
  | KWritten i ec => if io_runs c then write_done i ec c else None
  | KHeader r =>
      match reader c with
      | RHeader => if io_runs c && read_fits 20 r then header_done r c else None
      | _ => None
      end
  | KBody r =>
      match reader c with
      | RBody h => if io_runs c && read_fits (body_size h) r then body_done h r c else None
      | _ => None
      end
  | KMatch => match_done c
  | KDisconnect => Some (disconnect c)
  | KDestroy => match callers c with [] => Some (destroy c) | _ => None end
  end.

Definition client_trans : RpcClient -> RpcClient -> Prop := steps_to client_step.
Definition client_reachable (c : RpcClient) : Prop := rtc client_trans RpcClient_init c.

(** ** The write queue is the shared discipline *)

Definition client_wq (c : RpcClient) : wq WriteItem :=
  {| wq_queue := write_queue_ c; wq_writing := writing_ c; wq_active := writers c;
     wq_pushed := pushed c; wq_handled := handled c |}.

Definition is_ok (ec : option str) : bool := match ec with None => true | Some _ => false end.

Definition client_wq_event (c : RpcClient) (ev : client_event) : option (wq_event WriteItem) :=
  match ev with
  | KEnqueue i =>
      match callers c !! i with
      | Some (Registered s req) =>
          match call_frame s req with
          | Ok data => Some (WPush {| frame_data := data; item_seq_id := s |})
          | _ => None
          end
      | _ => None
      end
  | KDoWrite i => Some (WPop i)
  | KIssue i => Some (WIssue i)
  | KWritten i ec => Some (WDone i (is_ok ec))
  | _ => None
  end.

(** The io thread runs and the program has not been terminated. *)
Definition client_live (c : RpcClient) : Prop := terminated c = false /\ io_runs c = true.

(** What operations on promises leave alone. *)
Definition same_frame (c c' : RpcClient) : Prop :=
  client_wq c' = client_wq c /\ callers c' = callers c /\ reader c' = reader c /\
  requests c' = requests c /\ got c' = got c /\ next_seq_id_ c' = next_seq_id_ c /\
  pending_ c' = pending_ c /\
  (connecting c', ios_stopped c', io_thread_joinable c', connected_ c') =
  (connecting c, ios_stopped c, io_thread_joinable c, connected_ c).

Lemma set_value_frame p r c : same_frame c (set_value p r c).
Proof. unfold set_value. by destruct (promises c !! p) as [[]|]. Qed.

Lemma fold_set_value_frame r ps c : same_frame c (foldl (fun c p => set_value p r c) c ps).
Proof.
  revert c. induction ps as [|p ps IH]; intros c; [done|]. cbn.
  destruct (IH (set_value p r c)) as (E1 & E2 & E3 & E4 & E5 & E6 & E7 & E8).
  destruct (set_value_frame p r c) as (F1 & F2 & F3 & F4 & F5 & F6 & F7 & F8).
  split_and!; congruence.
Qed.

Lemma client_wq_set_pending m pr c : client_wq (set_pending m pr c) = client_wq c.
Proof. done. Qed.

Lemma reject_wq reason c : client_wq (reject_all_pending reason c) = client_wq c.
Proof. unfold reject_all_pending. cbn. apply fold_set_value_frame. Qed.

Lemma set_value_wq p r c : client_wq (set_value p r c) = client_wq c.
Proof. apply set_value_frame. Qed.

Lemma fail_write_wq s reason c : client_wq (fail_write s reason c) = client_wq c.
Proof.
  unfold fail_write. destruct (pending_ c !! s); [|done].
  rewrite client_wq_set_pending. apply set_value_wq.
Qed.

(** Every way a step can go, one goal each. *)
Ltac client_cases ev E :=
  destruct ev; cbn in E;
  unfold header_done, body_done, call_register, call_enqueue, do_write, issue_write, write_done,
    match_done in E;
  split_match E; simplify_eq; try done.

Lemma client_step_wq c ev c' :
  client_step c ev = Some c' ->
  match client_wq_event c ev with
  | Some we => wq_step false (client_wq c) we = Some (client_wq c')
  | None => client_wq c' = client_wq c
  end.
Proof.
  intros E. unfold client_step in E. destruct (terminated c); [done|].
  client_cases ev E; cbn [client_wq_event]; unfold stop_reading;
    rewrite ?reject_wq, ?client_wq_set_pending, ?set_value_wq; try done.
  all: try (unfold connect; by destruct (io_thread_joinable c)).
  all: try (unfold connect_done; by destruct ok).
  all: repeat match goal with H : ?x = _ |- context [match ?x with _ => _ end] => rewrite H end.
  all: unfold wq_step, wq_push, client_wq; cbn;
    repeat match goal with H : ?x = _ |- context [?x] => rewrite H; cbn end; try done.
  pose proof (fail_write_wq (item_seq_id x) l c) as Hq. unfold client_wq in Hq.
  injection Hq as -> -> -> -> ->. done.
Qed.

#[export] Instance client_write_queue :
  WriteQueueImpl false client_step RpcClient_init client_wq client_wq_event client_live.
Proof.
  split; [done|exact client_step_wq|].
  intros c we q [Ht Hio] Hw E. destruct we as [x|i|i|i ok]; [done|..]; cbn in E.
  - destruct (writers c !! i) as [[]|] eqn:Ei; try done.
    eexists (KDoWrite i), _. split; [done|]. unfold client_step, do_write. rewrite Ht, Ei.
    split; [done|]. simplify_eq. by destruct (write_queue_ c).
  - destruct (writers c !! i) as [[]|] eqn:Ei; try done.
    eexists (KIssue i), _. split; [done|]. unfold client_step, issue_write. rewrite Ht, Ei.
    split; [done|]. by simplify_eq.
  - destruct (writers c !! i) as [[]|] eqn:Ei; try done.
    set (ec := if ok then None else Some (bs "failed")).
    assert (is_ok ec = ok) as Hok by (by destruct ok).
    assert (client_step c (KWritten i ec) <> None) as Hs
      by (unfold client_step, write_done; by rewrite Ht, Hio, Ei).
    destruct (client_step c (KWritten i ec)) as [c'|] eqn:Es; [|done].
    exists (KWritten i ec), c'. split_and!; [cbn; by rewrite Hok|done|].
    pose proof (client_step_wq c _ c' Es) as Hq. cbn in Hq. rewrite Ei, Hok in Hq.
    rewrite andb_false_r in E, Hq. congruence.
Qed.

(** ** Who owns a promise

    A waiting promise has exactly one owner that will settle it: a caller that
    has not registered it, the table, or the reader that has just matched it. *)
Definition caller_owned (cs : list caller) : list promise_ptr :=
  cs ≫= fun k => match k with HasSeq p _ _ => [p] | Registered _ _ => [] end.
Definition table_owned (m : gmap Z promise_ptr) : list promise_ptr := (map_to_list m).*2.
Definition reader_owned (r : reader_op) : list promise_ptr :=
  match r with RMatched p _ => [p] | _ => [] end.

Definition owners (c : RpcClient) : list promise_ptr :=
  caller_owned (callers c) ++ table_owned (pending_ c) ++ reader_owned (reader c).

Record own_inv (prom : list promise) (os : list promise_ptr) : Prop := {
  oi_waiting p : prom !! p = Some Waiting <-> p ∈ os;
  oi_nodup : NoDup os
}.

#[export] Instance own_inv_proper prom : Proper (Permutation ==> iff) (own_inv prom).
Proof.
  intros a b Hab. split; intros [Hw Hn]; split.
  - intros p. by rewrite Hw, Hab.
  - by rewrite <- Hab.
  - intros p. by rewrite Hw, Hab.
  - by rewrite Hab.
Qed.

Lemma own_settle prom p os v :
  own_inv prom (p :: os) -> v <> Waiting -> own_inv (<[p := v]> prom) os.
Proof.
  intros [Hw Hn] Hv. apply NoDup_cons in Hn as [Hp Hn]. split; [|done]. intros q.
  assert (prom !! p = Some Waiting) as Hpw by (apply Hw; set_solver).
  destruct (decide (p = q)) as [<-|Hne].
  - rewrite list_lookup_insert_eq by (by eapply lookup_lt_Some). split; [congruence|done].
  - rewrite list_lookup_insert_ne, Hw by done. set_solver.
Qed.

Lemma own_new prom os : own_inv prom os -> own_inv (prom ++ [Waiting]) (length prom :: os).
Proof.
  intros [Hw Hn]. assert (length prom ∉ os) as Hl.
  { intros Hl. apply Hw, lookup_lt_Some in Hl. lia. }
  split; [|by constructor]. intros q. rewrite elem_of_cons, <- Hw, lookup_snoc_Some.
  split; [intros [[? ?]|[? ?]]; auto|]. intros [->|Hq]; [auto|]. left. split; [|done].
  by eapply lookup_lt_Some.
Qed.

Lemma table_insert m s p : m !! s = None -> table_owned (<[s := p]> m) ≡ₚ p :: table_owned m.
Proof. intros Hs. unfold table_owned. by rewrite map_to_list_insert. Qed.

Lemma table_delete m s p : m !! s = Some p -> table_owned m ≡ₚ p :: table_owned (delete s m).
Proof.
  intros Hs. unfold table_owned. rewrite <- (insert_delete_id m s p Hs) at 1.
  by rewrite map_to_list_insert by apply lookup_delete_eq.
Qed.

Lemma caller_owned_insert cs i k k' :
  cs !! i = Some k ->
  caller_owned (<[i := k']> cs) ++ caller_owned [k] ≡ₚ caller_owned cs ++ caller_owned [k'].
Proof.
  intros Hi. rewrite insert_take_drop by (by eapply lookup_lt_Some).
  rewrite <- (take_drop_middle cs i k Hi) at 3. unfold caller_owned.
  rewrite !bind_app. cbn. rewrite <- !app_assoc, !app_nil_r. apply Permutation_app_head.
  rewrite (Permutation_app_comm (match k' with HasSeq p _ _ => [p] | Registered _ _ => [] end)).
  rewrite (app_assoc _ _ (match k' with HasSeq p _ _ => [p] | Registered _ _ => [] end)).
  by apply Permutation_app_tail, Permutation_app_comm.
Qed.

(** Settling the owners [ps] one after the other. *)
Fixpoint settle_all (v : promise) (ps : list promise_ptr) (prom : list promise) : list promise :=
  match ps with
  | [] => prom
  | p :: ps => settle_all v ps (<[p := v]> prom)
  end.

Lemma own_settle_all v ps os prom :
  own_inv prom (ps ++ os) -> v <> Waiting -> own_inv (settle_all v ps prom) os.
Proof.
  intros Ho Hv. revert prom Ho. induction ps as [|p ps IH]; intros prom Ho; [done|].
  cbn. apply IH. by apply own_settle.
Qed.

Lemma settle_all_lookup v ps prom q w :
  settle_all v ps prom !! q = Some w -> w = v \/ prom !! q = Some w.
Proof.
  revert prom. induction ps as [|p ps IH]; intros prom; cbn; [auto|]. intros Hq.
  destruct (IH _ Hq) as [|Hq']; [auto|].
  apply list_lookup_insert_Some in Hq' as [(_ & <- & _)|[_ ?]]; auto.
Qed.

Lemma settle_all_length v ps prom : length (settle_all v ps prom) = length prom.
Proof.
  revert prom. induction ps as [|p ps IH]; intros prom; cbn; [done|]. by rewrite IH, length_insert.
Qed.

(** On waiting promises [set_value] never terminates the program. *)
Lemma set_value_waiting p r c :
  promises c !! p = Some Waiting ->
  set_value p r c = set_pending (pending_ c) (<[p := Ready r]> (promises c)) c.
Proof. intros E. unfold set_value. by rewrite E. Qed.

Lemma fold_set_value r ps os c :
  own_inv (promises c) (ps ++ os) ->
  foldl (fun c p => set_value p r c) c ps =
    set_pending (pending_ c) (settle_all (Ready r) ps (promises c)) c.
Proof.
  revert c. induction ps as [|p ps IH]; intros c Ho; [by destruct c|]. cbn [foldl].
  rewrite set_value_waiting by (apply (oi_waiting _ _ Ho); set_solver).
  rewrite IH; [done|]. cbn. by apply own_settle.
Qed.

Lemma fold_abandon ps os prom :
  own_inv prom (ps ++ os) ->
  foldl (fun prom p => abandon p prom) prom ps = settle_all Broken ps prom.
Proof.
  revert prom. induction ps as [|p ps IH]; intros prom Ho; [done|]. cbn [foldl].
  unfold abandon at 2. rewrite (proj2 (oi_waiting _ _ Ho p)) by set_solver.
  rewrite IH; [done|]. by apply own_settle.
Qed.

(** ** Invariant *)

(** The id of call number [p]. *)
Definition call_id (p : promise_ptr) : Z := u32 (Z.of_nat p + 1).

(** A frame was read that answers call [p] with [r]. *)
Definition answered (g : list frame) (p : promise_ptr) (r : RpcResponse) : Prop :=
  exists h b, (h, b) ∈ g /\ seq_id h = call_id p /\ response_deserialize b = Ok r.

Definition caller_ok (rq : list RpcRequest) (k : caller) : Prop :=
  match k with
  | HasSeq p s req => s = call_id p /\ rq !! p = Some req
  | Registered s req => exists p, s = call_id p /\ rq !! p = Some req
  end.

(** A queued frame is the frame of a call. *)
Definition item_ok (rq : list RpcRequest) (it : WriteItem) : Prop :=
  exists p req, rq !! p = Some req /\ item_seq_id it = call_id p /\
    call_frame (call_id p) req = Ok (frame_data it).

Definition outcome_ok (g : list frame) (p : promise_ptr) (v : promise) : Prop :=
  match v with
  | Ready r => answered g p r \/ exists reason, r = closed_response reason
  | _ => True
  end.

Record client_inv (c : RpcClient) : Prop := {
  cl_own : own_inv (promises c) (owners c);
  cl_seq : next_seq_id_ c = u32 (len (promises c) + 1);
  cl_len : length (requests c) = length (promises c);
  cl_pending s p : pending_ c !! s = Some p -> s = call_id p;
  cl_callers : Forall (caller_ok (requests c)) (callers c);
  cl_matched p r : reader c = RMatched p r -> answered (got c) p r;
  cl_ready p v : promises c !! p = Some v -> outcome_ok (got c) p v;
  cl_items : Forall (item_ok (requests c)) (pushed c);
  cl_start : ios_stopped c = false ->
    match connecting c with
    | NotConnecting => io_thread_joinable c = false /\ reader c = RNotStarted
    | Connecting => io_thread_joinable c = true /\ reader c = RNotStarted
    | ConnectDone _ => io_thread_joinable c = true
    end
}.

Lemma answered_mono g f p r : answered g p r -> answered (g ++ [f]) p r.
Proof. intros (h & b & Hin & ?). exists h, b. split; [|done]. apply elem_of_app. auto. Qed.

Lemma outcome_mono g f p v : outcome_ok g p v -> outcome_ok (g ++ [f]) p v.
Proof. destruct v; cbn; auto. intros [?|?]; [left; by apply answered_mono|auto]. Qed.

Lemma lookup_snoc_mono {A} (l : list A) x i y : l !! i = Some y -> (l ++ [x]) !! i = Some y.
Proof. intros Hi. rewrite lookup_app_l; [done|]. by eapply lookup_lt_Some. Qed.

Lemma caller_ok_mono rq x k : caller_ok rq k -> caller_ok (rq ++ [x]) k.
Proof.
  destruct k; cbn; [intros [? ?]; split; [done|by apply lookup_snoc_mono]|].
  intros (p & ? & ?). exists p. split; [done|by apply lookup_snoc_mono].
Qed.

Lemma item_ok_mono rq x it : item_ok rq it -> item_ok (rq ++ [x]) it.
Proof. intros (p & req & ? & ? & ?). exists p, req. split_and!; auto. by apply lookup_snoc_mono. Qed.

(** Changing the promises, the table and the reader, and nothing else, keeps the
    invariant when ownership and the outcomes are right. *)
Lemma client_inv_settle c c' :
  client_inv c ->
  (callers c', requests c', got c', next_seq_id_ c', pushed c') =
  (callers c, requests c, got c, next_seq_id_ c, pushed c) ->
  (connecting c', ios_stopped c', io_thread_joinable c') =
  (connecting c, ios_stopped c, io_thread_joinable c) ->
  own_inv (promises c') (owners c') -> length (promises c') = length (promises c) ->
  (forall s p, pending_ c' !! s = Some p -> pending_ c !! s = Some p) ->
  (forall p r, reader c' = RMatched p r -> reader c = RMatched p r) ->
  (forall p v, promises c' !! p = Some v -> outcome_ok (got c) p v) ->
  (reader c = RNotStarted -> reader c' = RNotStarted) ->
  client_inv c'.
Proof.
  intros [] E1 E2 Ho El Hp Hr Hv Hn. injection E1 as E1 E1' E1'' E1''' E1''''.
  injection E2 as E2 E2' E2''.
  split; rewrite ?E1, ?E1', ?E1'', ?E1''', ?E1'''', ?E2, ?E2', ?E2''; auto.
  - rewrite cl_seq0. unfold len. by rewrite El.
  - congruence.
  - intros Hs. specialize (cl_start0 Hs). destruct (connecting c); naive_solver.
Qed.

(** [reject_all_pending] settles exactly the table. *)
Lemma reject_all_eq reason c :
  client_inv c ->
  reject_all_pending reason c =
    set_pending ∅ (settle_all (Ready (closed_response reason)) (table_owned (pending_ c)) (promises c)) c.
Proof.
  intros Hinv. unfold reject_all_pending. fold (table_owned (pending_ c)).
  erewrite fold_set_value; [done|]. eapply own_inv_proper; [|exact (cl_own c Hinv)].
  unfold owners. by rewrite Permutation_app_swap_app.
Qed.

Lemma own_split c : client_inv c ->
  own_inv (promises c) (table_owned (pending_ c) ++ caller_owned (callers c) ++ reader_owned (reader c)).
Proof.
  intros Hinv. eapply own_inv_proper; [|exact (cl_own c Hinv)].
  unfold owners. by rewrite Permutation_app_swap_app.
Qed.

Lemma stopped_reader_inv c :
  client_inv c -> reader_owned (reader c) = [] -> reader c <> RNotStarted ->
  client_inv (set_reader RStopped (got c) c).
Proof.
  intros Hinv Hr Hns. apply client_inv_settle with c; auto; try done.
  - pose proof (cl_own c Hinv) as Ho. unfold owners in *. by rewrite Hr in Ho.
  - apply (cl_ready c Hinv).
Qed.

Lemma stop_reading_inv reason c :
  client_inv c -> reader_owned (reader c) = [] -> reader c <> RNotStarted ->
  client_inv (stop_reading reason c) /\ terminated (stop_reading reason c) = terminated c.
Proof.
  intros Hinv Hr Hns. unfold stop_reading.
  pose proof (stopped_reader_inv c Hinv Hr Hns) as Hinv'.
  rewrite reject_all_eq by done. split; [|done].
  apply client_inv_settle with (set_reader RStopped (got c) c); auto; try done.
  - pose proof (own_split _ Hinv') as Ho. cbn in Ho. unfold owners. cbn.
    eapply own_settle_all; [|done]. exact Ho.
  - apply settle_all_length.
  - intros p v [->|Hv]%settle_all_lookup; [right; eauto|]. by apply (cl_ready c Hinv).
Qed.

Lemma fail_write_inv s reason c :
  client_inv c ->
  client_inv (fail_write s reason c) /\ terminated (fail_write s reason c) = terminated c.
Proof.
  intros Hinv. unfold fail_write. destruct (pending_ c !! s) as [p|] eqn:Hp; [|done].
  pose proof (own_split c Hinv) as Ho. rewrite (table_delete _ _ _ Hp) in Ho. cbn in Ho.
  rewrite set_value_waiting by (apply (oi_waiting _ _ Ho); set_solver). split; [|done].
  apply client_inv_settle with c; auto; try done; cbn.
  - unfold owners. cbn. rewrite Permutation_app_swap_app. by apply own_settle.
  - apply length_insert.
  - intros s' q [_ ?]%lookup_delete_Some. done.
  - intros q v [(<- & <- & _)|[_ Hv]]%list_lookup_insert_Some; [right; eauto|].
    by apply (cl_ready c Hinv).
Qed.

Lemma u32_next n : u32 (u32 n + 1) = u32 (n + 1).
Proof. unfold wrap. by rewrite Zplus_mod_idemp_l. Qed.

Lemma call_begin_inv req c : client_inv c -> client_inv (call_begin req c).
Proof.
  intros []. split; cbn; auto.
  - unfold owners. cbn. eapply own_inv_proper; [|apply (own_new _ _ cl_own0)].
    unfold caller_owned. rewrite bind_app. cbn. rewrite <- app_assoc. cbn.
    by rewrite <- Permutation_middle.
  - rewrite cl_seq0. unfold len. rewrite length_app. cbn. rewrite u32_next. f_equal. lia.
  - rewrite !length_app, cl_len0. done.
  - apply Forall_app. split.
    + eapply Forall_impl; [done|]. intros k. apply caller_ok_mono.
    + constructor; [|done]. cbn. split; [by rewrite cl_seq0|].
      by rewrite lookup_app_r, cl_len0, Nat.sub_diag by lia.
  - intros p v [Hv|[_ <-]]%lookup_snoc_Some; [|done]. destruct Hv as [_ Hv]. auto.
  - eapply Forall_impl; [done|]. intros it. apply item_ok_mono.
Qed.

Lemma call_register_inv i c c' : client_inv c -> call_register i c = Some c' -> client_inv c'.
Proof.
  intros Hinv E. unfold call_register in E.
  destruct (callers c !! i) as [[p s req|]|] eqn:Hi; try done. injection E as <-.
  pose proof (caller_owned_insert _ _ _ (Registered s req) Hi) as Hc. cbn in Hc.
  rewrite app_nil_r in Hc.
  assert (caller_ok (requests c) (HasSeq p s req)) as [Hs Hreq].
  { pose proof (cl_callers c Hinv) as Hk. rewrite Forall_lookup in Hk. exact (Hk _ _ Hi). }
  assert (own_inv (match pending_ c !! s with Some old => abandon old (promises c) | None => promises c end)
    (caller_owned (<[i := Registered s req]> (callers c)) ++ table_owned (<[s := p]> (pending_ c)) ++
     reader_owned (reader c)) /\
    length (match pending_ c !! s with Some old => abandon old (promises c) | None => promises c end)
      = length (promises c) /\
    forall q v, match pending_ c !! s with Some old => abandon old (promises c) | None => promises c end !! q
      = Some v -> v = Broken \/ promises c !! q = Some v) as (Ho & Hl & Hv).
  { pose proof (own_split c Hinv) as Ho. rewrite <- Hc in Ho.
    destruct (pending_ c !! s) as [old|] eqn:Hold.
    - rewrite (table_delete _ _ _ Hold) in Ho. cbn in Ho.
      unfold abandon. rewrite (proj2 (oi_waiting _ _ Ho old)) by set_solver.
      split_and!; [|apply length_insert|intros q v [(_ & <- & _)|[_ ?]]%list_lookup_insert_Some; auto].
      rewrite <- insert_delete_eq, table_insert by apply lookup_delete_eq.
      apply (own_settle _ _ _ Broken) in Ho; [|done]. eapply own_inv_proper; [|exact Ho].
      rewrite Permutation_app_swap_app. rewrite (Permutation_app_comm _ [p]), <- !app_assoc. cbn.
      by rewrite <- Permutation_middle.
    - split_and!; auto. rewrite table_insert by done. eapply own_inv_proper; [|exact Ho].
      rewrite Permutation_app_swap_app. rewrite (Permutation_app_comm _ [p]), <- !app_assoc. cbn.
      by rewrite <- Permutation_middle. }
  destruct Hinv. split; cbn; auto.
  - rewrite cl_seq0. unfold len. by rewrite Hl.
  - congruence.
  - intros s' q [[<- <-]|[_ Hq]]%lookup_insert_Some; auto.
  - apply Forall_insert; [done|]. exists p. done.
  - intros q v [->|?]%Hv; [done|auto].
Qed.

Lemma call_enqueue_inv i c c' : client_inv c -> call_enqueue i c = Some c' -> client_inv c'.
Proof.
  intros [] E. unfold call_enqueue in E.
  destruct (callers c !! i) as [[|s req]|] eqn:Hi; try done.
  destruct (call_frame s req) as [data| |] eqn:Ef; try done. injection E as <-.
  assert (caller_ok (requests c) (Registered s req)) as (p & -> & Hreq).
  { rewrite Forall_lookup in cl_callers0. exact (cl_callers0 _ _ Hi). }
  split; cbn; auto.
  - unfold owners. cbn. replace (caller_owned (delete i (callers c))) with (caller_owned (callers c)); [done|].
    rewrite delete_take_drop. rewrite <- (take_drop_middle _ _ _ Hi) at 1.
    unfold caller_owned. by rewrite !bind_app.
  - by apply Forall_delete.
  - apply Forall_app. split; [done|]. constructor; [|done]. exists p, req. done.
Qed.

Lemma body_done_inv h r c c' :
  client_inv c -> reader c = RBody h -> body_done h r c = Some c' ->
  client_inv c' /\ terminated c' = terminated c.
Proof.
  intros Hinv Hr E. unfold body_done in E.
  assert (forall reason, client_inv (stop_reading reason c) /\
    terminated (stop_reading reason c) = terminated c) as Hstop
    by (intros; apply stop_reading_inv; rewrite ?Hr; done).
  destruct r as [reason|body]; [injection E as <-; auto|].
  destruct (response_deserialize body) as [resp|e|] eqn:Ed; [|injection E as <-; auto|done].
  pose proof (cl_own c Hinv) as Ho. pose proof (own_split c Hinv) as Ho'. destruct Hinv.
  unfold owners in Ho. rewrite Hr in Ho, Ho'. cbn in Ho, Ho'. rewrite app_nil_r in Ho, Ho'.
  destruct (pending_ c !! seq_id h) as [p|] eqn:Hp; injection E as <-; (split; [|done]); split; cbn; auto.
  - unfold owners. cbn. eapply own_inv_proper; [|exact Ho'].
    rewrite (table_delete _ _ _ Hp). rewrite app_assoc. rewrite (Permutation_app_comm _ [p]). cbn.
    by rewrite Permutation_app_comm.
  - intros s q [_ ?]%lookup_delete_Some. auto.
  - intros q r Eq. injection Eq as <- <-. exists h, body. split_and!; [apply elem_of_app; set_solver| |done].
    by apply cl_pending0.
  - intros q v Hv. by apply outcome_mono, cl_ready0.
  - intros Hs. specialize (cl_start0 Hs). destruct (connecting c); [destruct cl_start0; congruence..|done].
  - unfold owners. cbn. by rewrite app_nil_r.
  - done.
  - intros q v Hv. by apply outcome_mono, cl_ready0.
  - intros Hs. specialize (cl_start0 Hs). destruct (connecting c); [destruct cl_start0; congruence..|done].
Qed.

Lemma match_done_inv c c' :
  client_inv c -> match_done c = Some c' -> client_inv c' /\ terminated c' = terminated c.
Proof.
  intros Hinv E. unfold match_done in E. destruct (reader c) as [| | |p resp|] eqn:Hr; try done.
  injection E as <-. pose proof (cl_own c Hinv) as Ho. unfold owners in Ho. rewrite Hr in Ho. cbn in Ho.
  rewrite app_assoc, (Permutation_app_comm _ [p]) in Ho. cbn in Ho.
  rewrite set_value_waiting by (apply (oi_waiting _ _ Ho); set_solver). split; [|done].
  apply client_inv_settle with c; auto; try done; cbn.
  - unfold owners. cbn. rewrite app_nil_r. by apply own_settle.
  - apply length_insert.
  - intros q v [(<- & <- & _)|[_ Hv]]%list_lookup_insert_Some; [left|by apply (cl_ready c Hinv)].
    by apply (cl_matched c Hinv).
  - congruence.
Qed.

Lemma destroy_inv c : client_inv c -> client_inv (destroy c).
Proof.
  intros Hinv. unfold destroy. cbn. fold (table_owned (pending_ c)).
  rewrite (fold_abandon _ _ _ (own_split c Hinv)).
  pose proof (own_settle_all Broken _ _ _ (own_split c Hinv)) as Ho. destruct Hinv.
  split; cbn; auto; try done.
  - rewrite cl_seq0. unfold len. by rewrite settle_all_length.
  - by rewrite settle_all_length.
  - intros p v [->|?]%settle_all_lookup; [done|auto].
Qed.

Lemma connect_done_inv ok c :
  client_inv c -> connecting c = Connecting -> io_runs c = true -> client_inv (connect_done ok c).
Proof.
  intros [] Hc Hio. unfold io_runs in Hio. apply andb_true_iff in Hio as [Hj Hs].
  rewrite negb_true_iff in Hs. specialize (cl_start0 Hs). rewrite Hc in cl_start0.
  destruct cl_start0 as [_ Hr]. unfold connect_done. destruct ok; split; cbn; auto; try done.
  unfold owners in *. rewrite Hr in cl_own0. exact cl_own0.
Qed.

(** The only step that can end the program is a second [connect]. *)
Lemma header_done_inv r c c' :
  client_inv c -> reader c = RHeader -> header_done r c = Some c' ->
  client_inv c' /\ terminated c' = terminated c.
Proof.
  intros Hinv Hr E. unfold header_done in E.
  assert (forall reason, client_inv (stop_reading reason c) /\
    terminated (stop_reading reason c) = terminated c) as Hstop
    by (intros; apply stop_reading_inv; rewrite ?Hr; done).
  destruct r as [reason|hdr]; [injection E as <-; auto|].
  destruct (deserialize_header hdr) as [h|e|]; [|injection E as <-; auto|done].
  destruct (magic h =? MAGIC); [|injection E as <-; auto]. injection E as <-. split; [|done].
  apply client_inv_settle with c; auto; try done; cbn.
  - pose proof (cl_own c Hinv) as Ho. unfold owners in *. by rewrite Hr in Ho.
  - by apply (cl_ready c Hinv).
  - congruence.
Qed.

Lemma client_step_inv c ev c' :
  client_inv c -> client_step c ev = Some c' ->
  client_inv c' /\ (terminated c' = true -> ev = KConnect /\ io_thread_joinable c = true).
Proof.
  intros Hinv E. unfold client_step in E. destruct (terminated c) eqn:Ht; [done|].
  assert (forall d, client_inv d /\ terminated d = terminated c ->
    client_inv d /\ (terminated d = true -> ev = KConnect /\ io_thread_joinable c = true)) as Hgo.
  { intros d [? ->]. split; [done|congruence]. }
  destruct ev as [|ok|req|i|i|i|i|i ec|r|r| | |].
  - injection E as <-. unfold connect. destruct (io_thread_joinable c) eqn:Hj.
    + split; [|done]. by destruct Hinv.
    + apply Hgo. split; [|done]. destruct Hinv. split; auto. cbn. intros Hs.
      specialize (cl_start0 Hs). rewrite Hj in cl_start0. destruct (connecting c); naive_solver.
  - destruct (connecting c) eqn:Hc; try done. destruct (io_runs c) eqn:Hio; [|done].
    injection E as <-. apply Hgo. split; [by apply connect_done_inv|by destruct ok].
  - injection E as <-. apply Hgo. split; [by apply call_begin_inv|done].
  - apply Hgo. split; [by eapply call_register_inv|]. unfold call_register in E.
    split_match E; by simplify_eq.
  - apply Hgo. split; [by eapply call_enqueue_inv|]. unfold call_enqueue in E.
    split_match E; by simplify_eq.
  - unfold do_write in E. destruct (writers c !! i) as [[]|]; try done. injection E as <-.
    apply Hgo. destruct (write_queue_ c); (split; [by destruct Hinv|done]).
  - unfold issue_write in E. destruct (writers c !! i) as [[]|]; try done. injection E as <-.
    apply Hgo. by destruct Hinv.
  - destruct (io_runs c); [|done]. unfold write_done in E.
    destruct (writers c !! i) as [[]|]; try done. injection E as <-. apply Hgo. cbn.
    destruct ec as [reason|]; [|by destruct Hinv].
    destruct (fail_write_inv (item_seq_id x) reason c Hinv) as [Hf Hft].
    split; [by destruct Hf|done].
  - destruct (reader c) eqn:Hr; try done. destruct (_ && _); [|done]. apply Hgo.
    by eapply header_done_inv.
  - destruct (reader c) eqn:Hr; try done. destruct (_ && _); [|done]. apply Hgo.
    by eapply body_done_inv.
  - apply Hgo. by apply match_done_inv.
  - injection E as <-. apply Hgo. split; [|done]. destruct Hinv. by split.
  - destruct (callers c); [|done]. injection E as <-. apply Hgo. split; [by apply destroy_inv|done].
Qed.

Lemma client_init_inv : client_inv RpcClient_init.
Proof.
  split; cbn; try done.
  split; [|apply NoDup_nil_2]. intros p. rewrite lookup_nil. split; [done|].
  intros Hp. by apply elem_of_nil in Hp.
Qed.

Lemma client_reachable_inv c : client_reachable c -> client_inv c.
Proof.
  intros Hr. eapply (steps_invariant client_step client_inv); [|exact Hr|exact client_init_inv].
  intros a ev b Ha E. by apply (client_step_inv a ev b Ha E).
Qed.

Lemma client_run_reachable evs :
  client_reachable (default RpcClient_init (run client_step evs RpcClient_init)).
Proof. apply run_reachable. Qed.

(** ** Every call is sent at most once

    The ids of the frames queued and of the threads still inside [call] are the
    ids of all calls. *)
Definition caller_seq (k : caller) : Z := match k with HasSeq _ s _ | Registered s _ => s end.

Definition wire_ids (c : RpcClient) : list Z :=
  (item_seq_id <$> pushed c) ++ (caller_seq <$> callers c).

Definition ids_of (n : nat) : list Z := call_id <$> seq 0 n.

#[global] Arguments ids_of : simpl never.
#[global] Arguments call_id : simpl never.

Lemma ids_of_S n : ids_of (S n) = ids_of n ++ [call_id n].
Proof. unfold ids_of. by rewrite seq_S, fmap_app. Qed.

Lemma call_id_inj (n : nat) p q :
  (p < n)%nat -> (q < n)%nat -> Z.of_nat n <= 2 ^ 32 -> call_id p = call_id q -> p = q.
Proof.
  intros Hp Hq Hl E. unfold call_id, wrap in *.
  destruct (decide (Z.of_nat p + 1 = 2 ^ 32)) as [Ep|Ep], (decide (Z.of_nat q + 1 = 2 ^ 32)) as [Eq|Eq];
    rewrite ?Ep, ?Eq, ?Z_mod_same_full in E; rewrite ?Z.mod_small in E by lia; lia.
Qed.

Lemma ids_of_nodup n : Z.of_nat n <= 2 ^ 32 -> NoDup (ids_of n).
Proof.
  intros Hn. unfold ids_of. apply NoDup_fmap_2_strong; [|apply NoDup_seq].
  intros p q Hp%elem_of_seq Hq%elem_of_seq. apply (call_id_inj n); lia.
Qed.

Lemma same_frame_calls c d : same_frame c d ->
  (pushed d, callers d, requests d) = (pushed c, callers c, requests c).
Proof. intros ([=] & ? & _ & ? & _). congruence. Qed.

Lemma stop_reading_calls reason c :
  (pushed (stop_reading reason c), callers (stop_reading reason c), requests (stop_reading reason c)) =
  (pushed c, callers c, requests c).
Proof. exact (same_frame_calls _ _ (fold_set_value_frame _ _ (set_reader RStopped (got c) c))). Qed.

Lemma fail_write_calls s reason c :
  (pushed (fail_write s reason c), callers (fail_write s reason c), requests (fail_write s reason c)) =
  (pushed c, callers c, requests c).
Proof.
  unfold fail_write. destruct (pending_ c !! s) as [p|]; [|done].
  exact (same_frame_calls _ _ (set_value_frame p (closed_response reason) c)).
Qed.

Lemma client_step_ids c ev c' :
  client_inv c -> client_step c ev = Some c' ->
  wire_ids c ≡ₚ ids_of (length (requests c)) -> wire_ids c' ≡ₚ ids_of (length (requests c')).
Proof.
  intros Hinv E Hids. unfold client_step in E. destruct (terminated c); [done|].
  assert (forall d, (pushed d, callers d, requests d) = (pushed c, callers c, requests c) ->
    wire_ids d ≡ₚ ids_of (length (requests d))) as Hsame.
  { intros d [= E1 E2 E3]. unfold wire_ids. by rewrite E1, E2, E3. }
  assert (forall i p s req, callers c !! i = Some (HasSeq p s req) ->
    caller_seq <$> <[i := Registered s req]> (callers c) = caller_seq <$> callers c) as Hreg.
  { intros i p s req Hi. rewrite list_fmap_insert. apply list_insert_id. by rewrite list_lookup_fmap, Hi. }
  client_cases ev E; auto using stop_reading_calls, fail_write_calls.
  - apply Hsame. unfold connect. by destruct (io_thread_joinable c).
  - apply Hsame. unfold connect_done. by destruct ok.
  - unfold wire_ids in *. cbn. rewrite fmap_app, length_app, app_assoc, Hids. cbn.
    rewrite Nat.add_1_r, ids_of_S, (cl_seq c Hinv), (cl_len c Hinv). done.
  - unfold wire_ids. cbn. by erewrite Hreg.
  - unfold wire_ids. cbn. by erewrite Hreg.
  - unfold wire_ids in *. cbn. rewrite <- Hids, fmap_app, <- app_assoc. f_equiv. cbn.
    symmetry. apply (fmap_Permutation caller_seq (callers c) (Registered seq_id req :: delete i (callers c))).
    by apply delete_Permutation.
  - apply Hsame, (fail_write_calls (item_seq_id x) l c).
  - apply Hsame.
    match goal with |- context [set_value ?p ?r ?d] => exact (same_frame_calls _ _ (set_value_frame p r d)) end.
Qed.

Lemma client_ids c : client_reachable c -> wire_ids c ≡ₚ ids_of (length (requests c)).
Proof.
  intros Hr. refine (proj2 (steps_invariant client_step (fun c => client_inv c /\
    wire_ids c ≡ₚ ids_of (length (requests c))) _ _ _ Hr _)); [|by split; [exact client_init_inv|]].
  intros a ev b [Ha Hi] E. split; [by apply (client_step_inv a ev b Ha E)|by eapply client_step_ids].
Qed.

(** Frames queued have the ids of different calls. *)
Lemma pushed_ids_nodup c :
  client_reachable c -> len (requests c) <= 2 ^ 32 -> NoDup (wire_ids c).
Proof. intros Hr Hl. rewrite (client_ids c Hr). by apply ids_of_nodup. Qed.

(** ** What a step does to the table and the frames read *)

Lemma set_value_table p r c : pending_ (set_value p r c) = pending_ c.
Proof. apply set_value_frame. Qed.
Lemma set_value_got p r c : got (set_value p r c) = got c.
Proof. apply set_value_frame. Qed.

Lemma stop_reading_table reason c s p :
  pending_ (stop_reading reason c) !! s = Some p -> False.
Proof. unfold stop_reading, reject_all_pending. cbn. by rewrite lookup_empty. Qed.

Lemma client_step_table c ev c' s p :
  client_step c ev = Some c' -> pending_ c' !! s = Some p ->
  pending_ c !! s = Some p \/ exists i q req, ev = KRegister i /\ callers c !! i = Some (HasSeq q s req).
Proof.
  intros E Hp. unfold client_step in E. destruct (terminated c); [done|].
  client_cases ev E; auto; try (by destruct (stop_reading_table _ _ _ _ Hp)).
  - left. unfold connect in Hp. by destruct (io_thread_joinable c).
  - left. unfold connect_done in Hp. by destruct ok.
  - cbn in Hp. apply lookup_insert_Some in Hp as [[<- <-]|[_ ?]]; eauto 10.
  - cbn in Hp. apply lookup_insert_Some in Hp as [[<- <-]|[_ ?]]; eauto 10.
  - left. cbn in Hp. unfold fail_write in Hp. destruct (pending_ c !! item_seq_id x) as [q|]; [|done].
    cbn in Hp. apply lookup_delete_Some in Hp as [_ Hp]. by rewrite set_value_table in Hp.
  - left. cbn in Hp. by apply lookup_delete_Some in Hp as [_ Hp].
  - left. by rewrite set_value_table in Hp.
Qed.

Lemma stop_reading_got reason c : got (stop_reading reason c) = got c.
Proof.
  exact (proj1 (proj2 (proj2 (proj2 (proj2 (fold_set_value_frame _ _ (set_reader RStopped (got c) c))))))).
Qed.

Lemma client_step_got c ev c' :
  client_step c ev = Some c' ->
  got c' = got c \/ exists h b, got c' = got c ++ [(h, b)] /\ pending_ c' !! seq_id h = None.
Proof.
  intros E. unfold client_step in E. destruct (terminated c); [done|].
  client_cases ev E; auto using stop_reading_got.
  - left. unfold connect. by destruct (io_thread_joinable c).
  - left. unfold connect_done. by destruct ok.
  - left. cbn. unfold fail_write. destruct (pending_ c !! item_seq_id x) as [q|]; [|done].
    apply set_value_got.
  - right. eexists _, _. split; [done|]. apply lookup_delete_eq.
  - right. by eexists _, _.
  - left. by rewrite set_value_got.
Qed.

Lemma stop_reading_requests reason c : requests (stop_reading reason c) = requests c.
Proof. exact (f_equal snd (stop_reading_calls reason c)). Qed.
Lemma set_value_requests p r c : requests (set_value p r c) = requests c.
Proof. apply set_value_frame. Qed.

Lemma client_step_requests c ev c' :
  client_step c ev = Some c' -> requests c `prefix_of` requests c'.
Proof.
  intros E. unfold client_step in E. destruct (terminated c); [done|].
  client_cases ev E; rewrite ?stop_reading_requests, ?set_value_requests; try (by eexists); try done.
  - unfold connect. by destruct (io_thread_joinable c).
  - unfold connect_done. by destruct ok.
  - cbn. by rewrite (f_equal snd (fail_write_calls (item_seq_id x) l c) : requests _ = _).
Qed.

(** ** Without a failure every answer is the server's

    As long as no write has failed, the read loop has not stopped and the client
    has not been disconnected, no future holds an error of the client's own. *)
Definition unfailed (c : RpcClient) : Prop :=
  Forall (fun p => p.2 = true) (handled c) /\ reader c <> RStopped /\ ios_stopped c = false /\
  len (requests c) <= 2 ^ 32.

Definition all_answered (c : RpcClient) : Prop :=
  forall p v, promises c !! p = Some v -> v = Waiting \/ exists r, v = Ready r /\ answered (got c) p r.

Lemma all_answered_same c c' :
  all_answered c -> promises c' = promises c -> got c' = got c -> all_answered c'.
Proof. intros H E1 E2 p v. rewrite E1, E2. apply H. Qed.

Lemma stop_reading_failed reason c : ~ unfailed (stop_reading reason c).
Proof.
  intros (_ & Hr & _). apply Hr.
  exact (proj1 (proj2 (proj2 (fold_set_value_frame (closed_response reason)
    ((map_to_list (pending_ c)).*2) (set_reader RStopped (got c) c))))).
Qed.

Lemma failed_write_failed x hs q w ws ps c : ~ unfailed (set_write q w ws ps (hs ++ [(x, false)]) c).
Proof. intros ([_ H]%Forall_app & _). by apply Forall_inv in H. Qed.

(** A client that has not failed had not failed before. *)
Lemma unfailed_before c ev c' :
  client_inv c -> client_step c ev = Some c' -> unfailed c' -> unfailed c.
Proof.
  intros Hinv E Hun. unfold client_step in E. destruct (terminated c); [done|].
  client_cases ev E; try (by destruct (stop_reading_failed _ _ Hun));
    try (by destruct (failed_write_failed _ _ _ _ _ _ _ Hun));
    destruct Hun as (Hh & Hr & Hi & Hl); cbn in Hh, Hr, Hi, Hl; try (by split_and!; auto; congruence).
  - unfold connect in *. destruct (io_thread_joinable c); by split_and!.
  - apply andb_true_iff in Hm0 as [_ Hst%negb_true_iff].
    pose proof (cl_start c Hinv Hst) as Hn. rewrite Hm in Hn. destruct Hn as [_ Hn].
    unfold connect_done in *. split_and!; [by destruct ok| |done|by destruct ok]. congruence.
  - split_and!; try done. unfold len in *. rewrite length_app in Hl. lia.
  - apply Forall_app in Hh as [Hh _]. by split_and!.
  - match type of Hh with context [set_value ?q ?r ?d] =>
      destruct (set_value_frame q r d) as ([=] & _ & _ & Erq & _ & _ & _ & [=]) end.
    cbn in *. split_and!; congruence.
Qed.

(** With distinct ids a registration never displaces another call. *)
Lemma register_fresh c i p s req :
  client_inv c -> len (requests c) <= 2 ^ 32 -> callers c !! i = Some (HasSeq p s req) ->
  pending_ c !! s = None.
Proof.
  intros Hinv Hl Hi. destruct (pending_ c !! s) as [n|] eqn:Hn; [exfalso|done].
  pose proof (cl_callers c Hinv) as Hcs. rewrite Forall_lookup in Hcs.
  destruct (Hcs _ _ Hi) as [-> Hp].
  destruct (cl_own c Hinv) as [Hw Hnd]. unfold owners in Hnd, Hw.
  assert (p ∈ caller_owned (callers c)) as Hpc.
  { unfold caller_owned. apply list_elem_of_bind. exists (HasSeq p (call_id p) req).
    split; [set_solver|]. by eapply list_elem_of_lookup_2. }
  assert (n ∈ table_owned (pending_ c)) as Hnt.
  { unfold table_owned. apply list_elem_of_fmap. exists (call_id p, n). split; [done|].
    by apply elem_of_map_to_list. }
  assert (n < length (requests c))%nat as Hnl.
  { rewrite (cl_len c Hinv). eapply lookup_lt_Some, (Hw n). set_solver. }
  assert (n = p) as ->.
  { apply (call_id_inj (length (requests c))); [done|by eapply lookup_lt_Some|done|].
    symmetry. by apply (cl_pending c Hinv). }
  apply NoDup_app in Hnd as (_ & Hdis & _). apply (Hdis p Hpc). set_solver.
Qed.

Lemma all_answered_more c f h b :
  all_answered c -> promises f = promises c -> got f = got c ++ [(h, b)] -> all_answered f.
Proof.
  intros Ha E1 E2 p v Hv. rewrite E1 in Hv. destruct (Ha p v Hv) as [?|(r & ? & ?)]; [by left|right].
  exists r. split; [done|]. rewrite E2. by apply answered_mono.
Qed.

Lemma unfailed_step_answered c ev c' :
  client_inv c -> client_step c ev = Some c' -> unfailed c' -> all_answered c -> all_answered c'.
Proof.
  intros Hinv E Hun Ha. pose proof (unfailed_before c ev c' Hinv E Hun) as (_ & _ & _ & Hlen).
  unfold client_step in E. destruct (terminated c); [done|].
  client_cases ev E; try (by destruct (stop_reading_failed _ _ Hun));
    try (by destruct (failed_write_failed _ _ _ _ _ _ _ Hun));
    try (by apply (all_answered_same c); [done|..]); try (by eapply all_answered_more).
  - apply (all_answered_same c); [done|..]; unfold connect; by destruct (io_thread_joinable c).
  - apply (all_answered_same c); [done|..]; unfold connect_done; by destruct ok.
  - intros p v [[_ Hv]|[_ <-]]%lookup_snoc_Some; [by apply Ha|by left].
  - pose proof (register_fresh _ _ _ _ _ Hinv Hlen Hm). congruence.
  - rewrite set_value_waiting.
    + intros q v [(<- & <- & _)|[_ Hv]]%list_lookup_insert_Some; [|by apply Ha].
      right. eexists. split; [done|]. by apply (cl_matched c Hinv).
    + apply (oi_waiting _ _ (cl_own c Hinv)). unfold owners. rewrite Hm. set_solver.
  - by destruct Hun as (_ & _ & ? & _).
Qed.

Lemma unfailed_answered c : client_reachable c -> unfailed c -> all_answered c.
Proof.
  intros Hr. refine (proj2 (steps_invariant client_step (fun c => client_inv c /\
    (unfailed c -> all_answered c)) _ _ _ Hr _)); [|by split; [exact client_init_inv|]].
  intros a ev b [Ha Hi] E. split; [by apply (client_step_inv a ev b Ha E)|].
  intros Hb. eapply unfailed_step_answered; eauto using unfailed_before.
Qed.

(** ** A settled promise stays as it is *)

Lemma settle_all_other v ps prom q : q ∉ ps -> settle_all v ps prom !! q = prom !! q.
Proof.
  revert prom. induction ps as [|p ps IH]; intros prom Hq; [done|].
  apply not_elem_of_cons in Hq as [Hp Hq]. cbn. rewrite IH by done.
  by rewrite list_lookup_insert_ne.
Qed.

(** Promises that are not waiting survive. *)
Definition keeps_settled (prom prom' : list promise) : Prop :=
  forall p v, prom !! p = Some v -> v <> Waiting -> prom' !! p = Some v.

Lemma keeps_refl prom : keeps_settled prom prom.
Proof. by intros p v. Qed.

Lemma keeps_insert prom q v : prom !! q = Some Waiting -> keeps_settled prom (<[q := v]> prom).
Proof. intros Hq p w Hp Hw. rewrite list_lookup_insert_ne; congruence. Qed.

Lemma keeps_set_value p r c : keeps_settled (promises c) (promises (set_value p r c)).
Proof.
  unfold set_value. destruct (promises c !! p) as [[]|] eqn:E; try apply keeps_refl.
  by apply keeps_insert.
Qed.

Lemma keeps_settle_all v ps os prom :
  own_inv prom (ps ++ os) -> keeps_settled prom (settle_all v ps prom).
Proof.
  intros Ho p w Hp Hw. rewrite settle_all_other; [done|]. intros Hin. apply Hw.
  assert (prom !! p = Some Waiting); [|congruence].
  apply (oi_waiting _ _ Ho), elem_of_app. auto.
Qed.

Lemma keeps_stop_reading reason c :
  client_inv c -> keeps_settled (promises c) (promises (stop_reading reason c)).
Proof.
  intros Hinv. unfold stop_reading, reject_all_pending. fold (table_owned (pending_ c)). cbn.
  fold (table_owned (pending_ c)).
  pose proof (own_split c Hinv) as Ho.
  rewrite (fold_set_value _ _ (caller_owned (callers c) ++ reader_owned (reader c))) by exact Ho. cbn.
  by eapply keeps_settle_all.
Qed.

Lemma client_step_keeps c ev c' :
  client_inv c -> client_step c ev = Some c' -> keeps_settled (promises c) (promises c').
Proof.
  intros Hinv E. unfold client_step in E. destruct (terminated c); [done|].
  assert (forall reason, keeps_settled (promises c) (promises (stop_reading reason c))) as Hstop
    by (intros; by apply keeps_stop_reading).
  client_cases ev E; auto using keeps_refl, keeps_set_value.
  - unfold connect. destruct (io_thread_joinable c); apply keeps_refl.
  - unfold connect_done. destruct ok; apply keeps_refl.
  - intros p v Hp _. by apply lookup_snoc_mono.
  - unfold abandon. destruct (promises c !! _) as [[]|] eqn:Eo; auto using keeps_refl.
    by apply keeps_insert.
  - unfold fail_write. destruct (pending_ c !! _); [|apply keeps_refl]. apply keeps_set_value.
  - apply (keeps_set_value p resp (set_reader RHeader (got c) c)).
  - unfold destroy. cbn. fold (table_owned (pending_ c)). rewrite (fold_abandon _ _ _ (own_split c Hinv)).
    eapply keeps_settle_all, own_split, Hinv.
Qed.

(** ** Theorems *)

(** C3: responses reach the calls they answer.  When a call's future is ready,
    either a frame carrying the call's own id has been read whose body decodes
    to exactly that response, or the response is the client's own
    connection-closed error.  Fewer than 2^32 calls have distinct ids, and every
    frame queued for the server is the frame of one call, under that call's id. *)
Theorem client_matches_responses c :
  client_reachable c ->
  (forall p r, promises c !! p = Some (Ready r) ->
     (exists h b, (h, b) ∈ got c /\ seq_id h = call_id p /\ response_deserialize b = Ok r) \/
     exists reason, r = closed_response reason) /\
  (forall p q, (p < length (promises c))%nat -> (q < length (promises c))%nat ->
     len (promises c) <= 2 ^ 32 -> call_id p = call_id q -> p = q) /\
  Forall (fun it => exists p req, requests c !! p = Some req /\ item_seq_id it = call_id p /\
    call_frame (call_id p) req = Ok (frame_data it)) (pushed c).
Proof.
  intros Hr. destruct (client_reachable_inv c Hr). split_and!; [|clear; intros p q Hp Hq Hl E|done].
  - intros p r Hp. exact (cl_ready0 p _ Hp).
  - by apply (call_id_inj (length (promises c))).
Qed.

Definition client_call : RpcRequest := request_example.
Definition client_header (seq : Z) (body : str) : RpcHeader :=
  {| magic := MAGIC; version := VERSION; msg_type := 2; serializer := 0; flags := 0;
     seq_id := seq; body_size := len body; checksum := 0 |}.
Definition pong : RpcResponse := {| error_code := 0; error_msg := []; result := bs "pong" |}.

(** Two calls, answered in the opposite order. *)
Definition client_crossed : RpcClient :=
  let answer p := [KHeader (inr (header_bytes (client_header (call_id p) (response_bytes pong))));
                   KBody (inr (response_bytes pong)); KMatch] in
  default RpcClient_init (run client_step
    ([KConnect; KConnected true; KCall client_call; KCall client_call; KRegister 1; KRegister 0;
      KEnqueue 0; KEnqueue 0; KDoWrite 0; KIssue 0; KWritten 0 None; KDoWrite 0; KIssue 0;
      KWritten 0 None] ++ answer 1%nat) RpcClient_init).

Lemma client_matches_responses_witness :
  promises client_crossed = [Waiting; Ready pong] /\
  ((exists h b, (h, b) ∈ got client_crossed /\ seq_id h = 2 /\ response_deserialize b = Ok pong) \/
   exists reason, pong = closed_response reason).
Proof.
  split; [by vm_compute|].
  apply (client_matches_responses client_crossed) with (p := 1%nat);
    [apply client_run_reachable|by vm_compute].
Defined.

(** A waiting promise has an owner that can settle it. *)
Lemma waiting_owner c p :
  client_inv c -> promises c !! p = Some Waiting ->
  pending_ c !! call_id p = Some p \/
  (exists req, HasSeq p (call_id p) req ∈ callers c) \/ (exists r, reader c = RMatched p r).
Proof.
  intros Hinv Hp. apply (oi_waiting _ _ (cl_own c Hinv)) in Hp. unfold owners in Hp.
  rewrite !elem_of_app in Hp. destruct Hp as [Hp|[Hp|Hp]].
  + right. left. unfold caller_owned in Hp. apply list_elem_of_bind in Hp as (k & Hk & Hin).
    destruct k as [q s req|]; [|by apply elem_of_nil in Hk].
    apply list_elem_of_singleton in Hk as ->. exists req.
    pose proof (cl_callers c Hinv) as Hc. rewrite Forall_forall in Hc.
    destruct (Hc _ Hin) as [<- _]. done.
  + left. unfold table_owned in Hp. apply list_elem_of_fmap in Hp as ([s q] & -> & Hq).
    apply elem_of_map_to_list in Hq. cbn. by rewrite <- (cl_pending c Hinv s q Hq).
  + right. right. unfold reader_owned in Hp. destruct (reader c); try by apply elem_of_nil in Hp.
    apply list_elem_of_singleton in Hp as ->. eauto.
Qed.

(** C22: a future is settled at most once and never taken back.  No event,
    in any order, changes a promise that has a value or has been abandoned; no
    promise is ever set twice, so no handler throws [future_error]: the only
    step that can terminate the program is a second [connect] while the io
    thread is there.  And a promise still waiting always has an owner that
    can settle it: the table under its id, a caller about to register it, or the
    reader about to set it. *)
Theorem client_settles_once c c' :
  client_reachable c -> rtc client_trans c c' ->
  (forall p v, promises c !! p = Some v -> v <> Waiting -> promises c' !! p = Some v) /\
  (forall ev d, client_step c ev = Some d -> terminated d = true ->
     ev = KConnect /\ io_thread_joinable c = true) /\
  (forall p, promises c !! p = Some Waiting ->
     pending_ c !! call_id p = Some p \/
     (exists req, HasSeq p (call_id p) req ∈ callers c) \/
     (exists r, reader c = RMatched p r)).
Proof.
  intros Hr Hcc. pose proof (client_reachable_inv c Hr) as Hinv. split_and!.
  - clear Hr. induction Hcc as [c|a b d [ev Hev] _ IH]; [auto|]. intros p v Hp Hv.
    destruct (client_step_inv a ev b Hinv Hev) as [Hb _].
    apply IH; auto. exact (client_step_keeps a ev b Hinv Hev p v Hp Hv).
  - intros ev d E. by destruct (client_step_inv c ev d Hinv E).
  - intros p Hp. by apply waiting_owner.
Qed.

Lemma client_settles_once_witness :
  promises (default client_crossed (client_step client_crossed KDisconnect)) !! 1%nat = Some (Ready pong).
Proof.
  apply (client_settles_once client_crossed).
  - apply client_run_reachable.
  - apply rtc_once. exists KDisconnect. by vm_compute.
  - by vm_compute.
  - done.
Defined.

Lemma set_value_reader p r c : reader (set_value p r c) = reader c.
Proof. unfold set_value. by destruct (promises c !! p) as [[]|]. Qed.

Lemma settle_all_in v ps prom p :
  p ∈ ps -> (p < length prom)%nat -> settle_all v ps prom !! p = Some v.
Proof.
  revert prom. induction ps as [|q ps IH]; intros prom Hin Hl; [by apply not_elem_of_nil in Hin|]. cbn.
  destruct (decide (p ∈ ps)) as [Hp|Hp]; [apply IH; [done|by rewrite length_insert]|].
  apply elem_of_cons in Hin as [->|?]; [|done]. rewrite settle_all_other by done.
  by apply list_lookup_insert_eq.
Qed.

Lemma stop_reading_settles reason c :
  client_inv c -> reader_owned (reader c) = [] -> reader c <> RNotStarted ->
  let c' := stop_reading reason c in
  pending_ c' = ∅ /\ connected_ c' = connected_ c /\ reader c' = RStopped /\
  forall s p, pending_ c !! s = Some p -> promises c' !! p = Some (Ready (closed_response reason)).
Proof.
  intros Hinv Hr Hns. cbn zeta. unfold stop_reading.
  pose proof (stopped_reader_inv c Hinv Hr Hns) as Hinv'.
  rewrite reject_all_eq by done. split_and!; [done..|]. intros s p Hp. cbn.
  apply settle_all_in.
  - unfold table_owned. apply list_elem_of_fmap. exists (s, p). split; [done|]. by apply elem_of_map_to_list.
  - apply (lookup_lt_Some _ _ Waiting). apply (oi_waiting _ _ (cl_own c Hinv)).
    unfold owners. rewrite !elem_of_app. right. left. unfold table_owned. apply list_elem_of_fmap.
    exists (s, p). split; [done|]. by apply elem_of_map_to_list.
Qed.

(** C23: the end of the read loop settles every registered call.  Whatever ends it,
    an error of the socket, a bad magic or header or an undecodable response, in
    that same step every call in the table gets the connection-closed error, the
    table is empty, and the only calls still waiting are those that had not
    registered yet; the client still reports that it is connected. *)
Theorem reading_end_settles c ev c' :
  client_reachable c -> client_step c ev = Some c' -> reader c <> RStopped -> reader c' = RStopped ->
  (exists reason, forall s p, pending_ c !! s = Some p -> promises c' !! p = Some (Ready (closed_response reason))) /\
  pending_ c' = ∅ /\
  (forall p, promises c' !! p = Some Waiting -> exists req, HasSeq p (call_id p) req ∈ callers c') /\
  is_connected c' = is_connected c.
Proof.
  intros Hr E Hne Hst. pose proof (client_reachable_inv c Hr) as Hinv.
  assert (exists reason, c' = stop_reading reason c /\ reader_owned (reader c) = [] /\ reader c <> RNotStarted)
    as (reason & -> & Ho & Hns).
  { unfold client_step in E. destruct (terminated c); [done|]. clear Hr.
    client_cases ev E; try (eexists; split; [reflexivity|]; by rewrite ?Hrd).
    all: exfalso; apply Hne.
    - rewrite <- Hst. unfold connect. by destruct (io_thread_joinable c).
    - unfold connect_done in Hst. by destruct ok.
    - rewrite <- Hst. cbn. unfold fail_write. destruct (pending_ c !! _); [|done]. symmetry. apply set_value_reader.
    - by rewrite set_value_reader in Hst. }
  destruct (stop_reading_settles reason c Hinv Ho Hns) as (Ht & Hcon & Hrd & Hset).
  split_and!; [by exists reason|done| |done].
  intros p Hp. destruct (client_step_inv c ev _ Hinv E) as [Hinv' _].
  destruct (waiting_owner _ p Hinv' Hp) as [H|[H|[r H]]]; [by rewrite Ht in H|done|congruence].
Qed.

(** The server closes the connection while two calls wait. *)
Definition client_two_calls : RpcClient :=
  default RpcClient_init (run client_step
    [KConnect; KConnected true; KCall client_call; KCall client_call; KRegister 1] RpcClient_init).

Lemma reading_end_settles_witness :
  let c' := default client_two_calls (client_step client_two_calls (KHeader (inl (bs "eof")))) in
  (exists reason, promises c' !! 1%nat = Some (Ready (closed_response reason))) /\
  (exists req, HasSeq 0 (call_id 0) req ∈ callers c') /\ is_connected c' = true.
Proof.
  cbn zeta. destruct (reading_end_settles client_two_calls (KHeader (inl (bs "eof")))
    (default client_two_calls (client_step client_two_calls (KHeader (inl (bs "eof")))))) as ((reason & Hs) & _ & Hw & Hc).
  - apply client_run_reachable.
  - by vm_compute.
  - by vm_compute.
  - by vm_compute.
  - split_and!; [exists reason; apply (Hs 2); by vm_compute|apply Hw; by vm_compute|rewrite Hc; by vm_compute].
Defined.

Definition is_client_writer_step (ev : client_event) : Prop :=
  match ev with KDoWrite _ | KIssue _ | KWritten _ _ => True | _ => False end.

(** The send path delivers or reports.  At most one [async_write] is
    outstanding; frames are handed to the socket in the order the calls queued
    them, none twice and none skipped, whether or not some writes fail; every
    step of the writer makes progress, and when it cannot move while the io
    thread runs, every frame has been handed over.  A failed write gives its own
    call, if still registered, the error, and touches no other call. *)
Theorem client_writer_finishes c :
  client_reachable c ->
  (length (writers c) <= 1)%nat /\
  pushed c = (handled c).*1 ++ act_items (writers c) ++ write_queue_ c /\
  (forall ev c', is_client_writer_step ev -> client_step c ev = Some c' ->
     (wq_measure (client_wq c') < wq_measure (client_wq c))%nat) /\
  (client_live c -> (forall ev, is_client_writer_step ev -> client_step c ev = None) ->
     pushed c = (handled c).*1 /\ write_queue_ c = [] /\ writing_ c = false) /\
  (forall i it reason p, writers c !! i = Some (InFlight it) ->
     pending_ c !! item_seq_id it = Some p ->
     exists c', write_done i (Some reason) c = Some c' /\
       promises c' = <[p := Ready (closed_response reason)]> (promises c) /\
       pending_ c' = delete (item_seq_id it) (pending_ c)).
Proof.
  intros Hr. pose proof (impl_inv (event := client_wq_event) c Hr) as Hq.
  pose proof (client_reachable_inv c Hr) as Hinv. split_and!.
  - apply Hq.
  - apply Hq.
  - intros ev c' Hev Hs. destruct (client_wq_event c ev) as [we|] eqn:Ew; [|by destruct ev].
    eapply (impl_writer_decreases (event := client_wq_event) c ev c' we); eauto.
    by destruct ev; cbn in Ew; simplify_eq.
  - intros Hl Hstuck.
    destruct (impl_stuck_done (event := client_wq_event) c Hr Hl) as [(Eq & Ep & Ew)|[? _]];
      [|by split_and!|done].
    intros ev we Hev Hw. apply Hstuck. destruct ev; try done. cbn in Hev.
    destruct (callers c !! i) as [[]|]; try done. destruct (call_frame _ _); [|done..].
    by simplify_eq.
  - intros i it reason p Hi Hp. unfold write_done. rewrite Hi. eexists. split; [done|].
    unfold fail_write. rewrite Hp.
    pose proof (own_split c Hinv) as Ho. rewrite (table_delete _ _ _ Hp) in Ho.
    rewrite set_value_waiting; [done|]. apply (oi_waiting _ _ Ho). set_solver.
Qed.

(** One call whose write fails. *)
Definition client_failing : RpcClient :=
  default RpcClient_init (run client_step
    [KConnect; KConnected true; KCall client_call; KRegister 0; KEnqueue 0; KDoWrite 0; KIssue 0]
    RpcClient_init).

Lemma client_writer_finishes_witness : exists it c',
  writers client_failing = [InFlight it] /\
  write_done 0 (Some (bs "reset")) client_failing = Some c' /\
  promises c' = <[0%nat := Ready (closed_response (bs "reset"))]> (promises client_failing).
Proof.
  destruct (writers client_failing) as [|[|it|it] [|]] eqn:Hw; try (by vm_compute in Hw).
  destruct (client_writer_finishes client_failing) as (_ & _ & _ & _ & H);
    [apply client_run_reachable|].
  destruct (H 0%nat it (bs "reset") 0%nat) as (c' & Hc & Hp & _).
  - by rewrite Hw.
  - vm_compute in Hw. injection Hw as <-. by vm_compute.
  - exists it, c'. split_and!; [reflexivity|exact Hc|exact Hp].
Defined.

(** ** Calls that never resolve *)

(** The read loop has stopped, one call sits in the table, nothing is being
    sent. *)
Definition abandoned_call (c : RpcClient) : Prop :=
  reader c = RStopped /\ connecting c = ConnectDone true /\
  io_thread_joinable c = true /\
  pending_ c !! 1 = Some 0%nat /\ promises c = [Waiting] /\
  writers c = [] /\ callers c = [].

(** Nothing but the destructor ends a call made after the read loop has
    stopped.  The server sends one frame with a wrong magic: the loop stops, the
    client still reports that it is connected, and a call whose frame is then
    written successfully waits, whatever completions, failures or disconnects
    follow and whatever [timeout_ms] it asked for, until new calls are made or
    the client is destroyed. *)
Theorem client_call_can_hang :
  exists c, client_reachable c /\ connected_ c = true /\ promises c = [Waiting] /\
    handled c = [({| frame_data := default [] (head (frame_data <$> pushed c)); item_seq_id := 1 |}, true)] /\
    forall c', rtc (fun a b => exists ev, (forall req, ev <> KCall req) /\ ev <> KDestroy /\
                      ev <> KConnect /\ client_step a ev = Some b) c c' ->
      promises c' = [Waiting].
Proof.
  pose (evs := [KConnect; KConnected true; KHeader (inr (zeros 20)); KCall client_call; KRegister 0;
    KEnqueue 0; KDoWrite 0; KIssue 0; KWritten 0 None; KDoWrite 0]).
  assert (is_Some (run client_step evs RpcClient_init)) as [c Hc] by (vm_compute; eauto).
  exists c. assert (abandoned_call c /\ connected_ c = true /\
    handled c = [({| frame_data := default [] (head (frame_data <$> pushed c)); item_seq_id := 1 |}, true)])
    as (Ha & Hcon & Hh).
  { vm_compute in Hc. injection Hc as <-. by vm_compute. }
  split_and!; [by eapply run_steps|done|apply Ha|done|].
  intros c' Hr. assert (promises c' = [Waiting] /\ reader c' = RStopped /\ writers c' = [] /\
    callers c' = [] /\ connecting c' = ConnectDone true) as (? & _); [|done].
  clear Hc Hcon Hh. destruct Ha as (H1 & H2 & _ & _ & H3 & H4 & H5).
  induction Hr as [c|a b d (ev & Hcall & Hd & Hk & E) _ IH]; [done|]. apply IH.
  all: unfold client_step in E; destruct (terminated a); [done|].
  all: destruct ev as [|ok|req|i|i|i|i|i ec|r|r| | |]; try done; cbn in E.
  all: rewrite ?H1, ?H2 in E; try done.
  all: unfold call_register, call_enqueue, do_write, issue_write, write_done, match_done in E.
  all: rewrite ?H1, ?H4, ?H5, ?lookup_nil in E; try done.
  all: try (destruct (Hcall req); done).
  all: try (destruct (io_runs a); done).
  all: by injection E as <-.
Qed.
