(* ===== verification/Wire.v ===== *)
(** * TCP between the two ends

    One direction of a connection as the kernels carry it: bytes leave an
    outstanding [async_write] in pieces, arrive in order, and complete an
    outstanding [async_read] when as many are there as it asked for.  The
    writing end is any implementation of the write-queue discipline; the
    reading ends are [Connection] and [RpcClient].  What each end has sent and
    taken is tied to its own history of frames. *)
From S2P Require Import Prelude WriteQueue Protocol Framing Connection MessageCycle.
From S2P Require RpcClient.

Record pipe := {
  sent : str;     (* bytes the writer's operations have handed over, in order *)
  taken : nat;    (* how many of them the reader's operations have consumed *)
  left : str;     (* what the outstanding [async_write] still holds *)
  cut : bool      (* a write has failed: this direction carries nothing more *)
}.
Definition pipe_init : pipe := {| sent := []; taken := 0; left := []; cut := false |}.

(** Bytes under way, or waiting in the reader's kernel. *)
Definition incoming (p : pipe) : str := drop (taken p) (sent p).

(** Some bytes of the outstanding write leave. *)
Definition pump (n : nat) (p : pipe) : option pipe :=
  if cut p then None else
  match take n (left p) with
  | [] => None
  | b => Some {| sent := sent p ++ b; taken := taken p; left := drop n (left p); cut := false |}
  end.

(** An [async_read] completes with the next bytes. *)
Definition receive (b : str) (p : pipe) : option pipe :=
  if bool_decide (b `prefix_of` incoming p)
  then Some {| sent := sent p; taken := taken p + length b; left := left p; cut := cut p |}
  else None.

(** ** The writing end *)

Section writer.
Context {I : Type} (data : I -> str).

(** What an event of the write queue is for the pipe: an [async_write] starts,
    completes when all its bytes have left, or fails. *)
Definition write_op (q : wq I) (ev : wq_event I) (p : pipe) : option pipe :=
  match ev with
  | WIssue i =>
      match wq_active q !! i with
      | Some (Issue x) => Some {| sent := sent p; taken := taken p; left := data x; cut := cut p |}
      | _ => Some p
      end
  | WDone i true => if negb (cut p) && bool_decide (left p = []) then Some p else None
  | WDone i false => Some {| sent := sent p; taken := taken p; left := []; cut := true |}
  | _ => Some p
  end.

Definition in_flight (l : list (activity I)) : list I :=
  l ≫= fun a => match a with InFlight x => [x] | _ => [] end.

Lemma in_flight_started l : in_flight (l ++ [DoWrite]) = in_flight l.
Proof. unfold in_flight. rewrite bind_app. apply app_nil_r. Qed.

(** What has been sent is a prefix of the frames in the order of their queueing;
    as long as no write failed, it is the frames completed and a part of the
    outstanding one. *)
Record pipe_inv (q : wq I) (p : pipe) : Prop := {
  pi_prefix : sent p `prefix_of` concat (data <$> wq_pushed q);
  pi_sent : cut p = false ->
    sent p ++ left p = concat (data <$> ((wq_handled q).*1 ++ in_flight (wq_active q)));
  pi_left : in_flight (wq_active q) = [] -> left p = [];
  pi_ok : cut p = false -> Forall (fun h => h.2 = true) (wq_handled q)
}.

Lemma pipe_init_inv : pipe_inv wq_init pipe_init.
Proof. by split. Qed.

Lemma concat_app_fmap (a b : list I) :
  concat (data <$> (a ++ b)) = concat (data <$> a) ++ concat (data <$> b).
Proof. by rewrite fmap_app, concat_app. Qed.

Lemma pump_inv stop q n p p' :
  wq_inv stop q -> pipe_inv q p -> pump n p = Some p' -> pipe_inv q p'.
Proof.
  intros Hq [Hpre Hsent Hleft Hok] E. unfold pump in E. destruct (cut p) eqn:Hc; [done|].
  destruct (take n (left p)) as [|b bs] eqn:Et; [done|]. injection E as <-.
  specialize (Hsent eq_refl).
  assert ((sent p ++ b :: bs) ++ drop n (left p) =
    concat (data <$> ((wq_handled q).*1 ++ in_flight (wq_active q)))) as Hs.
  { by rewrite <- app_assoc, <- Et, take_drop. }
  split; cbn; [|done| |by intros _; apply Hok].
  - apply prefix_app_l with (drop n (left p)). rewrite Hs, (inv_fifo _ _ Hq), !concat_app_fmap.
    apply prefix_app. destruct (wq_active q) as [|a [|a' l]] eqn:Ea.
    + apply prefix_nil.
    + destruct a; unfold in_flight, act_items; cbn; [apply prefix_nil..|]. by apply prefix_app_r.
    + pose proof (inv_single _ _ Hq) as Hl. rewrite Ea in Hl. cbn in Hl. lia.
  - intros Hf. rewrite (Hleft Hf) in Et. by rewrite take_nil in Et.
Qed.

Lemma write_op_inv stop q ev q' p p' :
  wq_inv stop q -> wq_step stop q ev = Some q' -> write_op q ev p = Some p' ->
  pipe_inv q p -> pipe_inv q' p'.
Proof.
  intros Hq Est Eop [Hpre Hsent Hleft Hok]. destruct ev as [x|i|i|i ok]; cbn in Est, Eop.
  - simplify_eq. unfold wq_push. split; cbn.
    + rewrite concat_app_fmap. by apply prefix_app_r.
    + intros Hc. rewrite (Hsent Hc). destruct (wq_writing q); [done|].
      by rewrite in_flight_started.
    + destruct (wq_writing q); [done|]. by rewrite in_flight_started.
    + done.
  - destruct (wq_active q !! i) as [[| |]|] eqn:Ea; try done.
    destruct (wq_active_single stop q i _ Hq Ea) as (El & -> & _). rewrite El in *.
    destruct (wq_queue q); simplify_eq; by split.
  - destruct (wq_active q !! i) as [[|x|]|] eqn:Ea; try done.
    destruct (wq_active_single stop q i _ Hq Ea) as (El & -> & _). rewrite El in *. simplify_eq.
    split; cbn; [done| |done|done]. intros Hc. specialize (Hsent Hc). rewrite Hleft in Hsent by done.
    cbn in Hsent. rewrite !app_nil_r in Hsent. rewrite concat_app_fmap, Hsent. cbn. by rewrite app_nil_r.
  - destruct (wq_active q !! i) as [[| |x]|] eqn:Ea; try done.
    destruct (wq_active_single stop q i _ Hq Ea) as (El & -> & _). rewrite El in *. simplify_eq.
    destruct ok; cbn in *.
    + destruct (cut p) eqn:Hc; [done|]. cbn in Eop.
      destruct (bool_decide_reflect (left p = [])) as [Hl|]; [|done]. simplify_eq.
      split; [done| |done|]; [|intros Hcut; apply Forall_app; auto].
      intros _. cbn [wq_handled wq_active].
      change (in_flight [DoWrite]) with (@nil I). by rewrite app_nil_r, (Hsent eq_refl), (fmap_app fst).
    + simplify_eq. split; cbn; done.
Qed.

(** A writer that has come to rest without a failure has sent everything. *)
Lemma pipe_all_sent q p :
  pipe_inv q p -> cut p = false -> wq_pushed q = (wq_handled q).*1 -> wq_active q = [] ->
  sent p = concat (data <$> wq_pushed q).
Proof.
  intros [_ Hs Hl _] Hc Hp Ha. specialize (Hs Hc). rewrite Ha in *. rewrite (Hl eq_refl) in Hs.
  cbn in Hs. by rewrite !app_nil_r, <- Hp in Hs.
Qed.

End writer.

Lemma receive_pipe_inv {I} (data : I -> str) q b p p' :
  receive b p = Some p' -> pipe_inv data q p -> pipe_inv data q p'.
Proof. unfold receive. case_bool_decide; [|done]. intros E []. simplify_eq. by split. Qed.

(** ** The reading ends *)

(** The bytes taken are the frames [ms] and then [part]. *)
Definition took (p : pipe) (ms : list frame) (part : str) : Prop :=
  (taken p <= length (sent p))%nat /\ take (taken p) (sent p) = stream ms ++ part /\
  Forall frame_wf ms.

Lemma took_sent p ms part : took p ms part -> sent p = stream ms ++ part ++ incoming p.
Proof. intros (_ & E & _). unfold incoming. by rewrite app_assoc, <- E, take_drop. Qed.

Lemma pump_took n p p' ms part : pump n p = Some p' -> took p ms part -> took p' ms part.
Proof.
  unfold pump. destruct (cut p); [done|]. destruct (take n (left p)); [done|].
  intros E (Hl & Ht & Hw). simplify_eq. split; cbn; [rewrite length_app; lia|].
  by rewrite take_app_le.
Qed.

Lemma write_op_took {I} (data : I -> str) q ev p p' ms part :
  write_op data q ev p = Some p' -> took p ms part -> took p' ms part.
Proof.
  intros E Ht. destruct ev as [x|i|i|i ok]; cbn in E; simplify_eq; try done.
  - destruct (wq_active q !! i) as [[]|]; by simplify_eq.
  - destruct ok; [|by simplify_eq]. destruct (_ && _); by simplify_eq.
Qed.

Lemma receive_took b p p' ms part :
  receive b p = Some p' -> took p ms part ->
  (taken p' <= length (sent p'))%nat /\ take (taken p') (sent p') = (stream ms ++ part) ++ b.
Proof.
  unfold receive. case_bool_decide as Hb; [|done]. intros E (Hl & Ht & _). simplify_eq. cbn.
  destruct Hb as [r Hr]. unfold incoming in Hr.
  assert (length b + length r = length (sent p) - taken p)%nat as Hlen
    by (rewrite <- length_app, <- Hr, length_drop; done).
  split; [lia|]. rewrite <- Ht. rewrite <- (take_drop (taken p) (sent p)) at 1.
  rewrite take_app, length_take, Nat.min_l by done.
  rewrite take_ge by (rewrite length_take; lia). f_equal.
  replace (taken p + length b - taken p)%nat with (length b) by lia.
  by rewrite Hr, take_app_length.
Qed.

(** A header has been read: what it must have been. *)
Lemma took_header b p p' ms h :
  receive b p = Some p' -> took p ms [] -> len b = 20 -> deserialize_header b = Ok h ->
  took p' ms (header_bytes h) /\ header_wf h.
Proof.
  intros Er Ht Hl Hd. pose proof (receive_took b p p' ms [] Er Ht) as [Hle Htk].
  destruct (header_deserialize_split b) as (h' & t & Hd' & Hw & ->); [lia|].
  rewrite Hd in Hd'. injection Hd' as <-.
  rewrite len_app, len_header_bytes in Hl.
  assert (t = []) as -> by (destruct t; [done|unfold len in Hl; cbn in Hl; lia]).
  split; [|done]. rewrite app_nil_r in *. split_and!; [done| |apply Ht]. by rewrite app_nil_r in Htk.
Qed.

Lemma took_body b p p' ms h :
  receive b p = Some p' -> took p ms (header_bytes h) -> len b = body_size h ->
  header_wf h -> magic h = MAGIC -> took p' (ms ++ [(h, b)]) [].
Proof.
  intros Er Ht Hl Hw Hm. pose proof (receive_took b p p' ms _ Er Ht) as [Hle Htk].
  split_and!; [done| |].
  - rewrite Htk, stream_app, app_nil_r, <- app_assoc. f_equal. unfold stream, frame_bytes. cbn.
    by rewrite app_nil_r.
  - apply Forall_app. split; [apply Ht|]. constructor; [|done]. by split_and!.
Qed.

(** What a connection of the server has taken from its pipe. *)
Definition conn_reads (k : Connection) (p : pipe) : Prop :=
  exists part, took p (delivered k) part /\
    match reading k with
    | NotReading => part = []
    | ReadingHeader => part = [] /\ on_message_ k = true
    | ReadingBody h => part = header_bytes h /\ header_wf h /\ magic h = MAGIC /\ on_message_ k = true
    | InCallback _ _ => part = [] /\ on_message_ k = true
    | ReadStopped => True
    end.

(** What the client has taken: frames whose bodies decode. *)
Definition client_reads (c : RpcClient.RpcClient) (p : pipe) : Prop :=
  exists part, took p (RpcClient.got c) part /\
    match RpcClient.reader c with
    | RpcClient.RNotStarted | RpcClient.RHeader | RpcClient.RMatched _ _ => part = []
    | RpcClient.RBody h => part = header_bytes h /\ header_wf h /\ magic h = MAGIC
    | RpcClient.RStopped => True
    end.

(** ** What an event of either end does to the two directions

    [up] carries the client's frames, [down] the server's. *)

Definition conn_io (k : Connection) (ev : conn_event) (up down : pipe) : option (pipe * pipe) :=
  down' ← match conn_wq_event k ev with
          | Some we => write_op id (conn_wq k) we down
          | None => Some down
          end;
  up' ← match ev with EvHeader (Some b) | EvBody (Some b) => receive b up | _ => Some up end;
  Some (up', down').

Definition client_io (c : RpcClient.RpcClient) (ev : RpcClient.client_event) (up down : pipe)
    : option (pipe * pipe) :=
  up' ← match RpcClient.client_wq_event c ev with
        | Some we => write_op RpcClient.frame_data (RpcClient.client_wq c) we up
        | None => Some up
        end;
  down' ← match ev with
          | RpcClient.KHeader (inr b) | RpcClient.KBody (inr b) => receive b down
          | _ => Some down
          end;
  Some (up', down').

(** Steps of a connection that concern neither pipe. *)
Definition quiet (k k' : Connection) : Prop :=
  conn_wq k' = conn_wq k /\ forall p, conn_reads k p -> conn_reads k' p.

Lemma quiet_refl k : quiet k k.
Proof. by split. Qed.

Lemma quiet_trans a b c : quiet a b -> quiet b c -> quiet a c.
Proof. intros [E1 H1] [E2 H2]. split; [congruence|auto]. Qed.

Lemma same_io_quiet k k' : same_io k k' -> quiet k k'.
Proof.
  intros (Hd & Hq & _ & _ & Hr). split; [done|]. intros p (part & Ht & Hp). exists part.
  rewrite Hd. split; [done|]. destruct Hr as [[-> ->]|(E & -> & ->)]; [done|]. by rewrite E in Hp.
Qed.

Lemma quiet_io_step k ev k' :
  conn_step k ev = Some k' ->
  match ev with EvCallback _ | EvSend _ _ => True | _ => False end -> quiet k k'.
Proof.
  intros E Hev. split.
  - pose proof (conn_step_wq k ev k' E) as H. by destruct ev.
  - intros p (part & Ht & Hp). exists part. destruct ev; try done; cbn in E.
    + destruct (reading k) eqn:Er; simplify_eq. destruct returned; cbn; [by destruct Hp as [-> ->]|done].
    + unfold send_begin in E. destruct (closed_ k); [by simplify_eq|].
      destruct (serialize_header h); by simplify_eq.
Qed.

Lemma cas_close_reads k p :
  (exists part, took p (delivered k) part) -> conn_reads (set_reading ReadStopped (cas_close k)) p.
Proof.
  intros [part H]. exists part. destruct (cas_close_io k) as (Hd & _). cbn. by rewrite Hd.
Qed.

Lemma conn_reads_same k k' p :
  (delivered k', reading k', on_message_ k') = (delivered k, reading k, on_message_ k) ->
  conn_reads k p -> conn_reads k' p.
Proof. intros [= E1 E2 E3]. unfold conn_reads. by rewrite E1, E2, E3. Qed.

Lemma conn_header_reads k r k' p p' :
  conn_step k (EvHeader r) = Some k' ->
  match r with Some b => receive b p | None => Some p end = Some p' ->
  conn_reads k p -> conn_reads k' p'.
Proof.
  intros E Eio (part & Ht & Hp). cbn in E. destruct (reading k) eqn:Er; try done.
  destruct r as [b|]; cbn in E; [|simplify_eq; apply cas_close_reads; eauto].
  destruct (Z.eqb_spec (len b) 20) as [Hl|]; [|done]. destruct Hp as [-> Hm].
  assert (exists part, took p' (delivered k) part) as Hstop.
  { exists b. destruct (receive_took _ _ _ _ _ Eio Ht) as [Hle Htk].
    rewrite app_nil_r in Htk. split_and!; [done..|apply Ht]. }
  destruct (deserialize_header b) as [h| |] eqn:Hd; try done.
  - destruct (took_header _ _ _ _ _ Eio Ht Hl Hd) as [Htk Hw].
    destruct (Z.eqb_spec (magic h) MAGIC) as [Hmg|]; simplify_eq; [|by apply cas_close_reads].
    exists (header_bytes h). by split_and!.
  - simplify_eq. by apply cas_close_reads.
Qed.

Lemma conn_body_reads k r k' p p' :
  conn_step k (EvBody r) = Some k' ->
  match r with Some b => receive b p | None => Some p end = Some p' ->
  conn_reads k p -> conn_reads k' p'.
Proof.
  intros E Eio (part & Ht & Hp). cbn in E. destruct (reading k) as [| |h| |] eqn:Er; try done.
  destruct r as [b|]; cbn in E; [|simplify_eq; apply cas_close_reads; eauto].
  destruct (Z.eqb_spec (len b) (body_size h)) as [Hl|]; [|done]. destruct Hp as (-> & Hw & Hmg & Hm).
  rewrite Hm in E. simplify_eq. exists []. cbn. split; [|done]. by eapply took_body.
Qed.

Lemma conn_step_reads k ev k' p p' :
  conn_step k ev = Some k' -> is_start ev = false ->
  match ev with EvHeader (Some b) | EvBody (Some b) => receive b p | _ => Some p end = Some p' ->
  conn_reads k p -> conn_reads k' p'.
Proof.
  intros E Hs Eio Hr. destruct ev as [m cl|r|r|b|h b|i|i|i|i ok|]; [done|..].
  1: by eapply conn_header_reads; [exact E|destruct r|].
  1: by eapply conn_body_reads; [exact E|destruct r|].
  1, 2: injection Eio as <-; by apply (quiet_io_step _ _ _ E).
  all: injection Eio as <-; refine (conn_reads_same _ _ _ _ Hr); cbn in E;
    unfold send_push, do_write, issue_write, write_done, close in E; split_match E; simplify_eq; try done.
  match goal with |- context [cas_close ?d] => destruct (cas_close_io d) as (-> & _ & _ & -> & ->) end.
  done.
Qed.

Lemma conn_io_inv k ev k' up down up' down' :
  wq_inv true (conn_wq k) -> conn_step k ev = Some k' -> is_start ev = false ->
  conn_io k ev up down = Some (up', down') ->
  pipe_inv id (conn_wq k) down -> conn_reads k up ->
  pipe_inv id (conn_wq k') down' /\ conn_reads k' up'.
Proof.
  intros Hq E Hs Eio Hp Hr. unfold conn_io in Eio. pose proof (conn_step_wq k ev k' E) as Hwq.
  destruct (match conn_wq_event k ev with Some we => _ | None => _ end) as [d|] eqn:Ed; [|done].
  cbn in Eio. destruct (match ev with EvHeader _ => _ | _ => _ end) as [u|] eqn:Eu; [|done].
  cbn in Eio. injection Eio as -> ->. split; [|by eapply conn_step_reads].
  destruct (conn_wq_event k ev) as [we|]; [by eapply write_op_inv|].
  injection Ed as ->. by rewrite Hwq.
Qed.

Lemma conn_io_took k ev up down up' down' ms part :
  conn_io k ev up down = Some (up', down') -> took down ms part -> took down' ms part.
Proof.
  unfold conn_io. intros E Ht. destruct (conn_wq_event k ev) as [we|].
  - destruct (write_op id _ we down) as [d|] eqn:Ed; [|done]. cbn in E.
    destruct (match ev with EvHeader _ => _ | _ => _ end); [|done]. simplify_eq/=.
    by eapply write_op_took.
  - cbn in E. destruct (match ev with EvHeader _ => _ | _ => _ end); [|done]. by simplify_eq/=.
Qed.

(** ** The client *)

Lemma client_same_reads c c' p :
  (RpcClient.got c', RpcClient.reader c') = (RpcClient.got c, RpcClient.reader c) ->
  client_reads c p -> client_reads c' p.
Proof. intros [= E1 E2]. unfold client_reads. by rewrite E1, E2. Qed.

Lemma stop_reading_reads reason c p :
  (exists part, took p (RpcClient.got c) part) -> client_reads (RpcClient.stop_reading reason c) p.
Proof.
  intros [part H]. exists part. unfold RpcClient.stop_reading, RpcClient.reject_all_pending. cbn.
  set (c1 := RpcClient.set_reader RpcClient.RStopped (RpcClient.got c) c).
  pose proof (RpcClient.fold_set_value_frame (RpcClient.closed_response reason)
    ((map_to_list (RpcClient.pending_ c)).*2) c1) as (_ & _ & -> & _ & -> & _).
  done.
Qed.

Lemma client_header_reads c r c' p p' :
  RpcClient.client_step c (RpcClient.KHeader r) = Some c' ->
  match r with inr b => receive b p | inl _ => Some p end = Some p' ->
  client_reads c p -> client_reads c' p'.
Proof.
  intros E Eio (part & Ht & Hp). unfold RpcClient.client_step in E.
  destruct (RpcClient.terminated c); [done|]. destruct (RpcClient.reader c) eqn:Er; try done. subst part.
  destruct (RpcClient.io_runs c); [|done].
  destruct r as [reason|b]; cbn in E; [simplify_eq; apply stop_reading_reads; eauto|].
  destruct (Z.eqb_spec (len b) 20) as [Hl|]; [|done].
  assert (exists part, took p' (RpcClient.got c) part) as Hstop.
  { exists b. destruct (receive_took _ _ _ _ _ Eio Ht) as [Hle Htk].
    rewrite app_nil_r in Htk. split_and!; [done..|apply Ht]. }
  destruct (deserialize_header b) as [h| |] eqn:Hd; try done.
  - destruct (took_header _ _ _ _ _ Eio Ht Hl Hd) as [Htk Hw].
    destruct (Z.eqb_spec (magic h) MAGIC) as [Hmg|]; simplify_eq; [|by apply stop_reading_reads].
    exists (header_bytes h). by split_and!.
  - simplify_eq. by apply stop_reading_reads.
Qed.

Lemma client_body_reads c r c' p p' :
  RpcClient.client_step c (RpcClient.KBody r) = Some c' ->
  match r with inr b => receive b p | inl _ => Some p end = Some p' ->
  client_reads c p -> client_reads c' p'.
Proof.
  intros E Eio (part & Ht & Hp). unfold RpcClient.client_step in E.
  destruct (RpcClient.terminated c); [done|].
  destruct (RpcClient.reader c) as [| |h|m resp|] eqn:Er; try done. destruct Hp as (-> & Hw & Hmg).
  destruct (RpcClient.io_runs c); [|done].
  destruct r as [reason|b]; cbn in E; [simplify_eq; apply stop_reading_reads; eauto|].
  destruct (Z.eqb_spec (len b) (body_size h)) as [Hl|]; [|done].
  pose proof (took_body _ _ _ _ _ Eio Ht Hl Hw Hmg) as Htk.
  destruct (response_deserialize b) as [resp| |]; try done.
  - exists []. destruct (RpcClient.pending_ c !! seq_id h); simplify_eq; by split.
  - simplify_eq. apply stop_reading_reads. exists (header_bytes h ++ b).
    destruct (receive_took _ _ _ _ _ Eio Ht) as [Hle Htk']. rewrite <- app_assoc in Htk'.
    split_and!; [done..|apply Ht].
Qed.

Lemma client_step_reads c ev c' p p' :
  RpcClient.client_inv c -> RpcClient.client_step c ev = Some c' ->
  match ev with RpcClient.KHeader (inr b) | RpcClient.KBody (inr b) => receive b p | _ => Some p end = Some p' ->
  client_reads c p -> client_reads c' p'.
Proof.
  intros Hinv E Eio Hr. destruct ev as [|ok|req|i|i|i|i|i ec|r|r| | |].
  9: by eapply client_header_reads; [exact E|destruct r|].
  9: by eapply client_body_reads; [exact E|destruct r|].
  all: injection Eio as <-; unfold RpcClient.client_step in E;
    destruct (RpcClient.terminated c); [done|].
  2: { destruct (RpcClient.connecting c) eqn:Ec; try done.
    destruct (RpcClient.io_runs c) eqn:Hio; [|done]. injection E as <-.
    unfold RpcClient.io_runs in Hio. apply andb_true_iff in Hio as [_ Hst%negb_true_iff].
    pose proof (RpcClient.cl_start c Hinv Hst) as Hn. rewrite Ec in Hn. destruct Hn as [_ Hn].
    destruct ok; [|by refine (client_same_reads _ _ _ _ Hr)].
    destruct Hr as (part & Ht & Hp). rewrite Hn in Hp. exists part. by split. }
  8: { unfold RpcClient.match_done in E. destruct (RpcClient.reader c) as [| | |q resp|] eqn:Er; simplify_eq.
    destruct Hr as (part & Ht & Hp). rewrite Er in Hp. exists part.
    pose proof (RpcClient.set_value_frame q resp (RpcClient.set_reader RpcClient.RHeader (RpcClient.got c) c))
      as (_ & _ & -> & _ & -> & _). by split. }
  all: refine (client_same_reads _ _ _ _ Hr).
  - injection E as <-. unfold RpcClient.connect. by destruct (RpcClient.io_thread_joinable c).
  - by injection E as <-.
  - unfold RpcClient.call_register in E. split_match E; by simplify_eq.
  - unfold RpcClient.call_enqueue in E. split_match E; by simplify_eq.
  - unfold RpcClient.do_write in E. split_match E; by simplify_eq.
  - unfold RpcClient.issue_write in E. split_match E; by simplify_eq.
  - destruct (RpcClient.io_runs c); [|done]. unfold RpcClient.write_done in E.
    destruct (RpcClient.writers c !! i) as [[]|]; simplify_eq.
    destruct ec as [reason|]; [|done]. unfold RpcClient.fail_write.
    destruct (RpcClient.pending_ c !! _) as [q|]; [|done].
    pose proof (RpcClient.set_value_frame q (RpcClient.closed_response reason) c)
      as (_ & _ & Er & _ & Eg & _).
    exact (f_equal2 pair Eg Er).
  - by injection E as <-.
  - destruct (RpcClient.callers c); [|done]. by injection E as <-.
Qed.

Lemma client_io_inv c ev c' up down up' down' :
  RpcClient.client_reachable c -> RpcClient.client_step c ev = Some c' ->
  client_io c ev up down = Some (up', down') ->
  pipe_inv RpcClient.frame_data (RpcClient.client_wq c) up -> client_reads c down ->
  pipe_inv RpcClient.frame_data (RpcClient.client_wq c') up' /\ client_reads c' down'.
Proof.
  intros Hc E Eio Hp Hr. unfold client_io in Eio. pose proof (RpcClient.client_step_wq c ev c' E) as Hwq.
  destruct (match RpcClient.client_wq_event c ev with Some we => _ | None => _ end) as [u|] eqn:Eu; [|done].
  cbn in Eio.
  destruct (match ev with RpcClient.KHeader _ => _ | _ => _ end) as [d|] eqn:Ed; [|done].
  cbn in Eio. injection Eio as -> ->.
  split; [|eapply client_step_reads; [by apply RpcClient.client_reachable_inv|exact E|exact Ed|done]].
  destruct (RpcClient.client_wq_event c ev) as [we|].
  - eapply write_op_inv; [|exact Hwq|exact Eu|done].
    exact (impl_inv (HI := RpcClient.client_write_queue) c Hc).
  - injection Eu as ->. by rewrite Hwq.
Qed.

Lemma client_io_took c ev up down up' down' ms part :
  client_io c ev up down = Some (up', down') -> took up ms part -> took up' ms part.
Proof.
  unfold client_io. intros E Ht.
  destruct (RpcClient.client_wq_event c ev) as [we|].
  - destruct (write_op _ _ we up) as [d|] eqn:Ed; [|done]. cbn in E.
    destruct (match ev with RpcClient.KHeader _ => _ | _ => _ end); [|done]. simplify_eq/=.
    by eapply write_op_took.
  - cbn in E. destruct (match ev with RpcClient.KHeader _ => _ | _ => _ end); [|done]. by simplify_eq/=.
Qed.

(** The other direction's invariants survive too. *)
Lemma conn_reads_mono k p p' :
  (forall ms part, took p ms part -> took p' ms part) -> conn_reads k p -> conn_reads k p'.
Proof. intros H (part & Ht & Hp). exists part. auto. Qed.

Lemma client_reads_mono c p p' :
  (forall ms part, took p ms part -> took p' ms part) -> client_reads c p -> client_reads c p'.
Proof. intros H (part & Ht & Hp). exists part. auto. Qed.
