(* ===== verification/EndToEnd.v ===== *)
(** * Client and server together

    The two ends are developed separately; here the bytes one end sends are fed
    to the other.  The network is the identity on byte streams, cut into pieces
    anywhere ([Connection.connection_chunks]). *)
From S2P Require Import Prelude Protocol ErrorCode ServiceManager Framing Connection RpcServer.
From S2P Require RpcClient.
Import RpcClient (call_header, call_frame, call_id, client_step, promises, pending_, requests,
  WriteItem, frame_data, item_seq_id, Ready, RHeader, RpcClient, client_reachable).

#[local] Arguments request_bytes : simpl never.
#[local] Arguments response_bytes : simpl never.

(** A request whose body fits its frame. *)
Definition request_fits (req : RpcRequest) : Prop :=
  request_wf req /\ len (request_bytes req) < 2 ^ 32.
Definition response_fits (resp : RpcResponse) : Prop :=
  response_wf resp /\ len (response_bytes resp) < 2 ^ 32.

(** ** Lemmas *)

Lemma call_header_wf s body : in_u 32 s -> len body < 2 ^ 32 -> frame_wf (call_header s body, body).
Proof.
  intros Hs Hb. pose proof (len_nonneg body). split_and!; cbn; [|done|by apply wrap_small].
  unfold header_wf. cbn. unfold in_u in *. rewrite wrap_small by lia.
  unfold MAGIC, VERSION, FLAG_NONE. lia.
Qed.

Lemma call_id_range p : in_u 32 (call_id p).
Proof. unfold in_u, call_id. apply wrap_range. lia. Qed.

Lemma call_frame_bytes s req :
  request_wf req ->
  call_frame s req = Ok (frame_bytes (call_header s (request_bytes req), request_bytes req)).
Proof.
  intros Hw. unfold call_frame. rewrite request_bytes_serialize by done. cbn [mbind outcome_bind].
  by rewrite header_serialize_bytes.
Qed.

Lemma response_frame h resp :
  response_fits resp -> in_u 8 (serializer h) -> in_u 32 (seq_id h) ->
  exists rh, response_message h resp = Ok (rh, response_bytes resp) /\
    frame_wf (rh, response_bytes resp) /\ seq_id rh = seq_id h /\
    (msg_type rh = 2 <-> error_code resp = 0).
Proof.
  intros [Hw Hl] Hser Hseq. pose proof (len_nonneg (response_bytes resp)).
  unfold response_message. rewrite response_bytes_serialize by done. cbn [mbind outcome_bind].
  eexists. split; [done|]. split_and!; cbn; auto.
  - unfold in_u in *. rewrite wrap_small by lia. unfold frame_wf, header_wf, in_u. cbn.
    unfold MAGIC, VERSION, FLAG_NONE. destruct (error_code resp =? 0); cbn; split_and!; lia.
  - by destruct (Z.eqb_spec (error_code resp) 0).
Qed.

Lemma client_takes_response rh resp p (c : RpcClient) :
  frame_wf (rh, response_bytes resp) -> response_wf resp -> seq_id rh = call_id p ->
  RpcClient.terminated c = false -> RpcClient.io_runs c = true -> RpcClient.reader c = RHeader ->
  pending_ c !! call_id p = Some p -> promises c !! p = Some RpcClient.Waiting ->
  exists c', run client_step
      [RpcClient.KHeader (inr (header_bytes rh)); RpcClient.KBody (inr (response_bytes resp));
       RpcClient.KMatch] c = Some c' /\
    promises c' = <[p := Ready resp]> (promises c) /\
    pending_ c' = delete (call_id p) (pending_ c) /\ RpcClient.reader c' = RHeader.
Proof.
  intros (Hw & Hm & Hb) Hr Hs Ht Hio Hrd Hp Hpw. cbn in Hw, Hm, Hb.
  assert (deserialize_header (header_bytes rh) = Ok rh) as Hd
    by (rewrite <- (app_nil_r (header_bytes rh)); by apply header_deserialize_bytes).
  set (c1 := RpcClient.set_reader (RpcClient.RBody rh) (RpcClient.got c) c).
  assert (client_step c (RpcClient.KHeader (inr (header_bytes rh))) = Some c1) as E1.
  { unfold client_step, RpcClient.read_fits, RpcClient.header_done.
    by rewrite Ht, Hrd, Hio, len_header_bytes, Hd, Hm, Z.eqb_refl. }
  set (c2 := RpcClient.set_reader (RpcClient.RMatched p resp) (RpcClient.got c ++ [(rh, response_bytes resp)])
    (RpcClient.set_pending (delete (call_id p) (pending_ c)) (promises c) c1)).
  assert (client_step c1 (RpcClient.KBody (inr (response_bytes resp))) = Some c2) as E2.
  { unfold client_step, RpcClient.read_fits, RpcClient.body_done.
    change (RpcClient.terminated c1) with (RpcClient.terminated c). rewrite Ht.
    change (RpcClient.io_runs c1) with (RpcClient.io_runs c). rewrite Hio.
    cbn [RpcClient.reader c1 RpcClient.set_reader andb].
    rewrite Hb, Z.eqb_refl, response_decode_own by done.
    change (pending_ c1) with (pending_ c). by rewrite Hs, Hp. }
  cbn [run]. rewrite E1. cbn [mbind option_bind]. rewrite E2. cbn [mbind option_bind].
  unfold client_step. change (RpcClient.terminated c2) with (RpcClient.terminated c). rewrite Ht.
  unfold RpcClient.match_done. cbn [RpcClient.reader c2 RpcClient.set_reader].
  rewrite RpcClient.set_value_waiting by done. by eexists.
Qed.

(** The frames of the calls, as [call_frame] makes them. *)
Definition call_message (p : nat) (req : RpcRequest) : frame :=
  (call_header (call_id p) (request_bytes req), request_bytes req).

Lemma call_message_wf p req : request_fits req -> frame_wf (call_message p req).
Proof. intros [_ Hl]. apply call_header_wf; [apply call_id_range|done]. Qed.

(** What a client has queued is the stream of its calls' frames. *)
Lemma pushed_frames (c : RpcClient) :
  client_reachable c -> Forall request_fits (requests c) ->
  exists fs, concat (frame_data <$> RpcClient.pushed c) = stream fs /\ Forall frame_wf fs /\
    Forall2 (fun it f => exists p req, requests c !! p = Some req /\ item_seq_id it = call_id p /\
      f = call_message p req) (RpcClient.pushed c) fs.
Proof.
  intros Hc Hfits. pose proof (RpcClient.cl_items c (RpcClient.client_reachable_inv c Hc)) as Hit.
  induction Hit as [|it l (p & req & Hreq & Hid & Hframe) _ (fs & E & Hfs & Hall)]; [by exists []|].
  rewrite Forall_lookup in Hfits. pose proof (Hfits _ _ Hreq) as Hfit.
  rewrite call_frame_bytes in Hframe by apply Hfit. injection Hframe as Hframe.
  exists (call_message p req :: fs). split_and!.
  - rewrite fmap_cons. cbn [concat]. by rewrite E, <- Hframe.
  - constructor; [by apply call_message_wf|done].
  - constructor; [|done]. by exists p, req.
Qed.

(** ** Theorems *)

(** One remote call, end to end.  The frame a client sends for call [p] of a
    well-formed request makes a waiting server connection deliver exactly that
    request; whatever response the server computes for it, the frame it sends
    back makes the client's future [p], and no other, ready with exactly that
    response.  In particular a registered service's result arrives unchanged. *)
Theorem remote_call_returns (conn : Connection) (c : RpcClient) p req m :
  request_fits req ->
  reading conn = ReadingHeader -> on_message_ conn = true ->
  RpcClient.terminated c = false -> RpcClient.io_runs c = true -> RpcClient.reader c = RHeader ->
  pending_ c !! call_id p = Some p -> promises c !! p = Some RpcClient.Waiting ->
  exists data h, call_frame (call_id p) req = Ok data /\
    conn_feed conn data = (fed conn [(h, request_bytes req)] ReadingHeader, []) /\
    process_request h (request_bytes req) m = process_dispatch req m RpcResponse_init /\
    forall resp, process_dispatch req m RpcResponse_init = Ok resp -> response_fits resp ->
      exists rh c', response_message h resp = Ok (rh, response_bytes resp) /\
        run client_step [RpcClient.KHeader (inr (header_bytes rh));
          RpcClient.KBody (inr (response_bytes resp)); RpcClient.KMatch] c = Some c' /\
        promises c' = <[p := Ready resp]> (promises c).
Proof.
  intros [Hw Hl] Hr Hm Ht Hio Hrd Hp Hpw. set (h := call_header (call_id p) (request_bytes req)).
  exists (frame_bytes (h, request_bytes req)), h. split_and!.
  - by apply call_frame_bytes.
  - pose proof (call_header_wf (call_id p) (request_bytes req) (call_id_range p) Hl) as Hf.
    pose proof (conn_feed_framed conn [(h, request_bytes req)] PartHeader [] [] Hr Hm) as H.
    rewrite app_nil_r in H. unfold stream in H. cbn [fmap list_fmap concat] in H.
    rewrite app_nil_r in H. apply H; [by constructor|by split].
  - unfold process_request. by rewrite request_decode_own.
  - intros resp Hresp Hfits.
    destruct (response_frame h resp Hfits) as (rh & Hmsg & Hf & Hs & _);
      [unfold in_u; cbn; lia|apply call_id_range|].
    destruct (client_takes_response rh resp p c Hf (proj1 Hfits) Hs Ht Hio Hrd Hp Hpw)
      as (c' & Hrun & Hprom & _).
    by exists rh, c'.
Qed.

(** A client that has sent one call and reads. *)
Definition waiting_client : RpcClient :=
  default RpcClient.RpcClient_init (run client_step
    [RpcClient.KConnect; RpcClient.KConnected true; RpcClient.KCall (echo_request "Echo");
     RpcClient.KRegister 0; RpcClient.KEnqueue 0] RpcClient.RpcClient_init).

Lemma remote_call_returns_witness : exists rh c',
  run client_step [RpcClient.KHeader (inr rh);
    RpcClient.KBody (inr (response_bytes {| error_code := 0; error_msg := []; result := bs "ping" |}));
    RpcClient.KMatch] waiting_client = Some c' /\
  promises c' = [Ready {| error_code := 0; error_msg := []; result := bs "ping" |}].
Proof.
  destruct (remote_call_returns conn_started waiting_client 0 (echo_request "Echo") echo_manager)
    as (data & h & _ & _ & _ & H).
  - split; [|by vm_compute]. apply (bool_decide_unpack _). by vm_compute.
  - done.
  - done.
  - by vm_compute.
  - by vm_compute.
  - by vm_compute.
  - by vm_compute.
  - by vm_compute.
  - destruct (H {| error_code := 0; error_msg := []; result := bs "ping" |}) as (rh & c' & _ & Hrun & Hp).
    + by vm_compute.
    + split; [|by vm_compute]. apply (bool_decide_unpack _). by vm_compute.
    + exists (header_bytes rh), c'. split; [exact Hrun|]. rewrite Hp. by vm_compute.
Defined.

(** Requests arrive.  Everything the client has queued for the socket,
    received by a fresh server connection in whatever pieces, is delivered to the
    server's callback as exactly the calls' requests, in the order queued, each
    under its call's id. *)
Theorem requests_arrive (conn : Connection) (c : RpcClient) :
  client_reachable c -> Forall request_fits (requests c) ->
  reading conn = ReadingHeader -> on_message_ conn = true ->
  exists ms, conn_feed conn (concat (frame_data <$> RpcClient.pushed c)) =
      (fed conn ms ReadingHeader, []) /\
    Forall2 (fun it m => seq_id m.1 = item_seq_id it /\ msg_type m.1 = 1 /\
      exists p req, requests c !! p = Some req /\ item_seq_id it = call_id p /\
        request_deserialize m.2 = Ok req) (RpcClient.pushed c) ms.
Proof.
  intros Hc Hfits Hr Hm. destruct (pushed_frames c Hc Hfits) as (ms & -> & Hms & Hall).
  exists ms. split.
  - rewrite <- (app_nil_r (stream ms)). apply (conn_feed_framed conn ms PartHeader [] []); auto. by split.
  - eapply Forall2_impl; [exact Hall|]. intros it m (p & req & Hreq & Hid & ->).
    split_and!; [done|done|]. exists p, req. split_and!; [done|done|].
    rewrite Forall_lookup in Hfits. apply request_decode_own. by apply (Hfits p).
Qed.

Lemma requests_arrive_witness : exists ms,
  conn_feed conn_started (concat (frame_data <$> RpcClient.pushed RpcClient.client_crossed)) =
    (fed conn_started ms ReadingHeader, []) /\ length ms = 2%nat.
Proof.
  destruct (requests_arrive conn_started RpcClient.client_crossed) as (ms & E & Hall).
  - apply RpcClient.client_run_reachable.
  - apply (bool_decide_unpack _). by vm_compute.
  - done.
  - done.
  - exists ms. split; [exact E|]. by rewrite <- (Forall2_length _ _ _ Hall).
Defined.
