(* ===== verification/RpcSystem.v ===== *)
(** * Clients, network and server as one system

    Any number of clients, each with its connection to the server, and the
    server with whatever other peers it has.  A step is a step of the server, a
    step of a client, the acceptance of a client's connection, or bytes moving;
    completions of reads and writes on a client's connection happen only as
    [Wire] allows, everything else is up to the environment. *)
From S2P Require Import Prelude WriteQueue Protocol ErrorCode ServiceManager Framing Connection.
From S2P Require Import ConnectionManager MessageCycle Executor ThreadPool RpcServer Wire EndToEnd.
From S2P Require Import RpcClient.
Import RpcServer.

#[local] Arguments request_bytes : simpl never.
#[local] Arguments response_bytes : simpl never.

(** ** What a server step does to one connection *)

Section server.
Context {X E : Type} {HX : Executor task X E}.

Definition server_quiet (s s' : RpcServer (X := X)) : Prop :=
  length (heap (cycle_ s')) = length (heap (cycle_ s)) /\
  forall q k', heap (cycle_ s') !! q = Some k' -> exists k, heap (cycle_ s) !! q = Some k /\ quiet k k'.

Lemma server_quiet_same s s' : heap (cycle_ s') = heap (cycle_ s) -> server_quiet s s'.
Proof. intros Eh. split; rewrite Eh; [done|]. intros q k' Hk. exists k'. split; [done|apply quiet_refl]. Qed.

Lemma server_quiet_trans a b c : server_quiet a b -> server_quiet b c -> server_quiet a c.
Proof.
  intros [La Hab] [Lb Hbc]. split; [congruence|]. intros q k' Hk. destruct (Hbc q k' Hk) as (k1 & Hk1 & Q1).
  destruct (Hab q k1 Hk1) as (k0 & Hk0 & Q0). exists k0. eauto using quiet_trans.
Qed.

Lemma conn_event_quiet p ev c c' (s : RpcServer (X := X)) :
  conn_event_on p ev c = Some c' ->
  match ev with EvCallback _ | EvSend _ _ => True | _ => False end ->
  server_quiet (set_cycle c s) (set_cycle c' s).
Proof.
  intros Ec Hev. unfold conn_event_on in Ec.
  destruct (heap c !! p) as [k|] eqn:Hp; [|done].
  destruct (conn_step k ev) as [k1|] eqn:Ek; [|done]. cbn in Ec. injection Ec as <-.
  split; cbn; [by rewrite length_insert|]. intros q k' Hk.
  apply list_lookup_insert_Some in Hk as [(<- & <- & _)|[_ Hk]].
  - exists k. split; [done|]. by eapply quiet_io_step.
  - exists k'. split; [done|apply quiet_refl].
Qed.

Lemma callback_ends_quiet p r s s' : callback_ends p r s = Some s' -> server_quiet s s'.
Proof.
  unfold callback_ends. intros Es.
  destruct (conn_event_on p (EvCallback r) (cycle_ s)) as [c|] eqn:Ec; [|done]. cbn in Es.
  injection Es as <-. by apply (conn_event_quiet p (EvCallback r) (cycle_ s) c s).
Qed.

Lemma process_and_send_quiet t s s' : process_and_send t s = Some s' -> server_quiet s s'.
Proof.
  unfold process_and_send. destruct t as [p [h b]]. intros Es.
  destruct (heap (cycle_ s) !! p) as [k|]; [|done]. cbn [mbind option_bind] in Es.
  destruct (response_to h _) as [[rh rb]| |]; [|by injection Es as <-; apply server_quiet_same..].
  destruct (conn_event_on p (EvSend rh rb) (cycle_ s)) as [c|] eqn:Ec; [|done]. cbn in Es.
  injection Es as <-. by apply (conn_event_quiet p (EvSend rh rb) (cycle_ s) c s).
Qed.

Lemma on_message_quiet p s s' : on_message p s = Some s' -> server_quiet s s'.
Proof.
  unfold on_message. intros Es. destruct (heap (cycle_ s) !! p) as [k|]; [|done]. cbn in Es.
  destruct (reading k); try done. destruct (bool_decide _); [done|].
  destruct (thread_pool_ s) as [x|].
  - destruct (ex_submit _ x) as [x'|]; by apply callback_ends_quiet in Es.
  - destruct (process_and_send _ _) as [s1|] eqn:Ep; [|done]. cbn in Es.
    apply process_and_send_quiet in Ep. destruct (response_to h _) as [m| |].
    + injection Es as <-. exact Ep.
    + apply callback_ends_quiet in Es. exact (server_quiet_trans _ _ _ Ep Es).
    + apply callback_ends_quiet in Es. exact (server_quiet_trans _ _ _ Ep Es).
Qed.

Lemma reply_done_quiet i s s' : reply_done i s = Some s' -> server_quiet s s'.
Proof.
  unfold reply_done. intros Es. destruct (replying s !! i) as [p|]; [|done]. cbn in Es.
  destruct (heap (cycle_ s) !! p) as [k|]; [|done]. cbn in Es.
  destruct (senders k); [|done]. by apply callback_ends_quiet in Es.
Qed.

(** The connections change quietly or by a step of the message cycle. *)
Lemma server_step_cases s ev s' :
  server_step s ev = Some s' ->
  server_quiet s s' \/
  exists cev, ev = SvCycle cev /\ cycle_step (cycle_ s) cev = Some (cycle_ s').
Proof.
  intros Es. destruct ev as [|op|port failing| |cev|p|i|e]; [| |apply start_step in Es|..]; cbn in Es.
  - destruct (heap (cycle_ s)), (thread_pool_ s); simplify_eq. left. by apply server_quiet_same.
  - injection Es as <-. left. by apply server_quiet_same.
  - destruct Es as (on & a & ch & -> & _). left. by apply server_quiet_same.
  - injection Es as <-. left. by apply server_quiet_same.
  - right. destruct (server_only cev); [done|].
    destruct (cycle_step (cycle_ s) cev) as [c|] eqn:Ec; [|done]. cbn in Es. injection Es as <-. eauto.
  - left. by eapply on_message_quiet.
  - left. by eapply reply_done_quiet.
  - left. destruct (thread_pool_ s) as [x|]; [|done]. cbn in Es.
    destruct (ex_step x e) as [x'|]; [|done]. cbn in Es. destruct (ex_runs x e) as [t|].
    + apply process_and_send_quiet in Es. exact Es.
    + injection Es as <-. by apply server_quiet_same.
Qed.

Lemma server_step_heap s ev s' :
  server_step s ev = Some s' -> (length (heap (cycle_ s)) <= length (heap (cycle_ s')))%nat.
Proof.
  intros [[-> _]|(cev & _ & Ec)]%server_step_cases; [done|]. by eapply cycle_step_heap.
Qed.

Lemma server_step_conn s ev s' q k' :
  server_reachable s -> server_step s ev = Some s' -> heap (cycle_ s') !! q = Some k' ->
  (q = length (heap (cycle_ s)) /\ quiet Connection_init k') \/
  exists k, heap (cycle_ s) !! q = Some k /\
    (quiet k k' \/ exists cev, ev = SvCycle (CConn q cev) /\ is_start cev = false /\ conn_step k cev = Some k').
Proof.
  intros Hr Es Hk. pose proof (si_cycle s (server_reachable_inv s Hr)) as Hcy.
  destruct (server_step_cases s ev s' Es) as [[_ Hq]|(cev & -> & Ec)].
  { right. destruct (Hq q k' Hk) as (k & ? & ?). eauto. }
  destruct (cycle_step_conn _ _ _ _ _ Hcy Ec Hk) as [[-> Hs]|(k & Hk0 & [Hs|(e & -> & Hst & Hs)])].
  - left. split; [done|]. by apply same_io_quiet.
  - right. exists k. split; [done|left]. by apply same_io_quiet.
  - right. exists k. split; [done|right]. by exists e.
Qed.

(** ** The system *)

(** A client, the server's connection to it once accepted, and the two directions
    between them. *)
Record endpoint := {
  client : RpcClient;
  peer : option conn_ptr;
  up : pipe;
  down : pipe
}.
Definition endpoint_init : endpoint :=
  {| client := RpcClient_init; peer := None; up := pipe_init; down := pipe_init |}.

Record System := { server : RpcServer (X := X); ends : list endpoint }.
Definition System_init : System := {| server := RpcServer_init; ends := [] |}.

Definition set_client (c : RpcClient) (e : endpoint) : endpoint :=
  {| client := c; peer := peer e; up := up e; down := down e |}.
Definition set_pipes (ud : pipe * pipe) (e : endpoint) : endpoint :=
  {| client := client e; peer := peer e; up := ud.1; down := ud.2 |}.
Definition set_peer (q : conn_ptr) (e : endpoint) : endpoint :=
  {| client := client e; peer := Some q; up := up e; down := down e |}.

Inductive sys_event :=
  | YServer (ev : server_event (E := E))
  | YOpen                                   (* another client object *)
  | YClient (i : nat) (ev : client_event)
  | YAccept (i : nat)                       (* the server accepts client [i]'s connection *)
  | YUp (i n : nat)                         (* bytes leave an outstanding write *)
  | YDown (i n : nat).

(** The end whose connection at the server is [q]. *)
Definition find_end (q : conn_ptr) (es : list endpoint) : option (nat * endpoint) :=
  list_find (fun e => peer e = Some q) es.

(** The server's operation on connection [q] against the pipes of its client;
    other peers may do as they like. *)
Definition server_io (q : conn_ptr) (ev : conn_event) (s : System) : option (list endpoint) :=
  match find_end q (ends s) with
  | Some (i, e) =>
      k ← heap (cycle_ (server s)) !! q;
      ud ← conn_io k ev (up e) (down e);
      Some (<[i := set_pipes ud e]> (ends s))
  | None => Some (ends s)
  end.

(** The client has a connection as far as its operating system is concerned,
    whether or not the handler of [async_connect] has run. *)
Definition reaching (c : RpcClient) : bool :=
  match connecting c with Connecting | ConnectDone true => true | _ => false end.

Definition sys_step (s : System) (ev : sys_event) : option System :=
  match ev with
  | YServer ev =>
      srv ← server_step (server s) ev;
      es ← match ev with SvCycle (CConn q cev) => server_io q cev s | _ => Some (ends s) end;
      Some {| server := srv; ends := es |}
  | YOpen => Some {| server := server s; ends := ends s ++ [endpoint_init] |}
  | YClient i ev =>
      e ← ends s !! i;
      c ← client_step (client e) ev;
      ud ← client_io (client e) ev (up e) (down e);
      Some {| server := server s; ends := <[i := set_pipes ud (set_client c e)]> (ends s) |}
  | YAccept i =>
      e ← ends s !! i;
      match peer e, reaching (client e) with
      | None, true =>
          srv ← server_step (server s) (SvCycle (CAccept true));
          Some {| server := srv;
                  ends := <[i := set_peer (length (heap (cycle_ (server s)))) e]> (ends s) |}
      | _, _ => None
      end
  | YUp i n =>
      e ← ends s !! i;
      p ← pump n (up e);
      Some {| server := server s; ends := <[i := set_pipes (p, down e) e]> (ends s) |}
  | YDown i n =>
      e ← ends s !! i;
      p ← pump n (down e);
      Some {| server := server s; ends := <[i := set_pipes (up e, p) e]> (ends s) |}
  end.

Definition sys_trans : System -> System -> Prop := steps_to sys_step.
Definition sys_reachable (s : System) : Prop := rtc sys_trans System_init s.

(** ** Every frame in its place *)

(** The server's connection of an end; a fresh one before it is accepted. *)
Definition peer_conn (srv : RpcServer (X := X)) (e : endpoint) : Connection :=
  default Connection_init (peer e ≫= fun q => heap (cycle_ srv) !! q).

Record end_inv (srv : RpcServer (X := X)) (e : endpoint) : Prop := {
  en_client : client_reachable (client e);
  en_up : pipe_inv frame_data (client_wq (client e)) (up e);
  en_down : pipe_inv id (conn_wq (peer_conn srv e)) (down e);
  en_server_reads : conn_reads (peer_conn srv e) (up e);
  en_client_reads : client_reads (client e) (down e);
  en_peer q : peer e = Some q -> is_Some (heap (cycle_ srv) !! q)
}.

Record sys_inv (s : System) : Prop := {
  sy_server : server_reachable (server s);
  sy_end i e : ends s !! i = Some e -> end_inv (server s) e;
  sy_distinct i j e f q : ends s !! i = Some e -> ends s !! j = Some f ->
    peer e = Some q -> peer f = Some q -> i = j
}.

Lemma peer_conn_some srv e q k :
  peer e = Some q -> heap (cycle_ srv) !! q = Some k -> peer_conn srv e = k.
Proof. intros Hp Hk. unfold peer_conn. rewrite Hp. cbn. by rewrite Hk. Qed.

Lemma peer_conn_none srv e : peer e = None -> peer_conn srv e = Connection_init.
Proof. intros Hp. unfold peer_conn. by rewrite Hp. Qed.

Lemma endpoint_init_inv srv : end_inv srv endpoint_init.
Proof.
  split; cbn; try apply pipe_init_inv; try apply rtc_refl; try done.
  - exists []. by split_and!.
  - exists []. by split_and!.
Qed.

(** A server step that leaves the pipes alone. *)
Lemma end_inv_quiet srv srv' e :
  end_inv srv e -> quiet (peer_conn srv e) (peer_conn srv' e) ->
  (forall q, peer e = Some q -> is_Some (heap (cycle_ srv') !! q)) -> end_inv srv' e.
Proof. intros [] [Eq Hr] Hp. split; auto. by rewrite Eq. Qed.

(** A server step not on the end's own connection. *)
Lemma end_inv_elsewhere srv ev srv' e :
  server_reachable srv -> server_step srv ev = Some srv' ->
  (forall q cev, peer e = Some q -> ev <> SvCycle (CConn q cev)) ->
  end_inv srv e -> end_inv srv' e.
Proof.
  intros Hr Es Hne He. pose proof (server_step_heap _ _ _ Es) as Hlen.
  assert (forall q, peer e = Some q -> is_Some (heap (cycle_ srv') !! q)) as Hp'.
  { intros q Hq. destruct (en_peer _ _ He q Hq) as [k Hk].
    apply lookup_lt_is_Some. apply lookup_lt_Some in Hk. lia. }
  apply end_inv_quiet with srv; [done| |done]. destruct (peer e) as [q|] eqn:Hq.
  2: { rewrite !peer_conn_none by done. apply quiet_refl. }
  destruct (en_peer _ _ He q Hq) as [k Hk], (Hp' q eq_refl) as [k' Hk'].
  rewrite (peer_conn_some srv e q k), (peer_conn_some srv' e q k') by done.
  destruct (server_step_conn _ _ _ _ _ Hr Es Hk') as [[-> _]|(k0 & Hk0 & [Hs|(cev & -> & _)])].
  - apply lookup_lt_Some in Hk. lia.
  - congruence.
  - by destruct (Hne q cev eq_refl).
Qed.

Lemma find_end_spec q es i e :
  find_end q es = Some (i, e) -> es !! i = Some e /\ peer e = Some q.
Proof. intros (? & ? & _)%list_find_Some. done. Qed.

Lemma find_end_none q es i e : find_end q es = None -> es !! i = Some e -> peer e <> Some q.
Proof. intros Hn%list_find_None Hi. rewrite Forall_lookup in Hn. by apply (Hn i). Qed.

Lemma cycle_conn_step c q cev c' :
  cycle_step c (CConn q cev) = Some c' -> exists k k', heap c !! q = Some k /\
    is_start cev = false /\ conn_step k cev = Some k' /\ heap c' = <[q := k']> (heap c).
Proof.
  cbn. destruct (is_start cev); [done|]. unfold conn_event_on.
  destruct (heap c !! q) as [k|]; [|done].
  destruct (conn_step k cev) as [k'|] eqn:Ek; [|intros E1; discriminate E1]. cbn.
  intros E1. injection E1 as <-. by exists k, k'.
Qed.

(** A server step on the end's own connection. *)
Lemma end_inv_own srv q cev srv' e k ud :
  server_reachable srv -> server_step srv (SvCycle (CConn q cev)) = Some srv' ->
  peer e = Some q -> heap (cycle_ srv) !! q = Some k -> conn_io k cev (up e) (down e) = Some ud ->
  end_inv srv e -> end_inv srv' (set_pipes ud e).
Proof.
  intros Hr Es Hq Hk Eio [He1 He2 He3 He4 He5 He6].
  assert (exists k', is_start cev = false /\ conn_step k cev = Some k' /\
    heap (cycle_ srv') = <[q := k']> (heap (cycle_ srv))) as (k' & Hst & Ek & Eh).
  { cbn [server_step] in Es. destruct (server_only (CConn q cev)); [done|].
    destruct (cycle_step (cycle_ srv) (CConn q cev)) as [c|] eqn:Ec; [|done]. injection Es as <-.
    apply cycle_conn_step in Ec as (k0 & k' & Hk0 & ? & ? & ?). exists k'. naive_solver. }
  assert (heap (cycle_ srv') !! q = Some k') as Hk'.
  { rewrite Eh. apply list_lookup_insert_eq. by eapply lookup_lt_Some. }
  rewrite (peer_conn_some srv e q k Hq Hk) in He3, He4. destruct ud as [u d].
  assert (peer_conn srv' (set_pipes (u, d) e) = k') as Epc by by apply (peer_conn_some _ _ q).
  pose proof (server_reachable_inv srv Hr) as Hinv.
  destruct (conn_io_inv k cev k' (up e) (down e) u d) as [Hd Hu]; try done.
  { by eapply cycle_conn_wq; [apply Hinv|]. }
  split; rewrite ?Epc; cbn; try done.
  - unfold conn_io in Eio. destruct (match conn_wq_event k cev with Some _ => _ | None => _ end); [|done].
    cbn in Eio. destruct (match cev with EvHeader _ => _ | _ => _ end) as [u'|] eqn:Eu; [|done].
    cbn in Eio. injection Eio as -> ->.
    destruct cev as [| [|] | [|] | | | | | | |]; simplify_eq; try done; by eapply receive_pipe_inv.
  - eapply client_reads_mono; [|exact He5]. intros ms part. by eapply conn_io_took.
  - intros q' Hq'. assert (q' = q) as -> by congruence. by rewrite Hk'.
Qed.

Lemma end_inv_client srv e ev c ud :
  server_reachable srv -> client_step (client e) ev = Some c ->
  client_io (client e) ev (up e) (down e) = Some ud ->
  end_inv srv e -> end_inv srv (set_pipes ud (set_client c e)).
Proof.
  intros Hr Es Eio [He1 He2 He3 He4 He5 He6]. destruct ud as [u d].
  destruct (client_io_inv _ _ _ _ _ _ _ He1 Es Eio He2 He5) as [Hu Hd].
  split; cbn; try done.
  - eapply rtc_r; [exact He1|by exists ev].
  - change (pipe_inv id (conn_wq (peer_conn srv e)) d).
    unfold client_io in Eio. destruct (match client_wq_event (client e) ev with Some _ => _ | None => _ end); [|done].
    cbn in Eio. destruct (match ev with KHeader _ => _ | _ => _ end) as [d'|] eqn:Ed; [|done].
    cbn in Eio. injection Eio as -> ->.
    destruct ev as [| | | | | | | | [|] | [|] | | |]; simplify_eq; try done; by eapply receive_pipe_inv.
  - change (conn_reads (peer_conn srv e) u). eapply conn_reads_mono; [|exact He4].
    intros ms part. by eapply client_io_took.
Qed.

Lemma end_inv_up srv e n p :
  end_inv srv e -> pump n (up e) = Some p -> end_inv srv (set_pipes (p, down e) e).
Proof.
  intros [He1 He2 He3 He4 He5 He6] Ep. split; cbn; try done.
  - eapply pump_inv; [|exact He2|exact Ep]. exact (impl_inv (HI := client_write_queue) _ He1).
  - eapply conn_reads_mono; [|exact He4]. intros ms part. by eapply pump_took.
Qed.

Lemma peer_conn_wq srv e : server_reachable srv -> wq_inv true (conn_wq (peer_conn srv e)).
Proof.
  intros Hr. unfold peer_conn. destruct (peer e) as [q|]; cbn; [|apply wq_init_inv].
  destruct (heap (cycle_ srv) !! q) as [k|] eqn:Ek; [|apply wq_init_inv].
  by eapply cycle_conn_wq; [apply (server_reachable_inv srv Hr)|].
Qed.

Lemma end_inv_down srv e n p :
  server_reachable srv -> end_inv srv e -> pump n (down e) = Some p ->
  end_inv srv (set_pipes (up e, p) e).
Proof.
  intros Hr [He1 He2 He3 He4 He5 He6] Ep. split; cbn; try done.
  - eapply (pump_inv id true (conn_wq (peer_conn srv e))); [|exact He3|exact Ep].
    by apply peer_conn_wq.
  - eapply client_reads_mono; [|exact He5]. intros ms part. by eapply pump_took.
Qed.

(** Replacing an end by one with the same peer. *)
Lemma sys_inv_update s i e e' :
  sys_inv s -> ends s !! i = Some e -> peer e' = peer e -> end_inv (server s) e' ->
  sys_inv {| server := server s; ends := <[i := e']> (ends s) |}.
Proof.
  intros [Hs He Hd] Hi Hp He'. split; cbn; [done|..].
  - intros j f [(<- & <- & _)|[_ Hj]]%list_lookup_insert_Some; eauto.
  - intros j j' f f' q [(<- & <- & _)|[Hne Hj]]%list_lookup_insert_Some
      [(<- & <- & _)|[Hne' Hj']]%list_lookup_insert_Some; rewrite ?Hp; eauto.
Qed.

Lemma sys_server_inv s ev srv es :
  sys_inv s -> server_step (server s) ev = Some srv ->
  match ev with SvCycle (CConn q cev) => server_io q cev s | _ => Some (ends s) end = Some es ->
  sys_inv {| server := srv; ends := es |}.
Proof.
  intros [Hs He Hd] Es Ees.
  assert (server_reachable srv) as Hs' by (eapply rtc_r; [exact Hs|by exists ev]).
  assert ((es = ends s /\ forall i e q cev, ends s !! i = Some e -> peer e = Some q -> ev <> SvCycle (CConn q cev)) \/
    exists i e q cev k ud, es = <[i := set_pipes ud e]> (ends s) /\ ends s !! i = Some e /\ peer e = Some q /\
      ev = SvCycle (CConn q cev) /\ heap (cycle_ (server s)) !! q = Some k /\
      conn_io k cev (up e) (down e) = Some ud) as [[-> Hne]|(i & e & q & cev & k & ud & -> & Hi & Hq & -> & Hk & Eio)].
  { destruct ev as [| | | |[| | | | | |q cev| | | |]| | |];
      try (left; injection Ees as <-; split; [done|]; intros ????? ? [=]; fail).
    unfold server_io in Ees. destruct (find_end q (ends s)) as [[i e]|] eqn:Ef.
    - right. destruct (heap (cycle_ (server s)) !! q) as [k|] eqn:Hk; [|done]. cbn in Ees.
      destruct (conn_io k cev (up e) (down e)) as [ud|] eqn:Eio; [|done]. cbn in Ees. injection Ees as <-.
      destruct (find_end_spec _ _ _ _ Ef). by exists i, e, q, cev, k, ud.
    - left. injection Ees as <-. split; [done|]. intros i e q' cev' Hi Hq [= -> ->].
      by destruct (find_end_none _ _ _ _ Ef Hi). }
  - split; cbn; [done| |done]. intros i e Hi. eapply end_inv_elsewhere; [exact Hs|exact Es| |eauto].
    intros q cev Hq. by eapply Hne.
  - split; cbn; [done|..].
    + intros j f [(<- & <- & _)|[Hne Hj]]%list_lookup_insert_Some.
      * by eapply end_inv_own; [| | | |exact Eio|eauto].
      * eapply end_inv_elsewhere; [exact Hs|exact Es| |eauto]. intros q' cev' Hq' [= <- <-]. by destruct Hne; eapply Hd.
    + intros j j' f f' q' [(<- & <- & _)|[Hne Hj]]%list_lookup_insert_Some
        [(<- & <- & _)|[Hne' Hj']]%list_lookup_insert_Some; eauto.
Qed.

Lemma accept_heap srv srv' :
  server_step srv (SvCycle (CAccept true)) = Some srv' ->
  exists k, heap (cycle_ srv') = heap (cycle_ srv) ++ [k].
Proof.
  cbn. destruct (chain (cycle_ srv)); try done. intros [= <-]. cbn.
  rewrite alter_app_r_alt by lia. rewrite Nat.sub_diag. cbn. by eexists.
Qed.

Lemma sys_accept_inv s i e srv :
  sys_inv s -> ends s !! i = Some e -> peer e = None ->
  server_step (server s) (SvCycle (CAccept true)) = Some srv ->
  sys_inv {| server := srv; ends := <[i := set_peer (length (heap (cycle_ (server s)))) e]> (ends s) |}.
Proof.
  intros [Hs He Hd] Hi Hp Es. destruct (accept_heap _ _ Es) as [k Eh].
  assert (heap (cycle_ srv) !! length (heap (cycle_ (server s))) = Some k) as Hk
    by (rewrite Eh; by apply list_lookup_middle).
  assert (forall j f q, ends s !! j = Some f -> peer f = Some q -> (q < length (heap (cycle_ (server s))))%nat) as Hlt.
  { intros j f q Hj Hq. destruct (en_peer _ _ (He j f Hj) q Hq) as [k' Hk']. by eapply lookup_lt_Some. }
  assert (quiet Connection_init k) as [Hwq Hrd].
  { destruct (server_step_conn _ _ _ _ _ Hs Es Hk) as [[_ ?]|(k0 & Hk0 & _)]; [done|].
    apply lookup_lt_Some in Hk0. lia. }
  split; cbn.
  - eapply rtc_r; [exact Hs|by exists (SvCycle (CAccept true))].
  - intros j f [(<- & <- & _)|[_ Hj]]%list_lookup_insert_Some.
    + destruct (He i e Hi) as [H1 H2 H3 H4 H5 H6]. rewrite peer_conn_none in H3, H4 by done.
      assert (peer_conn srv (set_peer (length (heap (cycle_ (server s)))) e) = k) as Epc
        by by eapply peer_conn_some.
      split; rewrite ?Epc; cbn; try done; [by rewrite Hwq|by apply Hrd|].
      intros q [= <-]. by exists k.
    + eapply end_inv_elsewhere; [exact Hs|exact Es| |eauto]. by intros q cev _ [=].
  - intros j j' f f' q [(<- & <- & _)|[Hne Hj]]%list_lookup_insert_Some
      [(<- & <- & _)|[Hne' Hj']]%list_lookup_insert_Some; cbn; try done; eauto.
    + intros [= <-] Hq. specialize (Hlt _ _ _ Hj' Hq). lia.
    + intros Hq [= <-]. specialize (Hlt _ _ _ Hj Hq). lia.
Qed.

Lemma sys_step_inv s ev s' : sys_inv s -> sys_step s ev = Some s' -> sys_inv s'.
Proof.
  intros Hinv Es. pose proof Hinv as [Hs He Hd]. destruct ev as [ev| |i ev|i|i n|i n]; cbn [sys_step] in Es.
  - destruct (server_step (server s) ev) as [srv|] eqn:Esv; [|done]. cbn [mbind option_bind] in Es.
    destruct (match ev with SvCycle _ => _ | _ => _ end) as [es|] eqn:Ees; [|done].
    injection Es as <-. by eapply sys_server_inv.
  - injection Es as <-. split; cbn; [done|..].
    + intros i e [[_ Hi]|[_ <-]]%lookup_snoc_Some; [eauto|apply endpoint_init_inv].
    + intros i j e f q [[_ Hi]|[_ <-]]%lookup_snoc_Some [[_ Hj]|[_ <-]]%lookup_snoc_Some; try done. eauto.
  - destruct (ends s !! i) as [e|] eqn:Hi; [|done]. cbn in Es.
    destruct (client_step (client e) ev) as [c|] eqn:Ec; [|done]. cbn in Es.
    destruct (client_io (client e) ev (up e) (down e)) as [ud|] eqn:Eio; [|done]. cbn in Es. injection Es as <-.
    apply sys_inv_update with e; try done. eapply end_inv_client; eauto.
  - destruct (ends s !! i) as [e|] eqn:Hi; [|done]. cbn [mbind option_bind] in Es.
    destruct (peer e) eqn:Hp, (reaching (client e)); try done.
    destruct (server_step (server s) (SvCycle (CAccept true))) as [srv|] eqn:Esv; [|done].
    injection Es as <-. by eapply sys_accept_inv.
  - destruct (ends s !! i) as [e|] eqn:Hi; [|done]. cbn in Es.
    destruct (pump n (up e)) as [p|] eqn:Ep; [|done]. cbn in Es. injection Es as <-.
    apply sys_inv_update with e; try done. eapply end_inv_up; eauto.
  - destruct (ends s !! i) as [e|] eqn:Hi; [|done]. cbn in Es.
    destruct (pump n (down e)) as [p|] eqn:Ep; [|done]. cbn in Es. injection Es as <-.
    apply sys_inv_update with e; try done. eapply end_inv_down; eauto.
Qed.

Lemma sys_reachable_inv s : sys_reachable s -> sys_inv s.
Proof.
  intros Hr. eapply (steps_invariant sys_step sys_inv); [|exact Hr|]; [eauto using sys_step_inv|].
  split; cbn; [apply rtc_refl|done..].
Qed.

(** ** What has arrived where *)

(** What the server answered on the connection of an end. *)
Definition answers_to (srv : RpcServer (X := X)) (e : endpoint) : list answer :=
  match peer e with Some q => answers_on q (answers srv) | None => [] end.

(** Ids do not repeat, and requests and responses fit their frames. *)
Record fits (srv : RpcServer (X := X)) (e : endpoint) : Prop := {
  fit_calls : len (requests (client e)) <= 2 ^ 32;
  fit_requests : Forall request_fits (requests (client e));
  fit_responses : Forall (fun a => forall resp, an_out a = Ok resp -> response_fits resp) (answers_to srv e)
}.

(** Requests the server has been given are calls, in the order queued. *)
Lemma delivered_calls srv e :
  end_inv srv e -> Forall request_fits (requests (client e)) ->
  exists fs, delivered (peer_conn srv e) `prefix_of` fs /\
    concat (frame_data <$> pushed (client e)) = stream fs /\ Forall frame_wf fs /\
    Forall2 (fun it f => exists p req, requests (client e) !! p = Some req /\
      item_seq_id it = call_id p /\ f = call_message p req) (pushed (client e)) fs.
Proof.
  intros He Hfits. destruct (pushed_frames (client e) (en_client _ _ He) Hfits) as (fs & Efs & Hfs & Hall).
  exists fs. split_and!; try done. destruct (en_server_reads _ _ He) as (part & Ht & _).
  apply stream_prefix; [apply Ht|done|]. rewrite <- Efs.
  etransitivity; [|exact (pi_prefix _ _ _ (en_up _ _ He))].
  rewrite (took_sent _ _ _ Ht). by eexists.
Qed.

(** The ids of those requests, each at most once. *)
Lemma delivered_ids srv e :
  end_inv srv e -> fits srv e -> NoDup ((fun m => seq_id m.1) <$> delivered (peer_conn srv e)).
Proof.
  intros He [Hn Hfits _]. destruct (delivered_calls srv e He Hfits) as (fs & [r Hr] & _ & _ & Hall).
  assert ((fun m => seq_id m.1) <$> fs = item_seq_id <$> pushed (client e)) as Eids.
  { clear Hr. induction Hall as [|it f l fs (p & req & _ & Hid & ->) _ IH]; [done|]. cbn. by rewrite Hid, <- IH. }
  pose proof (pushed_ids_nodup _ (en_client _ _ He) Hn) as Hnd. unfold wire_ids in Hnd.
  apply NoDup_app in Hnd as (Hnd & _). rewrite <- Eids, Hr, fmap_app in Hnd.
  by apply NoDup_app in Hnd as (Hnd & _).
Qed.

Lemma answers_delivered srv e :
  server_reachable srv -> (forall q, peer e = Some q -> is_Some (heap (cycle_ srv) !! q)) ->
  (fun a => (an_task a).2) <$> answers_to srv e ⊆+ delivered (peer_conn srv e).
Proof.
  intros Hr Hp. unfold answers_to. destruct (peer e) as [q|] eqn:Hq; [|apply submseteq_nil_l].
  destruct (Hp q eq_refl) as [k Hk]. rewrite (peer_conn_some srv e q k Hq Hk).
  apply answered_delivered; [by apply server_reachable_inv|done].
Qed.

(** The frame of an answer. *)
Definition frame_of (a : answer) (f : frame) : Prop :=
  an_sent a = true /\ response_to (an_task a).2.1 (an_out a) = Ok f.

Lemma frame_of_spec a f :
  frame_of a f -> header_wf (an_task a).2.1 -> (forall resp, an_out a = Ok resp -> response_fits resp) ->
  exists resp, an_out a = Ok resp /\ frame_wf f /\ seq_id f.1 = seq_id (an_task a).2.1 /\
    response_deserialize f.2 = Ok resp.
Proof.
  intros [_ Hf] Hw Hfit. unfold response_to in Hf. destruct (an_out a) as [resp| |]; try done.
  specialize (Hfit resp eq_refl). cbn in Hf.
  destruct (response_frame (an_task a).2.1 resp Hfit) as (rh & Em & Hfw & Hseq & _);
    [apply Hw|apply Hw|]. rewrite Em in Hf. injection Hf as <-.
  exists resp. split_and!; try done. cbn. apply response_decode_own. apply Hfit.
Qed.

(** What the server has queued for the client are the frames of its answers. *)
Lemma pushed_answers srv e :
  server_reachable srv -> (forall q, peer e = Some q -> is_Some (heap (cycle_ srv) !! q)) ->
  Forall (fun d => exists a f, a ∈ answers_to srv e /\ frame_of a f /\ d = frame_bytes f)
    (Connection.pushed (peer_conn srv e)).
Proof.
  intros Hr Hp. unfold answers_to. destruct (peer e) as [q|] eqn:Hq.
  2: { by rewrite peer_conn_none. }
  destruct (Hp q eq_refl) as [k Hk]. rewrite (peer_conn_some srv e q k Hq Hk).
  pose proof (cs_sent _ _ _ (si_conn srv (server_reachable_inv srv Hr) q k Hk)) as Hs.
  apply Forall_forall. intros d Hd.
  assert (d ∈ sent_on q srv) as (a & Hda & Ha)%list_elem_of_bind.
  { rewrite <- Hs. apply elem_of_app. auto. }
  exists a. unfold answer_bytes in Hda. unfold frame_of. destruct (an_sent a); [|by apply elem_of_nil in Hda].
  destruct (response_to _ _) as [[rh rb]| |]; [|by apply elem_of_nil in Hda..].
  apply list_elem_of_singleton in Hda as ->. by exists (rh, rb).
Qed.

(** A request that was answered: a call of this client. *)
Lemma answered_own srv e a :
  server_reachable srv -> end_inv srv e -> Forall request_fits (requests (client e)) -> a ∈ answers_to srv e ->
  answer_ok a /\ exists p req, requests (client e) !! p = Some req /\
    (an_task a).2 = call_message p req /\ header_wf (an_task a).2.1 /\
    an_out a = process_dispatch req (an_manager a) RpcResponse_init.
Proof.
  intros Hr He Hfits Ha.
  assert (answer_ok a) as Hok.
  { unfold answers_to in Ha. destruct (peer e) as [q|]; [|by apply elem_of_nil in Ha].
    pose proof (answers_on_ok srv q (server_reachable_inv srv Hr)) as Hall. rewrite Forall_forall in Hall. auto. }
  split; [done|].
  pose proof (answers_delivered srv e Hr (en_peer _ _ He)) as Hsub.
  assert ((an_task a).2 ∈ delivered (peer_conn srv e)) as Hin.
  { eapply elem_of_submseteq; [|exact Hsub]. apply list_elem_of_fmap. eauto. }
  destruct (delivered_calls srv e He Hfits) as (fs & [r Hpre] & _ & Hfs & Hall).
  assert ((an_task a).2 ∈ fs) as Hin' by (rewrite Hpre; apply elem_of_app; auto).
  rewrite Forall_forall in Hfs. destruct (Hfs _ Hin') as (Hw & _).
  apply list_elem_of_lookup in Hin' as [j Hj].
  destruct (Forall2_lookup_r _ _ _ _ _ Hall Hj) as (it & _ & p & req & Hreq & _ & Em).
  exists p, req. split_and!; try done. rewrite Hok, Em. cbn [call_message fst snd].
  rewrite Forall_lookup in Hfits. destruct (Hfits _ _ Hreq) as [Hwf _].
  unfold process_request. cbn [call_header msg_type]. by rewrite request_decode_own.
Qed.

Lemma answered_call srv e a :
  server_reachable srv -> end_inv srv e -> fits srv e -> a ∈ answers_to srv e ->
  answer_ok a /\ exists p req, requests (client e) !! p = Some req /\
    (an_task a).2 = call_message p req /\ header_wf (an_task a).2.1 /\
    an_out a = process_dispatch req (an_manager a) RpcResponse_init.
Proof. intros Hr He Hfit. by apply answered_own, Hfit. Qed.

(** Frames the client has read are frames of answers. *)
Lemma got_answers srv e :
  server_reachable srv -> end_inv srv e -> fits srv e ->
  exists fs, got (client e) `prefix_of` fs /\
    concat (id <$> Connection.pushed (peer_conn srv e)) = stream fs /\ Forall frame_wf fs /\
    Forall2 (fun d f => exists a, a ∈ answers_to srv e /\ frame_of a f /\ d = frame_bytes f)
      (Connection.pushed (peer_conn srv e)) fs.
Proof.
  intros Hr He Hfit. pose proof (pushed_answers srv e Hr (en_peer _ _ He)) as Hp.
  assert (exists fs, concat (id <$> Connection.pushed (peer_conn srv e)) = stream fs /\ Forall frame_wf fs /\
    Forall2 (fun d f => exists a, a ∈ answers_to srv e /\ frame_of a f /\ d = frame_bytes f)
      (Connection.pushed (peer_conn srv e)) fs) as (fs & Efs & Hfs & Hall).
  { induction Hp as [|d l (a & f & Ha & Hf & ->) _ (fs & Efs & Hfs & Hall)]; [by exists []|].
    destruct (answered_call srv e a Hr He Hfit Ha) as (_ & p & req & _ & _ & Hw & _).
    pose proof (fit_responses _ _ Hfit) as Hresp. rewrite Forall_forall in Hresp.
    destruct (frame_of_spec a f Hf Hw (Hresp a Ha)) as (resp & _ & Hfw & _).
    exists (f :: fs). split_and!; [by rewrite fmap_cons; cbn [concat]; rewrite Efs|by constructor|].
    constructor; [by exists a|done]. }
  exists fs. split_and!; try done. destruct (en_client_reads _ _ He) as (part & Ht & _).
  apply stream_prefix; [apply Ht|done|]. rewrite <- Efs.
  etransitivity; [|exact (pi_prefix _ _ _ (en_down _ _ He))].
  rewrite (took_sent _ _ _ Ht). by eexists.
Qed.

(** The server's executions of call number [p] of an end. *)
Definition executions (srv : RpcServer (X := X)) (e : endpoint) (p : nat) : list answer :=
  filter (fun a => seq_id (an_task a).2.1 = call_id p) (answers_to srv e).

Lemma executions_at_most_once srv e p :
  server_reachable srv -> end_inv srv e -> fits srv e -> (length (executions srv e p) <= 1)%nat.
Proof.
  intros Hr He Hfit. unfold executions.
  apply (filter_key_at_most_one (fun a => seq_id (an_task a).2.1)).
  pose proof (answers_delivered srv e Hr (en_peer _ _ He)) as Hsub.
  apply (fmap_submseteq (fun m => seq_id m.1)) in Hsub. rewrite <- list_fmap_compose in Hsub.
  apply submseteq_Permutation in Hsub as [r Hperm].
  pose proof (delivered_ids srv e He Hfit) as Hnd. rewrite Hperm in Hnd. by apply NoDup_app in Hnd as (? & _).
Qed.

(** Frames read have ids of frames queued. *)
Lemma got_ids srv e f :
  server_reachable srv -> end_inv srv e -> fits srv e -> f ∈ got (client e) ->
  seq_id f.1 ∈ item_seq_id <$> pushed (client e).
Proof.
  intros Hr He Hfit Hf. destruct (got_answers srv e Hr He Hfit) as (fs & [t Hpre] & _ & Hfs & Hall).
  assert (f ∈ fs) as [j Hj]%list_elem_of_lookup by (rewrite Hpre; apply elem_of_app; auto).
  destruct (Forall2_lookup_r _ _ _ _ _ Hall Hj) as (d & _ & a & Ha & Hfr & _).
  destruct (answered_call srv e a Hr He Hfit Ha) as (_ & _ & _ & _ & _ & Hw & _).
  pose proof (fit_responses _ _ Hfit) as Hresp. rewrite Forall_forall in Hresp.
  destruct (frame_of_spec a f Hfr Hw (Hresp a Ha)) as (_ & _ & _ & -> & _).
  destruct (delivered_calls srv e He (fit_requests _ _ Hfit)) as (us & [t' Hup] & _ & _ & Hups).
  assert ((an_task a).2 ∈ delivered (peer_conn srv e)) as Hin.
  { eapply elem_of_submseteq; [|apply (answers_delivered srv e Hr (en_peer _ _ He))].
    apply list_elem_of_fmap. eauto. }
  assert ((an_task a).2 ∈ us) as [m Hm]%list_elem_of_lookup by (rewrite Hup; apply elem_of_app; auto).
  destruct (Forall2_lookup_r _ _ _ _ _ Hups Hm) as (it & Hit & p & req & _ & Hid & ->).
  apply list_elem_of_fmap. exists it. split; [done|]. by eapply list_elem_of_lookup_2.
Qed.

(** The histories of answers and refusals only grow. *)
Definition grows (s s' : RpcServer (X := X)) : Prop :=
  answers s `prefix_of` answers s' /\ refused s `prefix_of` refused s'.

Lemma grows_same s s' : answers s' = answers s -> refused s' = refused s -> grows s s'.
Proof. intros E1 E2. unfold grows. by rewrite E1, E2. Qed.

Lemma grows_trans a b c : grows a b -> grows b c -> grows a c.
Proof. intros [? ?] [? ?]. split; by etransitivity. Qed.

Lemma process_and_send_grows t (s s' : RpcServer (X := X)) : process_and_send t s = Some s' -> grows s s'.
Proof.
  unfold process_and_send. destruct t as [p [h b]]. intros Es.
  destruct (heap (cycle_ s) !! p) as [k|]; [|done]. cbn [mbind option_bind] in Es.
  destruct (response_to h _) as [[rh rb]| |]; [|injection Es as <-; split; [by eexists|done]..].
  destruct (conn_event_on p (EvSend rh rb) (cycle_ s)) as [c|]; [|done]. cbn in Es.
  injection Es as <-. split; [by eexists|done].
Qed.

Lemma callback_ends_same p r (s s' : RpcServer (X := X)) :
  callback_ends p r s = Some s' -> answers s' = answers s /\ refused s' = refused s.
Proof.
  unfold callback_ends. destruct (conn_event_on p (EvCallback r) (cycle_ s)); [|done]. cbn.
  intros Es. by injection Es as <-.
Qed.

Lemma callback_ends_grows p r (s s' : RpcServer (X := X)) : callback_ends p r s = Some s' -> grows s s'.
Proof. intros [? ?]%callback_ends_same. by apply grows_same. Qed.

Lemma on_message_grows p (s s' : RpcServer (X := X)) : on_message p s = Some s' -> grows s s'.
Proof.
  unfold on_message. intros Es. destruct (heap (cycle_ s) !! p) as [k|]; [|done]. cbn in Es.
  destruct (reading k); try done. destruct (bool_decide _); [done|].
  destruct (thread_pool_ s) as [x|].
  - destruct (ex_submit _ x) as [x'|]; apply callback_ends_same in Es as [E1 E2];
      unfold grows; rewrite E1, E2; split; cbn; try done. by eexists.
  - destruct (process_and_send _ _) as [s1|] eqn:Ep; [|done]. cbn in Es.
    apply process_and_send_grows in Ep. destruct (response_to h _) as [m| |].
    + injection Es as <-. exact Ep.
    + exact (grows_trans _ _ _ Ep (callback_ends_grows _ _ _ _ Es)).
    + exact (grows_trans _ _ _ Ep (callback_ends_grows _ _ _ _ Es)).
Qed.

Lemma server_step_grows s ev s' : server_step s ev = Some s' -> grows s s'.
Proof.
  intros Es. destruct ev as [|op|port failing| |cev|p|i|x]; [| |apply start_step in Es|..]; cbn in Es.
  - destruct (heap (cycle_ s)), (thread_pool_ s); simplify_eq. by apply grows_same.
  - simplify_eq. by apply grows_same.
  - destruct Es as (on & a & ch & -> & _). by apply grows_same.
  - simplify_eq. by apply grows_same.
  - destruct (server_only cev); [done|]. destruct (cycle_step (cycle_ s) cev); [|done]. simplify_eq/=.
    by apply grows_same.
  - by eapply on_message_grows.
  - unfold reply_done in Es. destruct (replying s !! i) as [p|]; [|done]. cbn in Es.
    destruct (heap (cycle_ s) !! p) as [k|]; [|done]. cbn in Es.
    destruct (senders k); [|done]. by apply callback_ends_grows in Es.
  - destruct (thread_pool_ s) as [y|]; [|done]. cbn in Es.
    destruct (ex_step y x) as [y'|]; [|done]. cbn in Es.
    destruct (ex_runs y x) as [t|]; [|simplify_eq; by apply grows_same].
    by apply process_and_send_grows in Es.
Qed.

Lemma answers_to_mono srv srv' e :
  grows srv srv' -> answers_to srv e `prefix_of` answers_to srv' e.
Proof.
  intros [[r Hr] _]. unfold answers_to. destruct (peer e) as [q|]; [|done].
  rewrite Hr. unfold answers_on. rewrite filter_app. by eexists.
Qed.

(** An end after a step, and before it. *)
Lemma sys_step_end s ev s' i e' :
  sys_step s ev = Some s' -> ends s' !! i = Some e' ->
  (ends s !! i = None /\ client e' = RpcClient_init) \/
  exists e, ends s !! i = Some e /\ answers_to (server s) e `prefix_of` answers_to (server s') e' /\
    (client e' = client e \/ exists cev, client_step (client e) cev = Some (client e')).
Proof.
  intros Es Hi. destruct ev as [ev| |j ev|j|j n|j n]; cbn [sys_step] in Es.
  - right. destruct (server_step (server s) ev) as [srv|] eqn:Esv; [|done]. cbn [mbind option_bind] in Es.
    apply server_step_grows in Esv.
    assert (forall e, answers_to (server s) e `prefix_of` answers_to srv e) as Hans
      by (intros; by apply answers_to_mono).
    destruct (match ev with SvCycle _ => _ | _ => _ end) as [es|] eqn:Ees; [|done].
    injection Es as <-. cbn in *.
    assert (es = ends s \/ exists j e ud, ends s !! j = Some e /\ es = <[j := set_pipes ud e]> (ends s))
      as [->|(j & e & ud & Hj & ->)].
    { destruct ev as [| | | |[| | | | | |q cev| | | |]| | |]; try (left; congruence).
      unfold server_io in Ees. destruct (find_end q (ends s)) as [[j e]|] eqn:Ef; [right|left; congruence].
      destruct (heap (cycle_ (server s)) !! q) as [k|]; [|done]. cbn in Ees.
      destruct (conn_io k cev (up e) (down e)) as [ud|]; [|done]. cbn in Ees. injection Ees as <-.
      destruct (find_end_spec _ _ _ _ Ef). by exists j, e, ud. }
    + exists e'. auto.
    + apply list_lookup_insert_Some in Hi as [(<- & <- & _)|[_ Hi]]; [exists e|exists e']; auto.
      split_and!; [done|exact (Hans e)|by left].
  - injection Es as <-. cbn in Hi. apply lookup_snoc_Some in Hi as [[_ Hi]|[-> <-]]; [right; exists e'; auto|].
    left. split; [|done]. by apply lookup_ge_None_2.
  - right. destruct (ends s !! j) as [e|] eqn:Hj; [|done]. cbn in Es.
    destruct (client_step (client e) ev) as [c|] eqn:Ec; [|done]. cbn in Es.
    destruct (client_io (client e) ev (up e) (down e)) as [ud|]; [|done]. cbn in Es. injection Es as <-.
    cbn in Hi. apply list_lookup_insert_Some in Hi as [(<- & <- & _)|[_ Hi]]; [exists e|exists e']; eauto 6.
  - right. destruct (ends s !! j) as [e|] eqn:Hj; [|done]. cbn [mbind option_bind] in Es.
    destruct (peer e) eqn:Hp, (reaching (client e)); try done.
    destruct (server_step (server s) (SvCycle (CAccept true))) as [srv|] eqn:Esv; [|done].
    apply server_step_grows in Esv. injection Es as <-. cbn in *.
    apply list_lookup_insert_Some in Hi as [(<- & <- & _)|[_ Hi]]; [exists e|exists e'].
    + split_and!; [done| |by left]. unfold answers_to at 1. rewrite Hp. apply prefix_nil.
    + split_and!; [done|by apply answers_to_mono|by left].
  - right. destruct (ends s !! j) as [e|] eqn:Hj; [|done]. cbn in Es.
    destruct (pump n (up e)) as [p|]; [|done]. cbn in Es. injection Es as <-.
    cbn in Hi. apply list_lookup_insert_Some in Hi as [(<- & <- & _)|[_ Hi]]; [exists e|exists e']; by auto.
  - right. destruct (ends s !! j) as [e|] eqn:Hj; [|done]. cbn in Es.
    destruct (pump n (down e)) as [p|]; [|done]. cbn in Es. injection Es as <-.
    cbn in Hi. apply list_lookup_insert_Some in Hi as [(<- & <- & _)|[_ Hi]]; [exists e|exists e']; by auto.
Qed.

Lemma sys_step_grows s ev s' : sys_step s ev = Some s' -> grows (server s) (server s').
Proof.
  intros Es. destruct ev as [ev| |j ev|j|j n|j n]; cbn [sys_step] in Es.
  - destruct (server_step (server s) ev) as [srv|] eqn:Esv; [|done]. cbn [mbind option_bind] in Es.
    destruct (match ev with SvCycle _ => _ | _ => _ end); [|done].
    injection Es as <-. by eapply server_step_grows.
  - injection Es as <-. by apply grows_same.
  - destruct (ends s !! j) as [e|]; [|done]. cbn in Es.
    destruct (client_step (client e) ev); [|done]. cbn in Es.
    destruct (client_io (client e) ev (up e) (down e)); [|done]. injection Es as <-. by apply grows_same.
  - destruct (ends s !! j) as [e|]; [|done]. cbn [mbind option_bind] in Es.
    destruct (peer e), (reaching (client e)); try done.
    destruct (server_step (server s) (SvCycle (CAccept true))) as [srv|] eqn:Esv; [|done].
    injection Es as <-. by eapply server_step_grows.
  - destruct (ends s !! j) as [e|]; [|done]. cbn in Es.
    destruct (pump n (up e)); [|done]. injection Es as <-. by apply grows_same.
  - destruct (ends s !! j) as [e|]; [|done]. cbn in Es.
    destruct (pump n (down e)); [|done]. injection Es as <-. by apply grows_same.
Qed.

(** What fits had fitted before. *)
Lemma fits_before srv e srv' e' :
  answers_to srv e `prefix_of` answers_to srv' e' ->
  requests (client e) `prefix_of` requests (client e') -> fits srv' e' -> fits srv e.
Proof.
  intros [r Hr] [t Ht] [H1 H2 H3]. rewrite Hr in H3. rewrite Ht in H1, H2. split.
  - unfold len in *. rewrite length_app in H1. lia.
  - by apply Forall_app in H2 as [? _].
  - by apply Forall_app in H3 as [? _].
Qed.

(** The table has no entry for an id that has been answered. *)
Definition answered_gone (e : endpoint) : Prop :=
  Forall (fun f => pending_ (client e) !! seq_id f.1 = None) (got (client e)).

Lemma answered_gone_step srv e ev c :
  server_reachable srv -> end_inv srv e -> fits srv e -> client_step (client e) ev = Some c ->
  answered_gone e -> Forall (fun f => pending_ c !! seq_id f.1 = None) (got c).
Proof.
  intros Hr He Hfit Ec Hg.
  assert (Forall (fun f => pending_ c !! seq_id f.1 = None) (got (client e))) as Hold.
  { apply Forall_forall. intros f Hf. unfold answered_gone in Hg. rewrite Forall_forall in Hg.
    destruct (pending_ c !! seq_id f.1) as [p|] eqn:Hp; [exfalso|done].
    destruct (client_step_table _ _ _ _ _ Ec Hp) as [Hp'|(i & q & req & _ & Hq)]; [rewrite Hg in Hp'; done|].
    pose proof (pushed_ids_nodup _ (en_client _ _ He) (fit_calls _ _ Hfit)) as Hnd.
    apply NoDup_app in Hnd as (_ & Hdis & _). apply (Hdis (seq_id f.1)); [by eapply got_ids|].
    apply list_elem_of_fmap. eexists. split; [|by eapply list_elem_of_lookup_2]. done. }
  destruct (client_step_got _ _ _ Ec) as [->|(h & b & -> & Hn)]; [done|].
  apply Forall_app. by split; [|constructor].
Qed.

Lemma answered_gone_reachable s i e :
  sys_reachable s -> ends s !! i = Some e -> fits (server s) e -> answered_gone e.
Proof.
  intros Hr. revert i e. refine (proj2 (steps_invariant sys_step (fun s => sys_inv s /\
    forall i e, ends s !! i = Some e -> fits (server s) e -> answered_gone e) _ _ _ Hr _));
    [|split; [apply sys_reachable_inv, rtc_refl|done]].
  intros a ev b [Ha IH] Es. split; [by eapply sys_step_inv|]. intros i e' Hi Hfit.
  destruct (sys_step_end _ _ _ _ _ Es Hi) as [[_ E0]|(e & Hi0 & Hans & [Ec|[cev Ec]])].
  - unfold answered_gone. by rewrite E0.
  - unfold answered_gone. rewrite Ec. apply (IH i e Hi0).
    eapply fits_before; [exact Hans| |exact Hfit]. by rewrite Ec.
  - assert (fits (server a) e) as Hfit0
      by (eapply fits_before; [exact Hans|by eapply client_step_requests|exact Hfit]).
    destruct Ha as [Hs He _]. eapply answered_gone_step; eauto.
Qed.

(** An execution is of the call's own request. *)
Lemma execution_request srv e p req a :
  server_reachable srv -> end_inv srv e -> fits srv e -> requests (client e) !! p = Some req ->
  a ∈ executions srv e p -> an_out a = process_dispatch req (an_manager a) RpcResponse_init.
Proof.
  intros Hr He Hfit Hreq [Hid Hin]%list_elem_of_filter.
  destruct (answered_call srv e a Hr He Hfit Hin) as (_ & q & req' & Hq & Em & _ & ->).
  assert (q = p) as ->; [|congruence]. rewrite Em in Hid.
  apply (call_id_inj (length (requests (client e)))); [by eapply lookup_lt_Some..|apply Hfit|done].
Qed.

Lemma execution_only srv e p a :
  server_reachable srv -> end_inv srv e -> fits srv e -> a ∈ executions srv e p -> executions srv e p = [a].
Proof.
  intros Hr He Hfit Ha. pose proof (executions_at_most_once srv e p Hr He Hfit) as Honce.
  destruct (executions srv e p) as [|b [|? ?]]; [by apply elem_of_nil in Ha| |cbn in Honce; lia].
  by apply list_elem_of_singleton in Ha as ->.
Qed.

(** A frame read that answers a call is the answer of its execution. *)
Lemma answered_execution srv e p r :
  server_reachable srv -> end_inv srv e -> fits srv e -> answered (got (client e)) p r ->
  exists a, executions srv e p = [a] /\ an_sent a = true /\ an_out a = Ok r.
Proof.
  intros Hr He Hfit (h & b & Hin & Hid & Hd).
  destruct (got_answers srv e Hr He Hfit) as (fs & [t Hpre] & _ & Hfs & Hall).
  assert ((h, b) ∈ fs) as [j Hj]%list_elem_of_lookup by (rewrite Hpre; apply elem_of_app; auto).
  destruct (Forall2_lookup_r _ _ _ _ _ Hall Hj) as (d & _ & a & Ha & Hf & _).
  destruct (answered_call srv e a Hr He Hfit Ha) as (_ & _ & _ & _ & _ & Hw & _).
  pose proof (fit_responses _ _ Hfit) as Hresp. rewrite Forall_forall in Hresp.
  destruct (frame_of_spec a (h, b) Hf Hw (Hresp a Ha)) as (resp & Hout & _ & Hseq & Hdec).
  cbn in Hseq, Hdec. exists a. split_and!; [|apply Hf|congruence].
  apply execution_only; try done. apply list_elem_of_filter. split; [congruence|done].
Qed.

(** ** What the pipes carry *)

(** A frame that is a request of client [c]: of a call it has made, under its id. *)
Definition request_typed (c : RpcClient) (f : frame) : Prop :=
  frame_wf f /\ msg_type f.1 = MsgType_value REQUEST /\
  exists p req, requests c !! p = Some req /\ seq_id f.1 = call_id p /\ request_deserialize f.2 = Ok req.

(** A frame that is a response to client [c], of the kind its error code calls for. *)
Definition response_typed (c : RpcClient) (f : frame) : Prop :=
  frame_wf f /\ exists p resp, (p < length (requests c))%nat /\ seq_id f.1 = call_id p /\
    response_deserialize f.2 = Ok resp /\
    msg_type f.1 = MsgType_value (if error_code resp =? 0 then RESPONSE else RPC_ERROR).

Lemma up_frames (srv : RpcServer (X := X)) e :
  end_inv srv e -> fits srv e -> exists fs, sent (up e) `prefix_of` stream fs /\
    delivered (peer_conn srv e) `prefix_of` fs /\ Forall frame_wf fs /\ Forall (request_typed (client e)) fs.
Proof.
  intros He Hfit. destruct (delivered_calls srv e He (fit_requests _ _ Hfit)) as (fs & Hpre & Efs & Hfs & Hall).
  exists fs. split_and!; try done; [rewrite <- Efs; apply (pi_prefix _ _ _ (en_up _ _ He))|].
  apply Forall_forall. intros f [j Hj]%list_elem_of_lookup.
  destruct (Forall2_lookup_r _ _ _ _ _ Hall Hj) as (it & _ & p & req & Hreq & _ & ->).
  rewrite Forall_lookup in Hfs. split_and!; [by eapply Hfs|done|]. exists p, req. split_and!; [done..|].
  pose proof (fit_requests _ _ Hfit) as Hq. rewrite Forall_lookup in Hq. by apply request_decode_own, (Hq p).
Qed.

Lemma down_frames (srv : RpcServer (X := X)) e :
  server_reachable srv -> end_inv srv e -> fits srv e -> exists fs, sent (down e) `prefix_of` stream fs /\
    got (client e) `prefix_of` fs /\ Forall frame_wf fs /\ Forall (response_typed (client e)) fs.
Proof.
  intros Hr He Hfit. destruct (got_answers srv e Hr He Hfit) as (fs & Hpre & Efs & Hfs & Hall).
  exists fs. split_and!; try done; [rewrite <- Efs; apply (pi_prefix _ _ _ (en_down _ _ He))|].
  pose proof (fit_responses _ _ Hfit) as Hresp. rewrite Forall_forall in Hresp.
  apply Forall_forall. intros f [j Hj]%list_elem_of_lookup.
  destruct (Forall2_lookup_r _ _ _ _ _ Hall Hj) as (d & _ & a & Ha & Hf & _).
  destruct (answered_call srv e a Hr He Hfit Ha) as (_ & p & req & Hreq & Em & Hw & _).
  destruct (frame_of_spec a f Hf Hw (Hresp a Ha)) as (resp & Hout & Hfw & Hseq & Hd).
  split; [done|]. exists p, resp. split_and!; [by eapply lookup_lt_Some|by rewrite Hseq, Em|done|].
  destruct Hf as [_ Hf]. unfold response_to in Hf. rewrite Hout in Hf. cbn in Hf. unfold response_message in Hf.
  destruct (response_serialize resp) as [b| |]; cbn in Hf; [|done..]. injection Hf as <-. cbn.
  by destruct (error_code resp =? 0).
Qed.

(** ** Theorems *)

(** C1: remote procedure calls, for any number of clients, any executor at the
    server and every schedule of threads, handlers and bytes.  The server runs
    each call of a client at most once, on the request the caller passed, with
    the services registered at that moment; and when the call's future is ready
    it holds the response of that one execution, unless it holds the client's own
    connection-closed error.  The clients' ids must not repeat ([2^32] calls) and
    the messages must fit their length fields. *)
Theorem calls_return_their_execution s i e p req :
  sys_reachable s -> ends s !! i = Some e -> fits (server s) e -> requests (client e) !! p = Some req ->
  (length (executions (server s) e p) <= 1)%nat /\
  Forall (fun a => an_out a = process_dispatch req (an_manager a) RpcResponse_init) (executions (server s) e p) /\
  forall r, promises (client e) !! p = Some (Ready r) ->
    (exists a, executions (server s) e p = [a] /\ an_sent a = true /\ an_out a = Ok r) \/
    exists reason, r = closed_response reason.
Proof.
  intros Hr Hi Hfit Hreq. destruct (sys_reachable_inv s Hr) as [Hs He _]. specialize (He i e Hi).
  split_and!; [by apply executions_at_most_once| |].
  - apply Forall_forall. intros a Ha. by eapply execution_request.
  - intros r Hp.
    destruct (cl_ready _ (client_reachable_inv _ (en_client _ _ He)) p _ Hp) as [Hans|Hcl]; [left|by right].
    by apply answered_execution.
Qed.

(** C5: the wire is typed.  At any moment the bytes a client has put on the wire are
    whole frames, the last one possibly cut short, each well formed (every field
    in its width, the magic number, the size of its body) and of type REQUEST,
    carrying under its id a request of a call that was made; and those the
    server has put there are well-formed responses, of type RPC_ERROR exactly
    when they carry an error code, under the id of a call that was made.  What
    each end has taken off is a prefix of these frames. *)
Theorem wire_well_typed s i e :
  sys_reachable s -> ends s !! i = Some e -> fits (server s) e ->
  (exists fs, sent (up e) `prefix_of` stream fs /\ delivered (peer_conn (server s) e) `prefix_of` fs /\
    Forall (request_typed (client e)) fs) /\
  (exists fs, sent (down e) `prefix_of` stream fs /\ got (client e) `prefix_of` fs /\
    Forall (response_typed (client e)) fs).
Proof.
  intros Hr Hi Hfit. destruct (sys_reachable_inv s Hr) as [Hs He _]. specialize (He i e Hi). split.
  - destruct (up_frames (server s) e He Hfit) as (fs & ? & ? & _ & ?). by exists fs.
  - destruct (down_frames (server s) e Hs He Hfit) as (fs & ? & ? & _ & ?). by exists fs.
Qed.
End server.
