(* ===== verification/RpcProgress.v ===== *)
(** * Nothing is forgotten

    When the system of [RpcSystem] has nothing left to do for a client whose
    connection is intact, every call of that client has been executed and its
    future holds the result; and it cannot go on doing things for ever. *)
From S2P Require Import Prelude WriteQueue Protocol ErrorCode ServiceManager Framing Connection.
From S2P Require Import ConnectionManager MessageCycle Executor ThreadPool RpcServer Wire EndToEnd.
From S2P Require Import RpcClient RpcSystem.
Import RpcServer RpcSystem.

#[local] Arguments request_bytes : simpl never.
#[local] Arguments response_bytes : simpl never.

Section progress.
Context {X E : Type} {HX : Executor task X E} {HR : ExecutorRests task X E}.

Abbreviation Sys := (System (X := X)).

(** ** The steps that carry a call on

    Everything that threads and handlers do by themselves for the client [i]
    and its connection [q], and the pool's threads: no new calls, no failures,
    no closing. *)
Definition client_carries (ev : client_event) : bool :=
  match ev with
  | KRegister _ | KEnqueue _ | KDoWrite _ | KIssue _ | KWritten _ None
  | KHeader (inr _) | KBody (inr _) | KMatch => true
  | _ => false
  end.

Definition conn_carries (ev : conn_event) : bool :=
  match ev with
  | EvHeader (Some _) | EvBody (Some _) | EvPush _ | EvDoWrite _ | EvIssue _ | EvWritten _ true => true
  | _ => false
  end.

Definition carries (i : nat) (q : conn_ptr) (s : Sys) (ev : sys_event (E := E)) : Prop :=
  match ev with
  | YClient j ev => j = i /\ client_carries ev = true
  | YUp j _ | YDown j _ => j = i
  | YServer (SvCycle (CConn q' ev)) => q' = q /\ conn_carries ev = true
  | YServer (SvMessage q') => q' = q
  | YServer (SvReplied j) => replying (server s) !! j = Some q
  | YServer (SvPool x) => ex_internal x = true
  | _ => False
  end.

(** The ones to try: the first thread in [call], the writers, the bytes that wait,
    the callback. *)
Definition next_events (i : nat) (q : conn_ptr) (s : Sys) : list (sys_event (E := E)) :=
  match ends s !! i with
  | None => []
  | Some e =>
      let conn ev := YServer (SvCycle (CConn q ev)) in
      let body_up := match reading (peer_conn (server s) e) with ReadingBody h => body_size h | _ => 0 end in
      let body_down := match reader (client e) with RBody h => body_size h | _ => 0 end in
      [YClient i (KRegister 0); YClient i (KEnqueue 0);
       YClient i (KDoWrite 0); YClient i (KIssue 0); YClient i (KWritten 0 None);
       YUp i (length (left (up e)));
       conn (EvHeader (Some (take 20 (incoming (up e)))));
       conn (EvBody (Some (take (Z.to_nat body_up) (incoming (up e)))));
       YServer (SvMessage q);
       conn (EvPush 0); conn (EvDoWrite 0); conn (EvIssue 0); conn (EvWritten 0 true);
       YDown i (length (left (down e)));
       YClient i (KHeader (inr (take 20 (incoming (down e)))));
       YClient i (KBody (inr (take (Z.to_nat body_down) (incoming (down e)))));
       YClient i KMatch] ++
      (YServer ∘ SvReplied <$> filter (fun j => replying (server s) !! j = Some q)
                                 (seq 0 (length (replying (server s))))) ++
      (YServer ∘ SvPool <$> match thread_pool_ (server s) with Some x => ex_next x | None => [] end)
  end.

Lemma next_carries i q (s : Sys) : Forall (carries i q s) (next_events i q s).
Proof.
  unfold next_events. destruct (ends s !! i) as [e|]; [|done].
  apply Forall_app. split; [repeat constructor|]. apply Forall_app. split; apply Forall_fmap.
  - apply Forall_forall. by intros j [Hj _]%list_elem_of_filter.
  - destruct (thread_pool_ (server s)); [|done]. apply ex_next_internal.
Qed.

(** None of them is possible. *)
Definition settled (i : nat) (q : conn_ptr) (s : Sys) : Prop :=
  Forall (fun ev => sys_step s ev = None) (next_events i q s).

Lemma settled_spec i q (s : Sys) ev : settled i q s -> ev ∈ next_events i q s -> sys_step s ev = None.
Proof. unfold settled. rewrite Forall_forall. auto. Qed.

(** Either that, or one of them is. *)
Lemma settled_or_moves i q (s : Sys) :
  settled i q s \/ exists ev s', carries i q s ev /\ sys_step s ev = Some s'.
Proof.
  pose proof (next_carries i q s) as Hc. unfold settled.
  induction (next_events i q s) as [|ev l IH]; [by left|].
  apply Forall_cons in Hc as [Hev Hc]. destruct (sys_step s ev) as [s'|] eqn:Es; [right; eauto|].
  destruct (IH Hc) as [?|?]; [left; by constructor|by right].
Qed.

(** The client is connected and nothing has failed on its connection. *)
Record healthy (srv : RpcServer (X := X)) (e : endpoint) (q : conn_ptr) : Prop := {
  hl_peer : peer e = Some q;
  hl_live : client_live (client e);
  hl_reader : reader (client e) <> RStopped /\ reader (client e) <> RNotStarted;
  hl_pipes : cut (up e) = false /\ cut (down e) = false;
  hl_conn : closed_ (peer_conn srv e) = false;
  hl_reading : reading (peer_conn srv e) <> ReadStopped /\ reading (peer_conn srv e) <> NotReading
}.

(** ** What is possible *)

Lemma client_moves (s : Sys) i e ev c :
  ends s !! i = Some e -> client_step (client e) ev = Some c ->
  is_Some (client_io (client e) ev (up e) (down e)) -> sys_step s (YClient i ev) <> None.
Proof.
  intros Hi Ec [ud Eio]. cbn. rewrite Hi. cbn. rewrite Ec. cbn. rewrite Eio. by cbn.
Qed.

Lemma up_moves (s : Sys) i e :
  ends s !! i = Some e -> cut (up e) = false -> left (up e) <> [] ->
  sys_step s (YUp i (length (left (up e)))) <> None.
Proof.
  intros Hi Hc Hl. cbn. rewrite Hi. cbn. unfold pump. rewrite Hc, firstn_all. by destruct (left (up e)).
Qed.

Lemma down_moves (s : Sys) i e :
  ends s !! i = Some e -> cut (down e) = false -> left (down e) <> [] ->
  sys_step s (YDown i (length (left (down e)))) <> None.
Proof.
  intros Hi Hc Hl. cbn. rewrite Hi. cbn. unfold pump. rewrite Hc, firstn_all. by destruct (left (down e)).
Qed.

Lemma conn_moves (s : Sys) i e q k cev k' :
  sys_inv s -> ends s !! i = Some e -> peer e = Some q -> heap (cycle_ (server s)) !! q = Some k ->
  conn_carries cev = true -> conn_step k cev = Some k' -> is_Some (conn_io k cev (up e) (down e)) ->
  sys_step s (YServer (SvCycle (CConn q cev))) <> None.
Proof.
  intros Hinv Hi Hq Hk Hcc Ek [ud Eio]. cbn [sys_step server_step].
  assert (server_only (CConn q cev) = false) as -> by by destruct cev as [| | | | | | | | |].
  assert (is_start cev = false) as Hst by by destruct cev.
  assert (is_Some (cycle_step (cycle_ (server s)) (CConn q cev))) as [c ->].
  { cbn. rewrite Hst. unfold conn_event_on. rewrite Hk, Ek. by eexists. }
  cbn [mbind option_bind]. unfold server_io.
  destruct (find_end q (ends s)) as [[j f]|] eqn:Ef.
  - destruct (find_end_spec _ _ _ _ Ef) as [Hj Hf].
    assert (j = i) as -> by (by eapply (sy_distinct _ Hinv)). assert (f = e) as -> by congruence.
    rewrite Hk. cbn [mbind option_bind]. by rewrite Eio.
  - by destruct (find_end_none _ _ _ _ Ef Hi).
Qed.

(** A writer at rest whose outstanding write could still move. *)
Lemma single_activity {I} stop (qu : wq I) :
  wq_inv stop qu -> wq_active qu = [] \/ exists a, wq_active qu = [a].
Proof.
  intros Hq. pose proof (inv_single _ _ Hq) as Hl. destruct (wq_active qu) as [|a [|? ?]]; [by left|by right; eexists|].
  cbn in Hl. lia.
Qed.

Lemma receive_some b p : b `prefix_of` incoming p -> is_Some (receive b p).
Proof. intros Hb. unfold receive. rewrite bool_decide_eq_true_2 by done. by eexists. Qed.

Lemma stream_header_prefix m r : header_bytes m.1 `prefix_of` stream (m :: r).
Proof. rewrite <- (app_nil_r (stream _)), stream_cons. by eexists. Qed.

Lemma header_bytes_decode h : header_wf h -> deserialize_header (header_bytes h) = Ok h.
Proof. intros Hw. rewrite <- (app_nil_r (header_bytes h)). by apply header_deserialize_bytes. Qed.

(** Whole frames after whole frames and a header: the header is the next one's. *)
Lemma stream_after ms fs part inc :
  ms `prefix_of` fs -> stream fs = stream ms ++ part ++ inc ->
  exists r, fs = ms ++ r /\ stream r = part ++ inc.
Proof.
  intros [r ->] E0. exists r. split; [done|]. rewrite stream_app in E0. by apply app_inv_head in E0.
Qed.

Lemma stream_body h r inc :
  header_wf h -> Forall frame_wf r -> stream r = header_bytes h ++ inc ->
  exists b r', r = (h, b) :: r' /\ inc = b ++ stream r' /\ len b = body_size h.
Proof.
  intros Hw Hr E0. destruct Hr as [|[h' b] r' Hm _].
  - pose proof (len_header_bytes h) as Hl. apply (f_equal len) in E0. rewrite len_app in E0.
    unfold stream in E0. cbn in E0. pose proof (len_nonneg inc). unfold len in E0, Hl. cbn in E0. lia.
  - destruct Hm as (Hw' & _ & Hs). rewrite <- (app_nil_r (stream _)), stream_cons in E0. cbn in E0.
    apply header_bytes_inj in E0 as [-> E0]; [|done..]. exists b, r'.
    rewrite app_nil_r in E0. by split_and!.
Qed.

Lemma take_header m r (inc : str) : stream (m :: r) = inc -> take 20 inc = header_bytes m.1.
Proof.
  intros <-. rewrite <- (app_nil_r (stream _)), stream_cons.
  pose proof (len_header_bytes m.1) as Hl. unfold len in Hl. apply take_app_length'. lia.
Qed.

Lemma take_body (b r : str) n : len b = n -> take (Z.to_nat n) (b ++ r) = b.
Proof. intros <-. unfold len. rewrite Nat2Z.id. apply take_app_length. Qed.

(** A waiting callback can always be taken: a pool accepts or refuses. *)
Lemma callback_moves (srv : RpcServer (X := X)) q k h b r :
  heap (cycle_ srv) !! q = Some k -> reading k = InCallback h b -> callback_ends q r srv <> None.
Proof. intros Hk Hrd. unfold callback_ends, conn_event_on. rewrite Hk. cbn. by rewrite Hrd. Qed.

Lemma process_and_send_moves (srv : RpcServer (X := X)) q k h b :
  heap (cycle_ srv) !! q = Some k -> is_Some (process_and_send (q, (h, b)) srv).
Proof.
  intros Hk. unfold process_and_send. rewrite Hk. cbn [mbind option_bind].
  destruct (response_to h _) as [[rh rb]| |]; [|by eexists..].
  unfold conn_event_on. rewrite Hk. cbn. unfold send_begin. rewrite header_serialize_bytes.
  destruct (closed_ k); by eexists.
Qed.

Lemma on_message_moves (srv : RpcServer (X := X)) q k h b :
  cycle_reachable (cycle_ srv) -> heap (cycle_ srv) !! q = Some k -> reading k = InCallback h b ->
  q ∉ replying srv -> on_message q srv <> None.
Proof.
  intros Hcy Hk Hrd Hn. unfold on_message. rewrite Hk. cbn [mbind option_bind].
  rewrite Hrd, bool_decide_eq_false_2 by done. cbv zeta.
  set (s1 := set_log _ _ _ _ srv).
  destruct (thread_pool_ s1) as [x|]; [destruct (ex_submit _ x); by eapply callback_moves|].
  destruct (process_and_send_moves s1 q k h b Hk) as [s2 Es2]. rewrite Es2. cbn [mbind option_bind].
  apply process_and_send_spec in Es2 as (k0 & k' & c & a & Hk0 & _ & Eh & -> & _ & _ & _ & [= Hr' _ _ _] & _);
    [|exact Hcy].
  assert (k0 = k) as -> by (cbn in Hk0; congruence).
  destruct (response_to h _); [done|..]; (eapply callback_moves; [|by rewrite Hr']);
    cbn; rewrite Eh; apply list_lookup_insert_eq; by eapply lookup_lt_Some.
Qed.

(** ** Where a settled system stands *)

Section settled.
Context (s : Sys) (i : nat) (e : endpoint) (q : conn_ptr).
Hypothesis (Hr : sys_reachable s) (Hi : ends s !! i = Some e).
Hypothesis (Hfit : fits (server s) e) (Hok : healthy (server s) e q) (Hset : settled i q s).

Local Ltac in_next :=
  unfold next_events; rewrite Hi; apply elem_of_app; left; repeat (constructor 1 || constructor 2).

Let srv := server s.
Let c := client e.
Let k := peer_conn srv e.

(** The body reads among the events to try. *)
Local Lemma next_body_up h :
  reading k = ReadingBody h ->
  YServer (SvCycle (CConn q (EvBody (Some (take (Z.to_nat (body_size h)) (incoming (up e))))))) ∈ next_events i q s.
Proof.
  unfold k, srv. intros Er. unfold next_events. rewrite Hi. cbv zeta. rewrite Er.
  apply elem_of_app; left; repeat (constructor 1 || constructor 2).
Qed.
Local Lemma next_body_down h :
  reader c = RBody h ->
  YClient i (KBody (inr (take (Z.to_nat (body_size h)) (incoming (down e))))) ∈ next_events i q s.
Proof.
  unfold c. intros Er. unfold next_events. rewrite Hi. cbv zeta. rewrite Er.
  apply elem_of_app; left; repeat (constructor 1 || constructor 2).
Qed.

Local Lemma s_inv : sys_inv s. Proof. by apply sys_reachable_inv. Qed.
Local Lemma s_end : end_inv srv e. Proof. by apply (sy_end _ s_inv i). Qed.
Local Lemma s_conn : heap (cycle_ srv) !! q = Some k.
Proof.
  destruct (en_peer _ _ s_end q (hl_peer _ _ _ Hok)) as [k' Hk].
  unfold k. by rewrite (peer_conn_some srv e q k' (hl_peer _ _ _ Hok) Hk).
Qed.

Local Lemma client_stuck ev c' :
  YClient i ev ∈ next_events i q s -> client_step c ev = Some c' -> is_Some (client_io c ev (up e) (down e)) -> False.
Proof.
  intros Hev Ec Eio. eapply client_moves; [exact Hi|exact Ec|exact Eio|]. by apply (settled_spec i q).
Qed.

Local Lemma conn_stuck ev k' :
  conn_carries ev = true -> YServer (SvCycle (CConn q ev)) ∈ next_events i q s -> conn_step k ev = Some k' -> is_Some (conn_io k ev (up e) (down e)) -> False.
Proof.
  intros Hev Hn Ek Eio. eapply conn_moves; [exact s_inv|exact Hi|apply Hok|exact s_conn|exact Hev|exact Ek|exact Eio|].
  by apply (settled_spec i q).
Qed.

(** No thread is inside [call]. *)
Local Lemma callers_done : callers c = [].
Proof.
  destruct (hl_live _ _ _ Hok) as [Ht _]. destruct (callers c) as [|x l] eqn:Ec; [done|exfalso].
  assert (callers c !! 0%nat = Some x) as Hx by by rewrite Ec.
  destruct x as [p sq req|sq req].
  - eapply (client_stuck (KRegister 0)); [in_next| |by eexists].
    unfold client_step. fold c in Ht. rewrite Ht. unfold call_register. by rewrite Hx.
  - pose proof (cl_callers c (client_reachable_inv c (en_client _ _ s_end))) as Hcs.
    rewrite Ec in Hcs. apply Forall_inv in Hcs as (p & -> & Hp).
    pose proof (fit_requests _ _ Hfit) as Hall. rewrite Forall_lookup in Hall.
    destruct (Hall _ _ Hp) as [Hw _]. pose proof (call_frame_bytes (call_id p) req Hw) as Ef.
    eapply (client_stuck (KEnqueue 0)); [in_next| |].
    + unfold client_step. fold c in Ht. rewrite Ht. unfold call_enqueue. by rewrite Hx, Ef.
    + unfold client_io. cbn. rewrite Hx, Ef. by eexists.
Qed.

(** The client's frames have all left. *)
Local Lemma client_written : sent (up e) = concat (frame_data <$> pushed c).
Proof.
  destruct (hl_live _ _ _ Hok) as [Ht Hio], (hl_pipes _ _ _ Hok) as [Hcut _]. fold c in Ht, Hio.
  pose proof (impl_inv (HI := client_write_queue) c (en_client _ _ s_end)) as Hq.
  destruct (single_activity _ _ Hq) as [Ha|([|x|x] & Ha)]; cbn in Ha.
  - pose proof (inv_fifo _ _ Hq) as Hf. rewrite (inv_quiet _ _ Hq) in Hf; [|done|].
    + cbn in Hf. rewrite Ha in Hf. unfold act_items in Hf. cbn in Hf. rewrite app_nil_r in Hf.
      by apply (pipe_all_sent _ _ _ (en_up _ _ s_end)).
    + destruct (wq_writing (client_wq c)) eqn:Ew; [|done]. by destruct (inv_idle _ _ Hq Ha Ew).
  - exfalso. eapply (client_stuck (KDoWrite 0)); [in_next| |by eexists].
    unfold client_step. rewrite Ht. unfold do_write. by rewrite Ha.
  - exfalso. eapply (client_stuck (KIssue 0)); [in_next| |].
    + unfold client_step. rewrite Ht. unfold issue_write. by rewrite Ha.
    + unfold client_io. cbn. rewrite Ha. by eexists.
  - exfalso. destruct (decide (left (up e) = [])) as [Hl|Hl].
    + eapply (client_stuck (KWritten 0 None)); [in_next| |].
      * unfold client_step. rewrite Ht, Hio. unfold write_done. by rewrite Ha.
      * unfold client_io. cbn. rewrite Hcut, bool_decide_eq_true_2 by done. by eexists.
    + apply (up_moves s i e Hi Hcut Hl), (settled_spec i q); [done|in_next].
Qed.

(** No response is on its way into the write queue, and all have left. *)
Local Lemma senders_done : senders k = [].
Proof.
  destruct (senders k) as [|d l] eqn:Es; [done|exfalso].
  eapply (conn_stuck (EvPush 0)); [done|in_next| |].
  - cbn. unfold send_push. by rewrite Es.
  - unfold conn_io. cbn. rewrite Es. by eexists.
Qed.

Local Lemma conn_written : sent (down e) = concat (id <$> Connection.pushed k).
Proof.
  destruct (hl_pipes _ _ _ Hok) as [_ Hcut]. pose proof (peer_conn_wq srv e (sy_server _ s_inv)) as Hq.
  fold k in Hq. destruct (single_activity _ _ Hq) as [Ha|([|x|x] & Ha)]; cbn in Ha.
  - pose proof (inv_fifo _ _ Hq) as Hf. rewrite (inv_quiet _ _ Hq) in Hf; [|done|].
    + cbn in Hf. rewrite Ha in Hf. unfold act_items in Hf. cbn in Hf. rewrite app_nil_r in Hf.
      by apply (pipe_all_sent _ _ _ (en_down _ _ s_end)).
    + destruct (wq_writing (conn_wq k)) eqn:Ew; [exfalso|done].
      destruct (inv_idle _ _ Hq Ha Ew) as (_ & x & [l Hx]%last_Some).
      pose proof (cycle_reachable_inv _ (si_cycle _ (server_reachable_inv _ (sy_server _ s_inv)))) as Hcy.
      pose proof (co_close _ _ _ (cy_conn _ Hcy q k s_conn)) as Hci.
      assert (closed_ k = false) as Hcl by apply Hok. rewrite (ci_failed _ Hci) in Hcl; [done|].
      exists x. change (Connection.handled k) with (wq_handled (conn_wq k)). rewrite Hx. set_solver.
  - exfalso. eapply (conn_stuck (EvDoWrite 0)); [done|in_next| |by eexists].
    cbn. unfold Connection.do_write. by rewrite Ha.
  - exfalso. eapply (conn_stuck (EvIssue 0)); [done|in_next| |].
    + cbn. unfold Connection.issue_write. by rewrite Ha.
    + unfold conn_io. cbn. rewrite Ha. by eexists.
  - exfalso. destruct (decide (left (down e) = [])) as [Hl|Hl].
    + eapply (conn_stuck (EvWritten 0 true)); [done|in_next| |].
      * cbn. unfold Connection.write_done. by rewrite Ha.
      * unfold conn_io. cbn. rewrite Hcut, bool_decide_eq_true_2 by done. by eexists.
    + apply (down_moves s i e Hi Hcut Hl), (settled_spec i q); [done|in_next].
Qed.

(** The pool has nothing left. *)
Local Lemma pool_rested : refused srv = [] -> pool_done srv.
Proof.
  intros Href. unfold pool_done. destruct (thread_pool_ srv) as [x|] eqn:Hx; [|done]. split; [|done].
  pose proof (server_reachable_inv _ (sy_server _ s_inv)) as Hsrv.
  pose proof (si_pool _ Hsrv) as Hp. fold srv in Hp, Hsrv. rewrite Hx in Hp. apply ex_rest; [apply Hp|].
  apply Forall_forall. intros ev Hev.
  assert (sys_step s (YServer (SvPool ev)) = None) as Hno.
  { apply (settled_spec i q); [done|]. unfold next_events. rewrite Hi. apply elem_of_app. right.
    apply elem_of_app. right. fold srv. rewrite Hx. apply list_elem_of_fmap. by exists ev. }
  destruct (ex_step x ev) as [x'|] eqn:Es; [exfalso|done].
  cbn in Hno. fold srv in Hno. rewrite Hx in Hno. cbn in Hno. rewrite Es in Hno. cbn in Hno.
  destruct (ex_runs x ev) as [[q' [h b]]|] eqn:Et; [|done].
  destruct (pool_runs_known _ _ _ _ _ Hsrv Hx Es Et) as [k' Hk'].
  destruct (process_and_send_moves (set_pool (Some x') srv) q' k' h b Hk') as [srv' E']. by rewrite E' in Hno.
Qed.

(** The callback is not running. *)
Local Lemma callback_over h b : reading k <> InCallback h b.
Proof.
  intros Er. destruct (decide (q ∈ replying srv)) as [Hin|Hn].
  - apply list_elem_of_lookup in Hin as [j Hj].
    assert (sys_step s (YServer (SvReplied j)) = None) as Hno.
    { apply (settled_spec i q); [done|]. unfold next_events. rewrite Hi. apply elem_of_app. right.
      apply elem_of_app. left. apply list_elem_of_fmap. exists j. split; [done|]. apply list_elem_of_filter. split; [done|].
      apply elem_of_seq. apply lookup_lt_Some in Hj. unfold srv in Hj. lia. }
    cbn in Hno. unfold reply_done in Hno. fold srv in Hno. rewrite Hj in Hno. cbn in Hno.
    rewrite s_conn in Hno. cbn in Hno. rewrite senders_done in Hno.
    unfold callback_ends, conn_event_on in Hno. cbn in Hno. rewrite s_conn in Hno. cbn in Hno.
    by rewrite Er in Hno.
  - assert (sys_step s (YServer (SvMessage q)) = None) as Hno by (apply (settled_spec i q); [done|in_next]).
    cbn in Hno. fold srv in Hno. destruct (on_message q srv) as [srv'|] eqn:Em; [done|].
    by destruct (on_message_moves srv q k h b (si_cycle _ (server_reachable_inv _ (sy_server _ s_inv))) s_conn Er Hn).
Qed.

(** The server has read everything. *)
Local Lemma server_read fs :
  delivered k `prefix_of` fs -> Forall frame_wf fs -> sent (up e) = stream fs ->
  delivered k = fs /\ reading k = ReadingHeader.
Proof.
  intros Hpre Hfs Es. destruct (en_server_reads _ _ s_end) as (part & Ht & Hp). fold k in Ht, Hp.
  pose proof (took_sent _ _ _ Ht) as Hst. rewrite Es in Hst.
  destruct (stream_after _ _ _ _ Hpre Hst) as (r & -> & Er). apply Forall_app in Hfs as [_ Hrw].
  assert (reading k <> ReadStopped /\ reading k <> NotReading) as [Hns Hnn] by apply Hok.
  destruct (reading k) as [| |h|h b|] eqn:Erd; try done.
  - split; [|done]. destruct Hp as [-> Hm]. destruct r as [|m r]; [by rewrite app_nil_r|exfalso].
    apply Forall_cons in Hrw as [Hm' _]. pose proof (len_header_bytes m.1) as Hl.
    eapply (conn_stuck (EvHeader (Some (header_bytes m.1)))); [done|rewrite <- (take_header _ _ _ Er); in_next| |].
    + cbn. rewrite Erd, Hl. cbn. rewrite header_bytes_decode by apply Hm'. destruct Hm' as (_ & -> & _).
      by rewrite Z.eqb_refl.
    + unfold conn_io. cbn. destruct (receive_some (header_bytes m.1) (up e)) as [p ->]; [|by eexists].
      cbn in Er. rewrite <- Er. apply stream_header_prefix.
  - exfalso. destruct Hp as (-> & Hw & Hm & Hon).
    destruct (stream_body h r _ Hw Hrw Er) as (b & r' & -> & Einc & Hlen).
    pose proof (next_body_up h Erd) as Hnext. rewrite Einc, (take_body _ _ _ Hlen) in Hnext.
    eapply (conn_stuck (EvBody (Some b))); [done|exact Hnext| |].
    + cbn. by rewrite Erd, Hlen, Z.eqb_refl.
    + unfold conn_io. cbn. destruct (receive_some b (up e)) as [p ->]; [|by eexists].
      rewrite Einc. by eexists.
  - by destruct (callback_over h b).
Qed.

(** ... and the client. *)
Local Lemma client_read fs :
  got c `prefix_of` fs -> Forall frame_wf fs -> Forall (fun f => len f.2 <= max_size) fs ->
  sent (down e) = stream fs -> got c = fs /\ reader c = RHeader.
Proof.
  intros Hpre Hfs Hmax Es. destruct (en_client_reads _ _ s_end) as (part & Ht & Hp). fold c in Ht, Hp.
  pose proof (took_sent _ _ _ Ht) as Hst. rewrite Es in Hst.
  destruct (stream_after _ _ _ _ Hpre Hst) as (r & -> & Er).
  apply Forall_app in Hfs as [_ Hrw]. apply Forall_app in Hmax as [_ Hmax].
  destruct (hl_live _ _ _ Hok) as [Htm Hio], (hl_reader _ _ _ Hok) as [Hns Hnn]. fold c in Htm, Hio, Hns, Hnn.
  destruct (reader c) as [| |h|p resp|] eqn:Erd; try done.
  - split; [|done]. subst part. destruct r as [|m r]; [by rewrite app_nil_r|exfalso].
    apply Forall_cons in Hrw as [Hm' _]. pose proof (len_header_bytes m.1) as Hl.
    eapply (client_stuck (KHeader (inr (header_bytes m.1)))); [rewrite <- (take_header _ _ _ Er); in_next| |].
    + unfold client_step. rewrite Htm, Erd, Hio. cbn. rewrite Hl. cbn.
      rewrite header_bytes_decode by apply Hm'. destruct Hm' as (_ & -> & _). by rewrite Z.eqb_refl.
    + unfold client_io. cbn. destruct (receive_some (header_bytes m.1) (down e)) as [p ->]; [|by eexists].
      cbn in Er. rewrite <- Er. apply stream_header_prefix.
  - exfalso. destruct Hp as (-> & Hw & Hm).
    destruct (stream_body h r _ Hw Hrw Er) as (b & r' & -> & Einc & Hlen).
    apply Forall_cons in Hmax as [Hb _]. pose proof (response_deserialize_cases b Hb) as Hd.
    assert (is_Some (body_done h (inr b) c)) as [c' Ec].
    { unfold body_done. destruct (response_deserialize b); [|by eexists|done].
      destruct (pending_ c !! seq_id h); by eexists. }
    pose proof (next_body_down h Erd) as Hnext. rewrite Einc, (take_body _ _ _ Hlen) in Hnext.
    eapply (client_stuck (KBody (inr b))); [exact Hnext| |].
    + unfold client_step. rewrite Htm, Erd, Hio. cbn [read_fits andb]. rewrite Hlen, Z.eqb_refl. exact Ec.
    + unfold client_io. cbn. destruct (receive_some b (down e)) as [p ->]; [|by eexists].
      rewrite Einc. by eexists.
  - exfalso. eapply (client_stuck KMatch); [in_next| |by eexists].
    unfold client_step. rewrite Htm. unfold match_done. by rewrite Erd.
Qed.

(** Every call has been queued, and so executed. *)
Local Lemma call_executed p req :
  refused srv = [] -> requests c !! p = Some req -> exists a, executions srv e p = [a].
Proof.
  intros Hdone%pool_rested Hreq. destruct (delivered_calls srv e s_end (fit_requests _ _ Hfit)) as (fs & Hpre & Efs & Hfs & Hall).
  destruct (server_read fs Hpre Hfs) as [Hdel Hrd]; [by rewrite client_written|].
  assert (call_message p req ∈ delivered k) as Hin.
  { assert (call_id p ∈ item_seq_id <$> pushed c) as (it & Hid & [j Hj]%list_elem_of_lookup)%list_elem_of_fmap.
    { pose proof (client_ids c (en_client _ _ s_end)) as Hids. unfold wire_ids in Hids.
      rewrite callers_done, app_nil_r in Hids. rewrite Hids. apply list_elem_of_fmap.
      exists p. split; [done|]. apply elem_of_seq. apply lookup_lt_Some in Hreq. lia. }
    destruct (Forall2_lookup_l _ _ _ _ _ Hall Hj) as (f & Hf & p' & req' & Hreq' & Hid' & ->).
    assert (p' = p) as ->.
    { apply (call_id_inj (length (requests c))); [by eapply lookup_lt_Some..|apply Hfit|congruence]. }
    assert (req' = req) as -> by (unfold c in *; congruence).
    rewrite Hdel. by eapply list_elem_of_lookup_2. }
  pose proof (answered_all srv q k (server_reachable_inv _ (sy_server _ s_inv)) s_conn Hdone) as Hperm.
  rewrite <- Hperm in Hin by (unfold untaken; by rewrite Hrd).
  apply list_elem_of_fmap in Hin as (a & Em & Ha). exists a.
  apply execution_only; [apply s_inv|apply s_end|done|]. apply list_elem_of_filter. split.
  - by rewrite <- Em.
  - unfold answers_to. by rewrite (hl_peer _ _ _ Hok).
Qed.

(** A response that exists has been read by the client. *)
Local Lemma response_read a r :
  a ∈ answers_to srv e -> an_out a = Ok r ->
  exists f, f ∈ got c /\ seq_id f.1 = seq_id (an_task a).2.1.
Proof.
  intros Ha Hout. pose proof s_inv as [Hs _ _].
  destruct (answered_call srv e a Hs s_end Hfit Ha) as (_ & _ & _ & _ & _ & Hw & _).
  pose proof (fit_responses _ _ Hfit) as Hresp. rewrite Forall_forall in Hresp.
  destruct (response_frame (an_task a).2.1 r (Hresp a Ha r Hout)) as (rh & Em & Hfw & Hseq & _);
    [apply Hw|apply Hw|].
  assert (response_to (an_task a).2.1 (an_out a) = Ok (rh, response_bytes r)) as Hro.
  { unfold response_to. rewrite Hout. exact Em. }
  exists (rh, response_bytes r). split; [|done].
  unfold answers_to in Ha. rewrite (hl_peer _ _ _ Hok) in Ha.
  pose proof (si_conn srv (server_reachable_inv _ Hs) q k s_conn) as Hc.
  assert (an_sent a = true) as Hsent.
  { destruct (an_sent a) eqn:Es; [done|exfalso].
    assert (closed_ k = false) as Hcl by apply Hok.
    pose proof (cs_unsent _ _ _ Hc Hcl) as Hun. rewrite Forall_forall in Hun.
    by apply (Hun a Ha Es (rh, response_bytes r)). }
  assert (frame_bytes (rh, response_bytes r) ∈ Connection.pushed k) as Hin.
  { pose proof (cs_sent _ _ _ Hc) as Hp. rewrite senders_done, app_nil_r in Hp. rewrite Hp.
    apply list_elem_of_bind. exists a. split; [|done]. unfold answer_bytes. rewrite Hsent, Hro.
    by apply list_elem_of_singleton. }
  destruct (got_answers srv e Hs s_end Hfit) as (fs & Hpre & Efs & Hfs & Hall).
  destruct (client_read fs Hpre Hfs) as [-> _]; [|by rewrite conn_written|].
  { eapply Forall_impl; [exact Hfs|]. intros f (Hwf & _ & <-). unfold header_wf, in_u in Hwf.
    unfold max_size. lia. }
  apply list_elem_of_lookup in Hin as [j Hj].
  destruct (Forall2_lookup_l _ _ _ _ _ Hall Hj) as (f & Hf & _ & _ & _ & Eb).
  assert (f = (rh, response_bytes r)) as <-; [|by eapply list_elem_of_lookup_2].
  rewrite Forall_lookup in Hfs. destruct (Hfs _ _ Hf) as (Hwf & _). destruct f as [fh fb].
  destruct Hfw as (Hrw & _). unfold frame_bytes in Eb. cbn in Eb, Hwf, Hrw.
  by apply header_bytes_inj in Eb as [-> ->].
Qed.

(** A call whose id the client has read an answer for is not waiting. *)
Local Lemma answered_ready p f :
  f ∈ got c -> seq_id f.1 = call_id p -> (p < length (requests c))%nat ->
  exists r, promises c !! p = Some (Ready r) /\ answered (got c) p r.
Proof.
  intros Hf Hid Hp. pose proof (client_reachable_inv c (en_client _ _ s_end)) as Hinv.
  rewrite (cl_len c Hinv) in Hp. apply lookup_lt_is_Some in Hp as [v Hv].
  assert (unfailed c) as Hun.
  { split_and!.
    - exact (pi_ok _ _ _ (en_up _ _ s_end) (proj1 (hl_pipes _ _ _ Hok))).
    - apply Hok.
    - destruct (hl_live _ _ _ Hok) as [_ Hio]. unfold io_runs in Hio.
      by apply andb_true_iff in Hio as [_ ?%negb_true_iff].
    - apply Hfit. }
  destruct (unfailed_answered c (en_client _ _ s_end) Hun p v Hv) as [->|(r & -> & Hr')]; [exfalso|eauto].
  apply (oi_waiting _ _ (cl_own c Hinv)) in Hv. unfold owners in Hv. rewrite callers_done in Hv. cbn in Hv.
  apply elem_of_app in Hv as [Hv|Hv].
  - unfold table_owned in Hv. apply list_elem_of_fmap in Hv as ([sq p'] & -> & Hv%elem_of_map_to_list).
    pose proof (cl_pending c Hinv _ _ Hv) as ->.
    pose proof (answered_gone_reachable s i e Hr Hi Hfit) as Hg. unfold answered_gone in Hg.
    rewrite Forall_forall in Hg. specialize (Hg f Hf). unfold c in *. cbn in Hid. congruence.
  - destruct (reader c) as [| | |p' resp|] eqn:Erd; try by apply elem_of_nil in Hv.
    eapply (client_stuck KMatch); [in_next| |by eexists].
    destruct (hl_live _ _ _ Hok) as [Ht _]. unfold client_step. fold c in Ht. rewrite Ht.
    unfold match_done. by rewrite Erd.
Qed.
End settled.

(** Nothing is forgotten.  In any reachable state in which nothing has failed on
    the connection of client [i], neither its threads and handlers nor the
    server's on that connection nor the pool's can take another step, and the pool
    refused nothing, every call the client ever made has been executed exactly once, and its future
    holds the response of that execution; the only calls left unanswered are
    those whose handler failed with something that is not a
    [std::runtime_error]. *)
Lemma call_settled s i e q p req :
  sys_reachable s -> ends s !! i = Some e -> fits (server s) e -> healthy (server s) e q ->
  settled i q s -> refused (server s) = [] -> requests (client e) !! p = Some req ->
  exists a, executions (server s) e p = [a] /\
    an_out a = process_dispatch req (an_manager a) RpcResponse_init /\
    forall r, an_out a = Ok r -> promises (client e) !! p = Some (Ready r).
Proof.
  intros Hr Hi Hfit Hok Hset Hdone Hreq. destruct (sys_reachable_inv s Hr) as [Hs He _].
  specialize (He i e Hi).
  destruct (call_executed s i e q Hr Hi Hfit Hok Hset p req Hdone Hreq) as [a Ea]. exists a.
  assert (a ∈ executions (server s) e p) as Hin by (rewrite Ea; by apply list_elem_of_singleton).
  split_and!; [done|by eapply execution_request|]. intros r Hout.
  apply list_elem_of_filter in Hin as [Hid Ha].
  destruct (response_read s i e q Hr Hi Hfit Hok Hset a r Ha Hout) as (f & Hf & Hseq).
  destruct (answered_ready s i e q Hr Hi Hfit Hok Hset p f Hf) as (r' & Hv & Hans);
    [congruence|by eapply lookup_lt_Some|].
  destruct (answered_execution (server s) e p r' Hs He Hfit Hans) as (a' & Ea' & _ & Hout').
  rewrite Ea in Ea'. injection Ea' as <-. congruence.
Qed.
End progress.
