(* ===== verification/RpcLiveness.v ===== *)
(** * Calls come to an end

    The steps that carry a call on cannot go on for ever: work only moves
    downstream, from the caller through the two write queues and pipes to the
    promise, so that a lexicographic measure of the stages decreases.  Together
    with [RpcProgress] this makes every call of an intact connection complete. *)
From S2P Require Import Prelude WriteQueue Protocol ErrorCode ServiceManager Framing Connection.
From S2P Require Import ConnectionManager MessageCycle Executor ThreadPool RpcServer Wire EndToEnd.
From S2P Require Import RpcClient RpcSystem RpcProgress.
Import RpcServer RpcSystem.

#[local] Arguments request_bytes : simpl never.
#[local] Arguments response_bytes : simpl never.
#[local] Arguments stop_reading : simpl never.
#[local] Arguments bs : simpl never.

(** ** Lexicographic order on lists of the same length *)

Fixpoint lex (a b : list nat) : Prop :=
  match a, b with
  | x :: a, y :: b => (x < y)%nat \/ x = y /\ lex a b
  | _, _ => False
  end.

Lemma lex_wf n l : length l = n -> Acc (fun a b => length a = length b /\ lex a b) l.
Proof.
  revert l. induction n as [|n IH]; intros l Hl.
  { destruct l; [|done]. constructor. intros a [_ Ha]. by destruct a. }
  destruct l as [|x l]; [done|]. injection Hl as Hl. revert l Hl.
  induction x as [x IHx] using lt_wf_ind. intros l Hl. specialize (IH l Hl) as Hacc.
  revert Hl. induction Hacc as [l _ IHl]. intros Hl. constructor. intros [|y a] [Ha Hlex]; [done|].
  injection Ha as Ha. destruct Hlex as [Hlt|[-> Hlex]].
  - apply IHx; [done|congruence].
  - apply IHl; [done|congruence].
Qed.

Section liveness.
Context {X E : Type} {HX : Executor task X E} {HR : ExecutorRests task X E}.

Abbreviation Sys := (System (X := X)).

(** ** The stages *)

Definition caller_weight (x : caller) : nat := match x with HasSeq _ _ _ => 2 | Registered _ _ => 1 end.

Definition conn_weight (busy : bool) (r : read_op) : nat :=
  match r with
  | ReadingBody _ => 4
  | InCallback _ _ => if busy then 2 else 3
  | ReadingHeader => 1
  | _ => 0
  end.

Definition reader_weight (r : reader_op) : nat :=
  match r with RBody _ => 3 | RMatched _ _ => 2 | RHeader => 1 | _ => 0 end.

Definition stages (q : conn_ptr) (srv : RpcServer (X := X)) (e : endpoint) : list nat :=
  let k := peer_conn srv e in
  [ sum_list (caller_weight <$> callers (client e));
    wq_measure (client_wq (client e));
    length (left (up e));
    4 * length (incoming (up e)) + conn_weight (bool_decide (q ∈ replying srv)) (reading k);
    match thread_pool_ srv with Some x => ex_work x | None => 0 end;
    length (senders k);
    wq_measure (conn_wq k);
    length (left (down e));
    4 * length (incoming (down e)) + reader_weight (reader (client e)) ]%nat.

(** One step that carries the calls of client [i] on. *)
Definition carry_step (i : nat) (q : conn_ptr) (s s' : Sys) : Prop :=
  exists ev, carries i q s ev /\ sys_step s ev = Some s'.

(** ** Each step lowers a stage and leaves those before it *)

Lemma sum_list_insert (l : list nat) j x y :
  l !! j = Some x -> (sum_list (<[j := y]> l) + x = sum_list l + y)%nat.
Proof.
  revert j. induction l as [|z l IH]; [done|]. intros [|j] Hj; [by cbn in *; simplify_eq; lia|].
  change (z + sum_list (<[j := y]> l) + x = z + sum_list l + y)%nat. specialize (IH j Hj). lia.
Qed.

Lemma sum_list_delete (l : list nat) j x : l !! j = Some x -> (sum_list (delete j l) + x = sum_list l)%nat.
Proof.
  revert j. induction l as [|z l IH]; [done|]. intros [|j] Hj; [by cbn in *; simplify_eq; lia|].
  change (z + sum_list (delete j l) + x = z + sum_list l)%nat. specialize (IH j Hj). lia.
Qed.

Lemma receive_incoming b p p' :
  receive b p = Some p' -> length (incoming p) = (length b + length (incoming p'))%nat /\ left p' = left p.
Proof.
  unfold receive. case_bool_decide as Hb; [|done]. intros [= <-]. split; [|done].
  destruct Hb as [r Hr]. unfold incoming in *. cbn. rewrite Hr, length_app. f_equal.
  rewrite <- drop_drop, Hr, drop_app_length. done.
Qed.

Lemma pump_left n p p' :
  pump n p = Some p' -> (length (left p') < length (left p))%nat.
Proof.
  unfold pump. destruct (cut p); [done|]. destruct (take n (left p)) as [|b l] eqn:Et; [done|].
  intros [= <-]. cbn. rewrite length_drop. destruct n; [done|]. destruct (left p); [done|]. cbn. lia.
Qed.

(** Reading: the client's last stage. *)
Lemma stop_reading_frame reason c :
  client_wq (stop_reading reason c) = client_wq c /\ callers (stop_reading reason c) = callers c /\
  reader (stop_reading reason c) = RStopped.
Proof.
  destruct (fold_set_value_frame (closed_response reason) ((map_to_list (pending_ c)).*2)
    (set_reader RStopped (got c) c)) as (E1 & E2 & E3 & _). by split_and!.
Qed.

Definition client_reading (ev : client_event) : bool :=
  match ev with KHeader (inr _) | KBody (inr _) | KMatch => true | _ => false end.

Lemma client_reading_step c ev c' :
  client_reading ev = true -> client_step c ev = Some c' ->
  client_wq c' = client_wq c /\ callers c' = callers c /\
  (reader_weight (reader c') < reader_weight (reader c) +
    4 * match ev with KHeader (inr b) | KBody (inr b) => length b | _ => 0 end)%nat.
Proof.
  intros Hev E0. unfold client_step in E0. destruct (terminated c); [done|].
  destruct ev as [| | | | | | | |[|b]|[|b]| | |]; try done.
  - destruct (reader c) eqn:Er; try done. destruct (io_runs c); [|done]. cbn in E0.
    destruct (Z.eqb_spec (len b) 20) as [Hl|]; [|done]. unfold len in Hl.
    assert (20 = length b)%nat as <- by lia.
    assert (forall reason, Some (stop_reading reason c) = Some c' -> client_wq c' = client_wq c /\
      callers c' = callers c /\ (reader_weight (reader c') < reader_weight RHeader + 4 * 20)%nat) as Hstop.
    { intros reason [= <-]. destruct (stop_reading_frame reason c) as (-> & -> & ->). by cbn; split_and!; [..|lia]. }
    destruct (deserialize_header b) as [h| |]; [|by eapply Hstop|done].
    destruct (magic h =? MAGIC); [|by eapply Hstop]. injection E0 as <-. cbn. split_and!; [done..|lia].
  - destruct (reader c) as [| |h| |] eqn:Er; try done. destruct (io_runs c && _); [|done]. cbn in E0.
    destruct (response_deserialize b) as [r| |]; [destruct (pending_ c !! seq_id h)| |done];
      injection E0 as <-; [cbn; split_and!; [done..|lia]| |].
    + cbn. split_and!; [done..|lia].
    + destruct (stop_reading_frame (bs "bad response") c) as (-> & -> & ->). cbn. split_and!; [done..|lia].
  - unfold match_done in E0. destruct (reader c) as [| | |p r|] eqn:Er; try done. injection E0 as <-.
    destruct (set_value_frame p r (set_reader RHeader (got c) c)) as (-> & -> & -> & _). cbn.
    split_and!; [done..|lia].
Qed.

Lemma client_writing_step c ev c' :
  client_reachable c -> client_step c ev = Some c' ->
  match ev with KDoWrite _ | KIssue _ | KWritten _ None => True | _ => False end ->
  callers c' = callers c /\ (wq_measure (client_wq c') < wq_measure (client_wq c))%nat.
Proof.
  intros Hr E0 Hev. pose proof (impl_inv (HI := client_write_queue) c Hr) as Hq.
  pose proof (client_step_wq c ev c' E0) as Hw. split.
  - unfold client_step in E0. destruct (terminated c); [done|].
    destruct ev as [| | | | |i|i|i [|]| | | | |]; try done.
    + unfold do_write in E0. by destruct (writers c !! i) as [[]|]; simplify_eq; destruct (write_queue_ c).
    + unfold issue_write in E0. by destruct (writers c !! i) as [[]|]; simplify_eq.
    + destruct (io_runs c); [|done]. unfold write_done in E0. by destruct (writers c !! i) as [[]|]; simplify_eq.
  - destruct ev as [| | | | |i|i|i [|]| | | | |]; try done; cbn [client_wq_event is_ok] in Hw;
      by eapply wq_writer_decreases; [exact Hq| |exact Hw].
Qed.

Lemma client_calling_step c ev c' :
  client_step c ev = Some c' -> match ev with KRegister _ | KEnqueue _ => True | _ => False end ->
  (sum_list (caller_weight <$> callers c') < sum_list (caller_weight <$> callers c))%nat.
Proof.
  intros E0 Hev. unfold client_step in E0. destruct (terminated c); [done|].
  destruct ev as [| | |i|i| | | | | | | |]; try done.
  - unfold call_register in E0. destruct (callers c !! i) as [[p s req|]|] eqn:Ei; try done.
    injection E0 as <-. cbn [callers set_calls]. rewrite list_fmap_insert.
    pose proof (sum_list_insert (caller_weight <$> callers c) i 2 (caller_weight (Registered s req))) as Hs.
    rewrite list_lookup_fmap, Ei in Hs. specialize (Hs eq_refl). cbn [caller_weight] in *. lia.
  - unfold call_enqueue in E0. destruct (callers c !! i) as [[|s req]|] eqn:Ei; try done.
    destruct (call_frame s req); try done. injection E0 as <-. cbn [callers set_calls enqueue_write set_write].
    rewrite list_fmap_delete.
    pose proof (sum_list_delete (caller_weight <$> callers c) i 1) as Hs.
    rewrite list_lookup_fmap, Ei in Hs. specialize (Hs eq_refl). lia.
Qed.

Lemma client_io_up c ev u d u' d' :
  client_io c ev u d = Some (u', d') -> incoming u' = incoming u /\
  (client_reading ev = true -> u' = u).
Proof.
  unfold client_io. intros E0.
  assert (forall we p, write_op frame_data (client_wq c) we u = Some p -> incoming p = incoming u) as Hw.
  { intros we p Ep. destruct we as [| |j|j []]; cbn in Ep; simplify_eq; try done.
    - destruct (writers c !! j) as [[]|]; by simplify_eq.
    - destruct (_ && _); by simplify_eq. }
  split.
  - destruct (client_wq_event c ev) as [we|].
    + destruct (write_op _ _ we u) as [p|] eqn:Ep; [|done]. cbn in E0.
      destruct (match ev with KHeader _ => _ | _ => _ end); [|done]. injection E0 as <- _. by eapply Hw.
    + cbn in E0. destruct (match ev with KHeader _ => _ | _ => _ end); [|done]. by injection E0 as <- _.
  - intros Hev. assert (client_wq_event c ev = None) as Hn by by destruct ev.
    rewrite Hn in E0. cbn in E0.
    destruct (match ev with KHeader _ => _ | _ => _ end); [|done]. by injection E0 as <- _.
Qed.

Lemma client_io_down c ev u d u' d' :
  client_io c ev u d = Some (u', d') -> left d' = left d /\
  length (incoming d) =
    (match ev with KHeader (inr b) | KBody (inr b) => length b | _ => 0 end + length (incoming d'))%nat.
Proof.
  unfold client_io. intros E0.
  destruct (match client_wq_event c ev with Some we => _ | None => _ end) as [u0|]; [|done]. cbn in E0.
  destruct (match ev with KHeader _ => _ | _ => _ end) as [d0|] eqn:Ed; [|done]. cbn in E0.
  injection E0 as _ <-. destruct ev as [| | | | | | | |[|]|[|]| | |]; try (by injection Ed as <-);
    destruct (receive_incoming _ _ _ Ed) as [? ?]; by split.
Qed.

Lemma client_carry_lowers q srv e ev c ud :
  client_reachable (client e) -> client_carries ev = true -> client_step (client e) ev = Some c ->
  client_io (client e) ev (up e) (down e) = Some ud ->
  lex (stages q srv (set_pipes ud (set_client c e))) (stages q srv e).
Proof.
  intros Hr Hev Ec Eio. destruct ud as [u d].
  destruct (client_io_up _ _ _ _ _ _ Eio) as [Eu Eu'], (client_io_down _ _ _ _ _ _ Eio) as [El Ei].
  unfold stages. cbn [client up down set_pipes set_client fst snd].
  change (peer_conn srv (set_pipes (u, d) (set_client c e))) with (peer_conn srv e).
  destruct (client_reading ev) eqn:Erd.
  - destruct (client_reading_step _ _ _ Erd Ec) as (-> & -> & Hlt). rewrite (Eu' eq_refl), El. cbn [lex].
    do 8 (right; split; [done|]). left. lia.
  - destruct ev as [| | |j|j|j|j|j [|]|[]|[]| | |]; try done; cbn [lex].
    + left. by apply (client_calling_step _ _ _ Ec).
    + left. by apply (client_calling_step _ _ _ Ec).
    + destruct (client_writing_step _ _ _ Hr Ec) as [-> ?]; [done|]. right. auto.
    + destruct (client_writing_step _ _ _ Hr Ec) as [-> ?]; [done|]. right. auto.
    + destruct (client_writing_step _ _ _ Hr Ec) as [-> ?]; [done|]. right. auto.
Qed.

(** The server's stages. *)
Lemma conn_reading_step k ev k' b busy :
  ev = EvHeader (Some b) \/ ev = EvBody (Some b) -> conn_step k ev = Some k' ->
  (conn_weight busy (reading k') < conn_weight busy (reading k) + 4 * length b)%nat.
Proof.
  assert (forall d, reading (set_reading ReadStopped d) = ReadStopped) as Hstop by done.
  intros [->| ->] E0; cbn in E0; destruct (reading k) eqn:Er; try done.
  - destruct (Z.eqb_spec (len b) 20) as [Hl|]; [|done]. unfold len in Hl. assert (length b = 20)%nat as -> by lia.
    destruct (deserialize_header b) as [h| |]; [destruct (magic h =? MAGIC)| |done];
      injection E0 as <-; cbn [reading do_read_body set_reading conn_weight]; lia.
  - destruct (len b =? body_size h); [|done]. destruct (on_message_ k); injection E0 as <-; cbn; [|lia].
    destruct busy; lia.
Qed.

Lemma conn_pushing_step k j k' :
  conn_step k (EvPush j) = Some k' -> reading k' = reading k /\ (length (senders k') < length (senders k))%nat.
Proof.
  cbn. unfold send_push. destruct (senders k !! j) as [d|] eqn:Ej; [|done]. intros [= <-]. cbn.
  split; [done|]. rewrite length_delete by eauto. apply lookup_lt_Some in Ej. lia.
Qed.

Lemma conn_writing_step k ev k' :
  wq_inv true (conn_wq k) -> conn_step k ev = Some k' ->
  match ev with EvDoWrite _ | EvIssue _ | EvWritten _ true => True | _ => False end ->
  reading k' = reading k /\ senders k' = senders k /\ (wq_measure (conn_wq k') < wq_measure (conn_wq k))%nat.
Proof.
  intros Hq E0 Hev. pose proof (conn_step_wq k ev k' E0) as Hw.
  destruct ev as [| | | | | |j|j|j [|]|]; try done; cbn [conn_wq_event] in Hw;
    (split_and!; [..|by eapply wq_writer_decreases; [exact Hq| |exact Hw]]); cbn in E0;
    unfold Connection.do_write, Connection.issue_write, Connection.write_done in E0;
    destruct (Connection.writers k !! j) as [[]|]; simplify_eq; try done; by destruct (Connection.write_queue_ k).
Qed.

Lemma conn_io_down k ev u d u' d' :
  conn_io k ev u d = Some (u', d') -> incoming d' = incoming d.
Proof.
  unfold conn_io. intros E0. destruct (conn_wq_event k ev) as [we|].
  - destruct (write_op id _ we d) as [p|] eqn:Ep; [|done]. cbn in E0.
    destruct (match ev with EvHeader _ => _ | _ => _ end); [|done]. injection E0 as _ <-.
    destruct we as [| |j|j []]; cbn in Ep; simplify_eq; try done.
    + destruct (Connection.writers k !! j) as [[]|]; by simplify_eq.
    + destruct (_ && _); by simplify_eq.
  - cbn in E0. destruct (match ev with EvHeader _ => _ | _ => _ end); [|done]. by injection E0 as _ <-.
Qed.

Lemma conn_io_up k ev u d u' d' :
  conn_io k ev u d = Some (u', d') -> left u' = left u /\
  length (incoming u) =
    (match ev with EvHeader (Some b) | EvBody (Some b) => length b | _ => 0 end + length (incoming u'))%nat.
Proof.
  unfold conn_io. intros E0.
  destruct (match conn_wq_event k ev with Some we => _ | None => _ end) as [d0|]; [|done]. cbn in E0.
  destruct (match ev with EvHeader _ => _ | _ => _ end) as [u0|] eqn:Eu; [|done]. cbn in E0.
  injection E0 as <- _. destruct ev as [|[]|[]| | | | | | |]; try (by injection Eu as <-);
    destruct (receive_incoming _ _ _ Eu) as [? ?]; by split.
Qed.

Lemma conn_carry_lowers q srv srv' e ev k k' ud :
  replying srv' = replying srv -> thread_pool_ srv' = thread_pool_ srv -> peer e = Some q ->
  heap (cycle_ srv) !! q = Some k -> heap (cycle_ srv') !! q = Some k' -> wq_inv true (conn_wq k) ->
  conn_carries ev = true -> conn_step k ev = Some k' -> conn_io k ev (up e) (down e) = Some ud ->
  lex (stages q srv' (set_pipes ud e)) (stages q srv e).
Proof.
  intros Hrp Htp Hq Hk Hk' Hwq Hev Ek Eio. destruct ud as [u d].
  pose proof (conn_io_down _ _ _ _ _ _ Eio) as Ed. destruct (conn_io_up _ _ _ _ _ _ Eio) as [El Ei].
  unfold stages. rewrite Hrp, Htp, (peer_conn_some srv e q k) by done.
  rewrite (peer_conn_some srv' (set_pipes (u, d) e) q k') by done.
  cbn [client up down set_pipes fst snd lex]. rewrite El.
  do 3 (right; split; [done|]).
  destruct ev as [|[b|]|[b|]| | |j|j|j|j [|]|]; try done.
  - left. pose proof (conn_reading_step _ _ _ b (bool_decide (q ∈ replying srv)) (or_introl eq_refl) Ek). lia.
  - left. pose proof (conn_reading_step _ _ _ b (bool_decide (q ∈ replying srv)) (or_intror eq_refl) Ek). lia.
  - destruct (conn_pushing_step _ _ _ Ek) as [-> ?]. right. split; [lia|]. right. split; [done|]. by left.
  - destruct (conn_writing_step _ _ _ Hwq Ek) as (-> & -> & ?); [done|]. right. split; [lia|]. right. auto.
  - destruct (conn_writing_step _ _ _ Hwq Ek) as (-> & -> & ?); [done|]. right. split; [lia|]. right. auto.
  - destruct (conn_writing_step _ _ _ Hwq Ek) as (-> & -> & ?); [done|]. right. split; [lia|]. right. auto.
Qed.

(** Callbacks. *)
Lemma callback_ends_weight q r (s s' : RpcServer (X := X)) busy :
  cycle_reachable (cycle_ s) -> callback_ends q r s = Some s' -> exists k k',
    heap (cycle_ s) !! q = Some k /\ heap (cycle_ s') !! q = Some k' /\
    (exists h b, reading k = InCallback h b) /\ (conn_weight busy (reading k') <= 1)%nat /\ replying s' = replying s.
Proof.
  intros Hcy Es. apply callback_ends_spec in Es as (k & c & Hk & Hrd & -> & Eh & _); [|done].
  exists k, (callback_done r k). split_and!; try done.
  - cbn. rewrite Eh. apply list_lookup_insert_eq. by eapply lookup_lt_Some.
  - destruct r; cbn; lia.
Qed.

Lemma on_message_weight q (s s' : RpcServer (X := X)) :
  cycle_reachable (cycle_ s) -> on_message q s = Some s' -> exists k k',
    heap (cycle_ s) !! q = Some k /\ heap (cycle_ s') !! q = Some k' /\
    (conn_weight (bool_decide (q ∈ replying s')) (reading k') <
     conn_weight (bool_decide (q ∈ replying s)) (reading k))%nat.
Proof.
  intros Hcy Es. unfold on_message in Es.
  destruct (heap (cycle_ s) !! q) as [k|] eqn:Hk; [|done]. cbn [mbind option_bind] in Es.
  destruct (reading k) as [| | |h b|] eqn:Hrd; try done.
  destruct (bool_decide (q ∈ replying s)) eqn:Hb; [done|]. cbv zeta in Es.
  set (s1 := set_log _ _ _ _ s) in Es.
  assert (forall r (s2 s3 : RpcServer (X := X)), cycle_reachable (cycle_ s2) -> callback_ends q r s2 = Some s3 -> exists k0 k',
    Some k = Some k0 /\ heap (cycle_ s3) !! q = Some k' /\
    (conn_weight (bool_decide (q ∈ replying s3)) (reading k') < conn_weight false (reading k0))%nat) as Hcb.
  { intros r s2 s3 Hcy2 Ecb.
    destruct (callback_ends_weight q r s2 s3 (bool_decide (q ∈ replying s3)) Hcy2 Ecb)
      as (k2 & k' & _ & Hk' & _ & Hlt & _).
    exists k, k'. rewrite Hrd. cbn. split_and!; [done|done|lia]. }
  destruct (thread_pool_ s1) as [x|].
  - destruct (ex_submit _ x); by apply Hcb in Es.
  - destruct (process_and_send _ s1) as [s2|] eqn:Eps; [|done]. cbn [mbind option_bind] in Es.
    apply process_and_send_spec in Eps as (k0 & k' & c & a & Hk0 & Hcy2 & Eh & -> & _ & _ & _ & [= Hr' _ _ _] & _);
      [|exact Hcy].
    assert (k0 = k) as -> by (cbn in Hk0; congruence).
    destruct (response_to h _).
    + injection Es as <-. exists k, k'. split_and!; [done| |].
      * cbn. rewrite Eh. apply list_lookup_insert_eq. by eapply lookup_lt_Some.
      * rewrite Hr', Hrd. cbn [replying set_log]. rewrite bool_decide_eq_true_2 by set_solver. cbn. lia.
    + by apply Hcb in Es.
    + by apply Hcb in Es.
Qed.

Lemma reply_done_weight j q (s s' : RpcServer (X := X)) :
  cycle_reachable (cycle_ s) -> replying s !! j = Some q -> reply_done j s = Some s' -> exists k k',
    heap (cycle_ s) !! q = Some k /\ heap (cycle_ s') !! q = Some k' /\
    (conn_weight (bool_decide (q ∈ replying s')) (reading k') <
     conn_weight (bool_decide (q ∈ replying s)) (reading k))%nat.
Proof.
  intros Hcy Hj Es. unfold reply_done in Es. rewrite Hj in Es. cbn [mbind option_bind] in Es.
  destruct (heap (cycle_ s) !! q) as [k|] eqn:Hk; [|done]. cbn [mbind option_bind] in Es.
  destruct (senders k); [|done].
  pose proof (fun H => callback_ends_weight q true _ s' (bool_decide (q ∈ replying s')) H Es) as Hcb.
  destruct (Hcb Hcy) as (k0 & k' & Hk0 & Hk' & (h & b & Hrd) & Hle & _).
  exists k, k'. cbn in Hk0. assert (k0 = k) as -> by congruence. split_and!; [done|done|].
  rewrite Hrd, (bool_decide_eq_true_2 (q ∈ replying s)) by (by eapply list_elem_of_lookup_2). cbn. lia.
Qed.

(** A lower fourth stage, with the client and the pipes as they were. *)
Lemma callback_lowers q srv srv' e k k' :
  peer e = Some q -> heap (cycle_ srv) !! q = Some k -> heap (cycle_ srv') !! q = Some k' ->
  (conn_weight (bool_decide (q ∈ replying srv')) (reading k') <
   conn_weight (bool_decide (q ∈ replying srv)) (reading k))%nat ->
  lex (stages q srv' e) (stages q srv e).
Proof.
  intros Hq Hk Hk' Hlt. unfold stages.
  rewrite (peer_conn_some srv e q k), (peer_conn_some srv' e q k') by done. cbn [lex].
  do 3 (right; split; [done|]). left. lia.
Qed.

(** A worker of the pool: it may answer, on this connection or another. *)
Lemma process_and_send_same q k t (s s' : RpcServer (X := X)) :
  cycle_reachable (cycle_ s) -> process_and_send t s = Some s' -> heap (cycle_ s) !! q = Some k ->
  cycle_reachable (cycle_ s') /\ (exists k', heap (cycle_ s') !! q = Some k' /\
    reading k' = reading k /\ closed_ k' = closed_ k) /\
  replying s' = replying s /\ thread_pool_ s' = thread_pool_ s.
Proof.
  destruct t as [q' [h b]]. intros Hcy Es Hk.
  apply process_and_send_spec in Es as (k0 & k' & c & a & Hk0 & Hc & Eh & -> & _ & _ & _ & [= Er _ _ Ecl] & _); [|done].
  split_and!; [done| |done..]. cbn. rewrite Eh. destruct (decide (q' = q)) as [->|Hne].
  - assert (k0 = k) as -> by congruence. exists k'. split_and!; [|done..].
    apply list_lookup_insert_eq. by eapply lookup_lt_Some.
  - exists k. by rewrite list_lookup_insert_ne.
Qed.

Lemma pool_step_same q k ev (s s' : RpcServer (X := X)) :
  server_reachable s -> server_step s (SvPool ev) = Some s' -> heap (cycle_ s) !! q = Some k ->
  (exists k', heap (cycle_ s') !! q = Some k' /\ reading k' = reading k /\ closed_ k' = closed_ k) /\
  replying s' = replying s /\
  exists x x', thread_pool_ s = Some x /\ ex_ok x /\ ex_step x ev = Some x' /\ thread_pool_ s' = Some x'.
Proof.
  intros Hr Es Hk. pose proof (server_reachable_inv _ Hr) as Hinv. pose proof (si_pool _ Hinv) as Hp.
  cbn in Es. destruct (thread_pool_ s) as [x|]; [|done]. cbn in Es. destruct Hp as [Hok _].
  destruct (ex_step x ev) as [x'|] eqn:Ex; [|done]. cbn in Es. destruct (ex_runs x ev) as [t|].
  - assert (cycle_reachable (cycle_ (set_pool (Some x') s))) as Hcy by apply (si_cycle _ Hinv).
    destruct (process_and_send_same q k t _ _ Hcy Es Hk) as (_ & Hk' & Hrep & Htp).
    split_and!; [done|exact Hrep|]. by exists x, x'.
  - injection Es as <-. split_and!; [by exists k|done|]. by exists x, x'.
Qed.

Lemma pool_lowers q (srv srv' : RpcServer (X := X)) e ev k :
  server_reachable srv -> peer e = Some q -> heap (cycle_ srv) !! q = Some k ->
  ex_internal ev = true -> server_step srv (SvPool ev) = Some srv' ->
  lex (stages q srv' e) (stages q srv e).
Proof.
  intros Hr Hq Hk Hi Es.
  destruct (pool_step_same q k ev _ _ Hr Es Hk) as ((k' & Hk' & Hrd & _) & Hrep & x & x' & Hx & Hok & Ex & Hx').
  unfold stages. rewrite Hrep, Hx, Hx', (peer_conn_some srv e q k), (peer_conn_some srv' e q k'), Hrd by done.
  cbn [lex]. do 4 (right; split; [done|]). left. by eapply ex_work_decreases.
Qed.

Lemma client_carry_requests c ev c' :
  client_carries ev = true -> client_step c ev = Some c' -> requests c' = requests c.
Proof.
  intros Hev E0. unfold client_step in E0. destruct (terminated c); [done|].
  client_cases ev E0; rewrite ?stop_reading_requests, ?set_value_requests; done.
Qed.

Lemma carry_lowers (s s' : Sys) i q e ev :
  sys_inv s -> ends s !! i = Some e -> peer e = Some q -> carries i q s ev -> sys_step s ev = Some s' ->
  exists e', ends s' !! i = Some e' /\ peer e' = Some q /\ requests (client e') = requests (client e) /\
    lex (stages q (server s') e') (stages q (server s) e).
Proof.
  intros Hinv Hi Hq Hcar Es. pose proof Hinv as [Hs He Hd]. specialize (He i e Hi).
  pose proof (si_cycle _ (server_reachable_inv _ Hs)) as Hcy.
  assert (i < length (ends s))%nat as Hlt by by eapply lookup_lt_Some.
  destruct ev as [[| | | |[| | | | | |q' cev| | | |]|q'|j|x]| |j ev|j|j n|j n]; try done; cbn [carries] in Hcar.
  - destruct Hcar as [-> Hev]. cbn [sys_step server_step] in Es.
    destruct (server_only (CConn q cev)); [done|].
    destruct (cycle_step (cycle_ (server s)) (CConn q cev)) as [c|] eqn:Ec; [|done].
    cbn [mbind option_bind] in Es.
    destruct (cycle_conn_step _ _ _ _ Ec) as (k & k' & Hk & _ & Ek & Eh).
    unfold server_io in Es. destruct (find_end q (ends s)) as [[j f]|] eqn:Ef.
    2: { by destruct (find_end_none _ _ _ _ Ef Hi). }
    destruct (find_end_spec _ _ _ _ Ef) as [Hj Hf].
    assert (j = i) as -> by (by eapply Hd). assert (f = e) as -> by congruence.
    rewrite Hk in Es. cbn [mbind option_bind] in Es.
    destruct (conn_io k cev (up e) (down e)) as [ud|] eqn:Eio; [|done]. injection Es as <-. cbn [ends server].
    exists (set_pipes ud e). split_and!; [by apply list_lookup_insert_eq|done|done|].
    eapply conn_carry_lowers; try done.
    + cbn. rewrite Eh. apply list_lookup_insert_eq. by eapply lookup_lt_Some.
    + by eapply cycle_conn_wq.
  - subst q'. cbn in Es. destruct (on_message q (server s)) as [srv|] eqn:Em; [|done]. injection Es as <-.
    destruct (on_message_weight _ _ _ Hcy Em) as (k & k' & Hk & Hk' & Hw).
    exists e. split_and!; [done..|]. by eapply callback_lowers.
  - cbn in Es. destruct (reply_done j (server s)) as [srv|] eqn:Em; [|done]. injection Es as <-.
    destruct (reply_done_weight _ _ _ _ Hcy Hcar Em) as (k & k' & Hk & Hk' & Hw).
    exists e. split_and!; [done..|]. by eapply callback_lowers.
  - cbn [sys_step] in Es. destruct (server_step (server s) (SvPool x)) as [srv|] eqn:Em; [|done]. injection Es as <-.
    destruct (en_peer _ _ He q Hq) as [k Hk]. exists e. split_and!; [done..|]. by eapply pool_lowers.
  - destruct Hcar as [-> Hev]. cbn in Es. rewrite Hi in Es. cbn in Es.
    destruct (client_step (client e) ev) as [c|] eqn:Ec; [|done]. cbn in Es.
    destruct (client_io (client e) ev (up e) (down e)) as [ud|] eqn:Eio; [|done]. injection Es as <-. cbn [ends server].
    exists (set_pipes ud (set_client c e)). split_and!; [by apply list_lookup_insert_eq|done|by eapply client_carry_requests|].
    eapply client_carry_lowers; eauto. apply He.
  - subst j. cbn in Es. rewrite Hi in Es. cbn in Es. destruct (pump n (up e)) as [p|] eqn:Ep; [|done].
    injection Es as <-. exists (set_pipes (p, down e) e). split_and!; [by apply list_lookup_insert_eq|done|done|].
    cbn [server lex stages]. do 2 (right; split; [done|]). left. by eapply pump_left.
  - subst j. cbn in Es. rewrite Hi in Es. cbn in Es. destruct (pump n (down e)) as [p|] eqn:Ep; [|done].
    injection Es as <-. exists (set_pipes (up e, p) e). split_and!; [by apply list_lookup_insert_eq|done|done|].
    cbn [server lex stages]. do 7 (right; split; [done|]). left. by eapply pump_left.
Qed.

(** No run of such steps is infinite. *)
Lemma carry_terminates (s : Sys) i q e :
  sys_inv s -> ends s !! i = Some e -> peer e = Some q -> sn (carry_step i q) s.
Proof.
  intros Hinv Hi Hq. remember (stages q (server s) e) as l eqn:El.
  assert (Acc (fun a b => length a = length b /\ lex a b) l) as Hacc
    by (eapply lex_wf; reflexivity).
  revert s e Hinv Hi Hq El. induction Hacc as [l _ IH]. intros s e Hinv Hi Hq ->.
  constructor. intros s' (ev & Hcar & Es). destruct (carry_lowers _ _ _ _ _ _ Hinv Hi Hq Hcar Es) as (e' & Hi' & Hq' & _ & Hlex).
  eapply IH; [|by eapply sys_step_inv|exact Hi'|exact Hq'|done]. by split.
Qed.

(** ** Good frames keep a connection healthy *)

Lemma next_header p p' ms fs b :
  took p ms [] -> sent p `prefix_of` stream fs -> ms `prefix_of` fs ->
  receive b p = Some p' -> len b = 20 -> exists m r, fs = ms ++ m :: r /\ b = header_bytes m.1.
Proof.
  intros Ht [t Hs] [r ->] Er Hl. rewrite (took_sent _ _ _ Ht), stream_app in Hs. cbn in Hs.
  rewrite <- app_assoc in Hs. apply app_inv_head in Hs.
  unfold receive in Er. case_bool_decide as Hb; [|done]. destruct Hb as [b' Hb]. rewrite Hb in Hs.
  destruct r as [|m r].
  - apply (f_equal len) in Hs. rewrite !len_app in Hs. unfold stream in Hs. cbn in Hs.
    pose proof (len_nonneg b'). pose proof (len_nonneg t). unfold len in *. cbn in Hs. lia.
  - exists m, r. split; [done|]. rewrite <- (app_nil_r (stream _)), stream_cons in Hs.
    rewrite <- app_assoc in Hs. apply app_inj_1 in Hs as [<- _]; [done|].
    pose proof (len_header_bytes m.1). unfold len in *. lia.
Qed.

Lemma next_body p p' ms fs h b :
  took p ms (header_bytes h) -> sent p `prefix_of` stream fs -> ms `prefix_of` fs -> Forall frame_wf fs ->
  header_wf h -> receive b p = Some p' -> len b = body_size h -> exists r, fs = ms ++ (h, b) :: r.
Proof.
  intros Ht [t Hs] [r ->] Hfs Hw Er Hl. rewrite (took_sent _ _ _ Ht), stream_app in Hs.
  rewrite <- !app_assoc in Hs. apply app_inv_head in Hs. apply Forall_app in Hfs as [_ Hr].
  unfold receive in Er. case_bool_decide as Hb; [|done]. destruct Hb as [b' Hb].
  destruct (stream_body h r _ Hw Hr Hs) as (b0 & r' & -> & Einc & Hlen). exists r'.
  rewrite Hb, <- app_assoc in Einc. apply app_inj_1 in Einc as [-> _]; [done|]. unfold len in *. lia.
Qed.

(** The client goes on reading. *)
Lemma client_keeps_reading (srv : RpcServer (X := X)) e ev c ud :
  server_reachable srv -> end_inv srv e -> fits srv e ->
  client_carries ev = true -> client_step (client e) ev = Some c ->
  client_io (client e) ev (up e) (down e) = Some ud ->
  reader (client e) <> RStopped -> reader (client e) <> RNotStarted ->
  reader c <> RStopped /\ reader c <> RNotStarted.
Proof.
  intros Hr He Hfit Hev Ec Eio Hns Hnn.
  assert (forall d, reader d = reader (client e) -> reader d <> RStopped /\ reader d <> RNotStarted) as Hsame
    by (intros d ->; done).
  destruct (down_frames srv e Hr He Hfit) as (fs & Hsent & Hgot & Hfs & Hdec).
  destruct (en_client_reads _ _ He) as (part & Ht & Hp).
  unfold client_step in Ec. destruct (terminated (client e)); [done|].
  destruct ev as [| | |j|j|j|j|j [|]|[|b]|[|b]| | |]; try done.
  - unfold call_register in Ec. destruct (callers (client e) !! j) as [[]|]; simplify_eq. by apply Hsame.
  - unfold call_enqueue in Ec. destruct (callers (client e) !! j) as [[|s req]|]; try done.
    destruct (call_frame s req); simplify_eq. by apply Hsame.
  - unfold do_write in Ec. destruct (writers (client e) !! j) as [[]|]; simplify_eq.
    apply Hsame. by destruct (write_queue_ (client e)).
  - unfold issue_write in Ec. destruct (writers (client e) !! j) as [[]|]; simplify_eq. by apply Hsame.
  - destruct (io_runs (client e)); [|done]. unfold write_done in Ec.
    destruct (writers (client e) !! j) as [[]|]; simplify_eq. by apply Hsame.
  - destruct (reader (client e)) eqn:Er; try done. subst part.
    destruct (io_runs (client e)); [|done]. cbn in Ec. destruct (Z.eqb_spec (len b) 20) as [Hl|]; [|done].
    unfold client_io in Eio. cbn in Eio. destruct (receive b (down e)) as [p|] eqn:Erc; [|done].
    destruct (next_header _ _ _ _ _ Ht Hsent Hgot Erc Hl) as (m & r & -> & ->).
    apply Forall_app in Hfs as [_ [(Hw & Hmg & _) _]%Forall_cons].
    rewrite header_bytes_decode, Hmg, Z.eqb_refl in Ec by done. by injection Ec as <-.
  - destruct (reader (client e)) as [| |h| |] eqn:Er; try done. destruct Hp as (-> & Hw & Hmg).
    destruct (io_runs (client e)); [|done]. cbn [read_fits andb] in Ec.
    destruct (Z.eqb_spec (len b) (body_size h)) as [Hl|]; [|done].
    unfold client_io in Eio. cbn in Eio. destruct (receive b (down e)) as [p|] eqn:Erc; [|done].
    destruct (next_body _ _ _ _ _ _ Ht Hsent Hgot Hfs Hw Erc Hl) as (r & ->).
    apply Forall_app in Hdec as [_ [[_ (p' & resp & _ & _ & Hd & _)] _]%Forall_cons]. cbn in Hd.
    unfold body_done in Ec. rewrite Hd in Ec. destruct (pending_ (client e) !! seq_id h); by injection Ec as <-.
  - unfold match_done in Ec. destruct (reader (client e)) as [| | |p r|]; try done. injection Ec as <-.
    by destruct (set_value_frame p r (set_reader RHeader (got (client e)) (client e))) as (_ & _ & -> & _).
Qed.

Lemma client_carry_live c ev c' :
  client_inv c -> client_carries ev = true -> client_step c ev = Some c' -> client_live c -> client_live c'.
Proof.
  intros Hinv Hev E0 [Ht Hio]. split.
  - destruct (terminated c') eqn:Ht'; [|done]. destruct (client_step_inv c ev c' Hinv E0) as [_ H].
    destruct (H Ht') as [-> _]. done.
  - assert (forall d, same_frame c d -> io_runs d = true) as Hfr.
    { intros d (_ & _ & _ & _ & _ & _ & _ & [= _ E2 E3 _]). unfold io_runs. by rewrite E2, E3. }
    unfold client_step in E0. rewrite Ht in E0. client_cases ev E0.
    all: try (match goal with |- context [set_value ?p ?r ?d] =>
      destruct (set_value_frame p r d) as (_ & _ & _ & _ & _ & _ & _ & [= _ E2 E3 _]) end;
      unfold io_runs; rewrite E2, E3; done).
    all: match goal with |- context [stop_reading ?r ?d] =>
      destruct (fold_set_value_frame (closed_response r) ((map_to_list (pending_ d)).*2)
        (set_reader RStopped (got d) d)) as (_ & _ & _ & _ & _ & _ & _ & [= _ E2 E3 _]) end;
      unfold io_runs, stop_reading, reject_all_pending; cbn; rewrite E2, E3; done.
Qed.

(** The server goes on reading. *)
Lemma conn_keeps_reading (srv : RpcServer (X := X)) e ev k' ud :
  end_inv srv e -> fits srv e -> conn_carries ev = true ->
  conn_step (peer_conn srv e) ev = Some k' -> conn_io (peer_conn srv e) ev (up e) (down e) = Some ud ->
  reading (peer_conn srv e) <> ReadStopped -> reading (peer_conn srv e) <> NotReading ->
  closed_ k' = closed_ (peer_conn srv e) /\ reading k' <> ReadStopped /\ reading k' <> NotReading.
Proof.
  intros He Hfit Hev Ek Eio Hns Hnn. destruct (up_frames srv e He Hfit) as (fs & Hsent & Hdel & Hfs & _).
  destruct (en_server_reads _ _ He) as (part & Ht & Hp). set (k := peer_conn srv e) in *.
  destruct ev as [|[b|]|[b|]| | |j|j|j|j [|]|]; try done; cbn in Ek.
  - destruct (reading k) eqn:Er; try done. destruct (Z.eqb_spec (len b) 20) as [Hl|]; [|done].
    destruct Hp as [-> Hm]. unfold conn_io in Eio. cbn in Eio.
    destruct (receive b (up e)) as [p|] eqn:Erc; [|done].
    destruct (next_header _ _ _ _ _ Ht Hsent Hdel Erc Hl) as (m & r & -> & ->).
    apply Forall_app in Hfs as [_ [(Hw & Hmg & _) _]%Forall_cons].
    rewrite header_bytes_decode, Hmg, Z.eqb_refl in Ek by done. by injection Ek as <-.
  - destruct (reading k) as [| |h| |] eqn:Er; try done. destruct (len b =? body_size h); [|done].
    injection Ek as <-. by destruct (on_message_ k).
  - unfold send_push in Ek. destruct (senders k !! j); [|done]. by injection Ek as <-.
  - unfold Connection.do_write in Ek. destruct (Connection.writers k !! j) as [[]|]; simplify_eq.
    by destruct (Connection.write_queue_ k).
  - unfold Connection.issue_write in Ek. by destruct (Connection.writers k !! j) as [[]|]; simplify_eq.
  - unfold Connection.write_done in Ek. by destruct (Connection.writers k !! j) as [[]|]; simplify_eq.
Qed.

(** Neither end's operations cut a pipe. *)
Lemma receive_cut b p p' : receive b p = Some p' -> cut p' = cut p.
Proof. unfold receive. case_bool_decide; [|done]. by intros [= <-]. Qed.

Lemma write_op_cut {I} (data : I -> str) qu we p p' :
  (forall j, we <> WDone j false) -> write_op data qu we p = Some p' -> cut p' = cut p.
Proof.
  intros Hne Ep. destruct we as [| |j|j []]; cbn in Ep; simplify_eq; try done.
  - destruct (wq_active qu !! j) as [[]|]; by simplify_eq.
  - destruct (_ && _); by simplify_eq.
  - by destruct (Hne j).
Qed.

Lemma client_io_cut c ev u d u' d' :
  client_carries ev = true -> client_io c ev u d = Some (u', d') -> cut u' = cut u /\ cut d' = cut d.
Proof.
  intros Hev. unfold client_io. intros E0.
  destruct (match client_wq_event c ev with Some we => _ | None => _ end) as [u0|] eqn:Eu; [|done]. cbn in E0.
  destruct (match ev with KHeader _ => _ | _ => _ end) as [d0|] eqn:Ed; [|done]. injection E0 as <- <-. split.
  - destruct (client_wq_event c ev) as [we|] eqn:Ew; [|by injection Eu as <-].
    eapply write_op_cut; [|exact Eu]. intros j ->.
    destruct ev as [| | | |i| | |i [|]| | | | |]; try done. cbn in Ew.
    destruct (callers c !! i) as [[]|]; try done. by destruct (call_frame _ _).
  - destruct ev as [| | | | | | | |[]|[]| | |]; try (by injection Ed as <-); by eapply receive_cut.
Qed.

Lemma conn_io_cut k ev u d u' d' :
  conn_carries ev = true -> conn_io k ev u d = Some (u', d') -> cut u' = cut u /\ cut d' = cut d.
Proof.
  intros Hev. unfold conn_io. intros E0.
  destruct (match conn_wq_event k ev with Some we => _ | None => _ end) as [d0|] eqn:Ed; [|done]. cbn in E0.
  destruct (match ev with EvHeader _ => _ | _ => _ end) as [u0|] eqn:Eu; [|done]. injection E0 as <- <-. split.
  - destruct ev as [|[]|[]| | | | | | |]; try (by injection Eu as <-); by eapply receive_cut.
  - destruct (conn_wq_event k ev) as [we|] eqn:Ew; [|by injection Ed as <-].
    eapply write_op_cut; [|exact Ed]. intros j ->.
    destruct ev as [| | | | |i|i|i|i [|]|]; try done. cbn in Ew. by destruct (senders k !! i).
Qed.

Lemma pump_cut n p p' : pump n p = Some p' -> cut p' = cut p.
Proof. unfold pump. destruct (cut p); [done|]. destruct (take n (left p)); [done|]. by intros [= <-]. Qed.

(** Handlers give responses that fit, and the executor refuses nothing. *)
Record answering (srv : RpcServer (X := X)) (e : endpoint) : Prop := {
  an_fits : fits srv e;
  an_returns : Forall (fun a => exists r, an_out a = Ok r) (answers_to srv e);
  an_refused : refused srv = []
}.

Lemma answering_before srv e srv' e' :
  answers_to srv e `prefix_of` answers_to srv' e' -> requests (client e) `prefix_of` requests (client e') ->
  refused srv `prefix_of` refused srv' -> answering srv' e' -> answering srv e.
Proof.
  intros Ha Hq [t Ht] [H1 H2 H3]. split; [by eapply fits_before| |].
  - destruct Ha as [r Hr]. rewrite Hr in H2. by apply Forall_app in H2 as [? _].
  - rewrite H3 in Ht. by destruct (refused srv).
Qed.

Lemma callback_returns q (s s' : RpcServer (X := X)) :
  cycle_reachable (cycle_ s) -> callback_ends q true s = Some s' -> exists k k',
    heap (cycle_ s) !! q = Some k /\ heap (cycle_ s') !! q = Some k' /\
    closed_ k' = closed_ k /\ reading k' <> ReadStopped /\ reading k' <> NotReading.
Proof.
  intros Hcy Es. apply callback_ends_spec in Es as (k & c & Hk & Hrd & -> & Eh & _); [|done].
  exists k, (callback_done true k). split_and!; try done.
  cbn. rewrite Eh. apply list_lookup_insert_eq. by eapply lookup_lt_Some.
Qed.

Lemma on_message_keeps q (s s' : RpcServer (X := X)) e :
  cycle_reachable (cycle_ s) -> on_message q s = Some s' -> peer e = Some q -> answering s' e ->
  (forall k h b, heap (cycle_ s) !! q = Some k -> reading k = InCallback h b -> q ∉ replying s -> header_wf h) ->
  exists k k', heap (cycle_ s) !! q = Some k /\ heap (cycle_ s') !! q = Some k' /\
    closed_ k' = closed_ k /\ reading k' <> ReadStopped /\ reading k' <> NotReading.
Proof.
  intros Hcy Es Hq [Hfit Hret Href] Hwf. unfold on_message in Es.
  destruct (heap (cycle_ s) !! q) as [k|] eqn:Hk; [|done]. cbn [mbind option_bind] in Es.
  destruct (reading k) as [| | |h b|] eqn:Hrd; try done.
  destruct (bool_decide_reflect (q ∈ replying s)) as [|Hn]; [done|]. specialize (Hwf k h b eq_refl Hrd Hn).
  cbv zeta in Es. set (s1 := set_log _ _ _ _ s) in Es.
  destruct (thread_pool_ s1) as [x|].
  - destruct (ex_submit _ x) as [x'|].
    + assert (cycle_reachable (cycle_ (set_pool (Some x') s1))) as Hcy1 by exact Hcy.
      destruct (callback_returns q _ _ Hcy1 Es) as (k0 & k' & Hk0 & Hk' & ?).
      cbn in Hk0. assert (k0 = k) as -> by congruence. by exists k, k'.
    + exfalso. apply callback_ends_spec in Es as (k0 & c & _ & _ & -> & _); [|exact Hcy].
      cbn in Href. by destruct (refused s).
  - destruct (process_and_send _ s1) as [s2|] eqn:Eps; [|done]. cbn [mbind option_bind] in Es.
    assert (cycle_reachable (cycle_ s1)) as Hcy1 by exact Hcy.
    destruct (process_and_send_spec _ _ _ _ _ Hcy1 Eps)
      as (k0 & k' & c & a & Hk0 & _ & Eh & -> & Hta & _ & Hout & [= Hr' _ _ Hcl] & _).
    assert (k0 = k) as -> by (cbn in Hk0; congruence).
    assert (a ∈ answers_to s' e) as Ha.
    { unfold answers_to. rewrite Hq. apply list_elem_of_filter. rewrite Hta. split; [done|].
      assert (answers s ++ [a] `prefix_of` answers s') as [t ->]; [|set_solver].
      destruct (response_to h _); [by injection Es as <-|..]; by rewrite (proj1 (callback_ends_same _ _ _ _ Es)). }
    pose proof (fit_responses _ _ Hfit) as Hresp. rewrite Forall_forall in Hresp, Hret.
    destruct (Hret a Ha) as [r Hr]. rewrite Hout in Hr.
    destruct (response_frame h r (Hresp a Ha r ltac:(congruence))) as (rh & Em & _); [apply Hwf|apply Hwf|].
    assert (response_to h (process_request h b (service_manager s1)) = Ok (rh, response_bytes r)) as Ero.
    { unfold response_to. rewrite Hr. exact Em. }
    rewrite Ero in Es. injection Es as <-. exists k, k'. split_and!; [done| |done|congruence..].
    cbn. rewrite Eh. apply list_lookup_insert_eq. by eapply lookup_lt_Some.
Qed.

Lemma reply_done_keeps j q (s s' : RpcServer (X := X)) :
  cycle_reachable (cycle_ s) -> replying s !! j = Some q -> reply_done j s = Some s' -> exists k k',
    heap (cycle_ s) !! q = Some k /\ heap (cycle_ s') !! q = Some k' /\
    closed_ k' = closed_ k /\ reading k' <> ReadStopped /\ reading k' <> NotReading.
Proof.
  intros Hcy Hj Es. unfold reply_done in Es. rewrite Hj in Es. cbn [mbind option_bind] in Es.
  destruct (heap (cycle_ s) !! q) as [k|] eqn:Hk; [|done]. cbn [mbind option_bind] in Es.
  destruct (senders k); [|done]. rewrite <- Hk.
  pose proof (fun H => callback_returns q _ s' H Es) as Hcb. by apply Hcb.
Qed.

(** Every frame delivered has a good header. *)
Lemma callback_header_wf srv e q k h b :
  end_inv srv e -> server_reachable srv -> peer e = Some q -> heap (cycle_ srv) !! q = Some k ->
  reading k = InCallback h b -> q ∉ replying srv -> header_wf h.
Proof.
  intros He Hr Hq Hk Hrd Hn. destruct (en_server_reads _ _ He) as (part & (_ & _ & Hwf) & _).
  rewrite (peer_conn_some srv e q k Hq Hk) in Hwf.
  rewrite (cs_received _ _ _ (si_conn srv (server_reachable_inv srv Hr) q k Hk)) in Hwf.
  apply Forall_app in Hwf as [_ Hun]. unfold untaken in Hun.
  rewrite Hrd, bool_decide_eq_false_2 in Hun by done. apply Forall_inv in Hun. apply Hun.
Qed.

Lemma healthy_here (srv : RpcServer (X := X)) e q k :
  healthy srv e q -> heap (cycle_ srv) !! q = Some k ->
  closed_ k = false /\ reading k <> ReadStopped /\ reading k <> NotReading.
Proof.
  intros [Hp _ _ _ Hc Hr] Hk. by rewrite (peer_conn_some srv e q k Hp Hk) in Hc, Hr.
Qed.

(** The connection changed, the client and the pipes did not. *)
Lemma healthy_callback (srv srv' : RpcServer (X := X)) e q k k' :
  healthy srv e q -> heap (cycle_ srv) !! q = Some k -> heap (cycle_ srv') !! q = Some k' ->
  closed_ k' = closed_ k -> reading k' <> ReadStopped /\ reading k' <> NotReading -> healthy srv' e q.
Proof.
  intros Hok Hk Hk' Hcl Hrd. destruct (healthy_here _ _ _ _ Hok Hk) as (Hc & _). destruct Hok.
  split; try done; rewrite (peer_conn_some srv' e q k') by done; [congruence|done].
Qed.

(** Its own operations ... *)
Lemma conn_carry_healthy (srv srv' : RpcServer (X := X)) e q ev k k' ud :
  end_inv srv e -> fits srv e -> healthy srv e q -> conn_carries ev = true ->
  heap (cycle_ srv) !! q = Some k -> heap (cycle_ srv') !! q = Some k' ->
  conn_step k ev = Some k' -> conn_io k ev (up e) (down e) = Some ud -> healthy srv' (set_pipes ud e) q.
Proof.
  intros He Hfit Hok Hev Hk Hk' Ek Eio. destruct ud as [u d]. pose proof (hl_peer _ _ _ Hok) as Hq.
  destruct (healthy_here _ _ _ _ Hok Hk) as (Hcl & Hns & Hnn).
  destruct (conn_io_cut _ _ _ _ _ _ Hev Eio) as [Hcu Hcd].
  pose proof (conn_keeps_reading srv e ev k' (u, d) He Hfit Hev) as Hkeep.
  rewrite (peer_conn_some srv e q k Hq Hk) in Hkeep. destruct (Hkeep Ek Eio Hns Hnn) as (Hcl' & Hrd').
  destruct Hok as [_ Hl Hr [Hp1 Hp2] _ _].
  split; try done; rewrite ?(peer_conn_some _ (set_pipes (u, d) e) q k') by done; cbn;
    [split; congruence|congruence|done].
Qed.

(** ... those of the client ... *)
Lemma client_carry_healthy (srv : RpcServer (X := X)) e q ev c ud :
  server_reachable srv -> end_inv srv e -> fits srv e -> healthy srv e q -> client_carries ev = true ->
  client_step (client e) ev = Some c -> client_io (client e) ev (up e) (down e) = Some ud ->
  healthy srv (set_pipes ud (set_client c e)) q.
Proof.
  intros Hs He Hfit Hok Hev Ec Eio. destruct ud as [u d].
  destruct (client_io_cut _ _ _ _ _ _ Hev Eio) as [Hcu Hcd]. destruct Hok as [Hq Hl [Hr1 Hr2] [Hp1 Hp2] Hc Hr].
  split; try done; cbn.
  - eapply client_carry_live; [by apply client_reachable_inv, He|done|exact Ec|done].
  - by eapply client_keeps_reading.
  - split; congruence.
Qed.

(** ... bytes that move ... *)
Lemma pump_healthy (srv : RpcServer (X := X)) e q u d :
  healthy srv e q -> cut u = cut (up e) -> cut d = cut (down e) -> healthy srv (set_pipes (u, d) e) q.
Proof. intros [] Eu Ed. split; try done. cbn. by rewrite Eu, Ed. Qed.

(** ... and what the server does for the connection. *)
Lemma server_carry_healthy (s s' : Sys) i q e ev e' :
  sys_inv s -> ends s !! i = Some e -> fits (server s) e -> carries i q s (YServer ev) ->
  sys_step s (YServer ev) = Some s' -> ends s' !! i = Some e' -> answering (server s') e' ->
  healthy (server s) e q -> healthy (server s') e' q.
Proof.
  intros Hinv Hi Hfit Hcar Es Hi' Hans' Hok. pose proof Hinv as [Hs He Hd]. specialize (He i e Hi).
  pose proof (si_cycle _ (server_reachable_inv _ Hs)) as Hcy. pose proof (hl_peer _ _ _ Hok) as Hq.
  destruct ev as [| | | |[| | | | | |q' cev| | | |]|q'|j|x]; try done; cbn [carries] in Hcar.
  - destruct Hcar as [-> Hev]. cbn [sys_step server_step] in Es.
    destruct (server_only (CConn q cev)); [done|].
    destruct (cycle_step (cycle_ (server s)) (CConn q cev)) as [c|] eqn:Ec; [|done].
    cbn [mbind option_bind] in Es. destruct (cycle_conn_step _ _ _ _ Ec) as (k & k' & Hk & _ & Ek & Eh).
    unfold server_io in Es. destruct (find_end q (ends s)) as [[j f]|] eqn:Ef.
    2: { by destruct (find_end_none _ _ _ _ Ef Hi). }
    destruct (find_end_spec _ _ _ _ Ef) as [Hj Hf].
    assert (j = i) as -> by (by eapply Hd). assert (f = e) as -> by congruence.
    rewrite Hk in Es. cbn [mbind option_bind] in Es.
    destruct (conn_io k cev (up e) (down e)) as [ud|] eqn:Eio; [|done]. injection Es as <-.
    cbn [ends server] in *. rewrite list_lookup_insert_eq in Hi' by by eapply lookup_lt_Some.
    injection Hi' as <-. eapply conn_carry_healthy; [done..| |exact Ek|done].
    cbn. rewrite Eh. apply list_lookup_insert_eq. by eapply lookup_lt_Some.
  - subst q'. cbn in Es. destruct (on_message q (server s)) as [srv|] eqn:Em; [|done]. injection Es as <-.
    cbn [ends server] in *. assert (e' = e) as -> by congruence.
    destruct (on_message_keeps q _ _ e Hcy Em Hq Hans') as (k & k' & Hk & Hk' & Hcl & Hrd).
    + intros k h b Hk Hrd Hn. by eapply callback_header_wf.
    + by eapply healthy_callback.
  - cbn in Es. destruct (reply_done j (server s)) as [srv|] eqn:Em; [|done]. injection Es as <-.
    cbn [ends server] in *. assert (e' = e) as -> by congruence.
    destruct (reply_done_keeps j q _ _ Hcy Hcar Em) as (k & k' & Hk & Hk' & Hcl & Hrd).
    by eapply healthy_callback.
  - cbn [sys_step] in Es. destruct (server_step (server s) (SvPool x)) as [srv|] eqn:Em; [|done]. injection Es as <-.
    cbn [ends server] in *. assert (e' = e) as -> by congruence.
    destruct (en_peer _ _ He q Hq) as [k Hk].
    destruct (pool_step_same q k x _ _ Hs Em Hk) as ((k' & Hk' & Hrd & Hcl) & _).
    eapply healthy_callback; [done..|]. rewrite Hrd. by eapply healthy_here.
Qed.

Lemma carry_healthy (s s' : Sys) i q e ev e' :
  sys_inv s -> ends s !! i = Some e -> carries i q s ev -> sys_step s ev = Some s' ->
  ends s' !! i = Some e' -> answering (server s') e' -> healthy (server s) e q -> healthy (server s') e' q.
Proof.
  intros Hinv Hi Hcar Es Hi' Hans' Hok.
  assert (fits (server s) e) as Hfit.
  { destruct (sys_step_end _ _ _ _ _ Es Hi') as [[? _]|(e0 & Hi0 & Ha & Hc)]; [congruence|].
    assert (e0 = e) as -> by congruence. eapply fits_before; [exact Ha| |apply Hans'].
    destruct Hc as [->|[cev Hc]]; [done|by eapply client_step_requests]. }
  pose proof Hinv as [Hs He Hd]. specialize (He i e Hi).
  pose proof (si_cycle _ (server_reachable_inv _ Hs)) as Hcy. pose proof (hl_peer _ _ _ Hok) as Hq.
  assert (i < length (ends s))%nat as Hlt by by eapply lookup_lt_Some.
  destruct ev as [ev| |j ev|j|j m|j m]; try done; cbn [carries] in Hcar.
  - eapply server_carry_healthy; eauto.
  - destruct Hcar as [-> Hev]. cbn in Es. rewrite Hi in Es. cbn in Es.
    destruct (client_step (client e) ev) as [c|] eqn:Ec; [|done]. cbn in Es.
    destruct (client_io (client e) ev (up e) (down e)) as [ud|] eqn:Eio; [|done]. injection Es as <-.
    cbn [ends server] in *. rewrite list_lookup_insert_eq in Hi' by done. injection Hi' as <-.
    by eapply client_carry_healthy.
  - subst j. cbn in Es. rewrite Hi in Es. cbn in Es. destruct (pump m (up e)) as [p|] eqn:Ep; [|done].
    injection Es as <-. cbn [ends server] in *. rewrite list_lookup_insert_eq in Hi' by done. injection Hi' as <-.
    by apply pump_healthy; [|eapply pump_cut|].
  - subst j. cbn in Es. rewrite Hi in Es. cbn in Es. destruct (pump m (down e)) as [p|] eqn:Ep; [|done].
    injection Es as <-. cbn [ends server] in *. rewrite list_lookup_insert_eq in Hi' by done. injection Hi' as <-.
    by apply pump_healthy; [| |eapply pump_cut].
Qed.
End liveness.
