(* ===== verification/RpcCompletion.v ===== *)
(** * Every call completes

    The two halves together: a client whose connection is intact stays so while
    the rest of the system does what it likes, the work on its calls ends, and
    when it has ended every future holds the response of the one execution of
    its call. *)
From S2P Require Import Prelude WriteQueue Protocol ErrorCode ServiceManager Framing Connection.
From S2P Require Import ConnectionManager MessageCycle Executor ThreadPool RpcServer Wire EndToEnd.
From S2P Require Import RpcClient RpcSystem RpcProgress RpcLiveness.
Import RpcServer RpcSystem.

Section completion.
Context {X E : Type} {HX : Executor task X E} {HR : ExecutorRests task X E}.

Abbreviation Sys := (System (X := X)).

(** ** What may happen meanwhile *)

(** Steps that are not on client [i] or its connection [q]: the pool's threads, other
    clients and connections, connections being accepted, services registered. *)
Definition server_bystander (q : conn_ptr) (srv : RpcServer (X := X)) (ev : server_event (E := E)) : Prop :=
  match ev with
  | SvPool _ | SvManager _ => True
  | SvCycle (CRun | CAccept _ | CInsert | CStart | CAgain) => True
  | SvCycle (CConn q' _) | SvMessage q' => q' <> q
  | SvReplied j => replying srv !! j <> Some q
  | _ => False
  end.

Definition bystander (i : nat) (q : conn_ptr) (s : Sys) (ev : sys_event (E := E)) : Prop :=
  match ev with
  | YServer ev => server_bystander q (server s) ev
  | YOpen | YAccept _ => True
  | YClient j _ | YUp j _ | YDown j _ => j <> i
  end.

(** One step of the system that neither harms the connection nor begins a new call on it. *)
Definition meanwhile (i : nat) (q : conn_ptr) (s s' : Sys) : Prop :=
  exists ev, (carries i q s ev \/ bystander i q s ev) /\ sys_step s ev = Some s'.

(** ** Bystanders leave a connection intact *)

Definition intact (k : Connection) : Prop :=
  closed_ k = false /\ reading k <> ReadStopped /\ reading k <> NotReading.

Definition spares (q : conn_ptr) (h h' : list Connection) : Prop :=
  forall k, h !! q = Some k -> intact k -> exists k', h' !! q = Some k' /\ intact k'.

Lemma spares_refl q h : spares q h h.
Proof. intros k; eauto. Qed.

Lemma spares_trans q a b c : spares q a b -> spares q b c -> spares q a c.
Proof. intros Hab Hbc k Hk Hi. destruct (Hab k Hk Hi) as (k' & Hk' & Hi'). by apply (Hbc k'). Qed.

Lemma spares_elsewhere q q' k h : q' <> q -> spares q h (<[q' := k]> h).
Proof. intros Hne k0 Hk Hi. exists k0. by rewrite list_lookup_insert_ne. Qed.

Lemma spares_alter q q' f h : (forall k, intact k -> intact (f k)) -> spares q h (alter f q' h).
Proof.
  intros Hf k Hk Hi. destruct (decide (q' = q)) as [->|Hne].
  - exists (f k). rewrite list_lookup_alter_eq, Hk. auto.
  - exists k. by rewrite list_lookup_alter_ne.
Qed.

Lemma spares_app q h k : spares q h (h ++ [k]).
Proof. intros k0 Hk Hi. exists k0. split; [by apply lookup_app_l_Some|done]. Qed.

Lemma conn_event_keeps q q' ev c c' :
  q' <> q -> conn_event_on q' ev c = Some c' -> spares q (heap c) (heap c').
Proof.
  unfold conn_event_on. intros Hne Ec. destruct (heap c !! q') as [k|]; [|done].
  destruct (conn_step k ev) as [k1|]; [|done]. cbn in Ec. injection Ec as <-. by apply spares_elsewhere.
Qed.

Lemma process_and_send_keeps q t (s s' : RpcServer (X := X)) :
  cycle_reachable (cycle_ s) -> process_and_send t s = Some s' ->
  spares q (heap (cycle_ s)) (heap (cycle_ s')).
Proof.
  intros Hcy Es k Hk Hi. destruct (process_and_send_same q k t _ _ Hcy Es Hk) as (_ & (k' & Hk' & Er & Ec) & _).
  exists k'. unfold intact. by rewrite Er, Ec.
Qed.

Lemma callback_ends_keeps q q' r (s s' : RpcServer (X := X)) :
  q' <> q -> callback_ends q' r s = Some s' -> spares q (heap (cycle_ s)) (heap (cycle_ s')).
Proof.
  unfold callback_ends. intros Hne Es.
  destruct (conn_event_on q' (EvCallback r) (cycle_ s)) as [c|] eqn:Ec; [|done]. injection Es as <-.
  by eapply conn_event_keeps.
Qed.

Lemma on_message_elsewhere q q' (s s' : RpcServer (X := X)) :
  q' <> q -> cycle_reachable (cycle_ s) -> on_message q' s = Some s' -> spares q (heap (cycle_ s)) (heap (cycle_ s')).
Proof.
  unfold on_message. intros Hne Hcy Es. destruct (heap (cycle_ s) !! q') as [k|]; [|done]. cbn in Es.
  destruct (reading k); try done. destruct (bool_decide _); [done|].
  destruct (thread_pool_ s) as [x|].
  - destruct (ex_submit _ x) as [x'|]; by apply callback_ends_keeps with (q := q) in Es.
  - destruct (process_and_send _ _) as [s1|] eqn:Ep; [|done]. cbn in Es.
    apply process_and_send_keeps with (q := q) in Ep as Hk; [|done]. cbn in Hk.
    destruct (response_to h _) as [m| |].
    + by injection Es as <-.
    + apply callback_ends_keeps with (q := q) in Es; [|done]. exact (spares_trans _ _ _ _ Hk Es).
    + apply callback_ends_keeps with (q := q) in Es; [|done]. exact (spares_trans _ _ _ _ Hk Es).
Qed.

Lemma reply_done_elsewhere q j (s s' : RpcServer (X := X)) :
  replying s !! j <> Some q -> reply_done j s = Some s' -> spares q (heap (cycle_ s)) (heap (cycle_ s')).
Proof.
  unfold reply_done. intros Hne Es. destruct (replying s !! j) as [q'|]; [|done]. cbn in Es.
  destruct (heap (cycle_ s) !! q') as [k|]; [|done]. cbn in Es. destruct (senders k); [|done].
  apply callback_ends_keeps with (q := q) in Es; [done|congruence].
Qed.

Lemma accept_keeps q c ev c' :
  cycle_step c ev = Some c' ->
  match ev with CRun | CAccept _ | CInsert | CStart | CAgain => True | _ => False end ->
  spares q (heap c) (heap c').
Proof.
  intros Ec Hev. destruct ev as [| |ok| | | | | | | |]; try done; cbn in Ec.
  - injection Ec as <-. apply spares_refl.
  - destruct (chain c); try done. injection Ec as <-. unfold accept_done.
    destruct ok; [|destruct (running_ c); apply spares_refl]. cbn.
    eapply spares_trans; [apply spares_app|by apply spares_alter].
  - unfold accept_insert in Ec. destruct (chain c); try done. injection Ec as <-. apply spares_refl.
  - unfold accept_start in Ec. destruct (chain c); try done. injection Ec as <-. cbn.
    apply spares_alter. intros k (Hc & _ & _). by split_and!.
  - unfold accept_again in Ec. destruct (chain c); try done. injection Ec as <-.
    destruct (running_ c); apply spares_refl.
Qed.

Lemma server_bystander_keeps q (srv srv' : RpcServer (X := X)) ev :
  server_reachable srv -> server_bystander q srv ev -> server_step srv ev = Some srv' ->
  spares q (heap (cycle_ srv)) (heap (cycle_ srv')).
Proof.
  intros Hr Hby Es. pose proof (si_cycle _ (server_reachable_inv _ Hr)) as Hcy.
  destruct ev as [|op| | |cev|q'|j|x]; try done; cbn in Es.
  - injection Es as <-. apply spares_refl.
  - destruct (server_only cev); [done|]. destruct (cycle_step (cycle_ srv) cev) as [c|] eqn:Ec; [|done].
    injection Es as <-. cbn. destruct cev as [| | | | | |q' ev| | | |]; try done; try by eapply accept_keeps.
    apply cycle_conn_step in Ec as (k & k' & _ & _ & _ & ->). by apply spares_elsewhere.
  - by eapply on_message_elsewhere.
  - by eapply reply_done_elsewhere.
  - intros k Hk Hi. destruct (pool_step_same q k x _ _ Hr Es Hk) as ((k' & Hk' & Er & Ec) & _).
    exists k'. unfold intact. by rewrite Er, Ec.
Qed.

(** The client's end is not theirs to change. *)
Lemma bystander_end (s s' : Sys) i q e ev :
  ends s !! i = Some e -> peer e = Some q -> bystander i q s ev -> sys_step s ev = Some s' ->
  ends s' !! i = Some e.
Proof.
  intros Hi Hq Hby Es. destruct ev as [ev| |j ev|j|j n|j n]; cbn [sys_step bystander] in *.
  - destruct (server_step (server s) ev) as [srv|]; [|done]. cbn [mbind option_bind] in Es.
    destruct ev as [| | | |[| | | | | |q' cev| | | |]| | |]; try (injection Es as <-; exact Hi).
    unfold server_io in Es. destruct (find_end q' (ends s)) as [[j f]|] eqn:Ef; [|by injection Es as <-].
    destruct (heap (cycle_ (server s)) !! q') as [k|]; [|done]. cbn in Es.
    destruct (conn_io k cev (up f) (down f)) as [ud|]; [|done]. injection Es as <-. cbn [ends].
    destruct (find_end_spec _ _ _ _ Ef) as [Hj Hf]. cbn in Hby.
    rewrite list_lookup_insert_ne; [done|]. intros ->. congruence.
  - injection Es as <-. by apply lookup_app_l_Some.
  - destruct (ends s !! j) as [f|]; [|done]. cbn in Es. destruct (client_step (client f) ev); [|done]. cbn in Es.
    destruct (client_io _ _ _ _); [|done]. injection Es as <-. cbn [ends]. by rewrite list_lookup_insert_ne.
  - destruct (ends s !! j) as [f|] eqn:Hj; [|done]. cbn [mbind option_bind] in Es.
    destruct (peer f) eqn:Hf, (reaching (client f)); try done.
    destruct (server_step (server s) _); [|done]. injection Es as <-. cbn [ends].
    rewrite list_lookup_insert_ne; [done|]. intros ->. congruence.
  - destruct (ends s !! j) as [f|]; [|done]. cbn in Es. destruct (pump n (up f)); [|done]. injection Es as <-.
    cbn [ends]. by rewrite list_lookup_insert_ne.
  - destruct (ends s !! j) as [f|]; [|done]. cbn in Es. destruct (pump n (down f)); [|done]. injection Es as <-.
    cbn [ends]. by rewrite list_lookup_insert_ne.
Qed.

Lemma bystander_conn (s s' : Sys) i q ev :
  sys_inv s -> bystander i q s ev -> sys_step s ev = Some s' ->
  spares q (heap (cycle_ (server s))) (heap (cycle_ (server s'))).
Proof.
  intros Hinv Hby Es. pose proof (sy_server _ Hinv) as Hr.
  destruct ev as [ev| |j ev|j|j n|j n]; cbn [sys_step bystander] in *.
  - destruct (server_step (server s) ev) as [srv|] eqn:Esv; [|done]. cbn [mbind option_bind] in Es.
    destruct (match ev with SvCycle _ => _ | _ => _ end); [|done]. injection Es as <-.
    by eapply server_bystander_keeps.
  - injection Es as <-. apply spares_refl.
  - destruct (ends s !! j) as [f|]; [|done]. cbn in Es. destruct (client_step (client f) ev); [|done]. cbn in Es.
    destruct (client_io _ _ _ _); [|done]. injection Es as <-. apply spares_refl.
  - destruct (ends s !! j) as [f|] eqn:Hj; [|done]. cbn [mbind option_bind] in Es.
    destruct (peer f), (reaching (client f)); try done.
    destruct (server_step (server s) (SvCycle (CAccept true))) as [srv|] eqn:Esv; [|done]. injection Es as <-.
    by eapply (server_bystander_keeps q _ _ _ Hr); [|exact Esv].
  - destruct (ends s !! j) as [f|]; [|done]. cbn in Es. destruct (pump n (up f)); [|done]. injection Es as <-.
    apply spares_refl.
  - destruct (ends s !! j) as [f|]; [|done]. cbn in Es. destruct (pump n (down f)); [|done]. injection Es as <-.
    apply spares_refl.
Qed.

Lemma bystander_healthy (s s' : Sys) i q e ev :
  sys_inv s -> ends s !! i = Some e -> bystander i q s ev -> sys_step s ev = Some s' ->
  healthy (server s) e q -> healthy (server s') e q.
Proof.
  intros Hinv Hi Hby Es Hok. pose proof (hl_peer _ _ _ Hok) as Hq.
  destruct (en_peer _ _ (sy_end _ Hinv i e Hi) q Hq) as [k Hk].
  destruct (bystander_conn s s' i q ev Hinv Hby Es k Hk) as (k' & Hk' & Hc & Hrd);
    [by eapply healthy_here|]. destruct Hok.
  split; try done; by rewrite (peer_conn_some _ e q k' Hq Hk').
Qed.

(** ** Along a run *)

Lemma meanwhile_inv (s s' : Sys) i q : meanwhile i q s s' -> sys_inv s -> sys_inv s'.
Proof. intros (ev & _ & Es) Hs. by eapply sys_step_inv. Qed.

Lemma meanwhile_end (s s' : Sys) i q e :
  sys_inv s -> ends s !! i = Some e -> peer e = Some q -> meanwhile i q s s' ->
  exists e', ends s' !! i = Some e' /\ peer e' = Some q /\ requests (client e') = requests (client e) /\
    answers_to (server s) e `prefix_of` answers_to (server s') e' /\ refused (server s) `prefix_of` refused (server s').
Proof.
  intros Hinv Hi Hq (ev & Hev & Es).
  assert (exists e', ends s' !! i = Some e' /\ peer e' = Some q /\ requests (client e') = requests (client e))
    as (e' & Hi' & Hq' & Hreq).
  { destruct Hev as [Hc|Hb].
    - destruct (carry_lowers _ _ _ _ _ _ Hinv Hi Hq Hc Es) as (e' & ? & ? & ? & _). eauto.
    - exists e. split_and!; [by eapply bystander_end|done..]. }
  exists e'. split_and!; try done; [|by apply (sys_step_grows s ev s' Es)].
  destruct (sys_step_end _ _ _ _ _ Es Hi') as [[? _]|(e0 & Hi0 & Ha & _)]; congruence.
Qed.

Lemma meanwhile_run (s s' : Sys) i q e :
  rtc (meanwhile i q) s s' -> sys_inv s -> ends s !! i = Some e -> peer e = Some q ->
  sys_inv s' /\ exists e', ends s' !! i = Some e' /\ peer e' = Some q /\
    requests (client e') = requests (client e) /\
    answers_to (server s) e `prefix_of` answers_to (server s') e' /\ refused (server s) `prefix_of` refused (server s').
Proof.
  intros Hrun. revert e. induction Hrun as [s|a b c Hab _ IH]; intros e Hinv Hi Hq.
  - split; [done|]. by exists e.
  - destruct (meanwhile_end _ _ _ _ _ Hinv Hi Hq Hab) as (e1 & Hi1 & Hq1 & Hr1 & Ha1 & Hf1).
    destruct (IH e1) as (Hc & e' & Hi' & Hq' & Hr' & Ha' & Hf'); [by eapply meanwhile_inv|done..|].
    split; [done|]. exists e'. split_and!; try done; [congruence|by etransitivity..].
Qed.

(** While handlers answer and nothing is refused, the connection stays intact. *)
Lemma meanwhile_healthy (s s' : Sys) i q e e' :
  rtc (meanwhile i q) s s' -> sys_inv s -> ends s !! i = Some e -> healthy (server s) e q ->
  ends s' !! i = Some e' -> answering (server s') e' -> healthy (server s') e' q.
Proof.
  intros Hrun. revert e. induction Hrun as [s|a b c Hab Hbc IH]; intros e Hinv Hi Hok Hi' Hans; [congruence|].
  pose proof (hl_peer _ _ _ Hok) as Hq.
  destruct (meanwhile_end _ _ _ _ _ Hinv Hi Hq Hab) as (e1 & Hi1 & Hq1 & _).
  pose proof (meanwhile_inv _ _ _ _ Hab Hinv) as Hinv1. apply (IH e1); try done.
  destruct (meanwhile_run _ _ _ _ _ Hbc Hinv1 Hi1 Hq1) as (_ & e2 & Hi2 & _ & Hr2 & Ha2 & Hf2).
  assert (e2 = e') as -> by congruence.
  assert (answering (server b) e1) as Hans1 by (eapply answering_before; [done| |done..]; by rewrite Hr2).
  destruct Hab as (ev & [Hc|Hb] & Es).
  - exact (carry_healthy _ _ _ _ _ _ _ Hinv Hi Hc Es Hi1 Hans1 Hok).
  - assert (e1 = e) as -> by (pose proof (bystander_end _ _ _ _ _ _ Hi Hq Hb Es); congruence).
    exact (bystander_healthy _ _ _ _ _ _ Hinv Hi Hb Es Hok).
Qed.

Lemma carry_meanwhile (s s' : Sys) i q : rtc (carry_step i q) s s' -> rtc (meanwhile i q) s s'.
Proof. apply rtc_subrel. intros a b (ev & Hc & Es). exists ev. auto. Qed.

Lemma meanwhile_reachable (s s' : Sys) i q : rtc (meanwhile i q) s s' -> sys_reachable s -> sys_reachable s'.
Proof.
  intros Hrun Hs. induction Hrun as [s|a b c (ev & _ & Es) _ IH]; [done|].
  apply IH. eapply rtc_r; [exact Hs|]. by exists ev.
Qed.

(** The work on client [i] can be carried on until it has settled. *)
Lemma settles (s : Sys) i q : sn (carry_step i q) s -> exists s', rtc (carry_step i q) s s' /\ settled i q s'.
Proof.
  induction 1 as [s _ IH]. destruct (settled_or_moves i q s) as [Hs|(ev & s1 & Hev & Es)].
  - exists s. by split; [apply rtc_refl|].
  - destruct (IH s1) as (s' & Hr & Hset); [by exists ev|]. exists s'. split; [|done].
    eapply rtc_l; [|exact Hr]. by exists ev.
Qed.

(** The work with other steps of the system in between, at most so many of them. *)
Definition paced (i : nat) (q : conn_ptr) (a b : nat * Sys) : Prop :=
  carry_step i q a.2 b.2 /\ b.1 = a.1 \/
  a.1 = S b.1 /\ exists ev, bystander i q a.2 ev /\ sys_step a.2 ev = Some b.2.

Lemma paced_meanwhile i q a b : paced i q a b -> meanwhile i q a.2 b.2.
Proof. intros [[(ev & Hc & Es) _]|(_ & ev & Hb & Es)]; exists ev; auto. Qed.

(** They only delay its end. *)
Lemma paced_terminates (s : Sys) i q e k :
  sys_inv s -> ends s !! i = Some e -> peer e = Some q -> sn (paced i q) (k, s).
Proof.
  revert s e. induction k as [|k IH]; intros s e Hinv Hi Hq;
    pose proof (carry_terminates s i q e Hinv Hi Hq) as Hsn; revert e Hinv Hi Hq;
    induction Hsn as [s _ IHs]; intros e Hinv Hi Hq; constructor; intros [k' s'] Hp;
    destruct (meanwhile_end _ _ _ _ _ Hinv Hi Hq (paced_meanwhile _ _ _ _ Hp)) as (e' & Hi' & Hq' & _);
    pose proof (meanwhile_inv _ _ _ _ (paced_meanwhile _ _ _ _ Hp) Hinv) as Hinv';
    cbn [fst snd] in *; destruct Hp as [[Hc Ek]|[Ek _]]; cbn [fst snd] in *; simplify_eq; eauto.
Qed.

(** Once nothing is left to do, every call has been executed once and answered. *)
Lemma settled_calls s s' i e e' q :
  sys_reachable s -> ends s !! i = Some e -> healthy (server s) e q ->
  rtc (meanwhile i q) s s' -> settled i q s' -> ends s' !! i = Some e' -> answering (server s') e' ->
  requests (client e') = requests (client e) /\
  forall p req, requests (client e) !! p = Some req ->
    exists a r, executions (server s') e' p = [a] /\
      process_dispatch req (an_manager a) RpcResponse_init = Ok r /\
      promises (client e') !! p = Some (Ready r).
Proof.
  intros Hr Hi Hok Hrun Hset Hi' Hans.
  pose proof (sys_reachable_inv s Hr) as Hinv. pose proof (hl_peer _ _ _ Hok) as Hq.
  destruct (meanwhile_run _ _ _ _ _ Hrun Hinv Hi Hq) as (Hinv' & e1 & Hi1 & _ & Hreq & _).
  assert (e1 = e') as -> by congruence. split; [done|]. intros p req Hp.
  pose proof (meanwhile_healthy _ _ _ _ _ _ Hrun Hinv Hi Hok Hi' Hans) as Hok'.
  pose proof (meanwhile_reachable _ _ _ _ Hrun Hr) as Hr'. rewrite <- Hreq in Hp.
  destruct (call_settled s' i e' q p req Hr' Hi' (an_fits _ _ Hans) Hok' Hset (an_refused _ _ Hans) Hp) as (a & Ea & Hout & Hprom).
  assert (a ∈ answers_to (server s') e') as Ha.
  { assert (a ∈ executions (server s') e' p) as [_ Ha]%list_elem_of_filter; [|done].
    rewrite Ea. by apply list_elem_of_singleton. }
  pose proof (an_returns _ _ Hans) as Hret. rewrite Forall_forall in Hret. destruct (Hret a Ha) as [r Hres].
  exists a, r. split_and!; [done|congruence|by apply Hprom].
Qed.

(** ** Theorem *)

(** C2: calls complete.  Take any reachable state in which the connection of client
    [i] is intact.  The threads and handlers working on its calls, those of the
    server's pool included, come to an end: no run of their steps is infinite, and
    neither is one with any finite number of other steps in between (other clients
    and their connections, connections accepted, services registered).  From
    wherever such a run has got to, the work alone goes on to a state in which none
    is left to do.  And if in that state every handler run for the client has given
    a response that fits its frame and the pool has refused no task, each call made
    has been executed exactly once, on its own request, and its future holds that
    response.  (Others that never stop feeding the pool are not covered.) *)
Theorem calls_complete s i e q :
  sys_reachable s -> ends s !! i = Some e -> healthy (server s) e q ->
  (forall others, sn (paced i q) (others, s)) /\
  (forall s', rtc (meanwhile i q) s s' -> exists s'', rtc (carry_step i q) s' s'' /\ settled i q s'') /\
  forall s' e', rtc (meanwhile i q) s s' -> settled i q s' -> ends s' !! i = Some e' ->
    answering (server s') e' ->
    requests (client e') = requests (client e) /\
    forall p req, requests (client e) !! p = Some req ->
      exists a r, executions (server s') e' p = [a] /\
        process_dispatch req (an_manager a) RpcResponse_init = Ok r /\
        promises (client e') !! p = Some (Ready r).
Proof.
  intros Hr Hi Hok. split_and!.
  - intros others. eapply paced_terminates; [by apply sys_reachable_inv|exact Hi|apply Hok].
  - intros s' Hrun. destruct (meanwhile_run _ _ _ _ _ Hrun (sys_reachable_inv _ Hr) Hi (hl_peer _ _ _ Hok))
      as (Hinv' & e' & Hi' & Hq' & _). by eapply settles, carry_terminates.
  - intros s' e' Hrun Hset Hi' Hans. exact (settled_calls s s' i e e' q Hr Hi Hok Hrun Hset Hi' Hans).
Qed.
End completion.

(** ** A run *)

Section drive.
Context {X E : Type} {HX : Executor task X E} {HR : ExecutorRests task X E}.

(** A scheduler: it says from where on the list of steps to try to look for a
    possible one. *)
Variable pick : System (X := X) -> nat.

Definition candidates (i : nat) (q : conn_ptr) (s : System (X := X)) : list (sys_event (E := E)) :=
  drop (pick s) (next_events i q s) ++ take (pick s) (next_events i q s).

Definition advance (i : nat) (q : conn_ptr) (s : System (X := X)) : option (System (X := X)) :=
  foldr (fun ev r => match sys_step s ev with Some s' => Some s' | None => r end) None (candidates i q s).

Fixpoint drive (n : nat) (i : nat) (q : conn_ptr) (s : System (X := X)) : System (X := X) :=
  match n with
  | O => s
  | S n => match advance i q s with Some s' => drive n i q s' | None => s end
  end.

Lemma candidates_next i q s : candidates i q s ≡ₚ next_events i q s.
Proof. unfold candidates. by rewrite (Permutation_app_comm _ (take _ _)), take_drop. Qed.

Lemma advance_carries i q s s' : advance i q s = Some s' -> carry_step i q s s'.
Proof.
  unfold advance. pose proof (next_carries (E := E) i q s) as Hc. rewrite <- candidates_next in Hc.
  induction (candidates i q s) as [|ev l IH]; [done|]. apply Forall_cons in Hc as [Hev Hc]. cbn.
  destruct (sys_step s ev) as [s1|] eqn:Es; [|by apply IH]. intros [= <-]. by exists ev.
Qed.

Lemma advance_settled i q s : advance i q s = None -> settled i q s.
Proof.
  unfold advance, settled. rewrite <- candidates_next. induction (candidates i q s) as [|ev l IH]; [done|].
  cbn. destruct (sys_step s ev) eqn:Es; [done|]. constructor; auto.
Qed.

Lemma drive_carries n i q s : rtc (carry_step i q) s (drive n i q s).
Proof.
  revert s. induction n as [|n IH]; intros s; cbn; [done|].
  destruct (advance i q s) as [s'|] eqn:Ea; [|done]. eapply rtc_l; [by apply advance_carries|apply IH].
Qed.
End drive.

#[local] Existing Instance two_threads | 0.
#[local] Existing Instance two_threads_rest | 0.

(** A client connects to a server with [echo_service] and a pool of two threads, and
    calls it twice. *)
Definition sys_run (evs : list (sys_event (E := pool_event task))) : System (X := ThreadPool task) :=
  default System_init (run sys_step evs System_init).

Definition echo_called : System (X := ThreadPool task) :=
  sys_run [YServer SvSetPool; YServer (SvManager (Register (Some echo_service))); YServer (SvStart 9000 None); YServer (SvCycle CRun);
    YOpen; YClient 0 KConnect; YClient 0 (KConnected true); YAccept 0;
    YServer (SvCycle CInsert); YServer (SvCycle CStart); YServer (SvCycle CAgain);
    YClient 0 (KCall (echo_request "Echo")); YClient 0 (KCall (echo_request "None"))].

Definition echo_done : System (X := ThreadPool task) := drive (fun _ => 3%nat) 100 0 0 echo_called.
Definition the_end (s : System (X := ThreadPool task)) : endpoint := default endpoint_init (ends s !! 0%nat).

Lemma sys_run_reachable evs : sys_reachable (sys_run evs).
Proof. apply run_reachable. Qed.

Lemma echo_called_healthy : healthy (server echo_called) (the_end echo_called) 0.
Proof. split; by vm_compute. Qed.

Lemma echo_done_reachable : sys_reachable echo_done.
Proof. eapply meanwhile_reachable; [apply carry_meanwhile, drive_carries|apply sys_run_reachable]. Qed.

Lemma answers_good (l : list answer) :
  forallb (fun a => match an_out a with Ok r => bool_decide (response_fits r) | _ => false end) l = true ->
  Forall (fun a => exists r, an_out a = Ok r /\ response_fits r) l.
Proof.
  intros Hb. apply Forall_forall. intros a Ha%list_elem_of_In.
  apply (proj1 (forallb_forall _ _) Hb) in Ha. destruct (an_out a) as [r| |]; try done.
  exists r. split; [done|]. by eapply bool_decide_unpack, Is_true_true.
Qed.

Lemma echo_done_answering : answering (server echo_done) (the_end echo_done).
Proof.
  assert (Forall (fun a => exists r, an_out a = Ok r /\ response_fits r)
    (answers_to (server echo_done) (the_end echo_done))) as Hall by (apply answers_good; by vm_compute).
  split; [split| |by vm_compute].
  - by vm_compute.
  - apply (bool_decide_unpack _). by vm_compute.
  - eapply Forall_impl; [exact Hall|]. intros a (r & -> & Hr) resp [= <-]. exact Hr.
  - eapply Forall_impl; [exact Hall|]. intros a (r & Hr & _). by exists r.
Qed.

Lemma calls_complete_witness :
  sn (paced (E := pool_event task) 0 0) (5%nat, echo_called) /\
  exists r, promises (client (the_end echo_done)) !! 0%nat = Some (Ready r).
Proof.
  destruct (calls_complete echo_called 0 (the_end echo_called) 0) as (Hsn & _ & H).
  - apply sys_run_reachable.
  - by vm_compute.
  - exact echo_called_healthy.
  - split; [exact (Hsn 5%nat)|].
    destruct (H echo_done (the_end echo_done)) as (_ & Hp).
    + apply carry_meanwhile, drive_carries.
    + apply (advance_settled (fun _ => 3%nat)). by vm_compute.
    + by vm_compute.
    + exact echo_done_answering.
    + destruct (Hp 0%nat (echo_request "Echo")) as (a & r & _ & _ & Hr); [by vm_compute|]. by exists r.
Defined.

Lemma calls_return_their_execution_witness :
  (length (executions (server echo_done) (the_end echo_done) 1) <= 1)%nat /\
  length (executions (server echo_done) (the_end echo_done) 1) = 1%nat.
Proof.
  split; [|by vm_compute].
  apply (calls_return_their_execution echo_done 0 (the_end echo_done) 1 (echo_request "None")).
  - exact echo_done_reachable.
  - by vm_compute.
  - apply echo_done_answering.
  - by vm_compute.
Defined.

Lemma wire_well_typed_witness : exists fs,
  sent (down (the_end echo_done)) `prefix_of` stream fs /\ (2 <= length fs)%nat.
Proof.
  destruct (wire_well_typed echo_done 0 (the_end echo_done)) as (_ & fs & Hs & Hg & _).
  - exact echo_done_reachable.
  - by vm_compute.
  - apply echo_done_answering.
  - exists fs. split; [exact Hs|]. apply prefix_length in Hg.
    assert (length (got (client (the_end echo_done))) = 2%nat) as El by by vm_compute. lia.
Defined.
