(* ===== verification/RpcWork.v ===== *)
(** * A client at work, from its connection on

    Everything the threads, the handlers and the network do by themselves for one
    client: its connection is established and accepted, its calls are carried on,
    each in whatever order.  A scheduler picks the steps one by one; a thread that
    waits goes on when the scheduler lets it, which it can do as soon as what the
    thread waits for has come about.  There is always an end to the work. *)
From S2P Require Import Prelude WriteQueue Protocol Framing Connection ConnectionManager MessageCycle.
From S2P Require Import Executor RpcServer Wire RpcClient RpcSystem RpcProgress RpcLiveness RpcCompletion.
Import RpcServer RpcSystem.

Section work.
Context {X E : Type} {HX : Executor task X E} {HR : ExecutorRests task X E}.

Abbreviation Sys := (System (X := X)).
Abbreviation Server := (RpcServer (X := X)).
Abbreviation event := (sys_event (E := E)).

(** ** The steps *)

(** The rest of the accept handler. *)
Definition arriving (ev : server_event (E := E)) : bool :=
  match ev with SvCycle (CInsert | CStart | CAgain) => true | _ => false end.

(** Those of the server, [p] being its connection to the client. *)
Definition works_on (p : option conn_ptr) (srv : Server) (ev : server_event (E := E)) : bool :=
  match ev with
  | SvCycle (CInsert | CStart | CAgain) => true
  | SvCycle (CConn q ev) => bool_decide (p = Some q) && conn_carries ev
  | SvMessage q => bool_decide (p = Some q)
  | SvReplied j => bool_decide (is_Some p /\ replying srv !! j = p)
  | SvPool x => ex_internal x
  | _ => false
  end.

Definition works (i : nat) (s : Sys) (ev : event) : bool :=
  match ends s !! i with
  | None => false
  | Some e =>
      match ev with
      | YServer ev => works_on (peer e) (server s) ev
      | YClient j ev => bool_decide (j = i) && (client_carries ev || match ev with KConnected true => true | _ => false end)
      | YAccept j | YUp j _ | YDown j _ => bool_decide (j = i)
      | YOpen => false
      end
  end.

Definition try (i : nat) (s : Sys) (ev : event) : option Sys :=
  if works i s ev then sys_step s ev else None.

Definition work_step (i : nat) (s s' : Sys) : Prop := exists ev, try i s ev = Some s'.

(** The client's connection on its way. *)
Definition arrivals (i : nat) : list event :=
  [YClient i (KConnected true); YAccept i; YServer (SvCycle CInsert); YServer (SvCycle CStart); YServer (SvCycle CAgain)].

(** The ones to try. *)
Definition next_work (i : nat) (s : Sys) : list event :=
  arrivals i ++ next_events i (default 0%nat (ends s !! i ≫= peer)) s.

Definition idle (i : nat) (s : Sys) : Prop := Forall (fun ev => try i s ev = None) (next_work i s).

(** ** Where the steps lead *)

Lemma sys_step_client (s s' : Sys) ev i e :
  sys_step s ev = Some s' -> ends s !! i = Some e -> exists e', ends s' !! i = Some e' /\
    (client e' = client e \/ exists cev, ev = YClient i cev /\ client_step (client e) cev = Some (client e')) /\
    (peer e' = peer e \/ peer e = None /\ ev = YAccept i).
Proof.
  intros Es Hi. assert (i < length (ends s))%nat as Hl by by eapply lookup_lt_Some.
  assert (forall j f f' es, ends s !! j = Some f -> es = <[j := f']> (ends s) -> exists e', es !! i = Some e' /\ (e' = e \/ j = i /\ e' = f')) as Hins.
  { intros j f f' es Hj ->. destruct (decide (j = i)) as [->|Hne].
    - exists f'. rewrite list_lookup_insert_eq by done. auto.
    - exists e. rewrite list_lookup_insert_ne by done. auto. }
  destruct ev as [ev| |j ev|j|j m|j m]; cbn [sys_step] in Es.
  - destruct (server_step (server s) ev) as [srv|] eqn:Esv; [|done]. cbn [mbind option_bind] in Es.
    destruct (match ev with SvCycle _ => _ | _ => _ end) as [es|] eqn:Ees; [|done]. injection Es as <-. cbn [ends].
    assert (es = ends s \/ exists q, server_io q match ev with SvCycle (CConn _ cev) => cev | _ => EvClose end s = Some es) as [->|[q Eio]].
    { destruct ev as [| | | |[| | | | | |q cev| | | |]| | |]; try (left; congruence). right. by exists q. }
    { exists e. auto. }
    unfold server_io in Eio. destruct (find_end q (ends s)) as [[j f]|] eqn:Ef; [|injection Eio as <-; exists e; auto].
    destruct (heap (cycle_ (server s)) !! q); [|done]. cbn in Eio. destruct (conn_io _ _ _ _) as [ud|]; [|done]. cbn in Eio.
    injection Eio as <-. destruct (find_end_spec _ _ _ _ Ef) as [Hj _].
    destruct (Hins j f (set_pipes ud f) _ Hj eq_refl) as (e' & He' & [->|[-> ->]]); [exists e; auto|].
    assert (f = e) as -> by congruence. exists (set_pipes ud e). auto.
  - injection Es as <-. exists e. split; [by apply lookup_app_l_Some|auto].
  - destruct (ends s !! j) as [f|] eqn:Hj; [|done]. cbn in Es.
    destruct (client_step (client f) ev) as [c|] eqn:Ec; [|done]. cbn in Es.
    destruct (client_io _ _ _ _) as [ud|]; [|done]. injection Es as <-. cbn [ends].
    destruct (Hins j f (set_pipes ud (set_client c f)) _ Hj eq_refl) as (e' & He' & [->|[-> ->]]); [exists e; auto|].
    assert (f = e) as -> by congruence. eexists. split; [exact He'|]. split; [|by left]. right. by exists ev.
  - destruct (ends s !! j) as [f|] eqn:Hj; [|done]. cbn [mbind option_bind] in Es.
    destruct (peer f) eqn:Hp, (reaching (client f)); try done.
    destruct (server_step (server s) _) as [srv|]; [|done]. injection Es as <-. cbn [ends].
    destruct (Hins j f (set_peer (length (heap (cycle_ (server s)))) f) _ Hj eq_refl) as (e' & He' & [->|[-> ->]]); [exists e; auto|].
    assert (f = e) as -> by congruence. eexists. split; [exact He'|]. auto.
  - destruct (ends s !! j) as [f|] eqn:Hj; [|done]. cbn in Es. destruct (pump m (up f)) as [p|]; [|done]. injection Es as <-.
    cbn [ends]. destruct (Hins j f (set_pipes (p, down f) f) _ Hj eq_refl) as (e' & He' & [->|[-> ->]]); [exists e; auto|].
    assert (f = e) as -> by congruence. eexists. split; [exact He'|]. auto.
  - destruct (ends s !! j) as [f|] eqn:Hj; [|done]. cbn in Es. destruct (pump m (down f)) as [p|]; [|done]. injection Es as <-.
    cbn [ends]. destruct (Hins j f (set_pipes (up f, p) f) _ Hj eq_refl) as (e' & He' & [->|[-> ->]]); [exists e; auto|].
    assert (f = e) as -> by congruence. eexists. split; [exact He'|]. auto.
Qed.

(** What such a step does to the client. *)
Lemma set_value_decided p v p' r' c :
  v <> Waiting -> promises c !! p = Some v -> promises (set_value p' r' c) !! p = Some v.
Proof.
  intros Hv Hp. unfold set_value. destruct (promises c !! p') as [[]|] eqn:Hp'; try done. cbn.
  rewrite list_lookup_insert_ne; [done|]. intros ->. congruence.
Qed.

Lemma stop_reading_decided p v reason c :
  v <> Waiting -> promises c !! p = Some v -> promises (stop_reading reason c) !! p = Some v.
Proof.
  intros Hv Hp. unfold stop_reading, reject_all_pending. cbn [set_pending promises].
  assert (forall l d, promises d !! p = Some v ->
    promises (foldl (fun c q => set_value q (closed_response reason) c) d l) !! p = Some v) as Hf; [|by apply Hf].
  induction l as [|q l IH]; intros d Hd; [done|]. apply IH. by apply set_value_decided.
Qed.

Lemma carry_connecting c ev c' :
  client_carries ev = true -> client_step c ev = Some c' -> connecting c' = connecting c.
Proof.
  intros Hev E0. unfold client_step in E0. destruct (terminated c); [done|]. client_cases ev E0.
  all: try done.
  all: try (match goal with |- context [set_value ?p ?r ?d] =>
    destruct (set_value_frame p r d) as (_ & _ & _ & _ & _ & _ & _ & [= -> _ _ _]) end; done).
  all: match goal with |- context [stop_reading ?r ?d] =>
    destruct (fold_set_value_frame (closed_response r) ((map_to_list (pending_ d)).*2)
      (set_reader RStopped (got d) d)) as (_ & _ & _ & _ & _ & _ & _ & [= E1 _ _ _]) end; exact E1.
Qed.

Lemma carry_decided c ev c' p v :
  client_carries ev = true -> client_step c ev = Some c' -> v <> Waiting ->
  promises c !! p = Some v -> promises c' !! p = Some v.
Proof.
  intros Hev E0 Hv Hp. unfold client_step in E0. destruct (terminated c); [done|]. client_cases ev E0.
  all: try first [by apply set_value_decided|by apply stop_reading_decided].
  cbn. unfold abandon. destruct (promises c !! n) as [[]|] eqn:En; try done.
  rewrite list_lookup_insert_ne; [done|]. intros ->. congruence.
Qed.

(** One step of the work: the client's part of it. *)
Lemma work_client i (s s' : Sys) e :
  work_step i s s' -> ends s !! i = Some e -> exists e', ends s' !! i = Some e' /\
    requests (client e') = requests (client e) /\
    (connecting (client e') = connecting (client e) \/
     connecting (client e) = Connecting /\ client e' = connect_done true (client e)) /\
    (forall p v, v <> Waiting -> promises (client e) !! p = Some v -> promises (client e') !! p = Some v).
Proof.
  intros (ev & Et) Hi. unfold try in Et. destruct (works i s ev) eqn:Hw; [|done].
  destruct (sys_step_client s s' ev i e Et Hi) as (e' & Hi' & Hc & _). exists e'. split; [done|].
  destruct Hc as [->|(cev & -> & Ec)]; [auto|].
  unfold works in Hw. rewrite Hi in Hw. apply andb_true_iff in Hw as [_ [Hcar|Hcon]%orb_true_iff].
  - split_and!; [by eapply client_carry_requests|left; by eapply carry_connecting|]. intros p v. by eapply carry_decided.
  - destruct cev as [|[]| | | | | | | | | | |]; try done. unfold client_step in Ec. destruct (terminated _); [done|].
    destruct (connecting (client e)) eqn:En; try done. destruct (io_runs _); [|done]. injection Ec as <-. auto.
Qed.

(** ** What the accept handler works with *)

Definition desk (c : MessageCycle) : accept_chain * ConnectionManager * bool :=
  (chain c, conn_mgr_ c, MessageCycle.running_ c).

Lemma desk_conn_event q ev c c' : conn_event_on q ev c = Some c' -> desk c' = desk c.
Proof.
  unfold conn_event_on. destruct (heap c !! q) as [d|]; [|done]. destruct (conn_step d ev); [|done]. by intros [= <-].
Qed.

Lemma desk_callback_ends q r (srv srv' : Server) :
  callback_ends q r srv = Some srv' -> desk (cycle_ srv') = desk (cycle_ srv).
Proof.
  unfold callback_ends. destruct (conn_event_on q (EvCallback r) (cycle_ srv)) as [c|] eqn:Ec; [|done].
  intros [= <-]. by eapply desk_conn_event.
Qed.

Lemma desk_process_and_send t (srv srv' : Server) :
  process_and_send t srv = Some srv' -> desk (cycle_ srv') = desk (cycle_ srv).
Proof.
  unfold process_and_send. destruct t as [q [h b]]. intros Es. destruct (heap (cycle_ srv) !! q) as [d|]; [|done].
  cbn [mbind option_bind] in Es. destruct (response_to h _) as [[rh rb]| |]; [|by injection Es as <-..].
  destruct (conn_event_on q (EvSend rh rb) (cycle_ srv)) as [c|] eqn:Ec; [|done]. injection Es as <-. by eapply desk_conn_event.
Qed.

Lemma desk_on_message q (srv srv' : Server) : on_message q srv = Some srv' -> desk (cycle_ srv') = desk (cycle_ srv).
Proof.
  unfold on_message. intros Es. destruct (heap (cycle_ srv) !! q) as [d|]; [|done]. cbn in Es.
  destruct (reading d); try done. destruct (bool_decide _); [done|].
  destruct (thread_pool_ srv) as [x|].
  - destruct (ex_submit _ x); by apply desk_callback_ends in Es.
  - destruct (process_and_send _ _) as [s1|] eqn:Ep; [|done]. cbn in Es. apply desk_process_and_send in Ep.
    destruct (response_to h _); [by injection Es as <-|..]; apply desk_callback_ends in Es; by rewrite Es.
Qed.

Lemma desk_server (srv srv' : Server) ev :
  server_step srv ev = Some srv' ->
  match ev with SvCycle (CConn _ _) | SvMessage _ | SvReplied _ | SvPool _ => True | _ => False end ->
  desk (cycle_ srv') = desk (cycle_ srv).
Proof.
  intros Es Hev. destruct ev as [| | | |[| | | | | |q cev| | | |]|q|j|x]; try done; cbn [server_step] in Es.
  - destruct (server_only _); [done|]. destruct (cycle_step _ _) as [c|] eqn:Ec; [|done]. injection Es as <-.
    cbn in Ec. destruct (is_start cev); [done|]. by eapply desk_conn_event.
  - by eapply desk_on_message.
  - unfold reply_done in Es. destruct (replying srv !! j); [|done]. cbn in Es.
    destruct (heap _ !! _) as [d|]; [|done]. cbn in Es. destruct (senders d); [|done]. by apply desk_callback_ends in Es.
  - destruct (thread_pool_ srv) as [y|]; [|done]. cbn in Es. destruct (ex_step y x) as [y'|]; [|done]. cbn in Es.
    destruct (ex_runs y x); [by apply desk_process_and_send in Es|by injection Es as <-].
Qed.

(** ** The work ends *)

(** What is left of the connection's way to the read loop, before the stages of
    the calls. *)
Definition arrival_weight (c : MessageCycle) (e : endpoint) : nat :=
  (match connecting (client e) with Connecting => 1 | _ => 0 end +
   match peer e with None => 4 | Some _ => 0 end +
   match chain c with Identified _ _ => 3 | Inserted _ => 2 | Served => 1 | _ => 0 end)%nat.

Definition work_left (s : Sys) (e : endpoint) : list nat :=
  arrival_weight (cycle_ (server s)) e :: stages (default 0%nat (peer e)) (server s) e.

Lemma lower_arrival (s s' : Sys) e e' :
  (arrival_weight (cycle_ (server s')) e' < arrival_weight (cycle_ (server s)) e)%nat ->
  lex (work_left s' e') (work_left s e).
Proof. intros Hlt. by left. Qed.

Lemma lower_stages (s s' : Sys) e e' q :
  desk (cycle_ (server s')) = desk (cycle_ (server s)) -> peer e' = peer e -> q = default 0%nat (peer e) ->
  connecting (client e') = connecting (client e) ->
  lex (stages q (server s') e') (stages q (server s) e) -> lex (work_left s' e') (work_left s e).
Proof.
  intros [= Ed _ _] Hp -> Hc Hlex. right. unfold arrival_weight. by rewrite Ed, Hp, Hc.
Qed.

(** The accept handler. *)
Lemma chain_lowers (s s' : Sys) ev e :
  server_step (E := E) (server s) (SvCycle ev) = Some (server s') ->
  match ev with CInsert | CStart | CAgain => True | _ => False end ->
  (arrival_weight (cycle_ (server s')) e < arrival_weight (cycle_ (server s)) e)%nat.
Proof.
  intros Es Hev. cbn [server_step] in Es. destruct (server_only ev); [done|].
  destruct (cycle_step (cycle_ (server s)) ev) as [c|] eqn:Ec; [|done]. injection Es as Es. rewrite <- Es.
  unfold arrival_weight. destruct ev; try done; cbn in Ec; unfold accept_insert, accept_start, accept_again in Ec;
    destruct (chain (cycle_ (server s))); try done; injection Ec as <-; cbn; try lia.
  destruct (MessageCycle.running_ _); cbn; lia.
Qed.

(** A worker of the pool, before the client's connection is accepted. *)
Lemma process_and_send_replying t (srv srv' : Server) :
  process_and_send t srv = Some srv' -> replying srv' = replying srv /\ thread_pool_ srv' = thread_pool_ srv.
Proof.
  unfold process_and_send. destruct t as [q [h b]]. intros Es. destruct (heap (cycle_ srv) !! q) as [d|]; [|done].
  cbn [mbind option_bind] in Es. destruct (response_to h _) as [[rh rb]| |]; [|by injection Es as <-..].
  destruct (conn_event_on q (EvSend rh rb) (cycle_ srv)) as [c|]; [|done]. by injection Es as <-.
Qed.

Lemma pool_lowers_early q (srv srv' : Server) e x :
  server_reachable srv -> peer e = None -> ex_internal x = true -> server_step srv (SvPool x) = Some srv' ->
  lex (stages q srv' e) (stages q srv e).
Proof.
  intros Hr Hq Hi Es. pose proof (si_pool _ (server_reachable_inv _ Hr)) as Hp. cbn in Es.
  destruct (thread_pool_ srv) as [y|] eqn:Hy; [|done]. cbn in Es. destruct Hp as [Hok _].
  destruct (ex_step y x) as [y'|] eqn:Ey; [|done]. cbn in Es.
  assert (replying srv' = replying srv /\ thread_pool_ srv' = Some y') as [Hrep Ht].
  { destruct (ex_runs y x); [by apply process_and_send_replying in Es|by injection Es as <-]. }
  unfold stages. rewrite Hrep, Hy, Ht, !peer_conn_none by done. cbn [lex].
  do 4 (right; split; [done|]). left. by eapply ex_work_decreases.
Qed.

Lemma works_on_carries p q i (s : Sys) ev :
  works_on p (server s) ev = true -> p = Some q ->
  arriving ev = false -> carries i q s (YServer ev).
Proof.
  intros Hw -> Hne. destruct ev as [| | | |[| | | | | |q' cev| | | |]|q'|j|x]; try done; cbn in Hw |- *.
  - apply andb_true_iff in Hw as [H%bool_decide_eq_true ?]. by injection H as ->.
  - apply bool_decide_eq_true in Hw. by injection Hw as ->.
  - by apply bool_decide_eq_true in Hw as [_ ?].
Qed.

Lemma server_part (s s' : Sys) ev :
  sys_step s (YServer ev) = Some s' -> server_step (server s) ev = Some (server s').
Proof.
  cbn [sys_step]. destruct (server_step (server s) ev) as [srv|]; [|done]. cbn [mbind option_bind].
  destruct (match ev with SvCycle _ => _ | _ => _ end); [|done]. by intros [= <-].
Qed.

Lemma server_work_lowers (s s' : Sys) i e e' ev :
  sys_inv s -> ends s !! i = Some e -> ends s' !! i = Some e' -> client e' = client e -> peer e' = peer e ->
  works_on (peer e) (server s) ev = true -> sys_step s (YServer ev) = Some s' ->
  lex (work_left s' e') (work_left s e).
Proof.
  intros Hinv Hi Hi' Hc Hp Hw Es. pose proof (server_part _ _ _ Es) as Esv.
  destruct (arriving ev) eqn:Hne.
  - apply lower_arrival.
    assert (forall c, arrival_weight c e' = arrival_weight c e) as -> by (intros; unfold arrival_weight; by rewrite Hc, Hp).
    destruct ev as [| | | |cev| | |]; try done. apply (chain_lowers s s' cev); [done|by destruct cev].
  - eapply lower_stages; [|exact Hp|reflexivity|by rewrite Hc|].
    + apply (desk_server _ _ ev Esv). by destruct ev as [| | | |[]| | |].
    + destruct (peer e) as [q|] eqn:Hq; cbn [default].
      * assert (carries i q s (YServer ev)) as Hcar.
        { by eapply works_on_carries. }
        destruct (carry_lowers _ _ _ _ _ _ Hinv Hi Hq Hcar Es) as (e1 & Hi1 & _ & _ & Hlex). by simplify_eq.
      * destruct ev as [| | | |[]|q|j|x]; try done; cbn in Hw;
          try (by apply bool_decide_eq_true in Hw as [[? ?] _]).
        cbn [sys_step] in Es. rewrite Esv in Es. injection Es as Es. rewrite <- Es in Hi'. cbn in Hi'.
        assert (e' = e) as -> by congruence. by eapply pool_lowers_early; [apply Hinv|..].
Qed.

Lemma work_lowers (s s' : Sys) i e :
  sys_inv s -> work_step i s s' -> ends s !! i = Some e ->
  exists e', ends s' !! i = Some e' /\ lex (work_left s' e') (work_left s e).
Proof.
  intros Hinv (ev & Et) Hi. unfold try in Et. destruct (works i s ev) eqn:Hw; [|done].
  destruct (sys_step_client s s' ev i e Et Hi) as (e' & Hi' & Hc & Hp). exists e'. split; [done|].
  assert (i < length (ends s))%nat as Hl by by eapply lookup_lt_Some.
  unfold works in Hw. rewrite Hi in Hw. destruct ev as [ev| |j ev|j|j m|j m]; [|done|..].
  - destruct Hc as [Hc|(? & ? & _)]; [|done]. destruct Hp as [Hp|(_ & ?)]; [|done]. by eapply server_work_lowers.
  - apply andb_true_iff in Hw as [->%bool_decide_eq_true Hw%orb_true_iff].
    cbn [sys_step] in Et. rewrite Hi in Et. cbn [mbind option_bind] in Et.
    destruct (client_step (client e) ev) as [c|] eqn:Ec; [|done]. cbn [mbind option_bind] in Et.
    destruct (client_io (client e) ev (up e) (down e)) as [ud|] eqn:Eio; [|done]. injection Et as <-.
    cbn [ends] in Hi'. rewrite list_lookup_insert_eq in Hi' by done. injection Hi' as <-. destruct Hw as [Hw|Hw].
    + eapply lower_stages; [done..|by eapply carry_connecting|].
      eapply client_carry_lowers; eauto. apply (sy_end _ Hinv i e Hi).
    + destruct ev as [|[]| | | | | | | | | | |]; try done. unfold client_step in Ec. destruct (terminated _); [done|].
      destruct (connecting (client e)) eqn:En; try done. destruct (io_runs _); [|done]. injection Ec as <-.
      apply lower_arrival. unfold arrival_weight. rewrite En. cbn. lia.
  - apply bool_decide_eq_true in Hw as ->. cbn [sys_step] in Et. rewrite Hi in Et. cbn [mbind option_bind] in Et.
    destruct (peer e) eqn:Hq, (reaching (client e)); try done.
    cbn [server_step server_only cycle_step] in Et. destruct (chain (cycle_ (server s))) eqn:Hch; try done.
    cbn [mbind option_bind] in Et. injection Et as <-.
    cbn [ends] in Hi'. rewrite list_lookup_insert_eq in Hi' by done. injection Hi' as <-.
    apply lower_arrival. unfold arrival_weight. rewrite Hq, Hch. cbn. lia.
  - apply bool_decide_eq_true in Hw as ->. cbn in Et. rewrite Hi in Et. cbn in Et.
    destruct (pump m (up e)) as [p|] eqn:Ep; [|done]. injection Et as <-.
    cbn [ends] in Hi'. rewrite list_lookup_insert_eq in Hi' by done. injection Hi' as <-.
    eapply lower_stages; [done..|]. cbn [server lex stages]. do 2 (right; split; [done|]). left. by eapply pump_left.
  - apply bool_decide_eq_true in Hw as ->. cbn in Et. rewrite Hi in Et. cbn in Et.
    destruct (pump m (down e)) as [p|] eqn:Ep; [|done]. injection Et as <-.
    cbn [ends] in Hi'. rewrite list_lookup_insert_eq in Hi' by done. injection Hi' as <-.
    eapply lower_stages; [done..|]. cbn [server lex stages]. do 7 (right; split; [done|]). left. by eapply pump_left.
Qed.

Lemma work_inv i (s s' : Sys) : work_step i s s' -> sys_inv s -> sys_inv s'.
Proof. intros (ev & Et) Hs. unfold try in Et. destruct (works i s ev); [|done]. by eapply sys_step_inv. Qed.

Lemma work_reachable i (s s' : Sys) : rtc (work_step i) s s' -> sys_reachable s -> sys_reachable s'.
Proof.
  intros Hrun Hs. induction Hrun as [s|a b c (ev & Et) _ IH]; [done|].
  apply IH. eapply rtc_r; [exact Hs|]. exists ev. unfold try in Et. by destruct (works i a ev).
Qed.

(** No run of the work is infinite. *)
Lemma work_terminates (s : Sys) i : sys_inv s -> sn (work_step i) s.
Proof.
  intros Hinv. destruct (ends s !! i) as [e|] eqn:Hi.
  2: { constructor. intros s' (ev & Et). unfold try, works in Et. by rewrite Hi in Et. }
  remember (work_left s e) as l eqn:El.
  assert (Acc (fun a b => length a = length b /\ lex a b) l) as Hacc by (eapply lex_wf; reflexivity).
  revert s e Hinv Hi El. induction Hacc as [l _ IH]. intros s e Hinv Hi ->. constructor. intros s' Hst.
  destruct (work_lowers s s' i e Hinv Hst Hi) as (e' & Hi' & Hlex).
  eapply IH; [|by eapply work_inv|exact Hi'|done]. by split.
Qed.
End work.

(** ** The scheduler *)

Section scheduled.
Context {X E : Type} {HX : Executor task X E} {HR : ExecutorRests task X E}.

Abbreviation Sys := (System (X := X)).
Abbreviation event := (sys_event (E := E)).

(** It looks at the system and names the next step; naming none, or one that is
    not possible, leaves the turn to the thread that waits.  The system's state
    keeps its histories and each step of the work brings its end nearer
    ([work_lowers]), so no state comes twice in a run: whatever order the steps of a
    run have, there is a scheduler that picks it. *)
Variable pick : Sys -> option event.

Definition chosen (i : nat) (s : Sys) : option Sys := ev ← pick s; try i s ev.

(** The first step that is possible, when the waiting thread cannot go on either. *)
Definition possible (i : nat) (s : Sys) : option Sys :=
  foldr (fun ev r => match try i s ev with Some s' => Some s' | None => r end) None (next_work i s).

Definition move (ready : Sys -> bool) (i : nat) (s : Sys) : option Sys :=
  match chosen i s with
  | Some s' => Some s'
  | None => if ready s then None else possible i s
  end.

Lemma possible_works i s s' : possible i s = Some s' -> work_step i s s'.
Proof.
  unfold possible. induction (next_work i s) as [|ev l IH]; [done|]. cbn.
  destruct (try i s ev) as [s1|] eqn:Et; [|done]. intros [= <-]. by exists ev.
Qed.

Lemma possible_none i s : possible i s = None -> idle i s.
Proof.
  unfold possible, idle. induction (next_work i s) as [|ev l IH]; [done|]. cbn.
  destruct (try i s ev) eqn:Et; [done|]. constructor; auto.
Qed.

Lemma move_works ready i s s' : move ready i s = Some s' -> work_step i s s'.
Proof.
  unfold move, chosen. destruct (pick s) as [ev|]; cbn.
  - destruct (try i s ev) as [s1|] eqn:Et; [intros [= <-]; by exists ev|].
    destruct (ready s); [done|apply possible_works].
  - destruct (ready s); [done|apply possible_works].
Qed.

Lemma move_none ready i s : move ready i s = None -> ready s = true \/ idle i s.
Proof.
  unfold move. destruct (chosen i s); [done|]. destruct (ready s); [by left|]. intros Hp. right.
  by apply possible_none.
Qed.

(** A thread that waits for [ready]: the rest of the system runs, and when
    [ready] holds and the scheduler gives it the turn, it goes on. *)
Definition until (ready : Sys -> bool) (i : nat) (s : Sys) (H : sn (work_step i) s) :
  { s' | rtc (work_step i) s s' /\ (ready s' = true \/ idle i s') }.
Proof.
  induction H as [s _ IH]. destruct (move ready i s) as [s1|] eqn:Em.
  - apply move_works in Em. destruct (IH s1 Em) as (s' & Hr & Hs). exists s'. split; [|done].
    by eapply rtc_l.
  - exists s. split; [constructor|by eapply move_none].
Defined.
End scheduled.
