(* ===== verification/Balancer.v ===== *)
(** * Load balancing: [src/conn_balancer/conn_balancer.h/.cpp]

    A strategy object is a tagged value carrying its state.  The random
    strategies draw from [std::uniform_int_distribution]; the draw is an argument
    [rnd] of [select], mapped into the distribution's range, so every outcome
    the code can have is the outcome for some [rnd]. *)
From S2P Require Import Prelude.

Record Endpoint := {
  name : str;
  address : str;
  weight : Z   (* int *)
}.

#[export] Instance Endpoint_eq_dec : EqDecision Endpoint.
Proof. solve_decision. Defined.

(** [BalancerStrategy] and its subclasses. *)
Inductive BalancerStrategy :=
  | RoundRobinStrategy (counter_ : Z)   (* uint64_t *)
  | RandomStrategy
  | WeightedStrategy.

Definition BalancerStrategy_name (s : BalancerStrategy) : str :=
  match s with
  | RoundRobinStrategy _ => bs "round_robin"
  | RandomStrategy => bs "random"
  | WeightedStrategy => bs "weighted"
  end.

(** [nodes[i]] *)
Definition vector_at {A} (l : list A) (i : Z) : outcome A :=
  if i <? 0 then UB else match l !! Z.to_nat i with Some x => Ok x | None => UB end.

(** [uniform_int_distribution(lo, hi)]; [lo > hi] is undefined. *)
Definition uniform (lo hi rnd : Z) : outcome Z :=
  if hi <? lo then UB else Ok (lo + rnd mod (hi - lo + 1)).

(** Addition of [int]s; overflow is undefined. *)
Definition int_add (a b : Z) : outcome Z :=
  if bool_decide (- 2 ^ 31 <= a + b < 2 ^ 31) then Ok (a + b) else UB.

Fixpoint total_weight (total : Z) (nodes : list Endpoint) : outcome Z :=
  match nodes with
  | [] => Ok total
  | n :: r => total ← int_add total (weight n); total_weight total r
  end.

(** The second loop; [None] when it runs through. *)
Fixpoint weighted_pick (r accum : Z) (nodes : list Endpoint) : outcome (option Endpoint) :=
  match nodes with
  | [] => Ok None
  | n :: rest =>
      accum ← int_add accum (weight n);
      if r <? accum then Ok (Some n) else weighted_pick r accum rest
  end.

Definition weighted_select (nodes : list Endpoint) (rnd : Z) : outcome Endpoint :=
  match nodes with
  | [] => throw "Weighted: no nodes available"
  | _ =>
      total ← total_weight 0 nodes;
      if total <=? 0 then throw "Weighted: total weight <= 0"
      else
        r ← uniform 0 (total - 1) rnd;
        found ← weighted_pick r 0 nodes;
        match found with
        | Some n => Ok n
        | None => vector_at nodes (len nodes - 1)
        end
  end.

(** [strategy->select(nodes)]: the node and the strategy afterwards. *)
Definition strategy_select (s : BalancerStrategy) (nodes : list Endpoint) (rnd : Z)
    : outcome Endpoint * BalancerStrategy :=
  match s with
  | RoundRobinStrategy counter_ =>
      match nodes with
      | [] => (throw "RoundRobin: no nodes available", s)
      | _ => (vector_at nodes (counter_ mod len nodes), RoundRobinStrategy (u64 (counter_ + 1)))
      end
  | RandomStrategy =>
      match nodes with
      | [] => (throw "Random: no nodes available", s)
      | _ => (i ← uniform 0 (len nodes - 1) rnd; vector_at nodes i, s)
      end
  | WeightedStrategy => (weighted_select nodes rnd, s)
  end.

Definition create_strategy (nm : str) : BalancerStrategy :=
  if bool_decide (nm = bs "random") then RandomStrategy
  else if bool_decide (nm = bs "weighted") then WeightedStrategy
  else RoundRobinStrategy 0.

(** ** The balancer *)

Record LoadBalancer := { strategy_ : BalancerStrategy; nodes_ : list Endpoint }.

Definition LoadBalancer_init : LoadBalancer :=
  {| strategy_ := RoundRobinStrategy 0; nodes_ := [] |}.

(** A null pointer is ignored. *)
Definition set_strategy (s : option BalancerStrategy) (b : LoadBalancer) : LoadBalancer :=
  match s with
  | Some s => {| strategy_ := s; nodes_ := nodes_ b |}
  | None => b
  end.

Definition strategy_name (b : LoadBalancer) : str := BalancerStrategy_name (strategy_ b).

Definition reset (b : LoadBalancer) : LoadBalancer :=
  set_strategy (Some (create_strategy (strategy_name b))) b.

Definition set_nodes (nodes : list Endpoint) (b : LoadBalancer) : LoadBalancer :=
  reset {| strategy_ := strategy_ b; nodes_ := nodes |}.

Definition sync_nodes (nodes : list Endpoint) (b : LoadBalancer) : LoadBalancer :=
  reset {| strategy_ := strategy_ b; nodes_ := nodes |}.

Definition select (rnd : Z) (b : LoadBalancer) : outcome Endpoint * LoadBalancer :=
  let '(r, s) := strategy_select (strategy_ b) (nodes_ b) rnd in
  (r, {| strategy_ := s; nodes_ := nodes_ b |}).

Fixpoint find_node (nm : str) (nodes : list Endpoint) : option Endpoint :=
  match nodes with
  | [] => None
  | n :: r => if bool_decide (name n = nm) then Some n else find_node nm r
  end.

Definition find (nm : str) (b : LoadBalancer) : option Endpoint := find_node nm (nodes_ b).

Definition add_node (ep : Endpoint) (b : LoadBalancer) : LoadBalancer :=
  {| strategy_ := strategy_ b; nodes_ := nodes_ b ++ [ep] |}.

(** [find_if] and [erase]: the first match goes. *)
Fixpoint erase_node (nm : str) (nodes : list Endpoint) : option (list Endpoint) :=
  match nodes with
  | [] => None
  | n :: r => if bool_decide (name n = nm) then Some r
              else r' ← erase_node nm r; Some (n :: r')
  end.

Definition remove_node (nm : str) (b : LoadBalancer) : bool * LoadBalancer :=
  match erase_node nm (nodes_ b) with
  | None => (false, b)
  | Some r => (true, {| strategy_ := strategy_ b; nodes_ := r |})
  end.

(** A run of [k] selections with the draws [rnds]. *)
Fixpoint select_many (rnds : list Z) (b : LoadBalancer) : list (outcome Endpoint) * LoadBalancer :=
  match rnds with
  | [] => ([], b)
  | r :: rnds =>
      let '(o, b) := select r b in
      let '(os, b) := select_many rnds b in
      (o :: os, b)
  end.

(** ** Reference: cumulative weights *)

Fixpoint weights (nodes : list Endpoint) : Z :=
  match nodes with
  | [] => 0
  | n :: r => weight n + weights r
  end.

(** The sum of the first [i] weights. *)
Definition weight_before (nodes : list Endpoint) (i : nat) : Z := weights (take i nodes).

(** Weights the strategy is meant for: none negative, and a sum an [int] holds. *)
Definition weights_ok (nodes : list Endpoint) : Prop :=
  Forall (fun n => 0 <= weight n) nodes /\ weights nodes < 2 ^ 31.

(** ** Lemmas *)

Lemma vector_at_lookup {A} (l : list A) i x :
  0 <= i -> l !! Z.to_nat i = Some x -> vector_at l i = Ok x.
Proof. intros Hi Hx. unfold vector_at. destruct (Z.ltb_spec i 0); [lia|]. by rewrite Hx. Qed.

Lemma vector_at_in {A} (l : list A) i : 0 <= i < len l -> exists x, vector_at l i = Ok x /\ x ∈ l.
Proof.
  intros Hi. destruct (lookup_lt_is_Some_2 l (Z.to_nat i)) as [x Hx]; [unfold len in *; lia|].
  exists x. split; [apply vector_at_lookup; [lia|done]|]. by eapply list_elem_of_lookup_2.
Qed.

Lemma weights_nonneg nodes : Forall (fun n => 0 <= weight n) nodes -> 0 <= weights nodes.
Proof. induction 1; cbn; lia. Qed.

Lemma int_add_small a b : - 2 ^ 31 <= a + b < 2 ^ 31 -> int_add a b = Ok (a + b).
Proof. intros H. unfold int_add. by rewrite bool_decide_eq_true_2. Qed.

Lemma total_weight_eq nodes total :
  Forall (fun n => 0 <= weight n) nodes -> 0 <= total -> total + weights nodes < 2 ^ 31 ->
  total_weight total nodes = Ok (total + weights nodes).
Proof.
  intros Hn. revert total. induction Hn as [|n nodes Hw Hn IH]; intros total Ht Hb; cbn in *;
    [f_equal; lia|].
  pose proof (weights_nonneg nodes Hn). rewrite int_add_small by lia. cbn. rewrite IH by lia.
  f_equal. lia.
Qed.

(** The loop stops at the node whose interval of cumulative weights holds [r]. *)
Lemma weighted_pick_at nodes i n r accum :
  Forall (fun n => 0 <= weight n) nodes -> 0 <= accum -> accum + weights nodes < 2 ^ 31 ->
  nodes !! i = Some n ->
  accum + weight_before nodes i <= r < accum + weight_before nodes i + weight n ->
  weighted_pick r accum nodes = Ok (Some n).
Proof.
  intros Hn. revert i accum. induction Hn as [|m nodes Hw Hn IH]; intros i accum Ha Hb Hi Hr; [done|].
  cbn in *. pose proof (weights_nonneg nodes Hn). rewrite int_add_small by lia. cbn.
  destruct i as [|i]; cbn in Hi, Hr; unfold weight_before in Hr; cbn in Hr.
  - simplify_eq. destruct (Z.ltb_spec r (accum + weight n)); [done|lia].
  - assert (0 <= weights (take i nodes)) by (apply weights_nonneg; by apply Forall_take).
    destruct (Z.ltb_spec r (accum + weight m)); [lia|]. apply IH with i; try done; unfold weight_before; lia.
Qed.

(** Every number below the total lies in the interval of exactly one node. *)
Lemma interval_of nodes r :
  Forall (fun n => 0 <= weight n) nodes -> 0 <= r < weights nodes ->
  exists i n, nodes !! i = Some n /\
    weight_before nodes i <= r < weight_before nodes i + weight n.
Proof.
  intros Hn. revert r. induction Hn as [|m nodes Hw Hn IH]; intros r Hr; cbn in Hr; [lia|].
  destruct (Z.lt_ge_cases r (weight m)).
  - exists O, m. unfold weight_before. cbn. split; [done|lia].
  - destruct (IH (r - weight m)) as (i & n & Hi & Hri); [lia|].
    exists (S i), n. unfold weight_before in *. cbn. split; [done|lia].
Qed.

Lemma weighted_pick_in nodes r accum n : weighted_pick r accum nodes = Ok (Some n) -> n ∈ nodes.
Proof.
  revert accum. induction nodes as [|m nodes IH]; intros accum E; cbn in E; [done|].
  destruct (int_add accum (weight m)) as [a| |]; try done. cbn in E.
  destruct (r <? a); [simplify_eq; set_solver|]. apply IH in E. set_solver.
Qed.

(** Round robin, selection by selection. *)
Lemma round_robin_many c nodes rnds :
  nodes <> [] -> 0 <= c -> c + len rnds < 2 ^ 64 ->
  exists os, select_many rnds {| strategy_ := RoundRobinStrategy c; nodes_ := nodes |} =
    (os, {| strategy_ := RoundRobinStrategy (c + len rnds); nodes_ := nodes |}) /\
  length os = length rnds /\
  forall k, (k < length rnds)%nat ->
    exists n, nodes !! Z.to_nat ((c + Z.of_nat k) mod len nodes) = Some n /\ os !! k = Some (Ok n).
Proof.
  intros Hn. revert c. induction rnds as [|r rnds IH]; intros c Hc Hb.
  - exists []. cbn. rewrite Z.add_0_r. split_and!; [done|done|]. intros k Hk. lia.
  - rewrite len_cons in Hb. pose proof (len_nonneg rnds).
    destruct (IH (c + 1)) as (os & E & Hl & Hk); [lia..|].
    assert (0 < len nodes) as Hpos by (destruct nodes; [done|rewrite len_cons; pose proof (len_nonneg nodes); lia]).
    pose proof (Z.mod_pos_bound c (len nodes) Hpos) as Hm.
    destruct (lookup_lt_is_Some_2 nodes (Z.to_nat (c mod len nodes))) as [n Hnth];
      [unfold len in *; lia|].
    exists (Ok n :: os). split_and!.
    + cbn [select_many]. unfold select, strategy_select. cbn [strategy_ nodes_].
      rewrite wrap_small by lia. rewrite (vector_at_lookup _ _ n) by (done || lia).
      destruct nodes; [done|]. rewrite E, len_cons. do 3 f_equal. lia.
    + cbn. by rewrite Hl.
    + intros [|k] Hlt.
      * exists n. rewrite Z.add_0_r. done.
      * destruct (Hk k) as (n' & Hn' & Ho); [cbn in Hlt; lia|]. exists n'. split; [|done].
        rewrite <- Hn'. do 3 f_equal. lia.
Qed.

(** ** Theorems *)

(** Round robin is fair.  [n] nodes selected [n] times in a row, from any
    counter that does not wrap around, give each node exactly once, in the list's
    order starting where the counter stands; in general selection [k] gives node
    [counter + k] modulo [n]. *)
Theorem round_robin_cycles c nodes rnds :
  nodes <> [] -> 0 <= c -> c + len rnds < 2 ^ 64 ->
  let '(os, b) := select_many rnds {| strategy_ := RoundRobinStrategy c; nodes_ := nodes |} in
  strategy_ b = RoundRobinStrategy (c + len rnds) /\
  len os = len rnds /\
  (forall k, (k < length rnds)%nat ->
     exists n, nodes !! Z.to_nat ((c + Z.of_nat k) mod len nodes) = Some n /\ os !! k = Some (Ok n)) /\
  (len rnds = len nodes -> os ≡ₚ Ok <$> nodes).
Proof.
  intros Hn Hc Hb. destruct (round_robin_many c nodes rnds Hn Hc Hb) as (os & -> & Hl & Hk).
  split_and!; [done|unfold len; by rewrite Hl|done|]. intros El.
  assert (0 < len nodes) as Hpos by (destruct nodes; [done|rewrite len_cons; pose proof (len_nonneg nodes); lia]).
  pose proof (Z.mod_pos_bound c (len nodes) Hpos) as Hm.
  set (m := Z.to_nat (c mod len nodes)).
  assert (os = Ok <$> (drop m nodes ++ take m nodes)) as ->.
  { apply list_eq_same_length with (length nodes).
    - rewrite length_fmap, length_app, length_drop, length_take. unfold m, len in *. lia.
    - unfold len in *. lia.
    - intros k x y Hlt Hx Hy. destruct (Hk k) as (n & Hnth & Ho); [unfold len in *; lia|].
      rewrite Hx in Ho. injection Ho as ->.
      rewrite list_lookup_fmap in Hy. rewrite Z.add_mod in Hnth by lia.
      rewrite (Z.mod_small (Z.of_nat k)) in Hnth by (unfold len; lia).
      assert ((drop m nodes ++ take m nodes) !! k = Some n) as Hr; [|rewrite Hr in Hy; by injection Hy].
      destruct (decide (m + k < length nodes)%nat) as [Hs|Hs].
      + rewrite lookup_app_l, lookup_drop by (rewrite length_drop; lia).
        rewrite Z.mod_small in Hnth by (unfold m, len in *; lia).
        rewrite <- Hnth. f_equal. unfold m. lia.
      + rewrite lookup_app_r, length_drop by (rewrite length_drop; lia).
        rewrite lookup_take_lt by lia.
        replace (c mod len nodes + Z.of_nat k) with (c mod len nodes + Z.of_nat k - len nodes + 1 * len nodes)
          in Hnth by lia.
        rewrite Z_mod_plus_full, Z.mod_small in Hnth by (unfold m, len in *; lia).
        rewrite <- Hnth. f_equal. unfold m, len in *. lia. }
  rewrite Permutation_app_comm. by rewrite take_drop.
Qed.

Definition three_nodes : list Endpoint :=
  [{| name := bs "a"; address := bs "10.0.0.1:80"; weight := 5 |};
   {| name := bs "b"; address := bs "10.0.0.2:80"; weight := 0 |};
   {| name := bs "c"; address := bs "10.0.0.3:80"; weight := 3 |}].

Lemma round_robin_cycles_witness :
  (select_many [0; 0; 0] {| strategy_ := RoundRobinStrategy 7; nodes_ := three_nodes |}).1
    ≡ₚ Ok <$> three_nodes.
Proof.
  pose proof (round_robin_cycles 7 three_nodes [0; 0; 0]) as H.
  destruct (select_many _ _) as [os b]. apply H; [done|lia|by vm_compute|done].
Defined.

(** C34: weighted selection is proportional.  With non-negative weights whose sum
    is positive and fits an [int], of the [total] equally likely draws exactly the
    [weight] consecutive ones starting at the sum of the weights before a node
    select that node, and these intervals cover all draws: a node is chosen with
    probability weight / total, a node of weight 0 never, and the fallback after
    the loop is never reached. *)
Theorem weighted_is_proportional nodes :
  weights_ok nodes -> 0 < weights nodes ->
  (forall i n r, nodes !! i = Some n ->
     weight_before nodes i <= r < weight_before nodes i + weight n ->
     weighted_select nodes r = Ok n) /\
  (forall r, 0 <= r < weights nodes -> exists i n, nodes !! i = Some n /\ 0 < weight n /\
     weight_before nodes i <= r < weight_before nodes i + weight n) /\
  (forall rnd, weighted_select nodes rnd = weighted_select nodes (rnd mod weights nodes)).
Proof.
  intros [Hn Hb] Hpos.
  assert (forall rnd, weighted_select nodes rnd =
    (found ← weighted_pick (rnd mod weights nodes) 0 nodes;
     match found with Some n => Ok n | None => vector_at nodes (len nodes - 1) end)) as Heq.
  { intros rnd. unfold weighted_select. destruct nodes as [|n0 l]; [done|].
    rewrite total_weight_eq by (done || lia). cbn [mbind outcome_bind]. rewrite Z.add_0_l.
    destruct (Z.leb_spec (weights (n0 :: l)) 0); [lia|].
    unfold uniform. destruct (Z.ltb_spec (weights (n0 :: l) - 1) 0); [lia|].
    cbn [mbind outcome_bind].
    replace (weights (n0 :: l) - 1 - 0 + 1) with (weights (n0 :: l)) by lia. by rewrite Z.add_0_l. }
  split_and!.
  - intros i n r Hi Hr. rewrite Heq.
    assert (0 <= weight_before nodes i) by (apply weights_nonneg; by apply Forall_take).
    assert (weight_before nodes i + weight n <= weights nodes) as Hle.
    { clear -Hn Hi. unfold weight_before. revert i Hi. induction Hn as [|m l Hw Hn IH]; intros [|i] Hi;
        try done; cbn in *; [simplify_eq; pose proof (weights_nonneg l Hn); lia|].
      specialize (IH i Hi). lia. }
    rewrite Z.mod_small by lia. rewrite (weighted_pick_at nodes i n r 0); [done|done|lia|lia|done|lia].
  - intros r Hr. destruct (interval_of nodes r Hn Hr) as (i & n & Hi & Hri). exists i, n.
    split_and!; [done|lia|lia..].
  - intros rnd. by rewrite !Heq, Z.mod_mod by lia.
Qed.

Lemma weighted_is_proportional_witness :
  weighted_select three_nodes 4 = Ok (default (Build_Endpoint [] [] 0) (three_nodes !! 0%nat)) /\
  weighted_select three_nodes 5 = Ok (default (Build_Endpoint [] [] 0) (three_nodes !! 2%nat)).
Proof.
  split.
  - apply (weighted_is_proportional three_nodes) with (i := 0%nat);
      [split; [apply (bool_decide_unpack _)|]; by vm_compute|by vm_compute|done|vm_compute; split; congruence].
  - apply (weighted_is_proportional three_nodes) with (i := 2%nat);
      [split; [apply (bool_decide_unpack _)|]; by vm_compute|by vm_compute|done|vm_compute; split; congruence].
Defined.

Lemma weighted_select_in nodes rnd :
  weights_ok nodes -> nodes <> [] ->
  (weights nodes = 0 -> weighted_select nodes rnd = throw "Weighted: total weight <= 0") /\
  (0 < weights nodes -> exists n, weighted_select nodes rnd = Ok n /\ n ∈ nodes).
Proof.
  intros [Hn Hb] Hne. pose proof (weights_nonneg nodes Hn). split; intros Hw.
  - unfold weighted_select. destruct nodes as [|m l]; [done|].
    rewrite total_weight_eq by (done || lia). cbn [mbind outcome_bind]. by rewrite Hw.
  - pose proof (Z.mod_pos_bound rnd (weights nodes) Hw) as Hr.
    destruct (interval_of nodes _ Hn Hr) as (i & n & Hi & Hri). exists n.
    split; [|by eapply list_elem_of_lookup_2].
    unfold weighted_select. destruct nodes as [|m l]; [done|].
    rewrite total_weight_eq by (done || lia). cbn [mbind outcome_bind]. rewrite Z.add_0_l.
    destruct (Z.leb_spec (weights (m :: l)) 0); [lia|].
    unfold uniform. destruct (Z.ltb_spec (weights (m :: l) - 1) 0); [lia|].
    cbn [mbind outcome_bind]. rewrite Z.add_0_l.
    replace (weights (m :: l) - 1 - 0 + 1) with (weights (m :: l)) by lia.
    by rewrite (weighted_pick_at (m :: l) i n _ 0) by (done || lia).
Qed.

Lemma create_own_strategy s :
  create_strategy (BalancerStrategy_name s) =
  match s with RoundRobinStrategy _ => RoundRobinStrategy 0 | other => other end.
Proof. by destruct s. Qed.

Lemma erase_find nm nodes :
  match find_node nm nodes with
  | Some n => exists l r, nodes = l ++ n :: r /\ erase_node nm nodes = Some (l ++ r) /\
                name n = nm /\ Forall (fun m => name m <> nm) l
  | None => erase_node nm nodes = None /\ Forall (fun m => name m <> nm) nodes
  end.
Proof.
  induction nodes as [|m nodes IH]; cbn; [done|].
  destruct (bool_decide_reflect (name m = nm)) as [Hm|Hm].
  - by exists [], nodes.
  - destruct (find_node nm nodes) as [n|].
    + destruct IH as (l & r & -> & -> & ? & ?). exists (m :: l), r. split_and!; auto.
    + destruct IH as [-> ?]. auto.
Qed.

(** A balancer selects members, and changing nodes does what it says.  With
    any strategy a selection either returns a node of the list or throws, it
    throws on the empty list, and round robin and random selection throw only
    there.  [set_nodes] and [sync_nodes] install the list, keep the strategy and
    restart it; [remove_node] removes the first node of the name, which is the one
    [find] reports, and reports whether there was one; a strategy created from
    the balancer's own strategy name is of the same kind. *)
Theorem balancer_spec b rnd nodes nm :
  weights_ok (nodes_ b) ->
  match (select rnd b).1 with
  | Ok n => n ∈ nodes_ b
  | Throw _ => nodes_ b = [] \/ strategy_ b = WeightedStrategy /\ weights (nodes_ b) = 0
  | UB => False
  end /\
  (nodes_ b = [] -> exists msg, (select rnd b).1 = Throw (runtime_error msg)) /\
  nodes_ (set_nodes nodes b) = nodes /\ set_nodes nodes b = sync_nodes nodes b /\
  strategy_name (set_nodes nodes b) = strategy_name b /\
  (forall c, strategy_ (set_nodes nodes b) = RoundRobinStrategy c -> c = 0) /\
  (let '(found, b') := remove_node nm b in
   match find nm b with
   | Some n => found = true /\ exists l r, nodes_ b = l ++ n :: r /\ nodes_ b' = l ++ r /\
                 name n = nm /\ Forall (fun m => name m <> nm) l
   | None => found = false /\ b' = b /\ Forall (fun m => name m <> nm) (nodes_ b)
   end).
Proof.
  intros Hok. assert (forall l : list Endpoint, l <> [] -> 0 < len l) as Hlen.
  { intros [|m l] ?; [done|]. rewrite len_cons. pose proof (len_nonneg l). lia. }
  split_and!.
  - unfold select. destruct (strategy_ b) as [c| |] eqn:Es; unfold strategy_select;
      destruct (nodes_ b) as [|m l] eqn:En; cbn [fst throw]; auto.
    + destruct (vector_at_in (m :: l) (c mod len (m :: l))) as (x & -> & ?); [|done].
      apply Z.mod_pos_bound, Hlen. done.
    + pose proof (Hlen (m :: l)) as Hl. unfold uniform.
      destruct (Z.ltb_spec (len (m :: l) - 1) 0); [specialize (Hl ltac:(done)); lia|].
      cbn [mbind outcome_bind].
      destruct (vector_at_in (m :: l) (0 + rnd mod (len (m :: l) - 1 - 0 + 1))) as (x & -> & ?); [|done].
      pose proof (Z.mod_pos_bound rnd (len (m :: l) - 1 - 0 + 1)). lia.
    + left. done.
    + destruct (weighted_select_in (m :: l) rnd Hok) as [H0 H1]; [done|].
      destruct (Z.eq_dec (weights (m :: l)) 0) as [E|E].
      * rewrite (H0 E). cbn. auto.
      * destruct H1 as (n & -> & ?); [|done].
        pose proof (weights_nonneg _ (proj1 Hok)). lia.
  - intros En. unfold select, strategy_select. rewrite En. destruct (strategy_ b); cbn; eauto.
  - done.
  - done.
  - unfold strategy_name, set_nodes, reset, strategy_name. cbn. by destruct (strategy_ b).
  - intros c. unfold set_nodes, reset, strategy_name. cbn [strategy_ set_strategy].
    rewrite create_own_strategy. destruct (strategy_ b); congruence.
  - unfold remove_node, find. pose proof (erase_find nm (nodes_ b)) as H.
    destruct (find_node nm (nodes_ b)) as [n|].
    + destruct H as (l & r & E & -> & ? & ?). split; [done|]. by exists l, r.
    + by destruct H as [-> ?].
Qed.

Lemma balancer_spec_witness :
  let b := {| strategy_ := RandomStrategy; nodes_ := three_nodes |} in
  match (select 11 b).1 with
  | Ok n => n ∈ nodes_ b
  | Throw _ => nodes_ b = [] \/ strategy_ b = WeightedStrategy /\ weights (nodes_ b) = 0
  | UB => False
  end.
Proof.
  apply (balancer_spec {| strategy_ := RandomStrategy; nodes_ := three_nodes |} 11 [] []).
  split; [apply (bool_decide_unpack _)|]; by vm_compute.
Defined.
