(* ===== verification/ZkProto.v ===== *)
(** * The ZooKeeper wire format: [include/zk_client/zk_proto.hpp]

    Requests append big-endian fields to a vector; replies are read through a
    [const char*&] that only moves forward and knows nothing of the end of the
    buffer.  A reader is a function from the bytes the pointer can still reach to
    a value and the remaining bytes; reaching past the end is undefined. *)
From S2P Require Import Prelude.

(** ** Writers *)

Definition write_int32 (buf : str) (v : Z) : str := buf ++ be_bytes 4 v.
Definition write_int64 (buf : str) (v : Z) : str := buf ++ be_bytes 8 v.
Definition write_bool (buf : str) (v : bool) : str := buf ++ [chr (if v then 1 else 0)].
Definition write_string (buf s : str) : str := write_int32 buf (i32 (len s)) ++ s.
Definition write_buffer (buf data : str) : str := write_int32 buf (i32 (len data)) ++ data.

(** ** Readers *)

Definition reader (A : Type) : Type := str -> outcome (A * str).

Definition rret {A} (a : A) : reader A := fun p => Ok (a, p).
Definition rbind {A B} (f : reader A) (k : A -> reader B) : reader B := fun p =>
  match f p with
  | Ok (a, r) => k a r
  | Throw e => Throw e
  | UB => UB
  end.

Declare Scope reader_scope.
Delimit Scope reader_scope with reader.
Notation "x <~ f ; k" := (rbind f (fun x => k))
  (at level 20, f at level 100, k at level 200, right associativity) : reader_scope.
#[local] Open Scope reader_scope.

(** The next [n] bytes. *)
Definition take_bytes (n : Z) : reader str := fun p =>
  if len p <? n then UB else Ok (take (Z.to_nat n) p, drop (Z.to_nat n) p).

Definition read_int32 : reader Z := b <~ take_bytes 4; rret (i32 (be_val b)).
Definition read_int64 : reader Z := b <~ take_bytes 8; rret (i64 (be_val b)).
Definition read_bool : reader bool := b <~ take_bytes 1; rret (negb (be_val b =? 0)).

(** [std::string(p, len)] converts a negative [len] to a size no string has. *)
Definition read_string : reader str :=
  l <~ read_int32;
  if l <? 0 then fun _ => Throw (other_std_exception (bs "basic_string::_M_create"))
  else take_bytes l.

(** [std::vector<char>(p, p + len)]: with a negative [len] not a range. *)
Definition read_buffer : reader str :=
  l <~ read_int32;
  if l <? 0 then fun _ => UB else take_bytes l.

(** ** Structures *)

Inductive op_code :=
  | op_auth | op_create | op_remove | op_exists | op_get_data | op_set_data | op_get_acl
  | op_set_acl | op_get_children | op_sync | op_ping | op_close_session.

Definition op_code_value (op : op_code) : Z :=
  match op with
  | op_auth => 100 | op_create => 1 | op_remove => 2 | op_exists => 3 | op_get_data => 4
  | op_set_data => 5 | op_get_acl => 6 | op_set_acl => 7 | op_get_children => 8 | op_sync => 9
  | op_ping => 11 | op_close_session => -11
  end.

Record zk_stat := {
  czxid : Z; mzxid : Z; ctime : Z; mtime : Z;
  version : Z; cversion : Z; aversion : Z;
  ephemeral_owner : Z; data_length : Z; num_children : Z; pzxid : Z
}.

Definition zk_stat_deserialize : reader zk_stat :=
  czxid <~ read_int64; mzxid <~ read_int64; ctime <~ read_int64; mtime <~ read_int64;
  version <~ read_int32; cversion <~ read_int32; aversion <~ read_int32;
  ephemeral_owner <~ read_int64; data_length <~ read_int32; num_children <~ read_int32;
  pzxid <~ read_int64;
  rret {| czxid := czxid; mzxid := mzxid; ctime := ctime; mtime := mtime; version := version;
          cversion := cversion; aversion := aversion; ephemeral_owner := ephemeral_owner;
          data_length := data_length; num_children := num_children; pzxid := pzxid |}.

Inductive permission := perm_none | perm_read | perm_write | perm_create | perm_delete | perm_admin | perm_all.
Definition permission_value (p : permission) : Z :=
  match p with
  | perm_none => 0 | perm_read => 1 | perm_write => 2 | perm_create => 4 | perm_delete => 8
  | perm_admin => 16 | perm_all => 31
  end.

Record zk_acl := { perms : permission; scheme : str; id : str }.

Definition zk_acl_serialize (a : zk_acl) (buf : str) : str :=
  let buf := write_int32 buf (permission_value (perms a)) in
  let buf := write_string buf (scheme a) in
  write_string buf (id a).

Definition acl_open_unsafe : list zk_acl :=
  [{| perms := perm_all; scheme := bs "world"; id := bs "anyone" |}].

Record request_header := { rq_xid : Z; opcode : Z }.
Definition request_header_serialize (h : request_header) (buf : str) : str :=
  write_int32 (write_int32 buf (rq_xid h)) (opcode h).

Record reply_header := { xid : Z; zxid : Z; err : Z }.
Definition reply_header_deserialize : reader reply_header :=
  xid <~ read_int32; zxid <~ read_int64; err <~ read_int32;
  rret {| xid := xid; zxid := zxid; err := err |}.

Record connect_request := {
  cq_protocol_version : Z; cq_last_zxid_seen : Z; cq_timeout_ms : Z; cq_session_id : Z;
  cq_passwd : str; cq_read_only : bool
}.
Definition connect_request_serialize (r : connect_request) : str :=
  let buf := write_int32 [] (cq_protocol_version r) in
  let buf := write_int64 buf (cq_last_zxid_seen r) in
  let buf := write_int32 buf (cq_timeout_ms r) in
  let buf := write_int64 buf (cq_session_id r) in
  let buf := write_buffer buf (cq_passwd r) in
  write_bool buf (cq_read_only r).

Record connect_response := {
  cs_protocol_version : Z; cs_timeout_ms : Z; cs_session_id : Z; cs_passwd : str; cs_read_only : bool
}.
Definition connect_response_deserialize : reader connect_response :=
  protocol_version <~ read_int32; timeout_ms <~ read_int32; session_id <~ read_int64;
  passwd <~ read_buffer; read_only <~ read_bool;
  rret {| cs_protocol_version := protocol_version; cs_timeout_ms := timeout_ms;
          cs_session_id := session_id; cs_passwd := passwd; cs_read_only := read_only |}.

Record create_request := {
  cr_path : str; cr_data : str; cr_acls : list zk_acl; cr_flags : Z
}.
Definition create_request_serialize_body (r : create_request) : str :=
  let buf := write_string [] (cr_path r) in
  let buf := write_buffer buf (cr_data r) in
  let buf := write_int32 buf (i32 (len (cr_acls r))) in
  let buf := foldl (fun buf a => zk_acl_serialize a buf) buf (cr_acls r) in
  write_int32 buf (cr_flags r).

Record create_response := { created_path : str }.
Definition create_response_deserialize : reader create_response :=
  path <~ read_string; rret {| created_path := path |}.

(** [get_children_request], [get_data_request] and [exists_request] have the
    same two fields. *)
Record path_watch := { pw_path : str; pw_watch : bool }.
Definition get_children_request_serialize_body (r : path_watch) : str :=
  write_bool (write_string [] (pw_path r)) (pw_watch r).
Definition get_data_request_serialize_body (r : path_watch) : str :=
  write_bool (write_string [] (pw_path r)) (pw_watch r).
Definition exists_request_serialize_body (r : path_watch) : str :=
  write_bool (write_string [] (pw_path r)) (pw_watch r).

Record get_children_response := { children : list str }.
(** The loop [for (i = 0; i < count; ++i)]. *)
Fixpoint read_strings (count : nat) : reader (list str) :=
  match count with
  | O => rret []
  | S n => s <~ read_string; r <~ read_strings n; rret (s :: r)
  end.
Definition get_children_response_deserialize : reader get_children_response :=
  count <~ read_int32;
  cs <~ read_strings (Z.to_nat count);
  rret {| children := cs |}.

Record get_data_response := { gd_data : str; gd_stat : zk_stat }.
Definition get_data_response_deserialize : reader get_data_response :=
  data <~ read_buffer; stat <~ zk_stat_deserialize;
  rret {| gd_data := data; gd_stat := stat |}.

Record exists_response := { ex_stat : zk_stat }.
Definition exists_response_deserialize : reader exists_response :=
  stat <~ zk_stat_deserialize; rret {| ex_stat := stat |}.

Record delete_request := { dl_path : str; dl_version : Z }.
Definition delete_request_serialize_body (r : delete_request) : str :=
  write_int32 (write_string [] (dl_path r)) (dl_version r).

Definition make_zpayload (body : str) : str := write_int32 [] (i32 (len body)) ++ body.

Definition zk_error_str (err : Z) : str :=
  if err =? 0 then bs "ok"
  else if err =? -1 then bs "system error"
  else if err =? -2 then bs "runtime inconsistency"
  else if err =? -3 then bs "data inconsistency"
  else if err =? -4 then bs "connection loss"
  else if err =? -5 then bs "marshalling error"
  else if err =? -6 then bs "unimplemented"
  else if err =? -7 then bs "operation timeout"
  else if err =? -8 then bs "bad arguments"
  else if err =? -100 then bs "api error"
  else if err =? -101 then bs "no node"
  else if err =? -102 then bs "no auth"
  else if err =? -103 then bs "bad version"
  else if err =? -108 then bs "no children for ephemerals"
  else if err =? -110 then bs "node exists"
  else if err =? -111 then bs "not empty"
  else bs "unknown error".

(** ** Reference encodings of what the server sends *)

Definition string_bytes (s : str) : str := be_bytes 4 (len s) ++ s.
Definition zk_stat_bytes (s : zk_stat) : str :=
  be_bytes 8 (czxid s) ++ be_bytes 8 (mzxid s) ++ be_bytes 8 (ctime s) ++ be_bytes 8 (mtime s) ++
  be_bytes 4 (version s) ++ be_bytes 4 (cversion s) ++ be_bytes 4 (aversion s) ++
  be_bytes 8 (ephemeral_owner s) ++ be_bytes 4 (data_length s) ++ be_bytes 4 (num_children s) ++
  be_bytes 8 (pzxid s).
Definition reply_header_bytes (h : reply_header) : str :=
  be_bytes 4 (xid h) ++ be_bytes 8 (zxid h) ++ be_bytes 4 (err h).
Definition connect_response_bytes (r : connect_response) : str :=
  be_bytes 4 (cs_protocol_version r) ++ be_bytes 4 (cs_timeout_ms r) ++
  be_bytes 8 (cs_session_id r) ++ string_bytes (cs_passwd r) ++
  [chr (if cs_read_only r then 1 else 0)].
Definition strings_bytes (l : list str) : str := concat (string_bytes <$> l).
Definition get_children_response_bytes (r : get_children_response) : str :=
  be_bytes 4 (len (children r)) ++ strings_bytes (children r).
Definition get_data_response_bytes (r : get_data_response) : str :=
  string_bytes (gd_data r) ++ zk_stat_bytes (gd_stat r).

Definition int32 (z : Z) : Prop := - 2 ^ 31 <= z < 2 ^ 31.
Definition int64 (z : Z) : Prop := - 2 ^ 63 <= z < 2 ^ 63.
Definition sized (s : str) : Prop := len s < 2 ^ 31.

Definition zk_stat_wf (s : zk_stat) : Prop :=
  int64 (czxid s) /\ int64 (mzxid s) /\ int64 (ctime s) /\ int64 (mtime s) /\
  int32 (version s) /\ int32 (cversion s) /\ int32 (aversion s) /\
  int64 (ephemeral_owner s) /\ int32 (data_length s) /\ int32 (num_children s) /\ int64 (pzxid s).
Definition reply_header_wf (h : reply_header) : Prop := int32 (xid h) /\ int64 (zxid h) /\ int32 (err h).
Definition connect_response_wf (r : connect_response) : Prop :=
  int32 (cs_protocol_version r) /\ int32 (cs_timeout_ms r) /\ int64 (cs_session_id r) /\
  sized (cs_passwd r).
Definition get_children_response_wf (r : get_children_response) : Prop :=
  len (children r) < 2 ^ 31 /\ Forall sized (children r).
Definition get_data_response_wf (r : get_data_response) : Prop := sized (gd_data r) /\ zk_stat_wf (gd_stat r).

(** ** Lemmas *)

Lemma rbind_ok {A B} (f : reader A) (k : A -> reader B) p a r :
  f p = Ok (a, r) -> rbind f k p = k a r.
Proof. intros E. unfold rbind. by rewrite E. Qed.

Lemma take_bytes_app n b r : len b = n -> take_bytes n (b ++ r) = Ok (b, r).
Proof.
  intros <-. unfold take_bytes. rewrite len_app. pose proof (len_nonneg r).
  destruct (Z.ltb_spec (len b + len r) (len b)); [lia|].
  by rewrite len_to_nat, take_app_length, drop_app_length.
Qed.

Lemma read_int32_bytes v r : int32 v -> read_int32 (be_bytes 4 v ++ r) = Ok (v, r).
Proof.
  intros Hv. unfold read_int32. erewrite rbind_ok by (apply take_bytes_app; by rewrite len_be_bytes).
  unfold rret. rewrite be_val_bytes. change (v mod 2 ^ (8 * Z.of_nat 4)) with (wrap 32 v).
  rewrite swrap_wrap by (unfold int32 in Hv; lia). done.
Qed.

Lemma read_int64_bytes v r : int64 v -> read_int64 (be_bytes 8 v ++ r) = Ok (v, r).
Proof.
  intros Hv. unfold read_int64. erewrite rbind_ok by (apply take_bytes_app; by rewrite len_be_bytes).
  unfold rret. rewrite be_val_bytes. change (v mod 2 ^ (8 * Z.of_nat 8)) with (wrap 64 v).
  rewrite swrap_wrap by (unfold int64 in Hv; lia). done.
Qed.

Lemma read_bool_bytes (b : bool) r : read_bool ([chr (if b then 1 else 0)] ++ r) = Ok (b, r).
Proof.
  unfold read_bool. erewrite rbind_ok by (apply take_bytes_app; reflexivity).
  by destruct b.
Qed.

Lemma sized_int32 s : sized s -> int32 (len s).
Proof. intros Hs. unfold sized, int32 in *. pose proof (len_nonneg s). lia. Qed.

Lemma read_string_bytes s r : sized s -> read_string (string_bytes s ++ r) = Ok (s, r).
Proof.
  intros Hs. unfold read_string, string_bytes. rewrite <- app_assoc.
  erewrite rbind_ok by (apply read_int32_bytes; by apply sized_int32).
  pose proof (len_nonneg s). destruct (Z.ltb_spec (len s) 0); [lia|]. by apply take_bytes_app.
Qed.

Lemma read_buffer_bytes s r : sized s -> read_buffer (string_bytes s ++ r) = Ok (s, r).
Proof.
  intros Hs. unfold read_buffer, string_bytes. rewrite <- app_assoc.
  erewrite rbind_ok by (apply read_int32_bytes; by apply sized_int32).
  pose proof (len_nonneg s). destruct (Z.ltb_spec (len s) 0); [lia|]. by apply take_bytes_app.
Qed.

(** Read the next field of a reference encoding. *)
Ltac next_field :=
  first
    [ erewrite rbind_ok by (apply read_int32_bytes; assumption)
    | erewrite rbind_ok by (apply read_int64_bytes; assumption)
    | erewrite rbind_ok by (apply read_string_bytes; assumption)
    | erewrite rbind_ok by (apply read_buffer_bytes; assumption)
    | erewrite rbind_ok by apply read_bool_bytes ].

Lemma zk_stat_decode s r : zk_stat_wf s -> zk_stat_deserialize (zk_stat_bytes s ++ r) = Ok (s, r).
Proof.
  intros (?&?&?&?&?&?&?&?&?&?&?). unfold zk_stat_deserialize, zk_stat_bytes. rewrite <- !app_assoc.
  do 11 next_field. by destruct s.
Qed.

Lemma reply_header_decode h r :
  reply_header_wf h -> reply_header_deserialize (reply_header_bytes h ++ r) = Ok (h, r).
Proof.
  intros (?&?&?). unfold reply_header_deserialize, reply_header_bytes. rewrite <- !app_assoc.
  do 3 next_field. by destruct h.
Qed.

Lemma connect_response_decode c r :
  connect_response_wf c -> connect_response_deserialize (connect_response_bytes c ++ r) = Ok (c, r).
Proof.
  intros (?&?&?&?). unfold connect_response_deserialize, connect_response_bytes.
  rewrite <- !app_assoc. do 5 next_field. by destruct c.
Qed.

Lemma read_strings_bytes l r :
  Forall sized l -> read_strings (length l) (strings_bytes l ++ r) = Ok (l, r).
Proof.
  induction 1 as [|s l Hs _ IH]; [done|]. unfold strings_bytes in *. cbn -[string_bytes].
  rewrite <- app_assoc. next_field. by erewrite rbind_ok by exact IH.
Qed.

Lemma get_children_decode c r :
  get_children_response_wf c ->
  get_children_response_deserialize (get_children_response_bytes c ++ r) = Ok (c, r).
Proof.
  intros [Hl Hs]. unfold get_children_response_deserialize, get_children_response_bytes.
  rewrite <- app_assoc. assert (int32 (len (children c))) by (unfold int32; pose proof (len_nonneg (children c)); lia).
  next_field. rewrite len_to_nat. erewrite rbind_ok by (by apply read_strings_bytes). by destruct c.
Qed.

Lemma get_data_decode d r :
  get_data_response_wf d -> get_data_response_deserialize (get_data_response_bytes d ++ r) = Ok (d, r).
Proof.
  intros [Hd Hs]. unfold get_data_response_deserialize, get_data_response_bytes.
  rewrite <- app_assoc. next_field. erewrite rbind_ok by (by apply zk_stat_decode). by destruct d.
Qed.

Lemma create_decode c r :
  sized (created_path c) ->
  create_response_deserialize (string_bytes (created_path c) ++ r) = Ok (c, r).
Proof. intros Hs. unfold create_response_deserialize. next_field. by destruct c. Qed.

Lemma exists_decode e r :
  zk_stat_wf (ex_stat e) -> exists_response_deserialize (zk_stat_bytes (ex_stat e) ++ r) = Ok (e, r).
Proof.
  intros Hs. unfold exists_response_deserialize. erewrite rbind_ok by (by apply zk_stat_decode).
  by destruct e.
Qed.

(** ** Readers do not look ahead

    What a reader does with a buffer it does with every longer one. *)
Class Stable {A} (f : reader A) := {
  stable_ok p a r x : f p = Ok (a, r) -> f (p ++ x) = Ok (a, r ++ x);
  stable_throw p e x : f p = Throw e -> f (p ++ x) = Throw e
}.

#[export] Instance take_bytes_stable n : Stable (take_bytes n).
Proof.
  split; intros p; unfold take_bytes; intros;
    match goal with H : (if ?b then _ else _) = _ |- _ => destruct b eqn:E; [done|] end; [|done].
  simplify_eq. apply Z.ltb_ge in E. pose proof (len_nonneg x).
  destruct (Z.ltb_spec (len (p ++ x)) n); [rewrite len_app in *; lia|].
  by rewrite take_app_le, drop_app_le by (unfold len in *; lia).
Qed.

#[export] Instance rret_stable {A} (a : A) : Stable (rret a).
Proof. split; unfold rret; intros; by simplify_eq. Qed.

#[export] Instance ub_stable {A} : Stable (fun _ => UB : outcome (A * str)).
Proof. by split. Qed.
#[export] Instance throw_stable {A} e : Stable (fun _ => Throw e : outcome (A * str)).
Proof. by split. Qed.

#[export] Instance rbind_stable {A B} (f : reader A) (k : A -> reader B) :
  Stable f -> (forall a, Stable (k a)) -> Stable (rbind f k).
Proof.
  intros Hf Hk. split; unfold rbind; intros p; intros;
    destruct (f p) as [[a' r']|e'|] eqn:E; try done.
  - rewrite (stable_ok _ _ _ x E). by apply stable_ok.
  - rewrite (stable_ok _ _ _ x E). by apply stable_throw.
  - simplify_eq. by rewrite (stable_throw _ _ x E).
Qed.

#[export] Instance if_stable {A} (b : bool) (f g : reader A) :
  Stable f -> Stable g -> Stable (if b then f else g).
Proof. by destruct b. Qed.

#[export] Instance read_strings_stable n : Stable (read_strings n).
Proof. induction n as [|n IH]; cbn; unfold read_string, read_int32; apply _. Qed.

(** A strict prefix of a complete encoding makes a stable reader run off the
    end. *)
Lemma truncated_ub {A} (f : reader A) `{!Stable f} e a p q :
  f e = Ok (a, []) -> e = p ++ q -> q <> [] -> f p = UB.
Proof.
  intros Hf -> Hq. destruct (f p) as [[b r]|x|] eqn:E; [|by rewrite (stable_throw _ _ q E) in Hf|done].
  rewrite (stable_ok _ _ _ q E) in Hf. injection Hf as _ Hr. by destruct r, q.
Qed.

#[export] Instance zk_stat_stable : Stable zk_stat_deserialize.
Proof. unfold zk_stat_deserialize, read_int64, read_int32. apply _. Qed.
#[export] Instance read_string_stable : Stable read_string.
Proof. unfold read_string, read_int32. apply _. Qed.
#[export] Instance read_buffer_stable : Stable read_buffer.
Proof. unfold read_buffer, read_int32. apply _. Qed.
#[export] Instance reply_header_stable : Stable reply_header_deserialize.
Proof. unfold reply_header_deserialize, read_int32, read_int64. apply _. Qed.
#[export] Instance connect_response_stable : Stable connect_response_deserialize.
Proof. unfold connect_response_deserialize, read_int32, read_int64, read_bool. apply _. Qed.
#[export] Instance create_response_stable : Stable create_response_deserialize.
Proof. unfold create_response_deserialize. apply _. Qed.
#[export] Instance get_children_stable : Stable get_children_response_deserialize.
Proof. unfold get_children_response_deserialize, read_int32. apply _. Qed.
#[export] Instance get_data_stable : Stable get_data_response_deserialize.
Proof. unfold get_data_response_deserialize. apply _. Qed.
#[export] Instance exists_stable : Stable exists_response_deserialize.
Proof. unfold exists_response_deserialize. apply _. Qed.

(** ** Theorems *)

(** What each reader is meant for: values, encodings, and which values fit. *)
Record format (A : Type) := {
  fmt_read : reader A;
  fmt_bytes : A -> str;
  fmt_wf : A -> Prop
}.
Arguments fmt_read {A}. Arguments fmt_bytes {A}. Arguments fmt_wf {A}.

Definition reply_header_format : format reply_header :=
  {| fmt_read := reply_header_deserialize; fmt_bytes := reply_header_bytes; fmt_wf := reply_header_wf |}.
Definition connect_response_format : format connect_response :=
  {| fmt_read := connect_response_deserialize; fmt_bytes := connect_response_bytes;
     fmt_wf := connect_response_wf |}.
Definition create_response_format : format create_response :=
  {| fmt_read := create_response_deserialize; fmt_bytes c := string_bytes (created_path c);
     fmt_wf c := sized (created_path c) |}.
Definition get_children_response_format : format get_children_response :=
  {| fmt_read := get_children_response_deserialize; fmt_bytes := get_children_response_bytes;
     fmt_wf := get_children_response_wf |}.
Definition get_data_response_format : format get_data_response :=
  {| fmt_read := get_data_response_deserialize; fmt_bytes := get_data_response_bytes;
     fmt_wf := get_data_response_wf |}.
Definition exists_response_format : format exists_response :=
  {| fmt_read := exists_response_deserialize; fmt_bytes e := zk_stat_bytes (ex_stat e);
     fmt_wf e := zk_stat_wf (ex_stat e) |}.

(** The encoding decodes to the value and leaves what follows; cut short
    anywhere, it makes the reader run past the end of the buffer. *)
Definition reads_exactly {A} (f : format A) : Prop :=
  forall a, fmt_wf f a ->
    (forall r, fmt_read f (fmt_bytes f a ++ r) = Ok (a, r)) /\
    (forall p q, fmt_bytes f a = p ++ q -> q <> [] -> fmt_read f p = UB).

Lemma reads_exactly_intro {A} (f : format A) `{!Stable (fmt_read f)} :
  (forall a r, fmt_wf f a -> fmt_read f (fmt_bytes f a ++ r) = Ok (a, r)) -> reads_exactly f.
Proof.
  intros H a Ha. split; [auto|]. intros p q E Hq. apply (truncated_ub _ (fmt_bytes f a) a p q); [|done|done].
  rewrite <- (app_nil_r (fmt_bytes f a)). by apply H.
Qed.

(** C28: replies decode, and only complete ones.  Every kind of reply the client
    reads decodes from its encoding, whatever follows it, to exactly the value
    encoded; and because no reader knows where the buffer ends, every reply cut
    short anywhere makes it read past the end. *)
Theorem zk_replies_read_exactly :
  reads_exactly reply_header_format /\ reads_exactly connect_response_format /\
  reads_exactly create_response_format /\ reads_exactly get_children_response_format /\
  reads_exactly get_data_response_format /\ reads_exactly exists_response_format.
Proof.
  split_and!; apply reads_exactly_intro; try apply _; cbn; intros a r Ha.
  - by apply reply_header_decode.
  - by apply connect_response_decode.
  - by apply create_decode.
  - by apply get_children_decode.
  - by apply get_data_decode.
  - by apply exists_decode.
Qed.

(** The fields of a request as its server reads them. *)
Definition zk_acl_bytes (a : zk_acl) : str :=
  be_bytes 4 (permission_value (perms a)) ++ string_bytes (scheme a) ++ string_bytes (id a).

Lemma write_string_bytes buf s : sized s -> write_string buf s = buf ++ string_bytes s.
Proof.
  intros Hs. unfold write_string, write_int32, string_bytes. pose proof (len_nonneg s).
  rewrite swrap_small by (unfold sized in Hs; lia). by rewrite <- app_assoc.
Qed.

Lemma write_acls acls buf :
  Forall (fun a => sized (scheme a) /\ sized (id a)) acls ->
  foldl (fun buf a => zk_acl_serialize a buf) buf acls = buf ++ concat (zk_acl_bytes <$> acls).
Proof.
  intros Ha. revert buf. induction Ha as [|a l [Hs Hi] _ IH]; intros buf; cbn; [by rewrite app_nil_r|].
  rewrite IH. unfold zk_acl_serialize, zk_acl_bytes. rewrite !write_string_bytes by done.
  unfold write_int32. by rewrite <- !app_assoc.
Qed.

(** The bodies of the requests, field by field. *)
Lemma payload_bytes x op body :
  len body + 8 < 2 ^ 31 ->
  make_zpayload (request_header_serialize {| rq_xid := x; opcode := op_code_value op |} [] ++ body) =
  be_bytes 4 (len body + 8) ++ be_bytes 4 x ++ be_bytes 4 (op_code_value op) ++ body.
Proof.
  intros Hb. unfold make_zpayload, request_header_serialize, write_int32. cbn [rq_xid opcode].
  pose proof (len_nonneg body). rewrite !len_app, !len_be_bytes, len_nil.
  rewrite swrap_small by lia. rewrite !app_nil_l, <- !app_assoc. f_equal. f_equal. lia.
Qed.

Lemma create_request_bytes r :
  sized (cr_path r) -> sized (cr_data r) -> len (cr_acls r) < 2 ^ 31 ->
  Forall (fun a => sized (scheme a) /\ sized (id a)) (cr_acls r) ->
  create_request_serialize_body r =
  string_bytes (cr_path r) ++ string_bytes (cr_data r) ++ be_bytes 4 (len (cr_acls r)) ++
  concat (zk_acl_bytes <$> cr_acls r) ++ be_bytes 4 (cr_flags r).
Proof.
  intros Hp Hd Ha Hall. unfold create_request_serialize_body. cbv zeta.
  rewrite write_acls by done. unfold write_buffer. fold (write_string (write_string [] (cr_path r)) (cr_data r)).
  rewrite !write_string_bytes by done. unfold write_int32. pose proof (len_nonneg (cr_acls r)).
  rewrite swrap_small by lia. by rewrite app_nil_l, <- !app_assoc.
Qed.

Lemma path_watch_bytes r :
  sized (pw_path r) ->
  get_data_request_serialize_body r = string_bytes (pw_path r) ++ [chr (if pw_watch r then 1 else 0)].
Proof. intros Hp. unfold get_data_request_serialize_body, write_bool. by rewrite write_string_bytes. Qed.

Lemma delete_request_bytes r :
  sized (dl_path r) -> delete_request_serialize_body r = string_bytes (dl_path r) ++ be_bytes 4 (dl_version r).
Proof. intros Hp. unfold delete_request_serialize_body, write_int32. by rewrite write_string_bytes. Qed.

(** C29: request layout.  Every request body is the big-endian concatenation of
    its fields in protocol order, strings and buffers with their lengths, and the
    payload sent is its length, the transaction id, the operation code and the
    body, as long as the lengths fit 31 bits. *)
Theorem zk_request_layout :
  (forall x op body, int32 x -> len body + 8 < 2 ^ 31 ->
     make_zpayload (request_header_serialize {| rq_xid := x; opcode := op_code_value op |} [] ++ body) =
     be_bytes 4 (len body + 8) ++ be_bytes 4 x ++ be_bytes 4 (op_code_value op) ++ body) /\
  (forall r, sized (cr_path r) -> sized (cr_data r) -> len (cr_acls r) < 2 ^ 31 ->
     Forall (fun a => sized (scheme a) /\ sized (id a)) (cr_acls r) ->
     create_request_serialize_body r =
     string_bytes (cr_path r) ++ string_bytes (cr_data r) ++ be_bytes 4 (len (cr_acls r)) ++
     concat (zk_acl_bytes <$> cr_acls r) ++ be_bytes 4 (cr_flags r)) /\
  (forall r, sized (pw_path r) ->
     get_data_request_serialize_body r = string_bytes (pw_path r) ++ [chr (if pw_watch r then 1 else 0)] /\
     get_children_request_serialize_body r = get_data_request_serialize_body r /\
     exists_request_serialize_body r = get_data_request_serialize_body r) /\
  (forall r, sized (dl_path r) ->
     delete_request_serialize_body r = string_bytes (dl_path r) ++ be_bytes 4 (dl_version r)) /\
  (forall r, sized (cq_passwd r) ->
     connect_request_serialize r =
     be_bytes 4 (cq_protocol_version r) ++ be_bytes 8 (cq_last_zxid_seen r) ++
     be_bytes 4 (cq_timeout_ms r) ++ be_bytes 8 (cq_session_id r) ++
     string_bytes (cq_passwd r) ++ [chr (if cq_read_only r then 1 else 0)]).
Proof.
  split_and!.
  - intros x op body _. apply payload_bytes.
  - apply create_request_bytes.
  - intros r Hp. split_and!; [by apply path_watch_bytes|done..].
  - apply delete_request_bytes.
  - intros r Hp. unfold connect_request_serialize. cbv zeta. unfold write_buffer.
    match goal with |- context [write_int32 ?b (i32 (len (cq_passwd r))) ++ _] =>
      fold (write_string b (cq_passwd r)) end.
    rewrite write_string_bytes by done. unfold write_bool, write_int32, write_int64.
    by rewrite app_nil_l, <- !app_assoc.
Qed.
