(* ===== verification/ZkClient.v ===== *)
(** * The ZooKeeper client: [include/zk_client/zk_client.hpp]

    The result types, then the client's table of pending requests and the
    operations outstanding on its socket.  A request is posted, written, and its
    completion starts one read of a reply; the model keeps every outstanding
    [async_write] and [async_read], so that what the client asks of the socket
    can be compared with what Asio allows. *)
From S2P Require Import Prelude ZkProto.

(** ** [result<T>] and [result<void>] *)

Record result (T : Type) := { ok_ : option T; err_ : str }.
Arguments ok_ {T}. Arguments err_ {T}.

Definition make_ok {T} (v : T) : result T := {| ok_ := Some v; err_ := [] |}.
Definition make_error {T} (msg : str) : result T := {| ok_ := None; err_ := msg |}.
Definition is_ok {T} (r : result T) : bool := match ok_ r with Some _ => true | None => false end.
Definition is_err {T} (r : result T) : bool := negb (is_ok r).

Record result_void := { v_err_ : str; has_err_ : bool }.

Definition make_ok_void : result_void := {| v_err_ := []; has_err_ := false |}.
(** Only [err_] is assigned. *)
Definition make_error_void (msg : str) : result_void :=
  {| v_err_ := msg; has_err_ := has_err_ make_ok_void |}.
Definition is_ok_void (r : result_void) : bool := negb (has_err_ r).
Definition is_err_void (r : result_void) : bool := has_err_ r.

(** ** Pending requests *)

(** The instantiations of [send_request], and [send_request_void]. *)
Inductive response_kind := AsCreate | AsChildren | AsData | AsExists | AsVoid.

Inductive reply :=
  | CreateReply (r : result create_response)
  | ChildrenReply (r : result get_children_response)
  | DataReply (r : result get_data_response)
  | ExistsReply (r : result exists_response)
  | VoidReply (r : result_void).

(** What a future sees. *)
Inductive zk_promise := ZWaiting | ZReady (r : reply) | ZBroken.

Definition decode_with {A} (f : reader A) (wrap : result A -> reply) (data : str) : outcome reply :=
  match f data with
  | Ok (a, _) => Ok (wrap (make_ok a))
  | Throw e => Throw e
  | UB => UB
  end.

(** The lambda stored as [resolve]. *)
Definition resolve (k : response_kind) (err : Z) (data : str) : outcome reply :=
  let msg := zk_error_str err in
  match k with
  | AsCreate => if negb (err =? 0) then Ok (CreateReply (make_error msg))
                else decode_with create_response_deserialize CreateReply data
  | AsChildren => if negb (err =? 0) then Ok (ChildrenReply (make_error msg))
                  else decode_with get_children_response_deserialize ChildrenReply data
  | AsData => if negb (err =? 0) then Ok (DataReply (make_error msg))
              else decode_with get_data_response_deserialize DataReply data
  | AsExists => if negb (err =? 0) then Ok (ExistsReply (make_error msg))
                else decode_with exists_response_deserialize ExistsReply data
  | AsVoid => Ok (VoidReply (if negb (err =? 0) then make_error_void msg else make_ok_void))
  end.

(** The lambda stored as [reject]. *)
Definition reject (k : response_kind) (msg : str) : reply :=
  match k with
  | AsCreate => CreateReply (make_error msg)
  | AsChildren => ChildrenReply (make_error msg)
  | AsData => DataReply (make_error msg)
  | AsExists => ExistsReply (make_error msg)
  | AsVoid => VoidReply (make_error_void msg)
  end.

(** ** State *)

Inductive handshake :=
  | HsNone
  | HsConnecting
  | HsWriting (payload : str)
  | HsReadLen
  | HsReadBody (n : Z)
  | HsFinished.

(** An [async_read] of [do_read_response]. *)
Inductive read_stage := ReadLen (xid : Z) | ReadBody (xid n : Z).

Record zk_client := {
  pending_ : gmap Z (response_kind * nat);
  xid_ : Z;              (* atomic<int32_t> *)
  session_id_ : Z;
  passwd_ : str;
  timeout_ms_ : Z;
  connected_ : bool;
  (* the environment *)
  connect_promise : option (option result_void);  (* None: not asked *)
  hs : handshake;
  promises : list zk_promise;
  posted : list (str * Z);     (* handlers of post: payload and xid *)
  writes : list (str * Z);     (* outstanding async_writes *)
  reads : list read_stage;     (* outstanding async_reads *)
  (* histories *)
  sent : list str              (* payloads written *)
}.

Definition zk_client_init : zk_client :=
  {| pending_ := ∅; xid_ := 1; session_id_ := 0; passwd_ := zeros 16; timeout_ms_ := 4000;
     connected_ := false; connect_promise := None; hs := HsNone; promises := []; posted := [];
     writes := []; reads := []; sent := [] |}.

Definition set_session (sid : Z) (pw : str) (tm : Z) (con : bool)
    (cp : option (option result_void)) (h : handshake) (c : zk_client) : zk_client :=
  {| pending_ := pending_ c; xid_ := xid_ c; session_id_ := sid; passwd_ := pw; timeout_ms_ := tm;
     connected_ := con; connect_promise := cp; hs := h; promises := promises c; posted := posted c;
     writes := writes c; reads := reads c; sent := sent c |}.
Definition set_table (m : gmap Z (response_kind * nat)) (x : Z) (ps : list zk_promise) (c : zk_client)
    : zk_client :=
  {| pending_ := m; xid_ := x; session_id_ := session_id_ c; passwd_ := passwd_ c;
     timeout_ms_ := timeout_ms_ c; connected_ := connected_ c; connect_promise := connect_promise c;
     hs := hs c; promises := ps; posted := posted c; writes := writes c; reads := reads c;
     sent := sent c |}.
Definition set_io (po wr : list (str * Z)) (rd : list read_stage) (se : list str) (c : zk_client)
    : zk_client :=
  {| pending_ := pending_ c; xid_ := xid_ c; session_id_ := session_id_ c; passwd_ := passwd_ c;
     timeout_ms_ := timeout_ms_ c; connected_ := connected_ c; connect_promise := connect_promise c;
     hs := hs c; promises := promises c; posted := po; writes := wr; reads := rd; sent := se |}.

(** ** Handshake *)

Definition with_hs (h : handshake) (c : zk_client) : zk_client :=
  set_session (session_id_ c) (passwd_ c) (timeout_ms_ c) (connected_ c) (connect_promise c) h c.

(** [promise->set_value(r)] of the connect promise. *)
Definition connect_result (r : result_void) (c : zk_client) : zk_client :=
  set_session (session_id_ c) (passwd_ c) (timeout_ms_ c) (connected_ c) (Some (Some r)) HsFinished c.

(** [connect]; [resolved] is the error of the resolver, if any. *)
Definition connect (timeout_ms : Z) (resolved : option str) (c : zk_client) : zk_client :=
  let c := set_session (session_id_ c) (passwd_ c) timeout_ms (connected_ c) (Some None) HsConnecting c in
  match resolved with
  | Some msg => connect_result (make_error_void msg) c
  | None => c
  end.

Definition do_handshake (c : zk_client) : zk_client :=
  let body := connect_request_serialize
    {| cq_protocol_version := 0; cq_last_zxid_seen := 0; cq_timeout_ms := timeout_ms_ c;
       cq_session_id := session_id_ c; cq_passwd := passwd_ c; cq_read_only := false |} in
  with_hs (HsWriting (make_zpayload body)) c.

(** The completion handlers of the handshake; [inl] is an error. *)
Definition connect_handler (ec : option str) (c : zk_client) : zk_client :=
  match ec with
  | Some msg => connect_result (make_error_void msg) c
  | None => do_handshake c
  end.
Definition handshake_written (ec : option str) (c : zk_client) : zk_client :=
  match ec with
  | Some msg => connect_result (make_error_void msg) c
  | None => with_hs HsReadLen c
  end.

(** [std::vector<char>(n)] for a negative [n] asks for more than there is. *)
Definition alloc_body (lenbuf : str) : outcome Z :=
  let n := i32 (be_val lenbuf) in
  if n <? 0 then Throw (other_std_exception (bs "cannot create std::vector larger than max_size()"))
  else Ok n.

Definition handshake_len (r : str + str) (c : zk_client) : outcome zk_client :=
  match r with
  | inl msg => Ok (connect_result (make_error_void msg) c)
  | inr lenbuf => n ← alloc_body lenbuf; Ok (with_hs (HsReadBody n) c)
  end.
Definition handshake_body (r : str + str) (c : zk_client) : outcome zk_client :=
  match r with
  | inl msg => Ok (connect_result (make_error_void msg) c)
  | inr body =>
      match connect_response_deserialize body with
      | Ok (resp, _) =>
          Ok (connect_result make_ok_void
                (set_session (cs_session_id resp) (cs_passwd resp) (cs_timeout_ms resp) true
                   (connect_promise c) (hs c) c))
      | Throw e => Throw e
      | UB => UB
      end
  end.

(** ** Requests *)

(** Assignment to [pending_[xid]] releases the promise an older entry kept. *)
Definition release (x : Z) (c : zk_client) : list zk_promise :=
  match pending_ c !! x with
  | Some (_, q) => <[q := ZBroken]> (promises c)
  | None => promises c
  end.

(** [send_request] and [send_request_void]: a new promise under the next id, and
    [do_send], which posts the payload. *)
Definition send_request (k : response_kind) (op : op_code) (body : str) (c : zk_client) : zk_client :=
  let x := xid_ c in
  let p := length (promises c) in
  let c := set_table (<[x := (k, p)]> (pending_ c)) (i32 (x + 1)) (release x c ++ [ZWaiting]) c in
  let full := request_header_serialize {| rq_xid := x; opcode := op_code_value op |} [] ++ body in
  set_io (posted c ++ [(make_zpayload full, x)]) (writes c) (reads c) (sent c) c.

Definition create (path data : str) (acls : list zk_acl) (flags : Z) : zk_client -> zk_client :=
  send_request AsCreate op_create
    (create_request_serialize_body {| cr_path := path; cr_data := data; cr_acls := acls; cr_flags := flags |}).
Definition get_children (path : str) (watch : bool) : zk_client -> zk_client :=
  send_request AsChildren op_get_children
    (get_children_request_serialize_body {| pw_path := path; pw_watch := watch |}).
Definition get_data (path : str) (watch : bool) : zk_client -> zk_client :=
  send_request AsData op_get_data
    (get_data_request_serialize_body {| pw_path := path; pw_watch := watch |}).
Definition exists_ (path : str) (watch : bool) : zk_client -> zk_client :=
  send_request AsExists op_exists
    (exists_request_serialize_body {| pw_path := path; pw_watch := watch |}).
Definition remove (path : str) (version : Z) : zk_client -> zk_client :=
  send_request AsVoid op_remove
    (delete_request_serialize_body {| dl_path := path; dl_version := version |}).

(** Erase the entry, then run its lambda. *)
Definition reject_pending (x : Z) (msg : str) (c : zk_client) : zk_client :=
  match pending_ c !! x with
  | None => c
  | Some (k, p) =>
      set_table (delete x (pending_ c)) (xid_ c) (<[p := ZReady (reject k msg)]> (promises c)) c
  end.

(** An exception of [resolve] leaves the handler; the promise dies with its
    entry. *)
Definition resolve_pending (x err : Z) (data : str) (c : zk_client) : outcome zk_client :=
  match pending_ c !! x with
  | None => Ok c
  | Some (k, p) =>
      r ← resolve k err data;
      Ok (set_table (delete x (pending_ c)) (xid_ c) (<[p := ZReady r]> (promises c)) c)
  end.

(** The posted handler: [async_write]. *)
Definition run_posted (i : nat) (c : zk_client) : option zk_client :=
  w ← posted c !! i;
  Some (set_io (delete i (posted c)) (writes c ++ [w]) (reads c) (sent c) c).

Definition written (i : nat) (ec : option str) (c : zk_client) : option zk_client :=
  w ← writes c !! i;
  let wr := delete i (writes c) in
  Some match ec with
       | Some msg => reject_pending w.2 msg (set_io (posted c) wr (reads c) (sent c) c)
       | None => set_io (posted c) wr (reads c ++ [ReadLen w.2]) (sent c ++ [w.1]) c
       end.

(** Completion of an outstanding read. *)
Definition read_done (i : nat) (r : str + str) (c : zk_client) : option (outcome zk_client) :=
  s ← reads c !! i;
  match s, r with
  | ReadLen x, inl msg | ReadBody x _, inl msg =>
      Some (Ok (reject_pending x msg (set_io (posted c) (writes c) (delete i (reads c)) (sent c) c)))
  | ReadLen x, inr lenbuf =>
      if len lenbuf =? 4 then
        Some (n ← alloc_body lenbuf;
              Ok (set_io (posted c) (writes c) (<[i := ReadBody x n]> (reads c)) (sent c) c))
      else None
  | ReadBody x n, inr body =>
      if len body =? n then
        Some (match reply_header_deserialize body with
              | Ok (rh, p) =>
                  resolve_pending (xid rh) (err rh) p
                    (set_io (posted c) (writes c) (delete i (reads c)) (sent c) c)
              | Throw e => Throw e
              | UB => UB
              end)
      else None
  end.

(** ** Steps with defined behaviour *)

Inductive zk_event :=
  | ZConnect (timeout_ms : Z) (resolved : option str)
  | ZConnected (ec : option str)
  | ZHsWritten (ec : option str)
  | ZHsLen (r : str + str)
  | ZHsBody (r : str + str)
  | ZSend (k : response_kind) (op : op_code) (body : str)
  | ZPosted (i : nat)
  | ZWritten (i : nat) (ec : option str)
  | ZRead (i : nat) (r : str + str).

Definition defined {A} (o : outcome A) : option A := match o with Ok a => Some a | _ => None end.

Definition fits (n : Z) (r : str + str) : bool := match r with inl _ => true | inr b => len b =? n end.

(** The handler of an event that can happen in state [c]. *)
Definition handler (c : zk_client) (ev : zk_event) : option (outcome zk_client) :=
  match ev with
  | ZConnect t r => match hs c with HsNone | HsFinished => Some (Ok (connect t r c)) | _ => None end
  | ZConnected ec => match hs c with HsConnecting => Some (Ok (connect_handler ec c)) | _ => None end
  | ZHsWritten ec => match hs c with HsWriting _ => Some (Ok (handshake_written ec c)) | _ => None end
  | ZHsLen r => match hs c with
                | HsReadLen => if fits 4 r then Some (handshake_len r c) else None
                | _ => None end
  | ZHsBody r => match hs c with
                 | HsReadBody n => if fits n r then Some (handshake_body r c) else None
                 | _ => None end
  | ZSend k op body => Some (Ok (send_request k op body c))
  | ZPosted i => c ← run_posted i c; Some (Ok c)
  | ZWritten i ec => c ← written i ec c; Some (Ok c)
  | ZRead i r => read_done i r c
  end.

Definition zk_step (c : zk_client) (ev : zk_event) : option zk_client :=
  o ← handler c ev; defined o.

(** What a handler leaves behind when it throws: its operation is over, and an
    entry that [resolve_pending] had erased is gone with its promise. *)
Definition thrown (ev : zk_event) (c : zk_client) : zk_client :=
  match ev with
  | ZHsLen _ | ZHsBody _ => with_hs HsFinished c
  | ZRead i r =>
      let c' := set_io (posted c) (writes c) (delete i (reads c)) (sent c) c in
      match reads c !! i, r with
      | Some (ReadBody _ _), inr body =>
          match reply_header_deserialize body with
          | Ok (rh, _) => set_table (delete (xid rh) (pending_ c)) (xid_ c) (release (xid rh) c) c'
          | _ => c'
          end
      | _, _ => c'
      end
  | _ => c
  end.

(** Is an operation of the client outstanding on the [io_context]? *)
Definition has_work (c : zk_client) : bool :=
  match hs c with HsNone | HsFinished => false | _ => true end ||
  match posted c, writes c, reads c with [], [], [] => false | _, _, _ => true end.

Definition zk_trans : zk_client -> zk_client -> Prop := steps_to zk_step.
Definition zk_reachable (c : zk_client) : Prop := rtc zk_trans zk_client_init c.

(** Operations outstanding on the socket or on their way to it. *)
Definition in_flight (c : zk_client) : nat :=
  (length (posted c) + length (writes c) + length (reads c))%nat.

(** ** Lemmas *)

(** A reply that carries a [result<void>] carries one without the error flag. *)
Definition void_ok (r : reply) : Prop :=
  match r with VoidReply v => has_err_ v = false | _ => True end.

Lemma void_error_is_ok msg : is_ok_void (make_error_void msg) = true.
Proof. done. Qed.

Lemma resolve_void_ok k e d r : resolve k e d = Ok r -> void_ok r.
Proof.
  intros E. destruct k; cbn in E; [..|simplify_eq; by destruct (negb (e =? 0))];
    (destruct (negb (e =? 0)); [by simplify_eq|]); unfold decode_with in E;
    split_match E; by simplify_eq.
Qed.

Lemma reject_void_ok k msg : void_ok (reject k msg).
Proof. by destruct k. Qed.

(** What one step does to the table, the promises and the operations. *)
Inductive table_change (ev : zk_event) (c c' : zk_client) : Prop :=
  | table_same :
      pending_ c' = pending_ c -> promises c' = promises c -> xid_ c' = xid_ c ->
      (in_flight c' <= in_flight c)%nat -> table_change ev c c'
  | table_sent k op body :
      ev = ZSend k op body ->
      pending_ c' = <[xid_ c := (k, length (promises c))]> (pending_ c) ->
      promises c' = release (xid_ c) c ++ [ZWaiting] -> xid_ c' = i32 (xid_ c + 1) ->
      in_flight c' = S (in_flight c) -> table_change ev c c'
  | table_settled x k p r :
      pending_ c !! x = Some (k, p) -> pending_ c' = delete x (pending_ c) ->
      promises c' = <[p := ZReady r]> (promises c) -> xid_ c' = xid_ c -> void_ok r ->
      in_flight c = S (in_flight c') -> table_change ev c c'.

Lemma length_delete_eq {A} (l : list A) i x : l !! i = Some x -> length l = S (length (delete i l)).
Proof.
  intros Hi. pose proof (lookup_lt_Some _ _ _ Hi). rewrite length_delete by eauto. lia.
Qed.

Lemma reject_table ev x msg c c0 :
  pending_ c = pending_ c0 -> promises c = promises c0 -> xid_ c = xid_ c0 ->
  in_flight c0 = S (in_flight c) -> table_change ev c0 (reject_pending x msg c).
Proof.
  intros E1 E2 E3 Hf. unfold reject_pending. destruct (pending_ c !! x) as [[k p]|] eqn:Hx.
  - eapply table_settled with (x := x) (k := k) (p := p); cbn; [by rewrite <- ?E1, <- ?E2, <- ?E3..|apply reject_void_ok|exact Hf].
  - apply table_same; [done..|lia].
Qed.

Lemma resolve_table ev x e d c c0 c' :
  pending_ c = pending_ c0 -> promises c = promises c0 -> xid_ c = xid_ c0 ->
  in_flight c0 = S (in_flight c) -> resolve_pending x e d c = Ok c' -> table_change ev c0 c'.
Proof.
  intros E1 E2 E3 Hf. unfold resolve_pending. destruct (pending_ c !! x) as [[k p]|] eqn:Hx.
  - intros (r & Hr & [= <-])%bind_ok_inv.
    eapply table_settled with (x := x) (k := k) (p := p); cbn; [by rewrite <- ?E1, <- ?E2, <- ?E3..|by eapply resolve_void_ok|exact Hf].
  - intros [= <-]. apply table_same; [done..|lia].
Qed.

Lemma zk_step_table c ev c' : zk_step c ev = Some c' -> table_change ev c c'.
Proof.
  unfold zk_step. destruct (handler c ev) as [o|] eqn:E; [|done]. cbn. destruct o as [d| |]; try done.
  intros [= ->]. destruct ev as [t r|ec|ec|r|r|k op body|i|i ec|i r]; cbn in E.
  1-5: unfold connect, connect_handler, handshake_written in E; split_match E; try done; injection E as E; try (subst; by apply table_same).
  - destruct r as [msg|b]; unfold handshake_len, alloc_body in E; [|dec; [done|]; cbn in E];
      injection E as <-; by apply table_same.
  - destruct r as [msg|b]; unfold handshake_body in E; [|split_match E; try done];
      injection E as <-; by apply table_same.
  - simplify_eq. eapply table_sent; [done..|]. unfold in_flight. cbn. rewrite length_app. cbn. lia.
  - unfold run_posted in E. destruct (posted c !! i) as [w|] eqn:Hi; [|done]. cbn in E. simplify_eq.
    apply table_same; [done..|]. unfold in_flight. cbn. rewrite length_app. cbn.
    rewrite (length_delete_eq _ _ _ Hi). lia.
  - unfold written in E. destruct (writes c !! i) as [w|] eqn:Hi; [|done]. cbn in E.
    pose proof (length_delete_eq _ _ _ Hi) as Hl. destruct ec as [msg|]; simplify_eq.
    + apply reject_table; [done..|]. unfold in_flight. cbn. lia.
    + apply table_same; [done..|]. unfold in_flight. cbn. rewrite length_app. cbn. lia.
  - unfold read_done in E. destruct (reads c !! i) as [s|] eqn:Hi; [|done]. cbn in E.
    pose proof (length_delete_eq _ _ _ Hi) as Hl. destruct s as [x|x n], r as [msg|b].
    + simplify_eq. apply reject_table; [done..|]. unfold in_flight. cbn. lia.
    + destruct (len b =? 4); [|done]. injection E as E. unfold alloc_body in E. dec; [done|].
      injection E as <-. apply table_same; [done..|]. unfold in_flight. cbn. by rewrite length_insert.
    + simplify_eq. apply reject_table; [done..|]. unfold in_flight. cbn. lia.
    + split_match E; try done. simplify_eq. eapply resolve_table; [..|done]; [done..|].
      unfold in_flight. cbn. lia.
Qed.

Record zk_inv (c : zk_client) : Prop := {
  inv_waiting p : promises c !! p = Some ZWaiting <-> exists x k, pending_ c !! x = Some (k, p);
  inv_inj x y k l p : pending_ c !! x = Some (k, p) -> pending_ c !! y = Some (l, p) -> x = y;
  inv_void p r : promises c !! p = Some (ZReady r) -> void_ok r
}.

(** Does the next request take over promise [p]'s entry? *)
Definition overwritten (c : zk_client) (p : nat) : bool :=
  match pending_ c !! xid_ c with Some (_, q) => bool_decide (q = p) | None => false end.

Lemma overwritten_true c p : overwritten c p = true <-> exists k, pending_ c !! xid_ c = Some (k, p).
Proof.
  unfold overwritten. destruct (pending_ c !! xid_ c) as [[k q]|].
  - rewrite bool_decide_eq_true. split; [intros ->; eauto|]. by intros [? [= _ ->]].
  - split; [done|]. by intros [? ?].
Qed.

Lemma release_lookup c p :
  zk_inv c ->
  release (xid_ c) c !! p = if overwritten c p then Some ZBroken else promises c !! p.
Proof.
  intros [Hw _ _]. unfold release, overwritten. destruct (pending_ c !! xid_ c) as [[k q]|] eqn:Hx; [|done].
  assert (promises c !! q = Some ZWaiting) as Hq by (apply Hw; eauto).
  case_bool_decide as Hp; [subst q|by apply list_lookup_insert_ne].
  apply list_lookup_insert_eq. by eapply lookup_lt_Some.
Qed.

Lemma length_release x c : length (release x c) = length (promises c).
Proof. unfold release. case_match; [|done]. case_match. apply length_insert. Qed.

Lemma zk_inv_sent c c' k :
  pending_ c' = <[xid_ c := (k, length (promises c))]> (pending_ c) ->
  promises c' = release (xid_ c) c ++ [ZWaiting] -> zk_inv c -> zk_inv c'.
Proof.
  intros Ep Eq Hi. pose proof Hi as [Hw Hj Hv].
  assert (forall x l p, pending_ c !! x = Some (l, p) -> (p < length (promises c))%nat) as Hlt.
  { intros x l p Hx. eapply lookup_lt_Some, Hw. eauto. }
  split.
  - intros p. rewrite Ep, Eq. destruct (decide (p < length (promises c))%nat) as [Hp|Hp].
    + rewrite lookup_app_l, release_lookup by (done || by rewrite length_release).
      destruct (overwritten c p) eqn:Hb.
      * split; [done|]. intros (x & l & Hx). apply overwritten_true in Hb as [l' Hb].
        rewrite lookup_insert_Some in Hx. destruct Hx as [[? Hx]|[Hne Hx]]; [simplify_eq; lia|].
        by pose proof (Hj _ _ _ _ _ Hb Hx).
      * rewrite Hw. split; intros (x & l & Hx).
        -- exists x, l. rewrite lookup_insert_ne; [done|]. intros <-.
           by rewrite (proj2 (overwritten_true c p)) in Hb by eauto.
        -- rewrite lookup_insert_Some in Hx. destruct Hx as [[? Hx]|[Hne Hx]]; [simplify_eq; lia|eauto].
    + split.
      * intros Hl. rewrite lookup_app_r, length_release in Hl by (rewrite length_release; lia).
        apply list_lookup_singleton_Some in Hl as [Hz _].
        exists (xid_ c), k. rewrite lookup_insert_eq. do 2 f_equal. lia.
      * intros (x & l & Hx). rewrite lookup_insert_Some in Hx. destruct Hx as [[? Hx]|[Hne Hx]].
        -- simplify_eq. by rewrite lookup_app_r, length_release, Nat.sub_diag by (rewrite length_release; lia).
        -- apply Hlt in Hx. lia.
  - intros x y l1 l2 p. rewrite Ep, !lookup_insert_Some.
    intros [[? Hx]|[Hne Hx]] [[? Hy]|[Hne' Hy]]; simplify_eq; [done|..].
    + apply Hlt in Hy. lia.
    + apply Hlt in Hx. lia.
    + eauto.
  - intros p r. rewrite Eq, lookup_app_Some. intros [Hl|[_ Hl]].
    + rewrite release_lookup in Hl by done. case_match; [done|eauto].
    + by apply list_lookup_singleton_Some in Hl as [_ ?].
Qed.

Lemma zk_inv_settled c c' x k p r :
  pending_ c !! x = Some (k, p) -> pending_ c' = delete x (pending_ c) ->
  promises c' = <[p := ZReady r]> (promises c) -> void_ok r -> zk_inv c -> zk_inv c'.
Proof.
  intros Hx Ep Eq Hr [Hw Hj Hv]. assert (promises c !! p = Some ZWaiting) as Hp by (apply Hw; eauto).
  split.
  - intros q. rewrite Ep, Eq. destruct (decide (q = p)) as [->|Hne].
    + rewrite list_lookup_insert_eq by (by eapply lookup_lt_Some). split; [done|].
      intros (y & l & Hy). rewrite lookup_delete_Some in Hy. destruct Hy as [Hne Hy].
      by pose proof (Hj _ _ _ _ _ Hx Hy).
    + rewrite list_lookup_insert_ne, Hw by done. split; intros (y & l & Hy).
      * exists y, l. rewrite lookup_delete_ne; [done|]. intros <-. congruence.
      * rewrite lookup_delete_Some in Hy. destruct Hy. eauto.
  - intros y z l1 l2 q. rewrite Ep, !lookup_delete_Some. intros [_ ?] [_ ?]. eauto.
  - intros q s. rewrite Eq, list_lookup_insert_Some. intros [(<- & E & _)|[_ ?]]; [by simplify_eq|eauto].
Qed.

Lemma zk_inv_step c ev c' : zk_inv c -> zk_step c ev = Some c' -> zk_inv c'.
Proof.
  intros Hi [Ep Eq _ _|k op body _ Ep Eq _ _|x k p r Hx Ep Eq _ Hr _]%zk_step_table.
  - destruct Hi as [Hw Hj Hv]. split; intros *; rewrite ?Ep, ?Eq; eauto.
  - by eapply zk_inv_sent.
  - by eapply zk_inv_settled.
Qed.

Lemma zk_inv_reachable c : zk_reachable c -> zk_inv c.
Proof.
  intros Hr. eapply (steps_invariant zk_step zk_inv zk_inv_step); [done|].
  split; cbn; [|done|done]. intros p. split; [done|]. intros (x & k & Hx). done.
Qed.

(** A settled promise does not change. *)
Lemma zk_step_settled c ev c' p q :
  zk_inv c -> zk_step c ev = Some c' -> promises c !! p = Some q -> q <> ZWaiting ->
  promises c' !! p = Some q.
Proof.
  intros Hi Hs Hp Hq. pose proof Hi as [Hw _ _].
  apply zk_step_table in Hs as [Ep Eq _ _|k op body _ Ep Eq _ _|x k p' r Hx Ep Eq _ Hr _]; rewrite Eq.
  - done.
  - rewrite lookup_app_l by (rewrite length_release; by eapply lookup_lt_Some).
    rewrite release_lookup by done. destruct (overwritten c p) eqn:Hb; [|done].
    apply overwritten_true in Hb as [l Hb].
    assert (promises c !! p = Some ZWaiting) by (apply Hw; eauto). congruence.
  - rewrite list_lookup_insert_ne; [done|]. intros ->.
    assert (promises c !! p = Some ZWaiting) by (apply Hw; eauto). congruence.
Qed.

(** Ids are handed out in order; the first [2^32] are distinct. *)
Definition xid_of (p : nat) : Z := i32 (1 + Z.of_nat p).

Record zk_counted (c : zk_client) : Prop := {
  counted_xid : xid_ c = xid_of (length (promises c));
  counted_keys x k p : pending_ c !! x = Some (k, p) -> x = xid_of p /\ (p < length (promises c))%nat;
  counted_flight : (in_flight c <= size (pending_ c))%nat
}.

Lemma xid_of_inj p q : Z.of_nat p < 2 ^ 32 -> Z.of_nat q < 2 ^ 32 -> xid_of p = xid_of q -> p = q.
Proof.
  intros Hp Hq E. unfold xid_of, swrap in E.
  assert ((1 + Z.of_nat p) mod 2 ^ 32 = (1 + Z.of_nat q) mod 2 ^ 32) as E2.
  { apply (f_equal (fun z => (z + 2 ^ 31 - 2 ^ 31) mod 2 ^ 32)) in E.
    change (2 ^ (32 - 1)) with (2 ^ 31) in E. rewrite !Z.sub_add in E.
    rewrite !Zminus_mod_idemp_l in E. by rewrite !Z.add_simpl_r in E. }
  rewrite !(Z.mod_eq _ (2 ^ 32)) in E2 by done.
  assert (forall a, 0 <= a < 2 ^ 32 -> (1 + a) / 2 ^ 32 = 0 \/ a = 2 ^ 32 - 1 /\ (1 + a) / 2 ^ 32 = 1) as Hd.
  { intros a Ha. destruct (Z.eq_dec a (2 ^ 32 - 1)) as [->|]; [by right|]. left. apply Z.div_small. lia. }
  destruct (Hd (Z.of_nat p)) as [?|[? ?]]; [lia|..]; destruct (Hd (Z.of_nat q)) as [?|[? ?]]; lia.
Qed.

Lemma xid_of_succ p : i32 (xid_of p + 1) = xid_of (S p).
Proof.
  unfold xid_of, swrap. f_equal.
  replace ((1 + Z.of_nat p + 2 ^ (32 - 1)) mod 2 ^ 32 - 2 ^ (32 - 1) + 1 + 2 ^ (32 - 1))
    with ((1 + Z.of_nat p + 2 ^ (32 - 1)) mod 2 ^ 32 + 1) by lia.
  rewrite Z.add_mod_idemp_l by done. f_equal. lia.
Qed.

Definition zk_counted_if (c : zk_client) : Prop :=
  Z.of_nat (length (promises c)) <= 2 ^ 32 -> zk_counted c.

Lemma zk_counted_step c ev c' : zk_counted_if c -> zk_step c ev = Some c' -> zk_counted_if c'.
Proof.
  intros Hc [Ep Eq Ex Hf|k op body _ Ep Eq Ex Hf|x k p r Hx Ep Eq Ex _ Hf]%zk_step_table Hb; rewrite Eq in Hb.
  - destruct (Hc Hb) as [H1 H2 H3]. split; [congruence|intros *; rewrite Ep, Eq; eauto|rewrite Ep; lia].
  - rewrite length_app, length_release in Hb. cbn in Hb. destruct Hc as [H1 H2 H3]; [lia|].
    assert (pending_ c !! xid_ c = None) as Hn.
    { destruct (pending_ c !! xid_ c) as [[l p]|] eqn:Hp; [|done]. apply H2 in Hp as [E Hl].
      rewrite H1 in E. apply xid_of_inj in E; lia. }
    split.
    + rewrite Ex, H1, Eq, length_app, length_release, Nat.add_1_r. apply xid_of_succ.
    + intros x l p. rewrite Ep, Eq, length_app, length_release, lookup_insert_Some.
      intros [[? E]|[_ E]]; [simplify_eq; split; [done|cbn; lia]|]. apply H2 in E as []. split; [done|lia].
    + rewrite Ep, map_size_insert_None by done. lia.
  - rewrite length_insert in Hb. destruct (Hc Hb) as [H1 H2 H3]. split.
    + by rewrite Ex, Eq, length_insert.
    + intros y l q. rewrite Ep, Eq, length_insert, lookup_delete_Some. intros [_ ?]. eauto.
    + rewrite Ep, map_size_delete, Hx. lia.
Qed.

Lemma zk_counted_reachable c : zk_reachable c -> zk_counted_if c.
Proof.
  intros Hr. eapply (steps_invariant zk_step zk_counted_if zk_counted_step); [done|].
  intros _. by split.
Qed.

Lemma connect_result_ok c ev c' r :
  (forall r, connect_promise c = Some (Some r) -> has_err_ r = false) ->
  zk_step c ev = Some c' -> connect_promise c' = Some (Some r) -> has_err_ r = false.
Proof.
  intros Hc. unfold zk_step. destruct (handler c ev) as [o|] eqn:E; [|done]. cbn. destruct o as [d| |]; try done.
  intros [= ->]. destruct ev as [t rs|ec|ec|rs|rs|k op body|i|i ec|i rs]; cbn in E.
  1-5: unfold connect, connect_handler, handshake_written, handshake_len, handshake_body, alloc_body in E;
    cbn in E; split_match E; try done; injection E as E; subst; cbn; intros ?; simplify_eq; by eauto.
  - injection E as <-. apply Hc.
  - unfold run_posted in E. destruct (posted c !! i); cbn in E; simplify_eq. apply Hc.
  - unfold written, reject_pending in E. destruct (writes c !! i); cbn in E; [|done].
    split_match E; simplify_eq; apply Hc.
  - unfold read_done, reject_pending, resolve_pending, alloc_body in E.
    destruct (reads c !! i) as [st|]; [|done]. destruct st, rs; cbn -[resolve] in E;
      split_match E; try done; injection E as E;
      try (apply bind_ok_inv in E as (? & _ & E); injection E as E); subst; apply Hc.
Qed.

(** ** Theorems *)

(** C30: every request's promise is settled at most once and by its own table
    entry.  In every reachable state the promises still waiting are exactly those
    the table [pending_] points to, no two entries share a promise, and whatever
    step follows, a promise that is settled (or broken) keeps its value. *)
Theorem zk_promises_settle_once c ev c' p q :
  zk_reachable c ->
  (forall p, promises c !! p = Some ZWaiting <-> exists x k, pending_ c !! x = Some (k, p)) /\
  (forall x y k l p, pending_ c !! x = Some (k, p) -> pending_ c !! y = Some (l, p) -> x = y) /\
  (zk_step c ev = Some c' -> promises c !! p = Some q -> q <> ZWaiting -> promises c' !! p = Some q).
Proof.
  intros Hr%zk_inv_reachable. split_and!; [apply Hr..|]. intros. by eapply zk_step_settled.
Qed.

(** Two requests; the first is rejected because its write fails. *)
Definition zk_two_requests : zk_client :=
  default zk_client_init (run zk_step
    [ZSend AsExists op_exists (exists_request_serialize_body {| pw_path := bs "/a"; pw_watch := false |});
     ZSend AsVoid op_remove (delete_request_serialize_body {| dl_path := bs "/b"; dl_version := -1 |});
     ZPosted 0; ZWritten 0 (Some (bs "Broken pipe"))] zk_client_init).

Lemma zk_two_requests_reachable : zk_reachable zk_two_requests.
Proof. apply run_reachable. Qed.

Lemma zk_promises_settle_once_witness :
  exists c', zk_step zk_two_requests (ZPosted 0) = Some c' /\
    promises c' !! 0%nat = Some (ZReady (ExistsReply (make_error (bs "Broken pipe")))).
Proof.
  destruct (zk_step zk_two_requests (ZPosted 0)) as [c'|] eqn:E; [|by vm_compute in E].
  exists c'. split; [done|].
  apply (zk_promises_settle_once zk_two_requests (ZPosted 0) c' 0
           (ZReady (ExistsReply (make_error (bs "Broken pipe")))));
    [apply zk_two_requests_reachable|done|by vm_compute|done].
Defined.

(** One request at a time keeps the socket to one operation at a time.  Up to
    [2^32] requests (when ids start to repeat) the writes and reads outstanding on
    the socket, with the ones posted for it, are at most the entries of
    [pending_]; a caller that waits for each reply before the next request
    therefore never has two reads or two writes outstanding. *)
Theorem zk_one_request_one_operation c :
  zk_reachable c -> Z.of_nat (length (promises c)) <= 2 ^ 32 ->
  (in_flight c <= size (pending_ c))%nat /\
  ((size (pending_ c) <= 1)%nat -> (length (writes c) + length (reads c) <= 1)%nat).
Proof.
  intros Hr Hb. destruct (zk_counted_reachable c Hr Hb) as [_ _ Hf].
  split; [done|]. unfold in_flight in Hf. lia.
Qed.

Lemma zk_one_request_one_operation_witness :
  (length (writes zk_two_requests) + length (reads zk_two_requests) <= 1)%nat.
Proof.
  apply (zk_one_request_one_operation zk_two_requests);
    [apply zk_two_requests_reachable|vm_compute; congruence|vm_compute; lia].
Defined.

(** Nothing orders the operations of overlapping requests.  Two requests sent before the first one's write
    completes give a reachable state with two [async_write]s outstanding, and a
    later one with two [async_read]s of a length outstanding, which Asio's
    composed operations do not allow. *)
Theorem zk_requests_overlap :
  exists c1 c2, zk_reachable c1 /\ rtc zk_trans c1 c2 /\
    length (writes c1) = 2%nat /\ reads c2 = [ReadLen 1; ReadLen 2].
Proof.
  set (send := ZSend AsExists op_exists
                 (exists_request_serialize_body {| pw_path := bs "/a"; pw_watch := false |})).
  pose (c1 := default zk_client_init (run zk_step [send; send; ZPosted 0; ZPosted 0] zk_client_init)).
  pose (c2 := default c1 (run zk_step [ZWritten 0 None; ZWritten 0 None] c1)).
  exists c1, c2. split_and!; [apply run_reachable|apply run_reachable|by vm_compute|by vm_compute].
Qed.

(** An operation without a result never reports an error.  [make_error] of
    [result<void>] does not set the flag [is_ok] tests, so in every reachable
    state the result [connect] delivered is ok whatever went wrong, and so is the
    result of every [remove] that was answered or rejected. *)
Theorem zk_void_errors_vanish c :
  zk_reachable c ->
  (forall r, connect_promise c = Some (Some r) -> is_ok_void r = true) /\
  (forall p r, promises c !! p = Some (ZReady (VoidReply r)) -> is_ok_void r = true).
Proof.
  intros Hr. unfold is_ok_void. split.
  - assert (forall r, connect_promise c = Some (Some r) -> has_err_ r = false) as H.
    { eapply (steps_invariant zk_step
        (fun c => forall r, connect_promise c = Some (Some r) -> has_err_ r = false)); [|done|done].
      intros. by eapply connect_result_ok. }
    intros r E. by rewrite (H r E).
  - intros p r Hp. apply (inv_void _ (zk_inv_reachable c Hr)) in Hp. cbn in Hp. by rewrite Hp.
Qed.

(** The connection is refused, a removal is answered with "no node". *)
Definition zk_failed : zk_client :=
  default zk_client_init (run zk_step
    [ZConnect 4000 None; ZConnected (Some (bs "Connection refused"));
     ZSend AsVoid op_remove (delete_request_serialize_body {| dl_path := bs "/b"; dl_version := -1 |});
     ZPosted 0; ZWritten 0 None; ZRead 0 (inr (be_bytes 4 16));
     ZRead 0 (inr (reply_header_bytes {| xid := 1; zxid := 0; err := -101 |}))] zk_client_init).

Lemma zk_void_errors_vanish_witness :
  is_ok_void (make_error_void (bs "Connection refused")) = true /\
  is_ok_void (make_error_void (bs "no node")) = true.
Proof.
  split.
  - apply (zk_void_errors_vanish zk_failed); [apply run_reachable|by vm_compute].
  - apply (zk_void_errors_vanish zk_failed) with (p := 0%nat); [apply run_reachable|by vm_compute].
Defined.
