(* ===== verification/ServiceRegistry.v ===== *)
(** * Service registration and discovery: [src/registry/service_registry.h/.cpp]

    Every operation sends a request of the ZooKeeper client and polls the
    [io_context] until the future is ready.  The completions that can become ready
    are a list in the state; [poll_one] runs the next one unless the [io_context]
    is stopped, which it is as soon as it has run out of work, and stays, for
    nothing calls [restart()].  An operation is a state-passing computation
    that returns, polls without end, throws (a handler's exception leaves through
    [poll_one], a broken promise through [get]) or is undefined. *)
From S2P Require Import Prelude Program ZkProto ZkClient.

Record ServiceInstance := {
  si_name : str;
  si_address : str;
  si_ctime : Z;
  si_mtime : Z;
  si_version : Z;
  si_data_length : Z
}.

(** [ServiceInstance si; si.name = name;] *)
Definition ServiceInstance_named (name : str) : ServiceInstance :=
  {| si_name := name; si_address := []; si_ctime := 0; si_mtime := 0; si_version := 0;
     si_data_length := 0 |}.

(** The registry, and the completions and the state of its [io_context]. *)
Record registry := {
  client_ : zk_client;
  reg_connected : bool;
  ios_ : list zk_event;
  ios_guarded : bool;    (* a work guard or other work of the caller is on it *)
  ios_stopped : bool
}.

Definition with_client (c : zk_client) (evs : list zk_event) (stopped : bool) (w : registry) : registry :=
  {| client_ := c; reg_connected := reg_connected w; ios_ := evs; ios_guarded := ios_guarded w;
     ios_stopped := stopped |}.

Definition set_client (c : zk_client) (evs : list zk_event) (w : registry) : registry :=
  with_client c evs (ios_stopped w) w.

(** The [io_context] keeps running handlers. *)
Definition alive (w : registry) : Prop := ios_guarded w = true /\ ios_stopped w = false.

(** ** Computations *)

Abbreviation M := (prog registry).

(** [if (!connected_) return dflt;] *)
Definition if_connected {A} (dflt : A) (m : M A) : M A := fun w =>
  if reg_connected w then m w else Returned dflt w.

(** ** Waiting for a future *)

(** Completions are run by [poll_one]; it starts no request. *)
Definition is_completion (ev : zk_event) : bool :=
  match ev with ZConnect _ _ | ZSend _ _ _ => false | _ => true end.

(** No work is left on the [io_context]: it stops. *)
Definition runs_out (w : registry) (c : zk_client) : bool := negb (ios_guarded w) && negb (has_work c).

(** [while (future.wait_for(10ms) == timeout) ios_.poll_one();] where [ready]
    reads the future; a completion that cannot happen is not ready to run.  On a
    stopped [io_context], or one without work, [poll_one] runs nothing. *)
Fixpoint poll_until {A} (ready : zk_client -> option (outcome A)) (w : registry)
    (evs : list zk_event) (c : zk_client) (stopped : bool) : sync registry A :=
  match ready c with
  | Some (Ok a) => Returned a (with_client c evs stopped w)
  | Some (Throw e) => Raised e (with_client c evs stopped w)
  | Some UB => Undefined
  | None =>
      if stopped || runs_out w c then Polling (with_client c evs true w)
      else match evs with
      | [] => Polling (with_client c [] stopped w)
      | ev :: evs =>
          match (if is_completion ev then handler c ev else None) with
          | None => poll_until ready w evs c stopped
          | Some (Ok c) => poll_until ready w evs c (runs_out w c)
          | Some (Throw e) => Raised e (with_client (thrown ev c) evs (runs_out w (thrown ev c)) w)
          | Some UB => Undefined
          end
      end
  end.

(** [future.get()] of a request's promise. *)
Definition promise_ready (p : nat) (c : zk_client) : option (outcome reply) :=
  match promises c !! p with
  | Some (ZReady r) => Some (Ok r)
  | Some ZBroken => Some (Throw (other_std_exception (bs "std::future_error: Broken promise")))
  | _ => None
  end.

Definition connect_ready (c : zk_client) : option (outcome result_void) :=
  match connect_promise c with Some (Some r) => Some (Ok r) | _ => None end.

(** Start a request, wait for its reply. *)
Definition call (request : zk_client -> zk_client) : M reply := fun w =>
  poll_until (promise_ready (length (promises (client_ w)))) w (ios_ w) (request (client_ w)) (ios_stopped w).

(** The future's type fixes the constructor. *)
Definition as_create (r : reply) : M (result create_response) := fun w =>
  match r with CreateReply r => Returned r w | _ => Undefined end.
Definition as_children (r : reply) : M (result get_children_response) := fun w =>
  match r with ChildrenReply r => Returned r w | _ => Undefined end.
Definition as_data (r : reply) : M (result get_data_response) := fun w =>
  match r with DataReply r => Returned r w | _ => Undefined end.
Definition as_exists (r : reply) : M (result exists_response) := fun w =>
  match r with ExistsReply r => Returned r w | _ => Undefined end.
Definition as_void (r : reply) : M result_void := fun w =>
  match r with VoidReply r => Returned r w | _ => Undefined end.

(** ** Operations *)

(** [resolved] is the error of the name lookup, if any. *)
Definition connect (timeout_ms : Z) (resolved : option str) : M bool := fun w =>
  match poll_until connect_ready w (ios_ w)
          (ZkClient.connect timeout_ms resolved (client_ w)) (ios_stopped w) with
  | Returned result w =>
      let connected_ := is_ok_void result in
      Returned connected_ {| client_ := client_ w; reg_connected := connected_; ios_ := ios_ w;
                             ios_guarded := ios_guarded w; ios_stopped := ios_stopped w |}
  | Polling w => Polling w
  | Raised e w => Raised e w
  | Undefined => Undefined
  end.

Definition get_children (path : str) : M (list str) :=
  if_connected []
    (r ← call (ZkClient.get_children path false);
     r ← as_children r;
     match ok_ r with
     | None => mret []
     | Some resp => mret (children resp)
     end).

Definition get_node_data (path : str) : M str :=
  if_connected []
    (r ← call (get_data path false);
     r ← as_data r;
     match ok_ r with
     | None => mret []
     | Some resp => mret (gd_data resp)
     end).

(** [node_path.substr(node_path.rfind('/') + 1)] *)
Definition node_name (node_path : str) : str :=
  match rfind "/"%char node_path with
  | Some pos => drop (S pos) node_path
  | None => node_path
  end.

Definition get_service (node_path : str) : M ServiceInstance :=
  let si := ServiceInstance_named (node_name node_path) in
  if_connected si
    (r ← call (get_data node_path false);
     r ← as_data r;
     match ok_ r with
     | Some resp =>
         mret {| si_name := si_name si;
                 si_address := gd_data resp;
                 si_ctime := ctime (gd_stat resp);
                 si_mtime := mtime (gd_stat resp);
                 si_version := version (gd_stat resp);
                 si_data_length := data_length (gd_stat resp) |}
     | None => mret si
     end).

(** [parent + "/" + name] *)
Definition join (parent name : str) : str := parent ++ bs "/" ++ name.

(** The loop of [list_services]. *)
Fixpoint get_services (services_path : str) (names : list str) : M (list ServiceInstance) :=
  match names with
  | [] => mret []
  | name :: names =>
      s ← get_service (join services_path name);
      services ← get_services services_path names;
      mret (s :: services)
  end.

Definition list_services (services_path : str) : M (list ServiceInstance) :=
  children ← get_children services_path;
  get_services services_path children.

Definition node_exists (path : str) : M bool :=
  if_connected false
    (r ← call (exists_ path false);
     r ← as_exists r;
     mret (is_ok r)).

(** [flags = 1]: an ephemeral node. *)
Definition register_service (services_path node_name address : str) : M bool :=
  if_connected false
    (let full_path := join services_path node_name in
     r ← call (create full_path address acl_open_unsafe 1);
     r ← as_create r;
     mret (negb (is_err r))).

Definition unregister_service (node_path : str) : M bool :=
  if_connected false
    (r ← call (remove node_path (-1));
     r ← as_void r;
     mret (negb (is_err_void r))).

(** [flags = 0]: a persistent node; an existing one is not an error. *)
Definition create_persistent_node (path : str) : M bool :=
  if_connected false
    (r ← call (create path [] acl_open_unsafe 0);
     r ← as_create r;
     mret (negb (is_err r && negb (contains (bs "node exists") (err_ r))))).

(** ** Reference: a server that answers requests in order *)

(** A client between requests. *)
Record idle (c : zk_client) : Prop := {
  idle_pending : pending_ c = ∅;
  idle_posted : posted c = [];
  idle_writes : writes c = [];
  idle_reads : reads c = [];
  idle_xid : int32 (xid_ c)
}.

(** A reply: zxid, error code and the bytes after the header. *)
Record answer := { an_zxid : Z; an_err : Z; an_data : str }.

Definition answer_wf (a : answer) : Prop :=
  int64 (an_zxid a) /\ int32 (an_err a) /\ len (an_data a) + 16 < 2 ^ 31.

(** The completions of a request answered under id [x]. *)
Definition answered (x : Z) (a : answer) : list zk_event :=
  let body := reply_header_bytes {| xid := x; zxid := an_zxid a; err := an_err a |} ++ an_data a in
  [ZPosted 0; ZWritten 0 None; ZRead 0 (inr (be_bytes 4 (len body))); ZRead 0 (inr body)].

Fixpoint answers (x : Z) (l : list answer) : list zk_event :=
  match l with
  | [] => []
  | a :: l => answered x a ++ answers (i32 (x + 1)) l
  end.

(** The frame of a request. *)
Definition frame (x : Z) (op : op_code) (body : str) : str :=
  make_zpayload (request_header_serialize {| rq_xid := x; opcode := op_code_value op |} [] ++ body).

Fixpoint frames (x : Z) (l : list (op_code * str)) : list str :=
  match l with
  | [] => []
  | (op, body) :: l => frame x op body :: frames (i32 (x + 1)) l
  end.

(** The client after a request settled with [r]. *)
Definition after (op : op_code) (body : str) (r : reply) (c : zk_client) : zk_client :=
  set_io [] [] [] (sent c ++ [frame (xid_ c) op body])
    (set_table ∅ (i32 (xid_ c + 1)) (promises c ++ [ZReady r]) c).

(** What [get_data] of a child is answered: an error code or the node. *)
Definition node_answer (z : Z) (n : Z + get_data_response) : answer :=
  match n with
  | inl e => {| an_zxid := z; an_err := e; an_data := [] |}
  | inr d => {| an_zxid := z; an_err := 0; an_data := get_data_response_bytes d |}
  end.
Definition node_answer_wf (n : Z + get_data_response) : Prop :=
  match n with
  | inl e => int32 e /\ e <> 0
  | inr d => len (gd_data d) + 100 < 2 ^ 31 /\ zk_stat_wf (gd_stat d)
  end.

(** The instance the registry makes of it. *)
Definition instance_of (name : str) (n : Z + get_data_response) : ServiceInstance :=
  match n with
  | inl _ => ServiceInstance_named name
  | inr d => {| si_name := name; si_address := gd_data d; si_ctime := ctime (gd_stat d);
                si_mtime := mtime (gd_stat d); si_version := version (gd_stat d);
                si_data_length := data_length (gd_stat d) |}
  end.

(** ** Lemmas *)

Lemma idle_after op body r c : idle (after op body r c).
Proof. split; [done..|]. exact (swrap_range 32 _ eq_refl). Qed.

Lemma working w c : has_work c = true -> runs_out w c = false.
Proof. unfold runs_out. intros ->. by rewrite andb_false_r. Qed.

Lemma alive_runs w c : alive w -> runs_out w c = false.
Proof. unfold runs_out. by intros [-> _]. Qed.

Lemma in_flight_works c : in_flight c <> O -> has_work c = true.
Proof. unfold has_work, in_flight. by destruct (hs c), (posted c), (writes c), (reads c). Qed.

(** One completion of a client at work. *)
Lemma poll_step {A} (ready : zk_client -> option (outcome A)) w ev evs c c' :
  ready c = None -> has_work c = true -> is_completion ev = true -> handler c ev = Some (Ok c') ->
  poll_until ready w (ev :: evs) c false = poll_until ready w evs c' (runs_out w c').
Proof. intros E1 Hw E2 E3. cbn. by rewrite E1, working, E2, E3. Qed.

(** ... which leaves it at work. *)
Lemma poll_step_on {A} (ready : zk_client -> option (outcome A)) w ev evs c c' :
  ready c = None -> has_work c = true -> is_completion ev = true -> handler c ev = Some (Ok c') ->
  has_work c' = true ->
  poll_until ready w (ev :: evs) c false = poll_until ready w evs c' false.
Proof. intros. erewrite poll_step by done. by rewrite (working w c'). Qed.

Lemma poll_done {A} (ready : zk_client -> option (outcome A)) w evs c a stopped :
  ready c = Some (Ok a) -> poll_until ready w evs c stopped = Returned a (with_client c evs stopped w).
Proof. intros E. destruct evs; cbn; by rewrite E. Qed.

(** On a stopped [io_context] nothing happens any more. *)
Lemma poll_stopped {A} (ready : zk_client -> option (outcome A)) w evs c :
  ready c = None -> poll_until ready w evs c true = Polling (with_client c evs true w).
Proof. intros E. destruct evs; cbn; by rewrite E. Qed.

Lemma promise_waiting c p : promises c !! p = Some ZWaiting -> promise_ready p c = None.
Proof. intros E. unfold promise_ready. by rewrite E. Qed.

Lemma answered_frame x a :
  int32 x -> answer_wf a ->
  let h := {| xid := x; zxid := an_zxid a; err := an_err a |} in
  let body := reply_header_bytes h ++ an_data a in
  alloc_body (be_bytes 4 (len body)) = Ok (len body) /\
  reply_header_deserialize body = Ok (h, an_data a).
Proof.
  intros Hx (Hz & He & Hl) h body. split.
  - assert (len body = 16 + len (an_data a)) as El.
    { unfold body, reply_header_bytes. rewrite !len_app, !len_be_bytes. lia. }
    pose proof (len_nonneg (an_data a)). unfold alloc_body. rewrite be_val_bytes.
    change ((len body) mod 2 ^ (8 * Z.of_nat 4)) with (wrap 32 (len body)).
    rewrite swrap_wrap by lia. by destruct (Z.ltb_spec (len body) 0); [lia|].
  - apply reply_header_decode. by split_and!.
Qed.

Lemma length_read c i x lenbuf n :
  reads c !! i = Some (ReadLen x) -> len lenbuf = 4 -> alloc_body lenbuf = Ok n ->
  handler c (ZRead i (inr lenbuf)) =
    Some (Ok (set_io (posted c) (writes c) (<[i := ReadBody x n]> (reads c)) (sent c) c)).
Proof. intros E1 E2 E3. cbn. unfold read_done. rewrite E1. cbn. by rewrite E2, E3. Qed.

Lemma body_read c i x body h d :
  reads c !! i = Some (ReadBody x (len body)) -> reply_header_deserialize body = Ok (h, d) ->
  handler c (ZRead i (inr body)) =
    Some (resolve_pending (xid h) (err h) d (set_io (posted c) (writes c) (delete i (reads c)) (sent c) c)).
Proof. intros E1 E2. cbn. unfold read_done. rewrite E1. cbn. by rewrite Z.eqb_refl, E2. Qed.

(** The intermediate states of a request have work outstanding. *)
Ltac poll_on Hready :=
  erewrite poll_step_on; [|by apply Hready|by apply in_flight_works|done|first [reflexivity|by eapply length_read]
    |by apply in_flight_works].

(** A request in an idle client, up to the arrival of a reply under id [y]. *)
Lemma poll_reply k op body c y a w rest (ready : zk_client -> option (outcome reply)) c2 :
  idle c -> int32 y -> answer_wf a ->
  (forall c', promises c' = promises c ++ [ZWaiting] -> ready c' = None) ->
  let c1 := set_io [] [] [] (sent c ++ [frame (xid_ c) op body])
              (set_table {[xid_ c := (k, length (promises c))]} (i32 (xid_ c + 1))
                 (promises c ++ [ZWaiting]) c) in
  resolve_pending y (an_err a) (an_data a) c1 = Ok c2 ->
  poll_until ready w (answered y a ++ rest) (send_request k op body c) false =
  poll_until ready w rest c2 (runs_out w c2).
Proof.
  intros [Hp Hpo Hw Hrd Hx] Hy Ha Hready c1 Hres.
  destruct (answered_frame y a Hy Ha) as [E1 E2].
  unfold send_request, release, answered.
  cbn [posted writes reads sent set_table]. rewrite Hp, Hpo, Hw, Hrd, lookup_empty. cbn [app]. fold (frame (xid_ c) op body).
  set (B := reply_header_bytes _ ++ an_data a) in *. clearbody B.
  set (L := be_bytes 4 (len B)) in *. assert (len L = 4) as El by apply len_be_bytes. clearbody L.
  do 3 poll_on Hready.
  erewrite poll_step; [reflexivity|by apply Hready|by apply in_flight_works|done|].
  erewrite body_read; [|reflexivity|exact E2]. by rewrite <- Hres.
Qed.

(** What a call does to the registry when its request is answered in time. *)
Definition returned (op : op_code) (body : str) (r : reply) (rest : list zk_event) (w : registry) : registry :=
  let c := after op body r (client_ w) in with_client c rest (runs_out w c) w.

Lemma call_answered k op body w a r rest :
  idle (client_ w) -> ios_stopped w = false ->
  ios_ w = answered (xid_ (client_ w)) a ++ rest -> answer_wf a ->
  resolve k (an_err a) (an_data a) = Ok r ->
  call (send_request k op body) w = Returned r (returned op body r rest w).
Proof.
  intros Hi Hs Ho Ha Hr. unfold call. rewrite Ho, Hs.
  erewrite (poll_reply _ _ _ _ _ _ _ _ _ (after op body r (client_ w))); [|done|apply Hi|done| |].
  - erewrite poll_done; [done|]. unfold promise_ready, after. cbn [promises set_io set_table].
    by rewrite lookup_app_r, Nat.sub_diag by lia.
  - intros c' E. apply promise_waiting. rewrite E.
    by rewrite lookup_app_r, Nat.sub_diag by lia.
  - unfold resolve_pending. cbn [pending_ set_io set_table]. rewrite lookup_singleton_eq, Hr.
    cbn [mbind outcome_bind]. unfold after. rewrite delete_singleton_eq. f_equal.
    cbn [promises set_io set_table]. unfold set_table, set_io. cbn. f_equal.
    rewrite insert_app_r_alt, Nat.sub_diag by lia. done.
Qed.

(** The server goes silent: some of the completions of an answer, not all. *)
Lemma call_unanswered k op body w a n :
  idle (client_ w) -> ios_stopped w = false -> answer_wf a -> (n < 4)%nat -> ios_ w = take n (answered (xid_ (client_ w)) a) ->
  exists w', call (send_request k op body) w = Polling w' /\ ios_ w' = [] /\ size (pending_ (client_ w')) = 1%nat.
Proof.
  intros [Hp Hpo Hw Hrd Hx] Hs Ha Hn Ho. unfold call. rewrite Ho, Hs.
  destruct (answered_frame (xid_ (client_ w)) a Hx Ha) as [E1 E2].
  unfold send_request, release, answered.
  cbn [posted writes reads sent set_table]. rewrite Hp, Hpo, Hw, Hrd, lookup_empty. cbn [app].
  set (B := reply_header_bytes _ ++ an_data a) in *. clearbody B.
  set (L := be_bytes 4 (len B)) in *. assert (len L = 4) as El by apply len_be_bytes. clearbody L.
  assert (forall c', promises c' = promises (client_ w) ++ [ZWaiting] ->
    promise_ready (length (promises (client_ w))) c' = None) as Hready.
  { intros c' E. apply promise_waiting. rewrite E. by rewrite lookup_app_r, Nat.sub_diag by lia. }
  destruct n as [|[|[|[|n]]]]; [..|lia]; cbn [take];
    repeat poll_on Hready; cbn [poll_until orb]; rewrite Hready by done;
    rewrite working by (by apply in_flight_works); eexists; (split; [reflexivity|]);
    (split; [done|]); exact (map_size_singleton _ _).
Qed.

(** The reply is consumed under another id; nothing is left that could settle the
    request. *)
Lemma call_misanswered k op body w y a :
  idle (client_ w) -> ios_stopped w = false -> int32 y -> y <> xid_ (client_ w) -> answer_wf a ->
  ios_ w = answered y a ->
  exists w', call (send_request k op body) w = Polling w' /\
    in_flight (client_ w') = O /\ pending_ (client_ w') = {[xid_ (client_ w) := (k, length (promises (client_ w)))]}.
Proof.
  intros Hi Hs Hy Hne Ha Ho. unfold call. rewrite Ho, Hs, <- (app_nil_r (answered y a)).
  assert (forall c', promises c' = promises (client_ w) ++ [ZWaiting] ->
    promise_ready (length (promises (client_ w))) c' = None) as Hready.
  { intros c' E. apply promise_waiting. rewrite E. by rewrite lookup_app_r, Nat.sub_diag by lia. }
  erewrite poll_reply; [|done|done|done|done|].
  2: { unfold resolve_pending. cbn [pending_ set_io set_table]. by rewrite lookup_singleton_ne by done. }
  cbn [poll_until]. rewrite Hready by done.
  destruct (_ || _); (eexists; split; [reflexivity|]; done).
Qed.

Lemma resolve_error k e d :
  e <> 0 -> resolve k e d = Ok (reject k (zk_error_str e)).
Proof. intros He. apply Z.eqb_neq in He. destruct k; cbn; by rewrite He. Qed.

Lemma decode_whole {A} (f : reader A) (a : A) d (wr : result A -> reply) :
  (forall r, f (d ++ r) = Ok (a, r)) -> decode_with f wr d = Ok (wr (make_ok a)).
Proof. intros E. unfold decode_with. rewrite <- (app_nil_r d). by rewrite E. Qed.

Lemma if_connected_true {A} (d : A) m w : reg_connected w = true -> if_connected d m w = m w.
Proof. intros E. unfold if_connected. by rewrite E. Qed.

Lemma get_data_answer n z :
  node_answer_wf n -> int64 z ->
  answer_wf (node_answer z n) /\
  exists r, resolve AsData (an_err (node_answer z n)) (an_data (node_answer z n)) = Ok (DataReply r) /\
    ok_ r = match n with inl _ => None | inr d => Some d end.
Proof.
  intros Hn Hz. destruct n as [e|d]; cbn [node_answer an_err an_data].
  - destruct Hn as [? ?]. split; [by split_and!|]. exists (make_error (zk_error_str e)).
    split; [by rewrite resolve_error|done].
  - destruct Hn as [Hl Hs]. pose proof (len_nonneg (gd_data d)). split.
    + split_and!; [done|unfold int32; cbn; lia|]. cbn [an_data].
      unfold get_data_response_bytes, string_bytes, zk_stat_bytes. rewrite !len_app, !len_be_bytes. lia.
    + exists (make_ok d). split; [|done]. cbn -[get_data_response_bytes]. apply decode_whole. intros r.
      apply get_data_decode. split; [unfold sized; lia|done].
Qed.

(** [node_name] recovers the last component. *)
Lemma node_name_join path name : "/"%char ∉ name -> node_name (join path name) = name.
Proof.
  intros Hn. unfold node_name, join. cbn [bs list_ascii_of_string app].
  rewrite rfind_app by done. change (S (length path)) with (1 + length path)%nat.
  rewrite Nat.add_comm, <- drop_drop. by rewrite drop_app_length.
Qed.

(** [w'] is [w] after the requests [l] were sent and answered. *)
Record served (l : list (op_code * str)) (rest : list zk_event) (w w' : registry) : Prop := {
  served_idle : idle (client_ w');
  served_connected : reg_connected w' = reg_connected w;
  served_alive : alive w -> alive w';
  served_ios : ios_ w' = rest;
  served_sent : sent (client_ w') = sent (client_ w) ++ frames (xid_ (client_ w)) l;
  served_xid : xid_ (client_ w') = Nat.iter (length l) (fun x => i32 (x + 1)) (xid_ (client_ w))
}.

Lemma alive_after w c evs : alive w -> alive (with_client c evs (runs_out w c) w).
Proof. intros Ha. split; [apply Ha|]. exact (alive_runs w c Ha). Qed.

Lemma served_one op body r rest w : served [(op, body)] rest w (returned op body r rest w).
Proof. split; [apply idle_after|done|by apply alive_after|done..]. Qed.

Lemma served_cons q rest rest' l w w1 w' :
  served [q] rest w w1 -> served l rest' w1 w' -> served (q :: l) rest' w w'.
Proof.
  destruct q as [op body]. intros [H1 H2 Ha H3 H4 H5] [G1 G2 Hb G3 G4 G5]. split; [done|congruence|auto|done|..].
  - rewrite G4, H4, H5. cbn. by rewrite <- app_assoc.
  - rewrite G5, H5. symmetry. exact (Nat.iter_succ_r _ _ _).
Qed.

(** The request [get_service] makes for a child. *)
Definition child_request (path name : str) : op_code * str :=
  (op_get_data, get_data_request_serialize_body {| pw_path := join path name; pw_watch := false |}).

(** The request of [get_children]. *)
Definition children_request (path : str) : op_code * str :=
  (op_get_children, get_children_request_serialize_body {| pw_path := path; pw_watch := false |}).

(** What an answered [get_service] gives. *)
Lemma get_service_answered path name n z rest w :
  idle (client_ w) -> reg_connected w = true -> ios_stopped w = false ->
  "/"%char ∉ name -> node_answer_wf n -> int64 z ->
  ios_ w = answered (xid_ (client_ w)) (node_answer z n) ++ rest ->
  exists w', get_service (join path name) w = Returned (instance_of name n) w' /\
    served [child_request path name] rest w w'.
Proof.
  intros Hi Hc Hst Hn Hw Hz Ho. destruct (get_data_answer n z Hw Hz) as (Ha & r & Hr & Hok).
  eexists. split; [|apply served_one with (r := DataReply r)]. unfold get_service. rewrite if_connected_true by done.
  erewrite bind_returned by (by eapply call_answered).
  unfold mbind, prog_bind. cbn [as_data]. rewrite Hok, node_name_join by done. by destruct n.
Qed.

Lemma get_children_answered path names z rest w :
  idle (client_ w) -> reg_connected w = true -> ios_stopped w = false -> Forall sized names ->
  len (get_children_response_bytes {| children := names |}) + 16 < 2 ^ 31 -> len names < 2 ^ 31 ->
  int64 z ->
  ios_ w = answered (xid_ (client_ w))
    {| an_zxid := z; an_err := 0; an_data := get_children_response_bytes {| children := names |} |} ++ rest ->
  exists w', get_children path w = Returned names w' /\ served [children_request path] rest w w'.
Proof.
  intros Hi Hc Hst Hs Hl Hn Hz Ho. eexists. split;
    [|apply served_one with (r := ChildrenReply (make_ok {| children := names |}))].
  unfold get_children. rewrite if_connected_true by done.
  assert (resolve AsChildren 0 (get_children_response_bytes {| children := names |}) =
    Ok (ChildrenReply (make_ok {| children := names |}))) as Hr.
  { cbn -[get_children_response_bytes]. apply decode_whole. intros r. by apply get_children_decode. }
  erewrite bind_returned by (eapply call_answered; [done|done|done|by split_and!|done]). done.
Qed.

Lemma get_services_answered path names ns rest w :
  idle (client_ w) -> reg_connected w = true -> alive w -> Forall (fun n => "/"%char ∉ n) names ->
  length ns = length names -> Forall (fun zn => int64 zn.1 /\ node_answer_wf zn.2) ns ->
  ios_ w = answers (xid_ (client_ w)) ((fun zn => node_answer zn.1 zn.2) <$> ns) ++ rest ->
  exists w', get_services path names w = Returned (zip_with instance_of names ns.*2) w' /\
    served (child_request path <$> names) rest w w'.
Proof.
  intros Hi Hc Hal Hn. revert ns w Hi Hc Hal. induction Hn as [|name names Hs Hn IH]; intros ns w Hi Hc Hal Hl Hw Ho.
  - destruct ns; [|done]. exists w. split; [done|]. split; [done..| |done]. cbn. by rewrite app_nil_r.
  - destruct ns as [|[z n] ns]; [done|]. apply Forall_cons in Hw as [[Hz Hn1] Hw]. cbn [fst snd] in *.
    rewrite fmap_cons in Ho. cbn [answers fst snd] in Ho. rewrite <- app_assoc in Ho.
    destruct (get_service_answered path name n z _ w Hi Hc (proj2 Hal) Hs Hn1 Hz Ho) as (w1 & Hr & Hw1).
    destruct (IH ns w1) as (w' & E & Hsv); [apply Hw1|by rewrite (served_connected _ _ _ _ Hw1)|by apply Hw1|cbn in Hl; lia
      |done|by rewrite (served_ios _ _ _ _ Hw1), (served_xid _ _ _ _ Hw1)|].
    exists w'. split; [|by eapply served_cons]. cbn [get_services].
    erewrite bind_returned by exact Hr. erewrite bind_returned by exact E. done.
Qed.

(** The [io_context] stays at work and the server answers in order: the children [names] of the path, then for every
    child the node's data and stat or an error, [ns]. *)
Record lists (names : list str) (z : Z) (ns : list (Z * (Z + get_data_response)))
    (rest : list zk_event) (w : registry) : Prop := {
  lists_idle : idle (client_ w);
  lists_connected : reg_connected w = true;
  lists_alive : alive w;
  lists_sized : Forall sized names /\ len names < 2 ^ 31;
  lists_names : Forall (fun n => "/"%char ∉ n) names;
  lists_reply : len (get_children_response_bytes {| children := names |}) + 16 < 2 ^ 31 /\ int64 z;
  lists_length : length ns = length names;
  lists_nodes : Forall (fun zn => int64 zn.1 /\ node_answer_wf zn.2) ns;
  lists_events : ios_ w = answers (xid_ (client_ w))
    ({| an_zxid := z; an_err := 0; an_data := get_children_response_bytes {| children := names |} |} ::
     ((fun zn => node_answer zn.1 zn.2) <$> ns)) ++ rest
}.

Lemma list_services_answered path names z ns rest w :
  lists names z ns rest w ->
  exists w', list_services path w = Returned (zip_with instance_of names ns.*2) w' /\
    served (children_request path :: (child_request path <$> names)) rest w w'.
Proof.
  intros [Hi Hc Hal [Hs Hl] Hn [Hb Hz] Hlen Hns Ho]. cbn [answers] in Ho. rewrite <- app_assoc in Ho.
  destruct (get_children_answered path names z _ w Hi Hc (proj2 Hal) Hs Hb Hl Hz Ho) as (w1 & Hr & Hw1).
  destruct (get_services_answered path names ns rest w1) as (w' & E & Hsv);
    [apply Hw1|by rewrite (served_connected _ _ _ _ Hw1)|by apply Hw1|done|done|done
    |by rewrite (served_ios _ _ _ _ Hw1), (served_xid _ _ _ _ Hw1)|].
  exists w'. split; [|by eapply served_cons]. unfold list_services.
  erewrite bind_returned by exact Hr. exact E.
Qed.

(** ** Theorems *)

(** C20: [list_services] returns the registered instances.  When the caller
    keeps the [io_context] at work and the server answers in order, with the children of the path and for every child either the
    node's data and stat or an error, the result has one instance per child, in
    the server's order: the child's name, with the address and stat of the node or
    with empty fields when the node could not be read.  Exactly one [get_children]
    and one [get_data] per child went out, and the client is idle again. *)
Theorem list_services_returns_instances path names z ns rest w :
  lists names z ns rest w ->
  exists w', list_services path w = Returned (zip_with instance_of names ns.*2) w' /\
    served (children_request path :: (child_request path <$> names)) rest w w'.
Proof. apply list_services_answered. Qed.

(** Two instances; the second node is gone when its data is asked for. *)
Definition node_stat : zk_stat :=
  {| czxid := 7; mzxid := 9; ctime := 1700000000000; mtime := 1700000000500; version := 3;
     cversion := 0; aversion := 0; ephemeral_owner := 1234; data_length := 13; num_children := 0;
     pzxid := 7 |}.
Definition two_names : list str := [bs "node-1"; bs "node-2"].
Definition two_nodes : list (Z * (Z + get_data_response)) :=
  [(10, inr {| gd_data := bs "10.0.0.5:9000"; gd_stat := node_stat |}); (11, inl (-101))].
Definition two_nodes_world : registry :=
  {| client_ := zk_client_init; reg_connected := true;
     ios_ := answers 1
       ({| an_zxid := 9; an_err := 0; an_data := get_children_response_bytes {| children := two_names |} |}
        :: ((fun zn => node_answer zn.1 zn.2) <$> two_nodes)) ++ [];
     ios_guarded := true; ios_stopped := false |}.

Lemma init_idle : idle zk_client_init.
Proof. by split. Qed.

Lemma two_nodes_listed : lists two_names 9 two_nodes [] two_nodes_world.
Proof.
  split; [exact init_idle|done|done|split; [repeat constructor|done]
    |apply (bool_decide_unpack _); by vm_compute|split; by vm_compute|done
    |repeat constructor; by vm_compute|done].
Qed.

Lemma list_services_returns_instances_witness :
  exists w', list_services (bs "/rpc/services") two_nodes_world =
    Returned [{| si_name := bs "node-1"; si_address := bs "10.0.0.5:9000"; si_ctime := 1700000000000;
                 si_mtime := 1700000000500; si_version := 3; si_data_length := 13 |};
              ServiceInstance_named (bs "node-2")] w'.
Proof.
  destruct (list_services_returns_instances (bs "/rpc/services") two_names 9 two_nodes [] two_nodes_world)
    as (w' & E & _); [exact two_nodes_listed|]. exists w'. exact E.
Defined.

Lemma call_served k op body w a r rest :
  idle (client_ w) -> ios_stopped w = false ->
  ios_ w = answered (xid_ (client_ w)) a ++ rest -> answer_wf a ->
  resolve k (an_err a) (an_data a) = Ok r ->
  exists w', call (send_request k op body) w = Returned r w' /\ served [(op, body)] rest w w'.
Proof. intros. eexists. split; [by eapply call_answered|apply served_one]. Qed.

Lemma error_string_exists e : contains (bs "node exists") (zk_error_str e) = (e =? -110).
Proof.
  unfold zk_error_str.
  repeat match goal with
  | |- context [if e =? ?n then _ else _] => destruct (Z.eqb_spec e n); [subst; by vm_compute|]
  end.
  by vm_compute.
Qed.

(** The request of a node's creation, removal or look-up. *)
Definition create_node (path data : str) (flags : Z) : op_code * str :=
  (op_create, create_request_serialize_body
     {| cr_path := path; cr_data := data; cr_acls := acl_open_unsafe; cr_flags := flags |}).
Definition remove_node_request (path : str) : op_code * str :=
  (op_remove, delete_request_serialize_body {| dl_path := path; dl_version := -1 |}).
Definition exists_request_of (path : str) : op_code * str :=
  (op_exists, exists_request_serialize_body {| pw_path := path; pw_watch := false |}).
Definition data_request (path : str) : op_code * str :=
  (op_get_data, get_data_request_serialize_body {| pw_path := path; pw_watch := false |}).

(** The operation sends the request [q] and returns [v] after its answer. *)
Definition answers_with {A} (m : M A) (q : op_code * str) (v : A) (rest : list zk_event) (w : registry) : Prop :=
  exists w', m w = Returned v w' /\ served [q] rest w w'.

Lemma answers_with_intro {A} (m : M A) k op body (cont : reply -> M A) d r v rest a w :
  (forall w, m w = if_connected d (call (send_request k op body) ≫= cont) w) ->
  idle (client_ w) -> reg_connected w = true -> ios_stopped w = false ->
  ios_ w = answered (xid_ (client_ w)) a ++ rest -> answer_wf a ->
  resolve k (an_err a) (an_data a) = Ok r ->
  (forall w', cont r w' = Returned v w') ->
  answers_with m (op, body) v rest w.
Proof.
  intros Hm Hi Hc Hst Ho Ha Hr Hk. destruct (call_served k op body w a r rest Hi Hst Ho Ha Hr) as (w' & E & Hs).
  exists w'. split; [|done]. rewrite Hm, if_connected_true by done.
  erewrite bind_returned by exact E. apply Hk.
Qed.

(** C32: the single-node operations report the server's answer, except removal, as
    long as the [io_context] has not stopped.
    An error answer makes [register_service] and [node_exists] false,
    [get_node_data] empty and [create_persistent_node] false unless the error is
    "node exists"; a successful answer makes them true or gives the data;
    [unregister_service] is true whatever the answer.  Each sends one request: the
    instance is created as an ephemeral node with the open ACL, a directory as a
    persistent one, a removal asks for any version. *)
Theorem registry_operations_spec a rest w path node_name address :
  idle (client_ w) -> reg_connected w = true -> ios_stopped w = false -> answer_wf a ->
  ios_ w = answered (xid_ (client_ w)) a ++ rest ->
  answers_with (unregister_service path) (remove_node_request path) true rest w /\
  (an_err a <> 0 ->
   answers_with (register_service path node_name address)
     (create_node (join path node_name) address 1) false rest w /\
   answers_with (create_persistent_node path) (create_node path [] 0) (an_err a =? -110) rest w /\
   answers_with (node_exists path) (exists_request_of path) false rest w /\
   answers_with (get_node_data path) (data_request path) [] rest w) /\
  (forall created, an_err a = 0 -> an_data a = string_bytes created -> sized created ->
   answers_with (register_service path node_name address)
     (create_node (join path node_name) address 1) true rest w /\
   answers_with (create_persistent_node path) (create_node path [] 0) true rest w) /\
  (forall st, an_err a = 0 -> an_data a = zk_stat_bytes st -> zk_stat_wf st ->
   answers_with (node_exists path) (exists_request_of path) true rest w) /\
  (forall d, an_err a = 0 -> an_data a = get_data_response_bytes d -> get_data_response_wf d ->
   answers_with (get_node_data path) (data_request path) (gd_data d) rest w).
Proof.
  intros Hi Hc Hst Ha Ho. split_and!.
  - eapply answers_with_intro with (a := a) (k := AsVoid); [reflexivity|done..|].
    intros w'. cbn. by destruct (negb (an_err a =? 0)).
  - intros He. split_and!; (eapply (answers_with_intro) with (a := a); [reflexivity|done|done|done|done|done|by apply resolve_error|]);
      intros w'; [done| |done|done].
    change (Returned (negb (true && negb (contains (bs "node exists") (zk_error_str (an_err a))))) w' =
      Returned (an_err a =? -110) w').
    rewrite error_string_exists. by destruct (an_err a =? -110).
  - intros created He Hd Hs.
    assert (resolve AsCreate (an_err a) (an_data a) =
      Ok (CreateReply (make_ok {| created_path := created |}))) as Hr.
    { rewrite He, Hd. apply decode_whole. intros r. by apply (create_decode {| created_path := created |}). }
    split; (eapply (answers_with_intro) with (a := a); [reflexivity|done|done|done|done|done|exact Hr|done]).
  - intros st He Hd Hs.
    assert (resolve AsExists (an_err a) (an_data a) = Ok (ExistsReply (make_ok {| ex_stat := st |}))) as Hr.
    { rewrite He, Hd. apply decode_whole. intros r. by apply (exists_decode {| ex_stat := st |}). }
    eapply (answers_with_intro) with (a := a); [reflexivity|done|done|done|done|done|exact Hr|done].
  - intros d He Hd Hs.
    assert (resolve AsData (an_err a) (an_data a) = Ok (DataReply (make_ok d))) as Hr.
    { rewrite He, Hd. apply decode_whole. intros r. by apply get_data_decode. }
    eapply (answers_with_intro) with (a := a); [reflexivity|done|done|done|done|done|exact Hr|done].
Qed.

(** The server has no such node. *)
Definition no_node : answer := {| an_zxid := 5; an_err := -101; an_data := [] |}.
Definition no_node_world : registry :=
  {| client_ := zk_client_init; reg_connected := true; ios_ := answered 1 no_node ++ [];
     ios_guarded := false; ios_stopped := false |}.

Lemma registry_operations_spec_witness :
  answers_with (unregister_service (bs "/rpc/services/x")) (remove_node_request (bs "/rpc/services/x"))
    true [] no_node_world /\
  answers_with (node_exists (bs "/rpc/services/x")) (exists_request_of (bs "/rpc/services/x"))
    false [] no_node_world.
Proof.
  split; apply (registry_operations_spec no_node [] no_node_world (bs "/rpc/services/x") [] []);
    first [exact init_idle | reflexivity | by vm_compute | (split_and!; by vm_compute)].
Defined.

(** ** Any schedule *)

(** No request of the client is pending. *)
Definition quiet (w : registry) : Prop :=
  zk_reachable (client_ w) /\ pending_ (client_ w) = ∅.

Definition keeps_quiet {A} (m : M A) : Prop :=
  forall w a w', quiet w -> m w = Returned a w' -> quiet w' /\ reg_connected w' = reg_connected w.

Lemma handler_step c ev c' : handler c ev = Some (Ok c') -> zk_step c ev = Some c'.
Proof. unfold zk_step. by intros ->. Qed.

(** What completions preserve holds when the loop ends, and the future is ready. *)
Lemma poll_until_inv {A} (P : zk_client -> Prop) (ready : zk_client -> option (outcome A)) w evs c st a w' :
  (forall c ev c', P c -> is_completion ev = true -> zk_step c ev = Some c' -> P c') ->
  P c -> poll_until ready w evs c st = Returned a w' ->
  P (client_ w') /\ ready (client_ w') = Some (Ok a) /\ reg_connected w' = reg_connected w.
Proof.
  intros HP. revert c st. induction evs as [|ev evs IH]; intros c st Hc E; cbn in E;
    destruct (ready c) as [[b| |]|] eqn:Er; try done; try (by injection E as -> <-);
    destruct (st || runs_out w c); try done.
  destruct (is_completion ev) eqn:Ev; [|by eapply IH].
  destruct (handler c ev) as [[c1| |]|] eqn:Eh; try done; [|by eapply IH].
  apply handler_step in Eh. eapply IH; [|exact E]. by eapply HP.
Qed.

(** Nothing else being on the [io_context], it is stopped when the future is ready
    and the client has no more work. *)
Lemma poll_until_stops {A} (ready : zk_client -> option (outcome A)) w evs c st a w' :
  ready c = None -> poll_until ready w evs c st = Returned a w' -> ios_stopped w' = runs_out w (client_ w').
Proof.
  intros Hc E. revert c st Hc E. induction evs as [|ev evs IH]; intros c st Hc E; cbn in E; rewrite Hc in E;
    destruct (st || runs_out w c); try done.
  destruct (if is_completion ev then handler c ev else None) as [[c1| |]|]; try done; [|by eapply IH].
  destruct (ready c1) as [[b| |]|] eqn:Er; [| | |by eapply IH].
  - rewrite (poll_done _ _ _ _ _ _ Er) in E. by injection E as <- <-.
  - destruct evs; cbn in E; by rewrite Er in E.
  - destruct evs; cbn in E; by rewrite Er in E.
Qed.

Lemma reachable_step c ev c' : zk_reachable c -> zk_step c ev = Some c' -> zk_reachable c'.
Proof. intros Hr Hs. eapply rtc_r; [exact Hr|]. by exists ev. Qed.

Lemma call_keeps_quiet k op body : keeps_quiet (call (send_request k op body)).
Proof.
  intros w r w' [Hr Hp] E. unfold call in E. set (p := length (promises (client_ w))) in *.
  apply (poll_until_inv (fun c => zk_reachable c /\
           forall x l q, pending_ c !! x = Some (l, q) -> q = p)) in E as ((Hr' & Hk) & Hready & Hc).
  - split; [|done]. split; [done|]. apply map_empty. intros x.
    destruct (pending_ (client_ w') !! x) as [[l q]|] eqn:Hx; [|done]. exfalso.
    pose proof (Hk _ _ _ Hx) as ->.
    assert (promises (client_ w') !! p = Some ZWaiting) as Hw
      by (apply (inv_waiting _ (zk_inv_reachable _ Hr')); eauto).
    unfold promise_ready in Hready. by rewrite Hw in Hready.
  - intros c ev c' [Hrc Hkc] Hev Hs. split; [by eapply reachable_step|]. intros x l q.
    apply zk_step_table in Hs as [-> _ _ _|k' op' body' -> _ _ _ _|y k' p' r' _ -> _ _ _ _]; [apply Hkc|done|].
    rewrite lookup_delete_Some. intros [_ ?]. eauto.
  - split; [by eapply (reachable_step _ (ZSend k op body))|]. intros x l q. cbn.
    rewrite Hp, lookup_insert_Some, lookup_empty. by intros [[_ [= _ <-]]|[_ ?]].
Qed.

Lemma bind_keeps_quiet {A B} (m : M A) (k : A -> M B) :
  keeps_quiet m -> (forall a, keeps_quiet (k a)) -> keeps_quiet (m ≫= k).
Proof.
  intros Hm Hk w b w' Hq E. unfold mbind, prog_bind in E. destruct (m w) as [a w1| | |] eqn:E1; try done.
  destruct (Hm _ _ _ Hq E1) as [Hq1 Hc1]. destruct (Hk a _ _ _ Hq1 E) as [Hq2 Hc2]. split; [done|congruence].
Qed.

Lemma ret_keeps_quiet {A} (a : A) : keeps_quiet (mret a).
Proof. intros w b w' Hq [= -> ->]. done. Qed.

Lemma if_connected_keeps_quiet {A} (d : A) m : keeps_quiet m -> keeps_quiet (if_connected d m).
Proof.
  intros Hm w a w' Hq E. unfold if_connected in E. destruct (reg_connected w) eqn:Ec in E.
  - by eapply Hm.
  - by injection E as _ <-.
Qed.

Lemma as_keeps_quiet r :
  keeps_quiet (as_create r) /\ keeps_quiet (as_children r) /\ keeps_quiet (as_data r) /\
  keeps_quiet (as_exists r) /\ keeps_quiet (as_void r).
Proof. split_and!; intros w a w' Hq; destruct r; try done; by intros [= -> ->]. Qed.

(** One call, its reply's constructor, a result. *)
Ltac quiet_op :=
  repeat first
    [ apply if_connected_keeps_quiet | apply bind_keeps_quiet; [|intros ?] | apply ret_keeps_quiet
    | apply call_keeps_quiet | apply as_keeps_quiet | case_match ].

Lemma get_services_keeps_quiet path names : keeps_quiet (get_services path names).
Proof. induction names; cbn [get_services]; unfold get_service; quiet_op; done. Qed.

(** C31: whatever the [io_context] runs, an operation that returns leaves no
    request behind.  From a client without pending requests, and for every list of
    completions, every operation that returns does so with an empty [pending_]
    table, hence (below [2^32] requests) with nothing posted and no write or read
    outstanding: the registry's calls never overlap on the socket. *)
Theorem registry_leaves_client_quiet path nm address :
  keeps_quiet (get_children path) /\ keeps_quiet (list_services path) /\
  keeps_quiet (get_node_data path) /\ keeps_quiet (get_service path) /\
  keeps_quiet (node_exists path) /\ keeps_quiet (register_service path nm address) /\
  keeps_quiet (unregister_service path) /\ keeps_quiet (create_persistent_node path) /\
  (forall w, quiet w -> Z.of_nat (length (promises (client_ w))) <= 2 ^ 32 ->
     in_flight (client_ w) = O).
Proof.
  split_and!; [by unfold get_children; quiet_op| |by unfold get_node_data; quiet_op
    |by unfold get_service; quiet_op|by unfold node_exists; quiet_op|by unfold register_service; quiet_op
    |by unfold unregister_service; quiet_op|by unfold create_persistent_node; quiet_op|].
  - unfold list_services, get_children. apply bind_keeps_quiet; [by quiet_op|]. apply get_services_keeps_quiet.
  - intros w [Hr Hp] Hb. destruct (zk_counted_reachable _ Hr Hb) as [_ _ Hf].
    rewrite Hp, map_size_empty in Hf. lia.
Qed.

(** The completions of a handshake answered with [r]. *)
Definition handshake_answered (r : connect_response) : list zk_event :=
  [ZConnected None; ZHsWritten None;
   ZHsLen (inr (be_bytes 4 (len (connect_response_bytes r)))); ZHsBody (inr (connect_response_bytes r))].

Definition connected_with (r : connect_response) (tm : Z) (c : zk_client) : zk_client :=
  connect_result make_ok_void
    (set_session (cs_session_id r) (cs_passwd r) (cs_timeout_ms r) true (Some None)
       (HsReadBody (len (connect_response_bytes r))) (ZkClient.connect tm None c)).

Lemma handshake_run r c w rest tm :
  hs c = HsNone \/ hs c = HsFinished -> connect_response_wf r ->
  len (connect_response_bytes r) < 2 ^ 31 ->
  poll_until connect_ready w (handshake_answered r ++ rest) (ZkClient.connect tm None c) false =
  Returned make_ok_void
    (with_client (connected_with r tm c) rest (runs_out w (connected_with r tm c)) w).
Proof.
  intros Hh Hr Hl. unfold handshake_answered.
  assert (alloc_body (be_bytes 4 (len (connect_response_bytes r))) = Ok (len (connect_response_bytes r))) as Ha.
  { unfold alloc_body. rewrite be_val_bytes. pose proof (len_nonneg (connect_response_bytes r)).
    change (len (connect_response_bytes r) mod 2 ^ (8 * Z.of_nat 4))
      with (wrap 32 (len (connect_response_bytes r))).
    rewrite swrap_wrap by lia. by destruct (Z.ltb_spec (len (connect_response_bytes r)) 0); [lia|]. }
  pose proof (connect_response_decode r [] Hr) as Hd. rewrite app_nil_r in Hd.
  set (B := connect_response_bytes r) in *. clearbody B.
  set (L := be_bytes 4 (len B)) in *. assert (len L = 4) as El by apply len_be_bytes. clearbody L.
  cbn [app]. unfold ZkClient.connect.
  erewrite poll_step_on; [|done|done|done|reflexivity|done].
  erewrite poll_step_on; [|done|done|done|reflexivity|done].
  erewrite poll_step_on; [|done|done|done|cbn; rewrite El, Ha; reflexivity|done].
  erewrite poll_step; [|done|done|done|cbn; rewrite Z.eqb_refl, Hd; reflexivity].
  by erewrite poll_done by reflexivity.
Qed.

(** C33: connecting stores the session, and failing to connect is not reported.
    When the server answers the handshake, [connect] is true and the client holds
    the session the server granted; but whatever happens, in any schedule of
    completions and with any error of the resolver, the connection, the handshake's
    write or its reads, a [connect] that returns returns true and leaves the
    registry connected. *)
Theorem registry_connect_spec tm resolved w :
  (forall b w', connect tm resolved w = Returned b w' -> b = true /\ reg_connected w' = true) /\
  (forall r rest, hs (client_ w) = HsNone \/ hs (client_ w) = HsFinished ->
     connect_response_wf r -> len (connect_response_bytes r) < 2 ^ 31 ->
     resolved = None -> ios_stopped w = false -> ios_ w = handshake_answered r ++ rest ->
     exists w', connect tm resolved w = Returned true w' /\ ios_ w' = rest /\
       session_id_ (client_ w') = cs_session_id r /\ passwd_ (client_ w') = cs_passwd r /\
       timeout_ms_ (client_ w') = cs_timeout_ms r /\ connected_ (client_ w') = true).
Proof.
  split.
  - intros b w' E. unfold connect in E.
    destruct (poll_until connect_ready _ _ _ _) as [r w1| | |] eqn:E1; try done. injection E as <- <-.
    apply (poll_until_inv (fun c => forall r, connect_promise c = Some (Some r) -> has_err_ r = false))
      in E1 as (Hp & Hready & _).
    + cbn. unfold connect_ready in Hready. unfold is_ok_void.
      destruct (connect_promise (client_ w1)) as [[r'|]|]; try done. injection Hready as ->.
      by rewrite (Hp r eq_refl).
    + intros c ev c' Hc _ Hs r'. by eapply connect_result_ok.
    + intros r'. unfold ZkClient.connect. destruct resolved; cbn; intros ?; by simplify_eq.
  - intros r rest Hh Hr Hl -> Hst Ho. unfold connect. rewrite Ho, Hst, handshake_run by done.
    eexists. split; [reflexivity|]. done.
Qed.

(** No operation has a timeout.  A server that goes silent at any point of
    an exchange leaves the calling thread polling for ever, its request pending.
    So does a reply under another id: the read is over, and no operation is left
    that could settle the request. *)
Theorem registry_has_no_timeout a w path :
  idle (client_ w) -> reg_connected w = true -> ios_stopped w = false -> answer_wf a ->
  (forall n, (n < 4)%nat -> ios_ w = take n (answered (xid_ (client_ w)) a) ->
     exists w', get_node_data path w = Polling w' /\ ios_ w' = [] /\
       size (pending_ (client_ w')) = 1%nat) /\
  (forall y, int32 y -> y <> xid_ (client_ w) -> ios_ w = answered y a ->
     exists w', get_node_data path w = Polling w' /\ in_flight (client_ w') = O /\
       size (pending_ (client_ w')) = 1%nat).
Proof.
  intros Hi Hc Hst Ha. set (body := get_data_request_serialize_body {| pw_path := path; pw_watch := false |}).
  assert (forall w', call (send_request AsData op_get_data body) w = Polling w' ->
    get_node_data path w = Polling w') as Hp.
  { intros w' E. unfold get_node_data. rewrite if_connected_true by done. unfold mbind, prog_bind.
    change (get_data path false) with (send_request AsData op_get_data body). by rewrite E. }
  split.
  - intros n Hn Ho. destruct (call_unanswered AsData op_get_data body w a n Hi Hst Ha Hn Ho) as (w' & E & ?).
    exists w'. auto.
  - intros y Hy Hne Ho.
    destruct (call_misanswered AsData op_get_data body w y a Hi Hst Hy Hne Ha Ho) as (w' & E & Hf & Hs).
    exists w'. split_and!; [auto|done|by rewrite Hs, map_size_singleton].
Qed.

Definition silent_world : registry :=
  {| client_ := zk_client_init; reg_connected := true; ios_ := take 2 (answered 1 no_node);
     ios_guarded := false; ios_stopped := false |}.

Lemma registry_has_no_timeout_witness :
  exists w', get_node_data (bs "/a") silent_world = Polling w' /\ ios_ w' = [] /\
    size (pending_ (client_ w')) = 1%nat.
Proof.
  apply (registry_has_no_timeout no_node silent_world (bs "/a")) with (n := 2%nat);
    [exact init_idle|done|done|split_and!; by vm_compute|lia|done].
Defined.

(** ** A bare [io_context] *)

(** On a stopped [io_context] the operation polls for ever and nothing is sent. *)
Definition stalls {A} (m : M A) : Prop := forall w,
  reg_connected w = true -> ios_stopped w = true ->
  exists w', m w = Polling w' /\ ios_stopped w' = true /\ sent (client_ w') = sent (client_ w).

Lemma call_stalls k op body : stalls (call (send_request k op body)).
Proof.
  intros w Hc Hs. unfold call. rewrite Hs, poll_stopped; [by eexists|].
  apply promise_waiting. cbn. apply list_lookup_middle. unfold release.
  destruct (pending_ (client_ w) !! _) as [[? q]|]; [by rewrite length_insert|done].
Qed.

Lemma bind_stalls {A B} (m : M A) (k : A -> M B) : stalls m -> stalls (m ≫= k).
Proof. intros Hm w Hc Hs. destruct (Hm w Hc Hs) as (w' & E & ?). exists w'. unfold mbind, prog_bind. by rewrite E. Qed.

Lemma if_connected_stalls {A} (d : A) m : stalls m -> stalls (if_connected d m).
Proof. intros Hm w Hc Hs. rewrite if_connected_true by done. by apply Hm. Qed.

Create HintDb stalls.
#[export] Hint Resolve call_stalls bind_stalls if_connected_stalls : stalls.

(** The client of a [connect] in progress: nothing but the handshake. *)
Definition handshaking (c : zk_client) : Prop :=
  in_flight c = O /\ (is_Some (connect_promise c ≫= fun r => r) -> hs c = HsFinished).

Lemma handshaking_step c ev c' :
  handshaking c -> is_completion ev = true -> zk_step c ev = Some c' -> handshaking c'.
Proof.
  intros [Hf Hp] Hev E. unfold in_flight in Hf.
  assert (posted c = [] /\ writes c = [] /\ reads c = []) as (E1 & E2 & E3)
    by (destruct (posted c), (writes c), (reads c); cbn in Hf; by try lia).
  unfold zk_step in E. destruct ev as [|ec|ec|r|r| |i|i ec|i r]; try done; cbn in E.
  - destruct (hs c) eqn:Hh; try done. cbn in E. injection E as <-.
    destruct ec; split; cbn; unfold in_flight; cbn; rewrite ?E1, ?E2, ?E3; try done.
    intros Hs. by specialize (Hp Hs).
  - destruct (hs c) eqn:Hh; try done. cbn in E. injection E as <-.
    destruct ec; split; cbn; unfold in_flight; cbn; rewrite ?E1, ?E2, ?E3; try done.
    intros Hs. by specialize (Hp Hs).
  - destruct (hs c) eqn:Hh; try done. destruct (fits 4 r); [|done]. cbn in E. destruct r as [msg|b]; cbn in E.
    + injection E as <-. split; unfold in_flight; cbn; by rewrite ?E1, ?E2, ?E3.
    + unfold alloc_body in E. destruct (_ <? 0); [done|]. cbn in E. injection E as <-.
      split; unfold in_flight; cbn; rewrite ?E1, ?E2, ?E3; [done|]. intros Hs. by specialize (Hp Hs).
  - destruct (hs c) eqn:Hh; try done. destruct (fits n r); [|done]. cbn in E. destruct r as [msg|b]; cbn in E.
    + injection E as <-. split; unfold in_flight; cbn; by rewrite ?E1, ?E2, ?E3.
    + destruct (connect_response_deserialize b) as [[resp rest]| |]; try done. cbn in E. injection E as <-.
      split; unfold in_flight; cbn; by rewrite ?E1, ?E2, ?E3.
  - unfold run_posted in E. by rewrite E1 in E.
  - unfold written in E. by rewrite E2 in E.
  - unfold read_done in E. by rewrite E3 in E.
Qed.

Lemma connect_stops tm w b w' :
  ios_guarded w = false -> in_flight (client_ w) = O ->
  connect tm None w = Returned b w' -> ios_stopped w' = true.
Proof.
  intros Hg Hf E. unfold connect in E. set (c := ZkClient.connect tm None (client_ w)) in *.
  destruct (poll_until connect_ready w (ios_ w) c (ios_stopped w)) as [r w1| | |] eqn:E1; try done.
  injection E as _ <-. cbn [ios_stopped].
  rewrite (poll_until_stops connect_ready w (ios_ w) c _ r w1 eq_refl E1).
  apply (poll_until_inv handshaking) in E1 as ([Hf1 Hh] & Hready & _);
    [|by apply handshaking_step|split; [exact Hf|by intros [? ?]]].
  unfold connect_ready in Hready. destruct (connect_promise (client_ w1)) as [[r'|]|] eqn:Ep; try done.
  unfold runs_out. rewrite Hg. unfold has_work. rewrite Hh by (by eexists).
  unfold in_flight in Hf1. by destruct (posted (client_ w1)), (writes (client_ w1)), (reads (client_ w1)).
Qed.

(** On an [io_context] that nothing else keeps at work, only [connect] works.  When
    it returns, its last handler was the last work, so the [io_context] is stopped;
    nothing restarts it, and every operation after that polls for ever without
    having sent its request. *)
Theorem bare_context_stops tm w b w' path nm address :
  ios_guarded w = false -> in_flight (client_ w) = O -> connect tm None w = Returned b w' ->
  ios_stopped w' = true /\
  stalls (get_children path) /\ stalls (list_services path) /\ stalls (get_node_data path) /\
  stalls (get_service path) /\ stalls (node_exists path) /\ stalls (register_service path nm address) /\
  stalls (unregister_service path) /\ stalls (create_persistent_node path).
Proof.
  intros Hg Hf E. split; [by eapply connect_stops|].
  assert (stalls (get_children path)) as Hc by (unfold get_children, ZkClient.get_children; auto with stalls).
  split_and!; [exact Hc|unfold list_services; auto with stalls|..];
    unfold get_node_data, get_service, node_exists, register_service, unregister_service, create_persistent_node,
      get_data, exists_, create, remove; auto with stalls.
Qed.

Definition bare_world : registry :=
  {| client_ := zk_client_init; reg_connected := false;
     ios_ := handshake_answered {| cs_protocol_version := 0; cs_timeout_ms := 4000; cs_session_id := 7;
       cs_passwd := zeros 16; cs_read_only := false |};
     ios_guarded := false; ios_stopped := false |}.

Lemma bare_context_stops_witness :
  exists w', connect 4000 None bare_world = Returned true w' /\ ios_stopped w' = true /\
    stalls (node_exists (bs "/rpc")).
Proof.
  destruct (connect 4000 None bare_world) as [b w'| | |] eqn:E; [|by vm_compute in E..].
  destruct (bare_context_stops 4000 bare_world b w' (bs "/rpc") [] []) as (Hs & _ & _ & _ & _ & He & _); [done..|].
  exists w'. split; [|exact (conj Hs He)]. vm_compute in E. by destruct b.
Defined.
