(* ===== verification/Dialogue.v ===== *)
(** * The registry talking to a server

    The computations of [ServiceRegistry] and [NodeManager] take the completions
    their [io_context] will run from a list.  Here the list is not given but made
    by a server: whenever the computation polls with a request posted and the
    [io_context] is not stopped, the server answers that request, and the
    completions of its write and of the reply's reads are appended.  [online] is
    that interaction as a function; a [dialogue] lists the requests and answers of
    an interaction, so that operations are reasoned about one call at a time. *)
From S2P Require Import Prelude Program ZkProto ZkClient ServiceRegistry.

Abbreviation request := (op_code * str)%type.

(** States that contain a registry. *)
Class OverRegistry (W : Type) := {
  reg : W -> registry;
  put : registry -> W -> W;
  reg_put r w : reg (put r w) = r;
  put_put r r' w : put r (put r' w) = put r w;
  put_reg w : put (reg w) w = w
}.

#[export] Instance registry_over_itself : OverRegistry registry :=
  {| reg := fun w => w; put := fun r _ => r; reg_put := fun _ _ => eq_refl;
     put_put := fun _ _ _ => eq_refl; put_reg := fun _ => eq_refl |}.

Definition client_of {W} `{OverRegistry W} (w : W) : zk_client := client_ (reg w).

(** The same state with other completions to run. *)
Definition with_ios {W} `{OverRegistry W} (evs : list zk_event) (w : W) : W :=
  put (set_client (client_of w) evs (reg w)) w.

(** The id of the [n]-th next request. *)
Definition advance (n : nat) (x : Z) : Z := Nat.iter n (fun x => i32 (x + 1)) x.

(** A server: the reply to the payload of a request, with the id it carries. *)
Definition server (S : Type) : Type := S -> str -> Z * answer * S.

(** [m] with its [io_context] fed by the server. *)
Fixpoint online {W A S} `{OverRegistry W} (respond : server S) (fuel : nat) (m : prog W A)
    (evs : list zk_event) (w : W) (z : S) : sync (W * S) A :=
  match m (with_ios evs w) with
  | Returned a w' => Returned a (w', z)
  | Polling w' =>
      match fuel, ios_stopped (reg w'), posted (client_of w') with
      | Datatypes.S fuel, false, (payload, _) :: _ =>
          let '(x, a, z) := respond z payload in
          online respond fuel m (evs ++ answered x a) w z
      | _, _, _ => Polling (w', z)
      end
  | Raised e w' => Raised e (w', z)
  | Undefined => Undefined
  end.

(** The request [q] is posted under the id [x] and its handler will run. *)
Definition asks {W} `{OverRegistry W} (v : W) (q : request) (x : Z) : Prop :=
  ios_stopped (reg v) = false /\ posted (client_of v) = [(frame x q.1 q.2, x)].

(** [m] makes the requests of [d], in this order, each when the answers to those
    before have been read, and returns after the last. *)
Record dialogue {W A} `{OverRegistry W} (m : prog W A) (w : W) (d : list (request * answer))
    (a : A) (w' : W) : Prop := {
  dl_whole rest : m (with_ios (answers (xid_ (client_of w)) d.*2 ++ rest) w) = Returned a (with_ios rest w');
  dl_partial d1 q ans d2 : d = d1 ++ (q, ans) :: d2 ->
    exists v, m (with_ios (answers (xid_ (client_of w)) d1.*2) w) = Polling v /\
      asks v q (advance (length d1) (xid_ (client_of w)));
  dl_idle : idle (client_of w');
  dl_connected : reg_connected (reg w') = reg_connected (reg w);
  dl_alive : alive (reg w) -> alive (reg w');
  dl_xid : xid_ (client_of w') = advance (length d) (xid_ (client_of w))
}.

(** The server gives the answers of [d]. *)
Fixpoint answered_by {S} (respond : server S) (z : S) (x : Z) (d : list (request * answer)) (z' : S) : Prop :=
  match d with
  | [] => z' = z
  | (q, a) :: d => exists z1, respond z (frame x q.1 q.2) = (x, a, z1) /\ answered_by respond z1 (i32 (x + 1)) d z'
  end.

(** [m] makes [n] requests and returns. *)
Definition performs {W A S} `{OverRegistry W} (respond : server S) (n : nat) (m : prog W A)
    (w : W) (z : S) (a : A) (w' : W) (z' : S) : Prop :=
  exists d, length d = n /\ dialogue m w d a w' /\ answered_by respond z (xid_ (client_of w)) d z'.

(** ** Lemmas *)

Lemma advance_add n k x : advance (n + k) x = advance k (advance n x).
Proof. unfold advance. rewrite Nat.add_comm, Nat.iter_add. done. Qed.

Lemma advance_S n x : advance (S n) x = advance n (i32 (x + 1)).
Proof. exact (advance_add 1 n x). Qed.

Lemma advance_int32 n x : int32 x -> int32 (advance n x).
Proof. intros Hx. destruct n; [done|]. exact (swrap_range 32 _ eq_refl). Qed.

Lemma answers_app x l1 l2 : answers x (l1 ++ l2) = answers x l1 ++ answers (advance (length l1) x) l2.
Proof.
  revert x. induction l1 as [|a l1 IH]; intros x; [done|]. cbn [app answers length].
  by rewrite IH, advance_S, app_assoc.
Qed.

Lemma answered_by_app {S} (respond : server S) z x d1 z1 d2 z2 :
  answered_by respond z x d1 z1 -> answered_by respond z1 (advance (length d1) x) d2 z2 ->
  answered_by respond z x (d1 ++ d2) z2.
Proof.
  revert z x. induction d1 as [|[q a] d1 IH]; intros z x; cbn [answered_by app length]; [by intros ->|].
  rewrite advance_S. intros (z' & E & H1) H2. exists z'. split; [done|]. by apply IH.
Qed.

Section over.
Context {W} `{OverRegistry W}.
Implicit Types (w : W).

Lemma client_with_ios evs w : client_of (with_ios evs w) = client_of w.
Proof. unfold client_of, with_ios. by rewrite reg_put. Qed.

Lemma reg_with_ios evs w : reg (with_ios evs w) = set_client (client_of w) evs (reg w).
Proof. unfold with_ios. by rewrite reg_put. Qed.

Lemma with_ios_put evs r w : with_ios evs (put r w) = put (set_client (client_ r) evs r) w.
Proof. unfold with_ios, client_of. by rewrite put_put, reg_put. Qed.

Lemma with_ios_registry evs (r : registry) : with_ios evs r = set_client (client_ r) evs r.
Proof. done. Qed.

(** A step that does not involve the registry. *)
Lemma dialogue_silent {A} (m : prog W A) w a w' :
  (forall rest, m (with_ios rest w) = Returned a (with_ios rest w')) ->
  client_of w' = client_of w -> reg_connected (reg w') = reg_connected (reg w) ->
  (alive (reg w) -> alive (reg w')) -> idle (client_of w) -> dialogue m w [] a w'.
Proof.
  intros Hm Hc Hr Ha Hi. split; [exact Hm| |by rewrite Hc|done|exact Ha|by rewrite Hc].
  intros d1 q ans d2 E. by destruct d1.
Qed.

Lemma dialogue_bind {A B} (m : prog W A) (k : A -> prog W B) w d1 a w1 d2 b w2 :
  dialogue m w d1 a w1 -> dialogue (k a) w1 d2 b w2 -> dialogue (m ≫= k) w (d1 ++ d2) b w2.
Proof.
  intros H1 H2. split.
  - intros rest. rewrite fmap_app, answers_app, <- app_assoc, length_fmap.
    erewrite bind_returned by apply (dl_whole _ _ _ _ _ H1).
    rewrite <- (dl_xid _ _ _ _ _ H1). apply (dl_whole _ _ _ _ _ H2).
  - intros e1 q ans e2 E. apply app_eq_inv in E as [(k' & E1 & E2)|(k' & E1 & E2)].
    + destruct k' as [|[q' ans'] k'].
      * rewrite app_nil_r in E1. subst e1. cbn in E2.
        destruct (dl_partial _ _ _ _ _ H2 [] q ans e2) as (v & Ev & Hp); [done|].
        exists v. split.
        -- rewrite <- (app_nil_r (answers _ _)). erewrite bind_returned by apply (dl_whole _ _ _ _ _ H1). exact Ev.
        -- cbn [length advance Nat.iter nat_rect] in Hp. by rewrite (dl_xid _ _ _ _ _ H1) in Hp.
      * cbn in E2. injection E2 as -> -> ->.
        destruct (dl_partial _ _ _ _ _ H1 e1 q' ans' k' E1) as (v & Ev & Hp).
        exists v. split; [|done]. unfold mbind, prog_bind. by rewrite Ev.
    + destruct (dl_partial _ _ _ _ _ H2 k' q ans e2 E2) as (v & Ev & Hp).
      exists v. subst e1. rewrite fmap_app, answers_app, length_fmap. split.
      * erewrite bind_returned by apply (dl_whole _ _ _ _ _ H1). by rewrite <- (dl_xid _ _ _ _ _ H1).
      * by rewrite length_app, advance_add, <- (dl_xid _ _ _ _ _ H1).
  - apply H2.
  - by rewrite (dl_connected _ _ _ _ _ H2), (dl_connected _ _ _ _ _ H1).
  - intros Ha. by apply (dl_alive _ _ _ _ _ H2), (dl_alive _ _ _ _ _ H1).
  - by rewrite (dl_xid _ _ _ _ _ H2), (dl_xid _ _ _ _ _ H1), length_app, advance_add.
Qed.

(** What a dialogue says of the interaction with a server. *)
Lemma online_dialogue {A S} (respond : server S) fuel (m : prog W A) w d1 d2 a w' z z' :
  dialogue m w (d1 ++ d2) a w' ->
  answered_by respond z (advance (length d1) (xid_ (client_of w))) d2 z' ->
  (length d2 <= fuel)%nat ->
  online respond fuel m (answers (xid_ (client_of w)) d1.*2) w z = Returned a (with_ios [] w', z').
Proof.
  intros Hd. revert fuel z d1 Hd. induction d2 as [|[q ans] d2 IH]; intros fuel z d1 Hd Ha Hf.
  - cbn in Ha. subst z'. rewrite app_nil_r in Hd.
    pose proof (dl_whole _ _ _ _ _ Hd []) as E. rewrite app_nil_r in E.
    destruct fuel; cbn [online]; by rewrite E.
  - destruct Ha as (z1 & E & Ha). destruct fuel as [|fuel]; [cbn in Hf; lia|]. cbn [online].
    destruct (dl_partial _ _ _ _ _ Hd d1 q ans d2 eq_refl) as (v & Ev & Hs & Hp).
    rewrite Ev, Hs, Hp, E. specialize (IH fuel z1 (d1 ++ [(q, ans)])).
    rewrite fmap_app, answers_app, length_fmap in IH. cbn [fmap list_fmap answers snd] in IH. rewrite app_nil_r in IH.
    apply IH; [by rewrite <- app_assoc| |cbn in Hf; lia].
    by rewrite length_app, advance_add.
Qed.

Lemma performs_online {A S} (respond : server S) n fuel (m : prog W A) w z a w' z' :
  performs respond n m w z a w' z' -> (n <= fuel)%nat ->
  online respond fuel m [] w z = Returned a (with_ios [] w', z').
Proof. intros (d & <- & Hd & Ha) Hf. by apply (online_dialogue respond fuel m w [] d). Qed.

Lemma performs_bind {A B S} (respond : server S) n1 n2 (m : prog W A) (k : A -> prog W B) w z a w1 z1 b w2 z2 :
  performs respond n1 m w z a w1 z1 -> performs respond n2 (k a) w1 z1 b w2 z2 ->
  performs respond (n1 + n2) (m ≫= k) w z b w2 z2.
Proof.
  intros (d1 & <- & Hd1 & Ha1) (d2 & <- & Hd2 & Ha2). exists (d1 ++ d2). split; [apply length_app|].
  split; [by eapply dialogue_bind|]. eapply answered_by_app; [done|]. by rewrite <- (dl_xid _ _ _ _ _ Hd1).
Qed.

Lemma performs_silent {A S} (respond : server S) (m : prog W A) w (z : S) a w' :
  (forall rest, m (with_ios rest w) = Returned a (with_ios rest w')) ->
  client_of w' = client_of w -> reg_connected (reg w') = reg_connected (reg w) ->
  (alive (reg w) -> alive (reg w')) -> idle (client_of w) -> performs respond 0 m w z a w' z.
Proof. intros. exists []. split; [done|]. split; [by apply dialogue_silent|done]. Qed.

Lemma performs_ret {A S} (respond : server S) (a : A) w (z : S) :
  idle (client_of w) -> performs respond 0 (mret a) w z a w z.
Proof. intros. by apply performs_silent. Qed.

Lemma performs_ext {A S} (respond : server S) n (m1 m2 : prog W A) w z a w' z' :
  (forall evs, m1 (with_ios evs w) = m2 (with_ios evs w)) ->
  performs respond n m1 w z a w' z' -> performs respond n m2 w z a w' z'.
Proof.
  intros E (d & Hn & [H1 H2 H3 H4 H4' H5] & Ha). exists d. split; [done|]. split; [|done]. split; [| |done..].
  - intros rest. by rewrite <- E.
  - intros d1 q ans d2 Ed. rewrite <- E. by eapply H2.
Qed.

(** The last part only computes the result. *)
Lemma performs_result {A B S} (respond : server S) n (m : prog W A) (k : A -> prog W B) w z a b w' z' :
  performs respond n m w z a w' z' -> k a = mret b -> performs respond n (m ≫= k) w z b w' z'.
Proof.
  intros Hm Hk. rewrite <- (Nat.add_0_r n). eapply performs_bind; [done|]. rewrite Hk. apply performs_ret.
  destruct Hm as (d & _ & Hd & _). apply Hd.
Qed.

Lemma performs_idle {A S} (respond : server S) n (m : prog W A) w z a w' z' :
  performs respond n m w z a w' z' ->
  idle (client_of w') /\ reg_connected (reg w') = reg_connected (reg w) /\ (alive (reg w) -> alive (reg w')).
Proof. intros (d & _ & Hd & _). split_and!; apply Hd. Qed.

(** An operation of the registry inside a larger state. *)
Lemma performs_lift {A S} (respond : server S) n (op : M A) (m : prog W A) w z a r z' :
  (forall v, m v = match op (reg v) with
                   | Returned a r => Returned a (put r v)
                   | Polling r => Polling (put r v)
                   | Raised e r => Raised e (put r v)
                   | Undefined => Undefined
                   end) ->
  performs respond n op (reg w) z a r z' -> performs respond n m w z a (put r w) z'.
Proof.
  intros Hm (d & Hn & Hd & Ha). exists d. split; [done|]. split; [|done]. split.
  - intros rest. rewrite Hm, reg_with_ios. pose proof (dl_whole _ _ _ _ _ Hd rest) as E.
    rewrite !with_ios_registry in E. fold (client_of w) in E. change (client_of (reg w)) with (client_of w) in E.
    rewrite E, with_ios_put. unfold with_ios. by rewrite put_put.
  - intros d1 q ans d2 E. destruct (dl_partial _ _ _ _ _ Hd d1 q ans d2 E) as (v & Ev & Hp).
    exists (put v (with_ios (answers (xid_ (client_of w)) d1.*2) w)). split.
    + rewrite Hm, reg_with_ios. rewrite with_ios_registry in Ev. fold (client_of w) in Ev.
      change (client_of (reg w)) with (client_of w) in Ev. by rewrite Ev.
    + unfold asks, client_of in *. by rewrite reg_put.
  - unfold client_of. rewrite reg_put. apply Hd.
  - rewrite reg_put. apply (dl_connected _ _ _ _ _ Hd).
  - rewrite reg_put. apply (dl_alive _ _ _ _ _ Hd).
  - unfold client_of. rewrite reg_put. apply (dl_xid _ _ _ _ _ Hd).
Qed.
End over.

(** ** One call *)

(** Before anything is answered, the request is posted. *)
Lemma call_posts k op body w :
  idle (client_ w) -> ios_ w = [] -> ios_stopped w = false ->
  call (send_request k op body) w = Polling (set_client (send_request k op body (client_ w)) [] w).
Proof.
  intros Hi Ho Hs. unfold call, set_client. rewrite Ho, Hs. cbn [poll_until orb].
  rewrite promise_waiting.
  { rewrite working; [done|]. apply in_flight_works. unfold in_flight. cbn. rewrite length_app. cbn. lia. }
  unfold send_request, release. cbn [promises set_io set_table]. rewrite (idle_pending _ Hi), lookup_empty.
  by rewrite lookup_app_r, Nat.sub_diag by lia.
Qed.

Lemma dialogue_call k op body w a r :
  idle (client_ w) -> alive w -> answer_wf a -> resolve k (an_err a) (an_data a) = Ok r ->
  dialogue (call (send_request k op body)) w [((op, body), a)] r (returned op body r [] w).
Proof.
  intros Hi Hal Ha Hr. pose proof (proj2 Hal) as Hst. split.
  - intros rest. cbn [fmap list_fmap snd answers]. rewrite app_nil_r.
    by rewrite (call_answered k op body (with_ios (answered (xid_ (client_of w)) a ++ rest) w) a r rest).
  - intros d1 q ans d2 E. destruct d1 as [|? d1]; [|by destruct d1]. injection E as <- <- <-.
    eexists. split; [by apply (call_posts k op body (with_ios [] w))|].
    split; [exact Hst|].
    transitivity (posted (client_ w) ++ [(frame (xid_ (client_ w)) op body, xid_ (client_ w))]); [done|].
    by rewrite (idle_posted _ Hi).
  - apply idle_after.
  - done.
  - by apply alive_after.
  - done.
Qed.

(** The form of every operation: one request, its reply interpreted. *)
Lemma performs_call {A S} (respond : server S) k op body (cont : reply -> M A) dflt w z z' a r v :
  idle (client_ w) -> reg_connected w = true -> alive w -> answer_wf a ->
  respond z (frame (xid_ (client_ w)) op body) = (xid_ (client_ w), a, z') ->
  resolve k (an_err a) (an_data a) = Ok r -> cont r = mret v ->
  exists w', performs respond 1 (if_connected dflt (call (send_request k op body) ≫= cont)) w z v w' z'.
Proof.
  intros Hi Hc Hal Ha Hs Hr Hk. exists (returned op body r [] w).
  assert (performs respond 1 (call (send_request k op body) ≫= cont) w z v (returned op body r [] w) z') as (d & Hn & Hd & Hb).
  { eapply performs_result; [|exact Hk]. exists [((op, body), a)]. split; [done|].
    split; [by apply dialogue_call|]. exists z'. split; [exact Hs|done]. }
  exists d. split; [done|]. split; [|done]. destruct Hd as [Hd1 Hd2 Hd3 Hd4 Hd4' Hd5]. split; [| |done..].
  - intros rest. rewrite if_connected_true by done. apply Hd1.
  - intros d1 q ans d2 E. rewrite if_connected_true by done. by eapply Hd2.
Qed.
