(* ===== verification/ZooKeeper.v ===== *)
(** * The ZooKeeper server as its clients know it

    The server is not part of this repository.  What the registry relies on is
    the documented behaviour of its data tree: which answer each request gets and
    how it changes the tree.  [zk_result] states that, [ZooKeeper] is a server that
    behaves so on the requests the client library encodes, and [memory_zookeeper]
    is one such server, which decodes the payloads and keeps the tree in a map. *)
From S2P Require Import Prelude ZkProto ZkClient ServiceRegistry Dialogue.

(** ** Paths *)

(** The components of a path; the root has none. *)
Definition path_of (cs : list str) : str :=
  match cs with
  | [] => bs "/"
  | _ => concat ((fun c => bs "/" ++ c) <$> cs)
  end.

(** A name ZooKeeper accepts: visible ASCII without a slash, and not relative. *)
Definition component_ok (c : str) : Prop :=
  c <> [] /\ c <> bs "." /\ c <> bs ".." /\ Forall (fun ch => (33 <= ord ch /\ ord ch <= 126) /\ ch <> "/"%char) c.

#[export] Instance component_ok_dec c : Decision (component_ok c) := _.

(** ** The data tree *)

Record znode := { zn_data : str; zn_ephemeral : bool }.
Abbreviation tree := (gmap (list str) znode).

Inductive zk_op :=
  | Create (cs : list str) (data : str) (ephemeral : bool)
  | Remove (cs : list str)
  | Exists (cs : list str)
  | GetData (cs : list str)
  | GetChildren (cs : list str).

(** The request of the client library. *)
Definition op_request (op : zk_op) : request :=
  match op with
  | Create cs data e => create_node (path_of cs) data (if e then 1 else 0)
  | Remove cs => remove_node_request (path_of cs)
  | Exists cs => exists_request_of (path_of cs)
  | GetData cs => data_request (path_of cs)
  | GetChildren cs => children_request (path_of cs)
  end.

(** Requests of legal paths below the server's limit ([jute.maxbuffer]). *)
Definition valid_op (op : zk_op) : Prop :=
  match op with
  | Create cs data _ => cs <> [] /\ Forall component_ok cs /\ len (path_of cs) + len data + 100 < 2 ^ 20
  | Remove cs => cs <> [] /\ Forall component_ok cs /\ len (path_of cs) + 100 < 2 ^ 20
  | Exists cs | GetData cs | GetChildren cs => Forall component_ok cs /\ len (path_of cs) + 100 < 2 ^ 20
  end.

Definition childless (t : tree) (cs : list str) : Prop := forall n, t !! (cs ++ [n]) = None.

Definition children_of (t : tree) (cs : list str) (names : list str) : Prop :=
  NoDup names /\ forall n, n ∈ names <-> is_Some (t !! (cs ++ [n])).

(** [zk_result t op err data t']: in the tree [t] the request is answered with
    [err] and [data], and the tree becomes [t']. *)
Inductive zk_result (t : tree) : zk_op -> Z -> str -> tree -> Prop :=
  | created cs c data e n :
      t !! cs = Some n -> zn_ephemeral n = false -> t !! (cs ++ [c]) = None ->
      zk_result t (Create (cs ++ [c]) data e) 0 (string_bytes (path_of (cs ++ [c])))
        (<[cs ++ [c] := {| zn_data := data; zn_ephemeral := e |}]> t)
  | create_present cs data e : is_Some (t !! cs) -> zk_result t (Create cs data e) (-110) [] t
  | create_orphan cs c data e :
      t !! cs = None -> t !! (cs ++ [c]) = None -> zk_result t (Create (cs ++ [c]) data e) (-101) [] t
  | create_under_ephemeral cs c data e n :
      t !! cs = Some n -> zn_ephemeral n = true -> t !! (cs ++ [c]) = None ->
      zk_result t (Create (cs ++ [c]) data e) (-108) [] t
  | removed cs : is_Some (t !! cs) -> childless t cs -> zk_result t (Remove cs) 0 [] (delete cs t)
  | remove_not_empty cs : is_Some (t !! cs) -> ~ childless t cs -> zk_result t (Remove cs) (-111) [] t
  | remove_absent cs : t !! cs = None -> zk_result t (Remove cs) (-101) [] t
  | exists_present cs st :
      is_Some (t !! cs) -> zk_stat_wf st -> zk_result t (Exists cs) 0 (zk_stat_bytes st) t
  | exists_absent cs : t !! cs = None -> zk_result t (Exists cs) (-101) [] t
  | data_present cs n st :
      t !! cs = Some n -> zk_stat_wf st ->
      zk_result t (GetData cs) 0 (get_data_response_bytes {| gd_data := zn_data n; gd_stat := st |}) t
  | data_absent cs : t !! cs = None -> zk_result t (GetData cs) (-101) [] t
  | children_present cs names :
      is_Some (t !! cs) -> children_of t cs names ->
      zk_result t (GetChildren cs) 0 (get_children_response_bytes {| children := names |}) t
  | children_absent cs : t !! cs = None -> zk_result t (GetChildren cs) (-101) [] t.

(** A server with such a tree.  A reply carries the id of its request. *)
Class ZooKeeper (S : Type) := {
  respond : server S;
  data_tree : S -> tree;
  respond_spec z x op :
    int32 x -> valid_op op ->
    exists a z', respond z (frame x (op_request op).1 (op_request op).2) = (x, a, z') /\
      int64 (an_zxid a) /\ zk_result (data_tree z) op (an_err a) (an_data a) (data_tree z')
}.

(** ** Lemmas *)

Lemma path_of_snoc cs n : cs <> [] -> path_of (cs ++ [n]) = join (path_of cs) n.
Proof.
  intros Hc. destruct cs as [|c cs]; [done|]. unfold path_of, join. cbn [app].
  rewrite fmap_cons, fmap_app. cbn [concat fmap list_fmap]. rewrite concat_app. cbn [concat].
  by rewrite app_nil_r, !app_assoc.
Qed.

Lemma component_no_slash c : component_ok c -> "/"%char ∉ c.
Proof. intros (_ & _ & _ & Hf) Hin. rewrite Forall_forall in Hf. by destruct (Hf _ Hin) as [_ []]. Qed.

Lemma children_of_perm t cs l1 l2 : children_of t cs l1 -> children_of t cs l2 -> l1 ≡ₚ l2.
Proof. intros [N1 H1] [N2 H2]. apply NoDup_Permutation; [done..|]. intros n. by rewrite H1, H2. Qed.

(** ** A server in memory *)

Definition some_stat (n : znode) : zk_stat :=
  {| czxid := 1; mzxid := 1; ctime := 0; mtime := 0; version := 0; cversion := 0; aversion := 0;
     ephemeral_owner := if zn_ephemeral n then 1 else 0; data_length := i32 (len (zn_data n));
     num_children := 0; pzxid := 1 |}.

(** The name of [q] when [cs] is its parent. *)
Definition child_name (cs q : list str) : option str :=
  match reverse q with
  | n :: r => if decide (reverse r = cs) then Some n else None
  | [] => None
  end.
Definition names_of (t : tree) (cs : list str) : list str := omap (child_name cs) (map_to_list t).*1.

Definition apply_op (t : tree) (op : zk_op) : Z * str * tree :=
  match op with
  | Create cs data e =>
      match t !! cs, reverse cs with
      | Some _, _ => (-110, [], t)
      | None, [] => (-8, [], t)
      | None, _ :: r =>
          match t !! reverse r with
          | None => (-101, [], t)
          | Some n =>
              if zn_ephemeral n then (-108, [], t)
              else (0, string_bytes (path_of cs), <[cs := {| zn_data := data; zn_ephemeral := e |}]> t)
          end
      end
  | Remove cs =>
      match t !! cs with
      | None => (-101, [], t)
      | Some _ => match names_of t cs with [] => (0, [], delete cs t) | _ => (-111, [], t) end
      end
  | Exists cs => match t !! cs with None => (-101, [], t) | Some n => (0, zk_stat_bytes (some_stat n), t) end
  | GetData cs =>
      match t !! cs with
      | None => (-101, [], t)
      | Some n => (0, get_data_response_bytes {| gd_data := zn_data n; gd_stat := some_stat n |}, t)
      end
  | GetChildren cs =>
      match t !! cs with
      | None => (-101, [], t)
      | Some _ => (0, get_children_response_bytes {| children := names_of t cs |}, t)
      end
  end.

(** The components of a path, [cur] read so far. *)
Fixpoint split_path (cur : str) (s : str) : list str :=
  match s with
  | [] => [cur]
  | c :: s => if bool_decide (c = "/"%char) then cur :: split_path [] s else split_path (cur ++ [c]) s
  end.
Definition components (p : str) : list str :=
  match p with
  | [] | [_] => []
  | _ :: p => split_path [] p
  end.

#[local] Open Scope reader_scope.

Fixpoint skip_acls (n : nat) : reader unit :=
  match n with
  | O => rret tt
  | S n => _ <~ read_int32; _ <~ read_string; _ <~ read_string; skip_acls n
  end.

(** What follows the path of a request with operation code [o]. *)
Definition read_fields (o x : Z) (cs : list str) : reader (Z * zk_op) :=
  if o =? 1 then
    d <~ read_buffer; n <~ read_int32; _ <~ skip_acls (Z.to_nat n); fl <~ read_int32;
    rret (x, Create cs d (fl =? 1))
  else if o =? 2 then rret (x, Remove cs)
  else if o =? 3 then rret (x, Exists cs)
  else if o =? 4 then rret (x, GetData cs)
  else rret (x, GetChildren cs).

(** Length, id, operation code, fields. *)
Definition read_request : reader (Z * zk_op) :=
  _ <~ read_int32; x <~ read_int32; o <~ read_int32; p <~ read_string; read_fields o x (components p).

Definition memory_respond : server tree := fun t payload =>
  match read_request payload with
  | Ok ((x, op), _) =>
      let '(e, d, t') := apply_op t op in (x, {| an_zxid := 1; an_err := e; an_data := d |}, t')
  | _ => (0, {| an_zxid := 1; an_err := -5; an_data := [] |}, t)
  end.

Lemma split_component cur c s :
  "/"%char ∉ c -> split_path cur (c ++ "/"%char :: s) = (cur ++ c) :: split_path [] s.
Proof.
  revert cur. induction c as [|ch c IH]; intros cur Hn; cbn [app split_path].
  - by rewrite app_nil_r.
  - apply not_elem_of_cons in Hn as [Hne Hn]. rewrite bool_decide_eq_false_2 by done.
    rewrite IH by done. by rewrite <- app_assoc.
Qed.

Lemma split_last cur c : "/"%char ∉ c -> split_path cur c = [cur ++ c].
Proof.
  revert cur. induction c as [|ch c IH]; intros cur Hn; cbn [split_path].
  - by rewrite app_nil_r.
  - apply not_elem_of_cons in Hn as [Hne Hn]. rewrite bool_decide_eq_false_2 by done.
    rewrite IH by done. by rewrite <- app_assoc.
Qed.

Lemma components_path cs : Forall component_ok cs -> components (path_of cs) = cs.
Proof.
  intros Hc. destruct cs as [|c cs]; [done|].
  assert (path_of (c :: cs) = "/"%char :: c ++ concat ((fun c => bs "/" ++ c) <$> cs)) as -> by done.
  assert (split_path [] (c ++ concat ((fun c => bs "/" ++ c) <$> cs)) = c :: cs) as Hs.
  { revert c Hc. induction cs as [|c' cs IH]; intros c Hc; apply Forall_cons in Hc as [H1 H2].
    - cbn. rewrite app_nil_r. by rewrite split_last by by apply component_no_slash.
    - cbn [fmap list_fmap concat]. change (bs "/" ++ c') with ("/"%char :: c'). cbn [app].
      rewrite split_component by by apply component_no_slash. by rewrite IH. }
  apply Forall_cons in Hc as [[Hne _] _]. destruct c as [|ch c]; [done|]. exact Hs.
Qed.

Lemma path_sized cs n : len (path_of cs) + n < 2 ^ 20 -> 0 <= n -> sized (path_of cs).
Proof. unfold sized. lia. Qed.

Lemma skip_open_acl r : skip_acls 1 (concat (zk_acl_bytes <$> acl_open_unsafe) ++ r) = Ok (tt, r).
Proof.
  cbn [concat fmap list_fmap acl_open_unsafe]. rewrite app_nil_r. unfold zk_acl_bytes. cbn [perms scheme id].
  rewrite <- !app_assoc. cbn [skip_acls].
  assert (int32 (permission_value perm_all)) by by vm_compute.
  assert (sized (bs "world")) by done. assert (sized (bs "anyone")) by done. by do 3 next_field.
Qed.

(** The header and the path of a request. *)
Lemma read_request_head x op cs body :
  int32 x -> Forall component_ok cs -> len (path_of cs) + len body < 2 ^ 20 ->
  read_request (frame x op (string_bytes (path_of cs) ++ body)) = read_fields (op_code_value op) x cs body.
Proof.
  intros Hx Hc Hl. pose proof (len_nonneg (path_of cs)). pose proof (len_nonneg body).
  assert (sized (path_of cs)) by by eapply path_sized.
  assert (len (string_bytes (path_of cs) ++ body) = 4 + len (path_of cs) + len body) as El
    by (unfold string_bytes; rewrite !len_app, len_be_bytes; lia).
  unfold frame. rewrite payload_bytes by lia.
  assert (int32 (len (string_bytes (path_of cs) ++ body) + 8)) by (unfold int32; lia).
  assert (int32 (op_code_value op)) by (by destruct op; vm_compute).
  unfold read_request. do 4 next_field. by rewrite components_path.
Qed.

Lemma memory_reads x op :
  int32 x -> valid_op op ->
  exists rest, read_request (frame x (op_request op).1 (op_request op).2) = Ok ((x, op), rest).
Proof.
  intros Hx Hv.
  destruct op as [cs d e|cs|cs|cs|cs]; cbn [op_request fst snd];
    [destruct Hv as (_ & Hc & Hl)|destruct Hv as (_ & Hc & Hl)|destruct Hv as (Hc & Hl)..].
  - pose proof (len_nonneg d). pose proof (len_nonneg (path_of cs)).
    assert (sized (path_of cs)) by (unfold sized; lia). assert (sized d) by (unfold sized; lia).
    unfold create_node. cbn [fst snd].
    rewrite create_request_bytes by (try done; by repeat constructor). cbn [cr_path cr_data cr_acls cr_flags].
    rewrite read_request_head; [|done..|].
    + unfold read_fields. cbn [op_code_value Z.eqb Pos.eqb]. next_field.
      assert (int32 (len acl_open_unsafe)) by done. next_field.
      erewrite rbind_ok by apply skip_open_acl.
      assert (int32 (if e then 1 else 0)) by by destruct e.
      rewrite <- (app_nil_r (be_bytes 4 (if e then 1 else 0))). next_field. exists []. by destruct e.
    + unfold string_bytes. rewrite !len_app, !len_be_bytes.
      change (len (concat (zk_acl_bytes <$> acl_open_unsafe))) with 23. lia.
  - unfold remove_node_request. cbn [fst snd]. rewrite delete_request_bytes by (by eapply path_sized).
    cbn [dl_path dl_version]. rewrite read_request_head by (try done; rewrite len_be_bytes; lia). by eexists.
  - unfold exists_request_of. cbn [fst snd]. change exists_request_serialize_body with get_data_request_serialize_body.
    rewrite path_watch_bytes by (by eapply path_sized).
    cbn [pw_path pw_watch]. rewrite read_request_head by (try done; unfold len in *; cbn [length]; lia). by eexists.
  - unfold data_request. cbn [fst snd]. rewrite path_watch_bytes by (by eapply path_sized).
    cbn [pw_path pw_watch]. rewrite read_request_head by (try done; unfold len in *; cbn [length]; lia). by eexists.
  - unfold children_request. cbn [fst snd]. change get_children_request_serialize_body with get_data_request_serialize_body.
    rewrite path_watch_bytes by (by eapply path_sized).
    cbn [pw_path pw_watch]. rewrite read_request_head by (try done; unfold len in *; cbn [length]; lia). by eexists.
Qed.

Lemma child_name_spec cs q n : child_name cs q = Some n <-> q = cs ++ [n].
Proof.
  unfold child_name. split.
  - destruct (reverse q) as [|n' r] eqn:E; [done|]. case_decide as Hd; [|done]. intros [= <-].
    apply (f_equal reverse) in E. rewrite reverse_involutive, reverse_cons in E. by subst.
  - intros ->. rewrite reverse_snoc, decide_True by apply reverse_involutive. done.
Qed.

Lemma names_of_spec t cs : children_of t cs (names_of t cs).
Proof.
  unfold children_of, names_of. split.
  - assert (NoDup (map_to_list t).*1) as Hn by apply NoDup_fst_map_to_list.
    induction Hn as [|q l Hq _ IH]; [constructor|]. cbn [omap list_omap].
    destruct (child_name cs q) as [n|] eqn:E; [|done]. constructor; [|done].
    apply child_name_spec in E as ->. rewrite list_elem_of_omap. intros (q & Hin & E).
    apply child_name_spec in E as ->. done.
  - intros n. rewrite list_elem_of_omap. split.
    + intros (q & Hin & E). apply child_name_spec in E as ->.
      apply list_elem_of_fmap in Hin as ([q nd] & -> & Hin). apply elem_of_map_to_list in Hin. by exists nd.
    + intros [nd E]. exists (cs ++ [n]). split; [|by apply child_name_spec].
      apply list_elem_of_fmap. exists (cs ++ [n], nd). split; [done|]. by apply elem_of_map_to_list.
Qed.

Lemma some_stat_wf n : zk_stat_wf (some_stat n).
Proof.
  unfold some_stat, zk_stat_wf. cbn. split_and!; try done; [by destruct (zn_ephemeral n)|].
  exact (swrap_range 32 _ eq_refl).
Qed.

Lemma apply_op_spec t op :
  valid_op op -> zk_result t op (apply_op t op).1.1 (apply_op t op).1.2 (apply_op t op).2.
Proof.
  intros Hv. destruct op as [cs d e|cs|cs|cs|cs]; cbn [apply_op].
  - destruct (t !! cs) as [n|] eqn:Et; [by constructor; eauto|].
    destruct Hv as (Hne & _). destruct cs as [|c cs _] using rev_ind; [done|].
    rewrite reverse_snoc. cbn [reverse]. rewrite reverse_involutive.
    destruct (t !! cs) as [n|] eqn:Ep; [|by constructor].
    destruct (zn_ephemeral n) eqn:En; [by eapply create_under_ephemeral|by eapply created].
  - destruct (t !! cs) as [n|] eqn:Et; [|by constructor].
    destruct (names_of_spec t cs) as [_ Hn]. destruct (names_of t cs) as [|n' l].
    + constructor; [eauto|]. intros c. apply eq_None_not_Some. rewrite <- Hn. by apply not_elem_of_nil.
    + constructor; [eauto|]. intros Hch. destruct (proj1 (Hn n')) as [? E]; [left|]. by rewrite Hch in E.
  - destruct (t !! cs) eqn:Et; constructor; eauto using some_stat_wf.
  - destruct (t !! cs) eqn:Et; constructor; eauto using some_stat_wf.
  - destruct (t !! cs) eqn:Et; constructor; eauto using names_of_spec.
Qed.

#[export] Program Instance memory_zookeeper : ZooKeeper tree :=
  {| respond := memory_respond; data_tree := fun t => t |}.
Next Obligation.
  intros t x op Hx Hv. destruct (memory_reads x op Hx Hv) as [rest E].
  unfold memory_respond. rewrite E. pose proof (apply_op_spec t op Hv) as Ha.
  destruct (apply_op t op) as [[e d] t'] eqn:Eo. eexists _, _. split; [reflexivity|]. split; [done|]. exact Ha.
Qed.
