(* ===== verification/NodeManager.v ===== *)
(** * Discovery and selection: [src/registry/node_manager.h/.cpp]

    The manager puts the registry and the balancer together: [refresh_nodes]
    turns the registered instances into the balancer's endpoints, [select_node]
    picks one.  Its operations are computations over its own state, built from the
    registry's. *)
From S2P Require Import Prelude Program ZkProto ZkClient ServiceRegistry Balancer.

Record NodeManager := {
  services_path_ : str;
  registry_ : registry;
  balancer_ : LoadBalancer;
  cached_ : list Endpoint          (* nodes_ *)
}.

Definition NodeManager_init (guarded : bool) (ios : list zk_event) : NodeManager :=
  {| services_path_ := bs "/rpc/services";
     registry_ := {| client_ := zk_client_init; reg_connected := false; ios_ := ios;
                     ios_guarded := guarded; ios_stopped := false |};
     balancer_ := LoadBalancer_init; cached_ := [] |}.

Abbreviation N := (prog NodeManager).

Definition with_registry (w : registry) (m : NodeManager) : NodeManager :=
  {| services_path_ := services_path_ m; registry_ := w; balancer_ := balancer_ m; cached_ := cached_ m |}.

(** [registry_->op(...)] *)
Definition on_registry {A} (op : M A) : N A := fun m =>
  match op (registry_ m) with
  | Returned a w => Returned a (with_registry w m)
  | Polling w => Polling (with_registry w m)
  | Raised e w => Raised e (with_registry w m)
  | Undefined => Undefined
  end.

Definition get_path : N str := fun m => Returned (services_path_ m) m.

Definition set_services_path (path : str) : N unit := fun m =>
  Returned tt {| services_path_ := path; registry_ := registry_ m; balancer_ := balancer_ m;
                 cached_ := cached_ m |}.

Definition set_cached (nodes : list Endpoint) : N unit := fun m =>
  Returned tt {| services_path_ := services_path_ m; registry_ := registry_ m; balancer_ := balancer_ m;
                 cached_ := nodes |}.

Definition on_balancer (f : LoadBalancer -> LoadBalancer) : N unit := fun m =>
  Returned tt {| services_path_ := services_path_ m; registry_ := registry_ m; balancer_ := f (balancer_ m);
                 cached_ := cached_ m |}.

(** ** Operations *)

Definition connect (timeout_ms : Z) (resolved : option str) : N bool :=
  on_registry (ServiceRegistry.connect timeout_ms resolved).

Definition init_zk_paths (services_path : str) : N unit :=
  _ ← set_services_path services_path;
  _ ← match rfind "/"%char services_path with
      | Some (S pos) => on_registry (create_persistent_node (take (S pos) services_path))
      | _ => mret true
      end;
  _ ← on_registry (create_persistent_node services_path);
  mret tt.

Definition endpoint_of (svc : ServiceInstance) : Endpoint :=
  {| name := si_name svc; address := si_address svc; weight := 1 |}.

Definition refresh_nodes : N (list Endpoint) :=
  _ ← set_cached [];
  path ← get_path;
  services ← on_registry (list_services path);
  let nodes := endpoint_of <$> services in
  _ ← set_cached nodes;
  _ ← on_balancer (set_nodes nodes);
  mret nodes.

(** [balancer_.select()] *)
Definition balancer_select (rnd : Z) : N Endpoint := fun m =>
  let '(r, b) := select rnd (balancer_ m) in
  attempt r {| services_path_ := services_path_ m; registry_ := registry_ m; balancer_ := b;
               cached_ := cached_ m |}.

Definition select_node (rnd : Z) : N Endpoint := fun m =>
  match cached_ m with
  | [] => (_ ← refresh_nodes; balancer_select rnd) m
  | _ => balancer_select rnd m
  end.

Definition set_balancer_strategy (nm : str) : N unit := fun m =>
  (_ ← on_balancer (set_strategy (Some (create_strategy nm)));
   on_balancer (set_nodes (cached_ m))) m.

Definition strategy_name (m : NodeManager) : str := Balancer.strategy_name (balancer_ m).

(** The weight is ignored. *)
Definition register_node (node_name address : str) (weight : Z) : N bool :=
  path ← get_path;
  on_registry (register_service path node_name address).

Definition unregister_node (node_name : str) : N bool :=
  path ← get_path;
  on_registry (unregister_service (join path node_name)).

Definition node_exists (node_path : str) : N bool := on_registry (ServiceRegistry.node_exists node_path).

Definition list_node_names : N (list str) :=
  path ← get_path;
  on_registry (get_children path).

Definition get_node_data (path : str) : N str := on_registry (ServiceRegistry.get_node_data path).

(** Selections one after the other. *)
Fixpoint select_nodes (rnds : list Z) : N (list Endpoint) :=
  match rnds with
  | [] => mret []
  | r :: rnds => e ← select_node r; es ← select_nodes rnds; mret (e :: es)
  end.

(** ** Lemmas *)

(** The cache and the balancer hold the same nodes. *)
Definition agrees (m : NodeManager) : Prop := nodes_ (balancer_ m) = cached_ m.

(** They do when the operation has returned, and when it has thrown. *)
Definition keeps_agreement {A} (op : N A) : Prop :=
  forall m, agrees m -> match op m with Returned _ m' | Raised _ m' => agrees m' | _ => True end.

Lemma bind_keeps_agreement {A B} (op : N A) (k : A -> N B) :
  keeps_agreement op -> (forall a, keeps_agreement (k a)) -> keeps_agreement (op ≫= k).
Proof.
  intros Hm Hk w Hq. unfold mbind, prog_bind. specialize (Hm w Hq).
  destruct (op w) as [a w1| | |]; try done. by apply Hk.
Qed.

Lemma ret_keeps_agreement {A} (a : A) : keeps_agreement (mret a).
Proof. by intros m Hq. Qed.

Lemma registry_keeps_agreement {A} (op : M A) : keeps_agreement (on_registry op).
Proof. intros m Hq. unfold on_registry. by destruct (op (registry_ m)). Qed.

Lemma path_keeps_agreement : keeps_agreement get_path.
Proof. by intros m Hq. Qed.

Lemma set_nodes_nodes nodes b : nodes_ (set_nodes nodes b) = nodes.
Proof. done. Qed.

Lemma set_path_keeps_agreement path : keeps_agreement (set_services_path path).
Proof. by intros m Hq. Qed.

Ltac agree_op :=
  repeat first
    [ apply registry_keeps_agreement | apply path_keeps_agreement | apply set_path_keeps_agreement
    | apply ret_keeps_agreement | apply bind_keeps_agreement; [|intros ?] | case_match ].

Lemma refresh_throws m e m' :
  refresh_nodes m = Raised e m' -> cached_ m' = [] /\ balancer_ m' = balancer_ m.
Proof.
  unfold refresh_nodes, mbind, prog_bind, on_registry. cbn.
  destruct (list_services _ _) as [svcs w| | |]; try done. by intros [= _ <-].
Qed.

Lemma refresh_agrees m a m' :
  refresh_nodes m = Returned a m' -> agrees m' /\ cached_ m' = a /\
    Balancer.strategy_name (balancer_ m') = Balancer.strategy_name (balancer_ m).
Proof.
  unfold refresh_nodes, mbind, prog_bind, on_registry. cbn.
  destruct (list_services _ _) as [svcs w| | |]; try done. cbn. intros [= <- <-].
  split_and!; [done..|]. unfold set_nodes, reset, Balancer.strategy_name. cbn [strategy_ set_strategy balancer_].
  rewrite create_own_strategy. by destruct (strategy_ _).
Qed.

Lemma select_nodes_same rnd b : nodes_ (select rnd b).2 = nodes_ b.
Proof. unfold select. by destruct (strategy_select _ _ _). Qed.

Lemma balancer_select_agrees rnd : keeps_agreement (balancer_select rnd).
Proof.
  intros m Hq. unfold balancer_select. pose proof (select_nodes_same rnd (balancer_ m)) as Hs.
  destruct (select rnd (balancer_ m)) as [[e| |] b]; unfold agrees in *; cbn in *; try done; congruence.
Qed.

(** A refresh answered by the server. *)
Lemma refresh_answered m names z ns rest :
  lists names z ns rest (registry_ m) ->
  exists w', let eps := endpoint_of <$> zip_with instance_of names ns.*2 in
    refresh_nodes m = Returned eps
      {| services_path_ := services_path_ m; registry_ := w';
         balancer_ := set_nodes eps (balancer_ m); cached_ := eps |}.
Proof.
  intros H. destruct (list_services_answered (services_path_ m) _ _ _ _ _ H) as (w' & E & _).
  exists w'. cbn zeta. unfold refresh_nodes, mbind, prog_bind, on_registry. cbn -[list_services].
  by rewrite E.
Qed.

(** With nodes in the cache a selection only touches the balancer. *)
Lemma select_nodes_many rnds m os b :
  cached_ m <> [] -> select_many rnds (balancer_ m) = (Ok <$> os, b) ->
  select_nodes rnds m = Returned os {| services_path_ := services_path_ m; registry_ := registry_ m;
                                       balancer_ := b; cached_ := cached_ m |}.
Proof.
  revert m os b. induction rnds as [|r rnds IH]; intros m os b Hc E; cbn in E.
  - destruct os; [|done]. injection E as <-. by destruct m.
  - destruct (select r (balancer_ m)) as [o b1] eqn:E1.
    destruct (select_many rnds b1) as [os1 b2] eqn:E2. destruct os as [|e os]; [done|].
    injection E as -> -> ->. cbn [select_nodes]. unfold mbind, prog_bind.
    assert (select_node r m = balancer_select r m) as ->.
    { unfold select_node. by destruct (cached_ m). }
    unfold balancer_select. rewrite E1. cbn [attempt].
    erewrite IH; [|done|cbn; exact E2]. done.
Qed.

(** Selecting as often as there are nodes, from counter 0. *)
Lemma round_robin_round nodes rnds :
  nodes <> [] -> length rnds = length nodes -> len nodes < 2 ^ 64 ->
  select_many rnds {| strategy_ := RoundRobinStrategy 0; nodes_ := nodes |} =
  (Ok <$> nodes, {| strategy_ := RoundRobinStrategy (len nodes); nodes_ := nodes |}).
Proof.
  intros Hn Hl Hb. assert (len rnds = len nodes) as El by (unfold len; by rewrite Hl).
  destruct (round_robin_many 0 nodes rnds Hn) as (os & -> & Ho & Hk); [lia|lia|]. rewrite El. f_equal.
  apply list_eq_same_length with (length nodes); [by rewrite length_fmap|lia|].
  intros k x y Hlt Hx Hy. destruct (Hk k) as (n & Hnth & Hok); [lia|].
  rewrite Z.add_0_l, Z.mod_small, Nat2Z.id in Hnth by (unfold len; lia).
  rewrite list_lookup_fmap, Hnth in Hy. cbn in Hy. congruence.
Qed.

Lemma set_nodes_round_robin nodes c old :
  set_nodes nodes {| strategy_ := RoundRobinStrategy c; nodes_ := old |} =
  {| strategy_ := RoundRobinStrategy 0; nodes_ := nodes |}.
Proof. done. Qed.

(** The endpoint of a child: its data is the address, if it could be read. *)
Definition node_endpoint (nm : str) (n : Z + get_data_response) : Endpoint :=
  {| name := nm; weight := 1; address := match n with inr d => gd_data d | inl _ => [] end |}.

Lemma endpoints_zip names ns :
  endpoint_of <$> zip_with instance_of names ns = zip_with node_endpoint names ns.
Proof.
  revert ns. induction names as [|nm names IH]; intros [|n ns]; [done..|].
  cbn. f_equal; [by destruct n|apply IH].
Qed.

(** ** Theorems *)

(** A refresh makes the registered instances selectable, each in its turn.
    When the server lists the children of the services path and answers for each,
    a manager with the round-robin strategy that refreshes and then selects as
    often as there are instances gets one endpoint per registered child, in the
    server's order, with the child's name, weight 1 and the node's data as address
    (the empty address for a child whose node could not be read: the code keeps
    such an endpoint). *)
Theorem refreshed_nodes_take_turns m c names z ns rest rnds :
  strategy_ (balancer_ m) = RoundRobinStrategy c -> names <> [] -> length rnds = length names ->
  lists names z ns rest (registry_ m) ->
  exists m', (_ ← refresh_nodes; select_nodes rnds) m =
      Returned (zip_with node_endpoint names ns.*2) m' /\
    cached_ m' = nodes_ (balancer_ m').
Proof.
  intros Hst Hne Hl Hs. pose proof (lists_sized _ _ _ _ _ Hs) as [_ Hsz].
  pose proof (lists_length _ _ _ _ _ Hs) as Hlen.
  destruct (refresh_answered m names z ns rest Hs) as [w' E]. cbn zeta in E.
  set (eps := endpoint_of <$> zip_with instance_of names ns.*2) in *.
  assert (eps = zip_with node_endpoint names ns.*2) as <-.
  { apply endpoints_zip. }
  assert (length eps = length names) as Hel.
  { unfold eps. rewrite length_fmap, length_zip_with, length_fmap, Hlen. lia. }
  assert (balancer_ m = {| strategy_ := RoundRobinStrategy c; nodes_ := nodes_ (balancer_ m) |}) as Eb.
  { destruct (balancer_ m). cbn in *. by rewrite Hst. }
  rewrite Eb, set_nodes_round_robin in E.
  assert (eps <> []) as Hep by (intros En; rewrite En in Hel; by destruct names).
  eexists. split.
  - unfold mbind, prog_bind. rewrite E. apply select_nodes_many; [done|]. cbn [balancer_].
    apply round_robin_round; [done|congruence|unfold len in *; lia].
  - done.
Qed.

Definition two_nodes_manager : NodeManager :=
  {| services_path_ := bs "/rpc/services"; registry_ := two_nodes_world;
     balancer_ := LoadBalancer_init; cached_ := [] |}.

Lemma refreshed_nodes_take_turns_witness :
  exists m', (_ ← refresh_nodes; select_nodes [0; 0]) two_nodes_manager =
    Returned [{| name := bs "node-1"; address := bs "10.0.0.5:9000"; weight := 1 |};
              {| name := bs "node-2"; address := []; weight := 1 |}] m'.
Proof.
  destruct (refreshed_nodes_take_turns two_nodes_manager 0 two_names 9 two_nodes [] [0; 0])
    as (m' & E & _); [done|done|done|exact two_nodes_listed|]. exists m'. exact E.
Defined.

(** A manager with two nodes whose next reply announces a negative length. *)
Definition garbled_reply : NodeManager :=
  {| services_path_ := bs "/rpc/services";
     registry_ := {| client_ := zk_client_init; reg_connected := true;
                     ios_ := [ZPosted 0; ZWritten 0 None; ZRead 0 (inr (be_bytes 4 (2 ^ 32 - 1)))];
                     ios_guarded := true; ios_stopped := false |};
     balancer_ := set_nodes [{| name := bs "a"; address := []; weight := 1 |}] LoadBalancer_init;
     cached_ := [{| name := bs "a"; address := []; weight := 1 |}] |}.

(** C35: the manager's two copies of the node list agree, but for a refresh that
    throws, and its strategy is the one asked for.  Every operation, whether it
    returns or throws, keeps the cache and the balancer's list equal, whatever the
    server does, except [refresh_nodes]: that makes them equal when it returns, and
    leaves an empty cache beside an unchanged balancer when an exception of the
    listing leaves it, which can happen to a manager whose copies agreed.
    [set_balancer_strategy] keeps the nodes and installs the named strategy, an
    unknown name meaning round robin; a refresh keeps the strategy's name. *)
Theorem manager_views_agree path nm address n rnd tm resolved :
  keeps_agreement (connect tm resolved) /\ keeps_agreement (init_zk_paths path) /\
  keeps_agreement (select_node rnd) /\
  keeps_agreement (set_balancer_strategy nm) /\ keeps_agreement (register_node nm address n) /\
  keeps_agreement (unregister_node nm) /\ keeps_agreement (node_exists path) /\
  keeps_agreement list_node_names /\ keeps_agreement (get_node_data path) /\
  (forall m a m', refresh_nodes m = Returned a m' ->
     agrees m' /\ cached_ m' = a /\ strategy_name m' = strategy_name m) /\
  (forall m e m', refresh_nodes m = Raised e m' -> cached_ m' = [] /\ balancer_ m' = balancer_ m) /\
  (exists m e m', agrees m /\ refresh_nodes m = Raised e m' /\ ~ agrees m') /\
  (forall m, exists m', set_balancer_strategy nm m = Returned tt m' /\
     cached_ m' = cached_ m /\
     strategy_name m' = if bool_decide (nm = bs "random") then nm
                        else if bool_decide (nm = bs "weighted") then nm else bs "round_robin").
Proof.
  split_and!.
  - unfold connect. agree_op.
  - unfold init_zk_paths. agree_op; done.
  - intros m Hq. unfold select_node. destruct (cached_ m) eqn:Ec; [|by apply balancer_select_agrees].
    unfold mbind, prog_bind. destruct (refresh_nodes m) as [a m1| |e m1|] eqn:Er; try done.
    + apply balancer_select_agrees. by apply refresh_agrees in Er as [].
    + apply refresh_throws in Er as [E1 E2]. unfold agrees in *. congruence.
  - by intros m Hq.
  - unfold register_node. agree_op.
  - unfold unregister_node. agree_op.
  - unfold node_exists. agree_op.
  - unfold list_node_names. agree_op.
  - unfold get_node_data. agree_op.
  - apply refresh_agrees.
  - apply refresh_throws.
  - eexists garbled_reply, _, _. split; [done|]. split; [vm_compute; reflexivity|]. by vm_compute.
  - intros m. eexists. split; [reflexivity|]. split; [done|]. unfold strategy_name. cbn [balancer_].
    unfold set_nodes, reset, Balancer.strategy_name. cbn [strategy_ set_strategy]. rewrite create_own_strategy.
    unfold create_strategy. case_bool_decide; [by subst|]. case_bool_decide; by subst.
Qed.

(** A failed refresh forgets the nodes.  When the listing of the services
    path is answered with an error, [refresh_nodes] returns an empty list, which
    replaces the cache and the balancer's nodes, and a [select_node] that had to
    refresh throws. *)
Theorem failed_refresh_forgets_nodes m a rest rnd :
  idle (client_ (registry_ m)) -> reg_connected (registry_ m) = true -> ios_stopped (registry_ m) = false ->
  answer_wf a -> an_err a <> 0 ->
  ios_ (registry_ m) = answered (xid_ (client_ (registry_ m))) a ++ rest ->
  (exists m', refresh_nodes m = Returned [] m' /\ cached_ m' = [] /\ nodes_ (balancer_ m') = []) /\
  (cached_ m = [] -> exists msg m', select_node rnd m = Raised (runtime_error msg) m').
Proof.
  intros Hi Hc Hst Ha He Ho.
  assert (exists w', list_services (services_path_ m) (registry_ m) = Returned [] w') as [w' E].
  { destruct (call_served AsChildren op_get_children
      (get_children_request_serialize_body {| pw_path := services_path_ m; pw_watch := false |})
      (registry_ m) a _ rest Hi Hst Ho Ha (resolve_error _ _ _ He)) as (w' & E & _).
    exists w'. assert (get_children (services_path_ m) (registry_ m) = Returned [] w') as E2.
    { unfold get_children. rewrite if_connected_true by done. by erewrite bind_returned by exact E. }
    unfold list_services. by erewrite bind_returned by exact E2. }
  assert (refresh_nodes m = Returned [] {| services_path_ := services_path_ m; registry_ := w';
            balancer_ := set_nodes [] (balancer_ m); cached_ := [] |}) as Er.
  { unfold refresh_nodes, mbind, prog_bind, on_registry. cbn -[list_services]. by rewrite E. }
  split; [by eexists|]. intros Hca. unfold select_node. rewrite Hca. unfold mbind, prog_bind. rewrite Er.
  unfold balancer_select, select, strategy_select. cbn [balancer_ nodes_ set_nodes reset set_strategy].
  destruct (strategy_ _); cbn; eauto.
Qed.

Lemma failed_refresh_forgets_nodes_witness :
  exists msg m', select_node 0 {| services_path_ := bs "/rpc/services"; registry_ := no_node_world;
    balancer_ := LoadBalancer_init; cached_ := [] |} = Raised (runtime_error msg) m'.
Proof.
  apply (failed_refresh_forgets_nodes {| services_path_ := bs "/rpc/services"; registry_ := no_node_world;
    balancer_ := LoadBalancer_init; cached_ := [] |} no_node [] 0);
    [exact init_idle|done|done|split_and!; by vm_compute|done|done|done].
Defined.
