(* ===== verification/Directory.v ===== *)
(** * The node manager against ZooKeeper: a directory of addresses

    What [NodeManager] promises its callers is a directory: a finite map from
    instance names to addresses, kept under the services path of a ZooKeeper
    server.  Its operations, run with a lawful server answering every request
    ([online] over [ZooKeeper]), refine the operations of that map, and the
    endpoints it selects are the map's entries in turn. *)
From S2P Require Import Prelude Program ZkProto ZkClient ServiceRegistry Dialogue ZooKeeper Balancer NodeManager.

#[export] Program Instance registry_of_manager : OverRegistry NodeManager :=
  {| reg := registry_; put := with_registry |}.
Next Obligation. done. Qed.
Next Obligation. done. Qed.
Next Obligation. by intros []. Qed.

(** The endpoints of a directory. *)
Definition entry_endpoint (e : str * str) : Endpoint := {| name := e.1; address := e.2; weight := 1 |}.
Definition dir_endpoints (d : gmap str str) : list Endpoint := entry_endpoint <$> map_to_list d.
Definition dir_names (d : gmap str str) : list str := (map_to_list d).*1.

(** The bytes of a listing. *)
Fixpoint names_size (l : list str) : Z :=
  match l with [] => 0 | n :: l => len n + 4 + names_size l end.

#[export] Instance names_size_perm : Proper ((≡ₚ) ==> eq) names_size.
Proof. intros l1 l2 Hp. induction Hp; cbn; lia. Qed.

Lemma names_size_bytes l : len (strings_bytes l) = names_size l.
Proof.
  induction l as [|n l IH]; [done|]. unfold strings_bytes in *. cbn -[string_bytes]. rewrite len_app, IH.
  unfold string_bytes. rewrite len_app, len_be_bytes. lia.
Qed.

Lemma names_size_sized l : names_size l < 2 ^ 31 -> len l < 2 ^ 31 /\ Forall sized l.
Proof.
  assert (0 <= names_size l /\ 4 * len l <= names_size l /\ Forall (fun n => len n <= names_size l) l) as (H1 & H2 & H3).
  { induction l as [|n l (IH1 & IH2 & IH3)]; cbn [names_size]; [by repeat split|]. pose proof (len_nonneg n).
    rewrite len_cons. split_and!; [lia|lia|]. constructor; [lia|]. eapply Forall_impl; [exact IH3|]. intros m Hm. cbn beta in *. lia. }
  intros Hl. split; [lia|]. eapply Forall_impl; [exact H3|]. intros n Hn. cbn beta in Hn. unfold sized. lia.
Qed.

Section directory.
Context {S : Type} `{ZooKeeper S}.
Implicit Types (d : gmap str str) (z : S) (w : registry) (m : NodeManager).
Variable cs : list str.     (* the components of the services path *)
Hypothesis Hcs : cs <> [] /\ Forall component_ok cs.

(** An instance ZooKeeper accepts under the services path. *)
Definition entry_ok (n a : str) : Prop :=
  component_ok n /\ len (path_of (cs ++ [n])) + len a + 100 < 2 ^ 20.

(** A listing of the directory fits the client's 32-bit lengths. *)
Definition dir_fits (d : gmap str str) : Prop := names_size (dir_names d) + 20 < 2 ^ 31.

(** The manager [m], connected to the server [z], where the directory is [d]. *)
Record holds (m : NodeManager) (z : S) (d : gmap str str) : Prop := {
  h_idle : idle (client_of m);
  h_connected : reg_connected (reg m) = true;
  h_alive : alive (reg m);
  h_path : services_path_ m = path_of cs;
  h_root : exists n, data_tree z !! cs = Some n /\ zn_ephemeral n = false;
  h_nodes n : zn_data <$> data_tree z !! (cs ++ [n]) = d !! n;
  h_leaves n : childless (data_tree z) (cs ++ [n]);
  h_entries : map_Forall entry_ok d
}.

(** ** One request *)

(** The registry is between requests and its [io_context] at work. *)
Definition ready (w : registry) : Prop := idle (client_ w) /\ reg_connected w = true /\ alive w.

Lemma performed_ready {A W} `{OverRegistry W} n (op : prog W A) (m m' : W) z a z' :
  ready (reg m) -> performs respond n op m z a m' z' -> ready (reg m').
Proof.
  intros (_ & Hr & Ha) Hp. destruct (performs_idle _ _ _ _ _ _ _ _ Hp) as (Hi & Hc & Hal).
  split_and!; [done|by rewrite Hc|by apply Hal].
Qed.

(** An operation of one request: the server's answer decides its result. *)
Lemma performs_request {A : Type} (op : zk_op) (k : response_kind) (cont : reply -> M A) (dflt : A) w z (R : tree -> A -> Prop) :
  ready w -> valid_op op ->
  (forall e da t', zk_result (data_tree z) op e da t' ->
     int32 e /\ len da + 16 < 2 ^ 31 /\
     exists r v, resolve k e da = Ok r /\ cont r = mret v /\ R t' v) ->
  exists v w' z',
    performs respond 1
      (if_connected dflt (call (send_request k (op_request op).1 (op_request op).2) ≫= cont)) w z v w' z' /\
    R (data_tree z') v.
Proof.
  intros (Hi & Hc & Hal) Hv HR. destruct (respond_spec z (xid_ (client_ w)) op) as (a & z' & E & Hz & Ha); [apply Hi|done|].
  destruct (HR _ _ _ Ha) as (He & Hl & r & v & Hr & Hk & HRv).
  destruct (performs_call respond k (op_request op).1 (op_request op).2 cont dflt w z z' a r v)
    as (w' & Hp); [done|done|done|by split_and!|done..|].
  by exists v, w', z'.
Qed.

Lemma resolve_created p : sized p -> resolve AsCreate 0 (string_bytes p) = Ok (CreateReply (make_ok {| created_path := p |})).
Proof. intros Hs. apply decode_whole. intros r. by apply (create_decode {| created_path := p |}). Qed.

Lemma register_performs path n a w z :
  ready w -> path = path_of cs -> entry_ok n a ->
  (exists nd, data_tree z !! cs = Some nd /\ zn_ephemeral nd = false) ->
  exists w' z', performs respond 1 (register_service path n a) w z
      (bool_decide (data_tree z !! (cs ++ [n]) = None)) w' z' /\
    data_tree z' = if decide (data_tree z !! (cs ++ [n]) = None)
                   then <[cs ++ [n] := {| zn_data := a; zn_ephemeral := true |}]> (data_tree z)
                   else data_tree z.
Proof.
  intros Hw -> [Hn Hl] (nd & Hp & Hpe). destruct Hcs as [Hne Hok].
  assert (sized (path_of (cs ++ [n]))) as Hs by (eapply (path_sized _ (len a + 100)); pose proof (len_nonneg a); lia).
  destruct (performs_request (Create (cs ++ [n]) a true) AsCreate
    (fun r => r ← as_create r; mret (negb (is_err r))) false w z
    (fun t' v => v = bool_decide (data_tree z !! (cs ++ [n]) = None) /\
       t' = if decide (data_tree z !! (cs ++ [n]) = None)
            then <[cs ++ [n] := {| zn_data := a; zn_ephemeral := true |}]> (data_tree z) else data_tree z))
    as (v & w' & z' & Hperf & -> & Ht).
  - done.
  - split_and!; [by destruct cs|by rewrite Forall_app, Forall_singleton|done].
  - intros e da t' Hr. inversion Hr as [cs' c ? ? nd' E1 E2 E3 E4|? ? ? [? E1] E2|cs' c ? ? E1 E2 E3|cs' c ? ? nd' E1 E2 E3 E4| | | | | | | | |]; subst.
    + apply app_inj_tail in E4 as [-> ->]. rewrite decide_True, bool_decide_eq_true_2 by done.
      split_and!; [done|unfold string_bytes; rewrite len_app, len_be_bytes; pose proof (len_nonneg a); lia|].
      eexists _, _. split; [by apply resolve_created|]. done.
    + rewrite decide_False, bool_decide_eq_false_2 by congruence. split_and!; [done..|].
      eexists _, _. split; [by apply resolve_error|]. done.
    + apply app_inj_tail in E3 as [-> ->]. congruence.
    + apply app_inj_tail in E4 as [-> ->]. congruence.
  - exists w', z'. split; [|done]. unfold register_service. rewrite <- path_of_snoc by done. exact Hperf.
Qed.

Lemma unregister_performs n w z :
  ready w -> component_ok n -> len (path_of (cs ++ [n])) + 100 < 2 ^ 20 -> childless (data_tree z) (cs ++ [n]) ->
  exists w' z', performs respond 1 (unregister_service (path_of (cs ++ [n]))) w z true w' z' /\
    data_tree z' = delete (cs ++ [n]) (data_tree z).
Proof.
  intros Hw Hn Hl Hch. destruct Hcs as [Hne Hok].
  destruct (performs_request (Remove (cs ++ [n])) AsVoid
    (fun r => r ← as_void r; mret (negb (is_err_void r))) false w z
    (fun t' v => v = true /\ t' = delete (cs ++ [n]) (data_tree z)))
    as (v & w' & z' & Hperf & -> & Ht); [done| | |by exists w', z'].
  - split_and!; [by destruct cs|by rewrite Forall_app, Forall_singleton|done].
  - intros e da t' Hr. inversion Hr; subst; [|done|].
    + split_and!; [done..|]. eexists _, _. done.
    + split_and!; [done..|]. eexists _, _. split; [by apply resolve_error|]. split; [done|]. split; [done|].
      by rewrite delete_id.
Qed.

Lemma exists_performs n w z :
  ready w -> component_ok n -> len (path_of (cs ++ [n])) + 100 < 2 ^ 20 ->
  exists w' z', performs respond 1 (ServiceRegistry.node_exists (path_of (cs ++ [n]))) w z
      (bool_decide (is_Some (data_tree z !! (cs ++ [n])))) w' z' /\
    data_tree z' = data_tree z.
Proof.
  intros Hw Hn Hl. destruct Hcs as [Hne Hok].
  destruct (performs_request (Exists (cs ++ [n])) AsExists
    (fun r => r ← as_exists r; mret (is_ok r)) false w z
    (fun t' v => v = bool_decide (is_Some (data_tree z !! (cs ++ [n]))) /\ t' = data_tree z))
    as (v & w' & z' & Hperf & -> & Ht); [done| | |by exists w', z'].
  - split; [by rewrite Forall_app, Forall_singleton|done].
  - intros e da t' Hr. inversion Hr as [| | | | | | |? st Hs Hwf| | | | |]; subst.
    + rewrite bool_decide_eq_true_2 by done. split_and!; [done| |].
      { unfold zk_stat_bytes. rewrite !len_app, !len_be_bytes. lia. }
      exists (ExistsReply (make_ok {| ex_stat := st |})), true. split; [|done].
      apply decode_whole. intros r. by apply (exists_decode {| ex_stat := st |}).
    + rewrite bool_decide_eq_false_2 by (apply eq_None_not_Some; done). split_and!; [done..|].
      eexists _, _. split; [by apply resolve_error|]. done.
Qed.

(** Reading a node, for any use of the reply. *)
Lemma data_performs {A} (cont : reply -> M A) (dflt : A) (f : option get_data_response -> A) n w z :
  ready w -> component_ok n -> len (path_of (cs ++ [n])) + 100 < 2 ^ 20 ->
  (forall nd, data_tree z !! (cs ++ [n]) = Some nd -> len (zn_data nd) + 100 < 2 ^ 31) ->
  (forall r : result get_data_response, cont (DataReply r) = mret (f (ok_ r))) ->
  exists w' z' r, performs respond 1
      (if_connected dflt (call (get_data (path_of (cs ++ [n])) false) ≫= cont)) w z (f r) w' z' /\
    gd_data <$> r = zn_data <$> data_tree z !! (cs ++ [n]) /\ data_tree z' = data_tree z.
Proof.
  intros Hw Hn Hl Hd Hf. destruct Hcs as [Hne Hok].
  destruct (performs_request (GetData (cs ++ [n])) AsData cont dflt w z
    (fun t' v => exists r, v = f r /\ gd_data <$> r = zn_data <$> data_tree z !! (cs ++ [n]) /\
       t' = data_tree z))
    as (v & w' & z' & Hperf & r & -> & Hr & Ht); [done| | |by exists w', z', r].
  - split; [by rewrite Forall_app, Forall_singleton|done].
  - intros e da t' Hr. inversion Hr as [| | | | | | | | |? nd st E Hwf|? E| |]; subst.
    + destruct (get_data_answer (inr {| gd_data := zn_data nd; gd_stat := st |}) 0) as ((_ & _ & Hlen) & r & Er & Hok');
        [split; [by apply Hd|done]|by vm_compute|]. cbn [node_answer an_err an_data] in *.
      split_and!; [done|lia|]. exists (DataReply r), (f (ok_ r)). split_and!; [done|done|].
      exists (ok_ r). by rewrite Hok', E.
    + split_and!; [done..|]. eexists _, _. split; [by apply resolve_error|]. split; [apply Hf|].
      exists None. split_and!; [done|by rewrite E|done].
Qed.

Lemma get_service_performs n w z d a :
  ready w -> zn_data <$> data_tree z !! (cs ++ [n]) = d !! n -> map_Forall entry_ok d -> d !! n = Some a ->
  exists w' z' si, performs respond 1 (get_service (join (path_of cs) n)) w z si w' z' /\
    endpoint_of si = entry_endpoint (n, a) /\ data_tree z' = data_tree z.
Proof.
  intros Hw Hd He Hn. destruct (He n a Hn) as [Hok Hl]. pose proof (len_nonneg a).
  set (si := ServiceInstance_named n).
  destruct (data_performs (fun r => r ← as_data r;
      match ok_ r with
      | Some resp =>
          mret {| si_name := si_name si; si_address := gd_data resp; si_ctime := ctime (gd_stat resp);
                  si_mtime := mtime (gd_stat resp); si_version := version (gd_stat resp);
                  si_data_length := data_length (gd_stat resp) |}
      | None => mret si
      end) si
    (fun o => match o with
      | Some resp =>
          {| si_name := si_name si; si_address := gd_data resp; si_ctime := ctime (gd_stat resp);
             si_mtime := mtime (gd_stat resp); si_version := version (gd_stat resp);
             si_data_length := data_length (gd_stat resp) |}
      | None => si
      end) n w z) as (w' & z' & r & Hp & Hr & Ht); [done|done|lia| |by intros [[]]|].
  - intros nd E. rewrite E, Hn in Hd. injection Hd as ->. pose proof (len_nonneg (path_of (cs ++ [n]))). lia.
  - eexists w', z', _. rewrite <- path_of_snoc by apply Hcs. split_and!; [|shelve|done].
    unfold get_service. rewrite path_of_snoc, node_name_join by (first [apply Hcs|by apply component_no_slash]).
    rewrite <- path_of_snoc by apply Hcs. exact Hp.
    Unshelve. rewrite Hd, Hn in Hr. destruct r as [resp|]; [|done]. injection Hr as <-. done.
Qed.

Lemma get_services_performs names w z d :
  ready w -> (forall n, zn_data <$> data_tree z !! (cs ++ [n]) = d !! n) -> map_Forall entry_ok d ->
  Forall (fun n => is_Some (d !! n)) names ->
  exists w' z' svcs, performs respond (length names) (get_services (path_of cs) names) w z svcs w' z' /\
    endpoint_of <$> svcs = (fun n => entry_endpoint (n, default [] (d !! n))) <$> names /\
    data_tree z' = data_tree z.
Proof.
  intros Hw Hd He Hn. revert w z Hw Hd. induction Hn as [|n names [a Ha] Hn IH]; intros w z Hw Hd.
  - exists w, z, []. split_and!; [|done..]. apply performs_ret. apply Hw.
  - destruct (get_service_performs n w z d a) as (w1 & z1 & si & Hp & Hsi & Ht); [done|apply Hd|done|done|].
    destruct (IH w1 z1) as (w' & z' & svcs & Hp' & Hs' & Ht'); [|by rewrite Ht|].
    { exact (performed_ready _ _ w w1 z _ z1 Hw Hp). }
    exists w', z', (si :: svcs). split_and!; [|cbn; rewrite Hsi, Hs', Ha; done|congruence].
    cbn [get_services length]. change (Datatypes.S (length names)) with (1 + length names)%nat.
    eapply performs_bind; [exact Hp|]. eapply performs_result; [exact Hp'|done].
Qed.

Lemma children_perform w z d :
  ready w -> (exists nd, data_tree z !! cs = Some nd) ->
  (forall n, zn_data <$> data_tree z !! (cs ++ [n]) = d !! n) -> dir_fits d ->
  len (path_of cs) + 100 < 2 ^ 20 ->
  exists w' z' names, performs respond 1 (get_children (path_of cs)) w z names w' z' /\
    names ≡ₚ dir_names d /\ data_tree z' = data_tree z.
Proof.
  intros Hw (nd & Hroot) Hd Hf Hl. destruct Hcs as [Hne Hok].
  destruct (performs_request (GetChildren cs) AsChildren
    (fun r => r ← as_children r; match ok_ r with None => mret [] | Some resp => mret (children resp) end) [] w z
    (fun t' v => v ≡ₚ dir_names d /\ t' = data_tree z))
    as (names & w' & z' & Hperf & Hp & Ht); [done|done| |by exists w', z', names].
  intros e da t' Hr. inversion Hr as [| | | | | | | | | | |? names _ Hch|? E]; subst; [|congruence].
  assert (names ≡ₚ dir_names d) as Hp.
  { destruct Hch as [Hnd Hin]. apply NoDup_Permutation; [done|apply NoDup_fst_map_to_list|].
    intros n. rewrite Hin. unfold dir_names. rewrite list_elem_of_fmap. split.
    - intros [nd' E]. exists (n, zn_data nd'). split; [done|]. apply elem_of_map_to_list. by rewrite <- Hd, E.
    - intros ([n' a] & -> & E). apply elem_of_map_to_list in E. rewrite <- Hd in E.
      apply fmap_Some in E as (nd' & E & _). by exists nd'. }
  unfold dir_fits in Hf. rewrite <- Hp in Hf. destruct (names_size_sized names) as [Hn Hs]; [lia|].
  split_and!; [done| |].
  - unfold get_children_response_bytes. rewrite len_app, len_be_bytes. cbn [children].
    rewrite names_size_bytes. lia.
  - exists (ChildrenReply (make_ok {| children := names |})), names. split; [|done].
    apply decode_whole. intros r. by apply get_children_decode.
Qed.

(** ** The manager's operations *)

Lemma holds_ready m z d : holds m z d -> ready (reg m).
Proof. intros []. by split_and!. Qed.

Lemma holds_same m z d m' z' :
  holds m z d -> ready (reg m') -> services_path_ m' = services_path_ m -> data_tree z' = data_tree z ->
  holds m' z' d.
Proof. intros [] (? & ? & ?) Hp Ht. split; [done|done|done|by rewrite Hp|rewrite ?Ht; done..|done]. Qed.

Lemma lift_performs {A} n (op : M A) m z a w' z' :
  performs respond n op (reg m) z a w' z' -> performs respond n (on_registry op) m z a (with_registry w' m) z'.
Proof. exact (performs_lift respond n op (on_registry op) m z a w' z' (fun _ => eq_refl)). Qed.

(** An operation under the services path. *)
Lemma path_performs {A} n (op : str -> M A) m z a w' z' :
  ready (reg m) -> performs respond n (op (services_path_ m)) (reg m) z a w' z' ->
  performs respond n (path ← get_path; on_registry (op path)) m z a (with_registry w' m) z'.
Proof.
  intros Hr Hp. apply (performs_bind respond 0 n get_path _ m z (services_path_ m) m z).
  - apply performs_silent; [done|done|done|done|apply Hr].
  - by apply lift_performs.
Qed.

Lemma snoc_ne (l : list str) n : l ++ [n] <> l.
Proof. intros E. apply (f_equal length) in E. rewrite length_app in E. cbn in E. lia. Qed.

Lemma register_node_performs m z d n a weight :
  holds m z d -> entry_ok n a ->
  exists m' z', performs respond 1 (register_node n a weight) m z (bool_decide (d !! n = None)) m' z' /\
    holds m' z' (if decide (d !! n = None) then <[n := a]> d else d) /\
    cached_ m' = cached_ m /\ balancer_ m' = balancer_ m.
Proof.
  intros Hm He. pose proof (holds_ready _ _ _ Hm) as Hr.
  destruct (register_performs (services_path_ m) n a (reg m) z) as (w' & z' & Hp & Ht); [done|apply Hm|done|apply Hm|].
  assert (data_tree z !! (cs ++ [n]) = None <-> d !! n = None) as Hn.
  { rewrite <- (h_nodes _ _ _ Hm n). destruct (data_tree z !! (cs ++ [n])); by split. }
  exists (with_registry w' m), z'. rewrite <- (bool_decide_ext _ _ Hn).
  apply (path_performs 1 (fun path => register_service path n a)) in Hp; [|done].
  split_and!; [exact Hp| |done..]. pose proof (performed_ready _ _ _ _ _ _ _ Hr Hp) as Hr'.
  case_decide as Hd; rewrite Hn in Hd.
  - rewrite decide_True by done. destruct Hm as [? ? ? ? [nd [Hroot Hpers]] Hnodes Hleaves Hentries].
    split; [apply Hr'|apply Hr'|apply Hr'|done|exists nd|intros n'|intros n' n''|].
    + rewrite Ht, lookup_insert_ne by apply snoc_ne. done.
    + rewrite Ht. destruct (decide (n' = n)) as [->|Hne].
      * by rewrite !lookup_insert_eq.
      * rewrite !lookup_insert_ne; [done|done|]. intros E. by apply app_inj_tail in E as [_ ->].
    + rewrite Ht, lookup_insert_ne; [apply Hleaves|]. intros E. apply (f_equal length) in E.
      rewrite !length_app in E. cbn in E. lia.
    + by apply map_Forall_insert_2.
  - rewrite decide_False by done. eapply holds_same; [done|done|done|done].
Qed.

Lemma unregister_node_performs m z d n :
  holds m z d -> component_ok n -> len (path_of (cs ++ [n])) + 100 < 2 ^ 20 ->
  exists m' z', performs respond 1 (unregister_node n) m z true m' z' /\ holds m' z' (delete n d) /\
    cached_ m' = cached_ m /\ balancer_ m' = balancer_ m.
Proof.
  intros Hm Hn Hl. pose proof (holds_ready _ _ _ Hm) as Hr.
  destruct (unregister_performs n (reg m) z) as (w' & z' & Hp & Ht); [done..|apply Hm|].
  exists (with_registry w' m), z'.
  rewrite path_of_snoc, <- (h_path _ _ _ Hm) in Hp by apply Hcs.
  apply (path_performs 1 (fun path => unregister_service (join path n))) in Hp; [|done].
  split_and!; [exact Hp| |done..]. pose proof (performed_ready _ _ _ _ _ _ _ Hr Hp) as Hr'.
  destruct Hm as [? ? ? ? [nd [Hroot Hpers]] Hnodes Hleaves Hentries].
  split; [apply Hr'|apply Hr'|apply Hr'|done|exists nd|intros n'|intros n' n''|].
  - rewrite Ht, lookup_delete_ne by apply snoc_ne. done.
  - rewrite Ht. destruct (decide (n' = n)) as [->|Hne].
    + by rewrite !lookup_delete_eq.
    + rewrite !lookup_delete_ne; [done|done|]. intros E. by apply app_inj_tail in E as [_ ->].
  - rewrite Ht, lookup_delete_None. right. apply Hleaves.
  - by apply map_Forall_delete.
Qed.

(** A request that only reads. *)
Lemma reads_performs {A} n (op : M A) m z d a w' z' :
  holds m z d -> performs respond n op (reg m) z a w' z' -> data_tree z' = data_tree z ->
  performs respond n (on_registry op) m z a (with_registry w' m) z' /\ holds (with_registry w' m) z' d.
Proof.
  intros Hm Hp Ht. pose proof (holds_ready _ _ _ Hm) as Hr. apply lift_performs in Hp. split; [done|].
  eapply holds_same; [done|by eapply performed_ready|done|done].
Qed.

Lemma node_exists_performs m z d n :
  holds m z d -> component_ok n -> len (path_of (cs ++ [n])) + 100 < 2 ^ 20 ->
  exists m' z', performs respond 1 (NodeManager.node_exists (join (path_of cs) n)) m z
      (bool_decide (is_Some (d !! n))) m' z' /\ holds m' z' d.
Proof.
  intros Hm Hn Hl. destruct (exists_performs n (reg m) z) as (w' & z' & Hp & Ht); [by eapply holds_ready|done|done|].
  assert (is_Some (data_tree z !! (cs ++ [n])) <-> is_Some (d !! n)) as E.
  { rewrite <- (h_nodes _ _ _ Hm n). by rewrite fmap_is_Some. }
  rewrite (bool_decide_ext _ _ E), path_of_snoc in Hp by apply Hcs.
  exists (with_registry w' m), z'. by apply reads_performs.
Qed.

Lemma node_data_performs m z d n :
  holds m z d -> component_ok n -> len (path_of (cs ++ [n])) + 100 < 2 ^ 20 ->
  exists m' z', performs respond 1 (NodeManager.get_node_data (join (path_of cs) n)) m z
      (default [] (d !! n)) m' z' /\ holds m' z' d.
Proof.
  intros Hm Hn Hl. pose proof (holds_ready _ _ _ Hm) as Hr. pose proof (h_nodes _ _ _ Hm n) as Hd.
  destruct (data_performs (fun r => r ← as_data r; match ok_ r with None => mret [] | Some resp => mret (gd_data resp) end)
    [] (fun o => default [] (gd_data <$> o)) n (reg m) z) as (w' & z' & r & Hp & Hr' & Ht); [done|done|done| |by intros [[]]|].
  - intros nd E. rewrite E in Hd. cbn in Hd. symmetry in Hd. destruct (h_entries _ _ _ Hm n _ Hd) as [_ Hb].
    pose proof (len_nonneg (path_of (cs ++ [n]))). lia.
  - cbn beta in Hp. rewrite Hr', Hd, path_of_snoc in Hp by apply Hcs.
    exists (with_registry w' m), z'. by apply reads_performs.
Qed.

(** The services path is a legal path. *)
Definition services_path_ok : Prop := len (path_of cs) + 100 < 2 ^ 20.

Lemma list_names_performs m z d :
  holds m z d -> dir_fits d -> services_path_ok ->
  exists m' z' names, performs respond 1 list_node_names m z names m' z' /\
    names ≡ₚ dir_names d /\ holds m' z' d.
Proof.
  intros Hm Hf Hl. pose proof (holds_ready _ _ _ Hm) as Hr.
  destruct (children_perform (reg m) z d) as (w' & z' & names & Hp & Hn & Ht); [done| |apply Hm|done|done|].
  { destruct (h_root _ _ _ Hm) as (nd & E & _). by exists nd. }
  exists (with_registry w' m), z', names. rewrite <- (h_path _ _ _ Hm) in Hp.
  apply (path_performs 1 get_children) in Hp; [|done]. split_and!; [done|done|].
  eapply holds_same; [done|by eapply performed_ready|done|done].
Qed.

Lemma endpoints_of_names d :
  (fun n => entry_endpoint (n, default [] (d !! n))) <$> dir_names d = dir_endpoints d.
Proof.
  unfold dir_names, dir_endpoints. rewrite <- list_fmap_compose. apply list_fmap_ext.
  intros i [n a] E. apply list_elem_of_lookup_2, elem_of_map_to_list in E. cbn. by rewrite E.
Qed.

Lemma refresh_performs m z d :
  holds m z d -> dir_fits d -> services_path_ok ->
  exists m' z' eps, performs respond (Datatypes.S (size d)) refresh_nodes m z eps m' z' /\
    eps ≡ₚ dir_endpoints d /\ holds m' z' d /\
    cached_ m' = eps /\ balancer_ m' = set_nodes eps (balancer_ m).
Proof.
  intros Hm Hf Hl. pose proof (holds_ready _ _ _ Hm) as Hr.
  destruct (children_perform (reg m) z d) as (w1 & z1 & names & Hp & Hn & Ht); [done| |apply Hm|done|done|].
  { destruct (h_root _ _ _ Hm) as (nd & E & _). by exists nd. }
  assert (ready w1) as Hr1 by exact (performed_ready _ _ (reg m) w1 z _ z1 Hr Hp).
  destruct (get_services_performs names w1 z1 d) as (w' & z' & svcs & Hp' & Hs & Ht'); [done| |apply Hm| |].
  { intros n. rewrite Ht. apply Hm. }
  { rewrite Hn. apply Forall_fmap, Forall_forall. intros [n a] E. apply elem_of_map_to_list in E. by exists a. }
  assert (length names = size d) as Hlen by (by rewrite Hn; unfold dir_names; rewrite length_fmap, length_map_to_list).
  assert (performs respond (Datatypes.S (size d)) (list_services (services_path_ m)) (reg m) z svcs w' z') as Hls.
  { rewrite <- Hlen, (h_path _ _ _ Hm). by eapply (performs_bind respond 1 (length names)). }
  set (eps := endpoint_of <$> svcs) in *.
  exists {| services_path_ := services_path_ m; registry_ := w'; balancer_ := set_nodes eps (balancer_ m);
            cached_ := eps |}, z', eps.
  assert (performs respond (Datatypes.S (size d)) refresh_nodes m z eps
    {| services_path_ := services_path_ m; registry_ := w'; balancer_ := set_nodes eps (balancer_ m);
       cached_ := eps |} z') as Hperf.
  { set (m1 := {| services_path_ := services_path_ m; registry_ := registry_ m; balancer_ := balancer_ m; cached_ := [] |}).
    apply (performs_bind respond 0 (Datatypes.S (size d)) _ _ m z tt m1 z).
    { apply performs_silent; [done|done|done|done|apply Hr]. }
    apply (performs_bind respond 0 (Datatypes.S (size d)) _ _ m1 z (services_path_ m) m1 z).
    { apply performs_silent; [done|done|done|done|apply Hr]. }
    rewrite <- (Nat.add_0_r (Datatypes.S (size d))).
    eapply performs_bind; [by apply (lift_performs _ _ m1)|].
    apply performs_silent; [done|done|done|done|]. cbn. destruct (performs_idle _ _ _ _ _ _ _ _ Hls) as [Hi _]. exact Hi. }
  split_and!; [done| | |done|done].
  - rewrite Hs, Hn. by rewrite endpoints_of_names.
  - eapply holds_same; [done|by eapply performed_ready|done|congruence].
Qed.

Lemma holds_with_ios evs m z d : holds m z d -> holds (with_ios evs m) z d.
Proof.
  intros []. split; [by rewrite client_with_ios|by rewrite reg_with_ios|by rewrite reg_with_ios|done..].
Qed.

(** A performed operation, run online. *)
Lemma performs_runs {A} n fuel (op : prog NodeManager A) m z a m' z' d (Q : NodeManager -> Prop) :
  performs respond n op m z a m' z' -> holds m' z' d -> (n <= fuel)%nat ->
  (forall evs, Q (with_ios evs m')) ->
  exists m1, online respond fuel op [] m z = Returned a (m1, z') /\ holds m1 z' d /\ Q m1.
Proof.
  intros Hp Hd Hf HQ. exists (with_ios [] m'). split; [by eapply performs_online|]. split; [by apply holds_with_ios|done].
Qed.

(** ** Theorems *)

(** C14: the node manager implements a directory.  Between a manager connected to
    a ZooKeeper server and the directory kept under its services path ([holds]),
    every operation, with the server answering its requests, returns what the
    finite map says and leaves manager and server in step with the updated map:
    registering adds an absent name and reports a present one, which keeps its
    address; unregistering removes the name and always reports success; existence
    and data are look-ups, an absent name giving the empty address; listing and
    refreshing give the map's names and endpoints, each once, and a refresh hands
    them to the balancer.  Other clients may change the server between operations,
    as long as the directory relation holds again. *)
Theorem manager_refines_directory fuel m z d :
  holds m z d -> dir_fits d -> services_path_ok -> (size d < fuel)%nat ->
  (forall n a weight, entry_ok n a -> exists m' z',
     online respond fuel (register_node n a weight) [] m z = Returned (bool_decide (d !! n = None)) (m', z') /\
     holds m' z' (if decide (d !! n = None) then <[n := a]> d else d) /\ balancer_ m' = balancer_ m) /\
  (forall n, entry_ok n [] -> exists m' z',
     online respond fuel (unregister_node n) [] m z = Returned true (m', z') /\
     holds m' z' (delete n d) /\ balancer_ m' = balancer_ m) /\
  (forall n, entry_ok n [] -> exists m' z',
     online respond fuel (NodeManager.node_exists (join (path_of cs) n)) [] m z =
       Returned (bool_decide (is_Some (d !! n))) (m', z') /\ holds m' z' d) /\
  (forall n, entry_ok n [] -> exists m' z',
     online respond fuel (NodeManager.get_node_data (join (path_of cs) n)) [] m z =
       Returned (default [] (d !! n)) (m', z') /\ holds m' z' d) /\
  (exists m' z' names, online respond fuel list_node_names [] m z = Returned names (m', z') /\
     names ≡ₚ dir_names d /\ holds m' z' d) /\
  (exists m' z' eps, online respond fuel refresh_nodes [] m z = Returned eps (m', z') /\
     eps ≡ₚ dir_endpoints d /\ holds m' z' d /\ cached_ m' = eps /\ nodes_ (balancer_ m') = eps).
Proof.
  intros Hm Hd Hl Hf. split_and!.
  - intros n a weight He. destruct (register_node_performs m z d n a weight Hm He) as (m' & z' & Hp & Hh & _ & Hb).
    destruct (performs_runs _ fuel _ _ _ _ _ _ _ (fun m1 => balancer_ m1 = balancer_ m) Hp Hh) as (m1 & E); [lia|done|].
    by exists m1, z'.
  - intros n [He Hb]. rewrite len_nil, Z.add_0_r in Hb.
    destruct (unregister_node_performs m z d n Hm He Hb) as (m' & z' & Hp & Hh & _ & Hba).
    destruct (performs_runs _ fuel _ _ _ _ _ _ _ (fun m1 => balancer_ m1 = balancer_ m) Hp Hh) as (m1 & E); [lia|done|].
    by exists m1, z'.
  - intros n [He Hb]. rewrite len_nil, Z.add_0_r in Hb.
    destruct (node_exists_performs m z d n Hm He Hb) as (m' & z' & Hp & Hh).
    destruct (performs_runs _ fuel _ _ _ _ _ _ _ (fun _ => True) Hp Hh) as (m1 & E & ? & _); [lia|done|].
    by exists m1, z'.
  - intros n [He Hb]. rewrite len_nil, Z.add_0_r in Hb.
    destruct (node_data_performs m z d n Hm He Hb) as (m' & z' & Hp & Hh).
    destruct (performs_runs _ fuel _ _ _ _ _ _ _ (fun _ => True) Hp Hh) as (m1 & E & ? & _); [lia|done|].
    by exists m1, z'.
  - destruct (list_names_performs m z d Hm Hd Hl) as (m' & z' & names & Hp & Hn & Hh).
    destruct (performs_runs _ fuel _ _ _ _ _ _ _ (fun _ => True) Hp Hh) as (m1 & E & ? & _); [lia|done|].
    by exists m1, z', names.
  - destruct (refresh_performs m z d Hm Hd Hl) as (m' & z' & eps & Hp & He & Hh & Hc & Hb).
    destruct (performs_runs _ fuel _ _ _ _ _ _ _
      (fun m1 => cached_ m1 = eps /\ nodes_ (balancer_ m1) = eps) Hp Hh) as (m1 & E & Hh1 & Hc1); [lia| |by exists m1, z', eps].
    intros evs. split; [done|]. cbn. by rewrite Hb.
Qed.
End directory.

(** ** A session from the first connection *)

(** A provider's session: create the paths, register, then select. *)
Fixpoint register_all (regs : list (str * str)) : N (list bool) :=
  match regs with
  | [] => mret []
  | (n, a) :: regs => ok ← register_node n a 1; oks ← register_all regs; mret (ok :: oks)
  end.

Definition discover (path : str) (regs : list (str * str)) (rnds : list Z) : N (list bool * list Endpoint) :=
  _ ← init_zk_paths path;
  oks ← register_all regs;
  es ← select_nodes rnds;
  mret (oks, es).

Section session.
Context {S : Type} `{ZooKeeper S}.
Implicit Types (d : gmap str str) (z : S) (w : registry) (m : NodeManager).

(** A directory node that is not there yet is created. *)
Lemma create_performs ps c w z nd :
  ready w -> Forall component_ok (ps ++ [c]) -> len (path_of (ps ++ [c])) + 100 < 2 ^ 20 ->
  data_tree z !! ps = Some nd -> zn_ephemeral nd = false -> data_tree z !! (ps ++ [c]) = None ->
  exists w' z', performs respond 1 (create_persistent_node (path_of (ps ++ [c]))) w z true w' z' /\
    data_tree z' = <[ps ++ [c] := {| zn_data := []; zn_ephemeral := false |}]> (data_tree z).
Proof.
  intros Hw Hok Hl Hp He Hn.
  destruct (performs_request (Create (ps ++ [c]) [] false) AsCreate
    (fun r => r ← as_create r; mret (negb (is_err r && negb (contains (bs "node exists") (err_ r))))) false w z
    (fun t' v => v = true /\ t' = <[ps ++ [c] := {| zn_data := []; zn_ephemeral := false |}]> (data_tree z)))
    as (v & w' & z' & Hperf & -> & Ht); [done| | |by exists w', z'].
  - split_and!; [by destruct ps|done|]. rewrite len_nil. lia.
  - assert (sized (path_of (ps ++ [c]))) as Hs by by eapply path_sized.
    intros e da t' Hr. inversion Hr as [ps' c' ? ? nd' E1 E2 E3 E4|? ? ? [? E1] E2|ps' c' ? ? E1 E2 E3|ps' c' ? ? nd' E1 E2 E3 E4| | | | | | | | |]; subst.
    + apply app_inj_tail in E4 as [-> ->]. split_and!; [done|unfold string_bytes; rewrite len_app, len_be_bytes; lia|].
      eexists _, _. split; [by apply resolve_created|]. done.
    + congruence.
    + apply app_inj_tail in E3 as [-> ->]. congruence.
    + apply app_inj_tail in E4 as [-> ->]. congruence.
Qed.

Section fresh.
Variables (qs : list str) (a b : str).
Hypothesis Hcs : Forall component_ok (qs ++ [a; b]).
Let cs := qs ++ [a; b].
Hypothesis Hpath : services_path_ok cs.

(** The server has the directory of the services root and nothing below it. *)
Definition unused (z : S) : Prop :=
  (exists nd, data_tree z !! qs = Some nd /\ zn_ephemeral nd = false) /\
  forall l, data_tree z !! (qs ++ a :: l) = None.

Lemma services_path_split : cs = (qs ++ [a]) ++ [b].
Proof. unfold cs. by rewrite <- app_assoc. Qed.

Lemma services_path_legal : cs <> [] /\ Forall component_ok cs.
Proof. split; [by destruct qs|done]. Qed.

Lemma root_path_legal : Forall component_ok (qs ++ [a]) /\ component_ok b /\
  len (path_of (qs ++ [a])) + 100 < 2 ^ 20.
Proof.
  unfold services_path_ok in Hpath. rewrite services_path_split in Hpath.
  rewrite path_of_snoc in Hpath by (by destruct qs). unfold join in Hpath.
  pose proof Hcs as Hok. fold cs in Hok. rewrite services_path_split, Forall_app, Forall_singleton in Hok.
  rewrite !len_app in Hpath. pose proof (len_nonneg b). change (len (bs "/")) with 1 in Hpath.
  split_and!; [apply Hok|apply Hok|lia].
Qed.

(** What [init_zk_paths] makes of the services path. *)
Lemma split_services : component_ok b ->
  match rfind "/"%char (path_of cs) with
  | Some (Datatypes.S pos) => on_registry (create_persistent_node (take (Datatypes.S pos) (path_of cs)))
  | _ => mret true
  end = on_registry (create_persistent_node (path_of (qs ++ [a]))).
Proof.
  intros Hb. rewrite services_path_split, path_of_snoc by by destruct qs. unfold join.
  change (bs "/" ++ b) with ("/"%char :: b). rewrite rfind_app by by apply component_no_slash.
  destruct (length (path_of (qs ++ [a]))) as [|pos] eqn:El; [by destruct qs|].
  by rewrite <- El, take_app_length.
Qed.

Lemma init_performs m z :
  ready (reg m) -> unused z ->
  exists m' z', performs respond 2 (init_zk_paths (path_of cs)) m z tt m' z' /\ holds cs m' z' ∅ /\
    cached_ m' = cached_ m /\ balancer_ m' = balancer_ m.
Proof.
  intros Hr [(nd & Hq & Hqe) Hfree]. destruct root_path_legal as (Hok & Hb & Hl).
  set (m1 := {| services_path_ := path_of cs; registry_ := registry_ m; balancer_ := balancer_ m; cached_ := cached_ m |}).
  destruct (create_performs qs a (reg m1) z nd) as (w1 & z1 & Hp1 & Ht1); [done..|apply Hfree|].
  assert (ready w1) as Hr1 by exact (performed_ready _ _ (reg m1) w1 z _ z1 Hr Hp1).
  set (root := {| zn_data := []; zn_ephemeral := false |}) in *.
  destruct (create_performs (qs ++ [a]) b w1 z1 root) as (w2 & z2 & Hp2 & Ht2);
    [done|by rewrite <- services_path_split|by rewrite <- services_path_split|by rewrite Ht1, lookup_insert_eq|done| |].
  { rewrite Ht1, lookup_insert_ne by (symmetry; apply snoc_ne). rewrite <- app_assoc. apply Hfree. }
  rewrite <- services_path_split in Hp2, Ht2.
  exists (with_registry w2 m1), z2.
  assert (performs respond 2 (init_zk_paths (path_of cs)) m z tt (with_registry w2 m1) z2) as Hp.
  { apply (performs_bind respond 0 2 _ _ m z tt m1 z); [by apply performs_silent; [..|apply Hr]|].
    rewrite split_services by done.
    eapply (performs_bind respond 1 1); [by apply (lift_performs _ _ m1)|].
    eapply performs_result; [|done].
    change (with_registry w2 m1) with (with_registry w2 (with_registry w1 m1)). by apply lift_performs. }
  split_and!; [done| |done..]. pose proof (performed_ready _ _ _ _ _ _ _ Hr Hp) as Hr'.
  split; [apply Hr'|apply Hr'|apply Hr'|done|exists root|intros n|intros n n'|done].
  - by rewrite Ht2, lookup_insert_eq.
  - rewrite Ht2, lookup_insert_ne by (symmetry; apply snoc_ne).
    rewrite Ht1, lookup_insert_ne.
    + unfold cs. rewrite <- app_assoc. cbn [app]; rewrite (Hfree (b :: [n])); done.
    + unfold cs. rewrite <- app_assoc. intros E. apply app_inv_head in E. done.
  - rewrite Ht2, lookup_insert_ne.
    + rewrite Ht1, lookup_insert_ne.
      * unfold cs. rewrite <- !app_assoc. apply Hfree.
      * unfold cs. rewrite <- !app_assoc. intros E. by apply app_inv_head in E.
    + intros E. apply (f_equal length) in E. rewrite !length_app in E. cbn in E. lia.
Qed.

(** On a stopped [io_context] the manager waits for ever, and asks nothing. *)
Lemma discover_stalls m z regs rnds fuel :
  reg_connected (reg m) = true -> ios_stopped (reg m) = true -> component_ok b ->
  exists m', online respond fuel (discover (path_of cs) regs rnds) [] m z = Polling (m', z) /\
    sent (client_of m') = sent (client_of m).
Proof.
  intros Hc Hs Hb.
  assert (exists m', discover (path_of cs) regs rnds (with_ios [] m) = Polling m' /\ ios_stopped (reg m') = true /\
    sent (client_of m') = sent (client_of m)) as (m' & E & Hs' & Hm').
  { assert (stalls (create_persistent_node (path_of (qs ++ [a])))) as Hst
      by (unfold create_persistent_node, create; auto with stalls).
    destruct (Hst (reg (with_ios [] m))) as (w' & E & Hw & Hsent); [by rewrite reg_with_ios..|].
    exists (with_registry w' {| services_path_ := path_of cs; registry_ := registry_ (with_ios [] m);
      balancer_ := balancer_ m; cached_ := cached_ m |}). split; [|done].
    unfold discover, init_zk_paths. rewrite split_services by done.
    unfold mbind, prog_bind, set_services_path, on_registry. cbn -[create_persistent_node path_of].
    cbn in E. by rewrite E. }
  exists m'. split; [|done]. destruct fuel; cbn [online]; rewrite E, ?Hs'; done.
Qed.
Lemma register_all_performs regs m z d :
  holds cs m z d -> Forall (fun e => entry_ok cs e.1 e.2 /\ d !! e.1 = None) regs -> NoDup regs.*1 ->
  exists m' z', performs respond (length regs) (register_all regs) m z (replicate (length regs) true) m' z' /\
    holds cs m' z' (list_to_map regs ∪ d) /\ cached_ m' = cached_ m /\ balancer_ m' = balancer_ m.
Proof.
  intros Hm Hf. revert m z d Hm Hf. induction regs as [|[n ad] regs IH]; intros m z d Hm Hf Hnd.
  - exists m, z. split_and!; [apply performs_ret, Hm|by rewrite list_to_map_nil, (left_id_L ∅ (∪))|done..].
  - apply Forall_cons in Hf as [[He Hn] Hf]. apply NoDup_cons in Hnd as [Hni Hnd]. cbn [fst snd] in *.
    destruct (register_node_performs cs services_path_legal m z d n ad 1 Hm He) as (m1 & z1 & Hp & Hm1 & Hc & Hb).
    rewrite decide_True in Hm1 by done. rewrite bool_decide_eq_true_2 in Hp by done.
    destruct (IH m1 z1 _ Hm1) as (m' & z' & Hp' & Hm' & Hc' & Hb'); [|done|].
    { rewrite Forall_forall in *. intros [n' a'] Hin. destruct (Hf _ Hin) as [? Hd]. split; [done|].
      rewrite lookup_insert_ne; [done|]. intros ->. apply Hni. apply list_elem_of_fmap. by exists (n', a'). }
    exists m', z'. split_and!; [|clear Hp Hp'|congruence..].
    + eapply (performs_bind respond 1 (length regs)); [exact Hp|]. by eapply performs_result.
    + rewrite list_to_map_cons. rewrite <- insert_union_l.
      rewrite <- insert_union_r in Hm' by by apply not_elem_of_list_to_map. done.
Qed.
End fresh.

Lemma select_nodes_cached r rnds m :
  cached_ m <> [] ->
  select_nodes (r :: rnds) m = (balancer_select r ≫= fun e => select_nodes rnds ≫= fun es => mret (e :: es)) m.
Proof. intros Hc. cbn [select_nodes]. unfold mbind, prog_bind, select_node. by destruct (cached_ m). Qed.

Lemma select_nodes_refreshes r rnds m :
  cached_ m = [] ->
  select_nodes (r :: rnds) m =
  (refresh_nodes ≫= fun _ => balancer_select r ≫= fun e => select_nodes rnds ≫= fun es => mret (e :: es)) m.
Proof.
  intros Hc. cbn [select_nodes]. unfold mbind, prog_bind, select_node. rewrite Hc.
  unfold mbind, prog_bind. by destruct (refresh_nodes m).
Qed.

(** Selecting as often as there are entries, from an empty cache. *)
Lemma select_performs cs (Hcs : cs <> [] /\ Forall component_ok cs) m z d rnds c :
  holds cs m z d -> dir_fits d -> services_path_ok cs -> cached_ m = [] ->
  strategy_ (balancer_ m) = RoundRobinStrategy c -> rnds <> [] -> length rnds = size d ->
  exists m' z' es, performs respond (Datatypes.S (size d)) (select_nodes rnds) m z es m' z' /\
    es ≡ₚ dir_endpoints d /\ holds cs m' z' d.
Proof.
  intros Hm Hf Hl Hca Hst Hne Hlen.
  destruct (refresh_performs cs Hcs m z d Hm Hf Hl) as (m1 & z1 & eps & Hp & He & Hm1 & Hc1 & Hb1).
  assert (length eps = size d) as Hle.
  { rewrite He. unfold dir_endpoints. by rewrite length_fmap, length_map_to_list. }
  assert (eps <> []) as Hep by (intros ->; cbn in Hle; destruct rnds; [done|cbn in Hlen; lia]).
  assert (len eps < 2 ^ 64) as Hsz.
  { destruct (names_size_sized (dir_names d)) as [Hn _]; [unfold dir_fits in Hf; lia|].
    unfold dir_names, len in *. rewrite length_fmap, length_map_to_list in Hn. rewrite Hle. lia. }
  assert (balancer_ m1 = {| strategy_ := RoundRobinStrategy 0; nodes_ := eps |}) as Eb.
  { rewrite Hb1. destruct (balancer_ m) as [st old]. cbn in Hst. subst st. apply set_nodes_round_robin. }
  set (m2 := {| services_path_ := services_path_ m1; registry_ := registry_ m1;
                balancer_ := {| strategy_ := RoundRobinStrategy (len eps); nodes_ := eps |}; cached_ := cached_ m1 |}).
  assert (forall evs, select_nodes rnds (with_ios evs m1) = Returned eps (with_ios evs m2)) as Hsel.
  { intros evs. rewrite (select_nodes_many rnds (with_ios evs m1) eps
      {| strategy_ := RoundRobinStrategy (len eps); nodes_ := eps |}); [reflexivity|cbn; congruence|].
    cbn. rewrite Eb. apply round_robin_round; [done|congruence|done]. }
  exists m2, z1, eps. split_and!; [|done|by destruct Hm1; split].
  destruct rnds as [|r rnds]; [done|].
  eapply (performs_ext _ _ (refresh_nodes ≫= fun _ => balancer_select r ≫= fun e =>
    select_nodes rnds ≫= fun es => mret (e :: es))).
  - intros evs. symmetry. by apply select_nodes_refreshes.
  - rewrite <- (Nat.add_0_r (Datatypes.S (size d))). eapply performs_bind; [exact Hp|].
    apply performs_silent; [|done|done|done|apply Hm1]. intros evs. rewrite <- Hsel. symmetry.
    apply select_nodes_cached. cbn. congruence.
Qed.

(** The manager once the server has answered its handshake. *)
Lemma connected_manager guarded tm r :
  connect_response_wf r -> len (connect_response_bytes r) < 2 ^ 31 ->
  exists m, NodeManager.connect tm None (NodeManager_init guarded (handshake_answered r)) = Returned true m /\
    (guarded = true -> ready (reg m)) /\ (guarded = false -> ios_stopped (reg m) = true) /\
    reg_connected (reg m) = true /\ cached_ m = [] /\ strategy_ (balancer_ m) = RoundRobinStrategy 0.
Proof.
  intros Hr Hl. unfold NodeManager.connect, on_registry, ServiceRegistry.connect.
  cbn [registry_ NodeManager_init client_ reg_connected ios_ ios_stopped].
  rewrite <- (app_nil_r (handshake_answered r)), handshake_run by (first [by left|done]).
  eexists. split; [reflexivity|]. split_and!; try done; intros ->; [|done]. by repeat split.
Qed.

End session.

Section selected.
Context {S : Type} `{ZooKeeper S}.
Implicit Types (d : gmap str str) (z : S) (w : registry) (m : NodeManager).

(** C15: what is registered is found, if the caller keeps the [io_context] at work.
    A new manager connects to a ZooKeeper server that has nothing under the services
    root, creates the services path, registers any list of instances under distinct
    names, and selects as often as it has registered: with the server answering
    every request as ZooKeeper does, and a work guard or other work on the
    [io_context], connecting and each registration succeed, the selections return
    each registered instance exactly once, under its name and address, and the
    directory on the server is the registered map.  On an [io_context] of its own,
    without a guard, connecting succeeds too, but its last handler stops the
    [io_context]: the manager then polls for ever in [init_zk_paths] and no request
    reaches the server. *)
Theorem registered_instances_are_selected tm r qs a b regs rnds z fuel :
  connect_response_wf r -> len (connect_response_bytes r) < 2 ^ 31 ->
  Forall component_ok (qs ++ [a; b]) -> services_path_ok (qs ++ [a; b]) -> unused qs a z ->
  NoDup regs.*1 -> Forall (fun e => entry_ok (qs ++ [a; b]) e.1 e.2) regs -> dir_fits (list_to_map regs) ->
  regs <> [] -> length rnds = length regs -> (2 * length regs + 3 <= fuel)%nat ->
  let start guarded := NodeManager.connect tm None (NodeManager_init guarded (handshake_answered r)) in
  let run := online respond fuel (discover (path_of (qs ++ [a; b])) regs rnds) [] in
  (exists m m' z' es, start true = Returned true m /\
     run m z = Returned (replicate (length regs) true, es) (m', z') /\
     es ≡ₚ entry_endpoint <$> regs /\ holds (qs ++ [a; b]) m' z' (list_to_map regs)) /\
  (exists m m', start false = Returned true m /\
     run m z = Polling (m', z) /\ sent (client_of m') = sent (client_of m)).
Proof.
  intros Hr Hrl Hcs Hp Hun Hnd He Hf Hne Hlen Hfuel start run. split.
  2: { destruct (connected_manager false tm r Hr Hrl) as (m & Ec & _ & Hs & Hc & _).
       destruct (discover_stalls qs a b Hcs Hp m z regs rnds fuel Hc (Hs eq_refl)) as (m' & E & Hsent); [|by exists m, m'].
       rewrite Forall_app in Hcs. destruct Hcs as [_ Hcs]. apply Forall_cons in Hcs as [_ Hcs]. by apply Forall_cons in Hcs as [Hb _]. }
  destruct (connected_manager true tm r Hr Hrl) as (m & Ec & Hready & _ & _ & Hca & Hst).
  specialize (Hready eq_refl). exists m.
  assert (qs ++ [a; b] <> [] /\ Forall component_ok (qs ++ [a; b])) as Hcs' by (split; [by destruct qs|done]).
  destruct (init_performs qs a b Hcs Hp m z Hready Hun) as (m1 & z1 & Hp1 & Hm1 & Hc1 & Hb1).
  destruct (register_all_performs qs a b Hcs Hp regs m1 z1 ∅ Hm1) as (m2 & z2 & Hp2 & Hm2 & Hc2 & Hb2); [|done|].
  { eapply Forall_impl; [exact He|]. intros e ?. by split. }
  rewrite (right_id_L ∅ (∪)) in Hm2.
  assert (size (list_to_map regs : gmap str str) = length regs) as Hsz.
  { rewrite <- length_map_to_list. by rewrite map_to_list_to_map. }
  destruct (select_performs _ Hcs' m2 z2 _ rnds 0 Hm2 Hf Hp) as (m3 & z3 & es & Hp3 & Hes & Hm3).
  - congruence.
  - by rewrite Hb2, Hb1.
  - intros ->. by destruct regs.
  - by rewrite Hsz.
  - assert (performs respond (2 + (length regs + Datatypes.S (length regs)))
      (discover (path_of (qs ++ [a; b])) regs rnds) m z (replicate (length regs) true, es) m3 z3) as Hall.
    { eapply performs_bind; [exact Hp1|]. eapply performs_bind; [exact Hp2|].
      eapply performs_result; [|reflexivity]. by rewrite <- Hsz. }
    exists (with_ios [] m3), z3, es. split; [done|]. split; [apply (performs_online _ _ _ _ _ _ _ _ _ Hall); lia|].
    split; [|by apply holds_with_ios]. rewrite Hes. unfold dir_endpoints. by rewrite map_to_list_to_map.
Qed.
End selected.

(** An empty server, and two providers. *)
Definition empty_server : tree := {[ [] := {| zn_data := []; zn_ephemeral := false |} ]}.
Definition session_granted : connect_response :=
  {| cs_protocol_version := 0; cs_timeout_ms := 4000; cs_session_id := 77; cs_passwd := zeros 16; cs_read_only := false |}.
Definition two_providers : list (str * str) :=
  [(bs "node-1", bs "10.0.0.5:9000"); (bs "node-2", bs "10.0.0.6:9000")].

Lemma registered_instances_are_selected_witness :
  (exists m m' z' es, NodeManager.connect 4000 None (NodeManager_init true (handshake_answered session_granted)) =
      Returned true m /\
    online respond 7 (discover (bs "/rpc/services") two_providers [0; 0]) [] m empty_server =
      Returned ([true; true], es) (m', z') /\
    es ≡ₚ [{| name := bs "node-1"; address := bs "10.0.0.5:9000"; weight := 1 |};
            {| name := bs "node-2"; address := bs "10.0.0.6:9000"; weight := 1 |}]) /\
  (exists m m', NodeManager.connect 4000 None (NodeManager_init false (handshake_answered session_granted)) =
      Returned true m /\
    online respond 7 (discover (bs "/rpc/services") two_providers [0; 0]) [] m empty_server =
      Polling (m', empty_server)).
Proof.
  destruct (registered_instances_are_selected 4000 session_granted [] (bs "rpc") (bs "services") two_providers [0; 0]
    empty_server 7) as [(m & m' & z' & es & Ec & E & Hes & _) (m2 & m2' & Ec2 & E2 & _)].
  - by vm_compute.
  - by vm_compute.
  - apply (bool_decide_unpack _). by vm_compute.
  - by vm_compute.
  - split; [by eexists|]. intros l. by apply lookup_singleton_ne.
  - apply (bool_decide_unpack _). by vm_compute.
  - apply (bool_decide_unpack _). by vm_compute.
  - by vm_compute.
  - done.
  - done.
  - cbn. lia.
  - split; [exists m, m', z', es; exact (conj Ec (conj E Hes))|exists m2, m2'; exact (conj Ec2 E2)].
Defined.

(** A server with one provider, and a connected manager. *)
Definition services : list str := [bs "rpc"; bs "services"].
Definition one_provider : tree :=
  <[services ++ [bs "node-1"] := {| zn_data := bs "10.0.0.5:9000"; zn_ephemeral := true |}]>
    {[ services := {| zn_data := []; zn_ephemeral := false |} ]}.
Definition connected_to_it : NodeManager :=
  {| services_path_ := bs "/rpc/services";
     registry_ := {| client_ := zk_client_init; reg_connected := true; ios_ := []; ios_guarded := true; ios_stopped := false |};
     balancer_ := LoadBalancer_init; cached_ := [] |}.

Lemma one_provider_holds :
  holds services connected_to_it one_provider {[ bs "node-1" := bs "10.0.0.5:9000" ]}.
Proof.
  split; [exact init_idle|done|done|done|by eexists|intros n|intros n n'|].
  - cbn [data_tree memory_zookeeper]. unfold one_provider. destruct (decide (n = bs "node-1")) as [->|Hne]; [done|].
    rewrite lookup_insert_ne by (intros E; by apply app_inj_tail in E as [_ E]).
    rewrite (lookup_singleton_ne (bs "node-1")) by done. by rewrite lookup_singleton_ne.
  - cbn [data_tree memory_zookeeper]. unfold one_provider. rewrite lookup_insert_ne by done.
    by rewrite lookup_singleton_ne.
  - apply map_Forall_singleton. apply (bool_decide_unpack _). by vm_compute.
Qed.

Lemma manager_refines_directory_witness :
  (exists m' z', online respond 2 (register_node (bs "node-1") (bs "other") 1) [] connected_to_it one_provider =
     Returned false (m', z') /\ holds services m' z' {[ bs "node-1" := bs "10.0.0.5:9000" ]}) /\
  (exists m' z', online respond 2 (unregister_node (bs "node-1")) [] connected_to_it one_provider =
     Returned true (m', z') /\ holds services m' z' ∅).
Proof.
  destruct (manager_refines_directory services ltac:(split; [done|apply (bool_decide_unpack _); by vm_compute])
    2 connected_to_it one_provider {[ bs "node-1" := bs "10.0.0.5:9000" ]} one_provider_holds) as (Hreg & Hunreg & _).
  - by vm_compute.
  - by vm_compute.
  - apply Nat.ltb_lt. by vm_compute.
  - split.
    + destruct (Hreg (bs "node-1") (bs "other") 1) as (m' & z' & E & Hh & _);
        [apply (bool_decide_unpack _); by vm_compute|]. exists m', z'. exact (conj E Hh).
    + destruct (Hunreg (bs "node-1")) as (m' & z' & E & Hh & _); [apply (bool_decide_unpack _); by vm_compute|].
      exists m', z'. exact (conj E Hh).
Defined.
