(* ===== verification/Config.v ===== *)
(** * Configuration: [src/load_config/load_config.h/.cpp]

    The JSON library is a parameter: a document, [contains], [operator[]] of a
    contained key and the instances of [value(key, default)] the code uses.  What
    the code relies on is the class [JsonLaws]. *)
From S2P Require Import Prelude Text.

(** ** The JSON library *)

Class Json (J : Type) := {
  json_parse : str -> option J;                     (* [None]: parse_error *)
  json_contains : J -> str -> bool;
  json_at : J -> str -> J;
  value_string : J -> str -> str -> outcome str;
  value_u16 : J -> str -> Z -> outcome Z;
  value_int : J -> str -> Z -> outcome Z;
  value_bool : J -> str -> bool -> outcome bool;
  json_is_object : J -> bool
}.

(** [value] of an object without the key is the default. *)
Class JsonLaws (J : Type) `{Json J} := {
  value_string_default j k d :
    json_is_object j = true -> json_contains j k = false -> value_string j k d = Ok d;
  value_u16_default j k d :
    json_is_object j = true -> json_contains j k = false -> value_u16 j k d = Ok d;
  value_int_default j k d :
    json_is_object j = true -> json_contains j k = false -> value_int j k d = Ok d;
  value_bool_default j k d :
    json_is_object j = true -> json_contains j k = false -> value_bool j k d = Ok d
}.

(** ** The structures and their default values *)

Record ServerConfig := {
  srv_host : str; srv_port : Z; thread_pool_size : Z; max_connections : Z; socket_timeout_ms : Z
}.
Definition ServerConfig_default : ServerConfig :=
  {| srv_host := bs "0.0.0.0"; srv_port := 8080; thread_pool_size := 8; max_connections := 10000;
     socket_timeout_ms := 5000 |}.

Record ZkConfig := {
  zk_host : str; zk_port : Z; session_timeout_ms : Z; root_path : str; services_path : str
}.
Definition ZkConfig_default : ZkConfig :=
  {| zk_host := bs "127.0.0.1"; zk_port := 2181; session_timeout_ms := 4000;
     root_path := bs "/rpc"; services_path := bs "/rpc/services" |}.

Record LogConfig := {
  log_dir : str; log_file : str; log_level : str; max_file_size_mb : Z; max_files : Z
}.
Definition LogConfig_default : LogConfig :=
  {| log_dir := bs "logs"; log_file := bs "rpc.log"; log_level := bs "info"; max_file_size_mb := 10;
     max_files := 5 |}.

Record SerializerConfig := { ser_type : str }.
Definition SerializerConfig_default : SerializerConfig := {| ser_type := bs "protobuf" |}.

Record CompressConfig := { cmp_enable : bool; threshold : Z; cmp_level : Z }.
Definition CompressConfig_default : CompressConfig :=
  {| cmp_enable := true; threshold := 256; cmp_level := 3 |}.

Record EncryptConfig := { enc_enable : bool; public_key_path : str; private_key_path : str }.
Definition EncryptConfig_default : EncryptConfig :=
  {| enc_enable := false; public_key_path := []; private_key_path := [] |}.

Record BalancerConfig := { strategy : str }.
Definition BalancerConfig_default : BalancerConfig := {| strategy := bs "round_robin" |}.

Record Config := {
  server : ServerConfig; zk : ZkConfig; log : LogConfig; serializer : SerializerConfig;
  compress : CompressConfig; encrypt : EncryptConfig; balancer : BalancerConfig
}.
Definition Config_default : Config :=
  {| server := ServerConfig_default; zk := ZkConfig_default; log := LogConfig_default;
     serializer := SerializerConfig_default; compress := CompressConfig_default;
     encrypt := EncryptConfig_default; balancer := BalancerConfig_default |}.

(** ** The summary: [print_config] *)

Definition newline : str := [chr 10].

(** The lambdas [sep], [hdr] and [kv]. *)
Definition sep : str := newline ++ bs "──────────────────────────────────────────" ++ newline.
Definition hdr (title : string) : str := bs "  " ++ bs title.
Definition kv (key : string) (val : str) : str :=
  bs "    " ++ pad_right 24 (bs key) ++ val ++ newline.

Definition bool_string (b : bool) : str := if b then bs "true" else bs "false".
Definition or_empty (s : str) : str := match s with [] => bs "(empty)" | _ => s end.

Definition print_config (cfg : Config) : str :=
  bs "┌─────────────────────────────────────────┐" ++ newline ++
  bs "│  RPC Server Configuration               │" ++ newline ++
  bs "├─────────────────────────────────────────┤" ++ newline ++
  hdr "▶ Server" ++ newline ++
  kv "host" (srv_host (server cfg)) ++
  kv "port" (int_string (srv_port (server cfg))) ++
  kv "thread_pool_size" (int_string (thread_pool_size (server cfg))) ++
  kv "max_connections" (int_string (max_connections (server cfg))) ++
  kv "socket_timeout_ms" (int_string (socket_timeout_ms (server cfg))) ++
  sep ++ hdr "▶ ZooKeeper" ++ newline ++
  kv "host" (zk_host (zk cfg)) ++
  kv "port" (int_string (zk_port (zk cfg))) ++
  kv "session_timeout_ms" (int_string (session_timeout_ms (zk cfg))) ++
  kv "root_path" (root_path (zk cfg)) ++
  kv "services_path" (services_path (zk cfg)) ++
  sep ++ hdr "▶ Log" ++ newline ++
  kv "dir" (log_dir (log cfg)) ++
  kv "file" (log_file (log cfg)) ++
  kv "level" (log_level (log cfg)) ++
  kv "max_file_size_mb" (int_string (max_file_size_mb (log cfg))) ++
  kv "max_files" (int_string (max_files (log cfg))) ++
  sep ++ hdr "▶ Serializer" ++ newline ++
  kv "type" (ser_type (serializer cfg)) ++
  sep ++ hdr "▶ Compress" ++ newline ++
  kv "enable" (bool_string (cmp_enable (compress cfg))) ++
  kv "threshold" (int_string (threshold (compress cfg))) ++
  kv "level" (int_string (cmp_level (compress cfg))) ++
  sep ++ hdr "▶ Encrypt" ++ newline ++
  kv "enable" (bool_string (enc_enable (encrypt cfg))) ++
  kv "public_key_path" (or_empty (public_key_path (encrypt cfg))) ++
  kv "private_key_path" (or_empty (private_key_path (encrypt cfg))) ++
  sep ++ hdr "▶ Balancer" ++ newline ++
  kv "strategy" (strategy (balancer cfg)) ++
  bs "└─────────────────────────────────────────┘" ++ newline.

Section parsing.
Context {J : Type} `{Json J}.

(** ** Sections of the document *)

Definition parse_server (j : J) : outcome ServerConfig :=
  let c := ServerConfig_default in
  host ← value_string j (bs "host") (srv_host c);
  port ← value_u16 j (bs "port") (srv_port c);
  pool ← value_int j (bs "thread_pool_size") (thread_pool_size c);
  conns ← value_int j (bs "max_connections") (max_connections c);
  tmo ← value_int j (bs "socket_timeout_ms") (socket_timeout_ms c);
  Ok {| srv_host := host; srv_port := port; thread_pool_size := pool; max_connections := conns;
        socket_timeout_ms := tmo |}.

Definition parse_zk (j : J) : outcome ZkConfig :=
  let c := ZkConfig_default in
  host ← value_string j (bs "host") (zk_host c);
  port ← value_u16 j (bs "port") (zk_port c);
  tmo ← value_int j (bs "session_timeout_ms") (session_timeout_ms c);
  root ← value_string j (bs "root_path") (root_path c);
  svcs ← value_string j (bs "services_path") (services_path c);
  Ok {| zk_host := host; zk_port := port; session_timeout_ms := tmo; root_path := root;
        services_path := svcs |}.

Definition parse_log (j : J) : outcome LogConfig :=
  let c := LogConfig_default in
  dir ← value_string j (bs "dir") (log_dir c);
  file ← value_string j (bs "file") (log_file c);
  level ← value_string j (bs "level") (log_level c);
  size ← value_int j (bs "max_file_size_mb") (max_file_size_mb c);
  files ← value_int j (bs "max_files") (max_files c);
  Ok {| log_dir := dir; log_file := file; log_level := level; max_file_size_mb := size;
        max_files := files |}.

Definition parse_serializer (j : J) : outcome SerializerConfig :=
  let c := SerializerConfig_default in
  ty ← value_string j (bs "type") (ser_type c);
  Ok {| ser_type := ty |}.

Definition parse_compress (j : J) : outcome CompressConfig :=
  let c := CompressConfig_default in
  enable ← value_bool j (bs "enable") (cmp_enable c);
  th ← value_int j (bs "threshold") (threshold c);
  level ← value_int j (bs "level") (cmp_level c);
  Ok {| cmp_enable := enable; threshold := th; cmp_level := level |}.

Definition parse_encrypt (j : J) : outcome EncryptConfig :=
  let c := EncryptConfig_default in
  enable ← value_bool j (bs "enable") (enc_enable c);
  pub ← value_string j (bs "public_key_path") (public_key_path c);
  priv ← value_string j (bs "private_key_path") (private_key_path c);
  Ok {| enc_enable := enable; public_key_path := pub; private_key_path := priv |}.

Definition parse_balancer (j : J) : outcome BalancerConfig :=
  let c := BalancerConfig_default in
  s ← value_string j (bs "strategy") (strategy c);
  Ok {| strategy := s |}.

(** [if (j.contains(k)) cfg.k = parse(j[k]);] *)
Definition section {C} (j : J) (k : str) (parse : J -> outcome C) (dflt : C) : outcome C :=
  if json_contains j k then parse (json_at j k) else Ok dflt.

(** [load_config] of a path: does the file exist, and what does it hold.  Only
    [parse_error] is caught. *)
Definition load_config (file : option str) : outcome Config :=
  let cfg := Config_default in
  match file with
  | None => Ok cfg
  | Some contents =>
      match json_parse contents with
      | None => Ok cfg
      | Some j =>
          srv ← section j (bs "server") parse_server (server cfg);
          z ← section j (bs "zk") parse_zk (zk cfg);
          lg ← section j (bs "log") parse_log (log cfg);
          ser ← section j (bs "serializer") parse_serializer (serializer cfg);
          cmp ← section j (bs "compress") parse_compress (compress cfg);
          enc ← section j (bs "encrypt") parse_encrypt (encrypt cfg);
          bal ← section j (bs "balancer") parse_balancer (balancer cfg);
          Ok {| server := srv; zk := z; log := lg; serializer := ser; compress := cmp;
                encrypt := enc; balancer := bal |}
      end
  end.

(** ** Reference: one setting of the document *)

(** The value the document gives [sec.key], or the default. *)
Definition setting {A} (value : J -> str -> A -> outcome A) (j : J) (sec key : string) (d : A)
    : outcome A :=
  if json_contains j (bs sec) then value (json_at j (bs sec)) (bs key) d else Ok d.

(** What the whole document says. *)
Record configured (j : J) (cfg : Config) : Prop := {
  set_srv_host : setting value_string j "server" "host" (bs "0.0.0.0") = Ok (srv_host (server cfg));
  set_srv_port : setting value_u16 j "server" "port" 8080 = Ok (srv_port (server cfg));
  set_pool : setting value_int j "server" "thread_pool_size" 8 = Ok (thread_pool_size (server cfg));
  set_conns : setting value_int j "server" "max_connections" 10000 = Ok (max_connections (server cfg));
  set_tmo : setting value_int j "server" "socket_timeout_ms" 5000 = Ok (socket_timeout_ms (server cfg));
  set_zk_host : setting value_string j "zk" "host" (bs "127.0.0.1") = Ok (zk_host (zk cfg));
  set_zk_port : setting value_u16 j "zk" "port" 2181 = Ok (zk_port (zk cfg));
  set_zk_tmo : setting value_int j "zk" "session_timeout_ms" 4000 = Ok (session_timeout_ms (zk cfg));
  set_root : setting value_string j "zk" "root_path" (bs "/rpc") = Ok (root_path (zk cfg));
  set_services : setting value_string j "zk" "services_path" (bs "/rpc/services") = Ok (services_path (zk cfg));
  set_dir : setting value_string j "log" "dir" (bs "logs") = Ok (log_dir (log cfg));
  set_file : setting value_string j "log" "file" (bs "rpc.log") = Ok (log_file (log cfg));
  set_level : setting value_string j "log" "level" (bs "info") = Ok (log_level (log cfg));
  set_size : setting value_int j "log" "max_file_size_mb" 10 = Ok (max_file_size_mb (log cfg));
  set_files : setting value_int j "log" "max_files" 5 = Ok (max_files (log cfg));
  set_type : setting value_string j "serializer" "type" (bs "protobuf") = Ok (ser_type (serializer cfg));
  set_cmp : setting value_bool j "compress" "enable" true = Ok (cmp_enable (compress cfg));
  set_threshold : setting value_int j "compress" "threshold" 256 = Ok (threshold (compress cfg));
  set_cmp_level : setting value_int j "compress" "level" 3 = Ok (cmp_level (compress cfg));
  set_enc : setting value_bool j "encrypt" "enable" false = Ok (enc_enable (encrypt cfg));
  set_pub : setting value_string j "encrypt" "public_key_path" [] = Ok (public_key_path (encrypt cfg));
  set_priv : setting value_string j "encrypt" "private_key_path" [] = Ok (private_key_path (encrypt cfg));
  set_strategy : setting value_string j "balancer" "strategy" (bs "round_robin") = Ok (strategy (balancer cfg))
}.

(** ** Lemmas *)

(** Each section, setting by setting. *)
Ltac section_spec parse :=
  intros; unfold section, setting, parse; destruct (json_contains _ _); split;
  [ intros E; repeat (let a := fresh "a" in let Ea := fresh "Ea" in
      apply bind_ok_inv in E as (a & Ea & E)); injection E as <-; by split_and?
  | intros Hs; destruct_and?; repeat (erewrite bind_ok by eassumption); by match goal with
      |- Ok ?r = Ok ?c => destruct c end
  | intros [= <-]; by split_and?
  | intros Hs; destruct_and?; match goal with |- Ok _ = Ok ?c => destruct c end; cbn in *; simplify_eq;
    done ].

Lemma server_section j c :
  section j (bs "server") parse_server ServerConfig_default = Ok c <->
  setting value_string j "server" "host" (bs "0.0.0.0") = Ok (srv_host c) /\
  setting value_u16 j "server" "port" 8080 = Ok (srv_port c) /\
  setting value_int j "server" "thread_pool_size" 8 = Ok (thread_pool_size c) /\
  setting value_int j "server" "max_connections" 10000 = Ok (max_connections c) /\
  setting value_int j "server" "socket_timeout_ms" 5000 = Ok (socket_timeout_ms c).
Proof. section_spec parse_server. Qed.

Lemma zk_section j c :
  section j (bs "zk") parse_zk ZkConfig_default = Ok c <->
  setting value_string j "zk" "host" (bs "127.0.0.1") = Ok (zk_host c) /\
  setting value_u16 j "zk" "port" 2181 = Ok (zk_port c) /\
  setting value_int j "zk" "session_timeout_ms" 4000 = Ok (session_timeout_ms c) /\
  setting value_string j "zk" "root_path" (bs "/rpc") = Ok (root_path c) /\
  setting value_string j "zk" "services_path" (bs "/rpc/services") = Ok (services_path c).
Proof. section_spec parse_zk. Qed.

Lemma log_section j c :
  section j (bs "log") parse_log LogConfig_default = Ok c <->
  setting value_string j "log" "dir" (bs "logs") = Ok (log_dir c) /\
  setting value_string j "log" "file" (bs "rpc.log") = Ok (log_file c) /\
  setting value_string j "log" "level" (bs "info") = Ok (log_level c) /\
  setting value_int j "log" "max_file_size_mb" 10 = Ok (max_file_size_mb c) /\
  setting value_int j "log" "max_files" 5 = Ok (max_files c).
Proof. section_spec parse_log. Qed.

Lemma serializer_section j c :
  section j (bs "serializer") parse_serializer SerializerConfig_default = Ok c <->
  setting value_string j "serializer" "type" (bs "protobuf") = Ok (ser_type c).
Proof. section_spec parse_serializer. Qed.

Lemma compress_section j c :
  section j (bs "compress") parse_compress CompressConfig_default = Ok c <->
  setting value_bool j "compress" "enable" true = Ok (cmp_enable c) /\
  setting value_int j "compress" "threshold" 256 = Ok (threshold c) /\
  setting value_int j "compress" "level" 3 = Ok (cmp_level c).
Proof. section_spec parse_compress. Qed.

Lemma encrypt_section j c :
  section j (bs "encrypt") parse_encrypt EncryptConfig_default = Ok c <->
  setting value_bool j "encrypt" "enable" false = Ok (enc_enable c) /\
  setting value_string j "encrypt" "public_key_path" [] = Ok (public_key_path c) /\
  setting value_string j "encrypt" "private_key_path" [] = Ok (private_key_path c).
Proof. section_spec parse_encrypt. Qed.

Lemma balancer_section j c :
  section j (bs "balancer") parse_balancer BalancerConfig_default = Ok c <->
  setting value_string j "balancer" "strategy" (bs "round_robin") = Ok (strategy c).
Proof. section_spec parse_balancer. Qed.
Lemma load_config_iff contents j cfg :
  json_parse contents = Some j -> load_config (Some contents) = Ok cfg <-> configured j cfg.
Proof.
  intros Hj. unfold load_config. rewrite Hj. split.
  - intros E. repeat (let a := fresh "a" in let Ea := fresh "Ea" in apply bind_ok_inv in E as (a & Ea & E)).
    apply server_section in Ea. apply zk_section in Ea0. apply log_section in Ea1.
    apply serializer_section in Ea2. apply compress_section in Ea3. apply encrypt_section in Ea4.
    apply balancer_section in Ea5. injection E as <-. destruct_and?. by split.
  - intros []. rewrite (bind_ok _ _ (server cfg)) by (apply server_section; by split_and!).
    rewrite (bind_ok _ _ (zk cfg)) by (apply zk_section; by split_and!).
    rewrite (bind_ok _ _ (log cfg)) by (apply log_section; by split_and!).
    rewrite (bind_ok _ _ (serializer cfg)) by (by apply serializer_section).
    rewrite (bind_ok _ _ (compress cfg)) by (apply compress_section; by split_and!).
    rewrite (bind_ok _ _ (encrypt cfg)) by (apply encrypt_section; by split_and!).
    rewrite (bind_ok _ _ (balancer cfg)) by (by apply balancer_section). by destruct cfg.
Qed.
End parsing.

(** ** Theorems *)

(** C36: [load_config] gives every setting its value of the document or its
    default.  No file, or one that does not parse: all defaults.  Otherwise the
    result is [cfg] exactly when each of the 23 settings of [cfg] is what the
    document gives under its section and key, the default of that setting standing
    in for a missing section; so a setting of a wrong type, whose [value] throws,
    leaves no result: only parse errors are caught. *)
Theorem load_config_spec {J} `{Json J} (file : option str) :
  match file with
  | None => load_config (J := J) None = Ok Config_default
  | Some contents =>
      match json_parse contents with
      | None => load_config (J := J) (Some contents) = Ok Config_default
      | Some j => forall cfg, load_config (J := J) (Some contents) = Ok cfg <-> configured j cfg
      end
  end.
Proof.
  destruct file as [contents|]; [|done]. destruct (json_parse contents) as [j|] eqn:Hj.
  - intros cfg. by apply load_config_iff.
  - unfold load_config. by rewrite Hj.
Qed.

(** A document whose sections, as far as present, are objects without the keys
    the code reads. *)
Definition says_nothing {J} `{Json J} (j : J) : Prop :=
  forall sec key, json_contains j sec = true ->
    json_is_object (json_at j sec) = true /\ json_contains (json_at j sec) key = false.

(** What the document does not set keeps its default: a document whose
    sections are missing or empty objects is the default configuration. *)
Theorem load_config_defaults {J} `{JsonLaws J} contents j :
  json_parse contents = Some j -> says_nothing j ->
  load_config (J := J) (Some contents) = Ok Config_default.
Proof.
  intros Hj Hn. apply (load_config_iff contents j _ Hj). split; unfold setting; match goal with |- (if json_contains _ ?sec then _ else _) = _ =>
    destruct (json_contains j sec) eqn:E; [|done] end;
    match goal with |- _ (json_at _ ?sec) ?key _ = _ => destruct (Hn sec key E) as [Ho Hk] end;
    first [exact (value_string_default _ _ _ Ho Hk) | exact (value_u16_default _ _ _ Ho Hk)
          | exact (value_int_default _ _ _ Ho Hk) | exact (value_bool_default _ _ _ Ho Hk)].
Qed.

(** ** The summary determines the configuration *)

(** A text that fits on one line. *)
Definition one_line (s : str) : Prop := Forall (fun c => ord c <> 10) s.

Record printable (cfg : Config) : Prop := {
  pr_lines : Forall one_line [srv_host (server cfg); zk_host (zk cfg); root_path (zk cfg);
    services_path (zk cfg); log_dir (log cfg); log_file (log cfg); log_level (log cfg);
    ser_type (serializer cfg); public_key_path (encrypt cfg); private_key_path (encrypt cfg);
    strategy (balancer cfg)];
  pr_ports : Forall (fun n => 0 <= n < 2 ^ 16) [srv_port (server cfg); zk_port (zk cfg)];
  pr_ints : Forall (fun n => - 2 ^ 31 <= n < 2 ^ 31) [thread_pool_size (server cfg);
    max_connections (server cfg); socket_timeout_ms (server cfg); session_timeout_ms (zk cfg);
    max_file_size_mb (log cfg); max_files (log cfg); threshold (compress cfg); cmp_level (compress cfg)];
  pr_paths : public_key_path (encrypt cfg) <> bs "(empty)" /\
             private_key_path (encrypt cfg) <> bs "(empty)"
}.

Lemma line_inj (a b r r' : str) :
  one_line a -> one_line b -> a ++ newline ++ r = b ++ newline ++ r' -> a = b /\ r = r'.
Proof.
  intros Ha Hb E. revert b Hb E. unfold newline. cbn [app].
  induction Ha as [|c a Hc _ IH]; intros b Hb E;
    destruct Hb as [|d b Hd Hb]; cbn [app] in E;
    pose proof (f_equal (hd (chr 0)) E) as Ec; apply (f_equal (@tl ascii)) in E; cbn [hd tl] in *.
  - done.
  - subst. by destruct (Hd eq_refl).
  - subst. by destruct (Hc eq_refl).
  - apply IH in E as [-> ->]; [by subst|done].
Qed.

Lemma kv_inj key a b r r' :
  one_line a -> one_line b -> kv key a ++ r = kv key b ++ r' -> a = b /\ r = r'.
Proof.
  unfold kv. intros Ha Hb E. rewrite <- !app_assoc in E. apply app_inv_head in E.
  apply app_inv_head in E. by apply line_inj in E.
Qed.

Lemma digits_one_line k n : 0 <= n -> one_line (digits k n).
Proof.
  intros Hn. eapply Forall_impl; [by apply digits_digit|]. intros c Hc%andb_true_iff. cbn in Hc.
  destruct Hc as [H1%Z.leb_le _]. lia.
Qed.

Lemma int_one_line n : one_line (int_string n).
Proof.
  unfold int_string. dec; [constructor; [done|]|]; apply digits_one_line; lia.
Qed.

Lemma int_string_inj n m :
  - 2 ^ 31 <= n < 2 ^ 31 -> - 2 ^ 31 <= m < 2 ^ 31 -> int_string n = int_string m -> n = m.
Proof.
  intros Hn Hm E. apply (f_equal stoi) in E. rewrite !stoi_int_string in E by done. by injection E.
Qed.

Lemma bool_one_line b : one_line (bool_string b).
Proof. apply (bool_decide_unpack _). by destruct b; vm_compute. Qed.

Lemma bool_string_inj b c : bool_string b = bool_string c -> b = c.
Proof. by destruct b, c. Qed.

Lemma or_empty_one_line s : one_line s -> one_line (or_empty s).
Proof. intros Hs. destruct s; [|done]. apply (bool_decide_unpack _). by vm_compute. Qed.

Lemma or_empty_inj s t :
  s <> bs "(empty)" -> t <> bs "(empty)" -> or_empty s = or_empty t -> s = t.
Proof. destruct s, t; cbn -[bs]; intros Hs Ht E; congruence. Qed.

(** The printed summary loses nothing.  Two configurations with one-line texts,
    ports in 16 bits and numbers in an [int], neither of which spells a key path
    [(empty)], are equal as soon as their summaries are. *)
Theorem print_config_injective c d :
  printable c -> printable d -> print_config c = print_config d -> c = d.
Proof.
  intros [Lc Pc Ic [? ?]] [Ld Pd Id [? ?]] E.
  repeat match goal with H : Forall _ (_ :: _) |- _ => apply Forall_cons in H as [? H] end.
  unfold print_config in E.
  repeat first
    [ apply kv_inj in E as [? E]; [|by auto using int_one_line, bool_one_line, or_empty_one_line ..]
    | apply app_inv_head in E ].
  repeat match goal with
  | H : int_string _ = int_string _ |- _ => apply int_string_inj in H; [|lia..]
  | H : bool_string _ = bool_string _ |- _ => apply bool_string_inj in H
  | H : or_empty _ = or_empty _ |- _ => apply or_empty_inj in H; [|done..]
  end.
  destruct c as [[] [] [] [] [] [] []], d as [[] [] [] [] [] [] []]; cbn in *. by subst.
Qed.

(** ** A concrete document type: sections of scalars *)

Inductive scalar := JString (s : str) | JInt (z : Z) | JBool (b : bool).

Inductive jvalue :=
  | JDoc (sections : list (str * list (str * scalar)))
  | JSection (fields : list (str * scalar)).

Fixpoint find_field {A} (k : str) (l : list (str * A)) : option A :=
  match l with
  | [] => None
  | (k', v) :: l => if bool_decide (k' = k) then Some v else find_field k l
  end.

Definition type_error {A} : outcome A := Throw (other_std_exception (bs "type_error")).

(** [value(k, d)] with the conversion [conv]; a section is no scalar. *)
Definition jvalue_value {A} (conv : scalar -> option A) (j : jvalue) (k : str) (d : A) : outcome A :=
  match j with
  | JDoc l => match find_field k l with None => Ok d | Some _ => type_error end
  | JSection l =>
      match find_field k l with
      | None => Ok d
      | Some v => match conv v with Some a => Ok a | None => type_error end
      end
  end.

Definition jvalue_has (j : jvalue) (k : str) : bool :=
  match j with
  | JDoc l => match find_field k l with Some _ => true | None => false end
  | JSection l => match find_field k l with Some _ => true | None => false end
  end.

(** Every file holds the same document. *)
Definition fixed_json (doc : option jvalue) : Json jvalue := {|
  json_parse _ := doc;
  json_contains := jvalue_has;
  json_at j k := match j with JDoc l => JSection (default [] (find_field k l)) | _ => j end;
  value_string := jvalue_value (fun v => match v with JString s => Some s | _ => None end);
  value_u16 := jvalue_value (fun v => match v with JInt z => Some (u16 z) | _ => None end);
  value_int := jvalue_value (fun v => match v with JInt z => Some (i32 z) | _ => None end);
  value_bool := jvalue_value (fun v => match v with JBool b => Some b | _ => None end);
  json_is_object j := true
|}.

Lemma fixed_json_laws doc : JsonLaws jvalue (H := fixed_json doc).
Proof.
  split; intros [l|l] k d _; cbn [json_contains jvalue_has fixed_json value_string value_u16 value_int
    value_bool jvalue_value]; by destruct (find_field k l).
Qed.

Definition empty_sections : jvalue := JDoc [(bs "server", []); (bs "zk", [])].

Lemma load_config_defaults_witness :
  load_config (J := jvalue) (H := fixed_json (Some empty_sections)) (Some []) = Ok Config_default.
Proof.
  apply (@load_config_defaults jvalue (fixed_json (Some empty_sections)) (fixed_json_laws _) [] empty_sections).
  - done.
  - intros sec key. cbn. by repeat case_bool_decide.
Defined.

(** A document that sets three keys, and one with a port of the wrong type. *)
Definition some_config : jvalue :=
  JDoc [(bs "server", [(bs "port", JInt 9000); (bs "host", JString (bs "10.0.0.1"))]);
        (bs "balancer", [(bs "strategy", JString (bs "weighted"))])].
Definition bad_config : jvalue := JDoc [(bs "server", [(bs "port", JString (bs "9000"))])].

Example load_config_some :
  load_config (J := jvalue) (H := fixed_json (Some some_config)) (Some []) =
  Ok {| server := {| srv_host := bs "10.0.0.1"; srv_port := 9000; thread_pool_size := 8;
                     max_connections := 10000; socket_timeout_ms := 5000 |};
        zk := ZkConfig_default; log := LogConfig_default; serializer := SerializerConfig_default;
        compress := CompressConfig_default; encrypt := EncryptConfig_default;
        balancer := {| strategy := bs "weighted" |} |}.
Proof. by vm_compute. Qed.

Example load_config_bad :
  load_config (J := jvalue) (H := fixed_json (Some bad_config)) (Some []) = type_error.
Proof. by vm_compute. Qed.

(** The default configuration, and the one whose server listens on 8081. *)
Definition next_port : Config :=
  {| server := {| srv_host := bs "0.0.0.0"; srv_port := 8081; thread_pool_size := 8;
       max_connections := 10000; socket_timeout_ms := 5000 |};
     zk := ZkConfig_default; log := LogConfig_default; serializer := SerializerConfig_default;
     compress := CompressConfig_default; encrypt := EncryptConfig_default;
     balancer := BalancerConfig_default |}.

Lemma default_printable : printable Config_default.
Proof. split; [apply (bool_decide_unpack _); by vm_compute..|done]. Qed.
Lemma next_port_printable : printable next_port.
Proof. split; [apply (bool_decide_unpack _); by vm_compute..|done]. Qed.

Lemma print_config_injective_witness : print_config next_port <> print_config Config_default.
Proof.
  intros E. assert (next_port = Config_default) as Eq.
  { exact (print_config_injective next_port Config_default next_port_printable default_printable E). }
  apply (f_equal (fun c => srv_port (server c))) in Eq. vm_compute in Eq. discriminate Eq.
Defined.
