(* ===== verification/LogInit.v ===== *)
(** * The process logger: [src/load_config/log_init.h/.cpp]

    [init_logger] builds a logger with a console and a file sink once per
    process; [get_logger] initialises it with the defaults when nobody has;
    [set_log_level] changes the logger's level.  Whether a logger or a sink of
    level [t] lets a message of level [l] through is spdlog's decision, the
    parameter [should_log]. *)
From S2P Require Import Prelude.

(** The levels [trace] to [off], in spdlog's order. *)
Inductive level := trace | debug | info | warn | err | critical | off.
Definition level_value (l : level) : Z :=
  match l with
  | trace => 0 | debug => 1 | info => 2 | warn => 3 | err => 4 | critical => 5 | off => 6
  end.

Record sink := { sink_level : level }.

Record logger := {
  console_sink : sink;
  file_sink : sink;
  log_path : str;
  max_size_bytes : Z;
  max_files : Z;
  logger_level : level;
  flush_on : level
}.

(** [g_logger] and [g_init_flag]. *)
Record log_state := { g_logger : option logger; g_init_flag : bool }.
Definition log_state_init : log_state := {| g_logger := None; g_init_flag := false |}.

(** The body of [call_once]: what the logger is built with. *)
Definition make_logger (log_dir log_file : str) (l : level) : logger :=
  {| console_sink := {| sink_level := l |}; file_sink := {| sink_level := l |};
     log_path := log_dir ++ bs "/" ++ log_file;
     max_size_bytes := 1024 * 1024 * 10; max_files := 5; logger_level := l; flush_on := err |}.

(** [dirs] is the outcome of [create_directories] (and of opening the file): an
    exception leaves [call_once], which then counts as not having run. *)
Definition init_logger (dirs : outcome unit) (log_dir log_file : str) (l : level) (s : log_state)
    : outcome unit * log_state :=
  if g_init_flag s then (Ok tt, s)
  else match dirs with
       | Ok _ => (Ok tt, {| g_logger := Some (make_logger log_dir log_file l); g_init_flag := true |})
       | Throw e => (Throw e, s)
       | UB => (UB, s)
       end.

(** [get_logger]: a null [g_logger] is initialised with the default arguments. *)
Definition get_logger (dirs : outcome unit) (s : log_state) : outcome (option logger) * log_state :=
  match g_logger s with
  | Some lg => (Ok (Some lg), s)
  | None =>
      let '(r, s) := init_logger dirs (bs "logs") (bs "rpc.log") info s in
      (match r with Ok _ => Ok (g_logger s) | Throw e => Throw e | UB => UB end, s)
  end.

Definition set_level (l : level) (lg : logger) : logger :=
  {| console_sink := console_sink lg; file_sink := file_sink lg; log_path := log_path lg;
     max_size_bytes := max_size_bytes lg; max_files := max_files lg; logger_level := l;
     flush_on := flush_on lg |}.

(** [get_logger()->set_level(level)] *)
Definition set_log_level (dirs : outcome unit) (l : level) (s : log_state) : outcome unit * log_state :=
  let '(r, s) := get_logger dirs s in
  match r with
  | Ok (Some lg) => (Ok tt, {| g_logger := Some (set_level l lg); g_init_flag := g_init_flag s |})
  | Ok None => (UB, s)
  | Throw e => (Throw e, s)
  | UB => (UB, s)
  end.

Inductive log_op :=
  | LInit (dirs : outcome unit) (log_dir log_file : str) (l : level)
  | LGet (dirs : outcome unit)
  | LSetLevel (dirs : outcome unit) (l : level).

Definition log_step (s : log_state) (op : log_op) : log_state :=
  match op with
  | LInit dirs d f l => (init_logger dirs d f l s).2
  | LGet dirs => (get_logger dirs s).2
  | LSetLevel dirs l => (set_log_level dirs l s).2
  end.
Definition log_run (ops : list log_op) (s : log_state) : log_state := fold_left log_step ops s.

Section levels.
Context (should_log : level -> level -> bool).

(** Is a message of level [l] written by the sink? *)
Definition written (lg : logger) (sk : sink) (l : level) : bool :=
  should_log (logger_level lg) l && should_log (sink_level sk) l.

(** ** Lemmas *)

(** Levels the operations of a run leave the logger with. *)
Definition sinks_fixed (lg lg' : logger) : Prop :=
  console_sink lg' = console_sink lg /\ file_sink lg' = file_sink lg /\ log_path lg' = log_path lg.

Lemma log_step_fixed lg op :
  exists lg', log_step {| g_logger := Some lg; g_init_flag := true |} op =
    {| g_logger := Some lg'; g_init_flag := true |} /\ sinks_fixed lg lg'.
Proof. destruct op; cbn; eexists; (split; [reflexivity|]); done. Qed.

Lemma log_run_fixed ops lg :
  exists lg', log_run ops {| g_logger := Some lg; g_init_flag := true |} =
    {| g_logger := Some lg'; g_init_flag := true |} /\ sinks_fixed lg lg'.
Proof.
  revert lg. induction ops as [|op ops IH]; intros lg; [by exists lg|].
  destruct (log_step_fixed lg op) as (lg1 & E1 & H1 & H2 & H3). unfold log_run in *. cbn [fold_left].
  rewrite E1. destruct (IH lg1) as (lg2 & E2 & G1 & G2 & G3). exists lg2. split; [done|].
  unfold sinks_fixed. by rewrite G1, G2, G3.
Qed.

Lemma log_run_init log_dir log_file l0 ops :
  log_run (LInit (Ok tt) log_dir log_file l0 :: ops) log_state_init =
  log_run ops {| g_logger := Some (make_logger log_dir log_file l0); g_init_flag := true |}.
Proof. done. Qed.

Hypothesis should_log_spec : forall t l, should_log t l = (level_value t <=? level_value l).

(** ** Theorems *)

(** The first initialisation decides, and the level can only be raised
    afterwards.  After a successful [init_logger], whatever is called, the logger
    keeps its path and its sinks' level; both sinks write a message exactly when
    its level reaches the level of the first initialisation and the one last
    given to [set_log_level].  Lowering the level at run time therefore has no
    effect below the initial one. *)
Theorem log_level_only_rises dirs log_dir log_file l0 ops :
  g_logger (log_run (LInit (Ok tt) log_dir log_file l0 :: ops) log_state_init) <> None /\
  forall lg l m,
    g_logger (log_run (LInit (Ok tt) log_dir log_file l0 :: ops ++ [LSetLevel dirs l]) log_state_init) = Some lg ->
    log_path lg = log_dir ++ bs "/" ++ log_file /\
    written lg (console_sink lg) m = (level_value l <=? level_value m) && (level_value l0 <=? level_value m) /\
    written lg (file_sink lg) m = (level_value l <=? level_value m) && (level_value l0 <=? level_value m).
Proof.
  rewrite !log_run_init.
  destruct (log_run_fixed ops (make_logger log_dir log_file l0)) as (lg1 & E & H1 & H2 & H3). split.
  - by rewrite E.
  - intros lg l m. rewrite log_run_init. unfold log_run in *. rewrite fold_left_app, E. cbn.
    intros [= <-]. cbn. unfold written. cbn. by rewrite H1, H2, H3, !should_log_spec.
Qed.
End levels.

Lemma log_level_only_rises_witness :
  let s := log_run [LInit (Ok tt) (bs "logs") (bs "a.log") info; LSetLevel (Ok tt) debug] log_state_init in
  exists lg, g_logger s = Some lg /\
    written (fun t l => level_value t <=? level_value l) lg (console_sink lg) debug = false.
Proof.
  destruct (log_level_only_rises (fun t l => level_value t <=? level_value l) (fun t l => eq_refl)
           (Ok tt) (bs "logs") (bs "a.log") info []) as [_ H].
  eexists. split; [reflexivity|]. exact (proj1 (proj2 (H _ debug debug eq_refl))).
Defined.

(** An initialisation that fails leaves the logger to the next one. *)
Lemma failed_init_retries e d f l s d' f' l' :
  g_init_flag s = false ->
  init_logger (Throw e) d f l s = (Throw e, s) /\
  (init_logger (Ok tt) d' f' l' s).2 =
    {| g_logger := Some (make_logger d' f' l'); g_init_flag := true |}.
Proof. intros E. unfold init_logger. by rewrite E. Qed.
