(* ===== verification/Console.v ===== *)
(** * The programs' console and log

    The two programs print, initialise the logger and call components that own a
    state.  A program's state is that state, what it has printed, and the
    logger. *)
From S2P Require Import Prelude Text Program LogInit.

Record io (W : Type) := { world : W; cout : str; cerr : str; logger_state : log_state }.
Arguments world {W}. Arguments cout {W}. Arguments cerr {W}. Arguments logger_state {W}.
Arguments Build_io {W}.

Section console.
Context {W : Type}.

(** The outcome of creating a directory and a log in it; spdlog's
    [level::from_str]. *)
Variable make_dirs : str -> outcome unit.
Variable from_str : str -> level.

Abbreviation P := (prog (io W)).

Definition with_world (w : W) (x : io W) : io W :=
  {| world := w; cout := cout x; cerr := cerr x; logger_state := logger_state x |}.
Definition with_log (l : log_state) (x : io W) : io W :=
  {| world := world x; cout := cout x; cerr := cerr x; logger_state := l |}.
Definition with_out (o e : str) (x : io W) : io W :=
  {| world := world x; cout := o; cerr := e; logger_state := logger_state x |}.

Definition print (s : str) : P unit := fun x => Returned tt (with_out (cout x ++ s) (cerr x) x).
Definition print_err (s : str) : P unit := fun x => Returned tt (with_out (cout x) (cerr x ++ s) x).

Definition on_world {A} (m : prog W A) : P A := fun x =>
  match m (world x) with
  | Returned a w => Returned a (with_world w x)
  | Polling w => Polling (with_world w x)
  | Raised e w => Raised e (with_world w x)
  | Undefined => Undefined
  end.

Definition setup_log (dir file lvl : str) : P unit := fun x =>
  let '(r, l) := init_logger (make_dirs dir) dir file (from_str lvl) (logger_state x) in
  attempt r (with_log l x).

(** ** What a program does from a state of its component *)

(** It returns a value, prints a text and leaves a state that are in [Q], and
    reports no error. *)
Definition runs {A} (w : W) (m : P A) (Q : A -> str -> W -> Prop) : Prop := forall x,
  world x = w -> exists a s x', m x = Returned a x' /\ Q a s (world x') /\
    cout x' = cout x ++ s /\ cerr x' = cerr x.

(** It ends with an exception. *)
Definition raises {A} (w : W) (m : P A) (e : exn) : Prop := forall x, world x = w ->
  exists x', m x = Raised e x'.

(** ** Lemmas *)

Lemma runs_bind {A B} w (m : P A) (k : A -> P B) Q R :
  runs w m Q -> (forall a s w', Q a s w' -> runs w' (k a) (fun b t => R b (s ++ t))) ->
  runs w (m ≫= k) R.
Proof.
  intros Hm Hk x Hx. destruct (Hm x Hx) as (a & s & x1 & E1 & Ha & O1 & R1).
  destruct (Hk a s _ Ha x1 eq_refl) as (b & t & x2 & E2 & Hb & O2 & R2). exists b, (s ++ t), x2.
  erewrite bind_returned by exact E1. split_and!; [done..| |congruence]. by rewrite O2, O1, <- app_assoc.
Qed.

Lemma raises_bind {A B} w (m : P A) (k : A -> P B) Q e :
  runs w m Q -> (forall a s w', Q a s w' -> raises w' (k a) e) -> raises w (m ≫= k) e.
Proof.
  intros Hm Hk x Hx. destruct (Hm x Hx) as (a & s & x1 & E1 & Ha & _).
  erewrite bind_returned by exact E1. by eapply Hk.
Qed.

Lemma runs_ret {A} w (a : A) (Q : A -> str -> W -> Prop) : Q a [] w -> runs w (mret a) Q.
Proof. intros Ha x <-. exists a, [], x. by rewrite app_nil_r. Qed.

Lemma runs_print w s : runs w (print s) (fun _ t v => t = s /\ v = w).
Proof. intros x <-. by exists tt, s, (with_out (cout x ++ s) (cerr x) x). Qed.

Lemma runs_world {A} w (m : prog W A) a w' :
  m w = Returned a w' -> runs w (on_world m) (fun b t v => b = a /\ t = [] /\ v = w').
Proof.
  intros E x <-. exists a, [], (with_world w' x). unfold on_world. rewrite E. cbn. by rewrite app_nil_r.
Qed.

(** Reading the component's state. *)
Lemma runs_read {A} w (f : W -> A) :
  runs w (fun x => Returned (f (world x)) x) (fun b t v => b = f w /\ t = [] /\ v = w).
Proof. intros x <-. exists (f (world x)), [], x. by rewrite app_nil_r. Qed.

Lemma runs_attempt {A} w (o : outcome A) a :
  o = Ok a -> runs w (attempt o) (fun b t v => b = a /\ t = [] /\ v = w).
Proof. intros -> x <-. exists a, [], x. by rewrite app_nil_r. Qed.

Lemma runs_setup w dir file lvl :
  make_dirs dir = Ok tt -> runs w (setup_log dir file lvl) (fun _ t v => t = [] /\ v = w).
Proof.
  intros Hd x <-. unfold setup_log, init_logger. rewrite Hd.
  destruct (g_init_flag (logger_state x)); cbn; eexists _, [], _; (split; [reflexivity|]); cbn;
    by rewrite app_nil_r.
Qed.

Lemma runs_weaken {A} w (m : P A) (Q R : A -> str -> W -> Prop) :
  runs w m Q -> (forall a s v, Q a s v -> R a s v) -> runs w m R.
Proof. intros Hm Hi x Hx. destruct (Hm x Hx) as (a & s & x' & ? & ? & ?). exists a, s, x'. auto. Qed.
End console.

(** One step after the other: what is known of its value and state replaces them. *)
Ltac step L :=
  eapply runs_bind; [L|]; let H := fresh in intros ? ? ? H; cbn beta in H; destruct_and? H; subst.

(** One [print] after the other. *)
Ltac say := eapply runs_bind; [apply runs_print|]; let H1 := fresh in let H2 := fresh in
  intros ? ? ? [H1 H2]; subst.
