(* ===== verification/CreateSocket.v ===== *)
(** * Creating sockets: [network/create_socket.cpp]

    [create_server_acceptor] is a sequence of Asio calls that may throw;
    [create_client_socket] starts two asynchronous operations, one after the
    other, whose handlers settle a promise.  Asio's calls are parameters with
    their laws, its completions events. *)
From S2P Require Import Prelude Text.

(** ** The acceptor *)

Inductive protocol_family := V4 | V6.
Record tcp_endpoint := { family : protocol_family; port_of : Z }.

#[export] Instance protocol_family_eq_dec : EqDecision protocol_family.
Proof. solve_decision. Defined.
#[export] Instance tcp_endpoint_eq_dec : EqDecision tcp_endpoint.
Proof. solve_decision. Defined.

(** [tcp::acceptor]: its constructor from an endpoint, two of its members and its
    destructor, over the sockets the process holds. *)
Class Acceptors (A W : Type) `{EqDecision A} := {
  acceptor_new : tcp_endpoint -> W -> outcome A * W;
  set_reuse_address : A -> bool -> W -> outcome unit * W;
  listen : A -> Z -> W -> outcome unit * W;
  acceptor_destroy : A -> W -> W;
  held : W -> list A;
  backlog : W -> A -> option Z;
  acceptor_new_spec ep w r w' : acceptor_new ep w = (r, w') ->
    match r with
    | Ok a => (a ∉ held w) /\ held w' = held w ++ [a]
    | Throw _ => held w' = held w
    | UB => False
    end;
  set_reuse_address_spec a b w r w' : set_reuse_address a b w = (r, w') -> held w' = held w /\ r <> UB;
  listen_spec a n w r w' : listen a n w = (r, w') ->
    held w' = held w /\ r <> UB /\ (r = Ok tt -> backlog w' a = Some n);
  acceptor_destroy_spec a w : held (acceptor_destroy a w) = filter (.≠ a) (held w)
}.

Lemma filter_fresh `{EqDecision A} (a : A) (l : list A) : a ∉ l -> filter (.≠ a) l = l.
Proof.
  induction l as [|b l IH]; [done|]. intros [Hne Hl]%not_elem_of_cons.
  rewrite filter_cons_True by auto. f_equal. by apply IH.
Qed.

Section acceptor.
Context {A W : Type} `{HA : Acceptors A W}.

(** An exception leaves the scope of [acceptor]. *)
Definition or_destroyed (a : A) (r : outcome unit * W) (k : W -> outcome A * W) : outcome A * W :=
  match r with
  | (Ok _, w) => k w
  | (Throw e, w) => (Throw e, acceptor_destroy a w)
  | (UB, w) => (UB, w)
  end.

Definition create_server_acceptor (port : Z) (w : W) : outcome A * W :=
  match acceptor_new {| family := V4; port_of := port |} w with
  | (Ok a, w) =>
      or_destroyed a (set_reuse_address a true w) (fun w =>
      or_destroyed a (listen a 256 w) (fun w => (Ok a, w)))
  | r => r
  end.

Lemma destroyed_new a (w w0 : W) :
  a ∉ held w -> held w0 = held w ++ [a] -> held (acceptor_destroy a w0) = held w.
Proof.
  intros Hn E. rewrite acceptor_destroy_spec, E, filter_app, filter_cons_False, filter_nil, app_nil_r by auto.
  by apply filter_fresh.
Qed.

(** The server's acceptor.  An acceptor that is returned listens with the backlog
    of 256 and is the only socket the call leaves behind; whatever call of Asio
    throws, the exception reaches the caller and no socket is leaked. *)
Theorem create_server_acceptor_spec port w r w' :
  create_server_acceptor port w = (r, w') ->
  match r with
  | Ok a => held w' = held w ++ [a] /\ backlog w' a = Some 256
  | Throw _ => held w' = held w
  | UB => False
  end.
Proof.
  unfold create_server_acceptor. intros E.
  destruct (acceptor_new {| family := V4; port_of := port |} w) as [r0 w0] eqn:E0. apply acceptor_new_spec in E0.
  destruct r0 as [a|e|]; [destruct E0 as [Hn E0]|by simplify_eq|done].
  destruct (set_reuse_address a true w0) as [r1 w1] eqn:E1. apply set_reuse_address_spec in E1 as [H1 U1].
  destruct r1 as [[]|e|]; cbn in E; [|simplify_eq; apply destroyed_new; congruence|done].
  destruct (listen a 256 w1) as [r2 w2] eqn:E2. apply listen_spec in E2 as (H2 & U2 & B2).
  destruct r2 as [[]|e|]; cbn in E; simplify_eq; [|apply destroyed_new; congruence].
  split; [congruence|by apply B2].
Qed.
End acceptor.

(** A kernel with sockets numbered as they come; a port can be bound once, and
    [listen] fails on reserved ports. *)
Record kernel := { bound : list (nat * Z); backlogs : list (nat * Z); next_fd : nat }.

#[export] Program Instance kernel_acceptors : Acceptors nat kernel := {
  acceptor_new ep w :=
    if bool_decide (port_of ep ∈ (bound w).*2)
    then (Throw (other_std_exception (bs "bind: Address already in use")), w)
    else let fd := S (foldr Nat.max (next_fd w) (bound w).*1) in
         (Ok fd, {| bound := bound w ++ [(fd, port_of ep)]; backlogs := backlogs w; next_fd := fd |});
  set_reuse_address a b w := (Ok tt, w);
  listen a n w :=
    if bool_decide (Forall (fun b => 1024 <= b.2) (bound w))
    then (Ok tt, {| bound := bound w; backlogs := (a, n) :: backlogs w; next_fd := next_fd w |})
    else (Throw (other_std_exception (bs "listen: Permission denied")), w);
  acceptor_destroy a w :=
    {| bound := filter (fun b => b.1 ≠ a) (bound w); backlogs := backlogs w; next_fd := next_fd w |};
  held w := (bound w).*1;
  backlog w a := snd <$> find (fun b => Nat.eqb b.1 a) (backlogs w)
}.
Next Obligation.
  intros ep w r w' E. cbn in E. case_bool_decide; simplify_eq; [done|]. cbn. rewrite fmap_app. split; [|done].
  assert (forall (l : list nat) k, S (foldr Nat.max k l) ∉ l) as Hfresh; [|apply Hfresh].
  intros l k Hin. assert (forall x, x ∈ l -> (x <= foldr Nat.max k l)%nat) as Hle.
  { clear Hin. induction l as [|y l IH]; intros x; [by intros ?%elem_of_nil|].
    intros [->|Hx]%elem_of_cons; cbn; [lia|]. specialize (IH x Hx). lia. }
  specialize (Hle _ Hin). lia.
Qed.
Next Obligation. intros a b w r w' E. cbn in E. by simplify_eq. Qed.
Next Obligation.
  intros a n w r w' E. cbn in E. case_bool_decide; simplify_eq; split_and!; try done. cbn. by rewrite Nat.eqb_refl.
Qed.
Next Obligation.
  intros a w. cbn. induction (bound w) as [|[b p] l IH]; [done|]. rewrite fmap_cons, !filter_cons. cbn.
  destruct (decide (b = a)) as [->|Hne].
  - rewrite !decide_False by auto. exact IH.
  - rewrite !decide_True by done. by rewrite fmap_cons, IH.
Qed.

Definition fresh_kernel : kernel := {| bound := []; backlogs := []; next_fd := 2 |}.

Lemma create_server_acceptor_spec_witness :
  held (create_server_acceptor 8080 fresh_kernel).2 = [3%nat] /\
  held (create_server_acceptor 80 fresh_kernel).2 = [].
Proof.
  destruct (create_server_acceptor 8080 fresh_kernel) as [r w] eqn:E.
  destruct (create_server_acceptor 80 fresh_kernel) as [r' w'] eqn:E'.
  pose proof (create_server_acceptor_spec 8080 fresh_kernel r w E) as H.
  pose proof (create_server_acceptor_spec 80 fresh_kernel r' w' E') as H'.
  vm_compute in E, E'. injection E as <- <-. injection E' as <- <-. split; [apply H|exact H'].
Defined.

(** ** The client's socket *)

Inductive stage := Resolving | Connecting (eps : list tcp_endpoint) | Finished.

(** What the future shows. *)
Inductive socket_future :=
  | Waiting
  | Value (connected_to : tcp_endpoint)
  | Exception (what : str)               (* a [std::runtime_error] *)
  | Broken.                              (* the promise was destroyed *)

(** The socket the connect handler shares. *)
Inductive socket_owner := NoSocket | Handler | Moved | Destroyed.

Record client_socket := {
  now : stage;
  future : socket_future;
  settled_twice : bool;                  (* [future_error]: the promise was already satisfied *)
  sock : socket_owner;
  asked : str * str                      (* the host and the service to resolve *)
}.

Definition create_client_socket (host : str) (port : Z) : client_socket :=
  {| now := Resolving; future := Waiting; settled_twice := false; sock := NoSocket;
     asked := (host, to_string port) |}.

Definition settle (f : socket_future) (o : socket_owner) (c : client_socket) : client_socket :=
  {| now := Finished; future := match future c with Waiting => f | g => g end;
     settled_twice := match future c with Waiting => settled_twice c | _ => true end;
     sock := o; asked := asked c |}.

(** The handler of [async_resolve]. *)
Definition resolved (r : str + list tcp_endpoint) (c : client_socket) : client_socket :=
  match r with
  | inl what => settle (Exception what) (sock c) c
  | inr eps => {| now := Connecting eps; future := future c; settled_twice := settled_twice c;
                  sock := Handler; asked := asked c |}
  end.

(** The handler of [async_connect]; it owns the socket until it moves it out. *)
Definition connected (r : str + tcp_endpoint) (c : client_socket) : client_socket :=
  match r with
  | inl what => settle (Exception what) Destroyed c
  | inr ep => settle (Value ep) Moved c
  end.

(** The io context is destroyed with the handler still in it. *)
Definition abandoned (c : client_socket) : client_socket :=
  settle Broken (match sock c with Handler => Destroyed | o => o end) c.

Inductive socket_event :=
  | Resolved (r : str + list tcp_endpoint)
  | Connected (r : str + tcp_endpoint)
  | Abandoned.

(** [async_connect] connects to one of the endpoints it was given. *)
Definition socket_step (c : client_socket) (ev : socket_event) : option client_socket :=
  match now c, ev with
  | Resolving, Resolved r => Some (resolved r c)
  | Connecting eps, Connected (inr ep) => if bool_decide (ep ∈ eps) then Some (connected (inr ep) c) else None
  | Connecting _, Connected (inl what) => Some (connected (inl what) c)
  | (Resolving | Connecting _), Abandoned => Some (abandoned c)
  | _, _ => None
  end.

Definition fails (what : str) (evs : list socket_event) : Prop :=
  evs = [Resolved (inl what)] \/ exists eps, evs = [Resolved (inr eps); Connected (inl what)].

(** C24: a client socket.  However the two operations end, the promise is settled at
    most once, after at most two handlers, and exactly when no handler is left;
    the name service is asked for the host and the port in decimals.  The future holds a
    socket connected to one of the endpoints the name resolved to, and then owns
    the socket; it holds the error's text when one of the operations failed, and is broken when
    the io context went away; in these cases no socket is left open. *)
Theorem create_client_socket_settles host port evs c :
  0 <= port < 2 ^ 16 -> run socket_step evs (create_client_socket host port) = Some c ->
  (length evs <= 2)%nat /\ settled_twice c = false /\
  (now c = Finished <-> future c <> Waiting) /\
  (now c <> Finished -> exists ev, is_Some (socket_step c ev)) /\
  asked c = (host, to_string port) /\ stoi (asked c).2 = Ok port /\
  match future c with
  | Waiting => True
  | Value ep => sock c = Moved /\ exists eps, evs = [Resolved (inr eps); Connected (inr ep)] /\ ep ∈ eps
  | Exception what => sock c <> Handler /\ fails what evs
  | Broken => sock c <> Handler /\ last evs = Some Abandoned
  end.
Proof.
  intros Hp E.
  assert (stoi (to_string port) = Ok port) as Hs by (apply stoi_to_string; lia).
  destruct evs as [|[[what|eps]|r|] evs]; cbn in E.
  - simplify_eq. cbn. split_and!; try done; [lia|]. intros _. by exists Abandoned.
  - destruct evs as [|ev l]; [|by destruct ev]. cbn in E. simplify_eq. cbn.
    split_and!; try done; [lia|]. by left.
  - destruct evs as [|[r|[what|ep]|] evs]; cbn in E; try done.
    + simplify_eq. cbn. split_and!; try done; [lia|]. intros _. by exists Abandoned.
    + destruct evs as [|ev l]; [|by destruct ev]. cbn in E. simplify_eq. cbn.
      split_and!; try done. right. by exists eps.
    + case_bool_decide; [|done]. destruct evs as [|ev l]; [|by destruct ev]. cbn in E. simplify_eq. cbn.
      split_and!; try done. by exists eps.
    + destruct evs as [|ev l]; [|by destruct ev]. cbn in E. simplify_eq. cbn. by split_and!.
  - done.
  - destruct evs as [|ev l]; [|by destruct ev]. cbn in E. simplify_eq. cbn. split_and!; try done. lia.
Qed.

Lemma create_client_socket_settles_witness :
  let ep := {| family := V6; port_of := 8080 |} in
  let evs := [Resolved (inr [{| family := V4; port_of := 8080 |}; ep]); Connected (inr ep)] in
  exists c, run socket_step evs (create_client_socket (bs "localhost") 8080) = Some c /\
    future c = Value ep /\ stoi (asked c).2 = Ok 8080.
Proof.
  intros ep evs.
  destruct (run socket_step evs (create_client_socket (bs "localhost") 8080)) as [c|] eqn:E;
    [|by vm_compute in E].
  exists c. split; [done|].
  destruct (create_client_socket_settles (bs "localhost") 8080 evs c) as (_ & _ & _ & _ & _ & Hs & _); [lia|done|].
  split; [|exact Hs]. vm_compute in E. by injection E as <-.
Defined.
