(* ===== verification/Compress.v ===== *)
(** * Compression: [src/compress_data/compress.h/.cpp]

    zstd is a parameter: [ZSTD_compressBound], [ZSTD_compress] and
    [ZSTD_decompress] into a buffer of a given capacity, giving the bytes written
    or the name of an error, and [ZSTD_getFrameContentSize]. *)
From S2P Require Import Prelude Double.

(** What [ZSTD_getFrameContentSize] returns. *)
Inductive content_size := SizeError | SizeUnknown | SizeIs (n : Z).

Class Zstd := {
  ZSTD_compressBound : Z -> Z;
  ZSTD_compress : Z -> str -> Z -> str + str;     (* capacity, source, level *)
  ZSTD_decompress : Z -> str -> str + str;        (* capacity, source *)
  ZSTD_getFrameContentSize : str -> content_size
}.

(** What zstd's manual promises of them. *)
Class ZstdLaws `{Zstd} := {
  bound_nonneg n : 0 <= n -> 0 <= ZSTD_compressBound n;
  compress_fits cap src lvl out : ZSTD_compress cap src lvl = inr out -> len out <= cap;
  decompress_fits cap src out : ZSTD_decompress cap src = inr out -> len out <= cap;
  content_size_range src n : ZSTD_getFrameContentSize src = SizeIs n -> 0 <= n < 2 ^ 64;
  frame_nonempty cap src lvl out : src <> [] -> ZSTD_compress cap src lvl = inr out -> out <> [];
  frame_size cap src lvl out :
    src <> [] -> ZSTD_compress cap src lvl = inr out -> ZSTD_getFrameContentSize out = SizeIs (len src);
  frame_content cap src lvl out cap' :
    src <> [] -> ZSTD_compress cap src lvl = inr out -> len src <= cap' -> ZSTD_decompress cap' out = inr src
}.

(** ** Diagnostics *)

Record CompressInfo := { original_size : Z; compressed_size : Z; ratio : double }.

Definition compress_info (original compressed : str) : CompressInfo :=
  {| original_size := len original; compressed_size := len compressed;
     ratio := if 0 <? len original then ddiv (of_int (len compressed)) (of_int (len original))
              else of_int 0 |}.

Section zstd.
Context `{Zstd}.

Definition compress (data : str) (level : Z) : outcome str :=
  match data with
  | [] => Ok []
  | _ =>
      let bound := ZSTD_compressBound (len data) in
      compressed ← new_string bound;
      match ZSTD_compress (len compressed) data level with
      | inl name => Throw (runtime_error (bs "zstd compress: " ++ name))
      | inr out => compressed ← buf_write compressed 0 out; Ok (resize (len out) compressed)
      end
  end.

Definition decompress (data : str) : outcome str :=
  match data with
  | [] => Ok []
  | _ =>
      match ZSTD_getFrameContentSize data with
      | SizeError => throw "zstd decompress: invalid frame"
      | SizeUnknown => throw "zstd decompress: unknown content size"
      | SizeIs original_size =>
          out ← new_string original_size;
          match ZSTD_decompress (len out) data with
          | inl name => Throw (runtime_error (bs "zstd decompress: " ++ name))
          | inr bytes => out ← buf_write out 0 bytes; Ok (resize (len bytes) out)
          end
      end
  end.

(** ** Lemmas *)

Context `{!ZstdLaws}.

Lemma compress_ok data level c :
  data <> [] -> compress data level = Ok c ->
  exists cap, ZSTD_compress cap data level = inr c /\ cap = ZSTD_compressBound (len data).
Proof.
  intros Hd E. unfold compress in E. destruct data as [|a data]; [done|].
  apply bind_ok_inv in E as (s & Es & E).
  assert (0 <= ZSTD_compressBound (len (a :: data))) as Hb by (apply bound_nonneg, len_nonneg).
  destruct (new_string_ok _ _ Hb Es) as [_ El]. rewrite El in E.
  destruct (ZSTD_compress _ _ _) as [name|out] eqn:Ec; [done|].
  destruct (buf_write_front s out) as [rest Ew]; [rewrite El; by eapply compress_fits|].
  rewrite Ew in E. cbn in E. injection E as <-. rewrite resize_front. eauto.
Qed.
End zstd.

(** ** Theorems *)

(** Decompressing what was compressed gives the data back, for every level,
    the empty string included, and the compressed form is no longer than zstd's
    bound. *)
Theorem compress_roundtrip `{ZstdLaws} data level c :
  len data <= max_size -> compress data level = Ok c ->
  decompress c = Ok data /\ (data <> [] -> len c <= ZSTD_compressBound (len data)).
Proof.
  intros Hm E. destruct (decide (data = [])) as [->|Hd].
  - cbn in E. injection E as <-. by split.
  - destruct (compress_ok data level c Hd E) as (cap & Ec & ->).
    split; [|intros _; by eapply compress_fits].
    unfold decompress. destruct c as [|a c]; [by destruct (frame_nonempty _ _ _ _ Hd Ec)|].
    rewrite (frame_size _ _ _ _ Hd Ec). unfold new_string. destruct (Z.ltb_spec max_size (len data)); [lia|].
    cbn [mbind outcome_bind]. rewrite len_zeros by apply len_nonneg.
    rewrite (frame_content _ _ _ _ (len data) Hd Ec) by lia.
    destruct (buf_write_front (zeros (len data)) data) as [rest Ew];
      [rewrite len_zeros by apply len_nonneg; lia|].
    rewrite Ew. cbn [mbind outcome_bind]. by rewrite resize_front.
Qed.

(** Decompression of arbitrary bytes never writes past its buffer nor
    returns more than the frame claims to hold: it returns at most the claimed
    size, or throws. A claimed size no string can have is a [std::length_error],
    not the [std::runtime_error] of every other failure. *)
Theorem decompress_bounded `{ZstdLaws} data :
  match decompress data with
  | Ok out => data = [] /\ out = [] \/
              exists n, ZSTD_getFrameContentSize data = SizeIs n /\ len out <= n <= max_size
  | Throw (runtime_error _) => data <> []
  | Throw (other_std_exception _) =>
      exists n, ZSTD_getFrameContentSize data = SizeIs n /\ max_size < n
  | Throw unknown_exception => False
  | UB => False
  end.
Proof.
  unfold decompress. destruct data as [|a data]; [by left|].
  destruct (ZSTD_getFrameContentSize (a :: data)) as [| |n] eqn:En; try done.
  pose proof (content_size_range _ _ En) as Hn. unfold new_string.
  destruct (Z.ltb_spec max_size n); cbn; [by eexists|]. rewrite len_zeros by lia.
  destruct (ZSTD_decompress n (a :: data)) as [name|out] eqn:Ed; [done|].
  pose proof (decompress_fits _ _ _ Ed).
  destruct (buf_write_front (zeros n) out) as [rest Ew]; [rewrite len_zeros; lia|].
  rewrite Ew. cbn. rewrite resize_front. right. exists n. split; [done|]. lia.
Qed.

(** ** A concrete compressor: the length in eight bytes, then the data *)

Definition stored_size (src : str) : content_size :=
  if len src <? 8 then SizeError
  else SizeIs (be_val (take 8 src)).

Definition stored (src : str) : str := be_bytes 8 (len src) ++ src.
Lemma len_stored src : len (stored src) = 8 + len src.
Proof. unfold stored. by rewrite len_app, len_be_bytes. Qed.
Lemma stored_content src : drop 8 (stored src) = src.
Proof. exact (drop_app_length (be_bytes 8 (len src)) src). Qed.

#[export] Instance stored_zstd : Zstd := {|
  ZSTD_compressBound n := n + 8;
  ZSTD_compress cap src _ :=
    if bool_decide (len src + 8 <= cap /\ len src < 2 ^ 64) then inr (stored src)
    else inl (bs "Destination buffer is too small");
  ZSTD_decompress cap src :=
    if bool_decide (len (drop 8 src) <= cap) then inr (drop 8 src)
    else inl (bs "Destination buffer is too small");
  ZSTD_getFrameContentSize := stored_size
|}.

Lemma stored_size_frame src :
  len src < 2 ^ 64 -> stored_size (stored src) = SizeIs (len src).
Proof.
  intros Hl. pose proof (len_nonneg src). unfold stored_size. rewrite len_stored.
  destruct (Z.ltb_spec (8 + len src) 8); [lia|].
  assert (take 8 (stored src) = be_bytes 8 (len src)) as -> by exact (take_app_length (be_bytes 8 (len src)) src).
  rewrite be_val_bytes. f_equal. apply Z.mod_small. change (2 ^ (8 * Z.of_nat 8)) with (2 ^ 64). lia.
Qed.

#[export] Instance stored_laws : ZstdLaws.
Proof.
  split; cbn [ZSTD_compressBound ZSTD_compress ZSTD_decompress ZSTD_getFrameContentSize stored_zstd].
  - intros. lia.
  - intros cap src lvl out. case_bool_decide; [|done]. intros [= <-]. rewrite len_stored. lia.
  - intros cap src out. case_bool_decide; [|done]. by intros [= <-].
  - intros src n. unfold stored_size. dec; [done|]. intros [= <-].
    pose proof (be_val_range (take 8 src)) as [? Hb]. split; [done|].
    eapply Z.lt_le_trans; [exact Hb|]. apply Z.pow_le_mono_r; [lia|]. unfold len. rewrite length_take. lia.
  - intros cap src lvl out _. case_bool_decide; [|done]. intros [= <-] E.
    apply (f_equal len) in E. rewrite len_stored, len_nil in E. pose proof (len_nonneg src). lia.
  - intros cap src lvl out _. case_bool_decide as Hb; [|done]. intros [= <-].
    apply stored_size_frame. lia.
  - intros cap src lvl out cap' _. case_bool_decide; [|done]. intros [= <-] Hc.
    by rewrite stored_content, bool_decide_true.
Qed.

Lemma compress_roundtrip_witness :
  decompress (be_bytes 8 5 ++ bs "hello") = Ok (bs "hello").
Proof. apply (compress_roundtrip (bs "hello") 3); [by vm_compute|by vm_compute]. Defined.

(** A frame that claims [2^63] bytes. *)
Definition huge_frame : str := be_bytes 8 (2 ^ 63) ++ bs "x".

Lemma decompress_bounded_witness :
  decompress huge_frame = Throw (other_std_exception (bs "basic_string::_M_create")) /\
  exists n, ZSTD_getFrameContentSize huge_frame = SizeIs n /\ max_size < n.
Proof.
  pose proof (decompress_bounded huge_frame) as H.
  assert (decompress huge_frame = Throw (other_std_exception (bs "basic_string::_M_create"))) as E
    by (by vm_compute).
  rewrite E in H. exact (conj E H).
Defined.
