(* ===== verification/Encrypt.v ===== *)
(** * Encryption: [src/encrypt/encrypt.h/.cpp]

    AES-256-GCM through OpenSSL's EVP interface.  The cipher (key stream and
    tag) is a parameter, and so is the result of every EVP call; the model keeps
    the number of cipher contexts that were allocated and not freed, so that the
    error paths can be checked for leaks. *)
From S2P Require Import Prelude.

Definition GCM_TAG_LEN : Z := 16.
Definition KEY_LEN : Z := 32.
Definition IV_LEN : Z := 12.

(** The calls that can fail. *)
Inductive evp_call :=
  | RandBytes | CtxNew | InitCipher | SetIvLen | SetKeyIv | Update | SetTag | GetTag | Final.

(** The cipher: key, IV and data. *)
Class Gcm := {
  gcm_encrypt : str -> str -> str -> str;
  gcm_decrypt : str -> str -> str -> str;
  gcm_tag : str -> str -> str -> str       (* of a ciphertext *)
}.
Class GcmLaws `{Gcm} := {
  gcm_inverse k v p : gcm_decrypt k v (gcm_encrypt k v p) = p;
  gcm_encrypt_len k v p : len (gcm_encrypt k v p) = len p;
  gcm_decrypt_len k v c : len (gcm_decrypt k v c) = len c;
  gcm_tag_len k v c : len (gcm_tag k v c) = GCM_TAG_LEN
}.

(** ** Computations with a count of live contexts *)

Definition M (A : Type) : Type := Z -> outcome A * Z.
#[local] Instance M_ret : MRet M := fun A a n => (Ok a, n).
#[local] Instance M_bind : MBind M := fun A B k m n =>
  match m n with
  | (Ok a, n) => k a n
  | (Throw e, n) => (Throw e, n)
  | (UB, n) => (UB, n)
  end.

Definition fail {A} (msg : string) : M A := fun n => (throw msg, n).
Definition require (b : bool) (msg : string) : M unit := fun n => (if b then Ok tt else throw msg, n).
Definition ctx_free : M unit := fun n => (Ok tt, n - 1).

(** The pure parts: buffers, and stores into them. *)
Definition lift {A} (o : outcome A) : M A := fun n => (o, n).

(** One step of a computation whose result is known. *)
Lemma M_step {A B} (m : M A) (k : A -> M B) a n n' : m n = (Ok a, n') -> (m ≫= k) n = k a n'.
Proof. intros E. unfold mbind, M_bind. by rewrite E. Qed.

Lemma M_step_inv {A B} (m : M A) (k : A -> M B) b n n' :
  (m ≫= k) n = (Ok b, n') -> exists a n1, m n = (Ok a, n1) /\ k a n1 = (Ok b, n').
Proof. unfold mbind, M_bind. destruct (m n) as [[a|e|] n1]; [eauto|done..]. Qed.

Lemma require_inv b msg n u n' : require b msg n = (Ok u, n') -> b = true /\ n = n'.
Proof. unfold require. destruct b; [|done]. by intros [= _ <-]. Qed.

Section evp.
Context `{Gcm}.

(** Which calls succeed. *)
Variable ok : evp_call -> bool.

(** [EVP_CIPHER_CTX_new]; null is reported before there is anything to free. *)
Definition ctx_new (msg : string) : M unit := fun n => if ok CtxNew then (Ok tt, n + 1) else (throw msg, n).

(** [if (call(ctx, ...) != 1) { EVP_CIPHER_CTX_free(ctx); throw ...; }] *)
Definition check (c : evp_call) (msg : string) : M unit :=
  if ok c then mret tt else (_ ← ctx_free; fail msg).

(** [static_cast<int>(n)] bytes are processed; a negative count is refused. *)
Definition update_len (n : Z) : option Z := if i32 n <? 0 then None else Some (i32 n).

(** ** Operations *)

(** [RAND_bytes (n)]: the bytes it would store. *)
Variable RAND_bytes : Z -> str.

Definition generate_key : outcome str :=
  key ← new_string KEY_LEN;
  if ok RandBytes then buf_write key 0 (RAND_bytes KEY_LEN) else throw "aes: failed to generate key".

Definition generate_iv : outcome str :=
  iv ← new_string IV_LEN;
  if ok RandBytes then buf_write iv 0 (RAND_bytes IV_LEN) else throw "aes: failed to generate IV".

(** [EVP_..Update(ctx, buf.data(), &out_len, input.data(), int(n))]: it fails, or
    stores the transformed input at the front of the buffer; the buffer and
    [out_len]. *)
Definition evp_update (transform : str -> str) (buf input : str) (n : Z) (msg : string)
    : M (str * Z) :=
  match (if ok Update then update_len n else None) with
  | Some m =>
      let out := transform (take (Z.to_nat m) input) in
      buf ← lift (buf_write buf 0 out);
      mret (buf, len out)
  | None => _ ← ctx_free; fail msg
  end.

(** [EVP_..Final_ex(ctx, buf.data() + total, &out_len)]: GCM is a stream mode and
    has nothing left to store. *)
Definition evp_final (buf : str) (total : Z) : outcome (str * Z) :=
  buf ← buf_write buf total [];
  mret (buf, 0).

Definition aes_encrypt (plaintext key iv : str) : M str :=
  _ ← require (len key =? KEY_LEN) "aes_encrypt: key must be 32 bytes";
  _ ← require (len iv =? IV_LEN) "aes_encrypt: iv must be 12 bytes";
  _ ← ctx_new "aes_encrypt: EVP_CIPHER_CTX_new failed";
  _ ← check InitCipher "aes_encrypt: init failed";
  _ ← check SetIvLen "aes_encrypt: set IV len failed";
  _ ← check SetKeyIv "aes_encrypt: key/IV set failed";
  ciphertext ← lift (new_string (size_add (len plaintext) 16));
  '(ciphertext, out_len) ←
    evp_update (gcm_encrypt key iv) ciphertext plaintext (len plaintext) "aes_encrypt: update failed";
  let total := out_len in
  _ ← check Final "aes_encrypt: final failed";
  '(ciphertext, out_len) ← lift (evp_final ciphertext total);
  let total := total + out_len in
  let ciphertext := resize total ciphertext in
  tag ← lift (new_string GCM_TAG_LEN);
  _ ← check GetTag "aes_encrypt: get tag failed";
  tag ← lift (buf_write tag 0 (gcm_tag key iv ciphertext));
  _ ← ctx_free;
  mret (ciphertext ++ tag).

(** [EVP_DecryptFinal_ex] compares the tag it was given with the one of the
    input that [EVP_DecryptUpdate] consumed. *)
Definition aes_decrypt (ciphertext key iv : str) : M str :=
  _ ← require (len key =? KEY_LEN) "aes_decrypt: key must be 32 bytes";
  _ ← require (len iv =? IV_LEN) "aes_decrypt: iv must be 12 bytes";
  _ ← require (negb (len ciphertext <? GCM_TAG_LEN)) "aes_decrypt: ciphertext too short";
  let ct_len := len ciphertext - GCM_TAG_LEN in
  let tag := drop (Z.to_nat ct_len) ciphertext in
  _ ← ctx_new "aes_decrypt: EVP_CIPHER_CTX_new failed";
  _ ← check InitCipher "aes_decrypt: init failed";
  _ ← check SetIvLen "aes_decrypt: set IV len failed";
  _ ← check SetKeyIv "aes_decrypt: key/IV set failed";
  plaintext ← lift (new_string (size_add ct_len 16));
  '(plaintext, out_len) ←
    evp_update (gcm_decrypt key iv) plaintext ciphertext ct_len "aes_decrypt: update failed";
  let total := out_len in
  _ ← check SetTag "aes_decrypt: set tag failed";
  let verified := bool_decide (tag = gcm_tag key iv (take (Z.to_nat total) ciphertext)) in
  '(plaintext, out_len) ← lift (evp_final plaintext total);
  _ ← ctx_free;
  _ ← require (ok Final && verified) "aes_decrypt: authentication failed (wrong key or tampered data)";
  let total := total + out_len in
  mret (resize total plaintext).

(** ** Lemmas *)

(** A value, or a [std::runtime_error]. *)
Definition proper {A} (o : outcome A) : Prop :=
  match o with Ok _ | Throw (runtime_error _) => True | _ => False end.

(** Computations that leave the number of live contexts alone; that do so when
    they return, with a value in [Q], and release the context they hold when they
    throw; and that release it in any case. *)
Definition neutral {A} (m : M A) : Prop := forall n, (m n).2 = n /\ proper (m n).1.
Definition guarded {A} (Q : A -> Prop) (m : M A) : Prop := forall n,
  match m n with
  | (Ok a, n') => n' = n /\ Q a
  | (Throw (runtime_error _), n') => n' = n - 1
  | _ => False
  end.
Definition frees {A} (m : M A) : Prop := forall n, (m n).2 = n - 1 /\ proper (m n).1.

Lemma neutral_bind {A B} (m : M A) (k : A -> M B) :
  neutral m -> (forall a, neutral (k a)) -> neutral (m ≫= k).
Proof.
  intros Hm Hk n. unfold mbind, M_bind. destruct (Hm n) as [E1 H1].
  destruct (m n) as [[a|e|] n']; cbn in *; subst; [apply Hk|done..].
Qed.

Lemma require_bind {B} (b : bool) msg (k : unit -> M B) :
  (b = true -> neutral (k tt)) -> neutral (require b msg ≫= k).
Proof. intros Hk n. unfold mbind, M_bind, require. destruct b; [by apply Hk|done]. Qed.

Lemma neutral_new {B} msg (k : unit -> M B) : (forall a, frees (k a)) -> neutral (ctx_new msg ≫= k).
Proof.
  intros Hk n. unfold mbind, M_bind, ctx_new. destruct (ok CtxNew); [|done].
  destruct (Hk tt (n + 1)) as [E1 H1]. rewrite E1. split; [lia|done].
Qed.

Lemma frees_bind {A B} Q (m : M A) (k : A -> M B) :
  guarded Q m -> (forall a, Q a -> frees (k a)) -> frees (m ≫= k).
Proof.
  intros Hm Hk n. unfold mbind, M_bind. specialize (Hm n).
  destruct (m n) as [[a|[]|] n']; cbn in *; try done.
  destruct Hm as [-> Ha]. by apply Hk.
Qed.

Lemma frees_free {B} (k : unit -> M B) : (forall a, neutral (k a)) -> frees (ctx_free ≫= k).
Proof. intros Hk n. unfold mbind, M_bind, ctx_free. apply Hk. Qed.

Lemma ret_neutral {A} (a : A) : neutral (mret a).
Proof. by intros n. Qed.
Lemma check_guarded c msg : guarded (fun _ => True) (check c msg).
Proof. intros n. unfold check. by destruct (ok c). Qed.
Lemma lift_guarded {A} (o : outcome A) a : o = Ok a -> guarded (fun x => x = a) (lift o).
Proof. by intros -> n. Qed.

Lemma update_len_range n m : 0 <= n -> update_len n = Some m -> 0 <= m <= n.
Proof.
  intros Hn. unfold update_len. destruct (Z.ltb_spec (i32 n) 0); [done|]. intros [= <-].
  split; [done|]. destruct (Z.lt_ge_cases n (2 ^ 31)) as [?|?]; [rewrite swrap_small; lia|].
  pose proof (swrap_range 32 n ltac:(lia)). lia.
Qed.

(** A length-preserving transformation of [n] bytes fits in [n] bytes. *)
Lemma update_guarded transform buf input n msg :
  (forall x, len (transform x) = len x) -> 0 <= n <= len buf ->
  guarded (fun r => len r.1 = len buf /\ 0 <= r.2 <= len buf) (evp_update transform buf input n msg).
Proof.
  intros Ht Hn k. unfold evp_update. destruct (ok Update); [|done].
  destruct (update_len n) as [m|] eqn:Em; [|done]. apply update_len_range in Em; [|lia].
  set (out := transform _).
  assert (0 <= len out <= n) as Ho.
  { split; [apply len_nonneg|]. unfold out. rewrite Ht. unfold len. rewrite length_take. lia. }
  destruct (buf_write_front buf out) as [rest Ew]; [lia|].
  unfold mbind, M_bind, lift. rewrite Ew. cbn. split; [done|]. split; [|lia].
  apply buf_write_len in Ew. by rewrite Ew.
Qed.

Lemma evp_final_ok buf total : 0 <= total <= len buf -> evp_final buf total = Ok (buf, 0).
Proof.
  intros Ht. unfold evp_final, buf_write. change (len (@nil ascii)) with 0. rewrite Z.add_0_r.
  rewrite bool_decide_true by lia. cbn [mbind outcome_bind app]. by rewrite take_drop.
Qed.

Context `{!GcmLaws}.

(** One call after the other. *)
Ltac evp_step :=
  first
    [ apply require_bind; intros ? | apply neutral_new; intros ?
    | eapply frees_bind; [apply check_guarded|intros ? _]
    | apply frees_free; intros ? | apply ret_neutral ].

Lemma encrypt_neutral input key iv : len input + 16 <= max_size -> neutral (aes_encrypt input key iv).
Proof.
  intros Hm. pose proof (len_nonneg input). unfold aes_encrypt.
  assert (size_add (len input) 16 = len input + 16) as -> by (apply size_add_small; unfold max_size in *; lia).
  repeat evp_step. eapply frees_bind; [apply lift_guarded, new_string_small; lia|]. intros ? ->.
  eapply frees_bind; [apply update_guarded; [apply gcm_encrypt_len|rewrite len_zeros; lia]|].
  intros [buf total] [Hb Ht]. cbn in Hb, Ht. evp_step.
  eapply frees_bind; [apply lift_guarded, evp_final_ok; by rewrite Hb|]. intros ? ->.
  eapply frees_bind; [by apply lift_guarded, new_string_small|]. intros ? ->. evp_step.
  destruct (buf_write_front (zeros GCM_TAG_LEN) (gcm_tag key iv (resize (total + 0) buf))) as [rest Ew];
    [by rewrite gcm_tag_len|].
  eapply frees_bind; [by eapply lift_guarded|]. intros ? ->. repeat evp_step.
Qed.

Lemma decrypt_neutral input key iv : len input + 16 <= max_size -> neutral (aes_decrypt input key iv).
Proof.
  intros Hm. pose proof (len_nonneg input). unfold aes_decrypt. do 2 evp_step.
  apply require_bind. intros Hl%negb_true_iff%Z.ltb_ge. unfold GCM_TAG_LEN in *.
  assert (size_add (len input - 16) 16 = len input) as ->
    by (unfold size_add; rewrite wrap_small; unfold max_size in *; lia).
  repeat evp_step. eapply frees_bind; [apply lift_guarded, new_string_small; lia|]. intros ? ->.
  eapply frees_bind; [apply update_guarded; [apply gcm_decrypt_len|rewrite len_zeros; lia]|].
  intros [buf total] [Hb Ht]. cbn in Hb, Ht. evp_step.
  eapply frees_bind; [apply lift_guarded, evp_final_ok; by rewrite Hb|]. intros ? ->. repeat evp_step.
Qed.

(** ** Theorems *)

(** No path leaks a cipher context, frees one twice, or stores outside a
    buffer.  Whichever EVP calls fail, and for every argument that leaves room for
    the 16 bytes of slack in a string, encryption and decryption leave the number
    of live contexts as it was, and the only exceptions are
    [std::runtime_error]s. *)
Theorem aes_frees_its_context input key iv n :
  len input + 16 <= max_size ->
  (aes_encrypt input key iv n).2 = n /\ proper (aes_encrypt input key iv n).1 /\
  (aes_decrypt input key iv n).2 = n /\ proper (aes_decrypt input key iv n).1.
Proof.
  intros Hm. destruct (encrypt_neutral input key iv Hm n), (decrypt_neutral input key iv Hm n). done.
Qed.
End evp.

Definition all_ok (c : evp_call) : bool := true.

Section cipher.
Context `{GcmLaws}.

Lemma update_len_small n : 0 <= n < 2 ^ 31 -> update_len n = Some n.
Proof.
  intros Hn. unfold update_len. rewrite swrap_small by lia. by destruct (Z.ltb_spec n 0); [lia|].
Qed.

Lemma take_all {A} (l : list A) : take (Z.to_nat (len l)) l = l.
Proof. rewrite len_to_nat. by apply take_ge. Qed.

(** [Update] processes [n] bytes, below 2 GiB, at the front of the buffer. *)
Lemma update_ok transform buf input n msg k :
  0 <= n < 2 ^ 31 -> len (transform (take (Z.to_nat n) input)) <= len buf ->
  exists rest, let out := transform (take (Z.to_nat n) input) in
    evp_update all_ok transform buf input n msg k = (Ok (out ++ rest, len out), k) /\
    len (out ++ rest) = len buf.
Proof.
  intros Hn Hl. unfold evp_update. cbn [all_ok]. rewrite update_len_small by lia.
  destruct (buf_write_front buf _ Hl) as [rest Ew]. exists rest. split.
  - erewrite M_step; [|unfold lift; by rewrite Ew]. done.
  - by apply buf_write_len in Ew.
Qed.

(** What the generators give has the length the ciphers ask for. *)
Lemma generated_key_iv ok r key iv :
  generate_key ok r = Ok key -> generate_iv ok r = Ok iv -> len key = KEY_LEN /\ len iv = IV_LEN.
Proof.
  unfold generate_key, generate_iv. rewrite !new_string_small by done. cbn -[zeros].
  destruct (ok RandBytes); [|done]. by intros ->%buf_write_len ->%buf_write_len.
Qed.

Lemma final_ok buf total k :
  0 <= total <= len buf -> lift (evp_final buf total) k = (Ok (buf, 0), k).
Proof. intros Ht. unfold lift. by rewrite evp_final_ok. Qed.

(** The buffer of the tag is filled exactly. *)
Lemma tag_stored key iv c k :
  lift (buf_write (zeros GCM_TAG_LEN) 0 (gcm_tag key iv c)) k = (Ok (gcm_tag key iv c), k).
Proof.
  unfold lift. change (zeros GCM_TAG_LEN) with ([] ++ zeros GCM_TAG_LEN).
  rewrite (buf_write_fill [] _ 0 GCM_TAG_LEN) by (rewrite ?gcm_tag_len; done).
  by rewrite gcm_tag_len, buf_fill_done.
Qed.

Lemma encrypt_runs plaintext key iv n :
  len key = KEY_LEN -> len iv = IV_LEN -> len plaintext < 2 ^ 31 ->
  aes_encrypt all_ok plaintext key iv n =
    (Ok (gcm_encrypt key iv plaintext ++ gcm_tag key iv (gcm_encrypt key iv plaintext)), n).
Proof.
  intros Hk Hv Hp. pose proof (len_nonneg plaintext). unfold aes_encrypt. rewrite Hk, Hv.
  do 6 (erewrite M_step by reflexivity).
  assert (size_add (len plaintext) 16 = len plaintext + 16) as -> by (apply size_add_small; lia).
  erewrite M_step; [|unfold lift; rewrite new_string_small by (unfold max_size; lia); reflexivity].
  destruct (update_ok (gcm_encrypt key iv) (zeros (len plaintext + 16)) plaintext (len plaintext)
    "aes_encrypt: update failed" (n + 1)) as (rest & Eu & Hl);
    [lia|rewrite take_all, gcm_encrypt_len, len_zeros; lia|].
  rewrite take_all in Eu, Hl. rewrite len_zeros in Hl by lia.
  erewrite M_step by exact Eu. cbv beta iota zeta. erewrite M_step by reflexivity.
  erewrite M_step by (apply final_ok; rewrite Hl, gcm_encrypt_len; lia).
  cbv beta iota zeta. rewrite Z.add_0_r, resize_front. do 2 (erewrite M_step by reflexivity).
  erewrite M_step by apply tag_stored. erewrite M_step by reflexivity.
  unfold mret, M_ret. f_equal. lia.
Qed.

Lemma decrypt_runs c tag key iv n :
  len key = KEY_LEN -> len iv = IV_LEN -> len c < 2 ^ 31 -> len tag = GCM_TAG_LEN ->
  tag = gcm_tag key iv c ->
  aes_decrypt all_ok (c ++ tag) key iv n = (Ok (gcm_decrypt key iv c), n).
Proof.
  intros Hk Hv Hc Ht Hg. pose proof (len_nonneg c). unfold aes_decrypt. rewrite Hk, Hv, len_app, Ht.
  do 2 (erewrite M_step by reflexivity).
  destruct (Z.ltb_spec (len c + GCM_TAG_LEN) GCM_TAG_LEN); [lia|]. rewrite Z.add_simpl_r.
  do 5 (erewrite M_step by reflexivity).
  assert (size_add (len c) 16 = len c + 16) as -> by (apply size_add_small; lia).
  erewrite M_step; [|unfold lift; rewrite new_string_small by (unfold max_size; lia); reflexivity].
  assert (forall m, m = len c -> take (Z.to_nat m) (c ++ tag) = c) as Etk
    by (intros m ->; rewrite len_to_nat; apply take_app_length).
  destruct (update_ok (gcm_decrypt key iv) (zeros (len c + 16)) (c ++ tag) (len c)
    "aes_decrypt: update failed" (n + 1)) as (rest & Eu & Hl);
    [lia|rewrite (Etk _ eq_refl), gcm_decrypt_len, len_zeros; lia|].
  rewrite (Etk _ eq_refl) in Eu, Hl. rewrite len_zeros in Hl by lia.
  erewrite M_step by exact Eu. cbv beta iota zeta. erewrite M_step by reflexivity. cbv beta iota zeta.
  rewrite (Etk _ (gcm_decrypt_len _ _ _)).
  erewrite M_step by (apply final_ok; rewrite Hl, gcm_decrypt_len; lia).
  rewrite len_to_nat, drop_app_length, bool_decide_eq_true_2 by done.
  cbv beta iota zeta. do 2 (erewrite M_step by reflexivity).
  rewrite Z.add_0_r, resize_front. unfold mret, M_ret. f_equal. lia.
Qed.

(** C37: a round trip.  With a key of 32 bytes, an IV of 12 and a plaintext below
    2 GiB (what an [int] counts), encryption gives the ciphertext followed by the
    16 bytes of its tag, and decryption under the same key and IV gives the
    plaintext back. *)
Theorem aes_roundtrip plaintext key iv n :
  len key = KEY_LEN -> len iv = IV_LEN -> len plaintext < 2 ^ 31 ->
  let c := gcm_encrypt key iv plaintext ++ gcm_tag key iv (gcm_encrypt key iv plaintext) in
  aes_encrypt all_ok plaintext key iv n = (Ok c, n) /\ len c = len plaintext + GCM_TAG_LEN /\
  aes_decrypt all_ok c key iv n = (Ok plaintext, n).
Proof.
  intros Hk Hv Hp c. split_and!; [by apply encrypt_runs|by unfold c; rewrite len_app, gcm_encrypt_len, gcm_tag_len|].
  unfold c. rewrite decrypt_runs; rewrite ?gcm_encrypt_len; auto using gcm_tag_len. by rewrite gcm_inverse.
Qed.

Lemma check_ok ok c msg n u n' : check ok c msg n = (Ok u, n') -> ok c = true /\ n' = n.
Proof. unfold check. destruct (ok c); [|done]. by intros [= <- <-]. Qed.

Lemma update_inv ok transform buf input m msg k b total k' :
  0 <= m < 2 ^ 31 -> evp_update ok transform buf input m msg k = (Ok (b, total), k') ->
  total = len (transform (take (Z.to_nat m) input)) /\
  buf_write buf 0 (transform (take (Z.to_nat m) input)) = Ok b.
Proof.
  intros Hm. unfold evp_update. destruct (ok Update); [|done]. rewrite update_len_small by lia.
  intros (b' & k1 & E1 & E2)%M_step_inv. injection E1 as E1 <-. injection E2 as <- <- <-. done.
Qed.

Lemma buf_write_front_inv buf out b : buf_write buf 0 out = Ok b -> exists rest, b = out ++ rest.
Proof. unfold buf_write. case_bool_decide; [|done]. intros [= <-]. cbn. eauto. Qed.

(** C38: only authenticated data is returned.  A decryption of less than 2 GiB
    that returns anything was given a key of 32 bytes, an IV of 12, and a
    ciphertext followed by exactly its own tag under that key and IV; what it
    returns is that whole ciphertext decrypted. *)
Theorem aes_decrypt_authentic ok c key iv n p n' :
  len c < 2 ^ 31 -> aes_decrypt ok c key iv n = (Ok p, n') ->
  len key = KEY_LEN /\ len iv = IV_LEN /\
  exists ct, c = ct ++ gcm_tag key iv ct /\ p = gcm_decrypt key iv ct.
Proof.
  intros Hc E. unfold aes_decrypt in E.
  apply M_step_inv in E as ([] & ? & [Hk%Z.eqb_eq _]%require_inv & E).
  apply M_step_inv in E as ([] & ? & [Hv%Z.eqb_eq _]%require_inv & E).
  apply M_step_inv in E as ([] & ? & [Hl%negb_true_iff%Z.ltb_ge _]%require_inv & E).
  do 4 (apply M_step_inv in E as (? & ? & _ & E)).
  apply M_step_inv in E as (buf & ? & _ & E).
  unfold GCM_TAG_LEN in *. set (ct := take (Z.to_nat (len c - 16)) c) in *.
  assert (len ct = len c - 16) as Hct by (unfold ct, len in *; rewrite length_take; lia).
  apply M_step_inv in E as ([b total] & ? & [-> Hb]%update_inv & E); [|lia].
  fold ct in Hb, E. rewrite gcm_decrypt_len, Hct in E. fold ct in E.
  apply M_step_inv in E as (? & ? & _ & E).
  apply M_step_inv in E as ([b' out_len] & ? & Ef & E).
  apply M_step_inv in E as ([] & ? & _ & E).
  apply M_step_inv in E as ([] & ? & [[_ Htag%bool_decide_eq_true]%andb_true_iff _]%require_inv & E).
  split; [done|]. split; [done|]. exists ct. rewrite <- Htag. unfold ct at 1. rewrite take_drop.
  split; [done|]. injection E as <- _.
  apply buf_write_front_inv in Hb as [rest ->].
  rewrite evp_final_ok in Ef by (rewrite len_app, gcm_decrypt_len; pose proof (len_nonneg rest); lia).
  injection Ef as <- <- _. rewrite Z.add_0_r, <- Hct, <- (gcm_decrypt_len key iv). apply resize_front.
Qed.
End cipher.

(** ** A concrete cipher: the identity, with the key's and the data's lengths
    as tag *)

#[export] Instance toy_gcm : Gcm := {|
  gcm_encrypt k v p := p;
  gcm_decrypt k v c := c;
  gcm_tag k v c := be_bytes 8 (len k) ++ be_bytes 8 (len c)
|}.
#[export] Instance toy_laws : GcmLaws.
Proof. by split. Qed.

Lemma aes_roundtrip_witness :
  (aes_decrypt all_ok (bs "hi" ++ be_bytes 8 32 ++ be_bytes 8 2) (zeros 32) (zeros 12) 0).1 = Ok (bs "hi").
Proof.
  pose proof (aes_roundtrip (bs "hi") (zeros 32) (zeros 12) 0) as H.
  cbn zeta in H. destruct H as (_ & _ & E); [done|done|done|]. exact (f_equal fst E).
Defined.

Lemma aes_decrypt_authentic_witness :
  exists ct, bs "hi" ++ be_bytes 8 32 ++ be_bytes 8 2 = ct ++ gcm_tag (zeros 32) (zeros 12) ct /\ bs "hi" = ct.
Proof.
  destruct (aes_decrypt_authentic all_ok (bs "hi" ++ be_bytes 8 32 ++ be_bytes 8 2) (zeros 32) (zeros 12) 0
              (bs "hi") 0) as (_ & _ & ct & E1 & E2); [done|by vm_compute|].
  exists ct. exact (conj E1 E2).
Defined.

(** The tag cannot be read: the context is still freed. *)
Definition no_tag (c : evp_call) : bool := match c with GetTag => false | _ => true end.

Lemma aes_frees_its_context_witness :
  aes_encrypt no_tag (bs "hi") (zeros 32) (zeros 12) 5 = (throw "aes_encrypt: get tag failed", 5) /\
  (aes_decrypt no_tag (bs "hi") (zeros 32) (zeros 12) 5).2 = 5.
Proof.
  destruct (aes_frees_its_context no_tag (bs "hi") (zeros 32) (zeros 12) 5) as (_ & _ & Hd & _);
    [by vm_compute|].
  split; [by vm_compute|exact Hd].
Defined.
