(* ===== verification/Serializer.v ===== *)
(** * Serializers: [src/serializer/serializer.h]

    Messages and protobuf's conversions are parameters; a serializer is one of
    the two subclasses, and the factories choose it by type or by name. *)
From S2P Require Import Prelude.

(** [SerializeToString] and [ParseFromString], [MessageToJsonString] and
    [JsonStringToMessage]; a JSON failure has a status message. *)
Class Protobuf (Msg : Type) := {
  SerializeToString : Msg -> option str;
  ParseFromString : str -> option Msg;
  MessageToJsonString : Msg -> str + str;
  JsonStringToMessage : str -> option Msg
}.

(** Parsing inverts a successful serialization. *)
Class ProtobufLaws (Msg : Type) `{Protobuf Msg} := {
  binary_inverse m s : SerializeToString m = Some s -> ParseFromString s = Some m;
  json_inverse m s : MessageToJsonString m = inr s -> JsonStringToMessage s = Some m
}.

Inductive SerializerType := PROTOBUF | JSON.
Definition SerializerType_value (t : SerializerType) : Z := match t with PROTOBUF => 0 | JSON => 1 end.

Inductive Serializer := ProtobufSerializer | JsonSerializer.

Definition name (s : Serializer) : str :=
  match s with ProtobufSerializer => bs "protobuf" | JsonSerializer => bs "json" end.
Definition type (s : Serializer) : SerializerType :=
  match s with ProtobufSerializer => PROTOBUF | JsonSerializer => JSON end.

Section serializer.
Context {Msg : Type} `{Protobuf Msg}.

Definition serialize (s : Serializer) (msg : Msg) : outcome str :=
  match s with
  | ProtobufSerializer =>
      match SerializeToString msg with
      | Some data => Ok data
      | None => throw "protobuf: SerializeToString failed"
      end
  | JsonSerializer =>
      match MessageToJsonString msg with
      | inr json => Ok json
      | inl status => Throw (runtime_error (bs "json serialize: " ++ status))
      end
  end.

(** The result and the message afterwards, when parsing succeeded. *)
Definition deserialize (s : Serializer) (data : str) : option Msg :=
  match s with
  | ProtobufSerializer => ParseFromString data
  | JsonSerializer => JsonStringToMessage data
  end.
End serializer.

(** [create_serializer] of a type: the cast of a byte to the enum may hold any
    value. *)
Definition create_serializer (t : Z) : outcome Serializer :=
  if t =? SerializerType_value PROTOBUF then Ok ProtobufSerializer
  else if t =? SerializerType_value JSON then Ok JsonSerializer
  else throw "unknown serializer type".

Definition create_serializer_named (nm : str) : outcome Serializer :=
  if bool_decide (nm = bs "protobuf") || bool_decide (nm = bs "proto") then Ok ProtobufSerializer
  else if bool_decide (nm = bs "json") then Ok JsonSerializer
  else Throw (runtime_error (bs "unknown serializer: " ++ nm)).

(** ** Theorems *)

(** What one side serializes the other side reads.  The header's serializer
    byte and the serializer's name both lead the factories back to the same
    serializer, and that serializer reads back every message it wrote. *)
Theorem serializer_roundtrip {Msg} `{ProtobufLaws Msg} (s : Serializer) (m : Msg) data :
  serialize s m = Ok data ->
  create_serializer (SerializerType_value (type s)) = Ok s /\
  create_serializer_named (name s) = Ok s /\ deserialize s data = Some m.
Proof.
  intros E. split_and!; [by destruct s..|]. destruct s; cbn in E |- *; split_match E; simplify_eq.
  - by apply binary_inverse.
  - by apply json_inverse.
Qed.

(** Messages that are strings. *)
#[export] Instance string_messages : Protobuf str := {|
  SerializeToString m := if bool_decide (len m < 2 ^ 31) then Some m else None;
  ParseFromString s := Some s;
  MessageToJsonString m := inr (bs "{" ++ m);
  JsonStringToMessage s := match s with _ :: m => Some m | [] => None end
|}.
#[export] Instance string_laws : ProtobufLaws str.
Proof. split; cbn; intros m s; [case_bool_decide; [|done]|]; by intros [= <-]. Qed.

Lemma serializer_roundtrip_witness : deserialize JsonSerializer (bs "{x") = Some (bs "x").
Proof. by apply (serializer_roundtrip JsonSerializer (bs "x") (bs "{x")). Defined.
