(* ===== verification/ServerMain.v ===== *)
(** * The server program: [src/server_main.cpp]

    The built-in service, the command line, how it and the configuration settle the
    port and the pool's size, and [main] with what it prints: its start up to the
    creation of [server_thread], that thread's [server.start(port)], which can fail
    and then ends the program, and the end.  [main] polls its flag every half a
    second: that the server's thread has started to listen, or failed, before [main]
    goes on is taken for granted.  What happens while it sleeps is an argument. *)
From S2P Require Import Prelude Text Protocol ErrorCode ServiceManager ThreadPool RpcServer Config.
From S2P Require Import Program LogInit Console MessageCycle Executor.

(** ** [PingService] *)

(** A string between double quotes. *)
Definition quoted (s : string) : str := chr 34 :: bs s ++ [chr 34].

Definition PingService_handle (conn_count : Z) (method params : str) : outcome str :=
  if bool_decide (method = bs "Ping") then Ok (bs "pong")
  else if bool_decide (method = bs "Stats") then
    Ok (bs "{" ++ quoted "status" ++ bs ":" ++ quoted "running" ++ bs "," ++ quoted "connections" ++
        bs ":" ++ to_string conn_count ++ bs "}")
  else Throw (runtime_error (bs "unknown method: " ++ method)).

(** [conn_count] is what the counter function returns. *)
Definition PingService (conn_count : Z) : Service :=
  {| svc_name := bs "PingService"; svc_methods := [bs "Ping"; bs "Stats"];
     svc_handle := PingService_handle conn_count |}.

(** ** The command line *)

Record options := { config_path : str; override_port : Z }.
Definition options_default : options :=
  {| config_path := bs "src/config/server_config.json"; override_port := 0 |}.

Inductive parsed (A : Type) := Run (a : A) | Help.
Arguments Run {A}. Arguments Help {A}.

(** The loop over [argv[1..]]. *)
Fixpoint parse_args (args : list str) (o : options) : outcome (parsed options) :=
  match args with
  | [] => Ok (Run o)
  | arg :: rest =>
      if bool_decide (arg = bs "--config") then
        match rest with
        | v :: rest => parse_args rest {| config_path := v; override_port := override_port o |}
        | [] => parse_args rest o
        end
      else if bool_decide (arg = bs "--port") then
        match rest with
        | v :: rest => n ← stoi v; parse_args rest {| config_path := config_path o; override_port := u16 n |}
        | [] => parse_args rest o
        end
      else if bool_decide (arg = bs "--help") then Ok Help
      else parse_args rest o
  end.

(** The port after [--port], and the pool's number of threads: an [int] converted
    to [size_t]. *)
Definition listen_port (o : options) (cfg : Config) : Z :=
  if 0 <? override_port o then override_port o else srv_port (server cfg).
Definition pool_size (cfg : Config) : Z := u64 (thread_pool_size (server cfg)).

(** The services of the server program. *)
Definition server_manager (conn_count : Z) : ServiceManager :=
  register_service (Some (PingService conn_count)) ServiceManager_init.

(** ** The program: [main] *)

Section server_main.
Context {J : Type} `{Json J}.

(** The file system, [level::from_str], [std::thread::hardware_concurrency()], and
    the number that the connection counter of the service returns. *)
Variable read_file : str -> option str.
Variable make_dirs : str -> outcome unit.
Variable from_str : str -> level.
Variable hardware_concurrency : Z.
Variable conn_count : Z.

(** The server of the program: its pool is a [ThreadPool]. *)
Abbreviation Server := (@RpcServer (ThreadPool task)).
Abbreviation P := (prog (io Server)).

(** A member function of the server. *)
Definition on_server (f : Server -> option Server) : P unit :=
  on_world (fun s => match f s with Some s => Returned tt s | None => Undefined end).

Definition usage : str :=
  bs "RPC Server" ++ newline ++
  bs "  --config <path>   config file path" ++ newline ++
  bs "  --port   <port>   override listen port" ++ newline ++
  bs "  --help             show this help" ++ newline.

(** The constructor of [ThreadPool]: [workers_.reserve] of an array of handles of
    8 bytes each. *)
Definition make_pool (num_threads : Z) : P (ThreadPool task) :=
  let n := pool_threads num_threads hardware_concurrency in
  _ ← attempt (if max_size <? 8 * n then Throw (other_std_exception (bs "vector::reserve")) else Ok tt);
  _ ← print (bs "[thread_pool] started " ++ to_string n ++ bs " worker threads" ++ newline);
  mret (ThreadPool_init num_threads hardware_concurrency).

(** Up to the creation of [server_thread]: [Help], or the port it is given. *)
Definition startup (args : list str) : P (parsed Z) :=
  o ← attempt (parse_args args options_default);
  match o with
  | Help => _ ← print usage; mret Help
  | Run o =>
      _ ← print (bs "Loading config: " ++ config_path o ++ newline);
      cfg ← attempt (load_config (read_file (config_path o)));
      _ ← print (print_config cfg);
      let port := listen_port o cfg in
      _ ← print (if 0 <? override_port o
                 then bs "Port override: " ++ int_string (override_port o) ++ newline else []);
      _ ← setup_log make_dirs from_str (log_dir (log cfg)) (log_file (log cfg)) (log_level (log cfg));
      pool ← make_pool (pool_size cfg);
      _ ← on_server (fun s => Some (RpcServer.set_pool (Some pool) s));
      _ ← on_server (fun s => Some (set_manager
            (register_service (Some (PingService conn_count)) (service_manager s)) s));
      _ ← print (newline ++ bs "Registered services:" ++ newline);
      names ← (fun x => Returned (list_services (service_manager (world x))) x);
      _ ← print (foldr (fun name t => bs "  - " ++ name ++ newline ++ t) [] names);
      _ ← print (newline ++ bs "Starting RPC server on 0.0.0.0:" ++ int_string port ++ bs " ..." ++
                 newline ++ bs "Press Ctrl+C to stop." ++ newline ++ newline);
      mret (Run port)
  end.

(** [server_thread]: [server.start(port)], up to its loop.  Nothing catches what
    is thrown on this thread: the exception ends the program. *)
Definition server_thread (port : Z) (failing : option listen_call) : P unit :=
  _ ← (fun x => match start port failing (world x) with
                | Some (r, s) => attempt r (with_world s x)
                | None => Undefined
                end);
  print (bs "RPC server listening on port " ++ int_string port ++ newline).

(** [main] until the server's thread is in [cycle_.run()]. *)
Definition launch (failing : option listen_call) (args : list str) : P (parsed Z) :=
  r ← startup args;
  match r with
  | Help => mret Help
  | Run port => _ ← server_thread port failing; mret (Run port)
  end.

(** After the waiting loop: [stop], and the end of the server's thread. *)
Definition shutdown : P unit :=
  _ ← print (newline ++ bs "Shutting down..." ++ newline);
  _ ← on_server stop;
  print (bs "Server stopped." ++ newline).

(** [wait] is what happens while the main thread sleeps and the server's thread is
    in its loop: connections, requests, and the signal that ends the sleep, if it
    comes. *)
Definition main (failing : option listen_call) (wait : prog Server unit) (args : list str) : P Z :=
  r ← launch failing args;
  match r with
  | Help => mret 0
  | Run _ =>
      _ ← on_world wait;
      _ ← shutdown;
      mret 0
  end.
End server_main.

(** ** Theorems *)

Lemma get_ping n : get_service (bs "PingService") (server_manager n) = Some (PingService n).
Proof.
  unfold get_service, server_manager, register_service. cbn [services_ ServiceManager_init svc_name PingService].
  by rewrite lookup_insert_eq.
Qed.

(** A decodable REQUEST goes to the dispatcher. *)
Lemma request_dispatched h req m :
  msg_type h = 1 -> request_wf req ->
  process_request h (request_bytes req) m = process_dispatch req m RpcResponse_init.
Proof. intros Ht Hw. unfold process_request. rewrite Ht. by rewrite (request_decode_own req Hw). Qed.

Lemma ping_answer req n :
  service_name req = bs "PingService" -> method_name req = bs "Ping" ->
  process_dispatch req (server_manager n) RpcResponse_init =
    Ok {| error_code := 0; error_msg := []; result := bs "pong" |}.
Proof.
  intros E1 E2. unfold process_dispatch, dispatch. rewrite E1, E2, get_ping. cbn [svc_methods PingService].
  rewrite bool_decide_eq_true_2 by set_solver. cbn [svc_handle PingService].
  unfold PingService_handle. by rewrite bool_decide_eq_true_2.
Qed.

(** The JSON text of [Stats]. *)
Definition stats_text (n : Z) : str :=
  bs "{" ++ quoted "status" ++ bs ":" ++ quoted "running" ++ bs "," ++ quoted "connections" ++
  bs ":" ++ to_string n ++ bs "}".

Lemma stats_answer req n :
  service_name req = bs "PingService" -> method_name req = bs "Stats" ->
  process_dispatch req (server_manager n) RpcResponse_init =
    Ok {| error_code := 0; error_msg := []; result := stats_text n |}.
Proof.
  intros E1 E2. unfold process_dispatch, dispatch. rewrite E1, E2, get_ping. cbn [svc_methods PingService].
  rewrite bool_decide_eq_true_2 by set_solver. cbn [svc_handle PingService].
  unfold PingService_handle. rewrite bool_decide_eq_false_2 by done. by rewrite bool_decide_eq_true_2.
Qed.

Lemma unknown_answer req n :
  service_name req <> bs "PingService" -> Forall (fun c => ord c <> 0) (service_name req) ->
  process_dispatch req (server_manager n) RpcResponse_init =
    Ok {| error_code := -1; error_msg := bs "service not found: " ++ service_name req; result := [] |}.
Proof.
  intros Hs Hz. unfold process_dispatch, dispatch.
  assert (get_service (service_name req) (server_manager n) = None) as ->.
  { unfold get_service, server_manager, register_service. cbn [services_ ServiceManager_init svc_name PingService].
    by rewrite lookup_insert_ne, lookup_empty by congruence. }
  rewrite c_str_no_nul by (apply Forall_app; split; [apply (bool_decide_unpack _); by vm_compute|done]).
  assert (contains (bs "service not found") (bs "service not found: " ++ service_name req) = true) as ->; [|done].
  apply contains_iff. by exists [], (bs ": " ++ service_name req).
Qed.

(** What the server program answers.  A REQUEST for [PingService.Ping] is
    answered with "pong" whatever its parameters, one for [Stats] with a JSON text
    whose number reads back as the connection count; any other method and any
    other service get their error code. *)
Theorem ping_service_answers h req n :
  msg_type h = 1 -> request_wf req -> 0 <= n < 2 ^ 64 ->
  let answer := process_request h (request_bytes req) (server_manager n) in
  (service_name req = bs "PingService" -> method_name req = bs "Ping" ->
     answer = Ok {| error_code := 0; error_msg := []; result := bs "pong" |}) /\
  (service_name req = bs "PingService" -> method_name req = bs "Stats" ->
     exists pre num post, answer = Ok {| error_code := 0; error_msg := []; result := pre ++ num ++ post |} /\
       pre = bs "{" ++ quoted "status" ++ bs ":" ++ quoted "running" ++ bs "," ++ quoted "connections" ++ bs ":" /\
       post = bs "}" /\ read_digits None num = Some n) /\
  (service_name req <> bs "PingService" -> Forall (fun c => ord c <> 0) (service_name req) ->
     answer = Ok {| error_code := -1; error_msg := bs "service not found: " ++ service_name req; result := [] |}).
Proof.
  intros Ht Hw Hn answer. unfold answer. rewrite request_dispatched by done. split_and!.
  - apply ping_answer.
  - intros Es Em. exists (bs "{" ++ quoted "status" ++ bs ":" ++ quoted "running" ++ bs "," ++
      quoted "connections" ++ bs ":"), (to_string n), (bs "}").
    split_and!; [|done|done|apply read_digits_digits; lia].
    rewrite stats_answer by done. unfold stats_text. by rewrite <- !app_assoc.
  - apply unknown_answer.
Qed.

(** A port on the command line is taken modulo [2^16].  The decimal text of
    any non-negative [int] is accepted after [--port]; the server listens on the
    number modulo 65536, and on the configured port when that is 0.  No value is
    refused as out of range. *)
Theorem port_option_wraps n cfg :
  0 <= n < 2 ^ 31 ->
  exists o, parse_args [bs "--port"; to_string n] options_default = Ok (Run o) /\
    config_path o = config_path options_default /\
    listen_port o cfg = if n mod 2 ^ 16 =? 0 then srv_port (server cfg) else n mod 2 ^ 16.
Proof.
  intros Hn. cbn [parse_args]. rewrite bool_decide_eq_false_2, bool_decide_eq_true_2 by done.
  rewrite (bind_ok _ _ n) by (by apply stoi_to_string). eexists. split; [reflexivity|]. split; [done|].
  unfold listen_port. cbn [override_port]. unfold wrap.
  pose proof (Z.mod_pos_bound n (2 ^ 16)). destruct (Z.eqb_spec (n mod 2 ^ 16) 0) as [->|]; [done|].
  by destruct (Z.ltb_spec 0 (n mod 2 ^ 16)); [|lia].
Qed.

(** ** The program as a whole *)

Section started.
Context {J : Type} `{Json J}.
Variable read_file : str -> option str.
Variable make_dirs : str -> outcome unit.
Variable from_str : str -> level.
Variable hardware_concurrency conn_count : Z.

Abbreviation Server := (@RpcServer (ThreadPool task)).
Abbreviation boot := (startup read_file make_dirs from_str hardware_concurrency conn_count).
Abbreviation launched := (launch read_file make_dirs from_str hardware_concurrency conn_count).

(** The server [main] builds, before [start] and after one that succeeds. *)
Definition built (n : Z) : Server :=
  set_manager (server_manager conn_count)
    (RpcServer.set_pool (Some (ThreadPool_init n hardware_concurrency)) RpcServer_init).
Definition started_server (port n : Z) : Server :=
  set_cycle (start_listen port None MessageCycle_init).2 (set_running true (built n)).

Lemma built_reachable n (Hn : 0 <= n) (Hh : 0 <= hardware_concurrency) :
  server_reachable (HX := pool_executor n hardware_concurrency Hn Hh) (built n).
Proof. by apply (run_steps _ [SvSetPool; SvManager (Register (Some (PingService conn_count)))]). Qed.

Lemma started_reachable port n (Hn : 0 <= n) (Hh : 0 <= hardware_concurrency) :
  server_reachable (HX := pool_executor n hardware_concurrency Hn Hh) (started_server port n).
Proof. eapply rtc_r; [by apply built_reachable|]. by exists (SvStart port None). Qed.

Lemma on_server_runs f (s s' : Server) :
  f s = Some s' -> runs s (on_server f) (fun _ t v => t = [] /\ v = s').
Proof.
  intros E. eapply runs_weaken; [apply (runs_world s _ tt s'); by rewrite E|]. by intros ? ? ? (_ & -> & ->).
Qed.

Lemma make_pool_runs (s : Server) n :
  8 * pool_threads n hardware_concurrency <= max_size ->
  runs s (make_pool hardware_concurrency n)
    (fun p _ v => p = ThreadPool_init n hardware_concurrency /\ v = s).
Proof.
  intros Hm. unfold make_pool. eapply runs_bind; [by apply runs_attempt; dec; [lia|]|].
  intros ? ? ? (-> & -> & ->). eapply runs_bind; [apply runs_print|]. intros ? ? ? [-> ->].
  by apply runs_ret.
Qed.

(** The beginning of [main], up to the creation of the pool. *)
Definition loading_text (o : options) (cfg : Config) : str :=
  bs "Loading config: " ++ config_path o ++ newline ++ print_config cfg ++
  if 0 <? override_port o then bs "Port override: " ++ int_string (override_port o) ++ newline else [].

Lemma boot_runs args o cfg :
  parse_args args options_default = Ok (Run o) ->
  load_config (read_file (config_path o)) = Ok cfg -> make_dirs (log_dir (log cfg)) = Ok tt ->
  8 * pool_threads (pool_size cfg) hardware_concurrency <= max_size ->
  runs RpcServer_init (boot args) (fun r t v => r = Run (listen_port o cfg) /\
    (exists rest, t = loading_text o cfg ++ rest) /\ v = built (pool_size cfg)).
Proof.
  intros Ha Hc Hd Hm. unfold startup.
  step ltac:(by apply runs_attempt). step ltac:(apply runs_print). step ltac:(by apply runs_attempt).
  step ltac:(apply runs_print). step ltac:(apply runs_print). step ltac:(by apply runs_setup).
  step ltac:(by apply make_pool_runs). do 2 step ltac:(by apply on_server_runs).
  step ltac:(apply runs_print).
  eapply runs_bind; [by apply (runs_read _ (fun s => list_services (service_manager s)))|].
  intros ? ? ? (-> & -> & ->).
  do 2 step ltac:(apply runs_print).
  apply runs_ret. split; [done|]. split; [|done].
  eexists. unfold loading_text. rewrite <- !app_assoc. cbn [app]. reflexivity.
Qed.

Lemma boot_raises args o cfg :
  parse_args args options_default = Ok (Run o) ->
  load_config (read_file (config_path o)) = Ok cfg -> make_dirs (log_dir (log cfg)) = Ok tt ->
  max_size < 8 * pool_threads (pool_size cfg) hardware_concurrency ->
  raises RpcServer_init (boot args) (other_std_exception (bs "vector::reserve")).
Proof.
  intros Ha Hc Hd Hm. unfold startup.
  eapply raises_bind; [by apply runs_attempt|]. intros ? ? ? (-> & -> & ->).
  eapply raises_bind; [apply runs_print|]. intros ? ? ? [-> ->].
  eapply raises_bind; [by apply runs_attempt|]. intros ? ? ? (-> & -> & ->).
  do 2 (eapply raises_bind; [apply runs_print|]; intros ? ? ? [-> ->]).
  eapply raises_bind; [by apply runs_setup|]. intros ? ? ? [-> ->].
  intros x _. unfold make_pool, mbind, prog_bind, attempt. dec; [by eexists|lia].
Qed.

(** The server's thread once the server is built. *)
Definition listening_text (port : Z) : str := bs "RPC server listening on port " ++ int_string port ++ newline.

Lemma thread_runs port n :
  runs (built n) (server_thread port None) (fun _ t v => t = listening_text port /\ v = started_server port n).
Proof.
  unfold server_thread. eapply (runs_bind _ _ _ (fun _ t v => t = [] /\ v = started_server port n)); [|intros ? ? ? [-> ->]].
  - intros x Hx. rewrite Hx. eexists tt, [], _. split; [reflexivity|]. by rewrite app_nil_r.
  - eapply runs_weaken; [apply runs_print|]. by intros ? ? ? [-> ->].
Qed.

Lemma launch_runs args o cfg :
  parse_args args options_default = Ok (Run o) ->
  load_config (read_file (config_path o)) = Ok cfg -> make_dirs (log_dir (log cfg)) = Ok tt ->
  8 * pool_threads (pool_size cfg) hardware_concurrency <= max_size ->
  runs RpcServer_init (launched None args) (fun r t v => r = Run (listen_port o cfg) /\
    (exists rest, t = loading_text o cfg ++ rest ++ listening_text (listen_port o cfg)) /\
    v = started_server (listen_port o cfg) (pool_size cfg)).
Proof.
  intros Ha Hc Hd Hm. unfold launch. eapply runs_bind; [by apply boot_runs|].
  intros r t v (-> & [rest ->] & ->). eapply runs_bind; [apply thread_runs|]. intros ? ? ? [-> ->].
  apply runs_ret. split; [done|]. split; [|done]. exists rest. by rewrite app_nil_r, <- app_assoc.
Qed.

Lemma launch_fails args o cfg call x :
  parse_args args options_default = Ok (Run o) ->
  load_config (read_file (config_path o)) = Ok cfg -> make_dirs (log_dir (log cfg)) = Ok tt ->
  8 * pool_threads (pool_size cfg) hardware_concurrency <= max_size -> world x = RpcServer_init ->
  exists x', launched (Some call) args x = Raised (system_error call) x' /\ acceptor_on (cycle_ (world x')) = None.
Proof.
  intros Ha Hc Hd Hm Hx. destruct (boot_runs args o cfg Ha Hc Hd Hm x Hx) as (r & t & x1 & E & (-> & _ & Hv) & _).
  unfold launch. erewrite bind_returned by exact E. unfold server_thread, mbind, prog_bind. rewrite Hv.
  destruct call; by eexists.
Qed.

(** C6: what the server program starts.  Take a command line that is not a request
    for help, a configuration that loads and a log directory that can be made.
    With a pool size of zero or more, [main] builds a server and its thread starts
    it: if none of the four calls on the acceptor fails, the server is listening
    on the port of the command line or else of the configuration, accepting,
    running and in a reachable state, with that many workers (the number of
    processors, or 4, for zero) and the Ping service registered, so that everything
    proved of reachable servers holds of it from here on, and the program has
    printed the settings it uses and, last, that it listens.  If one of the four
    fails, say because the port is in use, the exception leaves the thread, which
    ends the program with nothing listening.  A negative pool size does not get as
    far: it ends the program with an exception. *)
Theorem server_program_starts args o cfg x :
  parse_args args options_default = Ok (Run o) ->
  load_config (read_file (config_path o)) = Ok cfg -> make_dirs (log_dir (log cfg)) = Ok tt ->
  world x = RpcServer_init -> 0 <= hardware_concurrency < 2 ^ 31 ->
  - 2 ^ 31 <= thread_pool_size (server cfg) < 2 ^ 31 ->
  let n := thread_pool_size (server cfg) in
  let port := if 0 <? override_port o then override_port o else srv_port (server cfg) in
  (forall Hn : 0 <= n, forall Hh : 0 <= hardware_concurrency,
     (exists x', launched None args x = Returned (Run port) x' /\
        server_reachable (HX := pool_executor n hardware_concurrency Hn Hh) (world x') /\
        RpcServer.is_running (world x') = true /\
        acceptor_on (cycle_ (world x')) = Some port /\ chain (cycle_ (world x')) = Accepting /\
        service_manager (world x') = server_manager conn_count /\
        (exists p, thread_pool_ (world x') = Some p /\
           len (workers p) = if 0 <? n then n else if 0 <? hardware_concurrency then hardware_concurrency else 4) /\
        (exists rest, cout x' = cout x ++ loading_text o cfg ++ rest ++ listening_text port) /\ cerr x' = cerr x) /\
     (forall call, exists x', launched (Some call) args x = Raised (system_error call) x' /\
        acceptor_on (cycle_ (world x')) = None)) /\
  (n < 0 -> forall failing, exists x',
     launched failing args x = Raised (other_std_exception (bs "vector::reserve")) x').
Proof.
  intros Ha Hc Hd Hw Hh Hn n port. split.
  - intros Hn0 Hh0.
    assert (pool_size cfg = n) as Hp by (apply wrap_small; lia).
    assert (pool_threads n hardware_concurrency =
      if 0 <? n then n else if 0 <? hardware_concurrency then hardware_concurrency else 4) as Ht
      by (unfold pool_threads; dec; lia).
    assert (8 * pool_threads (pool_size cfg) hardware_concurrency <= max_size) as Hm
      by (rewrite Hp, Ht; unfold max_size; dec; lia).
    split; [|by intros call; eapply launch_fails].
    destruct (launch_runs args o cfg Ha Hc Hd Hm x Hw) as (r & t & x' & E & (-> & [rest ->] & Hv) & Ho & He).
    exists x'. rewrite Hv, Hp. split_and!; [done|by apply started_reachable|done..| | |done].
    + eexists. split; [reflexivity|]. cbn [workers ThreadPool_init]. unfold len.
      rewrite length_replicate, Ht. dec; lia.
    + by exists rest.
  - intros Hneg failing.
    destruct (boot_raises args o cfg Ha Hc Hd) with (x := x) as (x' & E); [|done|].
    + assert (pool_size cfg = n + 2 ^ 64) as ->.
      { unfold pool_size, wrap. fold n. symmetry. apply Z.mod_unique with (q := -1); lia. }
      unfold pool_threads, max_size. dec; lia.
    + exists x'. unfold launch, mbind, prog_bind. by rewrite E.
Qed.

(** Whatever happens while the program waits, the end of the wait ends the
    program: with status 0, the server stopped and no longer accepting.  When it
    never ends, neither does the program. *)
Theorem server_program_ends wait args o cfg x :
  parse_args args options_default = Ok (Run o) ->
  load_config (read_file (config_path o)) = Ok cfg -> make_dirs (log_dir (log cfg)) = Ok tt ->
  8 * pool_threads (pool_size cfg) hardware_concurrency <= max_size -> world x = RpcServer_init ->
  let program := main read_file make_dirs from_str hardware_concurrency conn_count None wait args x in
  match wait (started_server (listen_port o cfg) (pool_size cfg)) with
  | Returned _ s => exists x', program = Returned 0 x' /\
      RpcServer.is_running (world x') = false /\ acceptor_is_open (cycle_ (world x')) = false /\
      received (world x') = received s /\ answers (world x') = answers s
  | Polling s => exists x', program = Polling x'
  | Raised e s => exists x', program = Raised e x'
  | Undefined => program = Undefined
  end.
Proof.
  intros Ha Hc Hd Hm Hw program. unfold program.
  destruct (launch_runs args o cfg Ha Hc Hd Hm x Hw) as (r & t & x1 & E & (-> & _ & Hv) & _).
  unfold main. erewrite bind_returned by exact E. unfold on_world, mbind, prog_bind. rewrite Hv.
  destruct (wait _) as [u s|s|e s|]; [|by eexists..|done].
  eexists. split; [reflexivity|]. by cbn.
Qed.
End started.

Definition ping_request : RpcRequest :=
  {| service_name := bs "PingService"; method_name := bs "Ping"; timeout_ms := 5000; params := bs "x" |}.

Lemma ping_service_answers_witness :
  process_request (echo_header 1 (request_bytes ping_request)) (request_bytes ping_request) (server_manager 3) =
  Ok {| error_code := 0; error_msg := []; result := bs "pong" |}.
Proof.
  apply (ping_service_answers (echo_header 1 (request_bytes ping_request)) ping_request 3);
    [done|apply (bool_decide_unpack _); by vm_compute|lia|done|done].
Defined.

Lemma port_option_wraps_witness :
  exists o, parse_args [bs "--port"; bs "70000"] options_default = Ok (Run o) /\
    listen_port o Config_default = 4464.
Proof.
  destruct (port_option_wraps 70000 Config_default) as (o & E & _ & Hl); [lia|].
  exists o. exact (conj E Hl).
Defined.

(** A program started with [--port 9000] and no configuration file. *)
Definition fresh_server : io (@RpcServer (ThreadPool task)) :=
  {| world := RpcServer_init; cout := []; cerr := []; logger_state := log_state_init |}.
Definition port_9000 : options := {| config_path := config_path options_default; override_port := 9000 |}.

Lemma server_program_starts_witness :
  (exists x', launch (H := fixed_json None) (fun _ => None) (fun _ => Ok tt) (fun _ => info) 8 0 None
      [bs "--port"; bs "9000"] fresh_server = Returned (Run 9000) x' /\
    acceptor_on (cycle_ (world x')) = Some 9000 /\
    exists p, thread_pool_ (world x') = Some p /\ len (workers p) = 8) /\
  exists x', launch (H := fixed_json None) (fun _ => None) (fun _ => Ok tt) (fun _ => info) 8 0 (Some BindCall)
      [bs "--port"; bs "9000"] fresh_server = Raised (system_error BindCall) x'.
Proof.
  destruct (server_program_starts (H := fixed_json None) (fun _ => None) (fun _ => Ok tt) (fun _ => info) 8 0
    [bs "--port"; bs "9000"] port_9000 Config_default fresh_server) as [Hs _];
    [by vm_compute|done|done|done|lia|by vm_compute|].
  destruct (Hs ltac:(by vm_compute) ltac:(lia)) as ((x' & E & _ & _ & Hon & _ & _ & Hp & _) & Hf).
  split; [exists x'; exact (conj E (conj Hon Hp))|].
  destruct (Hf BindCall) as (x2 & E2 & _). exists x2. exact E2.
Defined.

Lemma server_program_ends_witness :
  exists x', main (H := fixed_json None) (fun _ => None) (fun _ => Ok tt) (fun _ => info) 8 0 None
      (fun s => Returned tt s) [bs "--port"; bs "9000"] fresh_server = Returned 0 x' /\
    RpcServer.is_running (world x') = false.
Proof.
  destruct (server_program_ends (H := fixed_json None) (fun _ => None) (fun _ => Ok tt) (fun _ => info) 8 0
    (fun s => Returned tt s) [bs "--port"; bs "9000"] port_9000 Config_default fresh_server) as (x' & E & Hr & _);
    [by vm_compute|done|done|by vm_compute|done|].
  exists x'. exact (conj E Hr).
Defined.
