(* ===== verification/Shutdown.v ===== *)
(** * The end of the server program: destruction order in [src/server_main.cpp]

    [main] declares the pool before the server, so that when it returns the server
    is destroyed first and the pool last.  The tasks of the pool hold a pointer to
    the server ([this] in the lambda of [on_message]) and their connections, whose
    sockets belong to the server's [io_context].  Here the server's system goes
    through the stages of that end; a thread that uses the server after it is gone
    has undefined behaviour. *)
From S2P Require Import Prelude WriteQueue Protocol Connection MessageCycle AsyncCycle.
From S2P Require Import Executor ThreadPool RpcServer ServerMain.

(** Where [main] stands, from the waiting loop to the end of the pool's destructor. *)
Inductive stage :=
  | Serving            (* while (g_running) *)
  | StopCalled         (* server.stop() *)
  | LoopEnded          (* server_thread joined *)
  | ServerDestroyed    (* ~RpcServer returned, ~ThreadPool under way *)
  | PoolDestroyed.

Section shutdown.
Variables num_threads hardware_concurrency conn_count port : Z.
Hypotheses (Hn : 0 <= num_threads) (Hh : 0 <= hardware_concurrency).
#[local] Instance the_pool : Executor task (ThreadPool task) (pool_event task) :=
  pool_executor num_threads hardware_concurrency Hn Hh.

Abbreviation Server := (@RpcServer (ThreadPool task)).
Abbreviation event := (@server_event (pool_event task)).

Record program := { prog_server : Server; prog_stage : stage }.

Definition program_init : program :=
  {| prog_server := started_server hardware_concurrency conn_count port num_threads; prog_stage := Serving |}.

(** ** Destructors *)

(** [MessageCycle::~MessageCycle]: [stop()], the thread being joined already. *)
Definition MessageCycle_dtor (c : MessageCycle) : MessageCycle := stop_cycle c.

(** [RpcServer::~RpcServer]: [stop()], then the members. *)
Definition RpcServer_dtor (s : Server) : Server :=
  let s := set_cycle (stop_cycle (cycle_ s)) (set_running false s) in
  set_cycle (MessageCycle_dtor (cycle_ s)) s.

(** ** Steps *)

(** Events of the pool's destructor, which [main] causes. *)
Definition dtor_event (ev : pool_event task) : bool :=
  match ev with EvStop | EvNotifyAll | EvJoin => true | _ => false end.

(** Steps of a thread inside [Connection::send]. *)
Definition in_send (ev : conn_event) : bool :=
  match ev with EvPush _ | EvDoWrite _ | EvIssue _ => true | _ => false end.

(** What the other threads do in each stage: the loop's thread and the workers,
    then the workers alone. *)
Definition allowed (st : stage) (ev : event) : bool :=
  match st, ev with
  | (Serving | StopCalled), (SvCycle _ | SvMessage _ | SvReplied _) => true
  | (Serving | StopCalled | LoopEnded | ServerDestroyed), SvPool ev => negb (dtor_event ev)
  | (LoopEnded | ServerDestroyed), SvCycle (CConn _ ev) => in_send ev
  | _, _ => false
  end.

(** A worker's step when the server is gone: running a task's body or being inside
    [send] uses it. *)
Definition orphan_step (s : Server) (ev : event) : option (outcome Server) :=
  match ev with
  | SvPool ev =>
      x ← thread_pool_ s;
      x' ← ex_step x ev;
      Some match ex_runs x ev with
           | Some _ => UB
           | None => Ok (RpcServer.set_pool (Some x') s)
           end
  | SvCycle ev => _ ← cycle_step (cycle_ s) ev; Some UB
  | _ => None
  end.

Definition thread_step (p : program) (ev : event) : option (outcome program) :=
  if allowed (prog_stage p) ev then
    match prog_stage p with
    | ServerDestroyed =>
        o ← orphan_step (prog_server p) ev;
        Some (s ← o; Ok {| prog_server := s; prog_stage := ServerDestroyed |})
    | st => s ← server_step (prog_server p) ev; Some (Ok {| prog_server := s; prog_stage := st |})
    end
  else None.

(** [ios_.run()] returns after the handler in progress. *)
Definition handlers_done (s : Server) : bool :=
  forallb (fun k => match reading k with InCallback _ _ => false | _ => true end) (heap (cycle_ s)) &&
  match closing (cycle_ s) with [] => true | _ => false end.

Inductive program_event :=
  | PThread (ev : event)          (* another thread *)
  | PStop                         (* server.stop() *)
  | PJoinLoop                     (* server_thread.join() *)
  | PDestroyServer                (* ~RpcServer *)
  | PDestroyPool (ev : pool_event task).  (* ~ThreadPool, step by step *)

Definition program_step (p : program) (ev : program_event) : option (outcome program) :=
  match ev, prog_stage p with
  | PThread ev, _ => thread_step p ev
  | PStop, Serving =>
      s ← stop (prog_server p); Some (Ok {| prog_server := s; prog_stage := StopCalled |})
  | PJoinLoop, StopCalled =>
      if handlers_done (prog_server p)
      then Some (Ok {| prog_server := prog_server p; prog_stage := LoopEnded |}) else None
  | PDestroyServer, LoopEnded =>
      Some (Ok {| prog_server := RpcServer_dtor (prog_server p); prog_stage := ServerDestroyed |})
  | PDestroyPool ev, ServerDestroyed =>
      if dtor_event ev then
        x ← thread_pool_ (prog_server p);
        x' ← pool_step x ev;
        Some (Ok {| prog_server := RpcServer.set_pool (Some x') (prog_server p);
                    prog_stage := match ev with EvJoin => PoolDestroyed | _ => ServerDestroyed end |})
      else None
  | _, _ => None
  end.

(** The steps whose behaviour is defined. *)
Definition program_next (p : program) (ev : program_event) : option program :=
  match program_step p ev with Some (Ok p') => Some p' | _ => None end.
Definition program_trans : program -> program -> Prop := steps_to program_next.
Definition program_reachable (p : program) : Prop := rtc program_trans program_init p.

(** The tasks that are queued, or taken and not run to their end. *)
Definition unfinished (x : ThreadPool task) : list task := tasks_ x ++ in_hand (workers x).

(** No thread is inside [send] on the connection. *)
Definition nobody_sends (k : Connection) : Prop :=
  senders k = [] /\ Forall (fun a => match a with InFlight _ => True | _ => False end) (writers k).

(** ** Lemmas *)

(** The server's pool, when it has one. *)
Definition pool_of (p : program) : option (ThreadPool task) := thread_pool_ (prog_server p).

Lemma process_and_send_pool t (s s' : Server) : process_and_send t s = Some s' -> thread_pool_ s' = thread_pool_ s.
Proof.
  unfold process_and_send. destruct t as [q [h b]]. intros Es.
  destruct (heap _ !! q); [|done]. cbn in Es.
  destruct (response_to h _) as [[rh rb]| |]; [|by simplify_eq..].
  destruct (conn_event_on _ _ _); [|done]. cbn in Es. by simplify_eq.
Qed.

(** The pool after an event of the server: the same, one more task, or one step. *)
Lemma server_step_pool (s s' : Server) ev x :
  server_step s ev = Some s' -> thread_pool_ s = Some x -> ev <> SvSetPool ->
  exists x', thread_pool_ s' = Some x' /\
    (x' = x \/ (exists t, ex_submit t x = Some x') \/ exists pev, ev = SvPool pev /\ ex_step x pev = Some x').
Proof.
  intros Es Hx Hne. destruct ev as [|op| | |cev|p|i|pev]; cbn [server_step] in Es; [done|..].
  - injection Es as <-. eauto.
  - unfold start in Es. destruct (cycle_step _ _); [|done]. cbn in Es. injection Es as <-. eauto.
  - unfold stop in Es. destruct (cycle_step _ _); [|done]. cbn in Es. injection Es as <-. eauto.
  - destruct (server_only cev); [done|]. destruct (cycle_step _ _); [|done]. cbn in Es. injection Es as <-. eauto.
  - unfold on_message in Es. destruct (heap _ !! p) as [k|]; [|done]. cbn [mbind option_bind] in Es.
    destruct (reading k); try done. destruct (bool_decide _); [done|]. cbn [set_log thread_pool_] in Es.
    rewrite Hx in Es. destruct (ex_submit _ x) as [x'|] eqn:Esub; unfold callback_ends in Es;
      (destruct (conn_event_on _ _ _); [|done]); cbn in Es; injection Es as <-; eauto 6.
  - unfold reply_done in Es. destruct (replying s !! i); [|done]. cbn [mbind option_bind] in Es.
    destruct (heap _ !! _) as [k|]; [|done]. cbn [mbind option_bind] in Es. destruct (senders k); [|done].
    unfold callback_ends in Es. destruct (conn_event_on _ _ _); [|done]. cbn in Es. injection Es as <-. eauto.
  - rewrite Hx in Es. cbn [mbind option_bind] in Es. destruct (ex_step x pev) as [x'|] eqn:Ex; [|done].
    cbn [mbind option_bind] in Es. exists x'. split; [|eauto 6].
    destruct (ex_runs x pev); [|by simplify_eq]. apply process_and_send_pool in Es. by rewrite Es.
Qed.

(** Only the destructor moves through its phases. *)
Lemma pool_step_dtor (x x' : ThreadPool task) pev :
  ex_step x pev = Some x' -> dtor_event pev = false -> dtor x' = dtor x.
Proof.
  intros E Hd. destruct pev as [t|who|i|i who|i| |j|j|j| | |]; try done; cbn in E.
  - unfold enqueue_notify in E. destruct (notifiers x); [done|]. destruct (notify_one _ _); [|done].
    cbn in E. by simplify_eq.
  - destruct (mux_free x); [|done]. unfold worker_lock in E. split_match E; by simplify_eq.
  - unfold worker_next in E. split_match E; try done; try (by simplify_eq).
    destruct (notify_one_drain _ _); [|done]. cbn in E. by simplify_eq.
  - split_match E; by simplify_eq.
  - destruct (mux_free x); [|done]. unfold drain_check in E. split_match E; by simplify_eq.
  - unfold drain_block in E. split_match E; by simplify_eq.
  - split_match E; by simplify_eq.
Qed.

(** In every stage there is a pool in a good state, and until the server is
    destroyed its destructor has not begun. *)
Definition stage_inv (p : program) : Prop :=
  match prog_stage p with
  | Serving | StopCalled | LoopEnded =>
      server_reachable (prog_server p) /\ exists x, pool_of p = Some x /\ dtor x = Alive
  | ServerDestroyed => exists x, pool_of p = Some x /\ ex_ok x /\ dtor x <> Joined
  | PoolDestroyed => True
  end.

Lemma server_pool_ok (s : Server) x : server_reachable s -> thread_pool_ s = Some x -> ex_ok x.
Proof. intros Hr Hx. pose proof (si_pool s (server_reachable_inv s Hr)) as Hp. rewrite Hx in Hp. apply Hp. Qed.

Lemma server_step_alive (s s' : Server) ev x st :
  server_step s ev = Some s' -> allowed st ev = true -> thread_pool_ s = Some x -> dtor x = Alive ->
  exists x', thread_pool_ s' = Some x' /\ dtor x' = Alive.
Proof.
  intros Es Ha Hx Hd.
  destruct (server_step_pool s s' ev x Es Hx) as (x' & Hx' & Hcase); [intros ->; by destruct st; cbn in Ha|].
  exists x'. split; [done|]. destruct Hcase as [-> |[[t Et]|(pev & -> & Ep)]]; [done| |].
  - cbn in Et. unfold enqueue in Et. destruct (stop_ x); by simplify_eq.
  - rewrite <- Hd. apply (pool_step_dtor x x' pev Ep). destruct st; cbn in Ha; by destruct (dtor_event pev).
Qed.

Lemma thread_step_inv p ev p' : stage_inv p -> thread_step p ev = Some (Ok p') -> stage_inv p' /\ prog_stage p' = prog_stage p.
Proof.
  unfold thread_step. intros Hinv Es. destruct (allowed (prog_stage p) ev) eqn:Ha; [|done].
  destruct (prog_stage p) eqn:Hst; unfold stage_inv in Hinv; rewrite Hst in Hinv.
  1-3: destruct (server_step (prog_server p) ev) as [s'|] eqn:Es'; [|done]; cbn in Es; injection Es as <-;
    destruct Hinv as (Hr & x & Hx & Hd); split; [|reflexivity]; split;
    [eapply rtc_r; [exact Hr|by exists ev]|by eapply server_step_alive].
  - destruct (orphan_step (prog_server p) ev) as [o|] eqn:Eo; [|done]. cbn in Es. destruct o as [s| |]; try done.
    injection Es as <-. split; [|done]. destruct Hinv as (x & Hx & Hok & Hd).
    destruct ev as [| | | |cev| | |pev]; try done; unfold orphan_step in Eo.
    + by destruct (cycle_step _ _).
    + unfold pool_of in Hx. rewrite Hx in Eo. cbn [mbind option_bind] in Eo.
      destruct (ex_step x pev) as [x'|] eqn:Ex; [|done]. cbn [mbind option_bind] in Eo.
      destruct (ex_runs x pev); [done|]. injection Eo as <-. exists x'. split_and!; [done|by eapply ex_ok_step|].
      rewrite (pool_step_dtor x x' pev Ex); [done|]. cbn in Ha. by destruct (dtor_event pev).
  - done.
Qed.

Lemma program_reachable_inv p : program_reachable p -> stage_inv p.
Proof.
  intros Hr. refine (steps_invariant program_next stage_inv _ _ _ Hr _); clear p Hr.
  - intros p ev p' Hinv E. unfold program_next in E.
    destruct (program_step p ev) as [[q| |]|] eqn:Es; try done. injection E as ->.
    unfold program_step in Es. destruct ev as [ev| | | |ev].
    + by apply thread_step_inv in Es as [].
    + destruct (prog_stage p) eqn:Hst; try done. unfold stage_inv in Hinv. rewrite Hst in Hinv.
      destruct Hinv as (Hr & x & Hx & Hd). destruct (stop (prog_server p)) as [s|] eqn:E; [|done].
      cbn in Es. injection Es as <-. split; [eapply rtc_r; [exact Hr|by exists SvStop]|].
      exists x. split; [|done]. unfold stop in E. destruct (cycle_step _ _); [|done]. cbn in E. by injection E as <-.
    + destruct (prog_stage p) eqn:Hst; try done. destruct (handlers_done _); [|done]. injection Es as <-.
      unfold stage_inv in *. by rewrite Hst in Hinv.
    + destruct (prog_stage p) eqn:Hst; try done. injection Es as <-.
      unfold stage_inv in *. rewrite Hst in Hinv. destruct Hinv as (Hr & x & Hx & Hd).
      exists x. split_and!; [done|by eapply server_pool_ok|by rewrite Hd].
    + destruct (prog_stage p) eqn:Hst; try done. destruct (dtor_event ev) eqn:Hdt; [|done].
      unfold stage_inv in Hinv. rewrite Hst in Hinv. destruct Hinv as (x & Hx & Hok & Hd).
      unfold pool_of in Hx. rewrite Hx in Es. cbn [mbind option_bind] in Es.
      destruct (pool_step x ev) as [x'|] eqn:Ex; [|done]. cbn [mbind option_bind] in Es. injection Es as <-.
      destruct ev; try done.
      * exists x'. split_and!; [done|exact (ex_ok_step x EvStop x' Hok Ex)|]. cbn in Ex. destruct (mux_free x); [|done]. unfold dtor_stop in Ex. split_match Ex; by simplify_eq.
      * exists x'. split_and!; [done|exact (ex_ok_step x EvNotifyAll x' Hok Ex)|]. cbn in Ex. unfold dtor_notify_all in Ex. split_match Ex; by simplify_eq.
  - split; [by apply started_reachable|]. by eexists.
Qed.

(** A step that runs no task keeps the unfinished ones. *)
Lemma in_hand_wake (ws : list (worker task)) :
  in_hand ((fun w => if is_blocked w then Top else w) <$> ws) = in_hand ws.
Proof. unfold in_hand. induction ws as [|w ws IH]; [done|]. cbn. rewrite IH. by destruct w. Qed.

Lemma pool_step_unfinished (x x' : ThreadPool task) pev :
  ex_step x pev = Some x' -> ex_runs x pev = None -> unfinished x' ≡ₚ unfinished x.
Proof.
  intros E Hruns. destruct pev as [t|who|i|i who|i| |j|j|j| | |]; try done; cbn in E, Hruns.
  - unfold enqueue_notify in E. destruct (notifiers x); [done|].
    destruct who as [i|]; cbn in E.
    + destruct (workers x !! i) as [[]|] eqn:Hw; try done. injection E as <-. unfold unfinished. cbn -[in_hand].
      by rewrite (in_hand_same _ _ _ _ Hw).
    + destruct (existsb _ _); [done|]. by injection E as <-.
  - destruct (mux_free x); [|done]. unfold worker_lock in E.
    destruct (workers x !! i) as [[]|] eqn:Hw; try done.
    destruct (tasks_ x) as [|t r] eqn:Et; [destruct (stop_ x)|]; injection E as <-; unfold unfinished; cbn -[in_hand]; rewrite Et.
    1-2: by rewrite (in_hand_same _ _ _ _ Hw).
    pose proof (in_hand_insert (workers x) i Top (Popped t) Hw) as Hp. rewrite app_nil_r in Hp. rewrite Hp.
    cbn [hand app]. by rewrite <- Permutation_cons_append, <- Permutation_middle.
  - unfold worker_next in E. destruct (workers x !! i) as [[]|] eqn:Hw; try done.
    5: destruct (notify_one_drain who (drainers x)); [|done].
    all: injection E as <-; unfold unfinished; cbn -[in_hand]; by rewrite (in_hand_same _ _ _ _ Hw).
  - destruct (workers x !! i) as [[]|] eqn:Hw; try done. injection E as <-. unfold unfinished. cbn -[in_hand].
    by rewrite (in_hand_same _ _ _ _ Hw).
  - destruct (mux_free x); [|done]. unfold drain_check in E. split_match E; by simplify_eq.
  - unfold drain_block in E. split_match E; by simplify_eq.
  - split_match E; by simplify_eq.
  - destruct (mux_free x); [|done]. unfold dtor_stop in E. split_match E; by simplify_eq.
  - unfold dtor_notify_all in E. split_match E; simplify_eq. unfold unfinished. cbn -[in_hand]. by rewrite in_hand_wake.
  - unfold dtor_join in E. split_match E; by simplify_eq.
Qed.

Lemma workers_gone (ws : list (worker task)) :
  Forall (fun w => w = Blocked \/ w = Exited) ws -> in_hand ws = [].
Proof. unfold in_hand. by induction 1 as [|w ws [-> | ->] _ IH]. Qed.

(** A pool whose destructor can join has nothing left to run. *)
Lemma joined_finished (x x' : ThreadPool task) : ex_ok x -> pool_step x EvJoin = Some x' -> unfinished x = [].
Proof.
  intros [Hinv _] E. cbn in E. unfold dtor_join in E. destruct (dtor x); try done.
  destruct (forallb _ _) eqn:Hf; [|done].
  assert (Forall (fun w => w = Exited) (workers x)) as Hw.
  { apply Forall_forall. intros w Hin. apply list_elem_of_In in Hin.
    rewrite forallb_forall in Hf. specialize (Hf w Hin). by destruct w. }
  unfold unfinished. rewrite workers_gone by (eapply Forall_impl; [exact Hw|auto]). rewrite app_nil_r.
  destruct (workers x) as [|w ws] eqn:Ew.
  - pose proof (pi_positive x Hinv) as Hp. pose proof (pi_threads x Hinv) as Ht. rewrite Ew in Ht. unfold len in Ht. cbn in Ht. lia.
  - apply Forall_cons in Hw as [-> _]. apply (pi_exited x Hinv). rewrite Ew. by left.
Qed.

(** A stuck pool too. *)
Lemma stuck_finished (x : ThreadPool task) : ex_ok x -> stuck x -> unfinished x = [].
Proof.
  intros [Hinv _] Hs. destruct (stuck_done x Hinv Hs) as (Hw & Ht & _). unfold unfinished.
  by rewrite Ht, workers_gone.
Qed.

(** The state of [main] in the pool's destructor, with the pool [x]. *)
Definition destroying (p : program) (x : ThreadPool task) : Prop :=
  prog_stage p = ServerDestroyed /\ pool_of p = Some x /\ ex_ok x.

(** A worker's step there: undefined when it runs a task, and otherwise the pool's. *)
Lemma orphan_pool_step p x pev x' :
  destroying p x -> ex_step x pev = Some x' -> dtor_event pev = false ->
  program_step p (PThread (SvPool pev)) =
  Some match ex_runs x pev with
       | Some _ => UB
       | None => Ok {| prog_server := RpcServer.set_pool (Some x') (prog_server p); prog_stage := ServerDestroyed |}
       end.
Proof.
  intros (Hst & Hx & _) Ex Hd. unfold program_step, thread_step. rewrite Hst. unfold allowed. rewrite Hd.
  cbn [negb]. unfold orphan_step. unfold pool_of in Hx. rewrite Hx. cbn [mbind option_bind]. rewrite Ex.
  cbn [mbind option_bind]. by destruct (ex_runs x pev).
Qed.

(** The workers go on until one would use the server, or they are at rest. *)
Lemma workers_settle p x :
  destroying p x ->
  exists q y, rtc program_trans p q /\ destroying q y /\ dtor y = dtor x /\ unfinished y ≡ₚ unfinished x /\
    ((exists ev, program_step q ev = Some UB) \/ stuck y).
Proof.
  remember (Z.to_nat (pool_work x)) as k eqn:Hk. revert p x Hk.
  induction (lt_wf k) as [k _ IH]. intros p x -> Hp.
  destruct (decide (Exists (fun ev => pool_step x ev <> None) (pool_next x))) as [He|Hne].
  - apply Exists_exists in He as (pev & Hin & Hs). destruct (pool_step x pev) as [x'|] eqn:Ex; [|done].
    assert (pool_internal pev = true) as Hi.
    { pose proof (ex_next_internal (ExecutorRests := pool_rests num_threads hardware_concurrency Hn Hh) x) as Hf.
      rewrite Forall_forall in Hf. by apply Hf. }
    assert (ex_step x pev = Some x' /\ dtor_event pev = false /\ is_internal pev) as (Ex' & Hd & Hint)
      by by destruct pev.
    pose proof (orphan_pool_step p x pev x' Hp Ex' Hd) as Estep.
    destruct (ex_runs x pev) eqn:Er.
    { exists p, x. split_and!; [done..|]. left. by exists (PThread (SvPool pev)). }
    set (p' := {| prog_server := RpcServer.set_pool (Some x') (prog_server p); prog_stage := ServerDestroyed |}) in *.
    destruct Hp as (Hst & Hx & Hok).
    destruct (IH (Z.to_nat (pool_work x'))) with (p := p') (x := x') as (q & y & Hr & Hq & Hdy & Hu & Hend).
    + pose proof (pool_work_decreases x pev x' Hint Ex). pose proof (pool_work_nonneg x'). lia.
    + done.
    + split_and!; [done..|]. exact (ex_ok_step x pev x' Hok Ex').
    + exists q, y. split_and!; [|done| | |done].
      * eapply rtc_l; [|exact Hr]. exists (PThread (SvPool pev)). unfold program_next. by rewrite Estep.
      * rewrite Hdy. by apply (pool_step_dtor x x' pev).
      * rewrite Hu. by apply (pool_step_unfinished x x' pev).
  - exists p, x. split_and!; [done..|]. right. destruct Hp as (_ & _ & [_ Hdr]).
    apply pool_next_stuck; [done|]. intros ev Hev.
    destruct (pool_step x ev) eqn:E; [|done]. exfalso. apply Hne, Exists_exists. exists ev. by rewrite E.
Qed.

(** A defined step in the pool's destructor. *)
Lemma destroying_step p x ev p' :
  destroying p x -> program_next p ev = Some p' ->
  (prog_stage p' = PoolDestroyed /\ unfinished x = []) \/
  exists x', destroying p' x' /\ unfinished x' ≡ₚ unfinished x /\ cycle_ (prog_server p') = cycle_ (prog_server p).
Proof.
  intros (Hst & Hx & Hok) E. unfold program_next in E.
  destruct (program_step p ev) as [[q| |]|] eqn:Es; try done. injection E as ->.
  unfold program_step in Es. rewrite Hst in Es. destruct ev as [ev| | | |ev]; try done.
  - unfold thread_step in Es. rewrite Hst in Es. destruct (allowed _ _); [|done]. unfold orphan_step in Es.
    destruct ev as [| | | |cev| | |pev]; try done.
    { by destruct (cycle_step _ _). }
    unfold pool_of in Hx. rewrite Hx in Es. cbn [mbind option_bind] in Es.
    destruct (ex_step x pev) as [x'|] eqn:Ex; [|done]. cbn [mbind option_bind] in Es.
    destruct (ex_runs x pev) eqn:Er; [done|]. injection Es as <-. right. exists x'.
    split_and!; [|by apply (pool_step_unfinished x x' pev)|done].
    split_and!; [done..|]. exact (ex_ok_step x pev x' Hok Ex).
  - destruct (dtor_event ev) eqn:Hdt; [|done]. unfold pool_of in Hx. rewrite Hx in Es. cbn [mbind option_bind] in Es.
    destruct (pool_step x ev) as [x'|] eqn:Ex; [|done]. cbn [mbind option_bind] in Es. injection Es as <-.
    destruct ev; try done.
    + right. exists x'. split_and!; [|by apply (pool_step_unfinished x x' EvStop)|done].
      split_and!; [done..|]. exact (ex_ok_step x EvStop x' Hok Ex).
    + right. exists x'. split_and!; [|by apply (pool_step_unfinished x x' EvNotifyAll)|done].
      split_and!; [done..|]. exact (ex_ok_step x EvNotifyAll x' Hok Ex).
    + left. split; [done|]. by eapply joined_finished.
Qed.

Lemma pool_destroyed_final p ev : prog_stage p = PoolDestroyed -> program_step p ev = None.
Proof.
  intros Hst. unfold program_step. rewrite Hst. destruct ev; try done.
  unfold thread_step. rewrite Hst. by destruct ev as [| | | |[]| | |].
Qed.

(** What stays true of every state that the end of [main] reaches. *)
Lemma destroying_reaches p x q :
  destroying p x -> rtc program_trans p q ->
  (prog_stage q = PoolDestroyed /\ unfinished x = []) \/
  exists y, destroying q y /\ unfinished y ≡ₚ unfinished x /\ cycle_ (prog_server q) = cycle_ (prog_server p).
Proof.
  intros Hp Hr. revert x Hp. induction Hr as [p|p p1 q [ev E] Hr IH]; intros x Hp; [right; by exists x|].
  destruct (destroying_step p x ev p1 Hp E) as [[Hst Hu]|(x1 & Hp1 & Hu & Hc)].
  - left. split; [|done]. destruct Hr as [|p1 p2 q [ev2 E2] _]; [done|].
    unfold program_next in E2. by rewrite pool_destroyed_final in E2.
  - destruct (IH x1 Hp1) as [[Hst Hu1]|(y & Hq & Huy & Hcq)].
    + left. split; [done|]. apply Permutation_nil. by rewrite <- Hu, Hu1.
    + right. exists y. split_and!; [done|by rewrite Huy|congruence].
Qed.

Lemma connection_at_rest k ev : nobody_sends k -> in_send ev = true -> conn_step k ev = None.
Proof.
  intros [Hs Hw] Hi. destruct ev as [| | | | |i|i|i| |]; try done; cbn.
  - unfold send_push. by rewrite Hs.
  - unfold do_write. destruct (writers k !! i) as [a|] eqn:E; [|done].
    rewrite Forall_lookup in Hw. specialize (Hw _ _ E). by destruct a.
  - unfold issue_write. destruct (writers k !! i) as [a|] eqn:E; [|done].
    rewrite Forall_lookup in Hw. specialize (Hw _ _ E). by destruct a.
Qed.

(** With nothing left to run and nobody inside [send], no step uses the server. *)
Lemma finished_is_safe p x ev :
  destroying p x -> unfinished x = [] -> Forall nobody_sends (heap (cycle_ (prog_server p))) ->
  program_step p ev <> Some UB.
Proof.
  intros (Hst & Hx & Hok) Hu Hq Es. unfold program_step in Es. rewrite Hst in Es.
  destruct ev as [ev| | | |ev]; try done.
  - unfold thread_step in Es. rewrite Hst in Es. destruct (allowed _ _) eqn:Ha; [|done]. unfold orphan_step in Es.
    destruct ev as [| | | |cev| | |pev]; try done.
    + destruct cev as [| | | | | |i cev| | | |]; try done. cbn in Ha. cbn [cycle_step] in Es.
      destruct (is_start cev); [done|]. unfold conn_event_on in Es.
      destruct (heap _ !! i) as [k|] eqn:Hk; [|done]. rewrite Forall_lookup in Hq.
      by rewrite (connection_at_rest k cev (Hq _ _ Hk) Ha) in Es.
    + unfold pool_of in Hx. rewrite Hx in Es. cbn [mbind option_bind] in Es.
      destruct (ex_step x pev) as [x'|] eqn:Ex; [|done]. cbn [mbind option_bind] in Es.
      destruct (ex_runs x pev) as [t|] eqn:Er; [|done]. destruct pev as [| | |i who| | | | | | | |]; try done.
      cbn in Er. destruct (workers x !! i) as [w|] eqn:Hw; [|done]. destruct w; try done.
      apply app_nil in Hu as [_ Hu]. apply list_elem_of_lookup_2 in Hw.
      enough (t0 ∈ in_hand (workers x)) as Hin by (rewrite Hu in Hin; by apply not_elem_of_nil in Hin).
      unfold in_hand. apply list_elem_of_bind. exists (InTask t0). split; [by left|done].
  - destruct (dtor_event ev); [|done]. destruct (thread_pool_ _); [|done]. cbn [mbind option_bind] in Es.
    by destruct (pool_step _ _).
Qed.

(** The destructor wakes every worker. *)
Lemma destructor_notifies p x :
  destroying p x -> dtor x <> Joined ->
  exists q y, rtc program_trans p q /\ destroying q y /\ dtor y = Notified.
Proof.
  assert (forall p x ev x', destroying p x -> pool_step x ev = Some x' -> ev = EvStop \/ ev = EvNotifyAll ->
    exists q, program_trans p q /\ destroying q x') as Hstep.
  { intros p0 x0 ev x' (Hst & Hx & Hok) Ex Hev.
    exists {| prog_server := RpcServer.set_pool (Some x') (prog_server p0); prog_stage := ServerDestroyed |}.
    assert (dtor_event ev = true /\ ex_step x0 ev = Some x') as [Hd Ex'] by by destruct Hev as [-> | ->].
    split; [|split_and!; [done|done|exact (ex_ok_step x0 ev x' Hok Ex')]].
    exists (PDestroyPool ev). unfold program_next, program_step. rewrite Hst, Hd. unfold pool_of in Hx. rewrite Hx.
    cbn [mbind option_bind]. rewrite Ex. cbn [mbind option_bind]. by destruct Hev as [-> | ->]. }
  assert (forall p x, destroying p x -> dtor x = StopSet -> exists q y, rtc program_trans p q /\ destroying q y /\ dtor y = Notified) as Hset.
  { intros p0 x0 Hp0 Hd. destruct (pool_step x0 EvNotifyAll) as [x'|] eqn:Ex; [|cbn in Ex; unfold dtor_notify_all in Ex; by rewrite Hd in Ex].
    destruct (Hstep p0 x0 EvNotifyAll x' Hp0 Ex) as (q & Hq & Hq'); [by right|].
    exists q, x'. split_and!; [by apply rtc_once|done|]. cbn in Ex. unfold dtor_notify_all in Ex. rewrite Hd in Ex. by injection Ex as <-. }
  intros Hp Hj. destruct (dtor x) eqn:Hd; [|by apply (Hset p x)|by exists p, x|done].
  assert (mux_free x = true) as Hm by (unfold mux_free; destruct Hp as (_ & _ & [_ ->]); done).
  destruct (pool_step x EvStop) as [x'|] eqn:Ex; [|cbn in Ex; unfold dtor_stop in Ex; by rewrite Hm, Hd in Ex].
  destruct (Hstep p x EvStop x' Hp Ex) as (q & Hq & Hq'); [by left|].
  destruct (Hset q x' Hq') as (q2 & y & Hr & Hy); [|exists q2, y; split; [by eapply rtc_l|done]].
  cbn in Ex. unfold dtor_stop in Ex. rewrite Hm, Hd in Ex. by injection Ex as <-.
Qed.

(** Workers at rest after that have returned, and can be joined. *)
Lemma notified_joins p x :
  destroying p x -> dtor x = Notified -> stuck x -> exists q, program_trans p q /\ prog_stage q = PoolDestroyed.
Proof.
  intros (Hst & Hx & Hok) Hd Hs. pose proof Hok as [Hinv _]. destruct (stuck_done x Hinv Hs) as (Hw & _).
  assert (pool_step x EvJoin = Some (with_dtor (stop_ x) Joined x)) as Ex.
  { cbn. unfold dtor_join. rewrite Hd.
    assert (forallb (fun w => match w with Exited => true | _ => false end) (workers x) = true) as ->; [|done].
    apply forallb_forall. intros w Hin. apply list_elem_of_In in Hin. rewrite Forall_forall in Hw.
    destruct (Hw w Hin) as [-> | ->]; [|done]. exfalso. apply (pi_notified x Hinv); auto. }
  eexists. split; [exists (PDestroyPool EvJoin)|].
  - unfold program_next, program_step. rewrite Hst. cbn [dtor_event]. unfold pool_of in Hx. rewrite Hx.
    cbn [mbind option_bind]. rewrite Ex. reflexivity.
  - done.
Qed.

(** ** Theorem *)

(** C7: destroying the server before the pool is safe exactly when no task is
    unfinished.  Take any run of the server program that got to the point where the
    server has been destroyed and the pool's destructor is at work.  If the pool
    then still holds a task, queued or taken by a worker, the program cannot end
    without undefined behaviour: some worker comes to run a task on the destroyed
    server, and no run of defined steps finishes the pool's destructor.  If no task
    is left and no thread is inside [send], every further step is defined and the
    destructor can finish. *)
Theorem server_gone_before_pool p x :
  program_reachable p -> prog_stage p = ServerDestroyed -> pool_of p = Some x ->
  (unfinished x <> [] ->
     (exists q ev, rtc program_trans p q /\ program_step q ev = Some UB) /\
     (forall q, rtc program_trans p q -> prog_stage q <> PoolDestroyed)) /\
  (unfinished x = [] -> Forall nobody_sends (heap (cycle_ (prog_server p))) ->
     (forall q ev, rtc program_trans p q -> program_step q ev <> Some UB) /\
     exists q, rtc program_trans p q /\ prog_stage q = PoolDestroyed).
Proof.
  intros Hr Hst Hx. pose proof (program_reachable_inv p Hr) as Hinv. unfold stage_inv in Hinv. rewrite Hst, Hx in Hinv.
  destruct Hinv as (x' & [= <-] & Hok & Hd). assert (destroying p x) as Hp by done. split.
  - intros Hu. split.
    + destruct (workers_settle p x Hp) as (q & y & Hpq & Hq & _ & Huy & [[ev E]|Hs]); [by exists q, ev|].
      exfalso. apply Hu, Permutation_nil. rewrite <- Huy. by rewrite (stuck_finished y) by (done || apply Hq).
    + intros q Hpq E. by destruct (destroying_reaches p x q Hp Hpq) as [[_ ?]|(y & (? & _) & _)]; [|congruence].
  - intros Hu Hquiet.
    assert (forall q ev, rtc program_trans p q -> program_step q ev <> Some UB) as Hsafe.
    { intros q ev Hpq. destruct (destroying_reaches p x q Hp Hpq) as [[E _]|(y & Hq & Huy & Hc)].
      - by rewrite pool_destroyed_final.
      - eapply finished_is_safe; [done| |by rewrite Hc]. apply Permutation_nil. by rewrite Huy, Hu. }
    split; [done|].
    destruct (destructor_notifies p x Hp Hd) as (q1 & y1 & Hr1 & Hq1 & Hd1).
    destruct (workers_settle q1 y1 Hq1) as (q2 & y2 & Hr2 & Hq2 & Hd2 & _ & [[ev E]|Hs]).
    + exfalso. apply (Hsafe q2 ev); [by etransitivity|done].
    + destruct (notified_joins q2 y2 Hq2) as (q3 & Hr3 & E3); [congruence|done|].
      exists q3. split; [|done]. etransitivity; [exact Hr1|]. eapply rtc_r; [exact Hr2|exact Hr3].
Qed.
End shutdown.

(** ** Two runs of the program *)

Definition two_workers_step : program -> program_event -> option program :=
  program_next 2 8 ltac:(lia) ltac:(lia).

(** The program stops with nobody connected. *)
Definition stop_when_idle : list program_event := [PThread (SvCycle CRun); PStop; PThread (SvCycle CTake); PJoinLoop; PDestroyServer].

(** A request arrives, is given to the pool, and the program stops before a worker
    takes it. *)
Definition stop_when_busy : list program_event :=
  [PThread (SvCycle CRun); PThread (SvCycle (CAccept true)); PThread (SvCycle CInsert); PThread (SvCycle CStart);
   PThread (SvCycle CAgain);
   PThread (SvCycle (CConn 0 (EvHeader (Some (header_bytes (echo_header 7 (request_bytes ping_request)))))));
   PThread (SvCycle (CConn 0 (EvBody (Some (request_bytes ping_request)))));
   PThread (SvMessage 0); PStop; PThread (SvCycle CTake); PThread (SvCycle (CClose 0)); PJoinLoop; PDestroyServer].

Definition stopped_after (evs : list program_event) : program :=
  default (program_init 2 8 0 9000) (run two_workers_step evs (program_init 2 8 0 9000)).

Definition pool_left (p : program) : ThreadPool task := default (ThreadPool_init 2 8) (pool_of p).

Lemma server_gone_before_pool_witness :
  (exists q ev, rtc (steps_to two_workers_step) (stopped_after stop_when_busy) q /\
     program_step 2 8 ltac:(lia) ltac:(lia) q ev = Some UB) /\
  (exists q, rtc (steps_to two_workers_step) (stopped_after stop_when_idle) q /\ prog_stage q = PoolDestroyed).
Proof.
  split.
  - apply (server_gone_before_pool 2 8 0 9000 ltac:(lia) ltac:(lia) (stopped_after stop_when_busy) (pool_left (stopped_after stop_when_busy)));
      [apply run_reachable|by vm_compute..].
  - apply (server_gone_before_pool 2 8 0 9000 ltac:(lia) ltac:(lia) (stopped_after stop_when_idle) (pool_left (stopped_after stop_when_idle)));
      [apply run_reachable|by vm_compute..|].
    vm_compute. constructor.
Defined.
