(* ===== verification/ClientMain.v ===== *)
(** * The client program: [src/client_main.cpp]

    The command line, the stress mode and the interactive session, as programs
    over the client library.  The library, the clock and the file system are an
    interface; what the session prints is proved against any library that answers
    the way a server would, which [ClientSystem] shows of client library and server
    together. *)
From S2P Require Import Prelude Text Program Double Protocol ErrorCode ServiceManager RpcServer Config LogInit.
From S2P Require Import Console EndToEnd ServerMain.

Record client_options := {
  co_config_path : str;
  server_host : str;
  server_port : Z;
  host_set : bool;
  port_set : bool;
  stress_mode : bool;
  stress_count : Z
}.
Definition client_options_default : client_options :=
  {| co_config_path := bs "src/config/server_config.json"; server_host := bs "127.0.0.1";
     server_port := 8080; host_set := false; port_set := false; stress_mode := false;
     stress_count := 100 |}.

Definition with_config (v : str) (o : client_options) : client_options :=
  {| co_config_path := v; server_host := server_host o; server_port := server_port o;
     host_set := host_set o; port_set := port_set o; stress_mode := stress_mode o;
     stress_count := stress_count o |}.
Definition with_host (v : str) (o : client_options) : client_options :=
  {| co_config_path := co_config_path o; server_host := v; server_port := server_port o;
     host_set := true; port_set := port_set o; stress_mode := stress_mode o;
     stress_count := stress_count o |}.
Definition with_port (p : Z) (o : client_options) : client_options :=
  {| co_config_path := co_config_path o; server_host := server_host o; server_port := p;
     host_set := host_set o; port_set := true; stress_mode := stress_mode o;
     stress_count := stress_count o |}.
Definition with_stress (n : Z) (o : client_options) : client_options :=
  {| co_config_path := co_config_path o; server_host := server_host o; server_port := server_port o;
     host_set := host_set o; port_set := port_set o; stress_mode := true; stress_count := n |}.

(** [argv[i + 1][0] != '-'] *)
Definition is_count (v : str) : bool := match v with c :: _ => negb (ord c =? 45) | [] => true end.

(** The loop over [argv[1..]]. *)
Fixpoint parse_args (args : list str) (o : client_options) : outcome (parsed client_options) :=
  match args with
  | [] => Ok (Run o)
  | arg :: rest =>
      if bool_decide (arg = bs "--config") then
        match rest with v :: rest => parse_args rest (with_config v o) | [] => parse_args rest o end
      else if bool_decide (arg = bs "--host") then
        match rest with v :: rest => parse_args rest (with_host v o) | [] => parse_args rest o end
      else if bool_decide (arg = bs "--port") then
        match rest with
        | v :: rest => n ← stoi v; parse_args rest (with_port (u16 n) o)
        | [] => parse_args rest o
        end
      else if bool_decide (arg = bs "--stress") then
        match rest with
        | v :: rest' =>
            if is_count v then n ← stoi v; parse_args rest' (with_stress n o)
            else parse_args rest (with_stress (stress_count o) o)
        | [] => parse_args rest (with_stress (stress_count o) o)
        end
      else if bool_decide (arg = bs "--help") then Ok Help
      else parse_args rest o
  end.

(** Where the interactive mode connects to; stress mode ignores the configuration. *)
Definition target (o : client_options) (cfg : Config) : str * Z :=
  if stress_mode o then (server_host o, server_port o)
  else (if host_set o then server_host o else srv_host (server cfg),
        if port_set o then server_port o else srv_port (server cfg)).

(** ** Output, and what the program calls *)

(** The client library and the clock: [connect(...).get()] with the text of its
    exception, [call(...).get()] with the default timeout, [disconnect], and
    nanoseconds of [steady_clock]. *)
Class RpcApi (W : Type) := {
  api_connect : str -> Z -> prog W (option str);
  api_call : str -> str -> str -> prog W RpcResponse;
  api_disconnect : prog W unit;
  api_now : prog W Z
}.

Section client.
Context {W : Type} `{RpcApi W} {J : Type} `{Json J}.

(** The file system: a file's contents, and the creation of a log; spdlog's
    [level::from_str]. *)
Variable read_file : str -> option str.
Variable make_dirs : str -> outcome unit.
Variable from_str : str -> level.

Abbreviation P := (prog (io W)).

(** ** The stress mode: [run_stress] *)

Definition is_success (resp : RpcResponse) : bool :=
  (error_code resp =? 0) && bool_decide (result resp = bs "pong").

(** The loop: [success], [fail] and the latencies of the successes, in
    milliseconds. *)
Fixpoint stress_loop (n : nat) (i success fail : Z) (latencies : list double)
    : P (Z * Z * list double) :=
  match n with
  | O => mret (success, fail, latencies)
  | S n =>
      req_start ← on_world api_now;
      resp ← on_world (api_call (bs "PingService") (bs "Ping") (bs "stress_" ++ to_string i));
      req_end ← on_world api_now;
      let req_us := Z.quot (req_end - req_start) 1000 in
      if is_success resp
      then stress_loop n (i + 1) (success + 1) fail (latencies ++ [ddiv (of_int req_us) (of_int 1000)])
      else stress_loop n (i + 1) success (fail + 1) latencies
  end.

(** [latencies.reserve(count)]: the count as a [size_t]. *)
Definition reserve (count : Z) : outcome unit :=
  if count <? 0 then Throw (other_std_exception (bs "vector::reserve")) else Ok tt.

Definition stress_line (count success fail total_ms : Z) (latencies : list double) : str :=
  let l := sorted latencies in
  let avg_ms := ddiv (foldl dadd (of_int 0) l) (of_int (len l)) in
  let '(avg_ms, min_ms, max_ms) :=
    match l with
    | [] => (of_int 0, of_int 0, of_int 0)
    | x :: _ => (avg_ms, x, List.last l x)
    end in
  let qps := if 0 <? total_ms then ddiv (dmul (of_int success) (of_int 1000)) (of_int total_ms)
             else of_int 0 in
  bs "STRESS OK count=" ++ int_string count ++ bs " success=" ++ int_string success ++
  bs " fail=" ++ int_string fail ++ bs " total_ms=" ++ int_string total_ms ++
  bs " qps=" ++ double_string qps ++ bs " avg_ms=" ++ double_string avg_ms ++
  bs " min_ms=" ++ double_string min_ms ++ bs " max_ms=" ++ double_string max_ms ++ newline.

(** The client is destroyed, and so disconnected again, when [run_stress]
    returns. *)
Definition run_stress (host : str) (port count : Z) : P Z :=
  r ← on_world (api_connect host port);
  match r with
  | Some what =>
      _ ← print_err (bs "STRESS_ERROR: connect failed: " ++ c_str what ++ newline);
      _ ← on_world api_disconnect;
      mret 1
  | None =>
      _ ← attempt (reserve count);
      t1 ← on_world api_now;
      '(success, fail, latencies) ← stress_loop (Z.to_nat count) 0 0 0 [];
      t2 ← on_world api_now;
      let total_ms := Z.quot (t2 - t1) 1000000 in
      _ ← on_world api_disconnect;
      _ ← print (stress_line count success fail total_ms latencies);
      _ ← on_world api_disconnect;
      mret 0
  end.

(** ** The interactive session: [main] *)

Definition show_error (resp : RpcResponse) : str :=
  bs "  Error: [" ++ int_string (error_code resp) ++ bs "] " ++ error_msg resp ++ newline.
Definition show_response (resp : RpcResponse) : str :=
  if error_code resp =? 0 then bs "  Result: " ++ result resp ++ newline else show_error resp.

(** The hundred calls of the performance block. *)
Fixpoint ping_loop (n : nat) (i success fail : Z) : P (Z * Z) :=
  match n with
  | O => mret (success, fail)
  | S n =>
      resp ← on_world (api_call (bs "PingService") (bs "Ping") (bs "msg" ++ to_string i));
      if is_success resp then ping_loop n (i + 1) (success + 1) fail
      else ping_loop n (i + 1) success (fail + 1)
  end.

Definition performance_text (success fail ms : Z) : str :=
  bs "  Success: " ++ int_string success ++ bs " / Fail: " ++ int_string fail ++ newline ++
  bs "  Time: " ++ int_string ms ++ bs "ms" ++ newline ++
  bs "  QPS: " ++ int_string (Z.quot (100 * 1000) (if 0 <? ms then ms else 1)) ++ newline.

(** The calls of a connected session. *)
Definition session : P unit :=
  _ ← print (newline ++ bs "--- Call PingService::Ping ---" ++ newline);
  resp ← on_world (api_call (bs "PingService") (bs "Ping") []);
  _ ← print (show_response resp);
  _ ← print (newline ++ bs "--- Call PingService::Stats ---" ++ newline);
  resp ← on_world (api_call (bs "PingService") (bs "Stats") []);
  _ ← print (show_response resp);
  _ ← print (newline ++ bs "--- Call NonExistentService::Foo ---" ++ newline);
  resp ← on_world (api_call (bs "NonExistentService") (bs "Foo") []);
  _ ← print (show_error resp);
  _ ← print (newline ++ bs "--- Performance: 100 Ping calls ---" ++ newline);
  t1 ← on_world api_now;
  '(success, fail) ← ping_loop 100 0 0 0;
  t2 ← on_world api_now;
  print (performance_text success fail (Z.quot (t2 - t1) 1000000)).

Definition interactive (o : client_options) : P Z :=
  cfg ← attempt (load_config (read_file (co_config_path o)));
  let '(host, port) := target o cfg in
  let where_ := host ++ bs ":" ++ int_string port in
  _ ← print (bs "=== RPC Client ===" ++ newline ++ bs "Server: " ++ where_ ++ newline);
  _ ← setup_log make_dirs from_str (log_dir (log cfg)) (bs "client.log") (log_level (log cfg));
  _ ← print (bs "Connecting to " ++ where_ ++ bs " ..." ++ newline);
  r ← on_world (api_connect host port);
  match r with
  | Some what =>
      _ ← print_err (bs "Failed to connect: " ++ c_str what ++ newline);
      _ ← on_world api_disconnect;
      mret 1
  | None =>
      _ ← print (bs "Connected!" ++ newline);
      _ ← session;
      _ ← on_world api_disconnect;
      _ ← print (newline ++ bs "Disconnected." ++ newline);
      _ ← on_world api_disconnect;
      mret 0
  end.

Definition usage : str :=
  bs "RPC Client" ++ newline ++
  bs "  --config  <path>   config file path" ++ newline ++
  bs "  --host    <host>   server host" ++ newline ++
  bs "  --port    <port>   server port" ++ newline ++
  bs "  --stress  [N]      stress test mode (N reqs, default 100)" ++ newline ++
  bs "  --help              show this help" ++ newline.

(** [main], with [argv[1..]]; the result is the exit status. *)
Definition main (args : list str) : P Z :=
  o ← attempt (parse_args args client_options_default);
  match o with
  | Help => _ ← print usage; mret 0
  | Run o =>
      if stress_mode o then run_stress (server_host o) (server_port o) (stress_count o)
      else interactive o
  end.
End client.

(** ** Theorems on the command line *)

(** An argument the loop does not know. *)
Definition unknown (arg : str) : Prop :=
  arg ∉ [bs "--config"; bs "--host"; bs "--port"; bs "--stress"; bs "--help"].

(** The client's command line.  The loop ignores unknown arguments; a host
    and a port given after them win over the configuration, the port modulo
    [2^16]; [--stress] followed by anything that does not start with '-' takes it
    as the count, otherwise keeps 100, and then the configured server is ignored
    in favour of the given or built-in one. *)
Theorem client_command_line host p n junk o cfg :
  Forall unknown junk -> 0 <= p < 2 ^ 31 -> 0 <= n < 2 ^ 31 ->
  parse_args junk o = Ok (Run o) /\
  (exists o', parse_args (junk ++ [bs "--host"; host; bs "--port"; to_string p]) client_options_default = Ok (Run o') /\
     target o' cfg = (host, p mod 2 ^ 16)) /\
  target client_options_default cfg = (srv_host (server cfg), srv_port (server cfg)) /\
  (exists o', parse_args (junk ++ [bs "--stress"; to_string n]) client_options_default = Ok (Run o') /\
     stress_count o' = n /\ target o' cfg = (bs "127.0.0.1", 8080)) /\
  (exists o', parse_args (junk ++ [bs "--stress"; bs "--port"; to_string p]) client_options_default = Ok (Run o') /\
     stress_count o' = 100 /\ target o' cfg = (bs "127.0.0.1", p mod 2 ^ 16)).
Proof.
  intros Hj Hp Hn. assert (forall rest o, parse_args (junk ++ rest) o = parse_args rest o) as Hskip.
  { intros rest o'. induction Hj as [|a junk Ha _ IH]; [done|]. unfold unknown in Ha.
    rewrite !not_elem_of_cons in Ha. destruct_and?. cbn [app parse_args]. by rewrite !bool_decide_eq_false_2. }
  split_and!.
  - pose proof (Hskip [] o) as E. by rewrite app_nil_r in E.
  - rewrite Hskip. cbn [parse_args].
    repeat first [rewrite bool_decide_eq_true_2 by done | rewrite bool_decide_eq_false_2 by done].
    rewrite (bind_ok _ _ p) by (by apply stoi_to_string). eexists. by split.
  - done.
  - rewrite Hskip. cbn [parse_args].
    repeat first [rewrite bool_decide_eq_true_2 by done | rewrite bool_decide_eq_false_2 by done].
    assert (is_count (to_string n) = true) as ->.
    { destruct (to_string_head n) as (c & r & -> & Hc); [lia|]. unfold is_digit in Hc.
      apply andb_true_iff in Hc as [H1%Z.leb_le _]. cbn. by destruct (Z.eqb_spec (ord c) 45); [lia|]. }
    rewrite (bind_ok _ _ n) by (by apply stoi_to_string). eexists. by split_and!.
  - rewrite Hskip. cbn [parse_args].
    repeat first [rewrite bool_decide_eq_true_2 by done | rewrite bool_decide_eq_false_2 by done].
    change (is_count (bs "--port")) with false. cbn iota.
    rewrite (bind_ok _ _ p) by (by apply stoi_to_string). eexists. by split_and!.
Qed.

Lemma client_command_line_witness :
  exists o', parse_args [bs "-v"; bs "--host"; bs "example.org"; bs "--port"; bs "9001"] client_options_default
    = Ok (Run o') /\ target o' Config_default = (bs "example.org", 9001).
Proof.
  apply (client_command_line (bs "example.org") 9001 0 [bs "-v"] client_options_default Config_default); [|lia|lia].
  constructor; [|constructor]. unfold unknown. apply (bool_decide_unpack _). by vm_compute.
Defined.

(** ** Theorems on the session *)

(** A library that reaches a server with the services of [mgr]: where the server can be
    connected to, and the states of the world before, during (after so many
    calls) and after a connection.  A call is answered as [process_request]
    would; the ids of a connection are distinct for [2^32] calls, and the server's
    errors quote the names of the request in a field of 16 bits. *)
Class Serves {W} `{RpcApi W} (mgr : ServiceManager) := {
  listens : str -> Z -> Prop;
  offers : W -> Prop;
  connected : Z -> W -> Prop;
  ended : W -> Prop;
  serves_connect host port w :
    listens host port -> offers w -> exists w', api_connect host port w = Returned None w' /\ connected 0 w';
  serves_call k svc m ps w :
    let req := {| service_name := svc; method_name := m; timeout_ms := 5000; params := ps |} in
    request_fits req -> len svc + len m < 65000 -> 0 <= k < 2 ^ 32 -> connected k w ->
    exists resp w', api_call svc m ps w = Returned resp w' /\ connected (k + 1) w' /\
      forall h, msg_type h = 1 -> process_request h (request_bytes req) mgr = Ok resp;
  serves_now k w : connected k w -> exists t w', api_now w = Returned t w' /\ connected k w';
  serves_disconnect k w : connected k w -> exists w', api_disconnect w = Returned tt w' /\ ended w';
  serves_ended w : ended w -> exists w', api_disconnect w = Returned tt w' /\ ended w'
}.

Section served.
Context {W : Type} `{RpcApi W} {J : Type} `{Json J} (n : Z) `{SV : !Serves (server_manager n)}.
Variable read_file : str -> option str.
Variable make_dirs : str -> outcome unit.
Variable from_str : str -> level.
Implicit Types w : W.

Lemma runs_now k w : connected k w -> runs w (on_world api_now) (fun _ s v => s = [] /\ connected k v).
Proof.
  intros Hw. destruct (serves_now k w Hw) as (t & w' & E & Hw').
  eapply runs_weaken; [by apply runs_world|]. by intros ? ? ? (_ & -> & ->).
Qed.

Lemma runs_disconnect k w :
  connected k w -> runs w (on_world api_disconnect) (fun _ s v => s = [] /\ ended v).
Proof.
  intros Hw. destruct (serves_disconnect k w Hw) as (w' & E & Hw').
  eapply runs_weaken; [by apply runs_world|]. by intros ? ? ? (_ & -> & ->).
Qed.

Lemma runs_disconnect_again w : ended w -> runs w (on_world api_disconnect) (fun _ s v => s = [] /\ ended v).
Proof.
  intros Hw. destruct (serves_ended w Hw) as (w' & E & Hw').
  eapply runs_weaken; [by apply runs_world|]. by intros ? ? ? (_ & -> & ->).
Qed.

Lemma runs_connect host port w :
  listens host port -> offers w ->
  runs w (on_world (api_connect host port)) (fun r s v => r = None /\ s = [] /\ connected 0 v).
Proof.
  intros Hl Hw. destruct (serves_connect host port w Hl Hw) as (w' & E & Hw').
  eapply runs_weaken; [by apply runs_world|]. by intros ? ? ? (-> & -> & ->).
Qed.

(** A call is answered as the services answer it. *)
Lemma runs_call k svc m ps resp w :
  let req := {| service_name := svc; method_name := m; timeout_ms := 5000; params := ps |} in
  request_fits req -> len svc + len m < 65000 -> 0 <= k < 2 ^ 32 -> connected k w ->
  process_dispatch req (server_manager n) RpcResponse_init = Ok resp ->
  runs w (on_world (api_call svc m ps)) (fun r s v => r = resp /\ s = [] /\ connected (k + 1) v).
Proof.
  intros req Hfit Hl Hk Hw Hr. destruct (serves_call k svc m ps w Hfit Hl Hk Hw) as (r & w' & E & Hw' & Hs).
  specialize (Hs (echo_header 1 []) eq_refl). rewrite request_dispatched in Hs by (done || apply Hfit).
  fold req in Hs. assert (r = resp) as -> by congruence.
  eapply runs_weaken; [by apply runs_world|]. by intros ? ? ? (-> & -> & ->).
Qed.

Definition pong_response : RpcResponse := {| error_code := 0; error_msg := []; result := bs "pong" |}.

Lemma ping_fits m ps :
  len m < 2 ^ 16 -> len ps < 2 ^ 31 ->
  request_fits {| service_name := bs "PingService"; method_name := m; timeout_ms := 5000; params := ps |}.
Proof.
  intros Hm Hp. split; [|rewrite len_request_bytes; cbn -[len bs Z.pow]; change (len (bs "PingService")) with 11; lia].
  unfold request_wf. cbn [service_name method_name timeout_ms params]. split_and!; try done; lia.
Qed.

Lemma runs_ping k ps w :
  len ps < 2 ^ 31 -> 0 <= k < 2 ^ 32 -> connected k w ->
  runs w (on_world (api_call (bs "PingService") (bs "Ping") ps))
    (fun r s v => r = pong_response /\ s = [] /\ connected (k + 1) v).
Proof. intros Hp Hk Hw. apply runs_call; [by apply ping_fits|done|done|done|by apply ping_answer]. Qed.

Lemma numbered_ping_fits pre i :
  len (bs pre) < 2 ^ 30 -> len (bs pre ++ to_string i) < 2 ^ 31.
Proof. intros Hp. rewrite len_app. pose proof (len_to_string i). lia. Qed.

(** Every call of the loops succeeds. *)
Lemma ping_loop_runs j i s f k w :
  0 <= k -> k + Z.of_nat j <= 2 ^ 32 -> connected k w ->
  runs w (ping_loop j i s f) (fun r t v => r = (s + Z.of_nat j, f) /\ t = [] /\ connected (k + Z.of_nat j) v).
Proof.
  revert i s k w. induction j as [|j IH]; intros i s k w Hk Hj Hw; cbn [ping_loop].
  - apply runs_ret. by rewrite !Z.add_0_r.
  - step ltac:(apply (runs_ping k); [by apply numbered_ping_fits|lia|done]).
    change (is_success pong_response) with true. cbn iota.
    eapply runs_weaken; [apply (IH _ _ (k + 1)); [lia|lia|done]|]. intros r t v (-> & -> & Hv).
    replace (s + 1 + Z.of_nat j) with (s + Z.of_nat (S j)) by lia.
    by replace (k + 1 + Z.of_nat j) with (k + Z.of_nat (S j)) in Hv by lia.
Qed.

Lemma stress_loop_runs j i s f l k w :
  0 <= k -> k + Z.of_nat j <= 2 ^ 32 -> connected k w ->
  runs w (stress_loop j i s f l)
    (fun r t v => (exists l', r = (s + Z.of_nat j, f, l')) /\ t = [] /\ connected (k + Z.of_nat j) v).
Proof.
  revert i s l k w. induction j as [|j IH]; intros i s l k w Hk Hj Hw; cbn [stress_loop].
  - apply runs_ret. rewrite !Z.add_0_r. split; [by eexists|done].
  - step ltac:(by apply (runs_now k)).
    step ltac:(apply (runs_ping k); [by apply numbered_ping_fits|lia|done]).
    step ltac:(by apply (runs_now (k + 1))).
    change (is_success pong_response) with true. cbn iota.
    eapply runs_weaken; [apply (IH _ _ _ (k + 1)); [lia|lia|done]|]. intros r t v ([l' ->] & -> & Hv).
    replace (s + 1 + Z.of_nat j) with (s + Z.of_nat (S j)) by lia.
    replace (k + 1 + Z.of_nat j) with (k + Z.of_nat (S j)) in Hv by lia. eauto.
Qed.

(** What a session prints when every service answers; [ms] is measured. *)
Definition session_text (ms : Z) : str :=
  newline ++ bs "--- Call PingService::Ping ---" ++ newline ++
  bs "  Result: pong" ++ newline ++
  newline ++ bs "--- Call PingService::Stats ---" ++ newline ++
  bs "  Result: " ++ stats_text n ++ newline ++
  newline ++ bs "--- Call NonExistentService::Foo ---" ++ newline ++
  bs "  Error: [-1] service not found: NonExistentService" ++ newline ++
  newline ++ bs "--- Performance: 100 Ping calls ---" ++ newline ++
  performance_text 100 0 ms.

Lemma session_runs w :
  connected 0 w -> runs w session (fun _ s v => (exists ms, s = session_text ms) /\ connected 103 v).
Proof.
  intros Hw. unfold session. say.
  step ltac:(by apply (runs_ping 0)). do 2 say.
  step ltac:(by apply (runs_call 1); [apply ping_fits| | | |apply stats_answer]). do 2 say.
  step ltac:(apply (runs_call 2); [|done|done|done|apply unknown_answer; [done|apply (bool_decide_unpack _); by vm_compute]];
    split; [done|by vm_compute]).
  do 2 say.
  step ltac:(by apply (runs_now 3)).
  step ltac:(by apply (ping_loop_runs 100 0 0 0 3)). cbn beta iota.
  step ltac:(by apply (runs_now 103)).
  eapply runs_weaken; [apply runs_print|]. intros [] t v [-> ->]. split; [|done].
  match goal with |- context [performance_text _ _ ?x] => exists x end.
  unfold session_text, show_response, show_error, pong_response.
  cbn [error_code result error_msg service_name].
  change (bs "  Result: pong") with (bs "  Result: " ++ bs "pong").
  change (bs "  Error: [-1] service not found: NonExistentService") with
    (bs "  Error: [" ++ int_string (-1) ++ bs "] " ++ bs "service not found: " ++ bs "NonExistentService").
  change (0 =? 0) with true. change (0 + Z.of_nat 100) with 100. cbn iota.
  by rewrite <- !app_assoc.
Qed.

(** The interactive client against the server program.  With a command line
    that selects it, a configuration that loads and a log directory that can be
    made, the session against any server with the services of the server program
    ends with status 0 and an empty error output; it prints the target, the answer
    to Ping, the server's statistics, the error of the unknown service, and a
    hundred successes out of a hundred calls, whatever the clock measured. *)
Theorem client_session args o cfg x :
  parse_args args client_options_default = Ok (Run o) -> stress_mode o = false ->
  load_config (read_file (co_config_path o)) = Ok cfg -> make_dirs (log_dir (log cfg)) = Ok tt ->
  listens (target o cfg).1 (target o cfg).2 -> offers (world x) ->
  let address := (target o cfg).1 ++ bs ":" ++ int_string (target o cfg).2 in
  exists ms x', main read_file make_dirs from_str args x = Returned 0 x' /\ ended (world x') /\ cerr x' = cerr x /\
    cout x' = cout x ++
      bs "=== RPC Client ===" ++ newline ++ bs "Server: " ++ address ++ newline ++
      bs "Connecting to " ++ address ++ bs " ..." ++ newline ++ bs "Connected!" ++ newline ++
      session_text ms ++ newline ++ bs "Disconnected." ++ newline.
Proof.
  intros Ha Hs Hc Hd Hl Hw address.
  assert (runs (world x) (main read_file make_dirs from_str args) (fun r s v => r = 0 /\ (exists ms, s =
      bs "=== RPC Client ===" ++ newline ++ bs "Server: " ++ address ++ newline ++
      bs "Connecting to " ++ address ++ bs " ..." ++ newline ++ bs "Connected!" ++ newline ++
      session_text ms ++ newline ++ bs "Disconnected." ++ newline) /\ ended v)) as Hp.
  { unfold main. step ltac:(by apply runs_attempt). rewrite Hs. unfold interactive.
    step ltac:(by apply runs_attempt). unfold address. destruct (target o cfg) as [host port]. cbn [fst snd] in *. say.
    step ltac:(by apply runs_setup). say.
    step ltac:(by apply runs_connect). say.
    eapply runs_bind; [by apply session_runs|]. intros ? ? ? [[ms ->] ?].
    step ltac:(by apply (runs_disconnect 103)). say.
    step ltac:(by apply runs_disconnect_again).
    apply runs_ret. split_and!; [done| |done]. exists ms. rewrite <- !app_assoc. by rewrite ?app_nil_r. }
  destruct (Hp x eq_refl) as (r & s & x' & E & (-> & [ms ->] & Hend) & Ho & He). by exists ms, x'.
Qed.

(** The stress mode against the server program.  It connects, and with a count
    of zero or more makes that many calls, all of which succeed, and reports them
    in one line with status 0 and an empty error output; a negative count is not
    refused but ends the program with the exception of [reserve]. *)
Theorem stress_session host port count x :
  - 2 ^ 31 <= count < 2 ^ 31 -> listens host port -> offers (world x) ->
  (0 <= count -> exists figures x', run_stress host port count x = Returned 0 x' /\
     ended (world x') /\ cerr x' = cerr x /\
     cout x' = cout x ++ bs "STRESS OK count=" ++ int_string count ++ bs " success=" ++
       int_string count ++ bs " fail=0 total_ms=" ++ figures) /\
  (count < 0 -> exists x', run_stress host port count x =
     Raised (other_std_exception (bs "vector::reserve")) x').
Proof.
  intros Hc Hl Hw. split.
  - intros Hn. assert (runs (world x) (run_stress host port count) (fun r s v => r = 0 /\ (exists figures,
      s = bs "STRESS OK count=" ++ int_string count ++ bs " success=" ++
       int_string count ++ bs " fail=0 total_ms=" ++ figures) /\ ended v)) as Hp.
    { unfold run_stress. step ltac:(by apply runs_connect).
      step ltac:(apply (runs_attempt _ _ tt); unfold reserve; by dec; [lia|]).
      step ltac:(by apply (runs_now 0)).
      eapply runs_bind; [apply (stress_loop_runs (Z.to_nat count) 0 0 0 [] 0); [done|lia|done]|].
      intros ? ? ? ([l ->] & -> & ?). cbn beta iota.
      step ltac:(by eapply runs_now). step ltac:(by eapply runs_disconnect). say.
      step ltac:(by apply runs_disconnect_again).
      apply runs_ret. split_and!; [done| |done]. unfold stress_line.
      destruct (match sorted l with [] => _ | x :: _ => _ end) as [[avg mn] mx].
      rewrite Z.add_0_l, Z2Nat.id by done. change (int_string 0) with (bs "0").
      match goal with |- context [bs " total_ms=" ++ ?r] => generalize r; intros figures; exists (figures ++ []) end.
      generalize (int_string count). intros c. cbn [app]. by rewrite <- !app_assoc. }
    destruct (Hp x eq_refl) as (r & s & x' & E & (-> & [fig ->] & Hend) & Ho & He). by exists fig, x'.
  - intros Hn. unfold run_stress.
    destruct (runs_connect host port (world x) Hl Hw x eq_refl) as (r & s & x1 & E & [-> _] & _).
    erewrite bind_returned by exact E. unfold reserve. destruct (Z.ltb_spec count 0); [by eexists|lia].
Qed.
End served.

(** ** A concrete library: the server's answers, a clock of a millisecond a
    reading *)

#[export] Instance local_api (n : Z) : RpcApi Z := {
  api_connect host port := fun w => Returned None w;
  api_call svc m ps := fun w =>
    match process_dispatch {| service_name := svc; method_name := m; timeout_ms := 5000; params := ps |}
            (server_manager n) RpcResponse_init with
    | Ok resp => Returned resp w
    | _ => Undefined
    end;
  api_disconnect := fun w => Returned tt w;
  api_now := fun w => Returned w (w + 1000000)
}.

(** The services of the server program answer every request. *)
Lemma server_answers_any req n :
  exists resp, process_dispatch req (server_manager n) RpcResponse_init = Ok resp.
Proof.
  unfold process_dispatch, dispatch.
  destruct (get_service (service_name req) (server_manager n)) as [svc|] eqn:E; [|by eexists].
  assert (svc = PingService n) as ->.
  { unfold get_service, server_manager, register_service in E. cbn [services_ ServiceManager_init] in E.
    destruct (decide (service_name req = svc_name (PingService n))) as [Eq|Hne].
    - rewrite Eq, lookup_insert_eq in E. by injection E.
    - by rewrite lookup_insert_ne, lookup_empty in E by congruence. }
  case_bool_decide; [|by eexists]. cbn [svc_handle PingService]. unfold PingService_handle.
  repeat case_bool_decide; by eexists.
Qed.

#[export] Program Instance local_serves n : Serves (H := local_api n) (server_manager n) := {
  listens _ _ := True; offers _ := True; connected _ _ := True; ended _ := True
}.
Next Obligation. intros n host port w _ _. by exists w. Qed.
Next Obligation.
  intros n k svc m ps w req Hfit _ _ _. destruct (server_answers_any req n) as [resp E].
  exists resp, w. split_and!; [|done|].
  - unfold req in E. cbn -[process_dispatch server_manager RpcResponse_init]. by rewrite E.
  - intros h Hh. rewrite request_dispatched by (done || apply Hfit). exact E.
Qed.
Next Obligation. intros n k w _. by eexists _, _. Qed.
Next Obligation. intros n k w _. by exists w. Qed.
Next Obligation. intros n w _. by exists w. Qed.

Definition quiet_io : io Z := {| world := 0; cout := []; cerr := []; logger_state := log_state_init |}.

Lemma client_session_witness :
  exists x', main (H := local_api 2) (H0 := fixed_json None) (fun _ => None) (fun _ => Ok tt) (fun _ => info)
      [bs "--port"; bs "9000"] quiet_io = Returned 0 x' /\ cerr x' = [].
Proof.
  destruct (client_session (H := local_api 2) (H0 := fixed_json None) 2 (fun _ => None) (fun _ => Ok tt) (fun _ => info)
    [bs "--port"; bs "9000"] (with_port 9000 client_options_default) Config_default quiet_io)
    as (ms & x' & E & _ & He & _); [by vm_compute|done..|].
  exists x'. exact (conj E He).
Defined.

Lemma stress_session_witness :
  (exists x', run_stress (H := local_api 2) (bs "127.0.0.1") 8080 (-5) quiet_io =
    Raised (other_std_exception (bs "vector::reserve")) x') /\
  exists figures x', run_stress (H := local_api 2) (bs "127.0.0.1") 8080 3 quiet_io = Returned 0 x' /\
    cout x' = bs "STRESS OK count=3 success=3 fail=0 total_ms=" ++ figures.
Proof.
  destruct (stress_session (H := local_api 2) 2 (bs "127.0.0.1") 8080 (-5) quiet_io) as [_ E1]; [lia|done..|].
  destruct (stress_session (H := local_api 2) 2 (bs "127.0.0.1") 8080 3 quiet_io) as [E2 _]; [lia|done..|].
  split; [by apply E1|]. destruct E2 as (fig & x' & E & _ & _ & Ho); [lia|]. exists fig, x'.
  split; [exact E|exact Ho].
Defined.

(** One millisecond between readings of the clock. *)
Example stress_run_3 :
  match run_stress (H := local_api 2) (bs "127.0.0.1") 8080 3 quiet_io with
  | Returned r x => r = 0 /\ cout x = bs "STRESS OK count=3 success=3 fail=0 total_ms=7 qps=428.571 avg_ms=1 min_ms=1 max_ms=1" ++ newline
  | _ => False
  end.
Proof. by vm_compute. Qed.
