(* ===== verification/ServedClient.v ===== *)
(** * A client of the server program

    A client at work ([RpcWork]) with a server that runs, has the services of the
    server program and whose pool is open: wherever the work has got to, nothing
    has failed, and when a future of the client is ready it holds what the service
    computes for the call. *)
From S2P Require Import Prelude Text WriteQueue Protocol ErrorCode ServiceManager Framing Connection.
From S2P Require Import ConnectionManager MessageCycle Executor ThreadPool RpcServer Wire EndToEnd.
From S2P Require Import RpcClient RpcSystem RpcProgress RpcLiveness RpcCompletion RpcWork.
From S2P Require Import Config LogInit Console ServerMain ClientMain.
Import RpcServer RpcSystem.

#[local] Arguments request_bytes : simpl never.
#[local] Arguments response_bytes : simpl never.

Lemma len_c_str (s : str) : len (c_str s) <= len s.
Proof.
  induction s as [|c s IH]; [done|]. cbn [c_str]. destruct (_ =? _); rewrite ?len_cons, ?len_nil; [|lia].
  pose proof (len_nonneg s). lia.
Qed.

Lemma len_bs s : len (bs s) = Z.of_nat (String.length s).
Proof. induction s as [|c s IH]; [done|]. cbn [bs String.length]. change (bs (String c s)) with (c :: bs s). rewrite len_cons, IH. lia. Qed.

Lemma len_quoted s : len (quoted s) = Z.of_nat (String.length s) + 2.
Proof. unfold quoted. rewrite len_cons, len_app, len_bs, len_cons, len_nil. lia. Qed.

Section served_client.
Context {X E : Type} {HX : Executor task X E} {HR : ExecutorRests task X E} (n : Z).

Abbreviation Sys := (System (X := X)).
Abbreviation Server := (RpcServer (X := X)).

(** ** A server that stays up *)

(** It runs, its services are those of the server program and always were, and its
    pool is open and has refused nothing. *)
Record server_up (srv : Server) : Prop := {
  up_running : MessageCycle.running_ (cycle_ srv) = true;
  up_manager : service_manager srv = server_manager n;
  up_refused : refused srv = [];
  up_answers : Forall (fun a => an_manager a = server_manager n) (answers srv);
  up_pool : match thread_pool_ srv with Some x => ex_open x | None => True end
}.

Lemma up_conn_event p ev c (srv : Server) :
  conn_event_on p ev (cycle_ srv) = Some c -> server_up srv -> server_up (set_cycle c srv).
Proof.
  unfold conn_event_on. destruct (heap (cycle_ srv) !! p) as [d|]; [|done].
  destruct (conn_step d ev) as [d'|]; [|done]. intros [= <-] []. by split.
Qed.

Lemma up_callback_ends p r (srv srv' : Server) :
  callback_ends p r srv = Some srv' -> server_up srv -> server_up srv'.
Proof.
  unfold callback_ends. destruct (conn_event_on p (EvCallback r) (cycle_ srv)) as [c|] eqn:Ec; [|done].
  intros [= <-]. by eapply up_conn_event.
Qed.

Lemma up_answered (srv : Server) a :
  an_manager a = service_manager srv -> server_up srv ->
  server_up (set_log (replying srv) (received srv) (refused srv) (answers srv ++ [a]) srv).
Proof.
  intros Ea []. split; try done. cbn. apply Forall_app. split; [done|]. constructor; [by rewrite Ea|done].
Qed.

Lemma up_process_and_send t (srv srv' : Server) :
  process_and_send t srv = Some srv' -> server_up srv -> server_up srv'.
Proof.
  unfold process_and_send. destruct t as [p [h b]]. intros Es Hup.
  destruct (heap (cycle_ srv) !! p) as [d|]; [|done]. cbn [mbind option_bind] in Es.
  destruct (response_to h _) as [[rh rb]| |]; [|by injection Es as <-; apply up_answered..].
  destruct (conn_event_on p (EvSend rh rb) (cycle_ srv)) as [c|] eqn:Ec; [|done]. cbn in Es.
  injection Es as <-. apply (up_answered (set_cycle c srv)); [done|]. by eapply up_conn_event.
Qed.

Lemma up_on_message p (srv srv' : Server) :
  on_message p srv = Some srv' -> server_up srv -> server_up srv'.
Proof.
  unfold on_message. intros Es Hup. destruct (heap (cycle_ srv) !! p) as [d|]; [|done]. cbn in Es.
  destruct (reading d); try done. destruct (bool_decide _); [done|].
  assert (forall rp rc, server_up (set_log rp rc (refused srv) (answers srv) srv)) as Hlog
    by (intros; destruct Hup; by split).
  destruct (thread_pool_ srv) as [x|] eqn:Hx.
  - pose proof (up_pool _ Hup) as Ho. rewrite Hx in Ho.
    destruct (ex_open_submit (p, (h, body)) x Ho) as (x' & Esub & Ho').
    rewrite Esub in Es. eapply up_callback_ends; [exact Es|]. destruct Hup. by split.
  - destruct (process_and_send _ _) as [s1|] eqn:Ep; [|done]. cbn in Es.
    apply up_process_and_send in Ep; [|apply Hlog].
    destruct (response_to h _) as [m| |]; [|by eapply up_callback_ends..].
    injection Es as <-. destruct Ep. by split.
Qed.

Lemma up_reply_done j (srv srv' : Server) :
  reply_done j srv = Some srv' -> server_up srv -> server_up srv'.
Proof.
  unfold reply_done. intros Es Hup. destruct (replying srv !! j) as [p|]; [|done]. cbn in Es.
  destruct (heap (cycle_ srv) !! p) as [d|]; [|done]. cbn in Es. destruct (senders d); [|done].
  eapply up_callback_ends; [exact Es|]. destruct Hup. by split.
Qed.

Lemma up_pool_step x (srv srv' : Server) :
  server_step srv (SvPool x) = Some srv' -> ex_internal x = true -> server_up srv -> server_up srv'.
Proof.
  cbn. intros Es Hi Hup. destruct (thread_pool_ srv) as [y|] eqn:Hy; [|done]. cbn in Es.
  destruct (ex_step y x) as [y'|] eqn:Ey; [|done]. cbn in Es.
  assert (server_up (set_pool (Some y') srv)) as Hup'.
  { pose proof (up_pool _ Hup) as Ho. rewrite Hy in Ho. destruct Hup. split; try done. by eapply ex_open_step. }
  destruct (ex_runs y x) as [t|]; [by eapply up_process_and_send|by injection Es as <-].
Qed.

(** Requests whose names leave room for the error that quotes them. *)
Definition answerable (req : RpcRequest) : Prop :=
  request_fits req /\ len (service_name req) + len (method_name req) < 65000.

Lemma error_fits ec what :
  len what < 2 ^ 16 -> response_fits (with_error ec what RpcResponse_init).
Proof.
  intros Hw. unfold response_fits, response_wf. rewrite len_response_bytes. cbn [with_error error_code error_msg result].
  change (result RpcResponse_init) with (@nil ascii). rewrite len_nil.
  pose proof (ErrorCode_value_range ec). split_and!; lia.
Qed.

(** The services of the server program answer every request, in frames that fit. *)
Lemma server_answers_fit req :
  answerable req -> exists resp, process_dispatch req (server_manager n) RpcResponse_init = Ok resp /\ response_fits resp.
Proof.
  intros [_ Hl]. destruct (server_answers_any req n) as [resp Er]. exists resp. split; [done|].
  pose proof (len_nonneg (service_name req)). pose proof (len_nonneg (method_name req)).
  destruct (decide (service_name req = bs "PingService")) as [Es|Hne].
  - destruct (decide (method_name req ∈ svc_methods (PingService n))) as [Hm|Hm].
    + apply elem_of_cons in Hm as [Hm|Hm%list_elem_of_singleton].
      * rewrite ping_answer in Er by done. injection Er as <-. split; [|by vm_compute].
        apply (bool_decide_unpack _). by vm_compute.
      * rewrite (stats_answer req n Es Hm) in Er. assert (resp = {| error_code := 0; error_msg := []; result := stats_text n |}) as ->
          by congruence.
        pose proof (len_to_string n) as Hn. unfold response_fits, response_wf. rewrite len_response_bytes.
        cbn [error_code error_msg result]. unfold stats_text. rewrite !len_app. change (len (@nil ascii)) with 0.
        rewrite !len_quoted, !len_bs. cbn [String.length]. split_and!; lia.
    + unfold process_dispatch, dispatch in Er. rewrite Es, get_ping, bool_decide_eq_false_2 in Er by done.
      injection Er as <-. apply error_fits.
      pose proof (len_c_str (bs "method not found: " ++ bs "PingService" ++ bs "." ++ method_name req)) as Hc.
      rewrite !len_app in Hc. change (len (bs "method not found: ")) with 18 in Hc. change (len (bs ".")) with 1 in Hc.
      change (len (bs "PingService")) with 11 in Hc. eapply Z.le_lt_trans; [exact Hc|lia].
  - unfold process_dispatch, dispatch in Er.
    assert (get_service (service_name req) (server_manager n) = None) as Eg.
    { unfold get_service, server_manager, register_service. cbn [services_ ServiceManager_init svc_name PingService].
      by rewrite lookup_insert_ne, lookup_empty by congruence. }
    rewrite Eg in Er. injection Er as <-. apply error_fits.
    pose proof (len_c_str (bs "service not found: " ++ service_name req)) as Hc.
    rewrite len_app in Hc. change (len (bs "service not found: ")) with 19 in Hc.
    eapply Z.le_lt_trans; [exact Hc|lia].
Qed.

(** A server that is up answers. *)
Lemma up_answering (srv : Server) e :
  server_reachable srv -> end_inv srv e -> server_up srv ->
  len (requests (client e)) <= 2 ^ 32 -> Forall answerable (requests (client e)) -> answering srv e.
Proof.
  intros Hr He Hup Hn Hreq.
  assert (Forall request_fits (requests (client e))) as Hfits by (eapply Forall_impl; [exact Hreq|]; by intros ? []).
  assert (forall a, a ∈ answers_to srv e -> exists resp, an_out a = Ok resp /\ response_fits resp) as Hall.
  { intros a Ha. destruct (answered_own srv e a Hr He Hfits Ha) as (_ & p & req & Hp & _ & _ & Eo).
    rewrite Forall_lookup in Hreq. destruct (server_answers_fit req (Hreq p req Hp)) as (resp & Ed & Hf).
    exists resp. split; [|done]. rewrite Eo, <- Ed. f_equal.
    pose proof (up_answers _ Hup) as Hm. rewrite Forall_forall in Hm. apply Hm.
    unfold answers_to in Ha. destruct (peer e); [|by apply elem_of_nil in Ha].
    by apply list_elem_of_filter in Ha as [_ Ha]. }
  split; [split; [done..|]| |by eapply up_refused].
  - apply Forall_forall. intros a Ha resp Eo. destruct (Hall a Ha) as (r & Er & Hf). congruence.
  - apply Forall_forall. intros a Ha. destruct (Hall a Ha) as (r & Er & _). by exists r.
Qed.


(** The steps of the work leave it so. *)
Lemma up_cycle c (srv : Server) :
  MessageCycle.running_ c = MessageCycle.running_ (cycle_ srv) -> server_up srv -> server_up (set_cycle c srv).
Proof. intros Er []. split; try done. cbn. congruence. Qed.

Lemma up_accept ev c (srv : Server) :
  cycle_step (cycle_ srv) ev = Some c -> match ev with CAccept _ | CInsert | CStart | CAgain => True | _ => False end ->
  server_up srv -> server_up (set_cycle c srv).
Proof.
  intros Ec Hev. apply up_cycle. destruct ev as [| |ok| | | | | | | |]; try done; cbn in Ec.
  - destruct (chain (cycle_ srv)); try done. injection Ec as <-. unfold accept_done.
    destruct ok; [done|]. by destruct (MessageCycle.running_ (cycle_ srv)) eqn:Er; rewrite ?Er.
  - unfold accept_insert in Ec. destruct (chain (cycle_ srv)); try done. by injection Ec as <-.
  - unfold accept_start in Ec. destruct (chain (cycle_ srv)); try done. by injection Ec as <-.
  - unfold accept_again in Ec. destruct (chain (cycle_ srv)); try done. injection Ec as <-.
    by destruct (MessageCycle.running_ (cycle_ srv)) eqn:Er; rewrite ?Er.
Qed.

Lemma up_works p (srv srv' : Server) ev :
  works_on p srv ev = true -> server_step srv ev = Some srv' -> server_up srv -> server_up srv'.
Proof.
  intros Hw Es Hup. destruct ev as [| | | |cev|q|j|x]; try done; cbn [server_step] in Es.
  - destruct (server_only cev); [done|]. destruct (cycle_step (cycle_ srv) cev) as [c|] eqn:Ec; [|done].
    injection Es as <-. destruct cev as [| | | | | |q cev| | | |]; try done; try by eapply up_accept.
    cbn in Ec. destruct (is_start cev); [done|]. by eapply up_conn_event.
  - by eapply up_on_message.
  - by eapply up_reply_done.
  - by eapply up_pool_step.
Qed.

Lemma work_up i (s s' : Sys) : work_step i s s' -> server_up (server s) -> server_up (server s').
Proof.
  intros (ev & Et) Hup. unfold try, works in Et. destruct (ends s !! i) as [e|] eqn:Hi; [|done].
  destruct ev as [ev| |j ev|j|j m|j m]; [|done|..].
  - destruct (works_on (peer e) (server s) ev) eqn:Hw; [|done]. by eapply up_works; [|eapply server_part|].
  - destruct (_ && _); [|done]. cbn in Et. destruct (ends s !! j) as [f|]; [|done]. cbn in Et.
    destruct (client_step _ ev); [|done]. cbn in Et. destruct (client_io _ _ _ _); [|done]. by injection Et as <-.
  - destruct (bool_decide _); [|done]. cbn [sys_step] in Et. destruct (ends s !! j) as [f|]; [|done].
    cbn [mbind option_bind] in Et. destruct (peer f), (reaching (client f)); try done.
    destruct (server_step (server s) (SvCycle (CAccept true))) as [srv|] eqn:Esv; [|done]. injection Et as <-.
    cbn [server_step server_only] in Esv. destruct (cycle_step _ _) as [c|] eqn:Ec; [|done]. injection Esv as <-.
    by eapply up_accept.
  - destruct (bool_decide _); [|done]. cbn in Et. destruct (ends s !! j) as [f|]; [|done]. cbn in Et.
    destruct (pump m (up f)); [|done]. by injection Et as <-.
  - destruct (bool_decide _); [|done]. cbn in Et. destruct (ends s !! j) as [f|]; [|done]. cbn in Et.
    destruct (pump m (down f)); [|done]. by injection Et as <-.
Qed.

(** ** How far the client has got *)

(** Its [async_connect] has not completed, or it is connected and reads. *)
Definition client_phase (c : RpcClient) : Prop :=
  c = connect RpcClient_init \/
  connecting c = ConnectDone true /\ client_live c /\ reader c <> RStopped /\ reader c <> RNotStarted.

(** Its connection waits to be accepted, is in the accept handler, or is read;
    [n] is the number of connections with it. *)
Definition conn_phase (srv : Server) (e : endpoint) : Prop :=
  let c := cycle_ srv in
  let k := peer_conn srv e in
  match peer e with
  | None => chain c = Accepting /\ MessageCycle.connection_count c = n - 1 /\
      conns_ (conn_mgr_ c) !! next_id_ (conn_mgr_ c) = None
  | Some q => closed_ k = false /\
      match chain c with
      | Identified p id => p = q /\ reading k = NotReading /\ MessageCycle.connection_count c = n - 1 /\
          conns_ (conn_mgr_ c) !! id = None
      | Inserted p => p = q /\ reading k = NotReading /\ MessageCycle.connection_count c = n
      | Served | Accepting => reading k <> NotReading /\ reading k <> ReadStopped /\
          MessageCycle.connection_count c = n
      | NoAccept => False
      end
  end.

(** No request is handled before the connection is counted. *)
Record working (i : nat) (e : endpoint) (s : Sys) : Prop := {
  wk_end : ends s !! i = Some e;
  wk_up : server_up (server s);
  wk_client : client_phase (client e);
  wk_conn : conn_phase (server s) e;
  wk_pipes : cut (up e) = false /\ cut (down e) = false;
  wk_counted : received (server s) <> [] -> MessageCycle.connection_count (cycle_ (server s)) = n;
  wk_requests : Forall answerable (requests (client e));
  wk_few : len (requests (client e)) <= 2 ^ 32
}.

Lemma working_answering i e (s : Sys) : sys_inv s -> working i e s -> answering (server s) e.
Proof. intros Hinv [Hi Hup _ _ _ _ Hreq Hn]. by eapply up_answering; [apply Hinv|apply (sy_end _ Hinv i)|..]. Qed.

(** The connection after a step that the accept handler has no part in. *)
Lemma conn_phase_next (srv srv' : Server) e e' :
  desk (cycle_ srv') = desk (cycle_ srv) -> peer e' = peer e ->
  (forall q, peer e = Some q -> closed_ (peer_conn srv' e') = closed_ (peer_conn srv e) /\
     (reading (peer_conn srv' e') = reading (peer_conn srv e) \/
      reading (peer_conn srv e) <> NotReading /\ reading (peer_conn srv' e') <> NotReading /\
      reading (peer_conn srv' e') <> ReadStopped)) ->
  conn_phase srv e -> conn_phase srv' e'.
Proof.
  unfold conn_phase, MessageCycle.connection_count. intros [= -> -> _] -> Hk.
  destruct (peer e) as [q|]; [|done]. destruct (Hk q eq_refl) as [-> Hr]. intros [Hc Hp]. split; [done|].
  destruct (chain (cycle_ srv)); try done.
  - destruct Hr as [->|(Hr & Hr' & Hr'')]; [done|]. naive_solver.
  - destruct Hr as [->|(Hr & Hr' & Hr'')]; [done|]. naive_solver.
  - destruct Hr as [->|(Hr & Hr' & Hr'')]; [done|]. naive_solver.
  - destruct Hr as [->|(Hr & Hr' & Hr'')]; [done|]. naive_solver.
Qed.

(** The client's own steps. *)
Lemma fresh_client_rests ev : client_carries ev = true -> client_step (connect RpcClient_init) ev = None.
Proof. by destruct ev as [| | |[]|[]|[]|[]|[] []|[]|[]| | |]. Qed.

Lemma client_phase_carry (srv : Server) e ev c ud :
  server_reachable srv -> end_inv srv e -> fits srv e -> client_carries ev = true ->
  client_step (client e) ev = Some c -> client_io (client e) ev (up e) (down e) = Some ud ->
  client_phase (client e) -> client_phase c.
Proof.
  intros Hr He Hfit Hev Ec Eio [Hc|(Hcon & Hl & Hrd & Hrd')].
  - rewrite Hc, fresh_client_rests in Ec by done. done.
  - right. split_and!; [by rewrite (carry_connecting _ _ _ Hev Ec)| |by eapply client_keeps_reading..].
    eapply client_carry_live; [by apply client_reachable_inv, He|done|exact Ec|done].
Qed.

Lemma client_phase_connected c c' : client_phase c -> client_step c (KConnected true) = Some c' -> client_phase c'.
Proof.
  intros Hph Ec. unfold client_step in Ec. destruct (terminated c); [done|].
  destruct Hph as [->|(Hcon & _)]; [|by rewrite Hcon in Ec]. cbn in Ec. injection Ec as <-. right. by split_and!.
Qed.

(** The accept handler's. *)
Lemma phase_accepted (srv : Server) e c :
  conn_phase srv e -> peer e = None -> cycle_step (cycle_ srv) (CAccept true) = Some c ->
  conn_phase (set_cycle c srv) (set_peer (length (heap (cycle_ srv))) e) /\
  MessageCycle.connection_count c = MessageCycle.connection_count (cycle_ srv).
Proof.
  unfold conn_phase. intros Hph Hp Ec. rewrite Hp in Hph. destruct Hph as (Hch & Hc & Hn).
  cbn [cycle_step] in Ec. rewrite Hch in Ec.
  assert (c = accept_done true (cycle_ srv)) as -> by congruence. split; [|done].
  assert (peer_conn (set_cycle (accept_done true (cycle_ srv)) srv) (set_peer (length (heap (cycle_ srv))) e) =
    set_conn_id (next_id_ (conn_mgr_ (cycle_ srv))) Connection_init) as Epc; [|cbv zeta; rewrite Epc; by cbn; split_and!].
  apply (peer_conn_some _ _ (length (heap (cycle_ srv)))); [done|]. cbn.
  by rewrite list_lookup_alter_eq, list_lookup_middle.
Qed.

Lemma phase_arrives (srv srv' : Server) e ev :
  end_inv srv e -> conn_phase srv e -> MessageCycle.running_ (cycle_ srv) = true ->
  server_step srv ev = Some srv' -> arriving ev = true ->
  conn_phase srv' e /\ (MessageCycle.connection_count (cycle_ srv) = n -> MessageCycle.connection_count (cycle_ srv') = n) /\
  received srv' = received srv.
Proof.
  unfold conn_phase. intros He Hph Hrun Es Hev. destruct ev as [| | | |cev| | |]; try done. cbn [server_step] in Es.
  destruct (server_only cev); [done|]. destruct (cycle_step (cycle_ srv) cev) as [c|] eqn:Ec; [|done]. injection Es as <-.
  destruct (peer e) as [q|] eqn:Hq.
  2: { exfalso. destruct Hph as (Hch & _). destruct cev; try done; cbn in Ec; unfold accept_insert, accept_start, accept_again in Ec;
       by rewrite Hch in Ec. }
  destruct (en_peer _ _ He q Hq) as [k Hk]. rewrite (peer_conn_some srv e q k Hq Hk) in Hph.
  assert (forall c' k', heap c' !! q = Some k' -> peer_conn (set_cycle c' srv) e = k') as Hpc
    by (intros; by apply (peer_conn_some _ e q)).
  destruct Hph as [Hcl Hph]. destruct cev; try done; cbn in Ec;
    unfold accept_insert, accept_start, accept_again in Ec; destruct (chain (cycle_ srv)) as [| |p id|p|] eqn:Hch; try done;
    injection Ec as <-.
  - destruct Hph as (-> & Hrd & Hcnt & Hid). rewrite (Hpc _ k) by done. cbn [cycle_ set_cycle chain set_loop].
    unfold MessageCycle.connection_count, count in *. cbn. rewrite map_size_insert_None by done.
    split_and!; try done; [lia|]. intros H. lia.
  - destruct Hph as (-> & Hrd & Hcnt). rewrite (Hpc _ (start_read true true k)) by (cbn; by rewrite list_lookup_alter_eq, Hk).
    by split_and!.
  - rewrite Hrun. rewrite (Hpc _ k) by done. by split_and!.
Qed.

(** What the server does for the calls. *)
Lemma carry_not_reading k ev k' :
  conn_carries ev = true -> conn_step k ev = Some k' -> reading k = NotReading ->
  closed_ k' = closed_ k /\ reading k' = NotReading.
Proof.
  intros Hev Ek Hrd. split; [|by eapply conn_step_not_reading; [exact Ek|destruct ev|]].
  destruct ev as [|[]|[]| | |j|j|j|j [|]|]; try done; cbn in Ek; rewrite ?Hrd in Ek; try done.
  - unfold send_push in Ek. destruct (senders k !! j); [|done]. by injection Ek as <-.
  - unfold Connection.do_write in Ek. destruct (Connection.writers k !! j) as [[]|]; simplify_eq.
    by destruct (Connection.write_queue_ k).
  - unfold Connection.issue_write in Ek. by destruct (Connection.writers k !! j) as [[]|]; simplify_eq.
  - unfold Connection.write_done in Ek. by destruct (Connection.writers k !! j) as [[]|]; simplify_eq.
Qed.

(** A connection in a phase has not stopped reading. *)
Lemma phase_not_stopped (srv : Server) e q :
  conn_phase srv e -> peer e = Some q -> closed_ (peer_conn srv e) = false /\
    reading (peer_conn srv e) <> ReadStopped /\
    (reading (peer_conn srv e) <> NotReading -> MessageCycle.connection_count (cycle_ srv) = n).
Proof.
  unfold conn_phase. intros Hph Hq. rewrite Hq in Hph. destruct Hph as [Hc Hph]. split; [done|].
  destruct (chain (cycle_ srv)); try done; destruct Hph as (H1 & H2 & H3); (split; [congruence|by intros]).
Qed.

(** The callback's end, or the whole of it. *)
Lemma phase_callback (srv srv' : Server) e q k k' :
  desk (cycle_ srv') = desk (cycle_ srv) -> peer e = Some q -> heap (cycle_ srv) !! q = Some k ->
  heap (cycle_ srv') !! q = Some k' -> closed_ k' = closed_ k ->
  reading k <> NotReading -> reading k' <> ReadStopped /\ reading k' <> NotReading ->
  conn_phase srv e -> conn_phase srv' e.
Proof.
  intros Hd Hq Hk Hk' Hcl Hnr [Hr1 Hr2]. apply conn_phase_next; [done..|]. intros q' _.
  rewrite (peer_conn_some srv e q k), (peer_conn_some srv' e q k') by done. auto.
Qed.

Lemma phase_carry (s s' : Sys) i e e' q ev :
  sys_inv s -> ends s !! i = Some e -> peer e = Some q -> carries i q s (YServer ev) ->
  sys_step s (YServer ev) = Some s' -> ends s' !! i = Some e' -> fits (server s) e -> answering (server s') e' ->
  conn_phase (server s) e ->
  conn_phase (server s') e' /\ cut (up e') = cut (up e) /\ cut (down e') = cut (down e).
Proof.
  intros Hinv Hi Hq Hcar Es Hi' Hfit Hans Hph. pose proof (sy_server _ Hinv) as Hs. pose proof (sy_end _ Hinv i e Hi) as He.
  pose proof (si_cycle _ (server_reachable_inv _ Hs)) as Hcy. pose proof (server_part _ _ _ Es) as Esv.
  destruct (phase_not_stopped _ _ _ Hph Hq) as (Hcl & Hns & _). destruct (en_peer _ _ He q Hq) as [k Hk].
  pose proof (peer_conn_some _ _ _ _ Hq Hk) as Epc.
  assert (desk (cycle_ (server s')) = desk (cycle_ (server s))) as Hd.
  { apply (desk_server _ _ ev Esv). by destruct ev as [| | | |[]| | |]. }
  destruct ev as [| | | |[| | | | | |q' cev| | | |]|q'|j|x]; try done; cbn [carries] in Hcar.
  - destruct Hcar as [-> Hev]. cbn [sys_step server_step] in Es. destruct (server_only (CConn q cev)); [done|].
    destruct (cycle_step (cycle_ (server s)) (CConn q cev)) as [c|] eqn:Ec; [|done].
    cbn [mbind option_bind] in Es. destruct (cycle_conn_step _ _ _ _ Ec) as (k0 & k' & Hk0 & _ & Ek & Eh).
    assert (k0 = k) as -> by congruence.
    unfold server_io in Es. destruct (find_end q (ends s)) as [[j f]|] eqn:Ef.
    2: { by destruct (find_end_none _ _ _ _ Ef Hi). }
    destruct (find_end_spec _ _ _ _ Ef) as [Hj Hf]. assert (j = i) as -> by (by eapply (sy_distinct _ Hinv)).
    assert (f = e) as -> by congruence. rewrite Hk in Es. cbn [mbind option_bind] in Es.
    destruct (conn_io k cev (up e) (down e)) as [[u d]|] eqn:Eio; [|done]. injection Es as <-.
    cbn [ends server] in *. rewrite list_lookup_insert_eq in Hi' by by eapply lookup_lt_Some. injection Hi' as <-.
    split; [|by apply (conn_io_cut k cev)].
    assert (peer_conn (set_cycle c (server s)) (set_pipes (u, d) e) = k') as Epc'.
    { apply (peer_conn_some _ _ q); [done|]. cbn. rewrite Eh. apply list_lookup_insert_eq. by eapply lookup_lt_Some. }
    apply (conn_phase_next (server s) _ e); [done..| |done]. intros q' _. rewrite Epc, Epc'.
    assert (reading k = NotReading \/ reading k <> NotReading) as [Hn|Hn] by (destruct (reading k); auto).
    + destruct (carry_not_reading k cev k' Hev Ek Hn). split; [done|]. left. congruence.
    + pose proof (conn_keeps_reading (server s) e cev k' (u, d) He Hfit Hev) as Hkeep. rewrite Epc in Hkeep, Hns.
      destruct (Hkeep Ek Eio Hns Hn) as (? & ? & ?). auto.
  - subst q'. cbn in Es. destruct (on_message q (server s)) as [srv|] eqn:Em; [|done]. injection Es as <-.
    cbn [ends server] in *. assert (e' = e) as -> by congruence. split; [|done].
    destruct (on_message_weight _ _ _ Hcy Em) as (k0 & k1 & Hk0 & _ & Hw). assert (k0 = k) as -> by congruence.
    destruct (on_message_keeps q _ _ e Hcy Em Hq Hans) as (k0 & k' & Hk' & Hk'' & Hcl' & Hrd).
    { intros k2 h b Hk2 Hrd Hn. by eapply callback_header_wf. }
    assert (k0 = k) as -> by congruence. eapply phase_callback; try done. intros Hn. rewrite Hn in Hw. cbn in Hw. lia.
  - cbn in Es. destruct (reply_done j (server s)) as [srv|] eqn:Em; [|done]. injection Es as <-.
    cbn [ends server] in *. assert (e' = e) as -> by congruence. split; [|done].
    destruct (reply_done_weight _ _ _ _ Hcy Hcar Em) as (k0 & k1 & Hk0 & _ & Hw). assert (k0 = k) as -> by congruence.
    destruct (reply_done_keeps j q _ _ Hcy Hcar Em) as (k0 & k' & Hk' & Hk'' & Hcl' & Hrd).
    assert (k0 = k) as -> by congruence. eapply phase_callback; try done. intros Hn. rewrite Hn in Hw. cbn in Hw. lia.
  - cbn [sys_step] in Es. rewrite Esv in Es. injection Es as Es. rewrite <- Es in Hi'. cbn in Hi'.
    assert (e' = e) as -> by congruence. split; [|done].
    destruct (pool_step_same q k x _ _ Hs Esv Hk) as ((k' & Hk' & Hrd & Hcl') & _).
    apply (conn_phase_next (server s) _ e); [done..| |done]. intros q' _.
    rewrite Epc, (peer_conn_some _ e q k' Hq Hk'). auto.
Qed.

(** Requests are received in the message handler. *)
Lemma received_callback q r (srv srv' : Server) : callback_ends q r srv = Some srv' -> received srv' = received srv.
Proof.
  unfold callback_ends. destruct (conn_event_on q (EvCallback r) (cycle_ srv)) as [c|]; [|done]. by intros [= <-].
Qed.

Lemma received_process t (srv srv' : Server) : process_and_send t srv = Some srv' -> received srv' = received srv.
Proof.
  unfold process_and_send. destruct t as [q [h b]]. intros Es. destruct (heap (cycle_ srv) !! q) as [d|]; [|done].
  cbn [mbind option_bind] in Es. destruct (response_to h _) as [[rh rb]| |]; [|by injection Es as <-..].
  destruct (conn_event_on q (EvSend rh rb) (cycle_ srv)) as [c|]; [|done]. by injection Es as <-.
Qed.

Lemma received_carry (srv srv' : Server) ev :
  server_step srv ev = Some srv' ->
  match ev with SvCycle (CConn _ _) | SvReplied _ | SvPool _ => True | _ => False end -> received srv' = received srv.
Proof.
  intros Es Hev. destruct ev as [| | | |[| | | | | |q cev| | | |]|q|j|x]; try done; cbn [server_step] in Es.
  - destruct (server_only _); [done|]. destruct (cycle_step _ _) as [c|]; [|done]. by injection Es as <-.
  - unfold reply_done in Es. destruct (replying srv !! j); [|done]. cbn in Es.
    destruct (heap _ !! _) as [d|]; [|done]. cbn in Es. destruct (senders d); [|done]. by apply received_callback in Es.
  - destruct (thread_pool_ srv) as [y|]; [|done]. cbn in Es. destruct (ex_step y x) as [y'|]; [|done]. cbn in Es.
    destruct (ex_runs y x); [by apply received_process in Es|by injection Es as <-].
Qed.

(** ** The work keeps all of this *)

(** One step of the server. *)
Lemma working_server (s s' : Sys) i e e' ev :
  sys_inv s -> working i e s -> ends s' !! i = Some e' -> client e' = client e -> peer e' = peer e ->
  answering (server s') e' -> works_on (peer e) (server s) ev = true -> sys_step s (YServer ev) = Some s' ->
  conn_phase (server s') e' /\ (cut (up e') = false /\ cut (down e') = false) /\
  (received (server s') <> [] -> MessageCycle.connection_count (cycle_ (server s')) = n).
Proof.
  intros Hinv Hwk Hi' Hc Hp Hans Hw Es. pose proof (server_part _ _ _ Es) as Esv.
  pose proof (an_fits _ _ (working_answering i e s Hinv Hwk)) as Hfit.
  destruct Hwk as [Hi Hup Hcl Hph [Hp1 Hp2] Hcount _ _]. pose proof (sy_end _ Hinv i e Hi) as He.
  destruct (arriving ev) eqn:Harr.
  - destruct (phase_arrives _ _ e ev He Hph (up_running _ Hup) Esv Harr) as (Hph' & Hcnt & Hrec).
    assert (e' = e) as ->.
    { cbn [sys_step] in Es. rewrite Esv in Es. destruct ev as [| | | |[]| | |]; try done; injection Es as Es;
        rewrite <- Es in Hi'; cbn in Hi'; congruence. }
    rewrite Hrec. auto.
  - destruct (peer e) as [q|] eqn:Hq.
    + assert (carries i q s (YServer ev)) as Hcar by by eapply works_on_carries.
      destruct (phase_carry s s' i e e' q ev Hinv Hi Hq Hcar Es Hi' Hfit Hans Hph) as (Hph' & Hu & Hd).
      split_and!; [done|congruence..|]. intros Hrec.
      assert (desk (cycle_ (server s')) = desk (cycle_ (server s))) as [= _ Em _].
      { apply (desk_server _ _ ev Esv). by destruct ev as [| | | |[]| | |]. }
      unfold MessageCycle.connection_count in *. rewrite Em.
      destruct ev as [| | | |[]|q'|j|x]; try done; try (apply Hcount; by erewrite <- received_carry).
      cbn in Hcar. subst q'. destruct (phase_not_stopped _ _ _ Hph Hq) as (_ & _ & Hn). apply Hn.
      cbn in Esv. pose proof (si_cycle _ (server_reachable_inv _ (sy_server _ Hinv))) as Hcy.
      destruct (on_message_weight _ _ _ Hcy Esv) as (k & k1 & Hk & _ & Hlt).
      rewrite (peer_conn_some _ _ _ _ Hq Hk). intros Hnr. rewrite Hnr in Hlt. cbn in Hlt. lia.
    + destruct ev as [| | | |[]|q|j|x]; try done; cbn in Hw; try (by apply bool_decide_eq_true in Hw as [[? ?] _]).
      assert (e' = e) as ->.
      { cbn [sys_step] in Es. rewrite Esv in Es. injection Es as Es. rewrite <- Es in Hi'. cbn in Hi'. congruence. }
      assert (desk (cycle_ (server s')) = desk (cycle_ (server s))) as Hd by by apply (desk_server _ _ (SvPool x) Esv).
      split_and!; [|done..|].
      * apply (conn_phase_next (server s) _ e); [done..| |done]. intros q. congruence.
      * unfold MessageCycle.connection_count in *. injection Hd as _ -> _.
        by rewrite (received_carry _ _ (SvPool x) Esv).
Qed.

Lemma work_working (s s' : Sys) i e :
  sys_inv s -> work_step i s s' -> working i e s -> exists e', working i e' s'.
Proof.
  intros Hinv Hst Hwk. pose proof (wk_end _ _ _ Hwk) as Hi.
  pose proof (work_inv _ _ _ Hst Hinv) as Hinv'. pose proof (work_up _ _ _ Hst (wk_up _ _ _ Hwk)) as Hup'.
  destruct (work_client i s s' e Hst Hi) as (e' & Hi' & Hreq & _). exists e'.
  enough (client_phase (client e') /\ conn_phase (server s') e' /\ (cut (up e') = false /\ cut (down e') = false) /\
    (received (server s') <> [] -> MessageCycle.connection_count (cycle_ (server s')) = n)) as (?&?&?&?)
    by (split; try done; rewrite Hreq; apply Hwk).
  pose proof (an_fits _ _ (working_answering i e s Hinv Hwk)) as Hfit.
  pose proof (sy_end _ Hinv i e Hi) as He. assert (i < length (ends s))%nat as Hl by by eapply lookup_lt_Some.
  destruct Hst as (ev & Et). unfold try in Et. destruct (works i s ev) eqn:Hw; [|done].
  destruct (sys_step_client s s' ev i e Et Hi) as (e1 & Hi1 & Hc & Hp). assert (e1 = e') as -> by congruence. clear Hi1.
  unfold works in Hw. rewrite Hi in Hw. destruct ev as [ev| |j ev|j|j m|j m]; [|done|..].
  - destruct Hc as [Hc|(? & ? & _)]; [|done]. destruct Hp as [Hp|(_ & ?)]; [|done]. rewrite Hc.
    split; [apply Hwk|]. eapply (working_server s s' i e e' ev); try done. eapply up_answering; [apply Hinv'|by apply (sy_end _ Hinv' i)|done|rewrite Hreq; apply Hwk..].
  - apply andb_true_iff in Hw as [->%bool_decide_eq_true Hw%orb_true_iff].
    cbn [sys_step] in Et. rewrite Hi in Et. cbn [mbind option_bind] in Et.
    destruct (client_step (client e) ev) as [c|] eqn:Ec; [|done]. cbn [mbind option_bind] in Et.
    destruct (client_io (client e) ev (up e) (down e)) as [[u d]|] eqn:Eio; [|done]. injection Et as <-.
    cbn [ends server] in *. rewrite list_lookup_insert_eq in Hi' by done. injection Hi' as <-.
    split; [|split; [apply Hwk|split; [|apply Hwk]]].
    + destruct Hw as [Hw|Hw]; [eapply client_phase_carry; try done; [apply Hinv|apply Hwk]|].
      destruct ev as [|[]| | | | | | | | | | |]; try done. eapply client_phase_connected; [apply Hwk|done].
    + pose proof (wk_pipes _ _ _ Hwk) as [Hp1 Hp2]. cbn. destruct Hw as [Hw|Hw].
      * destruct (client_io_cut _ _ _ _ _ _ Hw Eio) as [-> ->]. done.
      * destruct ev as [|[]| | | | | | | | | | |]; try done. cbn in Eio. by injection Eio as <- <-.
  - apply bool_decide_eq_true in Hw as ->. cbn [sys_step] in Et. rewrite Hi in Et. cbn [mbind option_bind] in Et.
    destruct (peer e) eqn:Hq, (reaching (client e)); try done.
    destruct (server_step (server s) (SvCycle (CAccept true))) as [srv|] eqn:Esv; [|done]. injection Et as <-.
    cbn [ends server] in *. rewrite list_lookup_insert_eq in Hi' by done. injection Hi' as <-.
    cbn [server_step server_only] in Esv. destruct (cycle_step (cycle_ (server s)) (CAccept true)) as [c|] eqn:Ec; [|done].
    injection Esv as <-. destruct (phase_accepted _ _ _ (wk_conn _ _ _ Hwk) Hq Ec) as [Hph Hcnt].
    split; [apply Hwk|split; [done|split; [apply Hwk|]]]. cbn. rewrite Hcnt. apply Hwk.
  - apply bool_decide_eq_true in Hw as ->. cbn in Et. rewrite Hi in Et. cbn in Et.
    destruct (pump m (up e)) as [p|] eqn:Ep; [|done]. injection Et as <-.
    cbn [ends server] in *. rewrite list_lookup_insert_eq in Hi' by done. injection Hi' as <-.
    split; [apply Hwk|split; [apply Hwk|split; [|apply Hwk]]]. cbn. rewrite (pump_cut _ _ _ Ep). apply Hwk.
  - apply bool_decide_eq_true in Hw as ->. cbn in Et. rewrite Hi in Et. cbn in Et.
    destruct (pump m (down e)) as [p|] eqn:Ep; [|done]. injection Et as <-.
    cbn [ends server] in *. rewrite list_lookup_insert_eq in Hi' by done. injection Hi' as <-.
    split; [apply Hwk|split; [apply Hwk|split; [|apply Hwk]]]. cbn. rewrite (pump_cut _ _ _ Ep). apply Hwk.
Qed.

Lemma working_run (s s' : Sys) i e :
  rtc (work_step i) s s' -> sys_inv s -> working i e s ->
  sys_inv s' /\ exists e', working i e' s' /\ requests (client e') = requests (client e) /\
    (connecting (client e) = ConnectDone true -> connecting (client e') = ConnectDone true) /\
    forall p v, v <> Waiting -> promises (client e) !! p = Some v -> promises (client e') !! p = Some v.
Proof.
  intros Hrun. revert e. induction Hrun as [s|a b c Hab _ IH]; intros e Hinv Hwk.
  - split; [done|]. by exists e.
  - destruct (work_working _ _ _ _ Hinv Hab Hwk) as [e1 Hwk1].
    destruct (work_client _ _ _ _ Hab (wk_end _ _ _ Hwk)) as (e2 & Hi2 & Hreq & Hcon & Hkeep).
    assert (e2 = e1) as -> by (pose proof (wk_end _ _ _ Hwk1); congruence).
    destruct (IH e1) as (Hinv' & e' & Hwk' & Hreq' & Hcon' & Hkeep'); [by eapply work_inv|done|].
    split; [done|]. exists e'. split_and!; [done|congruence| |auto].
    intros Hd. apply Hcon'. destruct Hcon as [->|[Hc _]]; congruence.
Qed.

(** ** When nothing is left to do *)

Lemma carries_works (s : Sys) i e q ev :
  ends s !! i = Some e -> peer e = Some q -> carries i q s ev -> works i s ev = true.
Proof.
  intros Hi Hq Hcar. unfold works. rewrite Hi.
  destruct ev as [[| | | |[| | | | | |q' cev| | | |]|q'|j|x]| |j ev|j|j m|j m]; try done; cbn in Hcar |- *; rewrite ?Hq.
  - destruct Hcar as [-> ->]. by rewrite bool_decide_eq_true_2.
  - subst. by rewrite bool_decide_eq_true_2.
  - by rewrite bool_decide_eq_true_2.
  - destruct Hcar as [-> ->]. by rewrite bool_decide_eq_true_2.
  - by apply bool_decide_eq_true_2.
  - by apply bool_decide_eq_true_2.
Qed.

Lemma idle_spec (s : Sys) i ev : idle i s -> ev ∈ next_work i s -> works i s ev = true -> sys_step s ev = None.
Proof. unfold idle. rewrite Forall_forall. intros Hid Hin Hw. specialize (Hid ev Hin). unfold try in Hid. by rewrite Hw in Hid. Qed.

Lemma idle_arrival (s : Sys) i ev : idle i s -> ev ∈ arrivals i -> works i s ev = true -> sys_step s ev = None.
Proof. intros Hid Hin. apply idle_spec; [done|]. apply elem_of_app. auto. Qed.

Lemma idle_client (s : Sys) i e :
  working i e s -> idle i s -> connecting (client e) = ConnectDone true /\ client_live (client e) /\
    reader (client e) <> RStopped /\ reader (client e) <> RNotStarted.
Proof.
  intros Hwk Hid. destruct (wk_client _ _ _ Hwk) as [Hc|Hc]; [exfalso|done]. pose proof (wk_end _ _ _ Hwk) as Hi.
  assert (sys_step s (YClient i (KConnected true)) = None) as Hnone.
  { apply (idle_arrival s i _ Hid); [set_solver|]. unfold works. rewrite Hi. by rewrite bool_decide_eq_true_2. }
  cbn [sys_step] in Hnone. rewrite Hi in Hnone. cbn [mbind option_bind] in Hnone. by rewrite Hc in Hnone.
Qed.

Lemma idle_conn (s : Sys) i e :
  working i e s -> idle i s -> exists q, peer e = Some q /\ healthy (server s) e q.
Proof.
  intros Hwk Hid. destruct (idle_client s i e Hwk Hid) as (Hcon & Hlive & Hrd). pose proof (wk_end _ _ _ Hwk) as Hi.
  assert (forall ev, ev = CInsert \/ ev = CStart \/ ev = CAgain -> cycle_step (cycle_ (server s)) ev = None) as Hchain.
  { intros ev Hev. destruct (cycle_step (cycle_ (server s)) ev) as [c|] eqn:Ec; [exfalso|done].
    assert (sys_step (E := E) s (YServer (SvCycle ev)) = None) as Hnone.
    { apply (idle_arrival s i _ Hid); [destruct Hev as [->|[->| ->]]; set_solver|]. unfold works. rewrite Hi.
      by destruct Hev as [->|[->| ->]]. }
    cbn [sys_step server_step] in Hnone. destruct Hev as [->|[->| ->]]; cbn [server_only] in Hnone; by rewrite Ec in Hnone. }
  pose proof (wk_conn _ _ _ Hwk) as Hph. unfold conn_phase in Hph. destruct (peer e) as [q|] eqn:Hq.
  - exists q. split; [done|]. destruct Hph as [Hcl Hph]. destruct (chain (cycle_ (server s))) eqn:Hch; [done|..].
    + destruct Hph as (? & ? & _). split; try done. apply Hwk.
    + specialize (Hchain CInsert ltac:(auto)). cbn in Hchain. unfold accept_insert in Hchain. by rewrite Hch in Hchain.
    + specialize (Hchain CStart ltac:(auto)). cbn in Hchain. unfold accept_start in Hchain. by rewrite Hch in Hchain.
    + specialize (Hchain CAgain ltac:(auto)). cbn in Hchain. unfold accept_again in Hchain. by rewrite Hch in Hchain.
  - exfalso. destruct Hph as (Hch & _). assert (sys_step s (YAccept i) = None) as Hnone.
    { apply (idle_arrival s i _ Hid); [set_solver|]. unfold works. rewrite Hi. by apply bool_decide_eq_true_2. }
    cbn [sys_step] in Hnone. rewrite Hi in Hnone. cbn [mbind option_bind] in Hnone. unfold reaching in Hnone. rewrite Hq, Hcon in Hnone.
    cbn [server_step server_only cycle_step] in Hnone. by rewrite Hch in Hnone.
Qed.

Lemma idle_ready (s : Sys) i e p req :
  sys_reachable s -> working i e s -> idle i s -> requests (client e) !! p = Some req ->
  exists r, promises (client e) !! p = Some (Ready r) /\
    process_dispatch req (server_manager n) RpcResponse_init = Ok r.
Proof.
  intros Hr Hwk Hid Hp. pose proof (sys_reachable_inv _ Hr) as Hinv. pose proof (wk_end _ _ _ Hwk) as Hi.
  destruct (idle_conn s i e Hwk Hid) as (q & Hq & Hok). pose proof (working_answering _ _ _ Hinv Hwk) as Hans.
  assert (settled i q s) as Hset.
  { unfold settled. apply Forall_forall. intros ev Hin. apply (idle_spec s i ev Hid).
    - apply elem_of_app. right. by rewrite Hi, (Hq : (Some e ≫= peer) = Some q).
    - eapply carries_works; [done..|]. pose proof (next_carries (E := E) i q s) as Hc.
      rewrite Forall_forall in Hc. by apply Hc. }
  destruct (call_settled s i e q p req Hr Hi (an_fits _ _ Hans) Hok Hset (an_refused _ _ Hans) Hp) as (a & Ea & Hout & Hprom).
  assert (a ∈ answers_to (server s) e) as Ha.
  { assert (a ∈ executions (server s) e p) as [_ Ha]%list_elem_of_filter; [|done].
    rewrite Ea. by apply list_elem_of_singleton. }
  pose proof (an_returns _ _ Hans) as Hret. rewrite Forall_forall in Hret. destruct (Hret a Ha) as [r Hres].
  exists r. split; [by apply Hprom|]. rewrite <- Hres, Hout. f_equal.
  pose proof (up_answers _ (wk_up _ _ _ Hwk)) as Hm. rewrite Forall_forall in Hm. symmetry. apply Hm.
  unfold answers_to in Ha. rewrite Hq in Ha. by apply list_elem_of_filter in Ha as [_ Ha].
Qed.

(** A future that is no longer waiting holds what the service computes, whatever
    is still going on. *)
Lemma decided_answer (s : Sys) i e p req v :
  sys_reachable s -> working i e s -> requests (client e) !! p = Some req ->
  promises (client e) !! p = Some v -> v <> Waiting ->
  exists r, v = Ready r /\ process_dispatch req (server_manager n) RpcResponse_init = Ok r.
Proof.
  intros Hr Hwk Hp Hv Hne. pose proof (sys_reachable_inv _ Hr) as Hinv.
  destruct (until (fun _ => None) (fun _ => false) i s (work_terminates s i Hinv)) as (s' & Hrun & [?|Hid]); [done|].
  destruct (working_run s s' i e Hrun Hinv Hwk) as (_ & e' & Hwk' & Hreq & _ & Hkeep).
  destruct (idle_ready s' i e' p req) as (r & Hpr & Hd); [by eapply work_reachable|done..|by rewrite Hreq|].
  exists r. split; [|done]. specialize (Hkeep p v Hne Hv). congruence.
Qed.
End served_client.
