(* ===== verification/ClientSystem.v ===== *)
(** * The two programs together

    The client program of [ClientMain] over the system of [RpcSystem]: its calls of
    the client library are steps of a client object, and while it waits on a future
    the rest of the system runs: the client's other threads and handlers, the
    network, the server's accept handler, its connection and its pool ([RpcWork]).
    A scheduler picks those steps, and it decides when the program goes on once a
    future is ready, at once or after more of them; what is still under way then
    goes on during the next wait.  A list gives the readings of the clock.
    This discharges the interface [Serves], so what is proved of the session holds
    of client library, network, server and pool together. *)
From S2P Require Import Prelude Text Program WriteQueue Protocol ErrorCode ServiceManager Framing Connection.
From S2P Require Import ConnectionManager MessageCycle Executor ThreadPool RpcServer Wire EndToEnd.
From S2P Require Import RpcClient RpcSystem RpcProgress RpcLiveness RpcCompletion RpcWork Config LogInit Console.
From S2P Require Import ServerMain ClientMain ServedClient.
Import RpcServer RpcSystem.

#[local] Arguments request_bytes : simpl never.
#[local] Arguments response_bytes : simpl never.

Section system_api.
Context {X E : Type} {HX : Executor task X E} {HR : ExecutorRests task X E}.

Abbreviation Sys := (System (X := X)).
Abbreviation event := (sys_event (E := E)).

(** The scheduler, and the hosts that lead to the server's machine. *)
Variable pick : Sys -> option event.
Variable here : str -> bool.

(** ** The world of the client program *)

Record client_world := {
  sys : Sys;
  sys_ok : sys_reachable sys;
  me : nat;                  (* the program's client object *)
  clock : list Z             (* what [steady_clock] will read *)
}.

Definition in_system (s : Sys) (H : sys_reachable s) (w : client_world) : client_world :=
  {| sys := s; sys_ok := H; me := me w; clock := clock w |}.
Definition as_client (i : nat) (w : client_world) : client_world :=
  {| sys := sys w; sys_ok := sys_ok w; me := i; clock := clock w |}.

Lemma run_from evs (s s' : Sys) : sys_reachable s -> run sys_step evs s = Some s' -> sys_reachable s'.
Proof. intros Hs Hr. unfold sys_reachable in *. etransitivity; [exact Hs|]. by eapply run_steps. Qed.

(** Steps of the program's own thread. *)
Definition take_steps (evs : list event) (w : client_world) : option client_world :=
  match run sys_step evs (sys w) as r return run sys_step evs (sys w) = r -> option client_world with
  | Some s' => fun H => Some (in_system s' (run_from _ _ _ (sys_ok w) H) w)
  | None => fun _ => None
  end eq_refl.

(** ** Waiting *)

Definition waiting (ready : Sys -> bool) (w : client_world) : client_world :=
  let '(exist _ s' H) :=
    until pick ready (me w) (sys w) (work_terminates (sys w) (me w) (sys_reachable_inv _ (sys_ok w))) in
  in_system s' (work_reachable _ _ _ (proj1 H) (sys_ok w)) w.

(** The future of [connect], and that of a call. *)
Definition connect_ready (i : nat) (s : Sys) : bool :=
  match ends s !! i with
  | Some e => match connecting (client e) with ConnectDone _ => true | _ => false end
  | None => true
  end.

Definition the_promise (i : nat) (p : promise_ptr) (s : Sys) : option promise :=
  e ← ends s !! i; promises (client e) !! p.

Definition call_ready (i : nat) (p : promise_ptr) (s : Sys) : bool :=
  match the_promise i p s with Some Waiting => false | _ => true end.

(** ** The library *)

(** A client object and [connect(host, port).get()]: the connection is
    established if the server listens on that port of that machine, and
    refused otherwise. *)
Definition system_connect (host : str) (port : Z) : prog client_world (option str) := fun w =>
  let i := length (ends (sys w)) in
  if here host && bool_decide (acceptor_on (cycle_ (server (sys w))) = Some port) then
    match take_steps [YOpen; YClient i KConnect] w with
    | Some w' =>
        let w' := waiting (connect_ready i) (as_client i w') in
        match ends (sys w') !! i with
        | Some e => match connecting (client e) with ConnectDone true => Returned None w' | _ => Polling w' end
        | None => Undefined
        end
    | None => Undefined
    end
  else
    match take_steps [YOpen; YClient i KConnect; YClient i (KConnected false)] w with
    | Some w' => Returned (Some (bs "Connection refused")) (as_client i w')
    | None => Undefined
    end.

(** [call(...).get()]: the call begins and the future is waited for. *)
Definition system_call (svc m ps : str) : prog client_world RpcResponse := fun w =>
  match ends (sys w) !! me w with
  | None => Undefined
  | Some e =>
      let p := length (promises (client e)) in
      match take_steps [YClient (me w) (KCall {| service_name := svc; method_name := m; timeout_ms := 5000; params := ps |})] w with
      | None => Undefined
      | Some w' =>
          let w' := waiting (call_ready (me w) p) w' in
          match the_promise (me w) p (sys w') with
          | Some (Ready r) => Returned r w'
          | Some Broken => Raised (other_std_exception (bs "broken promise")) w'
          | _ => Polling w'
          end
      end
  end.

Definition system_disconnect : prog client_world unit := fun w =>
  match take_steps [YClient (me w) KDisconnect] w with
  | Some w' => Returned tt w'
  | None => Undefined
  end.

Definition system_now : prog client_world Z := fun w =>
  Returned (hd 0 (clock w)) {| sys := sys w; sys_ok := sys_ok w; me := me w; clock := tl (clock w) |}.

#[export] Instance system_api : RpcApi client_world := {
  api_connect := system_connect; api_call := system_call;
  api_disconnect := system_disconnect; api_now := system_now
}.

(** ** Lemmas on the world *)

Lemma take_steps_some evs w s' :
  run sys_step evs (sys w) = Some s' -> exists w', take_steps evs w = Some w' /\ sys w' = s' /\ me w' = me w.
Proof.
  intros Er. unfold take_steps.
  assert (forall r (Hr : run sys_step evs (sys w) = r), r = Some s' -> exists w',
    match r as r return run sys_step evs (sys w) = r -> option client_world with
    | Some s' => fun H => Some (in_system s' (run_from _ _ _ (sys_ok w) H) w)
    | None => fun _ => None
    end Hr = Some w' /\ sys w' = s' /\ me w' = me w) as Hgen.
  { intros r Hr ->. eexists. by split_and!. }
  by apply Hgen.
Qed.

Lemma waiting_spec ready w :
  me (waiting ready w) = me w /\ rtc (work_step (me w)) (sys w) (sys (waiting ready w)) /\
  (ready (sys (waiting ready w)) = true \/ idle (me w) (sys (waiting ready w))).
Proof. unfold waiting. destruct (until _ _ _ _ _) as (s' & Hr & Hs). by split_and!. Qed.

End system_api.

Lemma bind_some {A B : Type} {step : A -> B -> option A} {s ev s'} :
  step s ev = Some s' -> run step [ev] s = Some s'.
Proof. cbn. by intros ->. Qed.

(** ** The interface is implemented *)

Section serves.
Context {X E : Type} {HX : Executor task X E} {HR : ExecutorRests task X E}.
Variable pick : System (X := X) -> option (sys_event (E := E)).
Variable here : str -> bool.
Variables n address_port : Z.

(** The server is up on the port, has no request yet and one connection less than
    the statistics will report; the next connection's id is not taken. *)
Definition awaits (w : client_world) : Prop :=
  let srv := server (sys w) in
  ends (sys w) = [] /\ server_up n srv /\ acceptor_on (cycle_ srv) = Some address_port /\
  chain (cycle_ srv) = Accepting /\ MessageCycle.connection_count (cycle_ srv) = n - 1 /\
  conns_ (conn_mgr_ (cycle_ srv)) !! next_id_ (conn_mgr_ (cycle_ srv)) = None /\ received srv = [].

(** The client after so many calls, with or without work left. *)
Definition in_session (k : Z) (w : client_world) : Prop := exists e,
  working n (me w) e (sys w) /\ connecting (client e) = ConnectDone true /\ len (requests (client e)) = k.

(** A client that has disconnected; if the server has had a request, it has the
    client's connection in its table. *)
Definition disconnected (w : client_world) : Prop := exists e,
  ends (sys w) !! me w = Some e /\ terminated (client e) = false /\
  (received (server (sys w)) <> [] -> MessageCycle.connection_count (cycle_ (server (sys w))) = n).

Lemma system_connects host port w :
  here host = true /\ port = address_port -> awaits w ->
  exists w', system_connect pick here host port w = Returned None w' /\ in_session 0 w'.
Proof.
  intros [Hh ->] (He & Hup & Hon & Hch & Hcnt & Hid & Hrec).
  unfold system_connect. rewrite Hh, Hon, He. cbn [length]. rewrite bool_decide_eq_true_2 by done. cbn [andb].
  set (e0 := set_client (connect RpcClient_init) endpoint_init).
  destruct (take_steps_some [YOpen; YClient 0 KConnect] w {| server := server (sys w); ends := [e0] |}) as (w1 & Et & E1 & _).
  { cbn [run sys_step mbind option_bind ends]. by rewrite He. }
  rewrite Et. set (w2 := as_client 0 w1).
  destruct (waiting_spec pick (connect_ready 0) w2) as (Hme & Hrun & Hend).
  assert (working n 0 e0 (sys w2)) as Hwk.
  { subst w2. cbn [sys as_client]. rewrite E1. split; [done|done|by left|by split_and!|done|cbn; congruence|done|done]. }
  destruct (working_run n _ _ _ e0 Hrun (sys_reachable_inv _ (sys_ok w2)) Hwk) as (_ & e & Hwk' & Hreq & _).
  set (w3 := waiting pick (connect_ready 0) w2) in *. change (me w2) with 0%nat in *.
  rewrite (wk_end _ _ _ _ Hwk').
  assert (connecting (client e) = ConnectDone true) as Hcon.
  { destruct Hend as [Hend|Hidle]; [|by apply (idle_client n (sys w3) 0 e)]. unfold connect_ready in Hend.
    rewrite (wk_end _ _ _ _ Hwk') in Hend. destruct (wk_client _ _ _ _ Hwk') as [Hc|[Hc _]]; [|done].
    by rewrite Hc in Hend. }
  rewrite Hcon. exists w3. split; [done|]. exists e. rewrite Hme, Hreq. by split_and!.
Qed.

(** The client's thread begins a call, whatever is still under way. *)
Lemma call_begins (s : System (X := X)) i e req :
  working n i e s -> connecting (client e) = ConnectDone true -> len (requests (client e)) < 2 ^ 32 -> answerable req ->
  let e' := set_client (call_begin req (client e)) e in
  let s' := {| server := server s; ends := <[i := e']> (ends s) |} in
  sys_step (E := E) s (YClient i (KCall req)) = Some s' /\ working n i e' s'.
Proof.
  intros [Hi Hup Hcl Hph Hp Hcount Hreq Hn] Hcon Hlt Hr e' s'.
  assert (client_live (client e) /\ reader (client e) <> RStopped /\ reader (client e) <> RNotStarted) as ([Ht Hio] & Hrd).
  { destruct Hcl as [Hc|(_ & ?)]; [by rewrite Hc in Hcon|done]. }
  split.
  - unfold sys_step. rewrite Hi. cbn [mbind option_bind]. unfold client_step. by rewrite Ht.
  - split; try done; cbn.
    + apply list_lookup_insert_eq. by eapply lookup_lt_Some.
    + right. destruct Hrd. by split_and!.
    + apply Forall_app. split; [done|]. by constructor.
    + rewrite len_app, len_cons, len_nil. lia.
Qed.

Lemma system_calls k svc m ps w :
  let req := {| service_name := svc; method_name := m; timeout_ms := 5000; params := ps |} in
  answerable req -> 0 <= k < 2 ^ 32 -> in_session k w ->
  exists resp w', system_call pick svc m ps w = Returned resp w' /\ in_session (k + 1) w' /\
    process_dispatch req (server_manager n) RpcResponse_init = Ok resp.
Proof.
  intros req Hreq Hk (e & Hwk & Hcon & Hlen). unfold system_call.
  rewrite (wk_end _ _ _ _ Hwk). fold req. set (p := length (promises (client e))).
  destruct (call_begins (sys w) (me w) e req Hwk Hcon ltac:(lia) Hreq) as [Es Hwk1].
  destruct (take_steps_some [YClient (me w) (KCall req)] w _ (bind_some Es)) as (w1 & Et & E1 & Eme).
  rewrite Et. set (e1 := set_client (call_begin req (client e)) e) in *. rewrite <- E1, <- Eme in Hwk1. rewrite <- Eme.
  destruct (waiting_spec pick (call_ready (me w1) p) w1) as (Hme & Hrun & Hend).
  destruct (working_run n _ _ _ e1 Hrun (sys_reachable_inv _ (sys_ok w1)) Hwk1) as (_ & e' & Hwk' & Hreq' & Hcon' & _).
  set (w2 := waiting pick (call_ready (me w1) p) w1) in *.
  pose proof (cl_len _ (client_reachable_inv _ (en_client _ _ (sy_end _ (sys_reachable_inv _ (sys_ok w)) _ _ (wk_end _ _ _ _ Hwk))))) as Hpl.
  assert (requests (client e') !! p = Some req) as Hp.
  { rewrite Hreq'. subst p e1. cbn. rewrite <- Hpl. by apply list_lookup_middle. }
  pose proof (cl_len _ (client_reachable_inv _ (en_client _ _ (sy_end _ (sys_reachable_inv _ (sys_ok w2)) _ _ (wk_end _ _ _ _ Hwk'))))) as Hpl'.
  assert (exists r, promises (client e') !! p = Some (Ready r) /\
    process_dispatch req (server_manager n) RpcResponse_init = Ok r) as (r & Hr & Hd).
  { destruct Hend as [Hend|Hidle]; [|eapply idle_ready; [apply (sys_ok w2)|done..]].
    unfold call_ready, the_promise in Hend. rewrite (wk_end _ _ _ _ Hwk') in Hend. cbn [mbind option_bind] in Hend.
    destruct (lookup_lt_is_Some_2 (promises (client e')) p) as [v Hv].
    { rewrite <- Hpl'. by eapply lookup_lt_Some. }
    rewrite Hv in Hend. destruct (decided_answer n (sys w2) (me w1) e' p req v) as (r & -> & Hd);
      [apply (sys_ok w2)|done..|by destruct v|]. by exists r. }
  exists r, w2. split_and!; [|exists e'|done].
  - unfold the_promise. rewrite (wk_end _ _ _ _ Hwk'). cbn [mbind option_bind]. by rewrite Hr.
  - rewrite Hme. split_and!; [done|by apply Hcon'|]. rewrite Hreq'. subst e1. cbn.
    rewrite len_app, len_cons, len_nil. lia.
Qed.

Lemma system_disconnects w : disconnected w -> exists w', system_disconnect w = Returned tt w' /\ disconnected w'.
Proof.
  intros (e & Hi & Ht & Hc). unfold system_disconnect.
  assert (sys_step (E := E) (sys w) (YClient (me w) KDisconnect) = Some {| server := server (sys w);
    ends := <[me w := set_client (disconnect (client e)) e]> (ends (sys w)) |}) as Es.
  { unfold sys_step. rewrite Hi. cbn [mbind option_bind]. unfold client_step. rewrite Ht. done. }
  destruct (take_steps_some [YClient (me w) KDisconnect] w _ (bind_some Es)) as (w1 & Et & E1 & Eme).
  rewrite Et. exists w1. split; [done|]. exists (set_client (disconnect (client e)) e). rewrite E1, Eme. split_and!; [|done|done].
  apply list_lookup_insert_eq. by eapply lookup_lt_Some.
Qed.

Lemma session_disconnects k w : in_session k w -> disconnected w.
Proof.
  intros (e & Hwk & Hcon & _). exists e. split_and!; [apply Hwk| |apply Hwk].
  destruct (wk_client _ _ _ _ Hwk) as [Hc|(_ & [? _] & _)]; [by rewrite Hc in Hcon|done].
Qed.

#[export] Program Instance system_serves : Serves (H := system_api pick here) (server_manager n) := {
  listens host port := here host = true /\ port = address_port;
  offers := awaits;
  connected := in_session;
  ended := disconnected
}.
Next Obligation. intros host port w. apply system_connects. Qed.
Next Obligation.
  intros k svc m ps w req Hfit Hl Hk Hw. destruct (system_calls k svc m ps w) as (r & w' & Ec & Hw' & Hd);
    [by split|done|done|].
  exists r, w'. split_and!; [done..|]. intros h Hh. rewrite request_dispatched by (done || apply Hfit). exact Hd.
Qed.
Next Obligation. intros k w Hw. by eexists _, _. Qed.
Next Obligation. intros k w Hw. by eapply system_disconnects, session_disconnects. Qed.
Next Obligation. intros w. apply system_disconnects. Qed.
End serves.

(** ** Server program and client program *)

Section programs.
Context {J : Type} `{Json J}.
Variable read_file : str -> option str.
Variable make_dirs : str -> outcome unit.
Variable from_str : str -> level.
Variables (threads cores : Z) (Hthreads : 0 <= threads) (Hcores : 0 <= cores).

#[local] Instance program_pool : Executor task (ThreadPool task) (pool_event task) :=
  pool_executor threads cores Hthreads Hcores.
#[local] Instance program_pool_rests : ExecutorRests task (ThreadPool task) (pool_event task) :=
  pool_rests threads cores Hthreads Hcores.

Abbreviation the_system := (System (X := ThreadPool task)).
Abbreviation the_event := (sys_event (E := pool_event task)).

(** The server once it is in [cycle_.run()], and no client yet. *)
Definition system_of (srv : RpcServer (X := ThreadPool task)) : the_system :=
  {| server := set_cycle (run_loop (cycle_ srv)) srv; ends := [] |}.

Lemma program_reachable count port : sys_reachable (system_of (started_server cores count port threads)).
Proof.
  apply (run_steps _ [YServer SvSetPool; YServer (SvManager (Register (Some (PingService count))));
    YServer (SvStart port None); YServer (SvCycle CRun)]). reflexivity.
Qed.

Lemma program_awaits port (w : client_world) :
  sys w = system_of (started_server cores 1 port threads) -> awaits 1 port w.
Proof. intros Ew. unfold awaits. rewrite Ew. by split_and!. Qed.

(** C8: the two programs together.  Let the server program start with a
    configuration that loads and no failing call on its acceptor, and the client
    program be directed at that machine and port.  Then under any scheduler of the
    client's threads and handlers, the network, the server's accept handler, its
    connection and its pool, one that also decides, once a future is ready, when
    the client program goes on and how much of that is still under way when it
    makes its next call, and whatever the clock reads, the client's session ends
    with status 0, an empty error output and a closed client, and prints what the
    services computed: the answer to Ping, statistics that count the one
    connection, the error of the unknown service, and a hundred successes.  (The
    server program is not told to stop, no other client connects and no
    connection fails meanwhile.) *)
Theorem programs_together (pick : the_system -> option the_event) (here : str -> bool) host
    sargs so scfg sx args o cfg x :
  ServerMain.parse_args sargs options_default = Ok (Run so) ->
  load_config (read_file (config_path so)) = Ok scfg -> make_dirs (log_dir (log scfg)) = Ok tt ->
  pool_size scfg = threads -> 8 * pool_threads threads cores <= max_size -> world sx = RpcServer_init ->
  parse_args args client_options_default = Ok (Run o) -> stress_mode o = false ->
  load_config (read_file (co_config_path o)) = Ok cfg -> make_dirs (log_dir (log cfg)) = Ok tt ->
  here host = true -> target o cfg = (host, listen_port so scfg) ->
  exists sx', launch read_file make_dirs from_str cores 1 None sargs sx = Returned (Run (listen_port so scfg)) sx' /\
    (sys (world x) = system_of (world sx') ->
     let address := host ++ bs ":" ++ int_string (listen_port so scfg) in
     exists ms x', main (H := system_api pick here) read_file make_dirs from_str args x = Returned 0 x' /\
       disconnected 1 (world x') /\ cerr x' = cerr x /\
       cout x' = cout x ++
         bs "=== RPC Client ===" ++ newline ++ bs "Server: " ++ address ++ newline ++
         bs "Connecting to " ++ address ++ bs " ..." ++ newline ++ bs "Connected!" ++ newline ++
         session_text 1 ms ++ newline ++ bs "Disconnected." ++ newline).
Proof.
  intros Hsa Hsc Hsd Hn Hm Hsx Ha Hs Hc Hd Hh Ht.
  pose proof (launch_runs read_file make_dirs from_str cores 1 sargs so scfg Hsa Hsc Hsd) as Hb. rewrite Hn in Hb.
  destruct (Hb Hm sx Hsx) as (r & t & sx' & E & (-> & _ & Ew) & _).
  exists sx'. split; [done|]. intros Hw address.
  pose proof (client_session (H := system_api pick here) 1
    (SV := system_serves pick here 1 (listen_port so scfg)) read_file make_dirs from_str args o cfg x Ha Hs Hc Hd) as Hgo.
  rewrite Ht in Hgo. apply Hgo; [done|]. apply program_awaits. congruence.
Qed.
End programs.

(** The programs with their default configuration on port 9000; the clock does not
    move, and the scheduler runs the pool's workers whenever it can. *)
Definition eight_pool : Executor task (ThreadPool task) (pool_event task) :=
  pool_executor 8 0 ltac:(lia) ltac:(lia).

Definition workers_first (s : System (X := ThreadPool task)) : option (sys_event (E := pool_event task)) :=
  x ← thread_pool_ (server s); ev ← head (pool_next x); Some (YServer (SvPool ev)).

Definition started_world : client_world (HX := eight_pool) :=
  {| sys := system_of (started_server 0 1 9000 8); sys_ok := program_reachable 8 0 ltac:(lia) ltac:(lia) 1 9000;
     me := 0; clock := [] |}.
Definition started_io : io (client_world (HX := eight_pool)) :=
  {| world := started_world; cout := []; cerr := []; logger_state := log_state_init |}.

Lemma programs_together_witness :
  exists x', main (H := system_api (HX := eight_pool) (HR := pool_rests 8 0 _ _) workers_first (fun _ => true))
    (H0 := fixed_json None) (fun _ => None) (fun _ => Ok tt) (fun _ => info)
    [bs "--host"; bs "127.0.0.1"; bs "--port"; bs "9000"] started_io = Returned 0 x' /\ cerr x' = [].
Proof.
  destruct (programs_together (H := fixed_json None) (fun _ => None) (fun _ => Ok tt) (fun _ => info) 8 0
    ltac:(lia) ltac:(lia) workers_first (fun _ => true) (bs "127.0.0.1") [bs "--port"; bs "9000"] port_9000 Config_default fresh_server
    [bs "--host"; bs "127.0.0.1"; bs "--port"; bs "9000"]
    (with_port 9000 (with_host (bs "127.0.0.1") client_options_default)) Config_default started_io)
    as (sx' & E & Hgo); [by vm_compute..|].
  destruct Hgo as (ms & x' & Em & _ & He & _).
  - vm_compute in E. injection E as <-. by vm_compute.
  - exists x'. exact (conj Em He).
Defined.
